(* ===== verification/_CoqProject ===== *)
-Q . S2P
Prelude.v
Types.v
Binval.v
Utils.v
ListValue.v
HashValue.v
BackendMem.v
ListMem.v
HashMem.v
StoreInterface.v
KvStore.v
Commands.v
CommandSpec.v
Db.v
Persistence.v
Flush.v
SessionLaws.v
Session.v
Maintenance.v
Load.v
LinearProbing.v
SharedMem.v
SharedHash.v
SharedHashSpec.v
SharedHashOps.v
SharedHashRefine.v
SharedList.v
SharedListSpec.v
SharedListRefine.v
SharedStore.v
SharedStoreSpec.v
SharedStoreOps.v
DirtyEvent.v
DirtyRing.v
RingProtocol.v
AsyncDrain.v
AsyncPublish.v
SharedAtomic.v
SharedAtomicSpec.v
SharedStoreRefine.v
SharedAtomicAsync.v
SharedMode.v
SharedCommands.v
ColdStart.v
SharedLoad.v
DatumVec.v
Shmem.v
Jobs.v
Bgworker.v
Guc.v
Attach.v
LockOrder.v
WorkerLoop.v
Snapshot.v
Admin.v
Divergences.v
