(* ===== verification/Prelude.v ===== *)
(** * pg_redis: a verified model of a Redis-style keyspace inside PostgreSQL

    pg_redis is a PostgreSQL extension.  SQL functions of the schema [pgredis]
    (SET, GET, HSET, LPUSH, EXPIRE, ...) work on a keyspace in memory.  In
    [session] storage each backend has its own keyspace; in [shared] storage
    there is one in dynamic shared memory.  With [persistence_mode =
    'sync_table'] the changes of a transaction are written to three tables when
    it commits and read back on the first access of a new backend; with
    ['async_table'] they are published as events on a shared ring, which a
    background worker drains into the same tables.

    ** The parts and the files that model them

    - This file: byte strings, machine integers with their wrap-around, the
      state-and-error monad [M] with [ereport], loops, shared lemmas.
    - [Types.v] (src/types.h): value types, lists, hashes, entries, modes and
      the configuration parameters.
    - [Binval.v] (src/binval.c): the TLV codec of the [value] column.
    - [Utils.v] (src/utils.c, src/utils.h): argument checks, integer text, mode
      resolution.
    - [ListValue.v] (src/list.c), [HashValue.v] (src/hash_value.c): the
      collections of a backend with the deltas they record for the next flush.
    - [BackendMem.v] (src/utils.c), [ListMem.v] (src/list.c), [HashMem.v]
      (src/hash_value.c): the same collections with the pointers of the source, on
      a heap of palloc'd chunks, and the rules to verify such code.
    - [StoreInterface.v]: what a command needs of a keyspace, the class
      [StoreOps], and what a keyspace promises, the class [StoreLaws].
    - [KvStore.v] (src/kv_store.c, src/ttl.c): the keyspace of a backend, its
      dirty chain and pending deletes.
    - [Commands.v] (src/pg_redis.c, src/ttl.c): the seventeen data commands,
      written once over [StoreOps].
    - [CommandSpec.v]: the abstract keyspace (a finite map from keys to strings,
      integers, finite maps and sequences, with deadlines), the specification
      [spec_cmd] of each command on it, and the proof that the commands refine
      it over any keyspace that satisfies [StoreLaws].
    - [Db.v] (pg_redis--1.2.sql and the SQL texts of src/persistence.c): the
      tables with their primary and foreign keys and the statements on them.
    - [Persistence.v] (src/persistence.c, src/ttl.c, src/pg_redis.c): run_flush
      and its pieces, the load (written once over the record [LoadOps], since it
      fills either keyspace), the transaction callbacks, FLUSHALL, KEYS, the
      TTL sweep, the plan slots and the AOF append; the [StoreOps] instance of
      session storage.
    - [Flush.v], [SessionLaws.v], [Session.v]: the invariant that ties memory
      to tables, the [StoreLaws] instance, scripts of commands, COMMIT and
      ROLLBACK.
    - [Maintenance.v]: sweep, KEYS, FLUSHALL, STATS, EXPIRE followed by TTL.
    - [Load.v]: what the load makes of the tables.
    - [LinearProbing.v]: open addressing with tombstones in the abstract: where
      a key is found and why removal and reuse keep every chain intact.
    - [SharedMem.v] (src/shmem.c): the heap of DSA chunks, the allocator
      wrappers over a parametric DSA, and what the allocator promises (the class
      [DsaLaws]).
    - [SharedHash.v], [SharedHashSpec.v], [SharedHashOps.v],
      [SharedHashRefine.v] (src/shared_hash.c): the hash table of one key, its
      invariant and footprint, and its refinement of a finite map.
    - [SharedList.v], [SharedListSpec.v], [SharedListRefine.v]
      (src/shared_list.c): the same for the doubly linked list.
    - [SharedStore.v], [SharedStoreSpec.v], [SharedStoreOps.v]
      (src/shared_store.c): scratch copies, writeback, lookup, removal and
      reset of the shared keyspace; each key owns its chunks alone.
    - [DirtyEvent.v], [DirtyRing.v] (src/dirty_ring.c, src/dirty_ring.h): the
      event codec, the slots, the operations of the ring.
    - [RingProtocol.v]: producers, drainers, reclaim and FLUSHALL interleaved on
      one ring.
    - [AsyncDrain.v] (src/persistence.c): the drain of a batch into the tables.
    - [AsyncPublish.v] (src/kv_store.c, src/dirty_ring.c): the publishers of
      [pg_redis_mark_dirty], the blocking publish with its two full-ring
      policies, and the way of an entry from publish to tables.
    - [SharedAtomic.v], [SharedAtomicSpec.v], [SharedAtomicAsync.v]
      (src/shared_store.c): HSET and HDEL in place, with the events they publish
      and their retry loops.
    - [SharedStoreRefine.v]: sequences of operations on the shared keyspace.
    - [SharedMode.v], [SharedCommands.v] (src/kv_store.c, src/pg_redis.c): the
      second [StoreOps] instance, so that the commands of [Commands.v] run on
      the shared keyspace, and what SET, GET, DEL and EXPIRE do there.
    - [ColdStart.v] (src/persistence.c): which backend loads the shared keyspace.
    - [SharedLoad.v] (src/persistence.c): the load of the shared keyspace, the
      second [LoadOps], and the elected loader around it.
    - [DatumVec.v] (src/persistence.c): the growing vectors from which the array
      parameters of the statements are built.
    - [Shmem.v] (src/shmem.c, src/pg_redis.c): sizes, partition locks, the
      snapshot flag, FLUSHALL in shared mode.
    - [Jobs.v] (src/jobs.c), [Bgworker.v] (src/bgworker.c): the scheduled jobs
      and the turns of the worker.
    - [Guc.v] (src/pg_redis.c, src/bgworker.c): the configuration parameters
      with ranges, contexts and hooks, [_PG_init], the worker's registration.
    - [Attach.v] (src/shmem.c): the request for shared memory, the startup hook,
      the worker's latch, and how backends create or attach the DSA segment.
    - [LockOrder.v]: the lock actions, SPI calls and pauses of every operation
      in shared storage, interleaved.
    - [WorkerLoop.v] (src/bgworker.c): the main function of the worker with its
      signals and its latch.
    - [Snapshot.v] (src/persistence.c): the JSON snapshot.
    - [Admin.v] (src/pg_redis.c): INFO, STATS, MEMORY USAGE, SAVE, BGSAVE,
      BGREWRITEAOF, RUN_JOB, RING_INSPECT, LOAD_STATE.
    - [Divergences.v]: histories on which session mode departs from its
      comments.

    ** State and operations

    A C struct is a record with the members of the struct; a chain of nodes is a
    list in chain order; a dynahash table is a [gmap].  A function that mutates
    or raises is a computation of [M]: it returns its result or the SQLSTATE it
    raises, and the state it leaves in both cases, since PostgreSQL does not
    undo what a command wrote to backend memory before it raised.  [Backend]
    (Persistence.v) is the state of a session: keyspace, load flag, tables as
    the transaction sees them, tables as committed, [now()] of the transaction
    and the number of clock readings.  The clock is a function from reading
    number to timestamp, so every call of [GetCurrentTimestamp] is explicit and
    two readings of one command may differ; theorems that need it assume it
    monotone.  The ring is a state machine ([sys_step]): publishing takes one
    transition per atomic access of the source, the operations under
    [ring_consumer_lock] are one transition each.  The election of the loader
    ([load_step]), the attaching of the segment ([attach_step]), the holding of
    locks ([lock_step]) and the worker's main function ([loop_step]) are machines
    of the same kind; in each, processes may raise or exit between any two
    transitions where the code can.

    The memory of a backend (BackendMem.v) is a finite map from addresses to chunks
    with the context they belong to.  A program on it is verified against the
    list of the cells it owns ([wp]): it may touch no other, so it has no
    dangling access, and the cells at its end are all there are, so it leaks
    none.  What palloc answers is a parameter.

    Dynamic shared memory ([Dsa], SharedMem.v) is a finite map from pointers to
    chunks (bytes, a table with its buckets, a list node), or absent.  Following a
    pointer that is not allocated raises [SEGMENTATION_FAULT], so a theorem that
    rules the error out rules out the dangling pointer.  Where the allocator puts
    a chunk and when it runs out is a parameter; so are [hash_bytes] and the room
    left in the shared table.  A [Node] is keyspace, heap, ring and tables
    together; a call that holds the partition lock throughout is one transition,
    and what other processes do while a retry loop has released it is a
    parameter of the loop.

    ** What the theorems show

    - Commands: any script of commands answers, errors included, as the abstract
      keyspace does ([session_refines_spec]); EXPIRE and TTL round to whole
      seconds as documented ([expire_then_ttl]); sweep, KEYS, FLUSHALL and STATS
      are exact ([ttl_sweep_exact], [keys_exact], [flushall_empties],
      [stats_consistent]).
    - Collections: lists and hashes refine deques and finite maps with exact
      accounting ([list_refines_deque], [hash_refines_map]), and the recorded
      deltas turn the rows of the last flush into the rows of the present value
      ([list_deltas_exact], [hash_deltas_exact]).  The pointer code computes the
      same, accesses no memory it does not own and leaks nothing
      ([list_memory_refines], [hash_memory_refines]), as long as no allocation is
      refused ([failed_hset_dangles], [failed_pop_loses_value]).
    - Durability: COMMIT makes the tables show the keyspace
      ([commit_makes_durable]), ROLLBACK drops the tracking
      ([abort_drops_tracking]), the load restores the tables ([load_restores]),
      and a new backend sees what the last one committed ([restart_recovers]).
    - Codecs: values, integers and events round-trip ([tlv_roundtrip],
      [tlv_canonical], [int64_text_roundtrip], [event_roundtrip]).
    - Asynchronous persistence: along orderly interleavings the ring is a
      bounded FIFO queue ([ring_is_queue]); a publish alone returns
      ([publish_alone]), a blocking one waits a bounded time or makes room
      ([block_waits_bounded], [sync_flush_makes_room]); the drain equals an
      in-order replay and either completes or leaves everything for the next
      drain ([drain_is_replay], [drain_exact]); publishing an entry and draining
      writes what the synchronous flush writes ([async_persists]).
    - Shared storage: hash tables and lists in shared memory refine finite maps
      and deques and free all they allocate ([shared_hash_refines_map],
      [shared_list_refines_deque]); the keyspace over them refines a map of
      values ([shared_keyspace_refines_map]); HSET, once it has returned and
      the ring is drained, is in the tables ([hset_reaches_tables]), and it ends ([shared_hash_mutations_end]); SET and GET
      agree ([shared_set_get]); FLUSHALL empties keyspace, ring and tables
      ([shared_flushall_empties]) under locks that cover every key
      ([partition_locks_cover]); the table is sized without overflow
      ([estimate_exact]).
    - Cold start: one loader at a time ([cold_start_one_loader]) and no deadlock
      after a loader has died ([cold_start_recovers]); on an empty keyspace the
      load makes of the tables what [shared_load_exact] says.
    - Shared memory and locks: every backend ends up with the one published
      segment ([attach_agrees]) and an undisturbed attempt to attach ends
      ([attach_progress]); the startup hook initialises the header once
      ([startup_initialises_once]); whatever operations any number of backends
      interleave, no SPI call or pause happens under a lock and there is always
      a step to take ([locks_never_deadlock]).
    - Configuration: after any start and any sequence of settings the parameters
      have the types and ranges the other files assume
      ([settings_well_typed]); those that fix the layout do not change after
      start ([layout_fixed_at_start]).
    - Statement parameters: the vectors build the array of what was pushed, with
      no write outside an allocation ([vec_builds_array]).
    - Worker: it empties the queue ([worker_empties_queue]); every due job runs
      once ([due_jobs_run_once]); it does not sleep through a wake-up
      ([wakeups_not_lost]) and SIGTERM stops it ([sigterm_stops]); a snapshot
      holds the live keys ([snapshot_exact]); the reports agree with each other
      ([reports_agree]).
    - Where the code departs from its comments: [stale_reservation_wedges],
      [drain_reorders], [long_value_truncated],
      [rollback_after_sync_flush_loses_event], the histories of Divergences.v,
      and in shared storage [shared_expire_sets_nothing],
      [shared_del_not_persisted], [expire_oom_dangles],
      [interleaved_increments_lose_one], [refused_hset_stays],
      [retried_hset_reports_overwrite], [stale_stamp_two_loaders],
      [restart_keeps_one_field], [restart_keeps_popped_item],
      [failed_load_crashes_the_next], [second_load_doubles_lists],
      [shutdown_drains_one_batch], the second half of [sigterm_stops],
      [bgsave_repeats], [worker_snapshot_is_empty].  They are also what the hypotheses of the theorems above
      exclude: [fresh_slate], [orderly], [drain_ordered].

    ** Bounds

    Recursion is structural, over lists the code collected first or over counts
    it computes; [publish_run] has fuel 6, the number of atomic accesses of a
    publish that is not interleaved, and the blocking publish takes a bound on
    its attempts (100 suffice to block, 2 with room to be made on an idle
    ring).  [ring_is_queue] bounds the number of
    actions by 2^64 minus the capacity, so that the [uint64] heads do not wrap.
    Counters and versions wrap at their width.  A probe has the bucket count as
    fuel, which is the bound of the source; a walk over a list in shared memory
    has the number of chunks, which a list without a cycle cannot
    exceed ([list_repr] implies it has none); the retry loops of HSET and HDEL
    take a bound on their attempts (100 suffice under 'block').

    ** Not modelled

    - PostgreSQL itself.  What the code relies on is a parameter or a documented
      rule of the model: the clock, [hash_bytes], the DSA allocator, the room in
      the shared table, repalloc's size limit, how a configuration parameter is
      set, that locks are released on error and at exit.  SPI connections and
      snapshots have no state of their own: a statement is a function on the
      tables that may raise.
    - The wording of messages, and the C boilerplate of set-returning functions.
    - Memory outside the two collections: the buffers a statement allocates and
      leaves to its context, and string values of entries. *)
From Stdlib Require Export ZArith Lia String.
From Stdlib Require Export Strings.Byte.
From stdpp Require Export base list gmap numbers sorting.

#[global] Open Scope Z_scope.

(** ** Bytes and byte strings

    A [char *] / [text *] payload of the sources is a list of bytes; the
    explicit length the C code carries next to the pointer is its length. *)

Abbreviation byte := Init.Byte.byte.
Abbreviation bytes := (list byte).

Definition byte_to_Z (b : byte) : Z := Z.of_N (Byte.to_N b).
Definition byte_of_Z (z : Z) : byte :=
  default Byte.x00 (Byte.of_N (Z.to_N (z mod 256))).

#[export] Instance byte_eq_dec : EqDecision byte := Byte.byte_eq_dec.
#[export] Instance byte_countable : Countable byte :=
  inj_countable Byte.to_N Byte.of_N Byte.of_to_N.

Lemma byte_to_Z_range b : 0 <= byte_to_Z b < 256.
Proof. unfold byte_to_Z. pose proof (Byte.to_N_bounded b). lia. Qed.

Lemma byte_to_of_Z z : byte_to_Z (byte_of_Z z) = z mod 256.
Proof.
  unfold byte_to_Z, byte_of_Z.
  pose proof (Z.mod_pos_bound z 256 ltac:(lia)) as Hb.
  destruct (Byte.of_N (Z.to_N (z mod 256))) as [b|] eqn:E; simpl.
  - apply Byte.to_of_N in E. rewrite E. lia.
  - apply Byte.of_N_None_iff in E. lia.
Qed.

Lemma byte_to_Z_inj b1 b2 : byte_to_Z b1 = byte_to_Z b2 -> b1 = b2.
Proof.
  unfold byte_to_Z. intros H%N2Z.inj.
  pose proof (Byte.of_to_N b1). pose proof (Byte.of_to_N b2). congruence.
Qed.

Lemma byte_of_to_Z b : byte_of_Z (byte_to_Z b) = b.
Proof.
  apply byte_to_Z_inj. rewrite byte_to_of_Z.
  apply Z.mod_small, byte_to_Z_range.
Qed.

#[global] Arguments byte_of_Z : simpl never.
#[global] Arguments byte_to_Z : simpl never.

(** Literals: [bs "abc"] is the byte string of the ASCII text. *)
Definition bs (s : string) : bytes := list_byte_of_string s.
Arguments bs s%_string_scope.

(** [blen] is the [Size] of a payload. *)
Definition blen (b : bytes) : Z := Z.of_nat (length b).
#[global] Arguments blen : simpl never.

Lemma blen_nonneg b : 0 <= blen b.
Proof. unfold blen. lia. Qed.

Lemma blen_nil : blen [] = 0.
Proof. reflexivity. Qed.

Lemma blen_app a b : blen (a ++ b) = blen a + blen b.
Proof. unfold blen. rewrite length_app. lia. Qed.

(** ** Machine integers

    [wrap_u w] is the conversion to an unsigned [w]-bit type and [wrap_s w]
    the conversion to a signed one (PostgreSQL is compiled with [-fwrapv], so
    signed arithmetic wraps as well). *)

Definition wrap_u (w : Z) (z : Z) : Z := z mod 2 ^ w.
Definition wrap_s (w : Z) (z : Z) : Z := (z + 2 ^ (w - 1)) mod 2 ^ w - 2 ^ (w - 1).

#[global] Arguments wrap_u : simpl never.
#[global] Arguments wrap_s : simpl never.

Abbreviation u16 := (wrap_u 16).
Abbreviation u32 := (wrap_u 32).
Abbreviation u64 := (wrap_u 64).
Abbreviation s32 := (wrap_s 32).
Abbreviation s64 := (wrap_s 64).

Definition INT64_MIN : Z := - 2 ^ 63.
Definition INT64_MAX : Z := 2 ^ 63 - 1.
Definition UINT16_MAX : Z := 65535.

Definition is_i64 (z : Z) : Prop := INT64_MIN <= z <= INT64_MAX.
#[export] Instance is_i64_dec z : Decision (is_i64 z).
Proof. unfold is_i64. apply _. Defined.

Lemma wrap_u_small w z : 0 <= z < 2 ^ w -> wrap_u w z = z.
Proof. intros. by apply Z.mod_small. Qed.

Lemma wrap_u_range w z : 0 <= w -> 0 <= wrap_u w z < 2 ^ w.
Proof. intros. apply Z.mod_pos_bound. lia. Qed.

Lemma s64_small z : is_i64 z -> s64 z = z.
Proof.
  unfold is_i64, INT64_MIN, INT64_MAX, wrap_s. intros H.
  rewrite Z.mod_small; lia.
Qed.

Lemma s64_range z : is_i64 (s64 z).
Proof.
  unfold is_i64, INT64_MIN, INT64_MAX, wrap_s.
  pose proof (Z.mod_pos_bound (z + 2 ^ (64 - 1)) (2 ^ 64) ltac:(lia)). lia.
Qed.

Lemma s64_u64 z : s64 (u64 z) = s64 z.
Proof.
  unfold wrap_s, wrap_u. f_equal. rewrite Zplus_mod_idemp_l. done.
Qed.

(** ** Errors and the state-and-error monad

    [ereport(ERROR, ...)] raises; whatever a command wrote to memory before
    it raised stays written.  A computation therefore returns its final state
    in both cases. *)

Inductive errcode :=
| ERRCODE_INVALID_PARAMETER_VALUE
| ERRCODE_PROGRAM_LIMIT_EXCEEDED
| ERRCODE_DATATYPE_MISMATCH
| ERRCODE_INVALID_TEXT_REPRESENTATION
| ERRCODE_INTERNAL_ERROR
| ERRCODE_OUT_OF_MEMORY
| ERRCODE_INSUFFICIENT_RESOURCES
| ERRCODE_UNIQUE_VIOLATION
| ERRCODE_FOREIGN_KEY_VIOLATION
| SEGMENTATION_FAULT           (* not an error code: an access to memory that is not a live chunk *)
| NO_RESULT.                   (* not an error code: a loop that did not end within its fuel *)

#[export] Instance errcode_eq_dec : EqDecision errcode.
Proof. solve_decision. Defined.

Inductive outcome (A : Type) :=
| Ret (a : A)
| Raise (e : errcode).
Arguments Ret {A} a.
Arguments Raise {A} e.

Definition M (S A : Type) : Type := S -> outcome A * S.

#[export] Instance M_ret S : MRet (M S) := fun A a s => (Ret a, s).
#[export] Instance M_bind S : MBind (M S) := fun A B k m s =>
  match m s with
  | (Ret a, s') => k a s'
  | (Raise e, s') => (Raise e, s')
  end.

#[export] Instance M_fmap S : FMap (M S) := fun A B f m s =>
  match m s with
  | (Ret a, s') => (Ret (f a), s')
  | (Raise e, s') => (Raise e, s')
  end.

(** [ereport(ERROR, (errcode(e), ...))]. *)
Definition ereport {S A} (e : errcode) : M S A := fun s => (Raise e, s).
(** Reading and writing the state. *)
Definition gets {S A} (f : S -> A) : M S A := fun s => (Ret (f s), s).
Definition modify {S} (f : S -> S) : M S unit := fun s => (Ret tt, f s).
(** [if (c) m] *)
Definition when {S} (c : bool) (m : M S unit) : M S unit :=
  if c then m else mret tt.
(** A C [for] loop over a collected list. *)
Fixpoint for_each {S A} (l : list A) (f : A -> M S unit) : M S unit :=
  match l with
  | [] => mret tt
  | x :: l' => f x ;; for_each l' f
  end.

Lemma bind_unfold {S A B} (m : M S A) (k : A -> M S B) s :
  (m ≫= k) s = match m s with
               | (Ret a, s') => k a s'
               | (Raise e, s') => (Raise e, s')
               end.
Proof. reflexivity. Qed.

Lemma bind_Ret {S A B} (m : M S A) (k : A -> M S B) s a s' :
  m s = (Ret a, s') -> (m ≫= k) s = k a s'.
Proof. intros H. by rewrite bind_unfold, H. Qed.

Lemma bind_Raise {S A B} (m : M S A) (k : A -> M S B) s e s' :
  m s = (Raise e, s') -> (m ≫= k) s = (Raise e, s').
Proof. intros H. by rewrite bind_unfold, H. Qed.

(** The monad laws. *)
Lemma bind_mret {S A B} (a : A) (k : A -> M S B) s : (mret a ≫= k) s = k a s.
Proof. reflexivity. Qed.

Lemma bind_assoc {S A B C} (m : M S A) (f : A -> M S B) (g : B -> M S C) s :
  ((m ≫= f) ≫= g) s = (m ≫= (fun a => f a ≫= g)) s.
Proof. rewrite !bind_unfold. by destruct (m s) as [[a|e] s']. Qed.

(** A loop keeps an invariant that each iteration keeps. *)
Lemma for_each_inv {S A} (P : S -> Prop) (l : list A) (f : A -> M S unit) s :
  P s ->
  (forall x s0, x ∈ l -> P s0 -> exists s1, f x s0 = (Ret tt, s1) /\ P s1) ->
  exists s', for_each l f s = (Ret tt, s') /\ P s'.
Proof.
  revert s. induction l as [|x l IH]; intros s HP Hf; [by exists s|].
  destruct (Hf x s) as (s1 & E & HP1); [set_solver|done|].
  simpl. rewrite (bind_Ret _ _ _ _ _ E). apply IH; [done|]. set_solver.
Qed.

Lemma for_each_app {S A} (l1 l2 : list A) (f : A -> M S unit) s :
  for_each (l1 ++ l2) f s = (for_each l1 f ;; for_each l2 f) s.
Proof.
  revert s. induction l1 as [|x l1 IH]; intros s; [done|]. simpl.
  rewrite bind_assoc, !bind_unfold. by destruct (f x s) as [[[]|e] s1].
Qed.

(** ** Automation *)

Create HintDb pgredis.
#[export] Hint Resolve blen_nonneg byte_to_Z_range s64_range : pgredis.

(** Case analysis on the innermost match or if of the goal. *)
Ltac case_match_goal :=
  match goal with
  | |- context [match ?x with _ => _ end] => destruct x eqn:?
  end.

(** Evaluate a closed goal. *)
Ltac by_compute := vm_compute; first [reflexivity | done].

(** ** Maps *)

(** The largest pointer in use. *)
Definition max_key {A} (h : gmap Z A) : Z := map_fold (fun k _ m => Z.max k m) 0 h.

Lemma max_key_bound {A} (h : gmap Z A) : 0 <= max_key h /\ forall p b, h !! p = Some b -> p <= max_key h.
Proof.
  unfold max_key. apply (map_fold_weak_ind (fun m g => 0 <= m /\ forall p b, g !! p = Some b -> p <= m)).
  - split; [done|]. intros p b Hp. by rewrite lookup_empty in Hp.
  - intros k x g m Hk [Hm IH]. split; [lia|]. intros p b.
    rewrite lookup_insert_Some. intros [[<- _]|[_ Hp]]; [lia|]. specialize (IH _ _ Hp). lia.
Qed.

Lemma above_max_key {A} (h : gmap Z A) : 1 + max_key h <> 0 /\ h !! (1 + max_key h) = None.
Proof.
  pose proof (max_key_bound h) as [H0 Hb]. split; [lia|].
  destruct (h !! _) eqn:Hl; [|done]. apply Hb in Hl. lia.
Qed.

(** ** Lists *)

Lemma list_snoc_cases {A} (l : list A) : l = [] \/ exists l' x, l = l' ++ [x].
Proof. induction l using rev_ind; eauto. Qed.

Lemma prefix_of_lookup {A} (l1 l2 : list A) :
  (forall i x, l1 !! i = Some x -> l2 !! i = Some x) -> l1 `prefix_of` l2.
Proof.
  revert l2. induction l1 as [|x l1 IH]; intros l2 Hl; [by exists l2|].
  pose proof (Hl 0%nat x eq_refl) as H0. destruct l2 as [|y l2]; [done|].
  cbn in H0. simplify_eq. apply prefix_cons, IH. intros i z Hz. by apply (Hl (S i)).
Qed.

Lemma elem_of_flat_map {A B} (f : A -> list B) (l : list A) y :
  y ∈ flat_map f l <-> exists x, x ∈ l /\ y ∈ f x.
Proof.
  induction l as [|a l IH]; simpl; [set_solver|].
  rewrite elem_of_app, IH. set_solver.
Qed.

(** ** Bits and arithmetic *)

(** Bits of a number below [2^k] and of a multiple of [2^k] do not meet. *)
Lemma lor_disjoint_add a c k :
  0 <= k -> 0 <= a < 2 ^ k -> Z.lor a (c * 2 ^ k) = a + c * 2 ^ k.
Proof.
  intros Hk Ha. rewrite <- Z.lxor_lor, Z.add_nocarry_lxor; [done|..];
    apply Z.bits_inj'; intros i Hi; rewrite Z.land_spec, Z.bits_0;
    (destruct (Z.lt_ge_cases i k) as [Hlt|Hge];
      [ rewrite Z.mul_pow2_bits_low by lia; apply andb_false_r
      | rewrite <- (Z.mod_small a (2 ^ k)) by lia;
        rewrite Z.mod_pow2_bits_high by lia; done ]).
Qed.

Lemma land_255 z : Z.land z 255 = z mod 256.
Proof. change 255 with (Z.ones 8). rewrite Z.land_ones by lia. done. Qed.
