(* ===== verification/Types.v ===== *)
(** * The data model (src/types.h)

    The value types, the per-backend list, hash and entry structures and the
    mode enumerations, with the field updates the other files use.  Buffers
    that C addresses as pointer plus length are byte strings; the singly
    linked chains ([pending_delete_ords], [tombstones], the dirty set) and the
    doubly linked node chain are Rocq lists in chain order. *)
From S2P Require Import Prelude.

Definition PG_REDIS_MAX_KEY_SIZE : Z := 1024.
Definition PG_REDIS_MAX_FIELD_SIZE : Z := 1024.
Definition PG_REDIS_TLV_STRING : Z := 1.
Definition PG_REDIS_TLV_INT : Z := 2.
Definition PG_REDIS_TLV_HEADER_SIZE : Z := 5.

Inductive PgRedisValueType :=
| PG_REDIS_TYPE_STRING
| PG_REDIS_TYPE_INT
| PG_REDIS_TYPE_HASH
| PG_REDIS_TYPE_LIST.

#[export] Instance PgRedisValueType_eq_dec : EqDecision PgRedisValueType.
Proof. solve_decision. Defined.

(** ** Lists *)

Record PgRedisListNode := {
  n_value : bytes;
  n_ord : Z;                    (* stable ordinal, mirrored to pgredis.list_items *)
  n_pending_insert : bool       (* node needs an insert at next flush *)
}.

Record PgRedisList := {
  l_nodes : list PgRedisListNode;    (* head ... tail *)
  l_length : Z;
  l_memory_usage : Z;
  l_min_ord : Z;
  l_max_ord : Z;
  l_ord_initialized : bool;
  l_pending_delete_ords : list Z
}.

(** ** Hashes *)

Record PgRedisHashField := {
  f_value : bytes;
  f_dirty : bool                (* mutated since last flush *)
}.

Record PgRedisHash := {
  h_fields : gmap bytes PgRedisHashField;
  h_field_count : Z;
  h_memory_usage : Z;
  h_tombstones : list bytes     (* fields removed since last flush *)
}.

(** ** Entries

    The [type] tag and the [value] union of the struct always move together
    in the sources, so they are one sum.  A NULL member is [None]. *)

Inductive PgRedisValue :=
| VString (s : option bytes)
| VInt (i : Z)
| VHash (h : option PgRedisHash)
| VList (l : option PgRedisList).

Record PgRedisEntry := {
  e_value : PgRedisValue;
  e_expire_at : Z;
  e_has_expire : bool;
  e_dirty : bool;
  e_deleted : bool;
  e_in_dirty_set : bool;        (* membership in the per-backend dirty list *)
  e_version : Z                 (* uint64 *)
}.

Definition e_type (e : PgRedisEntry) : PgRedisValueType :=
  match e_value e with
  | VString _ => PG_REDIS_TYPE_STRING
  | VInt _ => PG_REDIS_TYPE_INT
  | VHash _ => PG_REDIS_TYPE_HASH
  | VList _ => PG_REDIS_TYPE_LIST
  end.

(** Field updates. *)
Definition set_value (v : PgRedisValue) (e : PgRedisEntry) : PgRedisEntry :=
  {| e_value := v; e_expire_at := e_expire_at e; e_has_expire := e_has_expire e;
     e_dirty := e_dirty e; e_deleted := e_deleted e;
     e_in_dirty_set := e_in_dirty_set e; e_version := e_version e |}.
Definition set_expire (has : bool) (at_ : Z) (e : PgRedisEntry) : PgRedisEntry :=
  {| e_value := e_value e; e_expire_at := at_; e_has_expire := has;
     e_dirty := e_dirty e; e_deleted := e_deleted e;
     e_in_dirty_set := e_in_dirty_set e; e_version := e_version e |}.
Definition set_dirty (d : bool) (e : PgRedisEntry) : PgRedisEntry :=
  {| e_value := e_value e; e_expire_at := e_expire_at e; e_has_expire := e_has_expire e;
     e_dirty := d; e_deleted := e_deleted e;
     e_in_dirty_set := e_in_dirty_set e; e_version := e_version e |}.
Definition set_deleted (d : bool) (e : PgRedisEntry) : PgRedisEntry :=
  {| e_value := e_value e; e_expire_at := e_expire_at e; e_has_expire := e_has_expire e;
     e_dirty := e_dirty e; e_deleted := d;
     e_in_dirty_set := e_in_dirty_set e; e_version := e_version e |}.
Definition set_in_dirty_set (d : bool) (e : PgRedisEntry) : PgRedisEntry :=
  {| e_value := e_value e; e_expire_at := e_expire_at e; e_has_expire := e_has_expire e;
     e_dirty := e_dirty e; e_deleted := e_deleted e;
     e_in_dirty_set := d; e_version := e_version e |}.
Definition set_version (v : Z) (e : PgRedisEntry) : PgRedisEntry :=
  {| e_value := e_value e; e_expire_at := e_expire_at e; e_has_expire := e_has_expire e;
     e_dirty := e_dirty e; e_deleted := e_deleted e;
     e_in_dirty_set := e_in_dirty_set e; e_version := v |}.
(** [e->version++] on a uint64. *)
Definition bump_version (e : PgRedisEntry) : PgRedisEntry :=
  set_version (u64 (e_version e + 1)) e.

(** ** Modes *)

Inductive PgRedisPersistenceMode :=
| PG_REDIS_PERSIST_NONE
| PG_REDIS_PERSIST_SYNC_TABLE
| PG_REDIS_PERSIST_ASYNC_TABLE
| PG_REDIS_PERSIST_SNAPSHOT
| PG_REDIS_PERSIST_AOF.

#[export] Instance PgRedisPersistenceMode_eq_dec : EqDecision PgRedisPersistenceMode.
Proof. solve_decision. Defined.

Inductive PgRedisStorageMode :=
| PG_REDIS_STORAGE_SESSION
| PG_REDIS_STORAGE_SHARED.

#[export] Instance PgRedisStorageMode_eq_dec : EqDecision PgRedisStorageMode.
Proof. solve_decision. Defined.

(** The GUC variables a backend reads, and whether [shmem_startup_hook] ran
    in this cluster ([pg_redis_shmem_header() != NULL]). *)
Record Config := {
  pg_redis_persistence_mode : option bytes;
  pg_redis_storage_mode : option bytes;
  pg_redis_max_key_size : Z;
  pg_redis_max_value_size : Z;
  shmem_initialized : bool
}.

Definition default_config : Config :=
  {| pg_redis_persistence_mode := Some (bs "sync_table");
     pg_redis_storage_mode := Some (bs "session");
     pg_redis_max_key_size := 1024;
     pg_redis_max_value_size := 1048576;
     shmem_initialized := false |}.
