(* ===== verification/Binval.v ===== *)
(** * The TLV value codec (src/binval.c)

    [[u8 tag][u32 length_le][payload]] for the string and int rows of
    [pgredis.store.value].  A [bytea] is its body: the varlena header carries
    no information beyond the body's length. *)
From S2P Require Import Prelude Types.

(** ** Little-endian helpers *)

Definition byte_at (v : Z) (sh : Z) : byte := byte_of_Z (Z.land (Z.shiftr v sh) 255).

Definition put_u32_le (v : Z) : bytes :=
  [byte_at v 0; byte_at v 8; byte_at v 16; byte_at v 24].

Definition get_u32_le (p : bytes) : option Z :=
  match p with
  | b0 :: b1 :: b2 :: b3 :: _ =>
      Some (Z.lor (byte_to_Z b0)
             (Z.lor (Z.shiftl (byte_to_Z b1) 8)
               (Z.lor (Z.shiftl (byte_to_Z b2) 16)
                 (Z.shiftl (byte_to_Z b3) 24))))
  | _ => None
  end.

Definition put_i64_le (v : Z) : bytes :=
  let u := u64 v in
  [byte_at u 0; byte_at u 8; byte_at u 16; byte_at u 24;
   byte_at u 32; byte_at u 40; byte_at u 48; byte_at u 56].

Definition get_i64_le (p : bytes) : option Z :=
  match p with
  | b0 :: b1 :: b2 :: b3 :: b4 :: b5 :: b6 :: b7 :: _ =>
      Some (s64 (Z.lor (byte_to_Z b0)
             (Z.lor (Z.shiftl (byte_to_Z b1) 8)
               (Z.lor (Z.shiftl (byte_to_Z b2) 16)
                 (Z.lor (Z.shiftl (byte_to_Z b3) 24)
                   (Z.lor (Z.shiftl (byte_to_Z b4) 32)
                     (Z.lor (Z.shiftl (byte_to_Z b5) 40)
                       (Z.lor (Z.shiftl (byte_to_Z b6) 48)
                         (Z.shiftl (byte_to_Z b7) 56)))))))))
  | _ => None
  end.

#[global] Arguments put_u32_le : simpl never.
#[global] Arguments put_i64_le : simpl never.

(** ** Encoding *)

(** [pg_redis_encode_value]: NULL for hashes and lists.  [payload_len] is
    truncated to 32 bits by [put_u32_le]'s argument type; a NULL string
    pointer has length 0. *)
Definition pg_redis_encode_value (e : PgRedisEntry) : option bytes :=
  match e_value e with
  | VString s =>
      let payload := default [] s in
      Some (byte_of_Z PG_REDIS_TLV_STRING :: put_u32_le (u32 (blen payload)) ++ payload)
  | VInt i =>
      Some (byte_of_Z PG_REDIS_TLV_INT :: put_u32_le 8 ++ put_i64_le i)
  | VHash _ | VList _ => None
  end.

(** ** Decoding *)

(** [decode_header]: the payload and its declared length, when the tag is the
    expected one and the declared length is exactly what follows. *)
Definition decode_header (raw : option bytes) (expected_tag : Z) : option (bytes * Z) :=
  match raw with
  | None => None
  | Some body =>
      if blen body <? PG_REDIS_TLV_HEADER_SIZE then None
      else match body with
           | tag :: rest =>
               if negb (byte_to_Z tag =? expected_tag) then None
               else match get_u32_le rest with
                    | None => None
                    | Some declared_len =>
                        if negb (declared_len + PG_REDIS_TLV_HEADER_SIZE =? blen body)
                        then None
                        else Some (drop 4 rest, declared_len)
                    end
           | [] => None
           end
  end.

Definition pg_redis_decode_string (raw : option bytes) : option bytes :=
  match decode_header raw PG_REDIS_TLV_STRING with
  | None => None
  | Some (payload, payload_len) => Some (take (Z.to_nat payload_len) payload)
  end.

Definition pg_redis_decode_int (raw : option bytes) : option Z :=
  match decode_header raw PG_REDIS_TLV_INT with
  | None => None
  | Some (payload, payload_len) =>
      if negb (payload_len =? 8) then None else get_i64_le payload
  end.
(** ** Codec lemmas *)

Lemma byte_at_val v sh :
  0 <= sh -> byte_to_Z (byte_at v sh) = (v / 2 ^ sh) mod 256.
Proof.
  intros. unfold byte_at.
  by rewrite byte_to_of_Z, land_255, Z.mod_mod, Z.shiftr_div_pow2 by lia.
Qed.

(** The value of a little-endian byte string. *)
Fixpoint le_val (p : bytes) : Z :=
  match p with
  | [] => 0
  | b :: p' => byte_to_Z b + 256 * le_val p'
  end.

Ltac byte_ranges :=
  repeat match goal with
  | |- context [byte_to_Z ?b] =>
      lazymatch goal with
      | _ : 0 <= byte_to_Z b < 256 |- _ => fail
      | _ => pose proof (byte_to_Z_range b)
      end
  end.

Lemma lor_shift_step a c k :
  0 <= k -> 0 <= a < 256 ->
  Z.lor (Z.shiftl a k) (c * 2 ^ (k + 8)) = (a + 256 * c) * 2 ^ k.
Proof.
  intros Hk Ha. rewrite Z.shiftl_mul_pow2 by lia.
  assert (0 < 2 ^ k) by lia.
  rewrite lor_disjoint_add; [|lia|].
  - rewrite Z.pow_add_r by lia. change (2 ^ 8) with 256. ring.
  - rewrite Z.pow_add_r by lia. change (2 ^ 8) with 256. nia.
Qed.

Lemma lor_step0 a c : 0 <= a < 256 -> Z.lor a (c * 2 ^ 8) = a + 256 * c.
Proof. intros. rewrite lor_disjoint_add by lia. lia. Qed.

Lemma get_u32_le_val b0 b1 b2 b3 r :
  get_u32_le (b0 :: b1 :: b2 :: b3 :: r) = Some (le_val [b0; b1; b2; b3]).
Proof.
  unfold get_u32_le. f_equal. byte_ranges.
  rewrite (Z.shiftl_mul_pow2 _ 24) by lia.
  rewrite (lor_shift_step _ _ 16), (lor_shift_step _ _ 8), lor_step0 by lia.
  simpl. lia.
Qed.

Lemma get_i64_le_val b0 b1 b2 b3 b4 b5 b6 b7 r :
  get_i64_le (b0 :: b1 :: b2 :: b3 :: b4 :: b5 :: b6 :: b7 :: r) =
    Some (s64 (le_val [b0; b1; b2; b3; b4; b5; b6; b7])).
Proof.
  unfold get_i64_le. do 2 f_equal. byte_ranges.
  rewrite (Z.shiftl_mul_pow2 _ 56) by lia.
  rewrite (lor_shift_step _ _ 48), (lor_shift_step _ _ 40), (lor_shift_step _ _ 32),
    (lor_shift_step _ _ 24), (lor_shift_step _ _ 16), (lor_shift_step _ _ 8),
    lor_step0 by lia.
  simpl. lia.
Qed.

(** [n] little-endian bytes of a number. *)
Fixpoint le_bytes (n : nat) (v : Z) : bytes :=
  match n with
  | O => []
  | S n' => byte_of_Z v :: le_bytes n' (v / 256)
  end.

Lemma le_val_bytes n v : le_val (le_bytes n v) = v mod 256 ^ Z.of_nat n.
Proof.
  revert v. induction n as [|n IH]; intros v; [by rewrite Z.mod_1_r|].
  cbn [le_bytes le_val]. rewrite IH, byte_to_of_Z.
  replace (Z.of_nat (S n)) with (Z.succ (Z.of_nat n)) by lia.
  rewrite Z.pow_succ_r, Z.rem_mul_r by lia. lia.
Qed.

Lemma le_bytes_val p : le_bytes (length p) (le_val p) = p.
Proof.
  induction p as [|b p IH]; [done|]. cbn [length le_val le_bytes].
  pose proof (byte_to_Z_range b). f_equal.
  - apply byte_to_Z_inj. rewrite byte_to_of_Z.
    rewrite Z.mul_comm, Z_mod_plus_full. apply Z.mod_small. lia.
  - rewrite Z.mul_comm, Z.div_add, Z.div_small by lia. exact IH.
Qed.

Lemma le_val_range p : 0 <= le_val p < 256 ^ Z.of_nat (length p).
Proof.
  rewrite <- (le_bytes_val p) at 1 2. rewrite le_val_bytes.
  apply Z.mod_pos_bound. lia.
Qed.

Lemma byte_at_le v k : 0 <= k -> byte_at v (8 * k) = byte_of_Z (v / 256 ^ k).
Proof.
  intros. apply byte_to_Z_inj. rewrite byte_at_val, byte_to_of_Z by lia.
  by rewrite Z.pow_mul_r by lia.
Qed.

Lemma put_u32_le_bytes v : put_u32_le v = le_bytes 4 v.
Proof.
  change (put_u32_le v) with ((fun k => byte_at v (8 * k)) <$> [0; 1; 2; 3]).
  cbn [fmap list_fmap]. rewrite !byte_at_le by lia.
  cbn [le_bytes]. rewrite !Z.div_div, Z.div_1_r by lia. done.
Qed.

Lemma put_i64_le_bytes v : put_i64_le v = le_bytes 8 (u64 v).
Proof.
  unfold put_i64_le. generalize (u64 v) as u. intros u. cbn zeta.
  change (_ :: _) with ((fun k => byte_at u (8 * k)) <$> [0; 1; 2; 3; 4; 5; 6; 7]).
  cbn [fmap list_fmap]. rewrite !byte_at_le by lia.
  cbn [le_bytes]. rewrite !Z.div_div, Z.div_1_r by lia. done.
Qed.

Lemma get_put_u32_le v r : get_u32_le (put_u32_le v ++ r) = Some (u32 v).
Proof.
  rewrite put_u32_le_bytes. cbn [le_bytes app]. rewrite get_u32_le_val.
  pose proof (le_val_bytes 4 v) as E. cbn [le_bytes] in E. rewrite E. done.
Qed.

Lemma get_put_i64_le v r : get_i64_le (put_i64_le v ++ r) = Some (s64 v).
Proof.
  rewrite put_i64_le_bytes. cbn [le_bytes app]. rewrite get_i64_le_val.
  pose proof (le_val_bytes 8 (u64 v)) as E. cbn [le_bytes] in E. rewrite E.
  change (256 ^ Z.of_nat 8) with (2 ^ 64). fold (u64 (u64 v)).
  by rewrite !s64_u64.
Qed.

(** The converse: the four bytes read are the four bytes a writer of the same
    number would have produced. *)
Lemma put_get_u32_le p v : get_u32_le p = Some v -> p = put_u32_le v ++ drop 4 p.
Proof.
  destruct p as [|b0 [|b1 [|b2 [|b3 p]]]]; try done.
  rewrite get_u32_le_val. intros [= Hv]. rewrite put_u32_le_bytes, <- Hv.
  change 4%nat with (length [b0; b1; b2; b3]) at 1. by rewrite le_bytes_val.
Qed.

Lemma put_get_i64_le p v :
  length p = 8%nat -> get_i64_le p = Some v -> p = put_i64_le v.
Proof.
  destruct p as [|b0 [|b1 [|b2 [|b3 [|b4 [|b5 [|b6 [|b7 [|]]]]]]]]]; try done.
  intros _ Hv. rewrite get_i64_le_val in Hv. apply (inj Some) in Hv.
  set (p := [b0; b1; b2; b3; b4; b5; b6; b7]) in *.
  rewrite put_i64_le_bytes, <- Hv.
  assert (Hu : u64 (s64 (le_val p)) = le_val p).
  { pose proof (le_val_range p) as Hr. change (256 ^ _) with (2 ^ 64) in Hr.
    unfold wrap_s, wrap_u. rewrite Zminus_mod_idemp_l.
    replace (le_val p + 2 ^ (64 - 1) - 2 ^ (64 - 1)) with (le_val p) by lia.
    by apply Z.mod_small. }
  rewrite Hu. symmetry. exact (le_bytes_val p).
Qed.

Lemma get_u32_le_range p v : get_u32_le p = Some v -> 0 <= v < 2 ^ 32.
Proof.
  destruct p as [|b0 [|b1 [|b2 [|b3 p]]]]; try done.
  rewrite get_u32_le_val. intros Hv. apply (inj Some) in Hv. subst v.
  exact (le_val_range [b0; b1; b2; b3]).
Qed.

(** Decoding the header of a body written by the encoder. *)
Lemma decode_header_encoded tag tag' len payload :
  0 <= tag < 256 -> 0 <= len < 2 ^ 32 -> blen payload = len ->
  decode_header (Some (byte_of_Z tag :: put_u32_le len ++ payload)) tag' =
    if tag =? tag' then Some (payload, len) else None.
Proof.
  intros Ht Hl Hp. unfold decode_header.
  assert (Hb : blen (byte_of_Z tag :: put_u32_le len ++ payload) = len + 5).
  { unfold blen in *. simpl. lia. }
  rewrite Hb, byte_to_of_Z, (Z.mod_small tag) by lia.
  unfold PG_REDIS_TLV_HEADER_SIZE.
  rewrite (proj2 (Z.ltb_ge (len + 5) 5)) by lia.
  destruct (tag =? tag') eqn:E; [|done]. cbn [negb].
  rewrite get_put_u32_le, wrap_u_small, Z.eqb_refl by lia. done.
Qed.

(** What an accepted header says about the body. *)
Lemma decode_header_inv raw tag payload len :
  decode_header (Some raw) tag = Some (payload, len) ->
  raw = byte_of_Z tag :: put_u32_le len ++ payload /\
  blen payload = len /\ 0 <= len < 2 ^ 32.
Proof.
  unfold decode_header. destruct (blen raw <? _) eqn:E1; [done|].
  destruct raw as [|t rest]; [done|].
  destruct (byte_to_Z t =? tag) eqn:E2; [|done]. cbn [negb].
  destruct (get_u32_le rest) as [d|] eqn:E3; [|done].
  destruct (_ =? blen _) eqn:E4; [|done]. cbn [negb]. intros [= <- <-].
  apply Z.eqb_eq in E2. subst tag. rewrite byte_of_to_Z.
  pose proof (put_get_u32_le _ _ E3) as Hr. apply Z.eqb_eq in E4.
  split; [by rewrite <- Hr|]. split; [|by eapply get_u32_le_range].
  rewrite Hr in E4. unfold blen, PG_REDIS_TLV_HEADER_SIZE in *.
  simpl in E4. lia.
Qed.

(** ** Properties *)

(** The values the codec carries: a string that fits the 32-bit length, or an
    int64. *)
Definition encodable (v : PgRedisValue) : Prop :=
  match v with
  | VString (Some s) => blen s < 2 ^ 32
  | VInt i => is_i64 i
  | _ => False
  end.

(** What a stored row decodes to, by the type column of its row. *)
Definition decode_row (t : PgRedisValueType) (raw : option bytes) : option PgRedisValue :=
  match t with
  | PG_REDIS_TYPE_STRING => (fun s => VString (Some s)) <$> pg_redis_decode_string raw
  | PG_REDIS_TYPE_INT => VInt <$> pg_redis_decode_int raw
  | PG_REDIS_TYPE_HASH | PG_REDIS_TYPE_LIST => None
  end.

Lemma decode_string_encoded s :
  blen s < 2 ^ 32 ->
  pg_redis_decode_string
    (Some (byte_of_Z PG_REDIS_TLV_STRING :: put_u32_le (u32 (blen s)) ++ s)) = Some s.
Proof.
  intros H. unfold pg_redis_decode_string, PG_REDIS_TLV_STRING.
  pose proof (blen_nonneg s). rewrite wrap_u_small by lia.
  rewrite decode_header_encoded, Z.eqb_refl by lia.
  rewrite take_ge; [done|]. unfold blen. lia.
Qed.

Lemma decode_int_encoded i :
  is_i64 i ->
  pg_redis_decode_int
    (Some (byte_of_Z PG_REDIS_TLV_INT :: put_u32_le 8 ++ put_i64_le i)) = Some i.
Proof.
  intros H. unfold pg_redis_decode_int, PG_REDIS_TLV_INT.
  rewrite decode_header_encoded by (done || lia). rewrite !Z.eqb_refl. cbn [negb].
  rewrite <- (app_nil_r (put_i64_le i)), get_put_i64_le. f_equal. by apply s64_small.
Qed.

(** Decoding a row under the tag of the other type fails. *)
Theorem decode_wrong_tag e raw :
  encodable (e_value e) -> pg_redis_encode_value e = Some raw ->
  decode_row (if decide (e_type e = PG_REDIS_TYPE_STRING)
              then PG_REDIS_TYPE_INT else PG_REDIS_TYPE_STRING) (Some raw) = None.
Proof.
  unfold pg_redis_encode_value, e_type.
  destruct (e_value e) as [[s|]|i| |]; try done; intros Hv Hr;
    apply (inj Some) in Hr; subst raw; unfold decode_row.
  - rewrite decide_True by done. unfold pg_redis_decode_int.
    unfold encodable in Hv. cbn [default from_option id].
    pose proof (blen_nonneg s).
    rewrite (wrap_u_small 32) by lia.
    by rewrite decode_header_encoded by (done || lia).
  - rewrite decide_False by done. unfold pg_redis_decode_string.
    by rewrite decode_header_encoded by done.
Qed.

Lemma decode_encoded e :
  encodable (e_value e) ->
  exists raw, pg_redis_encode_value e = Some raw /\
              decode_row (e_type e) (Some raw) = Some (e_value e).
Proof.
  unfold pg_redis_encode_value, e_type.
  destruct (e_value e) as [[s|]|i| |]; intros H; try done;
    (eexists; split; [reflexivity|]); unfold decode_row.
  - cbn [default from_option id]. by rewrite decode_string_encoded.
  - by rewrite decode_int_encoded.
Qed.

(** C26: a string or int entry encodes, and decoding the encoded row under the
    entry's own type gives back exactly the value. *)
Theorem tlv_roundtrip (e : PgRedisEntry) :
  encodable (e_value e) ->
  exists raw, pg_redis_encode_value e = Some raw /\
              decode_row (e_type e) (Some raw) = Some (e_value e).
Proof. apply decode_encoded. Qed.

Lemma decode_row_canonical t raw v e :
  decode_row t (Some raw) = Some v -> e_value e = v ->
  pg_redis_encode_value e = Some raw /\ e_type e = t.
Proof.
  unfold pg_redis_encode_value, e_type. intros Hd ->. destruct t; simpl in Hd; try done.
  - unfold pg_redis_decode_string in Hd.
    destruct (decode_header _ _) as [[payload len]|] eqn:E; [|done].
    apply decode_header_inv in E as (-> & Hlen & Hpos).
    simpl in Hd. injection Hd as <-.
    assert (Htake : take (Z.to_nat len) payload = payload).
    { apply take_ge. unfold blen in Hlen. lia. }
    rewrite Htake. simpl. split; [|done].
    rewrite Hlen. by rewrite wrap_u_small.
  - unfold pg_redis_decode_int in Hd.
    destruct (decode_header _ _) as [[payload len]|] eqn:E; [|done].
    apply decode_header_inv in E as (-> & Hlen & Hpos).
    destruct (len =? 8) eqn:E8; [|done]. apply Z.eqb_eq in E8. subst len.
    simpl in Hd. destruct (get_i64_le payload) as [i|] eqn:Ei; [|done].
    injection Hd as <-. split; [|done].
    rewrite E8. rewrite (put_get_i64_le payload i) at 1; [done| |done]. unfold blen in E8. lia.
Qed.

Lemma decode_int_range raw i : pg_redis_decode_int raw = Some i -> is_i64 i.
Proof.
  unfold pg_redis_decode_int. destruct (decode_header _ _) as [[p n]|]; [|done].
  destruct (negb _); [done|]. unfold get_i64_le. repeat (destruct p as [|? p]; [done|]).
  intros [= <-]. apply s64_range.
Qed.

(** the decoders accept nothing but encodings: a row that decodes to a
    value is byte for byte the encoding of that value, so a stored value has
    one representation and a truncated, padded or mistagged row is refused. *)
Theorem tlv_canonical (t : PgRedisValueType) (raw : bytes) (v : PgRedisValue) (e : PgRedisEntry) :
  decode_row t (Some raw) = Some v -> e_value e = v ->
  pg_redis_encode_value e = Some raw /\ e_type e = t.
Proof. apply decode_row_canonical. Qed.

Definition demo_string : PgRedisEntry :=
  {| e_value := VString (Some (bs "hello")); e_expire_at := 0; e_has_expire := false; e_dirty := false;
     e_deleted := false; e_in_dirty_set := false; e_version := 1 |}.

Lemma tlv_roundtrip_witness :
  exists raw, pg_redis_encode_value demo_string = Some raw /\
    decode_row PG_REDIS_TYPE_STRING (Some raw) = Some (VString (Some (bs "hello"))).
Proof. apply (tlv_roundtrip demo_string). vm_compute. reflexivity. Defined.

Lemma tlv_canonical_witness :
  pg_redis_encode_value demo_string =
    Some (byte_of_Z 1 :: byte_of_Z 5 :: byte_of_Z 0 :: byte_of_Z 0 :: byte_of_Z 0 :: bs "hello").
Proof.
  apply (tlv_canonical PG_REDIS_TYPE_STRING _ (VString (Some (bs "hello"))) demo_string).
  - vm_compute. reflexivity.
  - reflexivity.
Defined.
