(* ===== verification/Utils.v ===== *)
(** * Argument checks, integer text and mode resolution (src/utils.c, src/utils.h) *)
From S2P Require Import Prelude Types.

(** ** Length checks *)

Section Checks.
Context (cfg : Config) {S : Type}.

Definition pg_redis_check_key_len (len : Z) : M S unit :=
  let max := pg_redis_max_key_size cfg in
  let max := if (max <=? 0) || (PG_REDIS_MAX_KEY_SIZE <? max)
             then PG_REDIS_MAX_KEY_SIZE else max in
  if len =? 0 then ereport ERRCODE_INVALID_PARAMETER_VALUE
  else if max <? len then ereport ERRCODE_PROGRAM_LIMIT_EXCEEDED
  else mret tt.

Definition pg_redis_check_field_len (len : Z) : M S unit :=
  if len =? 0 then ereport ERRCODE_INVALID_PARAMETER_VALUE
  else if PG_REDIS_MAX_FIELD_SIZE <? len then ereport ERRCODE_PROGRAM_LIMIT_EXCEEDED
  else mret tt.

Definition pg_redis_check_value_len (len : Z) : M S unit :=
  let max := pg_redis_max_value_size cfg in
  if max <=? 0 then mret tt
  else if max <? len then ereport ERRCODE_PROGRAM_LIMIT_EXCEEDED
  else mret tt.

(** [pg_redis_text_to_cstring_stack]: the copy is the argument's payload,
    whichever buffer it lands in. *)
Definition pg_redis_text_to_cstring_stack (t : bytes) (check_key check_field : bool)
    : M S bytes :=
  (if check_key then pg_redis_check_key_len (blen t)
   else if check_field then pg_redis_check_field_len (blen t)
   else mret tt) ;;
  mret t.
End Checks.

(** ** Integer text *)

(** The [isspace] characters [strtoll] skips. *)
Definition is_space (b : byte) : bool :=
  let z := byte_to_Z b in (z =? 32) || ((9 <=? z) && (z <=? 13)).
Definition is_digit (b : byte) : bool :=
  let z := byte_to_Z b in (48 <=? z) && (z <=? 57).

Fixpoint skip_space (s : bytes) : bytes :=
  match s with
  | b :: s' => if is_space b then skip_space s' else s
  | [] => []
  end.

(** Digits read so far, and the first byte that is not a digit. *)
Fixpoint read_digits (acc : Z) (s : bytes) : Z * bytes :=
  match s with
  | b :: s' => if is_digit b then read_digits (acc * 10 + (byte_to_Z b - 48)) s' else (acc, s)
  | [] => (acc, [])
  end.

(** [strtoll(buf, &end, 10)]: value, rest at [end], [errno == ERANGE]; [None]
    when no conversion is performed ([end == buf]). *)
Definition strtoll (buf : bytes) : option (Z * bytes * bool) :=
  let s := skip_space buf in
  let '(neg, s) := match s with
                   | b :: s' => if byte_to_Z b =? 45 then (true, s')
                                else if byte_to_Z b =? 43 then (false, s') else (false, s)
                   | [] => (false, [])
                   end in
  match s with
  | b :: _ =>
      if is_digit b then
        let '(n, rest) := read_digits 0 s in
        let v := if neg then - n else n in
        if v <? INT64_MIN then Some (INT64_MIN, rest, true)
        else if INT64_MAX <? v then Some (INT64_MAX, rest, true)
        else Some (v, rest, false)
      else None
  | [] => None
  end.

(** [pg_redis_parse_int64]: whole-buffer conversion through a 32-byte copy. *)
Definition pg_redis_parse_int64 (s : bytes) : option Z :=
  if (blen s =? 0) || (32 <=? blen s) then None
  else match strtoll s with
       | None => None
       | Some (v, rest, erange) =>
           if erange then None else match rest with [] => Some v | _ => None end
       end.

(** [snprintf("%ld")] on an int64: at most 19 digits and a sign. *)
Fixpoint format_digits (fuel : nat) (n : Z) (acc : bytes) : bytes :=
  match fuel with
  | O => acc
  | S fuel' =>
      let acc' := byte_of_Z (48 + n mod 10) :: acc in
      if n <? 10 then acc' else format_digits fuel' (n / 10) acc'
  end.

Definition pg_redis_format_int64 (v : Z) : bytes :=
  if v <? 0 then byte_of_Z 45 :: format_digits 20 (- v) [] else format_digits 20 v [].

(** ** Mode resolution *)

Section Modes.
Context (cfg : Config).

Definition pg_redis_resolve_persistence_mode : PgRedisPersistenceMode :=
  match pg_redis_persistence_mode cfg with
  | None => PG_REDIS_PERSIST_SYNC_TABLE
  | Some m =>
      if decide (m = bs "none") then PG_REDIS_PERSIST_NONE
      else if decide (m = bs "sync_table") then PG_REDIS_PERSIST_SYNC_TABLE
      else if decide (m = bs "async_table") then PG_REDIS_PERSIST_ASYNC_TABLE
      else if decide (m = bs "snapshot") then PG_REDIS_PERSIST_SNAPSHOT
      else if decide (m = bs "aof") then PG_REDIS_PERSIST_AOF
      else PG_REDIS_PERSIST_SYNC_TABLE
  end.

Definition pg_redis_resolve_storage_mode : PgRedisStorageMode :=
  match pg_redis_storage_mode cfg with
  | None => PG_REDIS_STORAGE_SESSION
  | Some m => if decide (m = bs "shared") then PG_REDIS_STORAGE_SHARED
              else PG_REDIS_STORAGE_SESSION
  end.

Definition pg_redis_storage_is_shared : bool :=
  if negb (bool_decide (pg_redis_resolve_storage_mode = PG_REDIS_STORAGE_SHARED))
  then false else shmem_initialized cfg.

Definition pg_redis_effective_persistence_mode : PgRedisPersistenceMode :=
  let m := pg_redis_resolve_persistence_mode in
  if bool_decide (m = PG_REDIS_PERSIST_ASYNC_TABLE) && negb pg_redis_storage_is_shared
  then PG_REDIS_PERSIST_SYNC_TABLE else m.

(** persistence.c: [persistence_writes_enabled]. *)
Definition persistence_writes_enabled : bool :=
  match pg_redis_resolve_persistence_mode with
  | PG_REDIS_PERSIST_SYNC_TABLE | PG_REDIS_PERSIST_ASYNC_TABLE => true
  | _ => false
  end.
End Modes.

(** ** Lemmas *)

Lemma format_digits_read fuel n acc :
  0 <= n < 10 ^ Z.of_nat fuel ->
  read_digits 0 (format_digits fuel n acc) = read_digits n acc.
Proof.
  assert (Hd : forall d a r, 0 <= d < 10 ->
            read_digits a (byte_of_Z (48 + d) :: r) = read_digits (a * 10 + d) r).
  { intros d a r Hd. cbn [read_digits]. unfold is_digit.
    rewrite byte_to_of_Z, Z.mod_small by lia.
    rewrite (proj2 (Z.leb_le 48 (48 + d))), (proj2 (Z.leb_le (48 + d) 57)) by lia.
    simpl. f_equal. lia. }
  revert n acc. induction fuel as [|fuel IH]; intros n acc Hn.
  { simpl in *. by replace n with 0 by lia. }
  replace (Z.of_nat (S fuel)) with (Z.succ (Z.of_nat fuel)) in Hn by lia.
  rewrite Z.pow_succ_r in Hn by lia. cbn [format_digits].
  pose proof (Z.div_mod n 10 ltac:(lia)). pose proof (Z.mod_pos_bound n 10 ltac:(lia)).
  destruct (Z.ltb_spec n 10).
  - rewrite Hd by lia. f_equal. rewrite Z.mod_small by lia. lia.
  - rewrite IH by lia. rewrite Hd by lia. f_equal. lia.
Qed.

Lemma format_digits_head fuel n acc :
  (0 < fuel)%nat -> 0 <= n ->
  exists d r, format_digits fuel n acc = byte_of_Z (48 + d) :: r /\ 0 <= d < 10.
Proof.
  revert n acc. induction fuel as [|fuel IH]; intros n acc Hf Hn; [lia|]. cbn [format_digits].
  pose proof (Z.mod_pos_bound n 10 ltac:(lia)).
  destruct (n <? 10); [by eauto|]. destruct fuel; [by eexists _, _|].
  apply IH; [lia|]. by apply Z.div_pos.
Qed.

Lemma format_digits_length fuel n acc :
  (length (format_digits fuel n acc) <= fuel + length acc)%nat.
Proof.
  revert n acc. induction fuel as [|fuel IH]; intros n acc; [done|]. cbn [format_digits].
  destruct (n <? 10); simpl; [lia|].
  specialize (IH (n / 10) (byte_of_Z (48 + n mod 10) :: acc)). simpl in IH. lia.
Qed.

Lemma format_digits_nonempty fuel n acc :
  (0 < fuel)%nat -> 0 <= n -> (0 < length (format_digits fuel n acc))%nat.
Proof.
  intros Hf Hn. destruct (format_digits_head fuel n acc Hf Hn) as (d & r & -> & _).
  simpl. lia.
Qed.

(** What [strtoll] does on digits with a sign already split off. *)
Lemma strtoll_digits n : 0 <= n < 10 ^ 20 ->
  exists b r, format_digits 20 n [] = b :: r /\ is_digit b = true /\ is_space b = false /\
    byte_to_Z b <> 45 /\ byte_to_Z b <> 43 /\ read_digits 0 (b :: r) = (n, []).
Proof.
  intros Hn. destruct (format_digits_head 20 n [] ltac:(lia) ltac:(lia)) as (d & r & E & Hd).
  exists (byte_of_Z (48 + d)), r. unfold is_digit, is_space.
  rewrite byte_to_of_Z, Z.mod_small by lia.
  split; [done|]. split; [lia|]. split; [lia|]. split; [lia|]. split; [lia|].
  rewrite <- E, format_digits_read by (simpl Z.of_nat; lia). done.
Qed.

Lemma strtoll_format v :
  is_i64 v -> strtoll (pg_redis_format_int64 v) = Some (v, [], false).
Proof.
  intros Hv. unfold is_i64, INT64_MIN, INT64_MAX in Hv.
  destruct (strtoll_digits (Z.abs v) ltac:(lia)) as (b & r & E & Hdig & Hsp & Hm & Hp & Hr).
  unfold pg_redis_format_int64, strtoll. destruct (Z.ltb_spec v 0).
  - replace (- v) with (Z.abs v) by lia. rewrite E. cbn [skip_space].
    replace (is_space (byte_of_Z 45)) with false by done. cbn [negb].
    replace (byte_to_Z (byte_of_Z 45) =? 45) with true by done. rewrite Hdig, Hr.
    replace (- Z.abs v) with v by lia.
    unfold INT64_MIN, INT64_MAX. destruct (Z.ltb_spec v (- 2 ^ 63)); [lia|].
    by destruct (Z.ltb_spec (2 ^ 63 - 1) v); [lia|].
  - replace v with (Z.abs v) by lia. rewrite E. cbn [skip_space]. rewrite Hsp.
    rewrite (proj2 (Z.eqb_neq _ _) Hm), (proj2 (Z.eqb_neq _ _) Hp), Hdig, Hr.
    replace (Z.abs v) with v by lia.
    unfold INT64_MIN, INT64_MAX. destruct (Z.ltb_spec v (- 2 ^ 63)); [lia|].
    by destruct (Z.ltb_spec (2 ^ 63 - 1) v); [lia|].
Qed.

Lemma resolve_async_iff cfg :
  pg_redis_resolve_persistence_mode cfg = PG_REDIS_PERSIST_ASYNC_TABLE <->
  pg_redis_persistence_mode cfg = Some (bs "async_table").
Proof.
  unfold pg_redis_resolve_persistence_mode.
  destruct (pg_redis_persistence_mode cfg) as [m|]; [|done].
  split; [by repeat (case_decide; [congruence|])|].
  intros [= ->]. reflexivity.
Qed.

Lemma storage_shared_iff cfg :
  pg_redis_storage_is_shared cfg = true <->
  pg_redis_storage_mode cfg = Some (bs "shared") /\ shmem_initialized cfg = true.
Proof.
  unfold pg_redis_storage_is_shared, pg_redis_resolve_storage_mode.
  destruct (pg_redis_storage_mode cfg) as [m|]; [|naive_solver].
  case_decide as Hd; [subst; naive_solver|].
  simpl. split; [done|]. intros [[= ->] _]. congruence.
Qed.

(** ** Properties *)

(** The text of an int64 fits the 32-byte buffer and parses back to it, so
    the value [GET] prints for a counter is one [INCR] accepts. *)
Theorem int64_text_roundtrip (v : Z) :
  is_i64 v ->
  pg_redis_parse_int64 (pg_redis_format_int64 v) = Some v /\
  1 <= blen (pg_redis_format_int64 v) < 32.
Proof.
  intros Hv. assert (Hl : 1 <= blen (pg_redis_format_int64 v) < 32).
  { unfold pg_redis_format_int64, blen.
    destruct (Z.ltb_spec v 0).
    - pose proof (format_digits_length 20 (- v) []). cbn [length] in *. lia.
    - pose proof (format_digits_length 20 v []).
      pose proof (format_digits_nonempty 20 v [] ltac:(lia) ltac:(lia)). cbn [length] in *. lia. }
  split; [|done]. unfold pg_redis_parse_int64.
  rewrite (proj2 (Z.eqb_neq (blen _) 0)), (proj2 (Z.leb_gt 32 (blen _))) by lia.
  by rewrite strtoll_format.
Qed.

(** asynchronous persistence is in effect exactly when it is requested and
    the shared keyspace exists; otherwise the request is downgraded to
    [sync_table], and every other mode is as configured. *)
Theorem effective_mode_spec (cfg : Config) :
  (pg_redis_effective_persistence_mode cfg = PG_REDIS_PERSIST_ASYNC_TABLE <->
     pg_redis_persistence_mode cfg = Some (bs "async_table") /\
     pg_redis_storage_mode cfg = Some (bs "shared") /\
     shmem_initialized cfg = true) /\
  (pg_redis_persistence_mode cfg = Some (bs "async_table") ->
   pg_redis_storage_is_shared cfg = false ->
   pg_redis_effective_persistence_mode cfg = PG_REDIS_PERSIST_SYNC_TABLE) /\
  (pg_redis_persistence_mode cfg <> Some (bs "async_table") ->
   pg_redis_effective_persistence_mode cfg = pg_redis_resolve_persistence_mode cfg).
Proof.
  unfold pg_redis_effective_persistence_mode.
  rewrite <- (resolve_async_iff cfg).
  case_bool_decide as Hm; simpl.
  - split; [|split; [by intros _ ->|done]]. rewrite <- (storage_shared_iff cfg).
    destruct (pg_redis_storage_is_shared cfg); simpl; naive_solver.
  - naive_solver.
Qed.

Lemma session_never_async cfg :
  pg_redis_storage_is_shared cfg = false ->
  pg_redis_effective_persistence_mode cfg <> PG_REDIS_PERSIST_ASYNC_TABLE.
Proof.
  unfold pg_redis_effective_persistence_mode. intros ->.
  case_bool_decide; simpl; congruence.
Qed.

Lemma int64_text_roundtrip_witness :
  pg_redis_parse_int64 (pg_redis_format_int64 INT64_MIN) = Some INT64_MIN /\
  1 <= blen (pg_redis_format_int64 INT64_MIN) < 32.
Proof. apply (int64_text_roundtrip INT64_MIN). vm_compute. split; discriminate. Defined.
