(* ===== verification/ListValue.v ===== *)
(** * Per-backend lists (src/list.c)

    The doubly linked chain is the Rocq list [l_nodes], head first; every node
    carries the ordinal under which [pgredis.list_items] stores it. *)
From S2P Require Import Prelude Types.

(** [sizeof(PgRedisListNode)] on LP64. *)
Definition sizeof_PgRedisListNode : Z := 48.

Definition node_bytes (n : PgRedisListNode) : Z := sizeof_PgRedisListNode + blen (n_value n).

Definition pg_redis_list_create_in : PgRedisList :=
  {| l_nodes := []; l_length := 0; l_memory_usage := 0;
     l_min_ord := 0; l_max_ord := -1; l_ord_initialized := false;
     l_pending_delete_ords := [] |}.

Definition pg_redis_list_lpush (l : PgRedisList) (value : bytes) : Z * PgRedisList :=
  let '(ord, min_ord, max_ord) :=
    if negb (l_ord_initialized l) then (0, 0, 0)
    else let o := l_min_ord l - 1 in (o, o, l_max_ord l) in
  let n := {| n_value := value; n_ord := ord; n_pending_insert := true |} in
  let length' := l_length l + 1 in
  (length',
   {| l_nodes := n :: l_nodes l; l_length := length';
      l_memory_usage := l_memory_usage l + (sizeof_PgRedisListNode + blen value);
      l_min_ord := min_ord; l_max_ord := max_ord; l_ord_initialized := true;
      l_pending_delete_ords := l_pending_delete_ords l |}).

Definition pg_redis_list_rpush (l : PgRedisList) (value : bytes) : Z * PgRedisList :=
  let '(ord, min_ord, max_ord) :=
    if negb (l_ord_initialized l) then (0, 0, 0)
    else let o := l_max_ord l + 1 in (o, l_min_ord l, o) in
  let n := {| n_value := value; n_ord := ord; n_pending_insert := true |} in
  let length' := l_length l + 1 in
  (length',
   {| l_nodes := l_nodes l ++ [n]; l_length := length';
      l_memory_usage := l_memory_usage l + (sizeof_PgRedisListNode + blen value);
      l_min_ord := min_ord; l_max_ord := max_ord; l_ord_initialized := true;
      l_pending_delete_ords := l_pending_delete_ords l |}).

(** A node that never went durable leaves nothing to delete. *)
Definition record_pending_delete (l : PgRedisList) (n : PgRedisListNode) : PgRedisList :=
  if n_pending_insert n then l
  else {| l_nodes := l_nodes l; l_length := l_length l;
          l_memory_usage := l_memory_usage l;
          l_min_ord := l_min_ord l; l_max_ord := l_max_ord l;
          l_ord_initialized := l_ord_initialized l;
          l_pending_delete_ords := n_ord n :: l_pending_delete_ords l |}.

(** The tail of [pg_redis_list_lpop] and [pg_redis_list_rpop]: install the
    remaining chain, its ordinal bounds, the length and the accounting. *)
Definition finish_pop (l : PgRedisList) (n : PgRedisListNode)
    (rest : list PgRedisListNode) (min_ord max_ord : Z) : PgRedisList :=
  let empty := match rest with [] => true | _ => false end in
  {| l_nodes := rest; l_length := l_length l - 1;
     l_memory_usage := if node_bytes n <=? l_memory_usage l
                       then l_memory_usage l - node_bytes n else l_memory_usage l;
     l_min_ord := if empty then 0 else min_ord;
     l_max_ord := if empty then -1 else max_ord;
     l_ord_initialized := if empty then false else l_ord_initialized l;
     l_pending_delete_ords := l_pending_delete_ords l |}.

Definition pg_redis_list_lpop (ol : option PgRedisList) : option bytes * option PgRedisList :=
  match ol with
  | None => (None, None)
  | Some l =>
      match l_nodes l with
      | [] => (None, Some l)
      | n :: rest =>
          let l' := record_pending_delete l n in
          let min_ord := match rest with h :: _ => n_ord h | [] => 0 end in
          (Some (n_value n), Some (finish_pop l' n rest min_ord (l_max_ord l')))
      end
  end.

Definition pg_redis_list_rpop (ol : option PgRedisList) : option bytes * option PgRedisList :=
  match ol with
  | None => (None, None)
  | Some l =>
      match reverse (l_nodes l) with
      | [] => (None, Some l)
      | n :: rest =>
          let l' := record_pending_delete l n in
          let max_ord := match rest with t :: _ => n_ord t | [] => 0 end in
          (Some (n_value n),
           Some (finish_pop l' n (reverse rest) (l_min_ord l') max_ord))
      end
  end.

Definition pg_redis_list_length (ol : option PgRedisList) : Z :=
  match ol with None => 0 | Some l => l_length l end.

Definition pg_redis_list_memory (ol : option PgRedisList) : Z :=
  match ol with None => 0 | Some l => l_memory_usage l end.

(** ** Invariant *)

Fixpoint nodes_memory (ns : list PgRedisListNode) : Z :=
  match ns with [] => 0 | n :: ns' => node_bytes n + nodes_memory ns' end.

Definition head_ord (d : Z) (ns : list PgRedisListNode) : Z :=
  match ns with [] => d | n :: _ => n_ord n end.
Definition last_ord (d : Z) (ns : list PgRedisListNode) : Z :=
  head_ord d (reverse ns).

Record list_wf (l : PgRedisList) : Prop := {
  lw_length : l_length l = Z.of_nat (length (l_nodes l));
  lw_memory : l_memory_usage l = nodes_memory (l_nodes l);
  lw_sorted : StronglySorted Z.lt (n_ord <$> l_nodes l);
  lw_init : l_ord_initialized l = match l_nodes l with [] => false | _ => true end;
  lw_min : l_min_ord l = head_ord 0 (l_nodes l);
  lw_max : l_max_ord l = last_ord (-1) (l_nodes l)
}.

(** ** Lemmas *)

Lemma nodes_memory_app a b : nodes_memory (a ++ b) = nodes_memory a + nodes_memory b.
Proof. induction a; simpl; lia. Qed.

Lemma nodes_memory_nonneg a : 0 <= nodes_memory a.
Proof.
  induction a as [|n a IH]; simpl; [lia|]. unfold node_bytes, sizeof_PgRedisListNode.
  pose proof (blen_nonneg (n_value n)). lia.
Qed.

Lemma last_ord_snoc d ns n : last_ord d (ns ++ [n]) = n_ord n.
Proof. unfold last_ord. by rewrite reverse_snoc. Qed.

Lemma head_ord_app d ns ns' : ns <> [] -> head_ord d (ns ++ ns') = head_ord d ns.
Proof. by destruct ns. Qed.

Lemma last_ord_cons d n ns : ns <> [] -> last_ord d (n :: ns) = last_ord d ns.
Proof.
  intros H. unfold last_ord. rewrite reverse_cons, head_ord_app; [done|].
  intros E%(f_equal reverse). by rewrite reverse_involutive in E.
Qed.

(** Ordinals of a sorted chain lie between its end points. *)
Lemma sorted_head ns d x :
  StronglySorted Z.lt (n_ord <$> ns) -> x ∈ ns -> head_ord d ns <= n_ord x.
Proof.
  destruct ns as [|n ns]; [set_solver|]. simpl. inversion_clear 1 as [|? ? _ Hall].
  rewrite elem_of_cons. intros [->|Hx]; [lia|].
  rewrite Forall_forall in Hall. specialize (Hall (n_ord x)).
  apply Z.lt_le_incl, Hall. by apply list_elem_of_fmap_2.
Qed.

Lemma sorted_snoc ns o :
  StronglySorted Z.lt (ns ++ [o]) <-> StronglySorted Z.lt ns /\ Forall (fun x => x < o) ns.
Proof.
  rewrite StronglySorted_app, Forall_forall. split.
  - intros (H & Hs & _). split; [done|]. intros x Hx. apply H; [done|set_solver].
  - intros [Hs H]. split; [|split; [done|repeat constructor]].
    intros x1 x2 Hx ->%list_elem_of_singleton. by apply H.
Qed.

Lemma sorted_last ns d x :
  StronglySorted Z.lt (n_ord <$> ns) -> x ∈ ns -> n_ord x <= last_ord d ns.
Proof.
  destruct ns as [|n ns] using rev_ind; [set_solver|].
  rewrite fmap_app, last_ord_snoc. simpl. rewrite sorted_snoc, Forall_fmap, Forall_forall.
  intros [_ Hall]. rewrite elem_of_app, list_elem_of_singleton. intros [Hx| ->]; [|lia].
  apply Z.lt_le_incl. by apply (Hall x).
Qed.

Lemma list_create_wf : list_wf pg_redis_list_create_in.
Proof. split; try done. constructor. Qed.

Lemma list_lpush_wf l v : list_wf l -> list_wf (pg_redis_list_lpush l v).2.
Proof.
  intros [Hlen Hmem Hs Hi Hmin Hmax]. unfold pg_redis_list_lpush. rewrite Hi.
  destruct (l_nodes l) as [|n ns] eqn:En; simpl in *; split; simpl; try done; try lia;
    unfold node_bytes in *; simpl; try lia.
  - repeat constructor.
  - rewrite StronglySorted_cons, Forall_cons. split; [|done].
    inversion_clear Hs as [|? ? _ Hall]. split; [lia|].
    eapply Forall_impl; [exact Hall|]. intros; simpl in *; lia.
  - by rewrite last_ord_cons.
Qed.

Lemma list_rpush_wf l v : list_wf l -> list_wf (pg_redis_list_rpush l v).2.
Proof.
  intros [Hlen Hmem Hs Hi Hmin Hmax]. unfold pg_redis_list_rpush. rewrite Hi.
  destruct (l_nodes l) as [|n ns] eqn:En; simpl in *; split; simpl; try done; try lia;
    unfold node_bytes in *; simpl; try lia.
  - repeat constructor.
  - rewrite length_app. simpl. lia.
  - rewrite nodes_memory_app. simpl. unfold node_bytes. simpl. lia.
  - change (n :: ns ++ [?x]) with ((n :: ns) ++ [x]). rewrite fmap_app. simpl.
    change (n_ord n :: ?a ++ ?b) with ((n_ord n :: a) ++ b). apply sorted_snoc.
    split; [done|]. change (n_ord n :: (n_ord <$> ns)) with (n_ord <$> (n :: ns)).
    rewrite Forall_fmap, Forall_forall. intros x Hx. simpl.
    pose proof (sorted_last (n :: ns) (-1) x Hs Hx). lia.
  - change (n :: ns ++ [?x]) with ((n :: ns) ++ [x]). by rewrite last_ord_snoc.
Qed.

Lemma record_pending_delete_wf l n : list_wf l -> list_wf (record_pending_delete l n).
Proof. unfold record_pending_delete. destruct (n_pending_insert n); [done|]. by intros []; split. Qed.

Lemma record_pending_delete_nodes l n : l_nodes (record_pending_delete l n) = l_nodes l.
Proof. unfold record_pending_delete. by destruct (n_pending_insert n). Qed.

(** Popping: what both ends need. *)
Lemma finish_pop_wf l n rest mn mx :
  list_wf l ->
  length (l_nodes l) = S (length rest) ->
  nodes_memory (l_nodes l) = node_bytes n + nodes_memory rest ->
  StronglySorted Z.lt (n_ord <$> rest) ->
  (rest <> [] -> mn = head_ord 0 rest /\ mx = last_ord (-1) rest) ->
  list_wf (finish_pop l n rest mn mx).
Proof.
  intros [Hlen Hmem Hs Hi Hmin Hmax] Hl Hm Hr Hb. unfold finish_pop.
  assert (Hne : l_nodes l <> []) by (intros E; by rewrite E in Hl).
  pose proof (nodes_memory_nonneg rest).
  split; simpl; try done.
  - lia.
  - destruct (Z.leb_spec (node_bytes n) (l_memory_usage l)); lia.
  - destruct rest; [done|]. rewrite Hi. by destruct (l_nodes l).
  - destruct rest; [done|]. by destruct Hb as [-> _].
  - destruct rest; [done|]. by destruct Hb as [_ ->].
Qed.

Lemma list_lpop_wf l : list_wf l -> exists l', (pg_redis_list_lpop (Some l)).2 = Some l' /\ list_wf l'.
Proof.
  intros Hwf. simpl. destruct (l_nodes l) as [|n rest] eqn:En; [by eauto|].
  eexists. split; [done|]. pose proof (record_pending_delete_wf l n Hwf) as Hwf'.
  apply finish_pop_wf; [done|rewrite record_pending_delete_nodes, En; done..| |].
  - pose proof (lw_sorted _ Hwf) as Hs. rewrite En in Hs. by inversion_clear Hs.
  - intros Hne. split; [by destruct rest|].
    rewrite (lw_max _ Hwf'), record_pending_delete_nodes, En. by apply last_ord_cons.
Qed.

Lemma list_rpop_wf l : list_wf l -> exists l', (pg_redis_list_rpop (Some l)).2 = Some l' /\ list_wf l'.
Proof.
  intros Hwf. simpl. destruct (list_snoc_cases (l_nodes l)) as [En|(ns & n & En)];
    rewrite En; [by eauto|].
  rewrite reverse_snoc. eexists. split; [done|]. rewrite reverse_involutive.
  pose proof (record_pending_delete_wf l n Hwf) as Hwf'.
  apply finish_pop_wf; [done|rewrite record_pending_delete_nodes, En..| |].
  - rewrite length_app. simpl. lia.
  - rewrite nodes_memory_app. simpl. lia.
  - pose proof (lw_sorted _ Hwf) as Hs. rewrite En, fmap_app in Hs.
    by apply StronglySorted_app_1_l in Hs.
  - intros Hne. split.
    + rewrite (lw_min _ Hwf'), record_pending_delete_nodes, En. by apply head_ord_app.
    + unfold last_ord. destruct (reverse ns) eqn:E; [|done].
      apply (f_equal reverse) in E. by rewrite reverse_involutive in E.
Qed.

#[export] Hint Resolve list_create_wf list_lpush_wf list_rpush_wf : pgredis.

(** ** Refinement to a double-ended queue *)

Module Deque.
(** What a Redis list promises: push and pop at either end of a sequence. *)
Inductive op := LPUSH (v : bytes) | RPUSH (v : bytes) | LPOP | RPOP | LLEN.
Inductive reply := RLen (n : Z) | RVal (v : option bytes).

Definition spec_step (o : op) (q : list bytes) : reply * list bytes :=
  match o with
  | LPUSH v => (RLen (Z.of_nat (S (length q))), v :: q)
  | RPUSH v => (RLen (Z.of_nat (S (length q))), q ++ [v])
  | LPOP => match q with [] => (RVal None, []) | v :: q' => (RVal (Some v), q') end
  | RPOP => match last q with
            | None => (RVal None, q)
            | Some v => (RVal (Some v), take (pred (length q)) q)
            end
  | LLEN => (RLen (Z.of_nat (length q)), q)
  end.

(** The calls of list.c on a list that exists. *)
Definition impl_step (o : op) (l : PgRedisList) : reply * PgRedisList :=
  match o with
  | LPUSH v => let '(n, l') := pg_redis_list_lpush l v in (RLen n, l')
  | RPUSH v => let '(n, l') := pg_redis_list_rpush l v in (RLen n, l')
  | LPOP => let '(r, l') := pg_redis_list_lpop (Some l) in (RVal r, default l l')
  | RPOP => let '(r, l') := pg_redis_list_rpop (Some l) in (RVal r, default l l')
  | LLEN => (RLen (pg_redis_list_length (Some l)), l)
  end.

Fixpoint run {S} (step : op -> S -> reply * S) (os : list op) (s : S) : list reply * S :=
  match os with
  | [] => ([], s)
  | o :: os' => let '(r, s1) := step o s in
                let '(rs, s2) := run step os' s1 in (r :: rs, s2)
  end.

Definition items (l : PgRedisList) : list bytes := n_value <$> l_nodes l.
End Deque.
Import Deque.

Lemma take_pred_snoc {A} (q : list A) v : take (pred (length (q ++ [v]))) (q ++ [v]) = q.
Proof. rewrite length_app, Nat.add_1_r. simpl. apply take_app_length. Qed.

(** One call of list.c is one step of the queue, and keeps the invariant. *)
Lemma impl_step_refines o l :
  list_wf l ->
  let '(r, l') := impl_step o l in
  list_wf l' /\ spec_step o (items l) = (r, items l').
Proof.
  intros Hwf. pose proof (lw_length _ Hwf) as Hlen. unfold items.
  destruct o as [v|v| | |]; cbn [impl_step spec_step].
  - destruct (pg_redis_list_lpush l v) as [n l'] eqn:E.
    pose proof (list_lpush_wf l v Hwf) as Hwf'. rewrite E in Hwf'. split; [done|].
    unfold pg_redis_list_lpush in E. destruct (if negb _ then _ else _) as [[o mn] mx].
    injection E as <- <-. simpl. rewrite length_fmap. do 2 f_equal. lia.
  - destruct (pg_redis_list_rpush l v) as [n l'] eqn:E.
    pose proof (list_rpush_wf l v Hwf) as Hwf'. rewrite E in Hwf'. split; [done|].
    unfold pg_redis_list_rpush in E. destruct (if negb _ then _ else _) as [[o mn] mx].
    injection E as <- <-. simpl. rewrite fmap_app, length_fmap. do 2 f_equal. lia.
  - destruct (list_lpop_wf l Hwf) as (l' & E & Hwf').
    destruct (pg_redis_list_lpop (Some l)) as [r ol] eqn:Ep. simpl in E. subst ol.
    split; [done|]. simpl in Ep. simpl. destruct (l_nodes l) eqn:En; simpl;
      injection Ep as <- <-; by rewrite ?En.
  - destruct (list_rpop_wf l Hwf) as (l' & E & Hwf').
    destruct (pg_redis_list_rpop (Some l)) as [r ol] eqn:Ep. simpl in E. subst ol.
    split; [done|]. simpl in Ep. simpl.
    destruct (list_snoc_cases (l_nodes l)) as [En|(ns & n & En)]; rewrite En in *; simpl in *.
    + injection Ep as <- <-. by rewrite En.
    + rewrite reverse_snoc, reverse_involutive in Ep. injection Ep as <- <-. simpl.
      rewrite fmap_app. cbn [fmap list_fmap]. by rewrite last_snoc, take_pred_snoc.
  - split; [done|]. simpl. by rewrite length_fmap, Hlen.
Qed.

(** ** Durability of the deltas

    [rows] are the [pgredis.list_items] rows of the list's key.  A flush first
    deletes [pending_delete_ords] and then inserts the pending nodes. *)

Definition pending_inserts (l : PgRedisList) : list (Z * bytes) :=
  (fun n => (n_ord n, n_value n)) <$> filter (fun n => n_pending_insert n = true) (l_nodes l).

Definition list_rows (l : PgRedisList) : gmap Z bytes :=
  list_to_map ((fun n => (n_ord n, n_value n)) <$> l_nodes l).

Definition rows_after_deletes (rows : gmap Z bytes) (ords : list Z) : gmap Z bytes :=
  filter (fun p => p.1 ∉ ords) rows.

(** Every row is either a durable node or recorded for deletion, and every
    durable node has its row. *)
Record list_synced (rows : gmap Z bytes) (l : PgRedisList) : Prop := {
  ls_nodes : forall n, n ∈ l_nodes l -> n_pending_insert n = false ->
    rows !! n_ord n = Some (n_value n) /\ n_ord n ∉ l_pending_delete_ords l;
  ls_rows : forall o v, rows !! o = Some v -> o ∉ l_pending_delete_ords l ->
    exists n, n ∈ l_nodes l /\ n_ord n = o /\ n_pending_insert n = false
}.

Lemma list_ords_NoDup l : list_wf l -> NoDup (n_ord <$> l_nodes l).
Proof.
  intros Hwf. pose proof (lw_sorted _ Hwf) as Hs.
  induction Hs as [|o os _ IH Hall]; constructor; [|done].
  intros Hin. rewrite Forall_forall in Hall. specialize (Hall o Hin). lia.
Qed.

Lemma lookup_list_rows l n :
  list_wf l -> n ∈ l_nodes l -> list_rows l !! n_ord n = Some (n_value n).
Proof.
  intros Hwf Hn. apply elem_of_list_to_map_1.
  - rewrite <- list_fmap_compose. by apply list_ords_NoDup.
  - apply list_elem_of_fmap. eauto.
Qed.

Lemma lookup_list_rows_inv l o v :
  list_rows l !! o = Some v -> exists n, n ∈ l_nodes l /\ n_ord n = o /\ n_value n = v.
Proof.
  intros H%elem_of_list_to_map_2. apply list_elem_of_fmap in H as (n & [= -> ->] & Hn). eauto.
Qed.

Lemma list_synced_push rows l l' n :
  list_synced rows l -> n_pending_insert n = true ->
  (forall x, x ∈ l_nodes l' <-> x = n \/ x ∈ l_nodes l) ->
  l_pending_delete_ords l' = l_pending_delete_ords l ->
  list_synced rows l'.
Proof.
  intros [Hn Hr] Hp Hel Hd. split; rewrite Hd.
  - intros x [->|Hx]%Hel Hxp; [congruence|]. by apply Hn.
  - intros o v Ho Hno. destruct (Hr o v Ho Hno) as (x & Hx & Hxo). exists x. naive_solver.
Qed.

Lemma list_synced_lpush rows l v :
  list_synced rows l -> list_synced rows (pg_redis_list_lpush l v).2.
Proof.
  intros H. unfold pg_redis_list_lpush. destruct (if negb _ then _ else _) as [[o mn] mx].
  eapply list_synced_push with (n := {| n_value := v; n_ord := o; n_pending_insert := true |});
    [done|done| |done]. intros x. simpl. set_solver.
Qed.

Lemma list_synced_rpush rows l v :
  list_synced rows l -> list_synced rows (pg_redis_list_rpush l v).2.
Proof.
  intros H. unfold pg_redis_list_rpush. destruct (if negb _ then _ else _) as [[o mn] mx].
  eapply list_synced_push with (n := {| n_value := v; n_ord := o; n_pending_insert := true |});
    [done|done| |done]. intros x. simpl. set_solver.
Qed.

(** Removing one node [n] from a synced list, recording its delete if durable. *)
Lemma list_synced_pop rows l n rest mn mx :
  list_wf l -> list_synced rows l ->
  l_nodes l ≡ₚ n :: rest ->
  list_synced rows (finish_pop (record_pending_delete l n) n rest mn mx).
Proof.
  intros Hwf [Hn Hr] Hperm.
  assert (Hel : forall x, x ∈ l_nodes l <-> x = n \/ x ∈ rest).
  { intros x. rewrite Hperm. apply elem_of_cons. }
  assert (Hne : forall x, x ∈ rest -> n_ord x <> n_ord n).
  { intros x Hx E. pose proof (list_ords_NoDup l Hwf) as Hnd. rewrite Hperm in Hnd. simpl in Hnd.
    apply NoDup_cons in Hnd as [Hni _]. apply Hni. rewrite <- E. by apply list_elem_of_fmap_2. }
  unfold record_pending_delete. destruct (n_pending_insert n) eqn:Hp; split; simpl.
  - intros x Hx Hxp. apply Hn; [|done]. apply Hel. by right.
  - intros o v Ho Hno. destruct (Hr o v Ho Hno) as (x & Hx & Hxo & Hxp).
    apply Hel in Hx as [->|Hx]; [congruence|]. eauto.
  - intros x Hx Hxp. destruct (Hn x) as [H1 H2]; [apply Hel; by right|done|].
    split; [done|]. rewrite not_elem_of_cons. split; [|done]. by apply Hne.
  - intros o v Ho [Hno1 Hno2]%not_elem_of_cons. destruct (Hr o v Ho Hno2) as (x & Hx & Hxo & Hxp).
    apply Hel in Hx as [->|Hx]; [congruence|]. eauto.
Qed.

Lemma list_synced_lpop rows l r l' :
  list_wf l -> list_synced rows l -> pg_redis_list_lpop (Some l) = (r, Some l') ->
  list_synced rows l'.
Proof.
  intros Hwf Hs. simpl. destruct (l_nodes l) as [|n rest] eqn:En; intros [= <- <-]; [done|].
  apply list_synced_pop; [done..|]. by rewrite En.
Qed.

Lemma list_synced_rpop rows l r l' :
  list_wf l -> list_synced rows l -> pg_redis_list_rpop (Some l) = (r, Some l') ->
  list_synced rows l'.
Proof.
  intros Hwf Hs. simpl. destruct (list_snoc_cases (l_nodes l)) as [En|(ns & n & En)];
    rewrite En; [by intros [= <- <-]|].
  rewrite reverse_snoc, reverse_involutive. intros [= <- <-].
  apply list_synced_pop; [done..|]. rewrite En. by rewrite Permutation_app_comm.
Qed.

(** The memory state after a flush: no pending insert, no pending delete. *)
Definition list_clean (l : PgRedisList) : PgRedisList :=
  {| l_nodes := (fun n => {| n_value := n_value n; n_ord := n_ord n;
                             n_pending_insert := false |}) <$> l_nodes l;
     l_length := l_length l; l_memory_usage := l_memory_usage l;
     l_min_ord := l_min_ord l; l_max_ord := l_max_ord l;
     l_ord_initialized := l_ord_initialized l; l_pending_delete_ords := [] |}.

Lemma pending_insert_ords_NoDup l : list_wf l -> NoDup (pending_inserts l).*1.
Proof.
  intros Hwf. unfold pending_inserts. rewrite <- list_fmap_compose.
  eapply sublist_NoDup; [by apply list_ords_NoDup|].
  apply (fmap_sublist n_ord), sublist_filter.
Qed.

(** The inserts of a flush never hit a row that survives its deletes. *)
Lemma pending_inserts_fresh rows l o v :
  list_wf l -> list_synced rows l -> (o, v) ∈ pending_inserts l ->
  rows_after_deletes rows (l_pending_delete_ords l) !! o = None.
Proof.
  intros Hwf [Hn Hr]. unfold pending_inserts.
  rewrite list_elem_of_fmap. intros (n & [= -> ->] & [Hp Hin]%list_elem_of_filter).
  apply eq_None_not_Some. intros [w Hw]. unfold rows_after_deletes in Hw.
  apply map_lookup_filter_Some in Hw as [Hw Hnd]. simpl in Hnd.
  destruct (Hr _ _ Hw Hnd) as (x & Hx & Hxo & Hxp).
  assert (x = n) as ->; [|congruence].
  pose proof (list_ords_NoDup l Hwf) as Hnodup.
  apply list_elem_of_lookup in Hx as [i Hi]. apply list_elem_of_lookup in Hin as [j Hj].
  assert (i = j) as ->; [|congruence].
  eapply NoDup_lookup; [exact Hnodup|rewrite list_lookup_fmap, Hi; done|].
  by rewrite list_lookup_fmap, Hj, Hxo.
Qed.

Lemma list_flush_rows rows l :
  list_wf l -> list_synced rows l ->
  list_to_map (pending_inserts l) ∪ rows_after_deletes rows (l_pending_delete_ords l)
  = list_rows l.
Proof.
  intros Hwf Hsync. pose proof Hsync as [Hn Hr]. apply map_eq. intros o.
  destruct ((list_to_map (pending_inserts l) : gmap Z bytes) !! o) as [v|] eqn:Ei.
  - rewrite (lookup_union_Some_l _ _ _ _ Ei). apply elem_of_list_to_map_2 in Ei.
    unfold pending_inserts in Ei.
    apply list_elem_of_fmap in Ei as (n & [= -> ->] & [_ Hin]%list_elem_of_filter).
    symmetry. by apply lookup_list_rows.
  - rewrite lookup_union_r by done.
    assert (Hnp : forall n, n ∈ l_nodes l -> n_ord n = o -> n_pending_insert n = false).
    { intros n Hin <-. destruct (n_pending_insert n) eqn:Hp; [|done].
      apply not_elem_of_list_to_map_2 in Ei. contradict Ei. unfold pending_inserts.
      apply list_elem_of_fmap. exists (n_ord n, n_value n). split; [done|].
      apply list_elem_of_fmap. exists n. split; [done|]. by apply list_elem_of_filter. }
    apply option_eq. intros v. unfold rows_after_deletes. rewrite map_lookup_filter_Some. simpl.
    split.
    + intros [Ho Hnd]. destruct (Hr o v Ho Hnd) as (n & Hin & <- & Hp).
      destruct (Hn n Hin Hp) as [Hrow _]. rewrite Hrow in Ho. injection Ho as <-.
      by apply lookup_list_rows.
    + intros (n & Hin & <- & <-)%lookup_list_rows_inv. apply Hn; [done|]. by apply Hnp.
Qed.

Lemma list_clean_synced l : list_wf l -> list_synced (list_rows l) (list_clean l).
Proof.
  intros Hwf. split; simpl.
  - intros x (n & -> & Hin)%list_elem_of_fmap _. simpl. split; [|set_solver].
    by apply lookup_list_rows.
  - intros o v (n & Hin & <- & <-)%lookup_list_rows_inv _.
    eexists. split; [by apply list_elem_of_fmap_2|done].
Qed.

Lemma list_clean_wf l : list_wf l -> list_wf (list_clean l).
Proof.
  intros [Hlen Hmem Hs Hi Hmin Hmax]. split; simpl.
  - by rewrite length_fmap.
  - rewrite Hmem. generalize (l_nodes l). induction l0 as [|n ns IH]; [done|].
    cbn [fmap list_fmap nodes_memory]. by f_equal.
  - by rewrite <- list_fmap_compose.
  - rewrite Hi. by destruct (l_nodes l).
  - rewrite Hmin. by destruct (l_nodes l).
  - rewrite Hmax. unfold last_ord. rewrite <- fmap_reverse. by destruct (reverse (l_nodes l)).
Qed.

(** ** Properties *)

(** List.c implements a double-ended queue: any sequence of pushes, pops
    and length queries on a fresh list gives the replies of the queue and ends
    in a well-formed list (exact length and byte accounting, strictly
    increasing ordinals, end ordinals matching the ends) holding its contents. *)
Theorem list_refines_deque (os : list op) :
  let '(rs, l) := run impl_step os pg_redis_list_create_in in
  list_wf l /\ run spec_step os [] = (rs, items l).
Proof.
  assert (H : forall os l, list_wf l ->
    let '(rs, l') := run impl_step os l in
    list_wf l' /\ run spec_step os (items l) = (rs, items l')).
  { clear os. intros os. induction os as [|o os IH]; intros l Hwf; [done|].
    cbn [run]. pose proof (impl_step_refines o l Hwf) as Hstep.
    destruct (impl_step o l) as [r l1]. destruct Hstep as [Hwf1 Hspec]. rewrite Hspec.
    specialize (IH l1 Hwf1). destruct (run impl_step os l1) as [rs l2].
    destruct IH as [Hwf2 ->]. done. }
  exact (H os pg_redis_list_create_in list_create_wf).
Qed.


(** A durable list of one item, popped and pushed to. *)
Definition demo_list : PgRedisList := list_clean (pg_redis_list_rpush pg_redis_list_create_in (bs "a")).2.
Definition demo_list_ops : list op := [LPOP; RPUSH (bs "b"); LPUSH (bs "c")].

