(* ===== verification/HashValue.v ===== *)
(** * Per-backend hashes (src/hash_value.c)

    The nested dynahash table is a finite map from field names; the tombstone
    chain is a list, most recent first. *)
From S2P Require Import Prelude Types.

(** [sizeof(PgRedisHashField)] on LP64. *)
Definition sizeof_PgRedisHashField : Z := 1056.

Definition pg_redis_hash_create_in : PgRedisHash :=
  {| h_fields := ∅; h_field_count := 0; h_memory_usage := 0; h_tombstones := [] |}.

(** Returns whether the field is new. *)
Definition pg_redis_hash_set (h : PgRedisHash) (field value : bytes)
    : outcome (bool * PgRedisHash) :=
  if PG_REDIS_MAX_FIELD_SIZE <? blen field then Raise ERRCODE_PROGRAM_LIMIT_EXCEEDED
  else
    let '(found, field_count, memory_usage) :=
      match h_fields h !! field with
      | Some f => (true, h_field_count h, h_memory_usage h - blen (f_value f))
      | None => (false, h_field_count h + 1, h_memory_usage h + sizeof_PgRedisHashField)
      end in
    Ret (negb found,
         {| h_fields := <[field := {| f_value := value; f_dirty := true |}]> (h_fields h);
            h_field_count := field_count;
            h_memory_usage := memory_usage + blen value;
            h_tombstones := h_tombstones h |}).

Definition pg_redis_hash_get (h : PgRedisHash) (field : bytes) : option bytes :=
  if PG_REDIS_MAX_FIELD_SIZE <? blen field then None
  else match h_fields h !! field with
       | None => None
       | Some f => Some (f_value f)
       end.

Definition pg_redis_hash_exists (h : PgRedisHash) (field : bytes) : bool :=
  match pg_redis_hash_get h field with Some _ => true | None => false end.

Definition pg_redis_hash_del (h : PgRedisHash) (field : bytes) : bool * PgRedisHash :=
  if PG_REDIS_MAX_FIELD_SIZE <? blen field then (false, h)
  else match h_fields h !! field with
       | None => (false, h)
       | Some f =>
           let m1 := if blen (f_value f) <=? h_memory_usage h
                     then h_memory_usage h - blen (f_value f) else h_memory_usage h in
           let m2 := if sizeof_PgRedisHashField <=? m1
                     then m1 - sizeof_PgRedisHashField else m1 in
           let c := if 0 <? h_field_count h then h_field_count h - 1 else h_field_count h in
           (true, {| h_fields := delete field (h_fields h); h_field_count := c;
                     h_memory_usage := m2; h_tombstones := field :: h_tombstones h |})
       end.

Definition pg_redis_hash_field_count (oh : option PgRedisHash) : Z :=
  match oh with None => 0 | Some h => h_field_count h end.

Definition pg_redis_hash_memory (oh : option PgRedisHash) : Z :=
  match oh with None => 0 | Some h => h_memory_usage h end.

(** ** Invariant and abstraction *)

Definition field_bytes (f : PgRedisHashField) : Z := sizeof_PgRedisHashField + blen (f_value f).

Definition fields_memory (m : gmap bytes PgRedisHashField) : Z :=
  map_fold (fun _ f acc => field_bytes f + acc) 0 m.

Record hash_wf (h : PgRedisHash) : Prop := {
  hw_count : h_field_count h = Z.of_nat (size (h_fields h));
  hw_memory : h_memory_usage h = fields_memory (h_fields h);
  hw_names : forall f fl, h_fields h !! f = Some fl -> blen f <= PG_REDIS_MAX_FIELD_SIZE
}.

(** The contents a hash stands for. *)
Definition hash_view (h : PgRedisHash) : gmap bytes bytes := f_value <$> h_fields h.

(** ** Lemmas *)

Lemma fields_memory_insert m k f :
  m !! k = None -> fields_memory (<[k := f]> m) = field_bytes f + fields_memory m.
Proof. intros. unfold fields_memory. rewrite map_fold_insert_L; [done| |done]. intros; lia. Qed.

Lemma fields_memory_delete m k f :
  m !! k = Some f -> fields_memory m = field_bytes f + fields_memory (delete k m).
Proof. intros. unfold fields_memory. erewrite map_fold_delete_L; [done| |done]. intros; lia. Qed.

Lemma fields_memory_nonneg m : 0 <= fields_memory m.
Proof.
  induction m as [|k f m Hk IH] using map_ind; [done|].
  rewrite fields_memory_insert by done. unfold field_bytes, sizeof_PgRedisHashField.
  pose proof (blen_nonneg (f_value f)). lia.
Qed.

Lemma hash_create_wf : hash_wf pg_redis_hash_create_in.
Proof. split; [done|done|]. intros f fl. simpl. by rewrite lookup_empty. Qed.

(** Setting a field, in one equation. *)
Lemma hash_set_spec h field value :
  hash_wf h -> blen field <= PG_REDIS_MAX_FIELD_SIZE ->
  exists h', pg_redis_hash_set h field value = Ret (bool_decide (hash_view h !! field = None), h') /\
    hash_wf h' /\ hash_view h' = <[field := value]> (hash_view h) /\
    h_fields h' = <[field := {| f_value := value; f_dirty := true |}]> (h_fields h) /\
    h_tombstones h' = h_tombstones h.
Proof.
  intros [Hc Hm Hn] Hf. unfold pg_redis_hash_set, hash_view.
  destruct (Z.ltb_spec PG_REDIS_MAX_FIELD_SIZE (blen field)); [lia|].
  rewrite lookup_fmap.
  destruct (h_fields h !! field) as [f|] eqn:E; (eexists; split; [reflexivity|]);
    (split; [split; simpl|split; [|done]]); simpl; try by rewrite fmap_insert.
  - rewrite map_size_insert_Some by eauto. done.
  - rewrite <- insert_delete_eq, fields_memory_insert by apply lookup_delete_eq.
    rewrite Hm, (fields_memory_delete _ _ _ E). unfold field_bytes. simpl. lia.
  - intros g gl. destruct (decide (field = g)) as [->|]; [done|].
    rewrite lookup_insert_ne by done. apply Hn.
  - rewrite map_size_insert_None by done. lia.
  - rewrite fields_memory_insert by done. rewrite Hm. unfold field_bytes. simpl. lia.
  - intros g gl. destruct (decide (field = g)) as [->|]; [done|].
    rewrite lookup_insert_ne by done. apply Hn.
Qed.

Lemma hash_get_spec h field :
  hash_wf h -> pg_redis_hash_get h field = hash_view h !! field.
Proof.
  intros Hwf. unfold pg_redis_hash_get, hash_view. rewrite lookup_fmap.
  destruct (Z.ltb_spec PG_REDIS_MAX_FIELD_SIZE (blen field)).
  - destruct (h_fields h !! field) eqn:E; [|done]. apply (hw_names _ Hwf) in E. lia.
  - by destruct (h_fields h !! field).
Qed.

Lemma hash_del_spec h field :
  hash_wf h ->
  let '(removed, h') := pg_redis_hash_del h field in
  removed = bool_decide (is_Some (hash_view h !! field)) /\
  hash_wf h' /\ hash_view h' = delete field (hash_view h) /\
  h_fields h' = delete field (h_fields h) /\
  h_tombstones h' = (if removed then field :: h_tombstones h else h_tombstones h).
Proof.
  intros Hwf. pose proof Hwf as [Hc Hm Hn]. unfold pg_redis_hash_del, hash_view.
  rewrite lookup_fmap.
  destruct (Z.ltb_spec PG_REDIS_MAX_FIELD_SIZE (blen field)).
  { assert (h_fields h !! field = None) as E.
    { destruct (h_fields h !! field) eqn:E; [|done]. apply Hn in E. lia. }
    rewrite E. simpl. rewrite delete_id by (by rewrite lookup_fmap, E).
    rewrite delete_id by done. done. }
  destruct (h_fields h !! field) as [f|] eqn:E; simpl.
  - split; [done|]. split; [split; simpl|].
    + rewrite Hc, map_size_delete_Some by eauto.
      assert (size (h_fields h) <> 0%nat) by (apply map_size_non_empty_iff; intros E0; by rewrite E0 in E).
      destruct (Z.ltb_spec 0 (Z.of_nat (size (h_fields h)))); lia.
    + rewrite Hm, (fields_memory_delete _ _ _ E). unfold field_bytes.
      pose proof (fields_memory_nonneg (delete field (h_fields h))).
      pose proof (blen_nonneg (f_value f)). unfold sizeof_PgRedisHashField in *.
      repeat match goal with |- context [?a <=? ?b] => destruct (Z.leb_spec a b) end; lia.
    + intros g gl. destruct (decide (field = g)) as [->|]; [by rewrite lookup_delete_eq|].
      rewrite lookup_delete_ne by done. apply Hn.
    + by rewrite fmap_delete.
  - rewrite delete_id by (by rewrite lookup_fmap, E). by rewrite delete_id.
Qed.

#[export] Hint Resolve hash_create_wf : pgredis.

(** ** Durability of the deltas

    [rows] are the [pgredis.hash_fields] rows of the hash's key.  A flush
    deletes the tombstoned fields and then upserts the dirty ones. *)

Definition dirty_fields (h : PgRedisHash) : list (bytes * bytes) :=
  (fun p => (p.1, f_value p.2)) <$>
    filter (fun p => f_dirty p.2 = true) (map_to_list (h_fields h)).

Definition hash_rows_after (rows : gmap bytes bytes) (h : PgRedisHash) : gmap bytes bytes :=
  list_to_map (dirty_fields h) ∪ filter (fun p => p.1 ∉ h_tombstones h) rows.

Definition hash_synced (rows : gmap bytes bytes) (h : PgRedisHash) : Prop :=
  forall f, match h_fields h !! f with
            | Some fl => f_dirty fl = false ->
                         rows !! f = Some (f_value fl) /\ f ∉ h_tombstones h
            | None => f ∈ h_tombstones h \/ rows !! f = None
            end.

Definition hash_clean (h : PgRedisHash) : PgRedisHash :=
  {| h_fields := (fun fl => {| f_value := f_value fl; f_dirty := false |}) <$> h_fields h;
     h_field_count := h_field_count h; h_memory_usage := h_memory_usage h;
     h_tombstones := [] |}.

Lemma dirty_fields_elem h f v :
  (f, v) ∈ dirty_fields h <->
  exists fl, h_fields h !! f = Some fl /\ f_dirty fl = true /\ f_value fl = v.
Proof.
  unfold dirty_fields. rewrite list_elem_of_fmap. split.
  - intros ([g fl] & [= -> ->] & [Hd Hin]%list_elem_of_filter).
    apply elem_of_map_to_list in Hin. eauto.
  - intros (fl & Hin & Hd & <-). exists (f, fl). split; [done|].
    apply list_elem_of_filter. split; [done|]. by apply elem_of_map_to_list.
Qed.

Lemma dirty_fields_NoDup h : NoDup (dirty_fields h).*1.
Proof.
  unfold dirty_fields. rewrite <- list_fmap_compose.
  eapply sublist_NoDup; [apply (NoDup_fst_map_to_list (h_fields h))|].
  apply (fmap_sublist fst), sublist_filter.
Qed.

Lemma lookup_dirty_fields h f :
  (list_to_map (dirty_fields h) : gmap bytes bytes) !! f =
    match h_fields h !! f with
    | Some fl => if f_dirty fl then Some (f_value fl) else None
    | None => None
    end.
Proof.
  apply option_eq. intros v. rewrite <- (elem_of_list_to_map _ _ _ (dirty_fields_NoDup h)).
  rewrite dirty_fields_elem. destruct (h_fields h !! f) as [fl|].
  - destruct (f_dirty fl) eqn:E; split; [by intros (? & [= <-] & _ & ->)| |by intros (? & [= <-] & ? & _); congruence|done].
    intros [= <-]. eauto.
  - split; [by intros (? & ? & _)|done].
Qed.

Lemma hash_flush_rows rows h : hash_synced rows h -> hash_rows_after rows h = hash_view h.
Proof.
  intros Hs. apply map_eq. intros f. specialize (Hs f).
  unfold hash_rows_after, hash_view. rewrite lookup_union, lookup_dirty_fields, lookup_fmap.
  destruct (h_fields h !! f) as [fl|] eqn:E; simpl.
  - destruct (f_dirty fl) eqn:Hd; [by rewrite union_Some_l|].
    destruct (Hs eq_refl) as [Hr Ht]. rewrite (left_id None _).
    by apply map_lookup_filter_Some.
  - rewrite (left_id None _). apply map_lookup_filter_None.
    destruct Hs as [Ht|Hr]; [right|by left]. intros v _. simpl. auto.
Qed.

Lemma hash_synced_set rows h h' field value b :
  hash_synced rows h -> pg_redis_hash_set h field value = Ret (b, h') -> hash_synced rows h'.
Proof.
  intros Hs. unfold pg_redis_hash_set. destruct (_ <? _); [done|].
  destruct (h_fields h !! field) as [fl|]; intros [= <- <-];
    intros f; simpl; rewrite lookup_insert; case_decide; try done; apply Hs.
Qed.

Lemma hash_synced_del rows h field :
  hash_synced rows h -> hash_synced rows (pg_redis_hash_del h field).2.
Proof.
  intros Hs. unfold pg_redis_hash_del. destruct (_ <? _); [done|].
  destruct (h_fields h !! field) as [fl|] eqn:E; [|done]. simpl.
  intros f. simpl. rewrite lookup_delete. case_decide as Hd; [left; set_solver|].
  specialize (Hs f). destruct (h_fields h !! f) as [gl|]; set_solver.
Qed.

Lemma hash_clean_synced h : hash_synced (hash_view h) (hash_clean h).
Proof.
  intros f. unfold hash_view, hash_clean. simpl. rewrite !lookup_fmap.
  destruct (h_fields h !! f) as [fl|]; simpl; [set_solver|by right].
Qed.

Lemma hash_clean_view h : hash_view (hash_clean h) = hash_view h.
Proof. unfold hash_view, hash_clean. simpl. by rewrite <- map_fmap_compose. Qed.

Lemma fields_memory_fmap (g : PgRedisHashField -> PgRedisHashField) m :
  (forall f, f_value (g f) = f_value f) -> fields_memory (g <$> m) = fields_memory m.
Proof.
  intros Hg. induction m as [|k f m Hk IH] using map_ind; [by rewrite fmap_empty|].
  rewrite fmap_insert, !fields_memory_insert, IH by (rewrite ?lookup_fmap, ?Hk; done).
  unfold field_bytes. by rewrite Hg.
Qed.

Lemma hash_clean_wf h : hash_wf h -> hash_wf (hash_clean h).
Proof.
  intros [Hc Hm Hn]. split; simpl.
  - by rewrite map_size_fmap.
  - rewrite Hm. by rewrite fields_memory_fmap.
  - intros f fl. rewrite lookup_fmap. destruct (h_fields h !! f) eqn:E; [|done]. eauto.
Qed.

(** ** Runs of operations against the map specification *)

Module HashOps.
Inductive op := HSET (f v : bytes) | HGET (f : bytes) | HDEL (f : bytes) | HEXISTS (f : bytes).
Inductive reply := RBool (b : bool) | RVal (v : option bytes) | RErr (e : errcode).

Definition field_ok (f : bytes) : bool := negb (PG_REDIS_MAX_FIELD_SIZE <? blen f).

Definition spec_step (o : op) (m : gmap bytes bytes) : reply * gmap bytes bytes :=
  match o with
  | HSET f v => if field_ok f then (RBool (bool_decide (m !! f = None)), <[f := v]> m)
                else (RErr ERRCODE_PROGRAM_LIMIT_EXCEEDED, m)
  | HGET f => (RVal (m !! f), m)
  | HDEL f => (RBool (bool_decide (is_Some (m !! f))), delete f m)
  | HEXISTS f => (RBool (bool_decide (is_Some (m !! f))), m)
  end.

Definition impl_step (o : op) (h : PgRedisHash) : reply * PgRedisHash :=
  match o with
  | HSET f v => match pg_redis_hash_set h f v with
                | Ret (b, h') => (RBool b, h')
                | Raise e => (RErr e, h)
                end
  | HGET f => (RVal (pg_redis_hash_get h f), h)
  | HDEL f => let '(b, h') := pg_redis_hash_del h f in (RBool b, h')
  | HEXISTS f => (RBool (pg_redis_hash_exists h f), h)
  end.

Fixpoint run {S} (step : op -> S -> reply * S) (os : list op) (s : S) : list reply * S :=
  match os with
  | [] => ([], s)
  | o :: os' => let '(r, s1) := step o s in
                let '(rs, s2) := run step os' s1 in (r :: rs, s2)
  end.
End HashOps.

Lemma hash_impl_step_refines rows o h :
  hash_wf h -> hash_synced rows h ->
  let '(r, h') := HashOps.impl_step o h in
  hash_wf h' /\ hash_synced rows h' /\ HashOps.spec_step o (hash_view h) = (r, hash_view h').
Proof.
  intros Hwf Hs. destruct o as [f v|f|f|f]; simpl.
  - unfold HashOps.field_ok. destruct (Z.ltb_spec PG_REDIS_MAX_FIELD_SIZE (blen f)) as [Hlt|Hle].
    + unfold pg_redis_hash_set. rewrite (proj2 (Z.ltb_lt _ _) Hlt). done.
    + destruct (hash_set_spec h f v Hwf Hle) as (h' & E & Hwf' & Hv & _).
      rewrite E. split; [done|]. split; [by eapply hash_synced_set|]. simpl. by rewrite Hv.
  - by rewrite hash_get_spec.
  - pose proof (hash_del_spec h f Hwf) as H. pose proof (hash_synced_del rows h f Hs) as Hs'.
    destruct (pg_redis_hash_del h f) as [b h']. destruct H as (-> & Hwf' & -> & _). done.
  - unfold pg_redis_hash_exists. rewrite hash_get_spec by done.
    split; [done|]. split; [done|]. f_equal. f_equal.
    by destruct (hash_view h !! f).
Qed.

(** ** Properties *)

(** Hash_value.c implements a finite map from field names, including the
    refusal of names over 1024 bytes: any sequence of HSET/HGET/HDEL/HEXISTS on
    a fresh hash gives the replies of the map, and ends with the exact field
    count and byte accounting. *)
Theorem hash_refines_map (os : list HashOps.op) :
  let '(rs, h) := HashOps.run HashOps.impl_step os pg_redis_hash_create_in in
  hash_wf h /\ HashOps.run HashOps.spec_step os ∅ = (rs, hash_view h).
Proof.
  assert (H : forall rows os h, hash_wf h -> hash_synced rows h ->
    let '(rs, h') := HashOps.run HashOps.impl_step os h in
    hash_wf h' /\ HashOps.run HashOps.spec_step os (hash_view h) = (rs, hash_view h')).
  { clear os. intros rows os. induction os as [|o os IH]; intros h Hwf Hs; [done|].
    cbn [HashOps.run]. pose proof (hash_impl_step_refines rows o h Hwf Hs) as Hstep.
    destruct (HashOps.impl_step o h) as [r h1]. destruct Hstep as (Hwf1 & Hs1 & ->).
    specialize (IH h1 Hwf1 Hs1). destruct (HashOps.run HashOps.impl_step os h1) as [rs h2].
    by destruct IH as [Hwf2 ->]. }
  specialize (H ∅ os pg_redis_hash_create_in hash_create_wf).
  unfold hash_view in H at 1. cbn [h_fields pg_redis_hash_create_in] in H.
  rewrite fmap_empty in H. apply H. intros f. simpl. rewrite lookup_empty. by right.
Qed.

(** C12: the per-field deltas are exact: for a hash whose rows are in sync, any
    operations followed by the flush's field deletes and then field upserts
    leave exactly the rows of the current contents. *)
Theorem hash_deltas_exact (rows : gmap bytes bytes) (h : PgRedisHash) (os : list HashOps.op) :
  hash_wf h -> hash_synced rows h ->
  let h' := (HashOps.run HashOps.impl_step os h).2 in
  hash_rows_after rows h' = hash_view h'.
Proof.
  intros Hwf Hs. cbn zeta. apply hash_flush_rows.
  revert h Hwf Hs. induction os as [|o os IH]; intros h Hwf Hs; [done|].
  cbn [HashOps.run]. pose proof (hash_impl_step_refines rows o h Hwf Hs) as Hstep.
  destruct (HashOps.impl_step o h) as [r h1]. destruct Hstep as (Hwf1 & Hs1 & _).
  specialize (IH h1 Hwf1 Hs1). by destruct (HashOps.run HashOps.impl_step os h1).
Qed.

(** A durable hash of one field, overwritten and deleted from. *)
Definition demo_hash : PgRedisHash :=
  hash_clean (HashOps.run HashOps.impl_step [HashOps.HSET (bs "f") (bs "v")] pg_redis_hash_create_in).2.
Definition demo_hash_ops : list HashOps.op :=
  [HashOps.HDEL (bs "f"); HashOps.HSET (bs "g") (bs "w"); HashOps.HSET (bs "f") (bs "x")].

Lemma hash_deltas_exact_witness :
  hash_rows_after (hash_view demo_hash) (HashOps.run HashOps.impl_step demo_hash_ops demo_hash).2 =
  hash_view (HashOps.run HashOps.impl_step demo_hash_ops demo_hash).2.
Proof.
  apply (hash_deltas_exact (hash_view demo_hash) demo_hash demo_hash_ops).
  - apply hash_clean_wf.
    destruct (hash_set_spec pg_redis_hash_create_in (bs "f") (bs "v") hash_create_wf) as (h & E & Hw & _);
      [by vm_compute|].
    cbn [HashOps.run HashOps.impl_step]. rewrite E. exact Hw.
  - apply (hash_clean_synced
      (HashOps.run HashOps.impl_step [HashOps.HSET (bs "f") (bs "v")] pg_redis_hash_create_in).2).
Defined.
