(* ===== verification/BackendMem.v ===== *)
(** * The memory of a backend (src/utils.c, src/pg_redis.c)

    The structures of src/list.c and src/hash_value.c are chunks handed out by
    PostgreSQL's memory contexts and linked by pointers.  This file has the heap
    of such chunks, the helpers of src/utils.c that allocate in the context of the
    keyspace, and the rules by which the programs on it are verified: the heap
    is a list of cells, in any order, each owned once; a program may touch only
    what is owned, and whatever is left at its end is listed. *)
From S2P Require Import Prelude Types Utils.

Abbreviation ptr := Z (only parsing).
Definition NULL : ptr := 0.

(** The long-lived context of the keyspace, and the one a statement runs in. *)
Inductive MemoryContext := PgRedisMemoryContext | CurrentMemoryContext.
#[export] Instance MemoryContext_eq_dec : EqDecision MemoryContext.
Proof. solve_decision. Defined.

(** ** The structures of src/types.h, with their pointers *)

Record ListNodeS := {
  value : ptr;
  value_len : Z;
  ord : Z;
  pending_insert : bool;
  prev : ptr;
  next : ptr
}.

Record OrdNodeS := { o_ord : Z; o_next : ptr }.

Record ListS := {
  head : ptr;
  tail : ptr;
  length_ : Z;
  memory_usage : Z;
  min_ord : Z;
  max_ord : Z;
  ord_initialized : bool;
  list_mcxt : MemoryContext;
  pending_delete_ords : ptr
}.

(** The value of a field; the name is the key of the nested table. *)
Record FieldS := { fs_value : ptr; fs_value_len : Z; fs_dirty : bool }.

Record TombstoneS := { t_field : ptr; t_next : ptr }.

(** The nested table is PostgreSQL's; it is kept with the struct that owns it. *)
Record HashS := {
  fields : gmap bytes FieldS;
  field_count : Z;
  hash_memory_usage : Z;
  hash_mcxt : MemoryContext;
  tombstones : ptr
}.

Inductive Data :=
| DBytes (b : bytes)
| DNode (n : ListNodeS)
| DOrd (o : OrdNodeS)
| DList (l : ListS)
| DTombstone (t : TombstoneS)
| DHash (h : HashS).

Record Chunk := { ck_mcxt : MemoryContext; ck_data : Data }.

Abbreviation Heap := (gmap ptr Chunk).

(** ** Allocation *)

(** What [palloc] answers: a place and what happens to be there, or no memory,
    upon which it raises. *)
Class Palloc := palloc_answer : Heap -> Z -> option (ptr * bytes).

Class PallocLaws `{Palloc} : Prop := {
  palloc_valid : forall h sz p b, palloc_answer h sz = Some (p, b) -> p <> NULL;
  palloc_fresh : forall h sz p b, palloc_answer h sz = Some (p, b) -> h !! p = None;
  palloc_size : forall h sz p b, palloc_answer h sz = Some (p, b) -> blen b = sz
}.

Section Memory.
Context `{Palloc}.

Definition palloc (cx : MemoryContext) (sz : Z) : M Heap ptr := fun h =>
  match palloc_answer h sz with
  | None => (Raise ERRCODE_OUT_OF_MEMORY, h)
  | Some (p, b) => (Ret p, <[p := {| ck_mcxt := cx; ck_data := DBytes b |}]> h)
  end.

(** A struct of [sz] bytes with these first contents. *)
Definition palloc_struct (cx : MemoryContext) (sz : Z) (d : Data) : M Heap ptr := fun h =>
  match palloc_answer h sz with
  | None => (Raise ERRCODE_OUT_OF_MEMORY, h)
  | Some (p, _) => (Ret p, <[p := {| ck_mcxt := cx; ck_data := d |}]> h)
  end.

(** A chunk that is not allocated cannot be freed; neither can NULL. *)
Definition pfree (p : ptr) : M Heap unit := fun h =>
  match h !! p with
  | Some _ => if p =? NULL then (Raise SEGMENTATION_FAULT, h) else (Ret tt, delete p h)
  | None => (Raise SEGMENTATION_FAULT, h)
  end.

Definition fetch (p : ptr) : M Heap Data := fun h =>
  match h !! p with
  | Some c => if p =? NULL then (Raise SEGMENTATION_FAULT, h) else (Ret (ck_data c), h)
  | None => (Raise SEGMENTATION_FAULT, h)
  end.

Definition put (p : ptr) (d : Data) : M Heap unit := fun h =>
  match h !! p with
  | Some c => if p =? NULL then (Raise SEGMENTATION_FAULT, h)
              else (Ret tt, <[p := {| ck_mcxt := ck_mcxt c; ck_data := d |}]> h)
  | None => (Raise SEGMENTATION_FAULT, h)
  end.

(** [memcpy(p + off, src, ...)]; a write past the end of the chunk is one to
    memory that is not there. *)
Definition memcpy_to (p : ptr) (off : nat) (src : bytes) : M Heap unit :=
  d ← fetch p;
  match d with
  | DBytes b => if bool_decide (off + length src <= length b)%nat
                then put p (DBytes (take off b ++ src ++ drop (off + length src) b))
                else ereport SEGMENTATION_FAULT
  | _ => ereport SEGMENTATION_FAULT
  end.

(** The first [len] bytes at [p]. *)
Definition read_bytes (p : ptr) (len : Z) : M Heap bytes :=
  d ← fetch p;
  match d with
  | DBytes b => if len <=? blen b then mret (take (Z.to_nat len) b) else ereport SEGMENTATION_FAULT
  | _ => ereport SEGMENTATION_FAULT
  end.

(** A copy of [src] with a terminator, in [cx]: the three lines that recur
    wherever the code keeps a value. *)
Definition palloc_copy (cx : MemoryContext) (src : bytes) : M Heap ptr :=
  dst ← palloc cx (blen src + 1);
  when (0 <? blen src) (memcpy_to dst 0 src) ;;
  memcpy_to dst (length src) [Byte.x00] ;;
  mret dst.

(** [MemoryContextReset] *)
Definition MemoryContextReset (cx : MemoryContext) (h : Heap) : Heap :=
  filter (fun x => ck_mcxt x.2 <> cx) h.

(** ** src/utils.c *)

Definition pg_redis_memcxt : MemoryContext := PgRedisMemoryContext.
Definition pg_redis_memcxt_reset (h : Heap) : Heap := MemoryContextReset PgRedisMemoryContext h.
Definition pg_redis_palloc_string (src : bytes) : M Heap ptr := palloc_copy pg_redis_memcxt src.
Definition pg_redis_text_to_pstring (t : option bytes) : M Heap (ptr * Z) :=
  match t with
  | None => mret (NULL, 0)
  | Some b => p ← pg_redis_palloc_string b; mret (p, blen b)
  end.

(** The context for the value of an entry (src/pg_redis.c): in shared storage the
    entry is a scratch copy that dies with the statement. *)
Definition entry_owning_mcxt (cfg : Config) : MemoryContext :=
  if pg_redis_storage_is_shared cfg then CurrentMemoryContext else pg_redis_memcxt.
End Memory.

(** An allocator that hands out increasing addresses, with a byte pattern in the
    memory behind them, and refuses requests of the sizes [tight]. *)
Definition first_fit (tight : list Z) : Palloc := fun h sz =>
  if bool_decide (sz ∈ tight) || (sz <? 0) then None
  else Some (1 + max_key h, replicate (Z.to_nat sz) "?"%byte).

Lemma first_fit_laws tight : @PallocLaws (first_fit tight).
Proof.
  split; intros h sz p b E; unfold palloc_answer, first_fit in E;
    destruct (bool_decide _), (Z.ltb_spec sz 0); simplify_eq/=; [apply (above_max_key h)..|].
  unfold blen. rewrite length_replicate. lia.
Qed.

(** ** Owned cells *)

Abbreviation cell := (ptr * Chunk)%type.

Definition at_ (p : ptr) (cx : MemoryContext) (d : Data) : cell := (p, {| ck_mcxt := cx; ck_data := d |}).

Record owns (h : Heap) (cs : list cell) : Prop := {
  ow_nodup : NoDup cs.*1;
  ow_heap : h = list_to_map cs;
  ow_null : NULL ∉ cs.*1
}.

#[export] Instance owns_proper h : Proper ((≡ₚ) ==> iff) (owns h).
Proof.
  intros cs cs' E. split; intros [H1 H2 H3]; split.
  - by rewrite <- E.
  - rewrite H2. by apply list_to_map_proper.
  - by rewrite <- E.
  - by rewrite E.
  - rewrite H2. symmetry. apply list_to_map_proper; [by rewrite E|done].
  - by rewrite E.
Qed.

Lemma owns_heap h : h !! NULL = None -> owns h (map_to_list h).
Proof.
  intros Hn. split; [apply NoDup_fst_map_to_list|by rewrite list_to_map_to_list|].
  intros ([p c] & E & Hin%elem_of_map_to_list)%list_elem_of_fmap. cbn in E. congruence.
Qed.

(** FLUSHALL in session storage: the reset of the context of the keyspace takes
    its chunks, wherever they are linked, and no other. *)
Lemma memcxt_reset_owns h cs :
  owns h cs -> owns (pg_redis_memcxt_reset h) (filter (fun c : cell => ck_mcxt c.2 <> PgRedisMemoryContext) cs).
Proof.
  intros [H1 -> H3]. split.
  - eapply sublist_NoDup; [done|]. apply fmap_sublist, sublist_filter.
  - unfold pg_redis_memcxt_reset, MemoryContextReset. clear H3. induction cs as [|[p c] cs IH]; [apply map_filter_empty|].
    cbn [fmap list_fmap fst] in H1. apply NoDup_cons in H1 as [Hp H1]. specialize (IH H1). cbn [list_to_map foldr uncurry fst snd].
    rewrite filter_cons. case_decide as Hc.
    + rewrite map_filter_insert_True by done. cbn. by rewrite IH.
    + rewrite map_filter_insert_False by auto. rewrite delete_id; [done|]. by apply not_elem_of_list_to_map_1.
  - intros Hin. apply H3. eapply elem_of_sublist; [exact Hin|apply fmap_sublist, sublist_filter].
Qed.

Section Rules.
Context `{Palloc} `{!PallocLaws}.

(** The program returns with [Q], or the allocator has refused a request. *)
Definition wp {A} (m : M Heap A) (cs : list cell) (Q : A -> list cell -> Prop) : Prop :=
  forall h, owns h cs ->
    match m h with
    | (Ret a, h') => exists cs', owns h' cs' /\ Q a cs'
    | (Raise e, _) => e = ERRCODE_OUT_OF_MEMORY /\ exists h' sz, palloc_answer h' sz = None
    end.

Lemma wp_perm {A} (m : M Heap A) cs cs' Q : cs ≡ₚ cs' -> wp m cs' Q -> wp m cs Q.
Proof. intros E Hw h Hh. apply Hw. by rewrite <- E. Qed.

Lemma wp_ret {A} (a : A) cs (Q : A -> list cell -> Prop) : Q a cs -> wp (mret a) cs Q.
Proof. intros HQ h Hh. cbn. by exists cs. Qed.

Lemma wp_bind {A B} (m : M Heap A) (k : A -> M Heap B) cs Q :
  wp m cs (fun a cs' => wp (k a) cs' Q) -> wp (m ≫= k) cs Q.
Proof.
  intros Hw h Hh. specialize (Hw h Hh). rewrite bind_unfold.
  destruct (m h) as [[a|e] h']; [|done]. destruct Hw as (cs' & Ho & Hk). by apply Hk.
Qed.

Lemma wp_assoc {A B C} (m : M Heap A) (f : A -> M Heap B) (g : B -> M Heap C) cs Q :
  wp (m ≫= (fun a => f a ≫= g)) cs Q -> wp ((m ≫= f) ≫= g) cs Q.
Proof. intros Hw h Hh. rewrite bind_assoc. by apply Hw. Qed.

Lemma wp_mret {A B} (a : A) (k : A -> M Heap B) cs Q : wp (k a) cs Q -> wp (mret a ≫= k) cs Q.
Proof. intros Hk h Hh. rewrite bind_mret. by apply Hk. Qed.

Lemma wp_mono {A} (m : M Heap A) cs (Q Q' : A -> list cell -> Prop) :
  (forall a cs', Q a cs' -> Q' a cs') -> wp m cs Q -> wp m cs Q'.
Proof.
  intros HQ Hw h Hh. specialize (Hw h Hh). destruct (m h) as [[a|e] h']; [|done].
  destruct Hw as (cs' & Ho & Hk). eauto.
Qed.

Lemma owns_lookup h p c cs : owns h ((p, c) :: cs) -> p <> NULL /\ h !! p = Some c.
Proof.
  intros [H1 -> H3]. cbn in H3. split; [set_solver|]. cbn. by rewrite lookup_insert_eq.
Qed.

Lemma owns_put h p c c' cs : owns h ((p, c) :: cs) -> owns (<[p := c']> h) ((p, c') :: cs).
Proof. intros [H1 -> H3]. split; [done| |done]. cbn. by rewrite insert_insert_eq. Qed.

Lemma owns_free h p c cs : owns h ((p, c) :: cs) -> owns (delete p h) cs.
Proof.
  intros [H1 -> H3]. cbn in *. apply NoDup_cons in H1 as [H1 H1']. split; [done| |set_solver].
  rewrite delete_insert_id; [done|]. by apply not_elem_of_list_to_map_1.
Qed.

Lemma owns_alloc h p c cs : owns h cs -> p <> NULL -> h !! p = None -> owns (<[p := c]> h) ((p, c) :: cs).
Proof.
  intros [H1 -> H3] Hp Hn. split; [|done|cbn; set_solver].
  cbn. apply NoDup_cons. split; [|done]. by apply not_elem_of_list_to_map_2.
Qed.

(** Owned pointers are not NULL. *)
Lemma wp_nonnull {A} (m : M Heap A) cs Q : (NULL ∉ cs.*1 -> wp m cs Q) -> wp m cs Q.
Proof. intros Hw h Hh. apply Hw; [apply (ow_null _ _ Hh)|done]. Qed.

Lemma nonnull_in p cx d (cs cs' : list cell) : NULL ∉ cs.*1 -> cs ≡ₚ at_ p cx d :: cs' -> p <> NULL.
Proof. intros Hn E ->. apply Hn. rewrite E. cbn. set_solver. Qed.

(** The number of chunks, which bounds the walks along pointers. *)
Lemma wp_size {B} cs (k : nat -> M Heap B) Q : wp (k (length cs)) cs Q -> wp (gets size ≫= k) cs Q.
Proof.
  intros Hk h Hh. rewrite bind_unfold. cbn [gets]. replace (size h) with (length cs); [by apply Hk|].
  destruct Hh as [Hn -> _]. by rewrite map_size_list_to_map.
Qed.

(** One rule for each access, with the rest of the program as continuation. *)
Lemma wp_fetch {B} p cx d cs cs' (k : Data -> M Heap B) Q :
  cs ≡ₚ at_ p cx d :: cs' -> wp (k d) (at_ p cx d :: cs') Q -> wp (fetch p ≫= k) cs Q.
Proof.
  intros E Hk. eapply wp_perm; [done|]. apply wp_bind. intros h Hh. destruct (owns_lookup _ _ _ _ Hh) as [Hp Hl].
  unfold fetch. rewrite Hl, (proj2 (Z.eqb_neq _ _) Hp). eauto.
Qed.

Lemma wp_put {B} p cx d d' cs cs' (k : unit -> M Heap B) Q :
  cs ≡ₚ at_ p cx d :: cs' -> wp (k tt) (at_ p cx d' :: cs') Q -> wp (put p d' ≫= k) cs Q.
Proof.
  intros E Hk. eapply wp_perm; [done|]. apply wp_bind. intros h Hh. destruct (owns_lookup _ _ _ _ Hh) as [Hp Hl].
  unfold put. rewrite Hl, (proj2 (Z.eqb_neq _ _) Hp). eexists. split; [by eapply owns_put|done].
Qed.

Lemma wp_pfree {B} p cx d cs cs' (k : unit -> M Heap B) Q :
  cs ≡ₚ at_ p cx d :: cs' -> wp (k tt) cs' Q -> wp (pfree p ≫= k) cs Q.
Proof.
  intros E Hk. eapply wp_perm; [done|]. apply wp_bind. intros h Hh. destruct (owns_lookup _ _ _ _ Hh) as [Hp Hl].
  unfold pfree. rewrite Hl, (proj2 (Z.eqb_neq _ _) Hp). eexists. split; [by eapply owns_free|done].
Qed.

Lemma wp_palloc {B} cx sz cs (k : ptr -> M Heap B) Q :
  (forall p b, p <> NULL -> blen b = sz -> wp (k p) (at_ p cx (DBytes b) :: cs) Q) ->
  wp (palloc cx sz ≫= k) cs Q.
Proof.
  intros Hk. apply wp_bind. intros h Hh. unfold palloc. destruct (palloc_answer h sz) as [[p b]|] eqn:E; [|by eauto].
  pose proof (palloc_valid _ _ _ _ E) as Hp. eexists. split; [apply owns_alloc; [done|done|by eapply palloc_fresh]|].
  apply Hk; [done|by eapply palloc_size].
Qed.

Lemma wp_struct {B} cx sz d cs (k : ptr -> M Heap B) Q :
  (forall p, p <> NULL -> wp (k p) (at_ p cx d :: cs) Q) -> wp (palloc_struct cx sz d ≫= k) cs Q.
Proof.
  intros Hk. apply wp_bind. intros h Hh. unfold palloc_struct. destruct (palloc_answer h sz) as [[p b]|] eqn:E; [|by eauto].
  pose proof (palloc_valid _ _ _ _ E) as Hp. eexists. split; [apply owns_alloc; [done|done|by eapply palloc_fresh]|].
  by apply Hk.
Qed.

Lemma wp_memcpy {B} p cx b off src cs cs' (k : unit -> M Heap B) Q :
  cs ≡ₚ at_ p cx (DBytes b) :: cs' -> (off + length src <= length b)%nat ->
  wp (k tt) (at_ p cx (DBytes (take off b ++ src ++ drop (off + length src) b)) :: cs') Q ->
  wp (memcpy_to p off src ≫= k) cs Q.
Proof.
  intros E Hl Hk. unfold memcpy_to. apply wp_assoc. eapply wp_fetch; [exact E|]. cbv beta iota. rewrite bool_decide_true by done. by eapply wp_put.
Qed.

Lemma wp_read {B} p cx b len cs cs' (k : bytes -> M Heap B) Q :
  cs ≡ₚ at_ p cx (DBytes b) :: cs' -> len <= blen b ->
  wp (k (take (Z.to_nat len) b)) (at_ p cx (DBytes b) :: cs') Q -> wp (read_bytes p len ≫= k) cs Q.
Proof.
  intros E Hl Hk. unfold read_bytes. apply wp_assoc. eapply wp_fetch; [exact E|]. cbv beta iota.
  rewrite (proj2 (Z.leb_le _ _)) by done. by apply wp_mret.
Qed.

(** A terminated copy. *)
Definition cstring (v : bytes) : Data := DBytes (v ++ [Byte.x00]).

Lemma wp_when_memcpy {B} p cx b src cs cs' (k : unit -> M Heap B) Q :
  cs ≡ₚ at_ p cx (DBytes b) :: cs' -> (length src <= length b)%nat ->
  wp (k tt) (at_ p cx (DBytes (src ++ drop (length src) b)) :: cs') Q ->
  wp (when (0 <? blen src) (memcpy_to p 0 src) ≫= k) cs Q.
Proof.
  intros E Hl Hk. destruct (Z.ltb_spec 0 (blen src)) as [Hs|Hs]; cbn [when].
  - eapply wp_memcpy; [done|lia|]. exact Hk.
  - destruct src as [|x src]; [|unfold blen in Hs; cbn in Hs; lia]. eapply wp_perm; [done|]. by apply wp_mret.
Qed.

(** The terminator behind a value that fills all but the last byte. *)
Lemma wp_terminate {B} p cx v b cs cs' (k : unit -> M Heap B) Q :
  cs ≡ₚ at_ p cx (DBytes (v ++ drop (length v) b)) :: cs' -> blen b = blen v + 1 ->
  wp (k tt) (at_ p cx (cstring v) :: cs') Q -> wp (memcpy_to p (length v) [Byte.x00] ≫= k) cs Q.
Proof.
  intros E Hb Hk. assert (Hl : length b = S (length v)) by (unfold blen in Hb; lia).
  eapply wp_memcpy; [exact E|rewrite length_app, length_drop; cbn; lia|].
  by rewrite take_app_length, drop_ge, app_nil_r by (rewrite length_app, length_drop; cbn; lia).
Qed.

Lemma wp_copy {B} cx v cs (k : ptr -> M Heap B) Q :
  (forall p, p <> NULL -> wp (k p) (at_ p cx (cstring v) :: cs) Q) -> wp (palloc_copy cx v ≫= k) cs Q.
Proof.
  intros Hk. unfold palloc_copy. apply wp_assoc, wp_palloc. intros p b Hp Hb.
  apply wp_assoc. eapply wp_when_memcpy; [reflexivity|unfold blen in Hb; lia|].
  apply wp_assoc. eapply wp_terminate; [reflexivity|done|]. by apply wp_mret, Hk.
Qed.

Lemma wp_text_to_pstring {B} t cs (k : ptr * Z -> M Heap B) Q :
  match t with
  | None => wp (k (NULL, 0)) cs Q
  | Some v => forall p, p <> NULL -> wp (k (p, blen v)) (at_ p PgRedisMemoryContext (cstring v) :: cs) Q
  end ->
  wp (pg_redis_text_to_pstring t ≫= k) cs Q.
Proof.
  intros Hk. destruct t as [v|]; [|by apply wp_mret]. apply wp_assoc, wp_copy. intros p Hp. by apply wp_mret, Hk.
Qed.

(** The value of a terminated chunk copied into another. *)
Lemma wp_copy_from {B} p cx out cx' v b cs cs' (k : unit -> M Heap B) Q :
  cs ≡ₚ at_ p cx (cstring v) :: at_ out cx' (DBytes b) :: cs' -> (length v <= length b)%nat ->
  wp (k tt) (at_ out cx' (DBytes (v ++ drop (length v) b)) :: at_ p cx (cstring v) :: cs') Q ->
  wp (when (0 <? blen v) (x ← read_bytes p (blen v); memcpy_to out 0 x) ≫= k) cs Q.
Proof.
  intros E Hl Hk. pose proof (wp_when_memcpy out cx' b v cs (at_ p cx (cstring v) :: cs') k Q) as Hw.
  rewrite E in Hw at 1. specialize (Hw ltac:(apply Permutation_swap) Hl Hk). revert Hw.
  destruct (0 <? blen v); cbn [when]; intros Hw; [|done].
  apply wp_assoc. eapply wp_read; [exact E|unfold blen; rewrite length_app; lia|].
  unfold blen. rewrite Nat2Z.id, take_app_length. eapply wp_perm; [|exact Hw]. by rewrite E.
Qed.
End Rules.

(** Chunks the statement will take with it. *)
Definition passing (outs : list cell) : Prop := Forall (fun c : cell => ck_mcxt c.2 = CurrentMemoryContext) outs.

Lemma passing_left h h' outs :
  owns h' (outs ++ map_to_list h) -> passing outs ->
  h ⊆ h' /\ forall p c, h' !! p = Some c -> h !! p = None -> ck_mcxt c = CurrentMemoryContext.
Proof.
  intros [Hn -> _] Hp. rewrite list_to_map_app, list_to_map_to_list. split.
  - apply map_union_subseteq_r. apply map_disjoint_list_to_map_l. rewrite fmap_app in Hn. apply NoDup_app in Hn as (_ & Hn & _).
    apply Forall_forall. intros [p c] Hin. cbn. apply eq_None_not_Some. intros [c' Hc]. apply (Hn p).
    + apply list_elem_of_fmap. by exists (p, c).
    + apply list_elem_of_fmap. exists (p, c'). split; [done|]. by apply elem_of_map_to_list.
  - intros p c Hc Hh. apply lookup_union_Some_raw in Hc as [Hc|[_ Hc]]; [|congruence].
    apply elem_of_list_to_map_2 in Hc. unfold passing in Hp. rewrite Forall_forall in Hp. by apply (Hp _ Hc).
Qed.

(** ** Reordering cells *)

Lemma pull_skip {A} (x y : A) l r : l ≡ₚ x :: r -> y :: l ≡ₚ x :: y :: r.
Proof. intros ->. apply Permutation_swap. Qed.
Lemma pull_app_l {A} (x : A) a b r : a ≡ₚ x :: r -> a ++ b ≡ₚ x :: r ++ b.
Proof. by intros ->. Qed.
Lemma pull_app_r {A} (x : A) a b r : b ≡ₚ x :: r -> a ++ b ≡ₚ x :: a ++ r.
Proof. intros ->. by rewrite Permutation_middle. Qed.

(** Finds the cell of a pointer: proves [cs ≡ₚ at_ p _ _ :: _]. *)
Ltac pull :=
  first [ apply Permutation_refl
        | apply pull_skip; pull
        | apply pull_app_l; pull
        | apply pull_app_r; pull ].

Lemma pull_then {A} (x : A) l r r' : l ≡ₚ x :: r -> r ≡ₚ r' -> l ≡ₚ x :: r'.
Proof. by intros -> ->. Qed.

Lemma block_nil {A} (a : list A) : a ≡ₚ a ++ [].
Proof. by rewrite app_nil_r. Qed.
Lemma block_skip {A} (y : A) a l r : l ≡ₚ a ++ r -> y :: l ≡ₚ a ++ y :: r.
Proof. intros ->. apply Permutation_middle. Qed.
Lemma block_app_l {A} (a b c r : list A) : b ≡ₚ a ++ r -> b ++ c ≡ₚ a ++ r ++ c.
Proof. intros ->. by rewrite app_assoc. Qed.
Lemma block_app_r {A} (a b c r : list A) : c ≡ₚ a ++ r -> b ++ c ≡ₚ a ++ b ++ r.
Proof. intros ->. by rewrite !app_assoc, (Permutation_app_comm b). Qed.

Lemma block_then {A} (a l r r' : list A) : l ≡ₚ a ++ r -> r ≡ₚ r' -> l ≡ₚ a ++ r'.
Proof. by intros -> ->. Qed.

(** The same for a block of cells. *)
Ltac block :=
  first [ apply Permutation_refl
        | apply block_nil
        | apply block_skip; block
        | apply block_app_l; block
        | apply block_app_r; block ].

(** Equality of two lists of cells up to their order. *)
Ltac cells :=
  cbn [app]; rewrite ?app_nil_r, <- ?app_assoc;
  first [ apply Permutation_refl
        | lazymatch goal with
          | |- _ ≡ₚ _ :: _ => eapply pull_then; [pull|cells]
          | |- _ ≡ₚ _ ++ _ => eapply block_then; [block|cells]
          end ].
