(* ===== verification/ListMem.v ===== *)
(** * Lists in backend memory (src/list.c)

    The same functions as in ListValue.v, now with the pointers of the source:
    allocation, linking, copying and freeing, on the heap of BackendMem.v.  The
    theorems show that they compute what ListValue.v says, that no pointer is
    followed after its chunk has gone, and that a freed list leaves nothing. *)
From S2P Require Import Prelude Types ListValue BackendMem.

(** ** Assignments to members *)

Definition set_value (p : ptr) (n : ListNodeS) : ListNodeS :=
  {| value := p; value_len := value_len n; ord := ord n; pending_insert := pending_insert n; prev := prev n; next := next n |}.
Definition set_ord (o : Z) (n : ListNodeS) : ListNodeS :=
  {| value := value n; value_len := value_len n; ord := o; pending_insert := pending_insert n; prev := prev n; next := next n |}.
Definition set_pending_insert (b : bool) (n : ListNodeS) : ListNodeS :=
  {| value := value n; value_len := value_len n; ord := ord n; pending_insert := b; prev := prev n; next := next n |}.
Definition set_prev (p : ptr) (n : ListNodeS) : ListNodeS :=
  {| value := value n; value_len := value_len n; ord := ord n; pending_insert := pending_insert n; prev := p; next := next n |}.
Definition set_next (p : ptr) (n : ListNodeS) : ListNodeS :=
  {| value := value n; value_len := value_len n; ord := ord n; pending_insert := pending_insert n; prev := prev n; next := p |}.

Definition set_ends (h t : ptr) (l : ListS) : ListS :=
  {| head := h; tail := t; length_ := length_ l; memory_usage := memory_usage l; min_ord := min_ord l; max_ord := max_ord l;
     ord_initialized := ord_initialized l; list_mcxt := list_mcxt l; pending_delete_ords := pending_delete_ords l |}.
Definition set_head (p : ptr) (l : ListS) : ListS := set_ends p (tail l) l.
Definition set_tail (p : ptr) (l : ListS) : ListS := set_ends (head l) p l.
Definition set_ords (lo hi : Z) (init : bool) (l : ListS) : ListS :=
  {| head := head l; tail := tail l; length_ := length_ l; memory_usage := memory_usage l; min_ord := lo; max_ord := hi;
     ord_initialized := init; list_mcxt := list_mcxt l; pending_delete_ords := pending_delete_ords l |}.
Definition set_counts (len mem : Z) (l : ListS) : ListS :=
  {| head := head l; tail := tail l; length_ := len; memory_usage := mem; min_ord := min_ord l; max_ord := max_ord l;
     ord_initialized := ord_initialized l; list_mcxt := list_mcxt l; pending_delete_ords := pending_delete_ords l |}.
Definition set_pending_delete_ords (p : ptr) (l : ListS) : ListS :=
  {| head := head l; tail := tail l; length_ := length_ l; memory_usage := memory_usage l; min_ord := min_ord l; max_ord := max_ord l;
     ord_initialized := ord_initialized l; list_mcxt := list_mcxt l; pending_delete_ords := p |}.

(** ** The functions of src/list.c *)

Definition sizeof_PgRedisList : Z := 72.
Definition sizeof_PgRedisOrdNode : Z := 16.

Section ListMem.
Context `{Palloc}.

Definition load_node (p : ptr) : M Heap ListNodeS :=
  d ← fetch p; match d with DNode n => mret n | _ => ereport SEGMENTATION_FAULT end.
Definition load_ord (p : ptr) : M Heap OrdNodeS :=
  d ← fetch p; match d with DOrd o => mret o | _ => ereport SEGMENTATION_FAULT end.
Definition load_list (p : ptr) : M Heap ListS :=
  d ← fetch p; match d with DList l => mret l | _ => ereport SEGMENTATION_FAULT end.
Definition upd_node (p : ptr) (f : ListNodeS -> ListNodeS) : M Heap unit := n ← load_node p; put p (DNode (f n)).
Definition upd_list (p : ptr) (f : ListS -> ListS) : M Heap unit := l ← load_list p; put p (DList (f l)).

Definition list_create_in (mcxt : MemoryContext) : M Heap ptr :=
  palloc_struct mcxt sizeof_PgRedisList
    (DList {| head := NULL; tail := NULL; length_ := 0; memory_usage := 0; min_ord := 0; max_ord := -1;
              ord_initialized := false; list_mcxt := mcxt; pending_delete_ords := NULL |}).
Definition pg_redis_list_create : M Heap ptr := list_create_in pg_redis_memcxt.

Definition list_new_node (mcxt : MemoryContext) (v : bytes) : M Heap ptr :=
  n ← palloc_struct mcxt sizeof_PgRedisListNode
        (DNode {| value := NULL; value_len := 0; ord := 0; pending_insert := false; prev := NULL; next := NULL |});
  buf ← palloc_copy mcxt v;
  upd_node n (fun x => {| value := buf; value_len := blen v; ord := ord x; pending_insert := pending_insert x;
                          prev := prev x; next := next x |}) ;;
  mret n.

Definition list_lpush (list : ptr) (v : bytes) : M Heap Z :=
  l ← load_list list;
  n ← list_new_node (list_mcxt l) v;
  (if negb (ord_initialized l)
   then upd_node n (set_ord 0) ;; upd_list list (set_ords 0 0 true)
   else upd_node n (set_ord (min_ord l - 1)) ;; upd_list list (set_ords (min_ord l - 1) (max_ord l) true)) ;;
  upd_node n (set_pending_insert true) ;;
  upd_node n (set_next (head l)) ;;
  when (negb (head l =? NULL)) (upd_node (head l) (set_prev n)) ;;
  upd_list list (set_head n) ;;
  when (tail l =? NULL) (upd_list list (set_tail n)) ;;
  upd_list list (fun l => set_counts (length_ l + 1) (memory_usage l + (sizeof_PgRedisListNode + blen v)) l) ;;
  l ← load_list list;
  mret (length_ l).

Definition list_rpush (list : ptr) (v : bytes) : M Heap Z :=
  l ← load_list list;
  n ← list_new_node (list_mcxt l) v;
  (if negb (ord_initialized l)
   then upd_node n (set_ord 0) ;; upd_list list (set_ords 0 0 true)
   else upd_node n (set_ord (max_ord l + 1)) ;; upd_list list (set_ords (min_ord l) (max_ord l + 1) true)) ;;
  upd_node n (set_pending_insert true) ;;
  upd_node n (set_prev (tail l)) ;;
  when (negb (tail l =? NULL)) (upd_node (tail l) (set_next n)) ;;
  upd_list list (set_tail n) ;;
  when (head l =? NULL) (upd_list list (set_head n)) ;;
  upd_list list (fun l => set_counts (length_ l + 1) (memory_usage l + (sizeof_PgRedisListNode + blen v)) l) ;;
  l ← load_list list;
  mret (length_ l).

(** The copy the caller gets, in the context of the statement, and its length. *)
Definition detach_value (p : ptr) : M Heap (ptr * Z) :=
  n ← load_node p;
  out ← palloc CurrentMemoryContext (value_len n + 1);
  when ((0 <? value_len n) && negb (value n =? NULL))
    (b ← read_bytes (value n) (value_len n); memcpy_to out 0 b) ;;
  memcpy_to out (Z.to_nat (value_len n)) [Byte.x00] ;;
  when (negb (value n =? NULL)) (pfree (value n)) ;;
  upd_node p (set_value NULL) ;;
  mret (out, value_len n).

Definition mem_record_pending_delete (list p : ptr) : M Heap unit :=
  n ← load_node p;
  if pending_insert n then mret tt
  else
    l ← load_list list;
    o ← palloc_struct (list_mcxt l) sizeof_PgRedisOrdNode (DOrd {| o_ord := ord n; o_next := pending_delete_ords l |});
    upd_list list (set_pending_delete_ords o).

Definition list_lpop (list : ptr) : M Heap (option (ptr * Z)) :=
  l ← load_list list;
  if head l =? NULL then mret None
  else
    let p := head l in
    n ← load_node p;
    let node_bytes := sizeof_PgRedisListNode + value_len n in
    out ← detach_value p;
    mem_record_pending_delete list p ;;
    n ← load_node p;
    upd_list list (set_head (next n)) ;;
    (if negb (next n =? NULL)
     then upd_node (next n) (set_prev NULL) ;;
          h ← load_node (next n);
          upd_list list (fun l => set_ords (ord h) (max_ord l) (ord_initialized l) l)
     else upd_list list (set_tail NULL) ;; upd_list list (set_ords 0 (-1) false)) ;;
    upd_list list (fun l => set_counts (length_ l - 1)
      (if node_bytes <=? memory_usage l then memory_usage l - node_bytes else memory_usage l) l) ;;
    pfree p ;;
    mret (Some out).

Definition list_rpop (list : ptr) : M Heap (option (ptr * Z)) :=
  l ← load_list list;
  if tail l =? NULL then mret None
  else
    let p := tail l in
    n ← load_node p;
    let node_bytes := sizeof_PgRedisListNode + value_len n in
    out ← detach_value p;
    mem_record_pending_delete list p ;;
    n ← load_node p;
    upd_list list (set_tail (prev n)) ;;
    (if negb (prev n =? NULL)
     then upd_node (prev n) (set_next NULL) ;;
          t ← load_node (prev n);
          upd_list list (fun l => set_ords (min_ord l) (ord t) (ord_initialized l) l)
     else upd_list list (set_head NULL) ;; upd_list list (set_ords 0 (-1) false)) ;;
    upd_list list (fun l => set_counts (length_ l - 1)
      (if node_bytes <=? memory_usage l then memory_usage l - node_bytes else memory_usage l) l) ;;
    pfree p ;;
    mret (Some out).

(** The loops over the nodes and over the ordinals; [fuel] bounds the steps. *)
Fixpoint free_nodes (fuel : nat) (p : ptr) : M Heap unit :=
  if p =? NULL then mret tt
  else match fuel with
       | O => ereport NO_RESULT
       | S fuel' =>
           n ← load_node p;
           when (negb (value n =? NULL)) (pfree (value n)) ;;
           pfree p ;;
           free_nodes fuel' (next n)
       end.

Fixpoint free_ords (fuel : nat) (p : ptr) : M Heap unit :=
  if p =? NULL then mret tt
  else match fuel with
       | O => ereport NO_RESULT
       | S fuel' => o ← load_ord p; pfree p ;; free_ords fuel' (o_next o)
       end.

Definition pg_redis_list_free (list : ptr) : M Heap unit :=
  if list =? NULL then mret tt
  else
    fuel ← gets size;
    l ← load_list list;
    free_nodes fuel (head l) ;;
    free_ords fuel (pending_delete_ords l) ;;
    upd_list list (set_pending_delete_ords NULL) ;;
    pfree list ;;
    mret tt.

(** What [run_flush] does to the list of an entry (src/persistence.c): every node
    counts as inserted, the ordinals to delete are freed. *)
Fixpoint clear_pending (fuel : nat) (p : ptr) : M Heap unit :=
  if p =? NULL then mret tt
  else match fuel with
       | O => ereport NO_RESULT
       | S fuel' =>
           n ← load_node p;
           when (pending_insert n) (upd_node p (set_pending_insert false)) ;;
           clear_pending fuel' (next n)
       end.

Definition settle_list (list : ptr) : M Heap unit :=
  fuel ← gets size;
  l ← load_list list;
  clear_pending fuel (head l) ;;
  free_ords fuel (pending_delete_ords l) ;;
  upd_list list (set_pending_delete_ords NULL).

(** A list in use: created, operated on, flushed now and then. *)
Inductive list_op := Op (o : Deque.op) | Flush.

Definition popped (out : option (ptr * Z)) : M Heap Deque.reply :=
  match out with
  | None => mret (Deque.RVal None)
  | Some (p, len) => b ← read_bytes p len; mret (Deque.RVal (Some b))
  end.

Definition list_mem_step (list : ptr) (o : list_op) : M Heap (option Deque.reply) :=
  match o with
  | Op (Deque.LPUSH v) => n ← list_lpush list v; mret (Some (Deque.RLen n))
  | Op (Deque.RPUSH v) => n ← list_rpush list v; mret (Some (Deque.RLen n))
  | Op Deque.LPOP => out ← list_lpop list; r ← popped out; mret (Some r)
  | Op Deque.RPOP => out ← list_rpop list; r ← popped out; mret (Some r)
  | Op Deque.LLEN => l ← load_list list; mret (Some (Deque.RLen (length_ l)))
  | Flush => settle_list list ;; mret None
  end.

Fixpoint list_mem_steps (l : ptr) (os : list list_op) : M Heap (list (option Deque.reply)) :=
  match os with
  | [] => mret []
  | o :: os' => r ← list_mem_step l o; rs ← list_mem_steps l os'; mret (r :: rs)
  end.

(** From creation to the end. *)
Definition list_lifetime (mcxt : MemoryContext) (os : list list_op) : M Heap (list (option Deque.reply)) :=
  l ← list_create_in mcxt;
  rs ← list_mem_steps l os;
  pg_redis_list_free l ;;
  mret rs.
End ListMem.

(** The same operations in ListValue.v. *)
Definition list_ref_step (o : list_op) (l : PgRedisList) : option Deque.reply * PgRedisList :=
  match o with
  | Op o => let x := Deque.impl_step o l in (Some x.1, x.2)
  | Flush => (None, list_clean l)
  end.
Fixpoint list_ref_steps (os : list list_op) (l : PgRedisList) : list (option Deque.reply) * PgRedisList :=
  match os with
  | [] => ([], l)
  | o :: os' => let x := list_ref_step o l in let y := list_ref_steps os' x.2 in (x.1 :: y.1, y.2)
  end.

(** ** The cells of a list *)

Record item := { i_ptr : ptr; i_vptr : ptr; i_node : PgRedisListNode }.

Definition node_cell (cx : MemoryContext) (pv nx : ptr) (it : item) : cell :=
  at_ (i_ptr it) cx (DNode {| value := i_vptr it; value_len := blen (n_value (i_node it)); ord := n_ord (i_node it);
                              pending_insert := n_pending_insert (i_node it); prev := pv; next := nx |}).
Definition value_cell (cx : MemoryContext) (it : item) : cell := at_ (i_vptr it) cx (cstring (n_value (i_node it))).

Definition first_ptr (d : ptr) (its : list item) : ptr := match its with [] => d | it :: _ => i_ptr it end.
Fixpoint last_ptr (d : ptr) (its : list item) : ptr := match its with [] => d | it :: its' => last_ptr (i_ptr it) its' end.

(** Nodes linked both ways, from [pv] to [nx]. *)
Fixpoint chain (cx : MemoryContext) (pv : ptr) (its : list item) (nx : ptr) : list cell :=
  match its with
  | [] => []
  | it :: its' => node_cell cx pv (first_ptr nx its') it :: value_cell cx it :: chain cx (i_ptr it) its' nx
  end.

Definition ords_head (os : list (ptr * Z)) : ptr := match os with [] => NULL | x :: _ => x.1 end.
Fixpoint ord_chain (cx : MemoryContext) (os : list (ptr * Z)) : list cell :=
  match os with
  | [] => []
  | x :: os' => at_ x.1 cx (DOrd {| o_ord := x.2; o_next := ords_head os' |}) :: ord_chain cx os'
  end.

Definition header (cx : MemoryContext) (h t o : ptr) (l : PgRedisList) : ListS :=
  {| head := h; tail := t; length_ := l_length l; memory_usage := l_memory_usage l; min_ord := l_min_ord l;
     max_ord := l_max_ord l; ord_initialized := l_ord_initialized l; list_mcxt := cx; pending_delete_ords := o |}.

(** The list [l] is at [lp], and there is [F] beside it. *)
Definition list_at (cx : MemoryContext) (lp : ptr) (l : PgRedisList) (F cs : list cell) : Prop :=
  exists its os, l_nodes l = i_node <$> its /\ l_pending_delete_ords l = os.*2 /\
    cs ≡ₚ at_ lp cx (DList (header cx (first_ptr NULL its) (last_ptr NULL its) (ords_head os) l)) ::
           chain cx NULL its NULL ++ ord_chain cx os ++ F.

Lemma list_first_snoc d its it : first_ptr d (its ++ [it]) = first_ptr (i_ptr it) its.
Proof. by destruct its. Qed.
Lemma list_last_snoc d its it : last_ptr d (its ++ [it]) = i_ptr it.
Proof. revert d. induction its; cbn; auto. Qed.

Lemma chain_snoc cx pv its it nx :
  chain cx pv (its ++ [it]) nx = chain cx pv its (i_ptr it) ++ [node_cell cx (last_ptr pv its) nx it; value_cell cx it].
Proof.
  revert pv. induction its as [|x its IH]; intros pv; [done|]. cbn [app chain last_ptr]. by rewrite IH, list_first_snoc.
Qed.

(** ** Rules for the members *)

Section Rules.
Context `{Palloc} `{!PallocLaws}.

Lemma wp_load_node {B} p cx n cs cs' (k : ListNodeS -> M Heap B) Q :
  cs ≡ₚ at_ p cx (DNode n) :: cs' -> wp (k n) (at_ p cx (DNode n) :: cs') Q -> wp (load_node p ≫= k) cs Q.
Proof. intros E Hk. apply wp_assoc. eapply wp_fetch; [exact E|]. by apply wp_mret. Qed.
Lemma wp_load_list {B} p cx l cs cs' (k : ListS -> M Heap B) Q :
  cs ≡ₚ at_ p cx (DList l) :: cs' -> wp (k l) (at_ p cx (DList l) :: cs') Q -> wp (load_list p ≫= k) cs Q.
Proof. intros E Hk. apply wp_assoc. eapply wp_fetch; [exact E|]. by apply wp_mret. Qed.
Lemma wp_load_ord {B} p cx o cs cs' (k : OrdNodeS -> M Heap B) Q :
  cs ≡ₚ at_ p cx (DOrd o) :: cs' -> wp (k o) (at_ p cx (DOrd o) :: cs') Q -> wp (load_ord p ≫= k) cs Q.
Proof. intros E Hk. apply wp_assoc. eapply wp_fetch; [exact E|]. by apply wp_mret. Qed.
Lemma wp_upd_node {B} p f cx n cs cs' (k : unit -> M Heap B) Q :
  cs ≡ₚ at_ p cx (DNode n) :: cs' -> wp (k tt) (at_ p cx (DNode (f n)) :: cs') Q -> wp (upd_node p f ≫= k) cs Q.
Proof. intros E Hk. apply wp_assoc. eapply wp_load_node; [exact E|]. by eapply wp_put. Qed.
Lemma wp_upd_list {B} p f cx l cs cs' (k : unit -> M Heap B) Q :
  cs ≡ₚ at_ p cx (DList l) :: cs' -> wp (k tt) (at_ p cx (DList (f l)) :: cs') Q -> wp (upd_list p f ≫= k) cs Q.
Proof. intros E Hk. apply wp_assoc. eapply wp_load_list; [exact E|]. by eapply wp_put. Qed.

Lemma wp_new_node {B} cx v cs (k : ptr -> M Heap B) Q :
  (forall n b, n <> NULL -> b <> NULL ->
     wp (k n) (at_ n cx (DNode {| value := b; value_len := blen v; ord := 0; pending_insert := false; prev := NULL; next := NULL |}) ::
               at_ b cx (cstring v) :: cs) Q) ->
  wp (list_new_node cx v ≫= k) cs Q.
Proof.
  intros Hk. apply wp_assoc, wp_struct. intros n Hn. apply wp_assoc, wp_copy. intros b Hb.
  apply wp_assoc. eapply wp_upd_node; [pull|]. cbv beta. apply wp_mret, Hk; done.
Qed.

Definition is_nil {A} (l : list A) : bool := match l with [] => true | _ => false end.

Lemma is_nil_snoc {A} (l : list A) x : is_nil (l ++ [x]) = false.
Proof. by destruct l. Qed.

Ltac step :=
  cbv beta; cbn [when negb andb is_nil];
  lazymatch goal with
  | |- wp ((_ ≫= _) ≫= _) _ _ => apply wp_assoc
  | |- wp (mret _ ≫= _) _ _ => apply wp_mret
  | |- wp (load_list _ ≫= _) _ _ => eapply wp_load_list; [pull|]
  | |- wp (load_node _ ≫= _) _ _ => eapply wp_load_node; [pull|]
  | |- wp (upd_node _ _ ≫= _) _ _ => eapply wp_upd_node; [pull|]
  | |- wp (upd_list _ _ ≫= _) _ _ => eapply wp_upd_list; [pull|]
  | |- wp (pfree _ ≫= _) _ _ => eapply wp_pfree; [pull|]
  end.

Lemma not_null (p : ptr) : p <> NULL -> (p =? NULL) = false.
Proof. apply Z.eqb_neq. Qed.

(** A list with a last node does not end in NULL. *)
Lemma last_in_chain cx pv it its nx : last_ptr pv (it :: its) ∈ (chain cx pv (it :: its) nx).*1.
Proof.
  revert pv it. induction its as [|z zs IH]; intros pv it; [cbn; set_solver|].
  specialize (IH (i_ptr it) z). cbn [last_ptr chain fmap list_fmap] in *. set_solver.
Qed.

Lemma ends_null cx its :
  NULL ∉ (chain cx NULL its NULL).*1 ->
  (first_ptr NULL its =? NULL) = is_nil its /\ (last_ptr NULL its =? NULL) = is_nil its.
Proof.
  destruct its as [|z zs]; [done|]. intros Hn.
  split; apply Z.eqb_neq; intros E; apply Hn; [cbn in *; rewrite E; set_solver|].
  pose proof (last_in_chain cx NULL z zs NULL) as Hl. by rewrite E in Hl.
Qed.

(** Opens [list_at], with what is known of the ends. *)
Ltac open_list :=
  match goal with
  | |- list_at ?cx _ _ _ _ -> _ =>
      let its := fresh "its" in let os := fresh "os" in let E := fresh "E" in let Hnn := fresh "Hnn" in
      intros (its & os & Hn & Ho & E) Hk; eapply wp_perm; [exact E|]; clear E; apply wp_nonnull; intros Hnn;
      destruct (ends_null cx its) as [Eh Et]; [rewrite fmap_cons, !fmap_app in Hnn; set_solver|]; clear Hnn
  end.

(** Closes it with these items and ordinals. *)
Ltac close_list its os :=
  match goal with
  | Hn : l_nodes _ = _, Ho : l_pending_delete_ords _ = _ |- _ =>
      exists its, os; split; [cbn; by rewrite ?Hn, ?fmap_app|split; [cbn; by rewrite ?Ho|]]
  end;
  rewrite ?chain_snoc, ?list_first_snoc, ?list_last_snoc; cbn [first_ptr last_ptr chain ord_chain ords_head app fst snd]; cells.

Lemma wp_lpush {B} cx lp l v F cs (k : Z -> M Heap B) Q :
  list_at cx lp l F cs ->
  (forall cs', list_at cx lp (pg_redis_list_lpush l v).2 F cs' -> wp (k (pg_redis_list_lpush l v).1) cs' Q) ->
  wp (list_lpush lp v ≫= k) cs Q.
Proof.
  open_list. unfold list_lpush. do 3 step. cbn [list_mcxt header]. apply wp_new_node. intros n b Hn0 Hb0.
  unfold pg_redis_list_lpush in Hk. cbn [head tail header ord_initialized min_ord max_ord]. rewrite Eh, Et.
  destruct (l_ord_initialized l) eqn:Ei, its as [|z zs]; cbn [negb fst snd first_ptr last_ptr chain app] in *;
    repeat step; apply Hk.
  - close_list [{| i_ptr := n; i_vptr := b; i_node := {| n_value := v; n_ord := l_min_ord l - 1; n_pending_insert := true |} |}] os.
  - close_list ({| i_ptr := n; i_vptr := b; i_node := {| n_value := v; n_ord := l_min_ord l - 1; n_pending_insert := true |} |} :: z :: zs) os.
  - close_list [{| i_ptr := n; i_vptr := b; i_node := {| n_value := v; n_ord := 0; n_pending_insert := true |} |}] os.
  - close_list ({| i_ptr := n; i_vptr := b; i_node := {| n_value := v; n_ord := 0; n_pending_insert := true |} |} :: z :: zs) os.
Qed.

Lemma wp_rpush {B} cx lp l v F cs (k : Z -> M Heap B) Q :
  list_at cx lp l F cs ->
  (forall cs', list_at cx lp (pg_redis_list_rpush l v).2 F cs' -> wp (k (pg_redis_list_rpush l v).1) cs' Q) ->
  wp (list_rpush lp v ≫= k) cs Q.
Proof.
  open_list. unfold list_rpush. do 3 step. cbn [list_mcxt header]. apply wp_new_node. intros n b Hn0 Hb0.
  unfold pg_redis_list_rpush in Hk. cbn [head tail header ord_initialized min_ord max_ord]. rewrite Eh, Et.
  destruct (l_ord_initialized l) eqn:Ei, (list_snoc_cases its) as [->|(zs & z & ->)];
    rewrite ?is_nil_snoc, ?chain_snoc, ?list_last_snoc, ?list_first_snoc, <- ?app_assoc in *;
    cbn [negb fst snd first_ptr last_ptr chain app] in *; repeat step; apply Hk.
  - close_list [{| i_ptr := n; i_vptr := b; i_node := {| n_value := v; n_ord := l_max_ord l + 1; n_pending_insert := true |} |}] os.
  - close_list ((zs ++ [z]) ++ [{| i_ptr := n; i_vptr := b; i_node := {| n_value := v; n_ord := l_max_ord l + 1; n_pending_insert := true |} |}]) os.
  - close_list [{| i_ptr := n; i_vptr := b; i_node := {| n_value := v; n_ord := 0; n_pending_insert := true |} |}] os.
  - close_list ((zs ++ [z]) ++ [{| i_ptr := n; i_vptr := b; i_node := {| n_value := v; n_ord := 0; n_pending_insert := true |} |}]) os.
Qed.

(** A node whose value has been handed out. *)
Definition detached (cx : MemoryContext) (pv nx : ptr) (it : item) : ListNodeS :=
  {| value := NULL; value_len := blen (n_value (i_node it)); ord := n_ord (i_node it);
     pending_insert := n_pending_insert (i_node it); prev := pv; next := nx |}.

Lemma wp_detach {B} cx pv nx it cs cs' (k : ptr * Z -> M Heap B) Q :
  cs ≡ₚ node_cell cx pv nx it :: value_cell cx it :: cs' -> i_vptr it <> NULL ->
  (forall out, out <> NULL ->
     wp (k (out, blen (n_value (i_node it))))
        (at_ (i_ptr it) cx (DNode (detached cx pv nx it)) :: at_ out CurrentMemoryContext (cstring (n_value (i_node it))) :: cs') Q) ->
  wp (detach_value (i_ptr it) ≫= k) cs Q.
Proof.
  intros E Hv Hk. eapply wp_perm; [exact E|]. unfold detach_value. do 3 step. apply wp_palloc.
  cbn [value value_len]. set (v := n_value (i_node it)) in *. intros out b Hout Hb.
  rewrite (not_null _ Hv), andb_true_r. step.
  eapply (wp_copy_from (i_vptr it) cx out _ v b); [pull|unfold blen in Hb; lia|].
  replace (Z.to_nat (blen v)) with (length v) by (unfold blen; lia).
  step. eapply wp_terminate; [pull|done|]. repeat step. eapply wp_perm; [|by apply (Hk out)]. cells.
Qed.
(** What a pop hands out is beside the list, in the context of the statement. *)
Definition returned (r : option (ptr * Z)) (v : option bytes) (F F' : list cell) : Prop :=
  match r, v with
  | None, None => F' = F
  | Some (p, len), Some b => len = blen b /\ F' = at_ p CurrentMemoryContext (cstring b) :: F
  | _, _ => False
  end.

Lemma wp_record {B} cx lp hd p n cs cs' (k : unit -> M Heap B) Q :
  cs ≡ₚ at_ lp cx (DList hd) :: at_ p cx (DNode n) :: cs' -> list_mcxt hd = cx ->
  (if pending_insert n then wp (k tt) (at_ lp cx (DList hd) :: at_ p cx (DNode n) :: cs') Q
   else forall o, wp (k tt) (at_ lp cx (DList (set_pending_delete_ords o hd)) :: at_ p cx (DNode n) ::
                             at_ o cx (DOrd {| o_ord := ord n; o_next := pending_delete_ords hd |}) :: cs') Q) ->
  wp (mem_record_pending_delete lp p ≫= k) cs Q.
Proof.
  intros E Hcx Hk. eapply wp_perm; [exact E|]. unfold mem_record_pending_delete. do 2 step.
  destruct (pending_insert n); [step; eapply wp_perm; [|exact Hk]; cells|].
  do 2 step. rewrite Hcx. step. apply wp_struct. intros o _. step. eapply wp_perm; [|apply (Hk o)]. cells.
Qed.

Lemma rpop_one l n :
  l_nodes l = [n] ->
  pg_redis_list_rpop (Some l) = (Some (n_value n), Some (finish_pop (record_pending_delete l n) n [] 0 (-1))).
Proof. intros E. cbn. by rewrite E. Qed.

Lemma rpop_more l ns z n :
  l_nodes l = (ns ++ [z]) ++ [n] ->
  pg_redis_list_rpop (Some l) =
    (Some (n_value n),
     Some {| l_nodes := ns ++ [z]; l_length := l_length l - 1;
             l_memory_usage := if node_bytes n <=? l_memory_usage l then l_memory_usage l - node_bytes n else l_memory_usage l;
             l_min_ord := l_min_ord l; l_max_ord := n_ord z; l_ord_initialized := l_ord_initialized l;
             l_pending_delete_ords := if n_pending_insert n then l_pending_delete_ords l
                                      else n_ord n :: l_pending_delete_ords l |}).
Proof.
  intros E. cbn. rewrite E, !reverse_snoc. rewrite <- reverse_snoc, reverse_involutive. unfold finish_pop, record_pending_delete.
  destruct (n_pending_insert n); cbn; by destruct ns.
Qed.

(** The result of a pop from the front, as ListValue.v computes it. *)
Ltac pop_result its os :=
  match goal with
  | Hn : l_nodes _ = _, Ep : n_pending_insert _ = _, Hk : context [returned] |- _ =>
      eapply Hk; [cbn; rewrite Hn; cbn; unfold record_pending_delete; rewrite Ep; reflexivity|by split|]
  end; close_list its os.

Lemma wp_lpop {B} cx lp l F cs (k : option (ptr * Z) -> M Heap B) Q :
  list_at cx lp l F cs ->
  (forall r v l' F' cs', pg_redis_list_lpop (Some l) = (v, Some l') -> returned r v F F' -> list_at cx lp l' F' cs' ->
     wp (k r) cs' Q) ->
  wp (list_lpop lp ≫= k) cs Q.
Proof.
  open_list. unfold list_lpop. do 2 step. cbn [head header]. rewrite Eh.
  destruct its as [|it its]; cbn [is_nil first_ptr last_ptr chain app] in *.
  { step. eapply Hk; [cbn; by rewrite Hn|by cbn|]. close_list (@nil item) os. }
  do 2 step. cbn [value_len]. step. apply wp_nonnull. intros Hnn.
  assert (Hv : i_vptr it <> NULL) by (eapply nonnull_in; [exact Hnn|pull]).
  assert (Hx : (first_ptr NULL its =? NULL) = is_nil its).
  { destruct its; [done|]. apply not_null. eapply nonnull_in; [exact Hnn|cbn [chain app first_ptr]; pull]. }
  eapply (wp_detach cx NULL (first_ptr NULL its) it); [etrans; [|apply Permutation_refl]; cells|done|]. intros out _. step.
  eapply wp_record; [cells|done|]. cbn [pending_insert detached ord pending_delete_ords header].
  destruct (n_pending_insert (i_node it)) eqn:Ep; [|intros o].
  all: do 3 step; cbn [next detached]; rewrite Hx; destruct its as [|z zs]; cbn [first_ptr last_ptr chain app]; repeat step.
  - pop_result (@nil item) os.
  - pop_result (z :: zs) os.
  - pop_result (@nil item) ((o, n_ord (i_node it)) :: os).
  - pop_result (z :: zs) ((o, n_ord (i_node it)) :: os).
Qed.

Lemma wp_rpop {B} cx lp l F cs (k : option (ptr * Z) -> M Heap B) Q :
  list_at cx lp l F cs ->
  (forall r v l' F' cs', pg_redis_list_rpop (Some l) = (v, Some l') -> returned r v F F' -> list_at cx lp l' F' cs' ->
     wp (k r) cs' Q) ->
  wp (list_rpop lp ≫= k) cs Q.
Proof.
  open_list. unfold list_rpop. do 2 step. cbn [tail header]. rewrite Et.
  destruct (list_snoc_cases its) as [->|(zs & it & ->)].
  { cbn [is_nil chain app]. step. eapply Hk; [cbn; by rewrite Hn|by cbn|]. close_list (@nil item) os. }
  rewrite is_nil_snoc, ?chain_snoc, ?list_last_snoc, ?list_first_snoc, <- ?app_assoc in *. cbn [app].
  do 2 step. cbn [value_len]. step. apply wp_nonnull. intros Hnn.
  assert (Hv : i_vptr it <> NULL) by (eapply nonnull_in; [exact Hnn|pull]).
  assert (Hx : (last_ptr NULL zs =? NULL) = is_nil zs).
  { destruct (list_snoc_cases zs) as [->|(ys & z & ->)]; [done|]. rewrite is_nil_snoc, list_last_snoc. apply not_null.
    rewrite chain_snoc in Hnn. eapply nonnull_in; [exact Hnn|pull]. }
  eapply (wp_detach cx (last_ptr NULL zs) NULL it); [etrans; [|apply Permutation_refl]; cells|done|]. intros out _. step.
  eapply wp_record; [cells|done|]. cbn [pending_insert detached ord pending_delete_ords header].
  destruct (n_pending_insert (i_node it)) eqn:Ep; [|intros o].
  all: do 3 step; cbn [prev detached]; rewrite Hx; destruct (list_snoc_cases zs) as [->|(ys & z & ->)];
    rewrite ?is_nil_snoc, ?chain_snoc, ?list_last_snoc, ?list_first_snoc, <- ?app_assoc; cbn [is_nil first_ptr last_ptr chain app]; repeat step.
  - eapply Hk; [by apply rpop_one; rewrite Hn|by split|]. unfold record_pending_delete. rewrite Ep. close_list (@nil item) os.
  - eapply Hk; [by apply rpop_more; rewrite Hn, !fmap_app|by split|]. rewrite Ep. close_list (ys ++ [z]) os.
  - eapply Hk; [by apply rpop_one; rewrite Hn|by split|]. unfold record_pending_delete. rewrite Ep.
    close_list (@nil item) ((o, n_ord (i_node it)) :: os).
  - eapply Hk; [by apply rpop_more; rewrite Hn, !fmap_app|by split|]. rewrite Ep.
    close_list (ys ++ [z]) ((o, n_ord (i_node it)) :: os).
Qed.
(** ** Walks along the chain *)

Lemma chain_head cx pv it its nx cs :
  chain cx pv (it :: its) nx ++ cs = node_cell cx pv (first_ptr nx its) it :: value_cell cx it :: chain cx (i_ptr it) its nx ++ cs.
Proof. done. Qed.

Lemma wp_free_nodes {B} cx its : forall fuel pv cs cs' (k : unit -> M Heap B) Q,
  (length its <= fuel)%nat -> cs ≡ₚ chain cx pv its NULL ++ cs' -> wp (k tt) cs' Q ->
  wp (free_nodes fuel (first_ptr NULL its) ≫= k) cs Q.
Proof.
  induction its as [|it its IH]; intros fuel pv cs cs' k Q Hf E Hk; (eapply wp_perm; [exact E|]).
  { destruct fuel; cbn; by apply wp_mret. }
  destruct fuel as [|fuel]; cbn in Hf; [lia|]. apply wp_nonnull. intros Hnn. rewrite chain_head in *.
  cbn [first_ptr free_nodes]. rewrite (not_null (i_ptr it)) by (eapply nonnull_in; [exact Hnn|pull]).
  do 3 step. cbn [value]. rewrite (not_null (i_vptr it)) by (eapply nonnull_in; [exact Hnn|pull]).
  repeat step. by eapply IH; [lia|reflexivity|].
Qed.

Lemma wp_free_ords {B} cx os : forall fuel cs cs' (k : unit -> M Heap B) Q,
  (length os <= fuel)%nat -> cs ≡ₚ ord_chain cx os ++ cs' -> wp (k tt) cs' Q ->
  wp (free_ords fuel (ords_head os) ≫= k) cs Q.
Proof.
  induction os as [|x os IH]; intros fuel cs cs' k Q Hf E Hk; (eapply wp_perm; [exact E|]).
  { destruct fuel; cbn; by apply wp_mret. }
  destruct fuel as [|fuel]; cbn in Hf; [lia|]. apply wp_nonnull. intros Hnn. cbn [ord_chain app] in *.
  cbn [ords_head free_ords]. rewrite (not_null x.1) by (eapply nonnull_in; [exact Hnn|pull]).
  step. eapply wp_load_ord; [pull|]. repeat step. by eapply IH; [lia|reflexivity|].
Qed.

Definition cleared (it : item) : item :=
  {| i_ptr := i_ptr it; i_vptr := i_vptr it;
     i_node := {| n_value := n_value (i_node it); n_ord := n_ord (i_node it); n_pending_insert := false |} |}.

Lemma first_cleared d its : first_ptr d (cleared <$> its) = first_ptr d its.
Proof. by destruct its. Qed.
Lemma last_cleared its : forall d, last_ptr d (cleared <$> its) = last_ptr d its.
Proof. induction its as [|it its IH]; intros d; [done|]. apply IH. Qed.

Lemma wp_clear_pending {B} cx its : forall fuel pv cs cs' (k : unit -> M Heap B) Q,
  (length its <= fuel)%nat -> cs ≡ₚ chain cx pv its NULL ++ cs' -> wp (k tt) (chain cx pv (cleared <$> its) NULL ++ cs') Q ->
  wp (clear_pending fuel (first_ptr NULL its) ≫= k) cs Q.
Proof.
  induction its as [|it its IH]; intros fuel pv cs cs' k Q Hf E Hk; (eapply wp_perm; [exact E|]).
  { destruct fuel; cbn; by apply wp_mret. }
  destruct fuel as [|fuel]; cbn in Hf; [lia|]. apply wp_nonnull. intros Hnn. rewrite chain_head in *.
  cbn [first_ptr clear_pending]. rewrite (not_null (i_ptr it)) by (eapply nonnull_in; [exact Hnn|pull]).
  do 3 step. cbn [pending_insert next].
  eapply (wp_perm _ _ (node_cell cx pv (first_ptr NULL its) it :: value_cell cx it :: chain cx (i_ptr it) its NULL ++ cs')); [cells|].
  assert (Hw : wp (clear_pending fuel (first_ptr NULL its) ≫= k)
                 (node_cell cx pv (first_ptr NULL its) (cleared it) :: value_cell cx it :: chain cx (i_ptr it) its NULL ++ cs') Q).
  { eapply (IH fuel (i_ptr it) _ (node_cell cx pv (first_ptr NULL its) (cleared it) :: value_cell cx it :: cs')); [lia|cells|].
    eapply wp_perm; [|exact Hk]. rewrite fmap_cons, chain_head, first_cleared. cells. }
  destruct (n_pending_insert (i_node it)) eqn:Ep; repeat step; [eapply wp_perm; [|exact Hw]; cells|].
  eapply wp_perm; [|exact Hw]. unfold node_cell. cbn. rewrite Ep. cells.
Qed.

Lemma list_chain_length cx pv its nx : length (chain cx pv its nx) = (2 * length its)%nat.
Proof. revert pv. induction its as [|it its IH]; intros pv; [done|]. cbn. rewrite IH. lia. Qed.
Lemma ord_chain_length cx os : length (ord_chain cx os) = length os.
Proof. induction os as [|x os IH]; [done|]. cbn. by rewrite IH. Qed.

(** The chunks are enough fuel. *)
Lemma fuel_enough cx lp hd its os (F : list cell) :
  (length its <= length (at_ lp cx hd :: chain cx NULL its NULL ++ ord_chain cx os ++ F))%nat /\
  (length os <= length (at_ lp cx hd :: chain cx NULL its NULL ++ ord_chain cx os ++ F))%nat.
Proof. cbn. rewrite !length_app, list_chain_length, ord_chain_length. lia. Qed.

Lemma wp_list_free {B} cx lp l F cs (k : unit -> M Heap B) Q :
  list_at cx lp l F cs -> wp (k tt) F Q -> wp (pg_redis_list_free lp ≫= k) cs Q.
Proof.
  open_list. unfold pg_redis_list_free. apply wp_nonnull. intros Hnn.
  rewrite (not_null lp) by (eapply nonnull_in; [exact Hnn|pull]). step. apply wp_size.
  destruct (fuel_enough cx lp (DList (header cx (first_ptr NULL its) (last_ptr NULL its) (ords_head os) l)) its os F) as [H1 H2].
  set (fuel := length _) in *. do 3 step. cbn [head pending_delete_ords header].
  eapply wp_free_nodes; [exact H1|block|]. step.
  eapply wp_free_ords; [exact H2|block|]. repeat step. exact Hk.
Qed.

Lemma wp_settle {B} cx lp l F cs (k : unit -> M Heap B) Q :
  list_at cx lp l F cs -> (forall cs', list_at cx lp (list_clean l) F cs' -> wp (k tt) cs' Q) ->
  wp (settle_list lp ≫= k) cs Q.
Proof.
  open_list. unfold settle_list. step. apply wp_size.
  destruct (fuel_enough cx lp (DList (header cx (first_ptr NULL its) (last_ptr NULL its) (ords_head os) l)) its os F) as [H1 H2].
  set (fuel := length _) in *. do 3 step. cbn [head pending_delete_ords header].
  eapply wp_clear_pending; [exact H1|block|]. step.
  eapply wp_free_ords; [exact H2|block|]. repeat step.
  apply Hk. exists (cleared <$> its), []. split; [cbn; by rewrite Hn, <- !list_fmap_compose|]. split; [done|].
  rewrite first_cleared, last_cleared. cbn [ords_head ord_chain app]. cells.
Qed.
Lemma wp_create {B} cx F (k : ptr -> M Heap B) Q :
  (forall lp cs, list_at cx lp pg_redis_list_create_in F cs -> wp (k lp) cs Q) -> wp (list_create_in cx ≫= k) F Q.
Proof. intros Hk. apply wp_struct. intros lp _. apply Hk. by exists [], []. Qed.

Lemma wp_popped {B} cx lp l r v F F' cs (k : Deque.reply -> M Heap B) Q :
  returned r v F F' -> list_at cx lp l F' cs ->
  (forall outs cs', passing outs -> list_at cx lp l (outs ++ F) cs' -> wp (k (Deque.RVal v)) cs' Q) ->
  wp (popped r ≫= k) cs Q.
Proof.
  intros Hr Hl Hk. destruct r as [[p len]|], v as [v|]; try done; cbn in Hr.
  - destruct Hr as [-> ->]. destruct Hl as (its & os & Hn & Ho & E). eapply wp_perm; [exact E|]. cbn [popped]. apply wp_assoc.
    eapply wp_read; [pull|unfold blen; rewrite length_app; lia|]. unfold blen. rewrite Nat2Z.id, take_app_length. apply wp_mret.
    apply (Hk [at_ p CurrentMemoryContext (cstring v)]); [by repeat constructor|].
    exists its, os. split; [done|]. split; [done|]. cells.
  - subst F'. apply wp_mret, (Hk []); [constructor|done].
Qed.

Lemma wp_mem_step {B} cx lp o l F cs (k : option Deque.reply -> M Heap B) Q :
  list_at cx lp l F cs ->
  (forall outs cs', passing outs -> list_at cx lp (list_ref_step o l).2 (outs ++ F) cs' -> wp (k (list_ref_step o l).1) cs' Q) ->
  wp (list_mem_step lp o ≫= k) cs Q.
Proof.
  intros Hl Hk. assert (H0' : passing []) by constructor.
  destruct o as [[v|v| | |]|]; cbn [list_mem_step list_ref_step Deque.impl_step] in *; apply wp_assoc.
  - eapply wp_lpush; [done|]. intros cs' Hc. apply wp_mret. destruct (pg_redis_list_lpush l v). by apply (Hk []).
  - eapply wp_rpush; [done|]. intros cs' Hc. apply wp_mret. destruct (pg_redis_list_rpush l v). by apply (Hk []).
  - eapply wp_lpop; [done|]. intros r v l' F' cs' E Hr Hc. rewrite E in Hk. apply wp_assoc.
    eapply wp_popped; [done|done|]. intros outs cs1 Ho Hc1. by apply wp_mret, (Hk outs).
  - eapply wp_rpop; [done|]. intros r v l' F' cs' E Hr Hc. rewrite E in Hk. apply wp_assoc.
    eapply wp_popped; [done|done|]. intros outs cs1 Ho Hc1. by apply wp_mret, (Hk outs).
  - pose proof Hl as (its & os & Hn & Ho & E). eapply wp_perm; [exact E|]. eapply wp_load_list; [pull|]. apply wp_mret.
    apply (Hk []); [done|]. exists its, os. split; [done|]. split; [done|]. cells.
  - eapply wp_settle; [done|]. intros cs' Hc. by apply wp_mret, (Hk []).
Qed.

Lemma wp_mem_steps {B} cx lp os : forall l F cs (k : list (option Deque.reply) -> M Heap B) Q,
  list_at cx lp l F cs ->
  (forall outs cs', passing outs -> list_at cx lp (list_ref_steps os l).2 (outs ++ F) cs' -> wp (k (list_ref_steps os l).1) cs' Q) ->
  wp (list_mem_steps lp os ≫= k) cs Q.
Proof.
  induction os as [|o os IH]; intros l F cs k Q Hl Hk; cbn [list_mem_steps list_ref_steps] in *.
  { apply wp_mret, (Hk []); [constructor|done]. }
  apply wp_assoc. eapply wp_mem_step; [done|]. intros outs cs' Ho Hc. apply wp_assoc.
  eapply IH; [done|]. intros outs' cs1 Ho' Hc1. apply wp_mret, (Hk (outs' ++ outs)); [by apply Forall_app|].
  by rewrite <- app_assoc.
Qed.
End Rules.

(** ** Theorems *)


Definition demo_ops : list list_op :=
  [Op (Deque.RPUSH (bs "abc")); Op (Deque.LPUSH (bs "")); Flush; Op Deque.LPOP; Op (Deque.RPUSH (bs "d"));
   Op Deque.RPOP; Op Deque.RPOP; Op Deque.RPOP; Op Deque.LLEN].


(** A pop that finds no memory for the ordinal loses the value: [detach_value] has
    already freed it.  The item stays in the list, and the next pop copies
    nothing into the chunk it returns: three bytes of whatever was there. *)
Example failed_pop_loses_value :
  let lp := 1 in
  let ops := [Op (Deque.RPUSH (bs "abc")); Flush] in
  let h := (@list_mem_steps (first_fit []) lp ops ((@list_create_in (first_fit []) PgRedisMemoryContext ∅).2)).2 in
  let '(r1, h1) := @list_mem_step (first_fit [sizeof_PgRedisOrdNode]) lp (Op Deque.LPOP) h in
  let '(r2, h2) := @list_mem_steps (first_fit []) lp [Op Deque.LLEN; Op Deque.LPOP] h1 in
  r1 = Raise ERRCODE_OUT_OF_MEMORY /\ r2 = Ret [Some (Deque.RLen 1); Some (Deque.RVal (Some (bs "???")))].
Proof. vm_compute. done. Qed.
