(* ===== verification/HashMem.v ===== *)
(** * Hashes in backend memory (src/hash_value.c)

    The functions of HashValue.v with the pointers of the source, as ListMem.v
    has them for lists: the struct, a chunk for every value, and the chain of
    tombstones.  The nested table is PostgreSQL's; its entries are kept in the
    struct, and what a new entry holds before it is assigned is a parameter. *)
From S2P Require Import Prelude Types HashValue BackendMem.

Definition sizeof_PgRedisHash : Z := 40.
Definition sizeof_PgRedisHashTombstone : Z := 16.

(** Assignments to members. *)
Definition set_hash (fs : gmap bytes FieldS) (count mem : Z) (h : HashS) : HashS :=
  {| fields := fs; field_count := count; hash_memory_usage := mem; hash_mcxt := hash_mcxt h; tombstones := tombstones h |}.
Definition set_memory (mem : Z) (h : HashS) : HashS := set_hash (fields h) (field_count h) mem h.
Definition set_tombstones (p : ptr) (h : HashS) : HashS :=
  {| fields := fields h; field_count := field_count h; hash_memory_usage := hash_memory_usage h; hash_mcxt := hash_mcxt h; tombstones := p |}.

Section HashMem.
Context `{Palloc} (entered : FieldS).

Definition load_hash (p : ptr) : M Heap HashS :=
  d ← fetch p; match d with DHash h => mret h | _ => ereport SEGMENTATION_FAULT end.
Definition load_tombstone (p : ptr) : M Heap TombstoneS :=
  d ← fetch p; match d with DTombstone t => mret t | _ => ereport SEGMENTATION_FAULT end.
Definition upd_hash (p : ptr) (f : HashS -> HashS) : M Heap unit := h ← load_hash p; put p (DHash (f h)).

(** The table allocates in its own context, and may find no memory. *)
Definition table_room (sz : Z) : M Heap unit := fun h =>
  match palloc_answer h sz with None => (Raise ERRCODE_OUT_OF_MEMORY, h) | Some _ => (Ret tt, h) end.

Definition hash_create_in (mcxt : MemoryContext) : M Heap ptr :=
  p ← palloc_struct mcxt sizeof_PgRedisHash
        (DHash {| fields := ∅; field_count := 0; hash_memory_usage := 0; hash_mcxt := mcxt; tombstones := NULL |});
  table_room sizeof_PgRedisHashField ;;
  mret p.
Definition pg_redis_hash_create : M Heap ptr := hash_create_in pg_redis_memcxt.

Definition hash_set (hp : ptr) (field v : bytes) : M Heap bool :=
  if PG_REDIS_MAX_FIELD_SIZE <? blen field then ereport ERRCODE_PROGRAM_LIMIT_EXCEEDED
  else
    h ← load_hash hp;
    (match fields h !! field with
     | Some f =>
         when (negb (fs_value f =? NULL))
           (upd_hash hp (fun h => set_memory (hash_memory_usage h - fs_value_len f) h) ;; pfree (fs_value f))
     | None =>
         table_room sizeof_PgRedisHashField ;;
         upd_hash hp (fun h => set_hash (<[field := entered]> (fields h)) (field_count h + 1)
                                        (hash_memory_usage h + sizeof_PgRedisHashField) h)
     end) ;;
    dst ← palloc_copy (hash_mcxt h) v;
    upd_hash hp (fun h => set_hash (<[field := {| fs_value := dst; fs_value_len := blen v; fs_dirty := true |}]> (fields h))
                                   (field_count h) (hash_memory_usage h + blen v) h) ;;
    mret (negb (bool_decide (is_Some (fields h !! field)))).

(** The pointer into the table, and the length behind it. *)
Definition hash_get (hp : ptr) (field : bytes) : M Heap (option (ptr * Z)) :=
  if PG_REDIS_MAX_FIELD_SIZE <? blen field then mret None
  else
    h ← load_hash hp;
    match fields h !! field with
    | None => mret None
    | Some f => mret (if fs_value f =? NULL then None else Some (fs_value f, fs_value_len f))
    end.

Definition hash_exists (hp : ptr) (field : bytes) : M Heap bool :=
  r ← hash_get hp field; mret (match r with Some _ => true | None => false end).

Definition hash_del (hp : ptr) (field : bytes) : M Heap bool :=
  if PG_REDIS_MAX_FIELD_SIZE <? blen field then mret false
  else
    h ← load_hash hp;
    match fields h !! field with
    | None => mret false
    | Some f =>
        when (negb (fs_value f =? NULL))
          (upd_hash hp (fun h => set_memory (if fs_value_len f <=? hash_memory_usage h
                                             then hash_memory_usage h - fs_value_len f else hash_memory_usage h) h) ;;
           pfree (fs_value f)) ;;
        upd_hash hp (fun h => set_hash (delete field (fields h))
          (if 0 <? field_count h then field_count h - 1 else field_count h)
          (if sizeof_PgRedisHashField <=? hash_memory_usage h
           then hash_memory_usage h - sizeof_PgRedisHashField else hash_memory_usage h) h) ;;
        t ← palloc_struct (hash_mcxt h) sizeof_PgRedisHashTombstone (DTombstone {| t_field := NULL; t_next := NULL |});
        name ← palloc_copy (hash_mcxt h) field;
        h ← load_hash hp;
        put t (DTombstone {| t_field := name; t_next := tombstones h |}) ;;
        upd_hash hp (set_tombstones t) ;;
        mret true
    end.

Fixpoint free_tombstones (fuel : nat) (p : ptr) : M Heap unit :=
  if p =? NULL then mret tt
  else match fuel with
       | O => ereport NO_RESULT
       | S fuel' =>
           t ← load_tombstone p;
           when (negb (t_field t =? NULL)) (pfree (t_field t)) ;;
           pfree p ;;
           free_tombstones fuel' (t_next t)
       end.

(** The scan of the table is in an order of PostgreSQL's. *)
Definition pg_redis_hash_free (hp : ptr) : M Heap unit :=
  if hp =? NULL then mret tt
  else
    fuel ← gets size;
    h ← load_hash hp;
    for_each (map_to_list (fields h)) (fun kf => when (negb (fs_value kf.2 =? NULL)) (pfree (fs_value kf.2))) ;;
    upd_hash hp (fun h => set_hash ∅ (field_count h) (hash_memory_usage h) h) ;;
    free_tombstones fuel (tombstones h) ;;
    upd_hash hp (set_tombstones NULL) ;;
    pfree hp ;;
    mret tt.

(** What [run_flush] does to the hash of an entry (src/persistence.c). *)
Definition settle_hash (hp : ptr) : M Heap unit :=
  fuel ← gets size;
  h ← load_hash hp;
  upd_hash hp (fun h => set_hash ((fun f => {| fs_value := fs_value f; fs_value_len := fs_value_len f; fs_dirty := false |}) <$> fields h)
                                 (field_count h) (hash_memory_usage h) h) ;;
  free_tombstones fuel (tombstones h) ;;
  upd_hash hp (set_tombstones NULL).

Inductive hash_op := Op (o : HashOps.op) | Flush.

(** The error of a name that is too long ends the statement. *)
Definition hset_caught (m : M Heap bool) : M Heap HashOps.reply := fun h =>
  match m h with
  | (Ret b, h') => (Ret (HashOps.RBool b), h')
  | (Raise ERRCODE_PROGRAM_LIMIT_EXCEEDED, h') => (Ret (HashOps.RErr ERRCODE_PROGRAM_LIMIT_EXCEEDED), h')
  | (Raise e, h') => (Raise e, h')
  end.

Definition hash_mem_step (hp : ptr) (o : hash_op) : M Heap (option HashOps.reply) :=
  match o with
  | Op (HashOps.HSET f v) => r ← hset_caught (hash_set hp f v); mret (Some r)
  | Op (HashOps.HGET f) =>
      r ← hash_get hp f;
      match r with
      | None => mret (Some (HashOps.RVal None))
      | Some (p, len) => b ← read_bytes p len; mret (Some (HashOps.RVal (Some b)))
      end
  | Op (HashOps.HDEL f) => b ← hash_del hp f; mret (Some (HashOps.RBool b))
  | Op (HashOps.HEXISTS f) => b ← hash_exists hp f; mret (Some (HashOps.RBool b))
  | Flush => settle_hash hp ;; mret None
  end.

Fixpoint hash_mem_steps (hp : ptr) (os : list hash_op) : M Heap (list (option HashOps.reply)) :=
  match os with
  | [] => mret []
  | o :: os' => r ← hash_mem_step hp o; rs ← hash_mem_steps hp os'; mret (r :: rs)
  end.

(** From creation to the end. *)
Definition hash_lifetime (mcxt : MemoryContext) (os : list hash_op) : M Heap (list (option HashOps.reply)) :=
  hp ← hash_create_in mcxt;
  rs ← hash_mem_steps hp os;
  pg_redis_hash_free hp ;;
  mret rs.
End HashMem.

(** The same operations in HashValue.v. *)
Definition hash_ref_step (o : hash_op) (h : PgRedisHash) : option HashOps.reply * PgRedisHash :=
  match o with
  | Op o => let x := HashOps.impl_step o h in (Some x.1, x.2)
  | Flush => (None, hash_clean h)
  end.
Fixpoint hash_ref_steps (os : list hash_op) (h : PgRedisHash) : list (option HashOps.reply) * PgRedisHash :=
  match os with
  | [] => ([], h)
  | o :: os' => let x := hash_ref_step o h in let y := hash_ref_steps os' x.2 in (x.1 :: y.1, y.2)
  end.

(** ** The cells of a hash *)

(** A value and the chunk it is in. *)
Abbreviation slot := (ptr * PgRedisHashField)%type.
Definition field_struct (x : slot) : FieldS :=
  {| fs_value := x.1; fs_value_len := blen (f_value x.2); fs_dirty := f_dirty x.2 |}.
Definition slot_cell (cx : MemoryContext) (x : slot) : cell := at_ x.1 cx (cstring (f_value x.2)).
Definition slot_cells (cx : MemoryContext) (fs : gmap bytes slot) : list cell :=
  (fun kx : bytes * slot => slot_cell cx kx.2) <$> map_to_list fs.

Record tomb := { tb_ptr : ptr; tb_fptr : ptr; tb_name : bytes }.
Definition tombs_head (ts : list tomb) : ptr := match ts with [] => NULL | t :: _ => tb_ptr t end.
Fixpoint tomb_chain (cx : MemoryContext) (ts : list tomb) : list cell :=
  match ts with
  | [] => []
  | t :: ts' => at_ (tb_ptr t) cx (DTombstone {| t_field := tb_fptr t; t_next := tombs_head ts' |}) ::
                at_ (tb_fptr t) cx (cstring (tb_name t)) :: tomb_chain cx ts'
  end.

Definition hash_struct (cx : MemoryContext) (fs : gmap bytes slot) (ts : list tomb) (h : PgRedisHash) : HashS :=
  {| fields := field_struct <$> fs; field_count := h_field_count h; hash_memory_usage := h_memory_usage h;
     hash_mcxt := cx; tombstones := tombs_head ts |}.

(** The hash [h] is at [hp], and there is [F] beside it. *)
Definition hash_at (cx : MemoryContext) (hp : ptr) (h : PgRedisHash) (F cs : list cell) : Prop :=
  exists fs ts, h_fields h = snd <$> fs /\ h_tombstones h = tb_name <$> ts /\
    cs ≡ₚ at_ hp cx (DHash (hash_struct cx fs ts h)) :: slot_cells cx fs ++ tomb_chain cx ts ++ F.

#[export] Instance hash_at_proper cx hp h F : Proper ((≡ₚ) ==> iff) (hash_at cx hp h F).
Proof. intros cs cs' E. unfold hash_at. by setoid_rewrite E. Qed.

Lemma slot_cells_insert cx fs k x : slot_cells cx (<[k := x]> fs) ≡ₚ slot_cell cx x :: slot_cells cx (delete k fs).
Proof. unfold slot_cells. rewrite <- insert_delete_eq. by rewrite map_to_list_insert by apply lookup_delete_eq. Qed.

Lemma slot_cells_delete cx fs k x :
  fs !! k = Some x -> slot_cells cx fs ≡ₚ slot_cell cx x :: slot_cells cx (delete k fs).
Proof. intros Hk. unfold slot_cells. by rewrite <- (map_to_list_delete fs k x Hk). Qed.

Section Rules.
Context `{Palloc} `{!PallocLaws} (entered : FieldS).

Lemma wp_load_hash {B} p cx h cs cs' (k : HashS -> M Heap B) Q :
  cs ≡ₚ at_ p cx (DHash h) :: cs' -> wp (k h) (at_ p cx (DHash h) :: cs') Q -> wp (load_hash p ≫= k) cs Q.
Proof. intros E Hk. apply wp_assoc. eapply wp_fetch; [exact E|]. by apply wp_mret. Qed.
Lemma wp_load_tombstone {B} p cx t cs cs' (k : TombstoneS -> M Heap B) Q :
  cs ≡ₚ at_ p cx (DTombstone t) :: cs' -> wp (k t) (at_ p cx (DTombstone t) :: cs') Q -> wp (load_tombstone p ≫= k) cs Q.
Proof. intros E Hk. apply wp_assoc. eapply wp_fetch; [exact E|]. by apply wp_mret. Qed.
Lemma wp_upd_hash {B} p f cx h cs cs' (k : unit -> M Heap B) Q :
  cs ≡ₚ at_ p cx (DHash h) :: cs' -> wp (k tt) (at_ p cx (DHash (f h)) :: cs') Q -> wp (upd_hash p f ≫= k) cs Q.
Proof. intros E Hk. apply wp_assoc. eapply wp_load_hash; [exact E|]. by eapply wp_put. Qed.
Lemma wp_room {B} sz cs (k : unit -> M Heap B) Q : wp (k tt) cs Q -> wp (table_room sz ≫= k) cs Q.
Proof.
  intros Hk. apply wp_bind. intros h Hh. unfold table_room. destruct (palloc_answer h sz) as [[p b]|] eqn:E; eauto.
Qed.

Ltac step :=
  cbv beta; cbn [when negb andb];
  lazymatch goal with
  | |- wp ((_ ≫= _) ≫= _) _ _ => apply wp_assoc
  | |- wp (mret _ ≫= _) _ _ => apply wp_mret
  | |- wp (load_hash _ ≫= _) _ _ => eapply wp_load_hash; [pull|]
  | |- wp (load_tombstone _ ≫= _) _ _ => eapply wp_load_tombstone; [pull|]
  | |- wp (upd_hash _ _ ≫= _) _ _ => eapply wp_upd_hash; [pull|]
  | |- wp (table_room _ ≫= _) _ _ => apply wp_room
  | |- wp (put _ _ ≫= _) _ _ => eapply wp_put; [pull|]
  | |- wp (pfree _ ≫= _) _ _ => eapply wp_pfree; [pull|]
  end.

(** The length of a name that is not too long. *)
Definition short (field : bytes) : Prop := (PG_REDIS_MAX_FIELD_SIZE <? blen field) = false.

Lemma wp_hash_set {B} cx hp h field v F cs (k : bool -> M Heap B) Q :
  hash_at cx hp h F cs -> short field ->
  (forall b h' cs', pg_redis_hash_set h field v = Ret (b, h') -> hash_at cx hp h' F cs' -> wp (k b) cs' Q) ->
  wp (hash_set entered hp field v ≫= k) cs Q.
Proof.
  intros (fs & ts & Hf & Ht & E) Hs Hk. unfold hash_set, pg_redis_hash_set in *. rewrite Hs in *.
  rewrite Hf, lookup_fmap in Hk. eapply wp_perm; [exact E|]. clear E. do 2 step. cbn [fields hash_struct hash_mcxt].
  rewrite lookup_fmap. destruct (fs !! field) as [x|] eqn:Ex; cbn [fmap option_fmap option_map] in *.
  - eapply wp_perm; [by rewrite (slot_cells_delete _ _ _ _ Ex)|]. apply wp_nonnull. intros Hnn.
    cbn [fs_value field_struct]. rewrite (proj2 (Z.eqb_neq x.1 NULL)) by (eapply nonnull_in; [exact Hnn|unfold slot_cell; pull]).
    cbn [app]. repeat step. apply wp_copy. intros dst _. repeat step. eapply Hk; [reflexivity|].
    exists (<[field := (dst, {| f_value := v; f_dirty := true |})]> fs), ts. split; [cbn; by rewrite fmap_insert|]. split; [done|].
    unfold hash_struct. rewrite fmap_insert, slot_cells_insert. cells.
  - repeat step. apply wp_copy. intros dst _. repeat step. eapply Hk; [reflexivity|].
    exists (<[field := (dst, {| f_value := v; f_dirty := true |})]> fs), ts. split; [cbn; by rewrite fmap_insert|]. split; [done|].
    unfold hash_struct. rewrite fmap_insert, slot_cells_insert, delete_id by done. cbn. rewrite insert_insert_eq. cells.
Qed.

Lemma wp_hash_get {B} cx hp h field F cs (k : option (ptr * Z) -> M Heap B) Q :
  hash_at cx hp h F cs ->
  (forall cs', hash_at cx hp h F cs' ->
     match pg_redis_hash_get h field with
     | None => wp (k None) cs' Q
     | Some v => forall p cs1, cs' ≡ₚ at_ p cx (cstring v) :: cs1 -> wp (k (Some (p, blen v))) cs' Q
     end) ->
  wp (hash_get hp field ≫= k) cs Q.
Proof.
  intros Hh Hk. pose proof (Hk cs Hh) as Hk0. revert Hk0. destruct Hh as (fs & ts & Hf & Ht & E).
  unfold hash_get, pg_redis_hash_get. destruct (PG_REDIS_MAX_FIELD_SIZE <? blen field); [by intros; apply wp_mret|].
  rewrite Hf, lookup_fmap. intros Hk0. eapply wp_perm; [exact E|]. do 2 step. cbn [fields hash_struct]. rewrite lookup_fmap.
  destruct (fs !! field) as [x|] eqn:Ex; cbn [fmap option_fmap option_map] in *; [|apply wp_mret; by eapply wp_perm].
  rewrite (slot_cells_delete _ _ _ _ Ex) in E. apply wp_nonnull. intros Hnn. rewrite (slot_cells_delete _ _ _ _ Ex) in Hnn.
  cbn [fs_value field_struct fs_value_len]. rewrite (proj2 (Z.eqb_neq x.1 NULL)) by (eapply nonnull_in; [exact Hnn|unfold slot_cell; pull]).
  apply wp_mret. eapply wp_perm; [|eapply Hk0; rewrite E; unfold slot_cell; pull]. rewrite E. by rewrite (slot_cells_delete _ _ _ _ Ex).
Qed.

Lemma wp_hash_del {B} cx hp h field F cs (k : bool -> M Heap B) Q :
  hash_at cx hp h F cs ->
  (forall cs', hash_at cx hp (pg_redis_hash_del h field).2 F cs' -> wp (k (pg_redis_hash_del h field).1) cs' Q) ->
  wp (hash_del hp field ≫= k) cs Q.
Proof.
  intros Hh Hk. pose proof Hh as (fs & ts & Hf & Ht & E). unfold hash_del, pg_redis_hash_del in *.
  destruct (PG_REDIS_MAX_FIELD_SIZE <? blen field); [by apply wp_mret, Hk|].
  rewrite Hf, lookup_fmap in Hk. eapply wp_perm; [exact E|]. do 2 step. cbn [fields hash_struct hash_mcxt]. rewrite lookup_fmap.
  destruct (fs !! field) as [x|] eqn:Ex; cbn [fmap option_fmap option_map fst snd] in *; [|apply wp_mret, Hk; by rewrite <- E].
  eapply wp_perm; [by rewrite (slot_cells_delete _ _ _ _ Ex)|]. apply wp_nonnull. intros Hnn.
  cbn [fs_value field_struct]. rewrite (proj2 (Z.eqb_neq x.1 NULL)) by (eapply nonnull_in; [exact Hnn|unfold slot_cell; pull]).
  cbn [app]. repeat step. apply wp_struct. intros t _. step. apply wp_copy. intros name _. repeat step. eapply Hk.
  exists (delete field fs), ({| tb_ptr := t; tb_fptr := name; tb_name := field |} :: ts).
  split; [cbn; by rewrite fmap_delete|]. split; [cbn; by rewrite Ht|].
  unfold hash_struct. rewrite fmap_delete. cbn [tomb_chain tombs_head app]. cells.
Qed.
Lemma wp_free_tombstones {B} cx ts : forall fuel cs cs' (k : unit -> M Heap B) Q,
  (length ts <= fuel)%nat -> cs ≡ₚ tomb_chain cx ts ++ cs' -> wp (k tt) cs' Q ->
  wp (free_tombstones fuel (tombs_head ts) ≫= k) cs Q.
Proof.
  induction ts as [|t ts IH]; intros fuel cs cs' k Q Hf E Hk; (eapply wp_perm; [exact E|]).
  { destruct fuel; cbn; by apply wp_mret. }
  destruct fuel as [|fuel]; cbn in Hf; [lia|]. apply wp_nonnull. intros Hnn. cbn [tomb_chain app] in *.
  cbn [tombs_head free_tombstones]. rewrite (proj2 (Z.eqb_neq (tb_ptr t) NULL)) by (eapply nonnull_in; [exact Hnn|pull]).
  do 3 step. cbn [t_field]. rewrite (proj2 (Z.eqb_neq (tb_fptr t) NULL)) by (eapply nonnull_in; [exact Hnn|pull]).
  repeat step. by eapply IH; [lia|reflexivity|].
Qed.

(** The loop over the values. *)
Lemma wp_free_values {B} cx (l : list (bytes * slot)) : forall cs cs' (k : unit -> M Heap B) Q,
  cs ≡ₚ ((fun kx : bytes * slot => slot_cell cx kx.2) <$> l) ++ cs' -> wp (k tt) cs' Q ->
  wp (for_each (prod_map id field_struct <$> l) (fun kf => when (negb (fs_value kf.2 =? NULL)) (pfree (fs_value kf.2))) ≫= k) cs Q.
Proof.
  induction l as [|[f x] l IH]; intros cs cs' k Q E Hk; (eapply wp_perm; [exact E|]); [by apply wp_mret|].
  apply wp_nonnull. intros Hnn. cbn in Hnn |- *. rewrite (proj2 (Z.eqb_neq x.1 NULL)) by set_solver.
  step. eapply (wp_pfree x.1); [unfold slot_cell; cbn [snd]; pull|]. by eapply IH.
Qed.

Lemma tomb_chain_length cx ts : length (tomb_chain cx ts) = (2 * length ts)%nat.
Proof. induction ts as [|t ts IH]; [done|]. cbn. rewrite IH. lia. Qed.

Lemma tomb_fuel cx hp d fs ts (F : list cell) :
  (length ts <= length (at_ hp cx d :: slot_cells cx fs ++ tomb_chain cx ts ++ F))%nat.
Proof. cbn. rewrite !length_app, tomb_chain_length. lia. Qed.

Lemma wp_hash_free {B} cx hp h F cs (k : unit -> M Heap B) Q :
  hash_at cx hp h F cs -> wp (k tt) F Q -> wp (pg_redis_hash_free hp ≫= k) cs Q.
Proof.
  intros (fs & ts & Hf & Ht & E) Hk. eapply wp_perm; [exact E|]. unfold pg_redis_hash_free. apply wp_nonnull. intros Hnn.
  rewrite (proj2 (Z.eqb_neq hp NULL)) by (eapply nonnull_in; [exact Hnn|pull]). step. apply wp_size.
  pose proof (tomb_fuel cx hp (DHash (hash_struct cx fs ts h)) fs ts F) as Hfuel.
  set (fuel := length _) in *. do 3 step. cbn [fields tombstones hash_struct]. rewrite map_to_list_fmap.
  eapply wp_free_values; [block|]. repeat step.
  eapply wp_free_tombstones; [exact Hfuel|block|]. repeat step. exact Hk.
Qed.

Lemma wp_settle_hash {B} cx hp h F cs (k : unit -> M Heap B) Q :
  hash_at cx hp h F cs -> (forall cs', hash_at cx hp (hash_clean h) F cs' -> wp (k tt) cs' Q) ->
  wp (settle_hash hp ≫= k) cs Q.
Proof.
  intros (fs & ts & Hf & Ht & E) Hk. eapply wp_perm; [exact E|]. unfold settle_hash. step. apply wp_size.
  pose proof (tomb_fuel cx hp (DHash (hash_struct cx fs ts h)) fs ts F) as Hfuel.
  set (fuel := length _) in *. repeat step. cbn [tombstones hash_struct].
  eapply wp_free_tombstones; [exact Hfuel|block|]. repeat step.
  apply Hk. exists ((fun x : slot => (x.1, {| f_value := f_value x.2; f_dirty := false |})) <$> fs), [].
  split; [cbn; rewrite Hf; apply map_eq; intros f; rewrite !lookup_fmap; by destruct (fs !! f)|]. split; [done|].
  unfold hash_struct, slot_cells. cbn. rewrite <- !map_fmap_compose, map_to_list_fmap, <- list_fmap_compose.
  cbn [tomb_chain tombs_head app]. cells.
Qed.

Lemma wp_hash_create {B} cx F (k : ptr -> M Heap B) Q :
  (forall hp cs, hash_at cx hp pg_redis_hash_create_in F cs -> wp (k hp) cs Q) -> wp (hash_create_in cx ≫= k) F Q.
Proof.
  intros Hk. apply wp_assoc, wp_struct. intros hp _. apply wp_assoc, wp_room, wp_mret, Hk. exists ∅, [].
  split; [by rewrite fmap_empty|]. split; [done|]. unfold hash_struct, slot_cells. by rewrite map_to_list_empty, fmap_empty.
Qed.

Lemma wp_hset_caught {B} (m : M Heap bool) cs (k : HashOps.reply -> M Heap B) Q :
  wp (m ≫= (fun b => k (HashOps.RBool b))) cs Q -> wp (hset_caught m ≫= k) cs Q.
Proof.
  intros Hw h Hh. specialize (Hw h Hh). revert Hw. rewrite !bind_unfold. unfold hset_caught.
  destruct (m h) as [[b|e] h']; intros Hw; [exact Hw|]. by destruct Hw as [-> Hw].
Qed.

Lemma wp_hash_step {B} cx hp o h F cs (k : option HashOps.reply -> M Heap B) Q :
  hash_at cx hp h F cs ->
  (forall cs', hash_at cx hp (hash_ref_step o h).2 F cs' -> wp (k (hash_ref_step o h).1) cs' Q) ->
  wp (hash_mem_step entered hp o ≫= k) cs Q.
Proof.
  intros Hh Hk. destruct o as [[f v|f|f|f]|]; cbn [hash_mem_step hash_ref_step HashOps.impl_step] in *; apply wp_assoc.
  - destruct (PG_REDIS_MAX_FIELD_SIZE <? blen f) eqn:Es.
    { unfold pg_redis_hash_set in Hk. rewrite Es in Hk. intros h0 Hh0. rewrite bind_unfold. unfold hset_caught, hash_set.
      rewrite Es. cbn [ereport]. rewrite bind_mret. by apply (Hk cs). }
    eapply wp_hset_caught, wp_hash_set; [done|done|]. intros b h' cs' E Hc. rewrite E in Hk. by apply wp_mret, Hk.
  - eapply wp_hash_get; [done|]. intros cs' Hc. destruct (pg_redis_hash_get h f) as [v|]; [|by apply wp_mret, Hk].
    intros p cs1 E. apply wp_assoc. eapply wp_read; [exact E|unfold blen; rewrite length_app; lia|].
    unfold blen. rewrite Nat2Z.id, take_app_length. apply wp_mret, Hk. by rewrite <- E.
  - eapply wp_hash_del; [done|]. intros cs' Hc. apply wp_mret. destruct (pg_redis_hash_del h f). by apply Hk.
  - unfold hash_exists, pg_redis_hash_exists in *. apply wp_assoc. eapply wp_hash_get; [done|]. intros cs' Hc.
    destruct (pg_redis_hash_get h f) as [v|]; [intros p cs1 E|]; by apply wp_mret, wp_mret, Hk.
  - eapply wp_settle_hash; [done|]. intros cs' Hc. by apply wp_mret, Hk.
Qed.

Lemma wp_hash_steps {B} cx hp os : forall h F cs (k : list (option HashOps.reply) -> M Heap B) Q,
  hash_at cx hp h F cs ->
  (forall cs', hash_at cx hp (hash_ref_steps os h).2 F cs' -> wp (k (hash_ref_steps os h).1) cs' Q) ->
  wp (hash_mem_steps entered hp os ≫= k) cs Q.
Proof.
  induction os as [|o os IH]; intros h F cs k Q Hh Hk; cbn [hash_mem_steps hash_ref_steps] in *; [by apply wp_mret, Hk|].
  apply wp_assoc. eapply wp_hash_step; [done|]. intros cs' Hc. apply wp_assoc.
  eapply IH; [done|]. intros cs1 Hc1. by apply wp_mret, Hk.
Qed.
End Rules.

(** ** Theorems *)

(** C16: Hashes in memory are the hashes of the model, and are cleaned up.
    Whatever the allocator answers, and whatever a new entry of the nested table
    holds at first, a hash created in either context, with fields set, read,
    deleted and flushed in any order and then freed, gives the replies of
    HashValue.v without ever following NULL or a freed pointer or writing past a
    chunk, and leaves the heap exactly as it was.  The only error besides that of
    a name that is too long is that of an allocation that was refused. *)
Theorem hash_memory_refines `{Palloc} `{!PallocLaws} (entered : FieldS) (mcxt : MemoryContext) (os : list hash_op) (h : Heap) :
  h !! NULL = None ->
  match hash_lifetime entered mcxt os h with
  | (Ret rs, h') => rs = (hash_ref_steps os pg_redis_hash_create_in).1 /\ h' = h
  | (Raise e, _) => e = ERRCODE_OUT_OF_MEMORY /\ exists h' sz, palloc_answer h' sz = None
  end.
Proof.
  intros Hn. pose proof (owns_heap h Hn) as Ho.
  assert (Hw : wp (hash_lifetime entered mcxt os) (map_to_list h) (fun rs cs =>
    rs = (hash_ref_steps os pg_redis_hash_create_in).1 /\ cs = map_to_list h)).
  { apply wp_hash_create. intros hp cs Hh. eapply wp_hash_steps; [done|]. intros cs' Hh'.
    eapply wp_hash_free; [done|]. by apply wp_ret. }
  specialize (Hw h Ho). destruct (hash_lifetime entered mcxt os h) as [[rs|e] h']; [|done].
  destruct Hw as (cs & Hc & -> & ->). split; [done|]. by rewrite (ow_heap _ _ Hc), list_to_map_to_list.
Qed.

Definition no_entry : FieldS := {| fs_value := NULL; fs_value_len := 0; fs_dirty := false |}.
Definition demo_hash_ops : list hash_op :=
  [Op (HashOps.HSET (bs "f") (bs "one")); Op (HashOps.HSET (bs "g") (bs "")); Flush; Op (HashOps.HSET (bs "f") (bs "two"));
   Op (HashOps.HGET (bs "f")); Op (HashOps.HDEL (bs "g")); Op (HashOps.HEXISTS (bs "g"))].

Lemma hash_memory_refines_witness :
  @hash_lifetime (first_fit []) no_entry PgRedisMemoryContext demo_hash_ops ∅ =
  (Ret [Some (HashOps.RBool true); Some (HashOps.RBool true); None; Some (HashOps.RBool false);
        Some (HashOps.RVal (Some (bs "two"))); Some (HashOps.RBool true); Some (HashOps.RBool false)], ∅).
Proof.
  pose proof (@hash_memory_refines (first_fit []) (first_fit_laws []) no_entry PgRedisMemoryContext demo_hash_ops ∅ eq_refl) as Hm.
  assert (Hr : (@hash_lifetime (first_fit []) no_entry PgRedisMemoryContext demo_hash_ops ∅).1 <> Raise ERRCODE_OUT_OF_MEMORY)
    by (vm_compute; done).
  destruct (@hash_lifetime (first_fit []) no_entry PgRedisMemoryContext demo_hash_ops ∅) as [[rs|e] h']; cbn [fst] in *.
  - destruct Hm as (-> & ->). reflexivity.
  - by destruct Hm as [-> _].
Defined.

