(* ===== verification/StoreInterface.v ===== *)
(** * What the keyspace promises to the commands

    kv_store.h offers the commands one set of entry points, which dispatch on
    [pg_redis_storage_is_shared()] to the per-backend table or to the shared
    keyspace.  [StoreOps] is that set of entry points; an instance is one
    storage mode.  [Ref] is the [PgRedisEntry *] a lookup hands out: in session
    mode a pointer into the table, in shared mode a pointer to a private
    scratch copy.  [StoreLaws] states what the commands rely on. *)
From S2P Require Import Prelude Types ListValue HashValue.

(** ** The value a key stands for *)

Inductive AVal :=
| AString (s : option bytes)
| AInt (i : Z)
| AHash (m : gmap bytes bytes)
| AList (q : list bytes).

Record AEntry := { a_val : AVal; a_expire : option Z }.

Definition val_view (v : PgRedisValue) : AVal :=
  match v with
  | VString s => AString s
  | VInt i => AInt i
  | VHash h => AHash (from_option hash_view ∅ h)
  | VList l => AList (from_option Deque.items [] l)
  end.

Definition entry_view (e : PgRedisEntry) : AEntry :=
  {| a_val := val_view (e_value e);
     a_expire := if e_has_expire e then Some (e_expire_at e) else None |}.

Definition a_type (a : AEntry) : PgRedisValueType :=
  match a_val a with
  | AString _ => PG_REDIS_TYPE_STRING
  | AInt _ => PG_REDIS_TYPE_INT
  | AHash _ => PG_REDIS_TYPE_HASH
  | AList _ => PG_REDIS_TYPE_LIST
  end.

Definition a_expired (now : Z) (a : AEntry) : bool :=
  match a_expire a with None => false | Some t => t <=? now end.

(** Substructures are present and well formed, and an int is an int64. *)
Definition value_wf (v : PgRedisValue) : Prop :=
  match v with
  | VString _ => True
  | VInt i => is_i64 i
  | VHash h => from_option hash_wf False h
  | VList l => from_option list_wf False l
  end.
Definition entry_wf (e : PgRedisEntry) : Prop := value_wf (e_value e).

Lemma e_type_view e : a_type (entry_view e) = e_type e.
Proof. unfold a_type, e_type, entry_view. simpl. by destruct (e_value e). Qed.

(** ** Outcomes of the shared-mode hash fast paths (src/shared_store.h) *)

Inductive PgRedisFastHashOutcome :=
| PG_REDIS_FAST_HASH_HIT (value : bytes)
| PG_REDIS_FAST_HASH_FIELD_MISS
| PG_REDIS_FAST_HASH_KEY_MISS
| PG_REDIS_FAST_HASH_KEY_EXPIRED
| PG_REDIS_FAST_HASH_WRONGTYPE (actual : PgRedisValueType).

Inductive PgRedisFastHashMutateOutcome :=
| PG_REDIS_FAST_HASH_MUTATE_OK_NEW
| PG_REDIS_FAST_HASH_MUTATE_OK_OVERWRITE
| PG_REDIS_FAST_HASH_MUTATE_OK_DELETED
| PG_REDIS_FAST_HASH_MUTATE_NOOP
| PG_REDIS_FAST_HASH_MUTATE_KEY_EXPIRED
| PG_REDIS_FAST_HASH_MUTATE_WRONGTYPE (actual : PgRedisValueType).

Record FastHashOps (St : Type) := {
  fast_lookup_field : bytes -> bytes -> bool -> M St PgRedisFastHashOutcome;
  fast_set_atomic : bytes -> bytes -> bytes -> M St PgRedisFastHashMutateOutcome;
  fast_del_atomic : bytes -> bytes -> M St PgRedisFastHashMutateOutcome
}.
Arguments fast_lookup_field {St}.
Arguments fast_set_atomic {St}.
Arguments fast_del_atomic {St}.

(** ** Operations *)

Class StoreOps (St Ref : Type) := {
  op_now : M St Z;                              (* GetCurrentTimestamp *)
  op_ensure_loaded : M St unit;
  op_lookup_raw : bytes -> M St (option Ref);
  op_upsert : bytes -> M St (Ref * bool);       (* entry, is_new *)
  op_remove : bytes -> M St bool;
  op_read : Ref -> M St PgRedisEntry;           (* *e *)
  op_write : Ref -> PgRedisEntry -> M St unit;  (* *e = ... *)
  op_mark_dirty : Ref -> M St unit;
  op_fast_hash : option (FastHashOps St)        (* Some in shared mode *)
}.

(** The entry an upsert creates. *)
Definition fresh_entry : PgRedisEntry :=
  {| e_value := VString None; e_expire_at := 0; e_has_expire := false; e_dirty := false;
     e_deleted := false; e_in_dirty_set := false; e_version := 1 |}.

Definition fresh_aentry : AEntry := entry_view fresh_entry.

(** ** Steps of a value

    How a command may change the value behind an entry pointer.  A collection
    changes by recording exact deltas; a collection is created, from nothing
    but deltas, only where [create_ok] holds (no rows are left under the key). *)

Definition scalar (v : PgRedisValue) : Prop :=
  match v with VString _ | VInt _ => True | VHash _ | VList _ => False end.

Inductive value_step (create_ok : Prop) : PgRedisValue -> PgRedisValue -> Prop :=
| step_same v : value_step create_ok v v
| step_scalar v v' : scalar v' -> value_step create_ok v v'
| step_hash h h' : (forall rows, hash_synced rows h -> hash_synced rows h') ->
    value_step create_ok (VHash (Some h)) (VHash (Some h'))
| step_list l l' : (forall rows, list_synced rows l -> list_synced rows l') ->
    value_step create_ok (VList (Some l)) (VList (Some l'))
| step_new_hash v h' : create_ok -> scalar v -> hash_synced ∅ h' ->
    value_step create_ok v (VHash (Some h'))
| step_new_list v l' : create_ok -> scalar v -> list_synced ∅ l' ->
    value_step create_ok v (VList (Some l')).

(** ** Laws

    [view s] is the keyspace, [refs s r] the key and the current contents
    behind a handed-out pointer, [clk] and [ticks] the clock and the number of
    its readings so far.  [st_open s k] is the state between a command's first
    change to the entry of [k] and its [mark_dirty]: everything holds but the
    bookkeeping of that entry. *)
Class StoreLaws (St Ref : Type) `{StoreOps St Ref} := {
  st_inv : St -> Prop;
  st_open : St -> bytes -> Prop;
  may_create : St -> bytes -> Prop;
  view : St -> gmap bytes AEntry;
  ticks : St -> nat;
  clk : nat -> Z;
  refs : St -> Ref -> option (bytes * PgRedisEntry);

  law_open s k : st_inv s -> st_open s k;
  law_now s : st_inv s -> exists s',
    op_now s = (Ret (clk (ticks s)), s') /\ st_inv s' /\ view s' = view s /\
    refs s' = refs s /\ ticks s' = S (ticks s) /\
    (forall k, may_create s k -> may_create s' k);
  law_loaded s : st_inv s -> op_ensure_loaded s = (Ret tt, s);
  law_lookup_none k s : st_inv s -> view s !! k = None -> exists s',
    op_lookup_raw k s = (Ret None, s') /\ st_inv s' /\ view s' = view s /\
    ticks s' = ticks s;
  law_lookup_some k s a : st_inv s -> view s !! k = Some a -> exists r e s',
    op_lookup_raw k s = (Ret (Some r), s') /\ st_inv s' /\ view s' = view s /\
    ticks s' = ticks s /\ refs s' r = Some (k, e) /\ entry_view e = a /\ entry_wf e;
  law_upsert k s : st_inv s -> k <> [] -> exists r e is_new s',
    op_upsert k s = (Ret (r, is_new), s') /\
    st_open s' k /\ refs s' r = Some (k, e) /\ entry_wf e /\
    (may_create s k -> may_create s' k) /\
    delete k (view s') = delete k (view s) /\
    ticks s' = (ticks s + if (view s !! k ≫= a_expire : option Z) then 1 else 0)%nat /\
    match view s !! k with
    | Some a => if a_expired (clk (ticks s)) a
                then is_new = true /\ entry_view e = fresh_aentry
                else is_new = false /\ entry_view e = a /\ view s' !! k = Some a /\ st_inv s'
    | None => is_new = true /\ entry_view e = fresh_aentry
    end;
  law_remove k s : st_inv s -> exists s',
    op_remove k s = (Ret (bool_decide (is_Some (view s !! k))), s') /\
    st_inv s' /\ view s' = delete k (view s) /\ ticks s' = ticks s;
  law_read r k e s : st_open s k -> refs s r = Some (k, e) -> op_read r s = (Ret e, s);
  (** Publishing a mutated entry makes exactly that key show the new value. *)
  law_publish r k e e' s : st_open s k -> refs s r = Some (k, e) ->
    entry_wf e' -> e_in_dirty_set e' = e_in_dirty_set e ->
    value_step (may_create s k) (e_value e) (e_value e') -> exists s',
    (op_write r e' ;; op_mark_dirty r) s = (Ret tt, s') /\ st_inv s' /\
    view s' = <[k := entry_view e']> (view s) /\ ticks s' = ticks s
}.

(** A store whose pointers are the keyspace itself: a write through one is
    seen by the next lookup, before any [mark_dirty], and hash commands have no
    separate path.  The per-backend table is one; the shared keyspace, which
    hands out scratch copies, is not. *)
Class DirectStore (St Ref : Type) `{StoreLaws St Ref} := {
  direct_no_fast : op_fast_hash = None;
  direct_write r k e e' s : st_open s k -> refs s r = Some (k, e) ->
    entry_wf e' -> e_in_dirty_set e' = e_in_dirty_set e ->
    value_step (may_create s k) (e_value e) (e_value e') -> exists s',
    op_write r e' s = (Ret tt, s') /\ st_open s' k /\ refs s' r = Some (k, e') /\
    view s' = <[k := entry_view e']> (view s) /\ ticks s' = ticks s;
  direct_lookup k s a : st_open s k -> view s !! k = Some a -> exists r e s',
    op_lookup_raw k s = (Ret (Some r), s') /\ st_open s' k /\ view s' = view s /\
    ticks s' = ticks s /\ refs s' r = Some (k, e);
  direct_mark r k e s : st_open s k -> refs s r = Some (k, e) -> exists s',
    op_mark_dirty r s = (Ret tt, s') /\ st_inv s' /\ view s' = view s /\ ticks s' = ticks s
}.
