(* ===== verification/KvStore.v ===== *)
(** * The per-backend keyspace (src/kv_store.c, session mode)

    The dynahash table is a finite map from keys; a slot does not move while
    its key is present, so the key stands for the entry pointer.  The dirty
    chain (linked through [dirty_next]) and the pending-delete chain are lists,
    head first.  [GetCurrentTimestamp()] is the argument [now]. *)
From S2P Require Import Prelude Types ListValue HashValue StoreInterface.

Record KvState := {
  htab : gmap bytes PgRedisEntry;
  dirty_head : list bytes;
  pending_deletes_head : list bytes
}.

Definition kv_empty : KvState := {| htab := ∅; dirty_head := []; pending_deletes_head := [] |}.

(** ttl.c: [pg_redis_entry_is_expired]. *)
Definition pg_redis_entry_is_expired (now : Z) (e : PgRedisEntry) : bool :=
  if negb (e_has_expire e) then false else e_expire_at e <=? now.

(** [pg_redis_store_reset]: drop everything, both chains included. *)
Definition pg_redis_store_reset (kv : KvState) : KvState := kv_empty.

Definition pg_redis_entry_release_value (e : PgRedisEntry) (also_reset_meta : bool) : PgRedisEntry :=
  let e' := set_value (VString None) e in
  if also_reset_meta
  then set_version 0 (set_deleted false (set_dirty false (set_expire false 0 e')))
  else e'.

Definition pg_redis_store_lookup_raw (key : bytes) (kv : KvState) : option PgRedisEntry :=
  htab kv !! key.

Definition set_htab (t : gmap bytes PgRedisEntry) (kv : KvState) : KvState :=
  {| htab := t; dirty_head := dirty_head kv; pending_deletes_head := pending_deletes_head kv |}.

Definition pg_redis_store_upsert (now : Z) (key : bytes) (kv : KvState) : bool * KvState :=
  match htab kv !! key with
  | None => (true, set_htab (<[key := fresh_entry]> (htab kv)) kv)
  | Some e =>
      if pg_redis_entry_is_expired now e
      then (true, set_htab (<[key := set_version 1 (pg_redis_entry_release_value e true)]> (htab kv)) kv)
      else (false, kv)
  end.

(** Unlink one entry from the dirty chain. *)
Fixpoint unlink (key : bytes) (chain : list bytes) : list bytes :=
  match chain with
  | [] => []
  | k :: chain' => if decide (k = key) then chain' else k :: unlink key chain'
  end.

(** [pg_redis_mark_deleted], in a mode whose effective persistence is not
    [async_table] (session storage never is: [Utils.session_never_async]). *)
Definition pg_redis_mark_deleted (key : bytes) (kv : KvState) : KvState :=
  match key with
  | [] => kv
  | _ => {| htab := htab kv; dirty_head := dirty_head kv;
            pending_deletes_head := key :: pending_deletes_head kv |}
  end.

Definition pg_redis_store_remove (key : bytes) (kv : KvState) : bool * KvState :=
  match htab kv !! key with
  | None => (false, kv)
  | Some e =>
      let chain := if e_in_dirty_set e then unlink key (dirty_head kv) else dirty_head kv in
      let kv1 := {| htab := htab kv; dirty_head := chain;
                    pending_deletes_head := pending_deletes_head kv |} in
      let kv2 := pg_redis_mark_deleted key kv1 in
      (true, set_htab (delete key (htab kv2)) kv2)
  end.

(** [pg_redis_mark_dirty] on the entry of [key]: idempotent insertion at the
    head of the chain. *)
Definition pg_redis_mark_dirty (key : bytes) (kv : KvState) : KvState :=
  match htab kv !! key with
  | None => kv
  | Some e =>
      if e_in_dirty_set e then kv
      else {| htab := <[key := set_dirty true (set_in_dirty_set true e)]> (htab kv);
              dirty_head := key :: dirty_head kv;
              pending_deletes_head := pending_deletes_head kv |}
  end.

Definition pg_redis_dirty_head_take (kv : KvState) : list bytes * KvState :=
  (dirty_head kv, {| htab := htab kv; dirty_head := [];
                     pending_deletes_head := pending_deletes_head kv |}).

(** Clear [in_dirty_set] along the chain and drop it. *)
Definition pg_redis_dirty_clear (kv : KvState) : KvState :=
  {| htab := foldr (fun k t => alter (set_in_dirty_set false) k t) (htab kv) (dirty_head kv);
     dirty_head := []; pending_deletes_head := pending_deletes_head kv |}.

Definition pg_redis_pending_deletes_take (kv : KvState) : list bytes * KvState :=
  (pending_deletes_head kv, {| htab := htab kv; dirty_head := dirty_head kv;
                               pending_deletes_head := [] |}).

Definition pg_redis_pending_deletes_clear (kv : KvState) : KvState :=
  {| htab := htab kv; dirty_head := dirty_head kv; pending_deletes_head := [] |}.

Definition pg_redis_type_name (t : PgRedisValueType) : bytes :=
  match t with
  | PG_REDIS_TYPE_STRING => bs "string"
  | PG_REDIS_TYPE_INT => bs "int"
  | PG_REDIS_TYPE_HASH => bs "hash"
  | PG_REDIS_TYPE_LIST => bs "list"
  end.

Definition pg_redis_type_from_name (name : option bytes) : option PgRedisValueType :=
  match name with
  | None => None
  | Some n =>
      if decide (n = bs "string") then Some PG_REDIS_TYPE_STRING
      else if decide (n = bs "int") then Some PG_REDIS_TYPE_INT
      else if decide (n = bs "hash") then Some PG_REDIS_TYPE_HASH
      else if decide (n = bs "list") then Some PG_REDIS_TYPE_LIST
      else None
  end.

(** [sizeof(PgRedisEntry)] on LP64. *)
Definition sizeof_PgRedisEntry : Z := 1088.

Definition value_memory (v : PgRedisValue) : Z :=
  match v with
  | VString s => blen (default [] s)
  | VInt _ => 0
  | VHash h => pg_redis_hash_memory h
  | VList l => pg_redis_list_memory l
  end.

Definition pg_redis_store_memory_usage (kv : KvState) : Z :=
  map_fold (fun _ e total => total + sizeof_PgRedisEntry + value_memory (e_value e)) 0 (htab kv).

Definition pg_redis_store_count (kv : KvState) : Z := Z.of_nat (size (htab kv)).

Record PgRedisStoreStats := {
  key_count : Z; string_count : Z; int_count : Z; hash_count : Z; list_count : Z;
  expiring_count : Z; memory_usage : Z
}.

Definition pg_redis_store_collect_stats (kv : KvState) : PgRedisStoreStats :=
  map_fold (fun _ e out =>
    let one t := if decide (e_type e = t) then 1 else 0 in
    {| key_count := key_count out + 1;
       string_count := string_count out + one PG_REDIS_TYPE_STRING;
       int_count := int_count out + one PG_REDIS_TYPE_INT;
       hash_count := hash_count out + one PG_REDIS_TYPE_HASH;
       list_count := list_count out + one PG_REDIS_TYPE_LIST;
       expiring_count := expiring_count out + (if e_has_expire e then 1 else 0);
       memory_usage := memory_usage out + (sizeof_PgRedisEntry + value_memory (e_value e)) |})
    {| key_count := 0; string_count := 0; int_count := 0; hash_count := 0; list_count := 0;
       expiring_count := 0; memory_usage := 0 |} (htab kv).

(** ** Invariant of the dirty set *)

Record kv_wf (kv : KvState) : Prop := {
  kw_nodup : NoDup (dirty_head kv);
  (** The chain and the membership flags agree: no dangling link, no entry
      flagged without being linked. *)
  kw_chain : forall k, k ∈ dirty_head kv <->
    exists e, htab kv !! k = Some e /\ e_in_dirty_set e = true;
  kw_entries : forall k e, htab kv !! k = Some e -> entry_wf e
}.

Lemma kv_empty_wf : kv_wf kv_empty.
Proof.
  split; simpl; [constructor| |]; intros k; [|by intros e; rewrite lookup_empty].
  split; [set_solver|]. intros (e & H & _). by rewrite lookup_empty in H.
Qed.

Lemma unlink_not_in k chain : NoDup chain -> k ∉ unlink k chain.
Proof.
  induction 1 as [|x chain Hx _ IH]; simpl; [set_solver|].
  case_decide; [by subst|]. set_solver.
Qed.

Lemma elem_of_unlink k k' chain : NoDup chain -> k' ∈ unlink k chain <-> k' ∈ chain /\ k' <> k.
Proof.
  induction 1 as [|x chain Hx _ IH]; simpl; [set_solver|].
  case_decide; [subst; set_solver|]. set_solver.
Qed.

Lemma unlink_NoDup k chain : NoDup chain -> NoDup (unlink k chain).
Proof.
  induction 1 as [|x chain Hx Hnd IH]; simpl; [constructor|].
  case_decide; [done|]. constructor; [|done]. rewrite elem_of_unlink by done. naive_solver.
Qed.

Lemma kv_wf_insert_keep kv k e e' :
  kv_wf kv -> htab kv !! k = Some e -> e_in_dirty_set e' = e_in_dirty_set e -> entry_wf e' ->
  kv_wf (set_htab (<[k := e']> (htab kv)) kv).
Proof.
  intros [Hnd Hc He] Hk Hf Hwf. split; simpl; [done| |].
  - intros k'. rewrite Hc, lookup_insert. case_decide; [subst k'|done]. rewrite Hk. naive_solver.
  - intros k' e0. rewrite lookup_insert. case_decide; [by intros [= <-]|apply He].
Qed.

Lemma kv_wf_insert_new kv k :
  kv_wf kv -> htab kv !! k = None -> kv_wf (set_htab (<[k := fresh_entry]> (htab kv)) kv).
Proof.
  intros [Hnd Hc He] Hk. split; simpl; [done| |].
  - intros k'. rewrite Hc, lookup_insert. case_decide; [subst k'|done]. rewrite Hk. naive_solver.
  - intros k' e0. rewrite lookup_insert. case_decide; [by intros [= <-]|apply He].
Qed.

Lemma upsert_wf now k kv : kv_wf kv -> kv_wf (pg_redis_store_upsert now k kv).2.
Proof.
  intros Hwf. unfold pg_redis_store_upsert. destruct (htab kv !! k) as [e|] eqn:E.
  - destruct (pg_redis_entry_is_expired now e); [|done]. by eapply kv_wf_insert_keep.
  - by apply kv_wf_insert_new.
Qed.

Lemma mark_deleted_wf k kv : kv_wf kv -> kv_wf (pg_redis_mark_deleted k kv).
Proof. destruct k; [done|]. by intros []; split. Qed.

Lemma mark_deleted_fields k kv :
  htab (pg_redis_mark_deleted k kv) = htab kv /\
  dirty_head (pg_redis_mark_deleted k kv) = dirty_head kv.
Proof. by destruct k. Qed.

Lemma remove_wf k kv : kv_wf kv -> kv_wf (pg_redis_store_remove k kv).2.
Proof.
  intros Hwf. pose proof Hwf as [Hnd Hc He]. unfold pg_redis_store_remove.
  destruct (htab kv !! k) as [e|] eqn:E; [|done]. simpl.
  split; simpl; rewrite ?(proj1 (mark_deleted_fields _ _)), ?(proj2 (mark_deleted_fields _ _)); simpl.
  - destruct (e_in_dirty_set e); [by apply unlink_NoDup|done].
  - intros k'. rewrite lookup_delete. destruct (e_in_dirty_set e) eqn:Ed.
    + rewrite elem_of_unlink, Hc by done. case_decide as Hkk.
      * split; [intros [_ ?]; congruence|intros (? & ? & _); congruence].
      * split; [by intros [? _]|intros ?; split; [done|congruence]].
    + rewrite Hc. case_decide as Hkk; [|done]. subst k'. rewrite E.
      split; intros (e0 & [= <-] & ?); congruence.
  - intros k' e0. rewrite lookup_delete. case_decide; [done|apply He].
Qed.

Lemma mark_dirty_wf k kv : kv_wf kv -> kv_wf (pg_redis_mark_dirty k kv).
Proof.
  intros Hwf. pose proof Hwf as [Hnd Hc He]. unfold pg_redis_mark_dirty.
  destruct (htab kv !! k) as [e|] eqn:E; [|done].
  destruct (e_in_dirty_set e) eqn:Ed; [done|]. split; simpl.
  - constructor; [|done]. rewrite Hc, E. intros (e0 & [= <-] & ?). congruence.
  - intros k'. rewrite elem_of_cons, Hc, lookup_insert. case_decide as Hkk.
    + subst k'. split; [intros _; by eexists|by left].
    + split; [intros [?|?]; [congruence|done]|by right].
  - intros k' e0. rewrite lookup_insert. case_decide; [|apply He].
    intros [= <-]. exact (He _ _ E).
Qed.

Lemma dirty_clear_htab kv k :
  htab (pg_redis_dirty_clear kv) !! k =
    (if decide (k ∈ dirty_head kv) then set_in_dirty_set false else id) <$> htab kv !! k.
Proof.
  unfold pg_redis_dirty_clear. cbn [htab].
  induction (dirty_head kv) as [|x chain IH]; cbn [foldr].
  - rewrite decide_False by set_solver. by rewrite option_fmap_id.
  - rewrite lookup_alter. destruct (decide (x = k)) as [->|Hx].
    + rewrite IH. rewrite (decide_True (P := k ∈ k :: chain)) by set_solver.
      destruct (decide (k ∈ chain)); [|by rewrite option_fmap_id].
      by destruct (htab kv !! k).
    + rewrite IH. destruct (decide (k ∈ chain)).
      * by rewrite (decide_True (P := k ∈ x :: chain)) by set_solver.
      * by rewrite (decide_False (P := k ∈ x :: chain)) by set_solver.
Qed.

Lemma dirty_clear_wf kv : kv_wf kv -> kv_wf (pg_redis_dirty_clear kv).
Proof.
  intros [Hnd Hc He]. split.
  - constructor.
  - intros k. split; [set_solver|]. intros (e & Hk & Hd). exfalso.
    rewrite dirty_clear_htab in Hk.
    destruct (htab kv !! k) as [e0|] eqn:E; [|done].
    case_decide as Hin; simpl in Hk; injection Hk as <-; [done|].
    apply Hin, Hc. eauto.
  - intros k e. rewrite dirty_clear_htab. destruct (htab kv !! k) as [e0|] eqn:E; [|done].
    simpl. intros [= <-]. specialize (He _ _ E). by case_decide.
Qed.

#[export] Hint Resolve kv_empty_wf upsert_wf remove_wf mark_dirty_wf dirty_clear_wf : pgredis.

Lemma is_expired_view now e :
  pg_redis_entry_is_expired now e = a_expired now (entry_view e).
Proof. unfold pg_redis_entry_is_expired, a_expired, entry_view. by destruct (e_has_expire e). Qed.

Lemma release_expired_view e :
  entry_view (set_version 1 (pg_redis_entry_release_value e true)) = fresh_aentry.
Proof. done. Qed.
