(* ===== verification/Commands.v ===== *)
(** * The SQL commands (src/pg_redis.c) and TTL (src/ttl.c)

    Written once against the keyspace interface, as the sources are; the
    functions are STRICT, so no argument is NULL.  [pfree] of argument copies
    has no counterpart here. *)
From S2P Require Import Prelude Types Utils ListValue HashValue StoreInterface KvStore.

Section Commands.
Context (cfg : Config) `{StoreOps St Ref}.

(** ** TTL *)

(** [pg_redis_entry_is_expired]: the clock is read only for an entry that
    has an expiry. *)
Definition entry_is_expired (e : PgRedisEntry) : M St bool :=
  if negb (e_has_expire e) then mret false
  else now ← op_now; mret (e_expire_at e <=? now).

(** [pg_redis_store_lookup]: lazy TTL eviction on access. *)
Definition pg_redis_store_lookup (key : bytes) : M St (option Ref) :=
  r ← op_lookup_raw key;
  match r with
  | None => mret None
  | Some r =>
      e ← op_read r;
      expired ← entry_is_expired e;
      if expired : bool then op_remove key ;; mret None
      else mret (Some r)
  end.

(** [TimestampTzPlusMilliseconds(now, seconds * 1000)], in microseconds. *)
Definition timestamptz_plus_seconds (now seconds : Z) : Z := now + seconds * 1000 * 1000.

Definition pg_redis_set_expire_seconds (key : bytes) (seconds : Z) : M St bool :=
  r ← pg_redis_store_lookup key;
  match r with
  | None => mret false
  | Some r =>
      if seconds <=? 0 then op_remove key ;; mret true
      else
        e ← op_read r;
        now ← op_now;
        op_write r (bump_version (set_dirty true
          (set_expire true (timestamptz_plus_seconds now seconds) e))) ;;
        mret true
  end.

Definition pg_redis_ttl_seconds (key : bytes) : M St Z :=
  r ← pg_redis_store_lookup key;
  match r with
  | None => mret (-2)
  | Some r =>
      e ← op_read r;
      if negb (e_has_expire e) then mret (-1)
      else
        now ← op_now;
        if e_expire_at e <=? now then op_remove key ;; mret (-2)
        else
          let diff_us := e_expire_at e - now in
          mret (s32 ((diff_us + 999999) / 1000000))
  end.

(** ** Arguments and errors *)

Definition key_arg (key_t : bytes) : M St bytes :=
  pg_redis_text_to_cstring_stack cfg key_t true false.
Definition field_arg (field_t : bytes) : M St bytes :=
  pg_redis_text_to_cstring_stack cfg field_t false true.
Definition argtext_to_pstring (t : bytes) (check_key : bool) : M St bytes :=
  (if check_key then pg_redis_check_key_len cfg (blen t)
   else pg_redis_check_value_len cfg (blen t)) ;;
  mret t.

Definition pg_redis_wrongtype {A} : M St A := ereport ERRCODE_DATATYPE_MISMATCH.

(** ** Strings and generic commands *)

Definition pg_redis_set (key_t val_t : bytes) : M St bool :=
  op_ensure_loaded ;;
  key ← key_arg key_t;
  val ← argtext_to_pstring val_t false;
  '(r, is_new) ← op_upsert key;
  e ← op_read r;
  let e := if negb is_new && negb (bool_decide (e_type e = PG_REDIS_TYPE_STRING))
           then pg_redis_entry_release_value e false else e in
  op_write r (set_deleted false (set_dirty true (bump_version
    (set_value (VString (Some val)) e)))) ;;
  op_mark_dirty r ;;
  mret true.

Definition pg_redis_get (key_t : bytes) : M St (option bytes) :=
  op_ensure_loaded ;;
  key ← key_arg key_t;
  r ← pg_redis_store_lookup key;
  match r with
  | None => mret None
  | Some r =>
      e ← op_read r;
      match e_value e with
      | VString None => mret None
      | VString (Some s) => mret (Some s)
      | VInt i => mret (Some (pg_redis_format_int64 i))
      | VHash _ | VList _ => pg_redis_wrongtype
      end
  end.

Definition pg_redis_del (key_t : bytes) : M St bool :=
  op_ensure_loaded ;;
  key ← key_arg key_t;
  op_remove key.

Definition pg_redis_exists (key_t : bytes) : M St bool :=
  op_ensure_loaded ;;
  key ← key_arg key_t;
  r ← pg_redis_store_lookup key;
  mret (match r with Some _ => true | None => false end).

Definition pg_redis_expire (key_t : bytes) (seconds : Z) : M St bool :=
  op_ensure_loaded ;;
  key ← key_arg key_t;
  ok ← pg_redis_set_expire_seconds key seconds;
  (if ok && (0 <? seconds) then
     r ← op_lookup_raw key;
     match r with Some r => op_mark_dirty r | None => mret tt end
   else mret tt) ;;
  mret ok.

Definition pg_redis_ttl (key_t : bytes) : M St Z :=
  op_ensure_loaded ;;
  key ← key_arg key_t;
  pg_redis_ttl_seconds key.

(** The int value [incrdecr] starts from; signed addition wraps. *)
Definition incrdecr (key_t : bytes) (delta : Z) : M St Z :=
  op_ensure_loaded ;;
  key ← key_arg key_t;
  '(r, is_new) ← op_upsert key;
  e ← op_read r;
  base ← (if is_new : bool then mret 0
          else match e_value e with
               | VString s =>
                   match s with
                   | None => ereport ERRCODE_INVALID_TEXT_REPRESENTATION
                   | Some t => match pg_redis_parse_int64 t with
                               | None => ereport ERRCODE_INVALID_TEXT_REPRESENTATION
                               | Some parsed => mret parsed
                               end
                   end
               | VInt i => mret i
               | VHash _ | VList _ => pg_redis_wrongtype
               end);
  let newval := s64 (base + delta) in
  op_write r (bump_version (set_value (VInt newval) e)) ;;
  op_mark_dirty r ;;
  mret newval.

Definition pg_redis_incr (key_t : bytes) : M St Z := incrdecr key_t 1.
Definition pg_redis_decr (key_t : bytes) : M St Z := incrdecr key_t (-1).

(** ** Hashes *)

(** [hash_value] dereferenced while NULL: a crash, which [entry_wf] excludes. *)
Definition null_deref {A} : M St A := ereport ERRCODE_INTERNAL_ERROR.
Definition of_outcome {A} (o : outcome A) : M St A := fun s => (o, s).

(** The part of [pg_redis_hset] behind the shared-mode fast path. *)
Definition hset_slow (key field val : bytes) : M St bool :=
  '(r, is_new) ← op_upsert key;
  e ← op_read r;
  if negb is_new && negb (bool_decide (e_type e = PG_REDIS_TYPE_HASH)) then pg_redis_wrongtype
  else
    let h := match e_value e with
             | VHash (Some h) => if is_new : bool then pg_redis_hash_create_in else h
             | _ => pg_redis_hash_create_in
             end in
    '(new_field, h') ← of_outcome (pg_redis_hash_set h field val);
    op_write r (bump_version (set_value (VHash (Some h')) e)) ;;
    op_mark_dirty r ;;
    mret new_field.

Definition pg_redis_hset (key_t field_t val_t : bytes) : M St bool :=
  op_ensure_loaded ;;
  key ← key_arg key_t;
  field ← field_arg field_t;
  val ← argtext_to_pstring val_t false;
  fast ← match op_fast_hash with
         | None => mret None
         | Some ops =>
             outcome ← fast_set_atomic ops key field val;
             match outcome with
             | PG_REDIS_FAST_HASH_MUTATE_OK_NEW => mret (Some true)
             | PG_REDIS_FAST_HASH_MUTATE_OK_OVERWRITE => mret (Some false)
             | PG_REDIS_FAST_HASH_MUTATE_WRONGTYPE _ => pg_redis_wrongtype
             | _ => mret None
             end
         end;
  match fast with
  | Some new_field => mret new_field
  | None => hset_slow key field val
  end.

(** Lookup for a command that expects a hash. *)
Definition hash_lookup (key : bytes) : M St (option (Ref * PgRedisEntry * PgRedisHash)) :=
  r ← pg_redis_store_lookup key;
  match r with
  | None => mret None
  | Some r =>
      e ← op_read r;
      match e_value e with
      | VHash (Some h) => mret (Some (r, e, h))
      | VHash None => null_deref
      | _ => pg_redis_wrongtype
      end
  end.

(** The fast read path shared by [pg_redis_hget] and [pg_redis_hexists]:
    [Some] is an answer, [None] falls through to the slow path. *)
Definition fast_read (key field : bytes) (want_value : bool) : M St (option (option bytes)) :=
  match op_fast_hash with
  | None => mret None
  | Some ops =>
      outcome ← fast_lookup_field ops key field want_value;
      match outcome with
      | PG_REDIS_FAST_HASH_HIT v => mret (Some (Some v))
      | PG_REDIS_FAST_HASH_FIELD_MISS | PG_REDIS_FAST_HASH_KEY_MISS => mret (Some None)
      | PG_REDIS_FAST_HASH_WRONGTYPE _ => pg_redis_wrongtype
      | PG_REDIS_FAST_HASH_KEY_EXPIRED => mret None
      end
  end.

Definition pg_redis_hget (key_t field_t : bytes) : M St (option bytes) :=
  op_ensure_loaded ;;
  key ← key_arg key_t;
  field ← field_arg field_t;
  fast ← fast_read key field true;
  match fast with
  | Some answer => mret answer
  | None =>
      o ← hash_lookup key;
      mret (match o with
            | None => None
            | Some (_, _, h) => pg_redis_hash_get h field
            end)
  end.

Definition pg_redis_hexists (key_t field_t : bytes) : M St bool :=
  op_ensure_loaded ;;
  key ← key_arg key_t;
  field ← field_arg field_t;
  fast ← fast_read key field false;
  match fast with
  | Some answer => mret (match answer with Some _ => true | None => false end)
  | None =>
      o ← hash_lookup key;
      mret (match o with
            | None => false
            | Some (_, _, h) => pg_redis_hash_exists h field
            end)
  end.

Definition pg_redis_hdel (key_t field_t : bytes) : M St bool :=
  op_ensure_loaded ;;
  key ← key_arg key_t;
  field ← field_arg field_t;
  fast ← match op_fast_hash with
         | None => mret None
         | Some ops =>
             outcome ← fast_del_atomic ops key field;
             match outcome with
             | PG_REDIS_FAST_HASH_MUTATE_OK_DELETED => mret (Some true)
             | PG_REDIS_FAST_HASH_MUTATE_NOOP => mret (Some false)
             | PG_REDIS_FAST_HASH_MUTATE_WRONGTYPE _ => pg_redis_wrongtype
             | _ => mret None
             end
         end;
  match fast with
  | Some removed => mret removed
  | None =>
      o ← hash_lookup key;
      match o with
      | None => mret false
      | Some (r, e, h) =>
          let '(removed, h') := pg_redis_hash_del h field in
          if removed then
            op_write r (bump_version (set_value (VHash (Some h')) e)) ;;
            op_mark_dirty r ;;
            mret true
          else mret false
      end
  end.

(** ** Lists *)

Definition list_push (key_t val_t : bytes) (left : bool) : M St Z :=
  op_ensure_loaded ;;
  key ← key_arg key_t;
  val ← argtext_to_pstring val_t false;
  '(r, is_new) ← op_upsert key;
  e ← op_read r;
  if negb is_new && negb (bool_decide (e_type e = PG_REDIS_TYPE_LIST)) then pg_redis_wrongtype
  else
    let l := match e_value e with
             | VList (Some l) => if is_new : bool then pg_redis_list_create_in else l
             | _ => pg_redis_list_create_in
             end in
    let '(newlen, l') := if left then pg_redis_list_lpush l val
                         else pg_redis_list_rpush l val in
    op_write r (bump_version (set_value (VList (Some l')) e)) ;;
    op_mark_dirty r ;;
    mret newlen.

Definition pg_redis_lpush (key_t val_t : bytes) : M St Z := list_push key_t val_t true.
Definition pg_redis_rpush (key_t val_t : bytes) : M St Z := list_push key_t val_t false.

(** Lookup for a command that expects a list. *)
Definition list_lookup (key : bytes) : M St (option (Ref * PgRedisEntry * option PgRedisList)) :=
  r ← pg_redis_store_lookup key;
  match r with
  | None => mret None
  | Some r =>
      e ← op_read r;
      match e_value e with
      | VList l => mret (Some (r, e, l))
      | _ => pg_redis_wrongtype
      end
  end.

Definition list_pop (key_t : bytes) (left : bool) : M St (option bytes) :=
  op_ensure_loaded ;;
  key ← key_arg key_t;
  o ← list_lookup key;
  match o with
  | None => mret None
  | Some (r, e, l) =>
      let '(popped, l') := if left then pg_redis_list_lpop l else pg_redis_list_rpop l in
      match popped with
      | None => mret None
      | Some v =>
          op_write r (bump_version (set_value (VList l') e)) ;;
          op_mark_dirty r ;;
          mret (Some v)
      end
  end.

Definition pg_redis_lpop (key_t : bytes) : M St (option bytes) := list_pop key_t true.
Definition pg_redis_rpop (key_t : bytes) : M St (option bytes) := list_pop key_t false.

Definition pg_redis_llen (key_t : bytes) : M St Z :=
  op_ensure_loaded ;;
  key ← key_arg key_t;
  o ← list_lookup key;
  mret (match o with
        | None => 0
        | Some (_, _, l) => pg_redis_list_length l
        end).
End Commands.
