(* ===== verification/CommandSpec.v ===== *)
(** * What the commands promise, and that they keep it

    [spec_cmd] is the Redis-like contract over an abstract keyspace: a map
    from keys to values with an optional deadline, and a count of the clock
    readings taken so far.  [run_cmd] is the SQL function of src/pg_redis.c.
    The refinement holds over every store that obeys the interface laws. *)
From S2P Require Import Prelude Types Utils ListValue HashValue StoreInterface KvStore Commands.

Inductive cmd :=
| SET (k v : bytes) | GET (k : bytes) | DEL (k : bytes) | EXISTS (k : bytes)
| EXPIRE (k : bytes) (seconds : Z) | TTL (k : bytes)
| INCR (k : bytes) | DECR (k : bytes)
| HSET (k f v : bytes) | HGET (k f : bytes) | HDEL (k f : bytes) | HEXISTS (k f : bytes)
| LPUSH (k v : bytes) | RPUSH (k v : bytes) | LPOP (k : bytes) | RPOP (k : bytes)
| LLEN (k : bytes).

Inductive reply := RBool (b : bool) | RText (t : option bytes) | RInt (z : Z).

Definition run_cmd (cfg : Config) `{StoreOps St Ref} (c : cmd) : M St reply :=
  match c with
  | SET k v => RBool <$> pg_redis_set cfg k v
  | GET k => RText <$> pg_redis_get cfg k
  | DEL k => RBool <$> pg_redis_del cfg k
  | EXISTS k => RBool <$> pg_redis_exists cfg k
  | EXPIRE k n => RBool <$> pg_redis_expire cfg k n
  | TTL k => RInt <$> pg_redis_ttl cfg k
  | INCR k => RInt <$> pg_redis_incr cfg k
  | DECR k => RInt <$> pg_redis_decr cfg k
  | HSET k f v => RBool <$> pg_redis_hset cfg k f v
  | HGET k f => RText <$> pg_redis_hget cfg k f
  | HDEL k f => RBool <$> pg_redis_hdel cfg k f
  | HEXISTS k f => RBool <$> pg_redis_hexists cfg k f
  | LPUSH k v => RInt <$> pg_redis_lpush cfg k v
  | RPUSH k v => RInt <$> pg_redis_rpush cfg k v
  | LPOP k => RText <$> pg_redis_lpop cfg k
  | RPOP k => RText <$> pg_redis_rpop cfg k
  | LLEN k => RInt <$> pg_redis_llen cfg k
  end.

(** ** The contract *)

Section Spec.
Context (cfg : Config) (clock : nat -> Z).

Definition ASt : Type := gmap bytes AEntry * nat.

(** The live value of a key.  The clock is read only for a key with a
    deadline; [evict] says whether an expired key is removed by the look. *)
Definition a_live (evict : bool) (k : bytes) : M ASt (option AEntry) := fun '(m, t) =>
  match m !! k with
  | None => (Ret None, (m, t))
  | Some a =>
      match a_expire a with
      | None => (Ret (Some a), (m, t))
      | Some x => if x <=? clock t
                  then (Ret None, (if evict then delete k m else m, S t))
                  else (Ret (Some a), (m, S t))
      end
  end.
Definition a_put (k : bytes) (a : AEntry) : M ASt unit := fun '(m, t) =>
  (Ret tt, (<[k := a]> m, t)).
Definition a_del (k : bytes) : M ASt bool := fun '(m, t) =>
  (Ret (bool_decide (is_Some (m !! k))), (delete k m, t)).
Definition a_now : M ASt Z := fun '(m, t) => (Ret (clock t), (m, S t)).

Definition key_ok (k : bytes) : M ASt unit := pg_redis_check_key_len cfg (blen k).
Definition field_ok (f : bytes) : M ASt unit := pg_redis_check_field_len (blen f).
Definition val_ok (v : bytes) : M ASt unit := pg_redis_check_value_len cfg (blen v).

(** A write keeps the deadline of a live key; an expired key starts afresh. *)
Definition keep_expire (o : option AEntry) (v : AVal) : AEntry :=
  {| a_val := v; a_expire := o ≫= a_expire |}.

Definition spec_incr (k : bytes) (delta : Z) : M ASt reply :=
  key_ok k ;;
  o ← a_live false k;
  base ← match a_val <$> o with
         | None => mret 0
         | Some (AInt i) => mret i
         | Some (AString s) =>
             match s ≫= pg_redis_parse_int64 with
             | Some i => mret i
             | None => ereport ERRCODE_INVALID_TEXT_REPRESENTATION
             end
         | Some _ => ereport ERRCODE_DATATYPE_MISMATCH
         end;
  a_put k (keep_expire o (AInt (s64 (base + delta)))) ;;
  mret (RInt (s64 (base + delta))).

(** The hash, or the list, of a live key; the empty one when there is none. *)
Definition the_hash (o : option AEntry) : M ASt (gmap bytes bytes) :=
  match a_val <$> o with
  | None => mret ∅
  | Some (AHash m) => mret m
  | Some _ => ereport ERRCODE_DATATYPE_MISMATCH
  end.
Definition the_list (o : option AEntry) : M ASt (list bytes) :=
  match a_val <$> o with
  | None => mret []
  | Some (AList q) => mret q
  | Some _ => ereport ERRCODE_DATATYPE_MISMATCH
  end.

Definition spec_push (k v : bytes) (left : bool) : M ASt reply :=
  key_ok k ;; val_ok v ;;
  o ← a_live false k;
  q ← the_list o;
  a_put k (keep_expire o (AList (if left then v :: q else q ++ [v]))) ;;
  mret (RInt (Z.of_nat (S (length q)))).

Definition spec_pop (k : bytes) (left : bool) : M ASt reply :=
  key_ok k ;;
  o ← a_live true k;
  q ← the_list o;
  match (if left then head q else last q) with
  | None => mret (RText None)
  | Some v =>
      a_put k (keep_expire o (AList (if left then tail q else take (pred (length q)) q))) ;;
      mret (RText (Some v))
  end.

Definition spec_cmd (c : cmd) : M ASt reply :=
  match c with
  | SET k v =>
      key_ok k ;; val_ok v ;;
      o ← a_live false k;
      a_put k (keep_expire o (AString (Some v))) ;;
      mret (RBool true)
  | GET k =>
      key_ok k ;;
      o ← a_live true k;
      match a_val <$> o with
      | None => mret (RText None)
      | Some (AString s) => mret (RText s)
      | Some (AInt i) => mret (RText (Some (pg_redis_format_int64 i)))
      | Some _ => ereport ERRCODE_DATATYPE_MISMATCH
      end
  | DEL k => key_ok k ;; b ← a_del k; mret (RBool b)
  | EXISTS k => key_ok k ;; o ← a_live true k; mret (RBool (bool_decide (is_Some o)))
  | EXPIRE k n =>
      key_ok k ;;
      o ← a_live true k;
      match o with
      | None => mret (RBool false)
      | Some a =>
          if n <=? 0 then a_del k ;; mret (RBool true)
          else now ← a_now;
               a_put k {| a_val := a_val a; a_expire := Some (now + n * 1000000) |} ;;
               mret (RBool true)
      end
  | TTL k =>
      key_ok k ;;
      o ← a_live true k;
      match o with
      | None => mret (RInt (-2))
      | Some a =>
          match a_expire a with
          | None => mret (RInt (-1))
          | Some x =>
              now ← a_now;
              if x <=? now then a_del k ;; mret (RInt (-2))
              else mret (RInt (s32 ((x - now + 999999) / 1000000)))
          end
      end
  | INCR k => spec_incr k 1
  | DECR k => spec_incr k (-1)
  | HSET k f v =>
      key_ok k ;; field_ok f ;; val_ok v ;;
      o ← a_live false k;
      m ← the_hash o;
      a_put k (keep_expire o (AHash (<[f := v]> m))) ;;
      mret (RBool (bool_decide (m !! f = None)))
  | HGET k f =>
      key_ok k ;; field_ok f ;;
      o ← a_live true k;
      m ← the_hash o;
      mret (RText (m !! f))
  | HDEL k f =>
      key_ok k ;; field_ok f ;;
      o ← a_live true k;
      m ← the_hash o;
      match m !! f with
      | None => mret (RBool false)
      | Some _ => a_put k (keep_expire o (AHash (delete f m))) ;; mret (RBool true)
      end
  | HEXISTS k f =>
      key_ok k ;; field_ok f ;;
      o ← a_live true k;
      m ← the_hash o;
      mret (RBool (bool_decide (is_Some (m !! f))))
  | LPUSH k v => spec_push k v true
  | RPUSH k v => spec_push k v false
  | LPOP k => spec_pop k true
  | RPOP k => spec_pop k false
  | LLEN k =>
      key_ok k ;;
      o ← a_live true k;
      q ← the_list o;
      mret (RInt (Z.of_nat (length q)))
  end.

(** The key under which a command would create a collection. *)
Definition creates (c : cmd) : option bytes :=
  match c with
  | HSET k _ _ | LPUSH k _ | RPUSH k _ => Some k
  | _ => None
  end.
End Spec.

(** ** Refinement *)

(** [sim m ms s t Q]: from [s] and [t] the two computations both return, and
    then [Q] relates results and states, or both raise the same error and end
    in matching states. *)
Definition closed `{StoreLaws St Ref} (s : St) (t : ASt) : Prop :=
  st_inv s /\ t = (view s, ticks s).

Definition sim `{StoreLaws St Ref} {A B} (m : M St A) (ms : M ASt B) (s : St) (t : ASt)
    (Q : A -> B -> St -> ASt -> Prop) : Prop :=
  match m s, ms t with
  | (Ret a, s'), (Ret b, t') => Q a b s' t'
  | (Raise e, s'), (Raise e', t') => e = e' /\ closed s' t'
  | _, _ => False
  end.

Section Refinement.
Context (cfg : Config) `{StoreLaws St Ref}.

Lemma sim_bind {A B C D} (m : M St A) (ms : M ASt B) (f : A -> M St C) (g : B -> M ASt D)
    s t Q R :
  sim m ms s t Q -> (forall a b s' t', Q a b s' t' -> sim (f a) (g b) s' t' R) ->
  sim (m ≫= f) (ms ≫= g) s t R.
Proof.
  unfold sim. intros Hm Hk. rewrite !bind_unfold.
  destruct (m s) as [[a|e] s'], (ms t) as [[b|e'] t']; try done. by apply Hk.
Qed.

Lemma sim_ret {A B} (a : A) (b : B) s t (Q : A -> B -> St -> ASt -> Prop) :
  Q a b s t -> sim (mret a) (mret b) s t Q.
Proof. done. Qed.

Lemma sim_raise {A B} err s t (Q : A -> B -> St -> ASt -> Prop) :
  closed s t -> sim (ereport err) (ereport err) s t Q.
Proof. by split. Qed.

Lemma sim_fmap {A B} (f : A -> B) (m : M St A) (ms : M ASt B) s t :
  sim m ms s t (fun a b s' t' => b = f a /\ closed s' t') ->
  sim (f <$> m) ms s t (fun b b' s' t' => b' = b /\ closed s' t').
Proof.
  unfold sim, fmap, M_fmap. by destruct (m s) as [[a|e] s'], (ms t) as [[b|e'] t'].
Qed.

(** The argument checks do not touch the state. *)
Lemma sim_key {A B} k (f : bytes -> M St A) (g : M ASt B) s t Q :
  closed s t -> (k <> [] -> sim (f k) g s t Q) ->
  sim (key_arg cfg k ≫= f) (key_ok cfg k ;; g) s t Q.
Proof.
  intros Hc Hk. unfold key_arg, pg_redis_text_to_cstring_stack. unfold sim. rewrite bind_assoc.
  unfold key_ok, pg_redis_check_key_len.
  destruct (Z.eqb_spec (blen k) 0) as [|Hne]; [done|]. destruct (_ <? blen k); [done|].
  apply Hk. by intros ->.
Qed.

Lemma sim_field {A B} k (f : bytes -> M St A) (g : M ASt B) s t Q :
  closed s t -> (blen k <= PG_REDIS_MAX_FIELD_SIZE -> sim (f k) g s t Q) ->
  sim (field_arg cfg k ≫= f) (field_ok k ;; g) s t Q.
Proof.
  intros Hc Hk. unfold field_arg, pg_redis_text_to_cstring_stack. unfold sim. rewrite bind_assoc.
  unfold field_ok, pg_redis_check_field_len.
  destruct (_ =? _); [done|]. destruct (Z.ltb_spec PG_REDIS_MAX_FIELD_SIZE (blen k)); [done|].
  by apply Hk.
Qed.

Lemma sim_val {A B} v (f : bytes -> M St A) (g : M ASt B) s t Q :
  closed s t -> sim (f v) g s t Q ->
  sim (argtext_to_pstring cfg v false ≫= f) (val_ok cfg v ;; g) s t Q.
Proof.
  intros Hc Hk. unfold argtext_to_pstring. unfold sim. rewrite bind_assoc.
  unfold val_ok, pg_redis_check_value_len.
  destruct (_ <=? _); [done|]. by destruct (_ <? _).
Qed.

Lemma sim_loaded {A B} (f : M St A) (g : M ASt B) s t Q :
  closed s t -> sim f g s t Q -> sim (op_ensure_loaded ;; f) g s t Q.
Proof.
  intros [Hi ->] Hk. unfold sim in *. by rewrite (bind_Ret _ _ _ _ _ (law_loaded s Hi)).
Qed.

(** The state between an upsert and the publication of the entry of [k]. *)
Definition opened (k : bytes) (e : PgRedisEntry) (r : Ref) (s : St) (t : ASt) : Prop :=
  st_open s k /\ refs s r = Some (k, e) /\ entry_wf e /\
  t.2 = ticks s /\ delete k t.1 = delete k (view s).

Lemma sim_upsert k s t :
  closed s t -> k <> [] ->
  sim (op_upsert k) (a_live clk false k) s t (fun '(r, is_new) o s' t' =>
    exists e, opened k e r s' t' /\ (may_create s k -> may_create s' k) /\
    match o with
    | Some a => is_new = false /\ entry_view e = a /\ closed s' t'
    | None => is_new = true /\ entry_view e = fresh_aentry /\
              forall a, view s !! k = Some a -> a_expired (clk (ticks s)) a = true
    end).
Proof.
  intros [Hi ->] Hne. unfold sim, a_live.
  destruct (law_upsert k s Hi Hne) as (r & e & is_new & s' & -> & Ho & Hr & Hw & Hm & Hd & Ht & Hc).
  destruct (view s !! k) as [a|] eqn:Ek; simpl in *; unfold a_expired in *.
  2: { exists e. rewrite Nat.add_0_r in Ht. unfold opened, closed; simpl; split_and!; first [done | apply Hc]. }
  assert (Hsame : view s' !! k = Some a -> view s' = view s).
  { intros Hk. rewrite <- (insert_delete_id (view s') k a Hk), Hd. by apply insert_delete_id. }
  destruct (a_expire a) as [x|] eqn:Ea.
  - rewrite Nat.add_1_r in Ht. destruct (x <=? clk (ticks s)) eqn:Ex; simpl.
    + exists e. unfold opened, closed; simpl; split_and!; first [done | apply Hc | idtac].
      intros ? [= <-]. by rewrite Ea.
    + destruct Hc as (-> & Hv & Hk & Hinv). exists e. unfold closed, opened.
      rewrite (Hsame Hk), Ht. unfold opened, closed; simpl; split_and!; first [done | apply Hc].
  - rewrite Nat.add_0_r in Ht. destruct Hc as (-> & Hv & Hk & Hinv). exists e.
    unfold closed, opened. rewrite (Hsame Hk), Ht. unfold opened, closed; simpl; split_and!; first [done | apply Hc].
Qed.

Lemma sim_read {A B} k e r (f : PgRedisEntry -> M St A) (g : M ASt B) s t Q :
  st_open s k -> refs s r = Some (k, e) -> sim (f e) g s t Q -> sim (op_read r ≫= f) g s t Q.
Proof.
  intros Ho Hr Hk. unfold sim in *. by rewrite (bind_Ret _ _ _ _ _ (law_read _ _ _ _ Ho Hr)).
Qed.

Lemma closed_opened k e r s t :
  closed s t -> refs s r = Some (k, e) -> entry_wf e -> opened k e r s t.
Proof. intros [Hi ->] Hr Hw. repeat split; [by apply law_open|done..]. Qed.

(** Publishing the entry of [k] writes its view under [k]. *)
Lemma sim_publish {A B} k e e' r a (f : M St A) (g : M ASt B) s t Q :
  opened k e r s t -> entry_wf e' -> e_in_dirty_set e' = e_in_dirty_set e ->
  value_step (may_create s k) (e_value e) (e_value e') -> entry_view e' = a ->
  (forall s' t', closed s' t' -> sim f g s' t' Q) ->
  sim (op_write r e' ;; op_mark_dirty r ;; f) (a_put k a ;; g) s t Q.
Proof.
  intros (Ho & Hr & Hw & Ht & Hd) Hw' Hf Hs <- Hk. destruct t as [m n]. simpl in *. subst n.
  destruct (law_publish r k e e' s Ho Hr Hw' Hf Hs) as (s' & E & Hi & Hv & Ht).
  unfold sim. rewrite <- bind_assoc, (bind_Ret _ _ _ _ _ E).
  apply Hk. split; [done|]. rewrite Hv, Ht.
  by rewrite <- (insert_delete_eq m), Hd, insert_delete_eq.
Qed.

Lemma sim_now {A B} (f : Z -> M St A) (g : Z -> M ASt B) s t Q :
  closed s t ->
  (forall n s' t', closed s' t' -> refs s' = refs s -> t'.1 = t.1 -> sim (f n) (g n) s' t' Q) ->
  sim (op_now ≫= f) (a_now clk ≫= g) s t Q.
Proof.
  intros [Hi ->] Hk. destruct (law_now s Hi) as (s' & E & Hi' & Hv & Hr & Ht & _).
  unfold sim. rewrite (bind_Ret _ _ _ _ _ E). apply Hk; [|done|done].
  split; [done|]. by rewrite Hv, Ht.
Qed.

Lemma sim_remove {A B} k (f : bool -> M St A) (g : bool -> M ASt B) s t Q :
  closed s t ->
  (forall s' t', closed s' t' -> sim (f (bool_decide (is_Some (t.1 !! k))))
                                    (g (bool_decide (is_Some (t.1 !! k)))) s' t' Q) ->
  sim (op_remove k ≫= f) (a_del k ≫= g) s t Q.
Proof.
  intros [Hi ->] Hk. destruct (law_remove k s Hi) as (s' & E & Hi' & Hv & Ht).
  unfold sim. rewrite (bind_Ret _ _ _ _ _ E). apply Hk.
  split; [done|]. by rewrite Hv, Ht.
Qed.

(** The two ways a lookup and its specification can agree. *)
Definition found (k : bytes) (r : option Ref) (o : option AEntry) (s : St) (t : ASt) : Prop :=
  closed s t /\
  match r, o with
  | None, None => True
  | Some r, Some a => t.1 !! k = Some a /\
      exists e, refs s r = Some (k, e) /\ entry_wf e /\ entry_view e = a
  | _, _ => False
  end.

Lemma sim_lookup k s t :
  closed s t -> sim (pg_redis_store_lookup k) (a_live clk true k) s t (found k).
Proof.
  intros [Hi ->]. unfold sim, pg_redis_store_lookup, a_live, found, closed.
  destruct (view s !! k) as [a|] eqn:Ek.
  2: { destruct (law_lookup_none k s Hi Ek) as (s' & E & Hi' & Hv & Ht).
       rewrite (bind_Ret _ _ _ _ _ E). simpl. by rewrite Hv, Ht. }
  destruct (law_lookup_some k s a Hi Ek) as (r & e & s' & E & Hi' & Hv & Ht & Hr & Hve & Hw).
  rewrite (bind_Ret _ _ _ _ _ E).
  rewrite (bind_Ret _ _ _ _ _ (law_read _ _ _ _ (law_open _ k Hi') Hr)).
  unfold entry_is_expired. assert (Ha : a_expire a = if e_has_expire e then Some (e_expire_at e) else None)
    by (by subst a).
  destruct (e_has_expire e); simpl; rewrite Ha.
  2: { simpl. rewrite Hv, Ht, Ek. eauto 10. }
  destruct (law_now s' Hi') as (s2 & E2 & Hi2 & Hv2 & Hr2 & Ht2 & _).
  rewrite bind_assoc, (bind_Ret _ _ _ _ _ E2), Ht. simpl.
  destruct (e_expire_at e <=? clk (ticks s)) eqn:Ex; simpl; rewrite ?bind_mret.
  - destruct (law_remove k s2 Hi2) as (s3 & E3 & Hi3 & Hv3 & Ht3).
    rewrite (bind_Ret _ _ _ _ _ E3). simpl. rewrite Hv3, Ht3, Ht2, Hv2, Hv, Ht. done.
  - simpl. rewrite Hv2, Ht2, Hv, Ht, Ek, Hr2. eauto 10.
Qed.

(** *** Views of updated entries *)

(** What an upsert hands out, against the live value of the key. *)
Definition handed (o : option AEntry) (is_new : bool) (e : PgRedisEntry) : Prop :=
  match o with
  | Some a => is_new = false /\ entry_view e = a
  | None => is_new = true /\ entry_view e = fresh_aentry
  end.

Lemma fresh_value e : entry_view e = fresh_aentry -> e_value e = VString None.
Proof.
  intros Hv. injection Hv as Hv _. by destruct (e_value e); simplify_eq/=.
Qed.

Lemma handed_view o is_new e v :
  handed o is_new e -> entry_view (bump_version (set_value v e)) = keep_expire o (val_view v).
Proof.
  unfold keep_expire, entry_view. simpl. intros Hh. f_equal.
  destruct o as [a|]; destruct Hh as [_ Hh]; [by subst a|]. by injection Hh.
Qed.

(** The result every command proof ends in. *)
Definition answers {A} (f : A -> reply) (a : A) (b : reply) (s : St) (t : ASt) : Prop :=
  b = f a /\ closed s t.

Lemma set_refines k v s t :
  closed s t -> sim (pg_redis_set cfg k v) (spec_cmd cfg clk (SET k v)) s t (answers RBool).
Proof.
  intros Hc. apply sim_loaded, sim_key; [done..|]; intros Hne; apply sim_val; [done|].
  eapply sim_bind; [by apply sim_upsert|]. intros [r is_new] o s1 t1 (e & Ho & _ & Hh).
  eapply sim_read; [apply Ho..|].
  eapply sim_publish; [done| | | | |]; [..|intros s2 t2 Hc2; by apply sim_ret].
  - done.
  - by destruct (_ && _).
  - by apply step_scalar.
  - transitivity (entry_view (bump_version (set_value (VString (Some v)) e))).
    + by destruct (_ && _).
    + eapply (handed_view o is_new). destruct o; naive_solver.
Qed.

Lemma get_refines k s t :
  closed s t -> sim (pg_redis_get cfg k) (spec_cmd cfg clk (GET k)) s t (answers RText).
Proof.
  intros Hc. apply sim_loaded, sim_key; [done..|]; intros Hne.
  eapply sim_bind; [by apply sim_lookup|]. intros [r|] [a|] s1 t1 [Hc1 Hf]; try done.
  destruct Hf as (_ & e & Hr & Hw & <-). eapply sim_read; [apply law_open, Hc1|done|].
  simpl. destruct (e_value e) as [[x|]|i| |]; simpl; by split.
Qed.

Lemma del_refines k s t :
  closed s t -> sim (pg_redis_del cfg k) (spec_cmd cfg clk (DEL k)) s t (answers RBool).
Proof.
  intros Hc. apply sim_loaded, sim_key; [done..|]; intros Hne. destruct Hc as [Hi ->].
  destruct (law_remove k s Hi) as (s' & E & Hi' & Hv & Ht).
  unfold sim. rewrite E. simpl. unfold answers, closed. by rewrite Hv, Ht.
Qed.

Lemma exists_refines k s t :
  closed s t -> sim (pg_redis_exists cfg k) (spec_cmd cfg clk (EXISTS k)) s t (answers RBool).
Proof.
  intros Hc. apply sim_loaded, sim_key; [done..|]; intros Hne.
  eapply sim_bind; [by apply sim_lookup|]. by intros [r|] [a|] s1 t1 [Hc1 Hf].
Qed.

Lemma ttl_refines k s t :
  closed s t -> sim (pg_redis_ttl cfg k) (spec_cmd cfg clk (TTL k)) s t (answers RInt).
Proof.
  intros Hc. apply sim_loaded, sim_key; [done..|]; intros Hne.
  eapply sim_bind; [by apply sim_lookup|]. intros [r|] [a|] s1 t1 [Hc1 Hf]; try done.
  destruct Hf as (_ & e & Hr & Hw & <-). eapply sim_read; [apply law_open, Hc1|done|].
  simpl. destruct (e_has_expire e); simpl; [|done].
  apply sim_now; [done|]. intros now s2 t2 Hc2 _ _.
  destruct (e_expire_at e <=? now); [|done].
  by apply sim_remove.
Qed.

Lemma incrdecr_refines k d s t :
  closed s t -> sim (incrdecr cfg k d) (spec_incr cfg clk k d) s t (answers RInt).
Proof.
  intros Hc. apply sim_loaded, sim_key; [done..|]; intros Hne.
  eapply sim_bind; [by apply sim_upsert|]. intros [r is_new] o s1 t1 (e & Ho & _ & Hh).
  eapply sim_read; [apply Ho..|].
  eapply (sim_bind _ _ _ _ _ _ (fun i i' s' t' => i = i' /\ s' = s1 /\ t' = t1)).
  - destruct o as [a|]; simpl in *; [|by destruct Hh as [-> _]].
    destruct Hh as (-> & <- & Hc1). simpl.
    destruct (e_value e) as [[x|]|i| |]; simpl; try done.
    by destruct (pg_redis_parse_int64 x).
  - intros i ? ? ? (<- & -> & ->).
    eapply sim_publish; [done| | | | |]; [..|intros s2 t2 Hc2; by apply sim_ret].
    + apply s64_range.
    + done.
    + by apply step_scalar.
    + eapply (handed_view o is_new). destruct o; naive_solver.
Qed.

(** *** Collections *)

(** A command that would create a collection finds no rows left under its key. *)
Definition creation_ok (c : cmd) (s : St) : Prop :=
  match creates c with
  | None => True
  | Some k => may_create s k \/
              exists a, view s !! k = Some a /\ a_expired (clk (ticks s)) a = false
  end.

Lemma created_empty (P : Prop) o is_new e k s :
  (o = None -> forall a, view s !! k = Some a -> a_expired (clk (ticks s)) a = true) ->
  (may_create s k \/ exists a, view s !! k = Some a /\ a_expired (clk (ticks s)) a = false) ->
  (may_create s k -> P) -> handed o is_new e -> is_new = true ->
  P /\ scalar (e_value e).
Proof.
  intros Hdead Hok HP Hh Hn. destruct o as [a|]; [destruct Hh; congruence|].
  destruct Hh as [_ Hh]. rewrite (fresh_value _ Hh). split; [|done].
  destruct Hok as [|(a & Ha & Hx)]; [auto|]. rewrite (Hdead eq_refl a Ha) in Hx. done.
Qed.

Lemma hash_create_synced : hash_synced ∅ pg_redis_hash_create_in.
Proof. intros f. simpl. rewrite lookup_empty. by right. Qed.

Lemma list_create_synced : list_synced ∅ pg_redis_list_create_in.
Proof. split; simpl; [intros n Hn; by apply elem_of_nil in Hn|intros o v; by rewrite lookup_empty]. Qed.

Lemma push_step l v (left : bool) :
  list_wf l ->
  let '(n, l') := if left then pg_redis_list_lpush l v else pg_redis_list_rpush l v in
  n = Z.of_nat (S (length (Deque.items l))) /\ list_wf l' /\
  Deque.items l' = (if left then v :: Deque.items l else Deque.items l ++ [v]) /\
  (forall rows, list_synced rows l -> list_synced rows l').
Proof.
  intros Hwf. destruct left.
  - pose proof (impl_step_refines (Deque.LPUSH v) l Hwf) as Hs.
    pose proof (fun rows => list_synced_lpush rows l v) as Hy. simpl in Hs.
    destruct (pg_redis_list_lpush l v) as [n l']. destruct Hs as [Hw [= <- <-]]. done.
  - pose proof (impl_step_refines (Deque.RPUSH v) l Hwf) as Hs.
    pose proof (fun rows => list_synced_rpush rows l v) as Hy. simpl in Hs.
    destruct (pg_redis_list_rpush l v) as [n l']. destruct Hs as [Hw [= <- <-]]. done.
Qed.

Lemma pop_step l (left : bool) :
  list_wf l ->
  exists l', (if left then pg_redis_list_lpop (Some l) else pg_redis_list_rpop (Some l)) =
               (if left then head (Deque.items l) else last (Deque.items l), Some l') /\
    list_wf l' /\
    Deque.items l' = (if left then tail (Deque.items l)
                      else take (pred (length (Deque.items l))) (Deque.items l)) /\
    (forall rows, list_synced rows l -> list_synced rows l').
Proof.
  intros Hwf. destruct left.
  - pose proof (impl_step_refines Deque.LPOP l Hwf) as Hs.
    destruct (list_lpop_wf l Hwf) as (l' & El & Hwf'). cbn [Deque.impl_step Deque.spec_step] in Hs.
    destruct (pg_redis_list_lpop (Some l)) as [r ol] eqn:Ep. simpl in El. subst ol.
    simpl in Hs. destruct Hs as [_ Hs]. exists l'. split.
    { destruct (Deque.items l); simpl in *; congruence. }
    split_and!; [done|destruct (Deque.items l); simpl in *; congruence|].
    intros rows Hy. exact (list_synced_lpop _ _ _ _ Hwf Hy Ep).
  - pose proof (impl_step_refines Deque.RPOP l Hwf) as Hs.
    destruct (list_rpop_wf l Hwf) as (l' & El & Hwf'). cbn [Deque.impl_step Deque.spec_step] in Hs.
    destruct (pg_redis_list_rpop (Some l)) as [r ol] eqn:Ep. simpl in El. subst ol.
    simpl in Hs. destruct Hs as [_ Hs]. exists l'.
    destruct (list_snoc_cases (Deque.items l)) as [En|(q & x & En)]; rewrite En in *.
    + simpl in Hs. split_and!; [simpl; congruence|done|simpl; congruence|].
      intros rows Hy. exact (list_synced_rpop _ _ _ _ Hwf Hy Ep).
    + rewrite last_snoc in *. split_and!; [congruence|done|congruence|].
      intros rows Hy. exact (list_synced_rpop _ _ _ _ Hwf Hy Ep).
Qed.

Lemma the_list_view e :
  the_list (Some (entry_view e)) =
    match e_value e with
    | VList l => mret (from_option Deque.items [] l)
    | _ => ereport ERRCODE_DATATYPE_MISMATCH
    end.
Proof. unfold the_list, entry_view. simpl. by destruct (e_value e). Qed.

Lemma the_hash_view e :
  the_hash (Some (entry_view e)) =
    match e_value e with
    | VHash h => mret (from_option hash_view ∅ h)
    | _ => ereport ERRCODE_DATATYPE_MISMATCH
    end.
Proof. unfold the_hash, entry_view. simpl. by destruct (e_value e). Qed.

Lemma push_refines k v left s t :
  closed s t -> creation_ok (LPUSH k v) s ->
  sim (list_push cfg k v left) (spec_push cfg clk k v left) s t (answers RInt).
Proof.
  intros Hc Hok. apply sim_loaded, sim_key; [done..|]; intros Hne; apply sim_val; [done|].
  eapply sim_bind; [by apply sim_upsert|]. intros [r is_new] o s1 t1 (e & Ho & Hm & Hh).
  eapply sim_read; [apply Ho..|].
  assert (Hpub : forall l, list_wf l -> handed o is_new e ->
    (forall l', (forall rows, list_synced rows l -> list_synced rows l') ->
       value_step (may_create s1 k) (e_value e) (VList (Some l'))) ->
    sim (let '(newlen, l') := if left then pg_redis_list_lpush l v else pg_redis_list_rpush l v in
         op_write r (bump_version (set_value (VList (Some l')) e)) ;;
         op_mark_dirty r ;; mret newlen)
        (a_put k (keep_expire o (AList (if left then v :: Deque.items l else Deque.items l ++ [v]))) ;;
         mret (RInt (Z.of_nat (S (length (Deque.items l)))))) s1 t1 (answers RInt)).
  { intros l Hl Hha Hst. pose proof (push_step l v left Hl) as Hp.
    destruct (if left then _ else _) as [n l']. destruct Hp as (-> & Hl' & <- & Hy).
    eapply sim_publish; [done|done|done|by apply Hst|by eapply handed_view|].
    intros s2 t2 Hc2. by apply sim_ret. }
  destruct o as [a|].
  - destruct Hh as (-> & <- & Hc1). destruct Ho as (_ & _ & Hw & _). unfold entry_wf, e_type in *.
    rewrite the_list_view. destruct (e_value e) as [| | |[l|]] eqn:Ev; simpl; try done.
    apply (Hpub l Hw); [done|]. intros l' Hy. by constructor.
  - destruct Hh as (-> & Hf & Hdead). simpl.
    destruct (created_empty (may_create s1 k) None true e k s) as [Hmc Hsc]; try done.
    rewrite (fresh_value _ Hf) in *.
    apply (Hpub pg_redis_list_create_in list_create_wf); [done|].
    intros l' Hy. apply step_new_list; [done..|]. apply Hy, list_create_synced.
Qed.

(** A lookup for a list command against the list of the live key. *)
Lemma sim_list_lookup {A B} k (f : _ -> M St A) (g : option AEntry -> list bytes -> M ASt B) s t Q :
  closed s t ->
  (forall s' t', closed s' t' -> sim (f None) (g None []) s' t' Q) ->
  (forall r e l s' t', closed s' t' -> opened k e r s' t' -> e_value e = VList (Some l) -> list_wf l ->
     sim (f (Some (r, e, Some l))) (g (Some (entry_view e)) (Deque.items l)) s' t' Q) ->
  sim (list_lookup k ≫= f) (o ← a_live clk true k; q ← the_list o; g o q) s t Q.
Proof.
  intros Hc Hnone Hsome. unfold list_lookup, sim. rewrite bind_assoc. apply sim_bind with (found k).
  { by apply sim_lookup. }
  intros [r|] [a|] s1 t1 [Hc1 Hf]; try done.
  - destruct Hf as (_ & e & Hr & Hw & <-). unfold sim. rewrite bind_assoc.
    eapply sim_read; [apply law_open, Hc1|done|]. unfold entry_wf in Hw.
    rewrite the_list_view. destruct (e_value e) as [| | |[l|]] eqn:Ev; try done.
    apply Hsome; try done. apply closed_opened; [done..|]. unfold entry_wf. by rewrite Ev.
  - by apply Hnone.
Qed.

Lemma pop_refines k left s t :
  closed s t -> sim (list_pop cfg k left) (spec_pop cfg clk k left) s t (answers RText).
Proof.
  intros Hc. apply sim_loaded, sim_key; [done..|]; intros Hne.
  apply sim_list_lookup; [done|by destruct left|].
  intros r e l s1 t1 Hc1 Ho Ev Hl. destruct (pop_step l left Hl) as (l' & -> & Hl' & Hit & Hy).
  destruct (if left then head _ else last _) as [v|]; [|done].
  eapply sim_publish; [done|done|done| |rewrite <- Hit; by eapply (handed_view (Some _) false)|].
  - rewrite Ev. by apply step_list.
  - intros s2 t2 Hc2. by apply sim_ret.
Qed.

Lemma llen_refines k s t :
  closed s t -> sim (pg_redis_llen cfg k) (spec_cmd cfg clk (LLEN k)) s t (answers RInt).
Proof.
  intros Hc. apply sim_loaded, sim_key; [done..|]; intros Hne.
  apply sim_list_lookup; [done|done|].
  intros r e l s1 t1 Hc1 Ho Ev Hl. apply sim_ret. split; [|done]. simpl.
  rewrite (lw_length _ Hl). unfold Deque.items. by rewrite length_fmap.
Qed.

(** The remaining commands need a direct store. *)
Context `{!DirectStore St Ref}.

Lemma sim_hash_lookup {A B} (k : bytes)
    (f : option (Ref * PgRedisEntry * PgRedisHash) -> M St A) (g : option AEntry -> gmap bytes bytes -> M ASt B) s t Q :
  closed s t ->
  (forall s' t', closed s' t' -> sim (f None) (g None ∅) s' t' Q) ->
  (forall r e h s' t', closed s' t' -> opened k e r s' t' -> e_value e = VHash (Some h) -> hash_wf h ->
     sim (f (Some (r, e, h))) (g (Some (entry_view e)) (hash_view h)) s' t' Q) ->
  sim (hash_lookup k ≫= f) (o ← a_live clk true k; m ← the_hash o; g o m) s t Q.
Proof.
  intros Hc Hnone Hsome. unfold hash_lookup, sim. rewrite bind_assoc. apply sim_bind with (found k).
  { by apply sim_lookup. }
  intros [r|] [a|] s1 t1 [Hc1 Hf]; try done.
  - destruct Hf as (_ & e & Hr & Hw & <-). unfold sim. rewrite bind_assoc.
    eapply sim_read; [apply law_open, Hc1|done|]. unfold entry_wf in Hw.
    rewrite the_hash_view. destruct (e_value e) as [| |[h|]|] eqn:Ev; try done.
    apply Hsome; try done. apply closed_opened; [done..|]. unfold entry_wf. by rewrite Ev.
  - by apply Hnone.
Qed.

Lemma hset_refines k f v s t :
  closed s t -> creation_ok (HSET k f v) s ->
  sim (pg_redis_hset cfg k f v) (spec_cmd cfg clk (HSET k f v)) s t (answers RBool).
Proof.
  intros Hc Hok. apply sim_loaded, sim_key; [done..|]; intros Hne; apply sim_field; [done|]; intros Hlen. apply sim_val; [done|].
  rewrite direct_no_fast. unfold sim. rewrite bind_mret. fold (hset_slow k f v).
  eapply sim_bind; [by apply sim_upsert|]. intros [r is_new] o s1 t1 (e & Ho & Hm & Hh).
  eapply sim_read; [apply Ho..|].
  assert (Hpub : forall h, hash_wf h -> handed o is_new e ->
    (forall h', (forall rows, hash_synced rows h -> hash_synced rows h') ->
       value_step (may_create s1 k) (e_value e) (VHash (Some h'))) ->
    sim ('(new_field, h') ← of_outcome (pg_redis_hash_set h f v);
         op_write r (bump_version (set_value (VHash (Some h')) e)) ;;
         op_mark_dirty r ;; mret new_field)
        (a_put k (keep_expire o (AHash (<[f := v]> (hash_view h)))) ;;
         mret (RBool (bool_decide (hash_view h !! f = None)))) s1 t1 (answers RBool)).
  { intros h Hl Hha Hst. destruct (hash_set_spec h f v Hl Hlen) as (h' & E & Hw' & <- & _).
    unfold sim. erewrite (bind_Ret (of_outcome _)); [|unfold of_outcome; by rewrite E].
    eapply sim_publish; [done|done|done| |by eapply handed_view|].
    - apply Hst. intros rows Hy. by eapply hash_synced_set.
    - intros s2 t2 Hc2. by apply sim_ret. }
  destruct o as [a|].
  - destruct Hh as (-> & <- & Hc1). destruct Ho as (_ & _ & Hw & _). unfold entry_wf, e_type in *.
    rewrite the_hash_view. destruct (e_value e) as [| |[h|]|] eqn:Ev; simpl; try done.
    apply (Hpub h Hw); [done|]. intros h' Hy. by constructor.
  - destruct Hh as (-> & Hf & Hdead). simpl.
    destruct (created_empty (may_create s1 k) None true e k s) as [Hmc Hsc]; try done.
    rewrite (fresh_value _ Hf) in *.
    apply (Hpub pg_redis_hash_create_in hash_create_wf); [done|].
    intros h' Hy. apply step_new_hash; [done..|]. apply Hy, hash_create_synced.
Qed.

Lemma hget_refines k f s t :
  closed s t -> sim (pg_redis_hget cfg k f) (spec_cmd cfg clk (HGET k f)) s t (answers RText).
Proof.
  intros Hc. apply sim_loaded, sim_key; [done..|]; intros Hne; apply sim_field; [done|]; intros _.
  unfold fast_read. rewrite direct_no_fast. unfold sim. rewrite bind_mret.
  apply sim_hash_lookup; [done|by intros; apply sim_ret; rewrite lookup_empty|].
  intros r e h s1 t1 Hc1 Ho Ev Hl. apply sim_ret. split; [|done]. by rewrite hash_get_spec.
Qed.

Lemma hexists_refines k f s t :
  closed s t -> sim (pg_redis_hexists cfg k f) (spec_cmd cfg clk (HEXISTS k f)) s t (answers RBool).
Proof.
  intros Hc. apply sim_loaded, sim_key; [done..|]; intros Hne; apply sim_field; [done|]; intros _.
  unfold fast_read. rewrite direct_no_fast. unfold sim. rewrite bind_mret.
  apply sim_hash_lookup; [done|by intros; apply sim_ret; rewrite lookup_empty|].
  intros r e h s1 t1 Hc1 Ho Ev Hl. apply sim_ret. split; [|done].
  unfold pg_redis_hash_exists. rewrite hash_get_spec by done. by destruct (hash_view h !! f).
Qed.

Lemma hdel_refines k f s t :
  closed s t -> sim (pg_redis_hdel cfg k f) (spec_cmd cfg clk (HDEL k f)) s t (answers RBool).
Proof.
  intros Hc. apply sim_loaded, sim_key; [done..|]; intros Hne; apply sim_field; [done|]; intros _.
  rewrite direct_no_fast. unfold sim. rewrite bind_mret.
  apply sim_hash_lookup; [done|by intros; rewrite lookup_empty|].
  intros r e h s1 t1 Hc1 Ho Ev Hl. pose proof (hash_del_spec h f Hl) as Hd.
  pose proof (fun rows => hash_synced_del rows h f) as Hy.
  destruct (pg_redis_hash_del h f) as [removed h']. destruct Hd as (-> & Hw' & Hv & _).
  destruct (hash_view h !! f) as [x|]; [|by apply sim_ret].
  eapply sim_publish; [done|done|done| |rewrite <- Hv; by eapply (handed_view (Some _) false)|].
  - rewrite Ev. by apply step_hash.
  - intros s2 t2 Hc2. by apply sim_ret.
Qed.

Lemma expire_refines k n s t :
  closed s t -> sim (pg_redis_expire cfg k n) (spec_cmd cfg clk (EXPIRE k n)) s t (answers RBool).
Proof.
  intros Hc. apply sim_loaded, sim_key; [done..|]; intros Hne.
  unfold pg_redis_set_expire_seconds, sim. rewrite bind_assoc.
  apply sim_bind with (found k); [by apply sim_lookup|].
  intros [r|] [a|] s1 t1 [Hc1 Hf]; try done. destruct Hf as (Hk & e & Hr & Hw & <-).
  destruct (Z.leb_spec n 0) as [Hn|Hn].
  - unfold sim. rewrite bind_assoc. apply sim_remove; [done|]. intros s2 t2 Hc2.
    unfold sim. rewrite bind_mret. destruct (Z.ltb_spec 0 n); [lia|]. done.
  - unfold sim. rewrite bind_assoc. eapply sim_read; [apply law_open, Hc1|done|].
    unfold sim. rewrite bind_assoc. apply sim_now; [done|].
    intros now s2 t2 Hc2 Hr2 Ht2. unfold sim. rewrite bind_assoc.
    set (e' := bump_version _).
    destruct (direct_write r k e e' s2) as (s3 & E3 & Ho3 & Hr3 & Hv3 & Ht3);
      [apply law_open, Hc2|by rewrite Hr2|done|done|by apply step_same|].
    rewrite (bind_Ret _ _ _ _ _ E3), bind_mret. destruct (Z.ltb_spec 0 n); [|lia]. simpl.
    destruct (direct_lookup k s3 (entry_view e') Ho3) as (r4 & e4 & s4 & E4 & Ho4 & Hv4 & Ht4 & Hr4).
    { by rewrite Hv3, lookup_insert_eq. }
    rewrite bind_assoc, (bind_Ret _ _ _ _ _ E4).
    destruct (direct_mark r4 k e4 s4 Ho4 Hr4) as (s5 & E5 & Hi5 & Hv5 & Ht5).
    rewrite (bind_Ret _ _ _ _ _ E5). destruct Hc2 as [_ ->]. simpl. split; [done|].
    split; [done|]. rewrite Hv5, Ht5, Hv4, Ht4, Hv3, Ht3. repeat f_equal.
    unfold e', entry_view. simpl. f_equal. f_equal. unfold timestamptz_plus_seconds. lia.
Qed.

Lemma run_cmd_refines c s t :
  closed s t -> creation_ok c s ->
  sim (run_cmd cfg c) (spec_cmd cfg clk c) s t (fun b b' s' t' => b' = b /\ closed s' t').
Proof.
  intros Hc Hok. destruct c; apply sim_fmap.
  - by apply set_refines.
  - by apply get_refines.
  - by apply del_refines.
  - by apply exists_refines.
  - by apply expire_refines.
  - by apply ttl_refines.
  - by apply incrdecr_refines.
  - by apply incrdecr_refines.
  - by apply hset_refines.
  - by apply hget_refines.
  - by apply hdel_refines.
  - by apply hexists_refines.
  - by apply push_refines.
  - by apply push_refines.
  - by apply pop_refines.
  - by apply pop_refines.
  - by apply llen_refines.
Qed.
End Refinement.
