(* ===== verification/Db.v ===== *)
(** * The durable tables (pg_redis--1.2.sql) and the statements on them

    [pgredis.store], [pgredis.hash_fields] and [pgredis.list_items] with their
    primary keys as finite maps, and the six prepared statements of
    src/persistence.c plus the TRUNCATE of FLUSHALL.  A statement either
    changes the tables or raises and changes nothing.  [updated_at] and the
    generated [key_bytes] column are never read by the program. *)
From S2P Require Import Prelude Types.

Record StoreRow := {
  sr_type : bytes;
  sr_value : option bytes;
  sr_expire_at : option Z;
  sr_version : Z
}.

Record Db := {
  store : gmap bytes StoreRow;
  hash_fields : gmap (bytes * bytes) (option bytes);
  list_items : gmap (bytes * Z) (option bytes)
}.

Definition db_empty : Db := {| store := ∅; hash_fields := ∅; list_items := ∅ |}.

(** The foreign keys of both child tables. *)
Record db_fk (db : Db) : Prop := {
  fk_hash : forall k f v, hash_fields db !! (k, f) = Some v -> is_Some (store db !! k);
  fk_list : forall k o v, list_items db !! (k, o) = Some v -> is_Some (store db !! k)
}.

(** [SELECT DISTINCT ON (k) ... ORDER BY k, i DESC]: one row per key, the last
    by ordinality. *)
Definition distinct_on_last {K A} `{Countable K} (rows : list (K * A)) : gmap K A :=
  list_to_map (reverse rows).

Definition SQL_STORE_UPSERT (rows : list (bytes * StoreRow)) (db : Db) : outcome Db :=
  Ret {| store := distinct_on_last rows ∪ store db;
         hash_fields := hash_fields db; list_items := list_items db |}.

(** [DELETE ... WHERE key = ANY($1)], with [ON DELETE CASCADE] on the child
    tables. *)
Definition SQL_STORE_DELETE (keys : list bytes) (db : Db) : outcome Db :=
  Ret {| store := filter (fun p => p.1 ∉ keys) (store db);
         hash_fields := filter (fun p => ~ (p.1.1 ∈ keys /\ is_Some (store db !! p.1.1))) (hash_fields db);
         list_items := filter (fun p => ~ (p.1.1 ∈ keys /\ is_Some (store db !! p.1.1))) (list_items db) |}.

Definition SQL_HASH_FIELD_UPSERT (rows : list ((bytes * bytes) * option bytes)) (db : Db) : outcome Db :=
  if bool_decide (Forall (fun r => is_Some (store db !! r.1.1)) rows)
  then Ret {| store := store db;
              hash_fields := distinct_on_last rows ∪ hash_fields db; list_items := list_items db |}
  else Raise ERRCODE_FOREIGN_KEY_VIOLATION.

Definition SQL_HASH_FIELD_DELETE (rows : list (bytes * bytes)) (db : Db) : outcome Db :=
  Ret {| store := store db;
         hash_fields := filter (fun p => p.1 ∉ rows) (hash_fields db); list_items := list_items db |}.

(** A plain INSERT: a primary key already present, in the table or earlier in
    the batch, is an error; the foreign key is checked at the end of the
    statement. *)
Definition SQL_LIST_ITEM_INSERT (rows : list ((bytes * Z) * option bytes)) (db : Db) : outcome Db :=
  if bool_decide (NoDup rows.*1 /\ Forall (fun r => list_items db !! r.1 = None) rows)
  then if bool_decide (Forall (fun r => is_Some (store db !! r.1.1)) rows)
       then Ret {| store := store db; hash_fields := hash_fields db;
                   list_items := list_to_map rows ∪ list_items db |}
       else Raise ERRCODE_FOREIGN_KEY_VIOLATION
  else Raise ERRCODE_UNIQUE_VIOLATION.

Definition SQL_LIST_ITEM_DELETE (rows : list (bytes * Z)) (db : Db) : outcome Db :=
  Ret {| store := store db; hash_fields := hash_fields db;
         list_items := filter (fun p => p.1 ∉ rows) (list_items db) |}.

(** [TRUNCATE TABLE pgredis.store CASCADE]. *)
Definition SQL_TRUNCATE_STORE (db : Db) : outcome Db := Ret db_empty.

(** ** Rows of one key *)

(** The child rows of [k] are exactly [rows]; the program never stores a NULL
    child value. *)
Definition hash_rows_are (db : Db) (k : bytes) (rows : gmap bytes bytes) : Prop :=
  forall f, hash_fields db !! (k, f) = Some <$> rows !! f.
Definition list_rows_are (db : Db) (k : bytes) (rows : gmap Z bytes) : Prop :=
  forall o, list_items db !! (k, o) = Some <$> rows !! o.

(** ** Lemmas *)

Lemma distinct_on_last_nodup {K A} `{Countable K} (rows : list (K * A)) :
  NoDup rows.*1 -> distinct_on_last rows = list_to_map rows.
Proof.
  intros Hnd. unfold distinct_on_last. symmetry. apply list_to_map_proper; [done|].
  symmetry. apply reverse_Permutation.
Qed.

(** Every statement keeps the foreign keys. *)
Lemma store_upsert_fk rows db db' : db_fk db -> SQL_STORE_UPSERT rows db = Ret db' -> db_fk db'.
Proof.
  intros [Hh Hl] [= <-].
  assert (Hup : forall k, is_Some (store db !! k) ->
    is_Some ((distinct_on_last rows ∪ store db) !! k)).
  { intros k [r Hr]. rewrite lookup_union, Hr. by destruct (distinct_on_last rows !! k). }
  split; simpl; eauto.
Qed.

Lemma filter_lookup_some {K A} `{Countable K} (P : K * A -> Prop) `{!forall x, Decision (P x)}
    (m : gmap K A) k v : filter P m !! k = Some v -> m !! k = Some v /\ P (k, v).
Proof. by rewrite map_lookup_filter_Some. Qed.

Lemma store_delete_fk keys db db' : db_fk db -> SQL_STORE_DELETE keys db = Ret db' -> db_fk db'.
Proof.
  intros [Hh Hl] [= <-].
  assert (Hkeep : forall k, is_Some (store db !! k) -> ~ (k ∈ keys /\ is_Some (store db !! k)) ->
    is_Some (filter (fun p : bytes * StoreRow => p.1 ∉ keys) (store db) !! k)).
  { intros k [r Hr] Hn. exists r. apply map_lookup_filter_Some. split; [done|]. simpl. eauto. }
  split; simpl; intros k x v [Hx Hp]%filter_lookup_some; eauto.
Qed.

Lemma hash_field_delete_fk rows db db' : db_fk db -> SQL_HASH_FIELD_DELETE rows db = Ret db' -> db_fk db'.
Proof. intros [Hh Hl] [= <-]. split; simpl; [|done]. intros k f v [Hx _]%filter_lookup_some. eauto. Qed.

Lemma list_item_delete_fk rows db db' : db_fk db -> SQL_LIST_ITEM_DELETE rows db = Ret db' -> db_fk db'.
Proof. intros [Hh Hl] [= <-]. split; simpl; [done|]. intros k f v [Hx _]%filter_lookup_some. eauto. Qed.

Lemma lookup_list_to_map_in {K A} `{Countable K} (rows : list (K * A)) k v :
  (list_to_map rows : gmap K A) !! k = Some v -> (k, v) ∈ rows.
Proof. apply elem_of_list_to_map_2. Qed.

Lemma hash_field_upsert_fk rows db db' : db_fk db -> SQL_HASH_FIELD_UPSERT rows db = Ret db' -> db_fk db'.
Proof.
  intros [Hh Hl]. unfold SQL_HASH_FIELD_UPSERT. case_bool_decide as Hfk; [|done]. intros [= <-].
  split; simpl; [|done]. intros k f v Hx. apply lookup_union_Some_raw in Hx as [Hx|[_ Hx]]; [|eauto].
  apply lookup_list_to_map_in, elem_of_reverse in Hx. rewrite reverse_involutive in Hx.
  rewrite Forall_forall in Hfk. exact (Hfk _ Hx).
Qed.

Lemma list_item_insert_fk rows db db' : db_fk db -> SQL_LIST_ITEM_INSERT rows db = Ret db' -> db_fk db'.
Proof.
  intros [Hh Hl]. unfold SQL_LIST_ITEM_INSERT. case_bool_decide; [|done].
  case_bool_decide as Hfk; [|done]. intros [= <-].
  split; simpl; [done|]. intros k f v Hx. apply lookup_union_Some_raw in Hx as [Hx|[_ Hx]]; [|eauto].
  apply lookup_list_to_map_in in Hx. rewrite Forall_forall in Hfk. exact (Hfk _ Hx).
Qed.

Lemma hash_rows_are_ext db k rows rows' :
  hash_rows_are db k rows -> hash_rows_are db k rows' -> rows = rows'.
Proof.
  intros H1 H2. apply map_eq. intros f. specialize (H1 f). specialize (H2 f). rewrite H1 in H2.
  destruct (rows !! f), (rows' !! f); naive_solver.
Qed.

#[export] Hint Resolve store_upsert_fk store_delete_fk hash_field_delete_fk hash_field_upsert_fk
  list_item_delete_fk list_item_insert_fk : pgredis.
