(* ===== verification/Persistence.v ===== *)
(** * A backend in session mode: flush, load and transactions
    (src/persistence.c, src/ttl.c, and the callback of src/pg_redis.c)

    [Backend] is one server process: its keyspace, the load flag, the tables
    as its transaction sees them and as of the last commit.  SPI sessions,
    snapshots, plan caching and memory contexts have no counterpart; the vectors
    of run_flush are lists, the [unnest] arguments of the statements of
    [Db]. *)
From S2P Require Import Prelude Types Binval Utils ListValue HashValue StoreInterface KvStore Db.

Record Backend := {
  kv : KvState;
  persistence_loaded : bool;
  db : Db;              (* the tables as the current transaction sees them *)
  db_committed : Db;    (* the tables as of the last commit *)
  xact_now : Z;         (* now(): the start time of the transaction *)
  readings : nat        (* GetCurrentTimestamp() calls so far *)
}.

Definition set_kv (x : KvState) (s : Backend) : Backend :=
  {| kv := x; persistence_loaded := persistence_loaded s; db := db s;
     db_committed := db_committed s; xact_now := xact_now s; readings := readings s |}.
Definition set_loaded (x : bool) (s : Backend) : Backend :=
  {| kv := kv s; persistence_loaded := x; db := db s;
     db_committed := db_committed s; xact_now := xact_now s; readings := readings s |}.
Definition set_db (x : Db) (s : Backend) : Backend :=
  {| kv := kv s; persistence_loaded := persistence_loaded s; db := x;
     db_committed := db_committed s; xact_now := xact_now s; readings := readings s |}.
Definition set_committed (x : Db) (s : Backend) : Backend :=
  {| kv := kv s; persistence_loaded := persistence_loaded s; db := db s;
     db_committed := x; xact_now := xact_now s; readings := readings s |}.
Definition set_xact_now (x : Z) (s : Backend) : Backend :=
  {| kv := kv s; persistence_loaded := persistence_loaded s; db := db s;
     db_committed := db_committed s; xact_now := x; readings := readings s |}.
Definition tick (s : Backend) : Backend :=
  {| kv := kv s; persistence_loaded := persistence_loaded s; db := db s;
     db_committed := db_committed s; xact_now := xact_now s; readings := S (readings s) |}.

Definition on_kv {A} (f : KvState -> A * KvState) : M Backend A := fun s =>
  let '(a, x) := f (kv s) in (Ret a, set_kv x s).
Definition upd_kv (f : KvState -> KvState) : M Backend unit :=
  modify (fun s => set_kv (f (kv s)) s).

(** ** The pre-commit flush *)

Definition parent_value (e : PgRedisEntry) : option bytes :=
  match e_type e with
  | PG_REDIS_TYPE_STRING | PG_REDIS_TYPE_INT => pg_redis_encode_value e
  | PG_REDIS_TYPE_HASH | PG_REDIS_TYPE_LIST => None
  end.

Definition parent_row (e : PgRedisEntry) : StoreRow :=
  {| sr_type := pg_redis_type_name (e_type e);
     sr_value := parent_value e;
     sr_expire_at := if e_has_expire e then Some (e_expire_at e) else None;
     sr_version := s64 (e_version e) |}.

Record FlushBatch := {
  store_rows : list (bytes * StoreRow);
  hf_up : list ((bytes * bytes) * option bytes);
  hf_del : list (bytes * bytes);
  li_ins : list ((bytes * Z) * option bytes);
  li_del : list (bytes * Z)
}.

(** The deltas of one entry. *)
Definition entry_hf_up (e : PgRedisEntry) : list (bytes * bytes) :=
  match e_value e with VHash (Some h) => dirty_fields h | _ => [] end.
Definition entry_hf_del (e : PgRedisEntry) : list bytes :=
  match e_value e with VHash (Some h) => h_tombstones h | _ => [] end.
Definition entry_li_ins (e : PgRedisEntry) : list (Z * bytes) :=
  match e_value e with VList (Some l) => pending_inserts l | _ => [] end.
Definition entry_li_del (e : PgRedisEntry) : list Z :=
  match e_value e with VList (Some l) => l_pending_delete_ords l | _ => [] end.

(** The entries the chain links. *)
Definition chain_entries (dirty : list bytes) (t : gmap bytes PgRedisEntry)
    : list (bytes * PgRedisEntry) :=
  omap (fun k => (fun e => (k, e)) <$> t !! k) dirty.

(** The collection loop of run_flush: one parent row per dirty entry, and the
    deltas of its collection. *)
Definition flush_collect (es : list (bytes * PgRedisEntry)) : FlushBatch :=
  {| store_rows := (fun p => (p.1, parent_row p.2)) <$> es;
     hf_up := flat_map (fun p => (fun q => ((p.1, q.1), Some q.2)) <$> entry_hf_up p.2) es;
     hf_del := flat_map (fun p => (fun f => (p.1, f)) <$> entry_hf_del p.2) es;
     li_ins := flat_map (fun p => (fun q => ((p.1, q.1), Some q.2)) <$> entry_li_ins p.2) es;
     li_del := flat_map (fun p => (fun o => (p.1, o)) <$> entry_li_del p.2) es |}.

(** What the collection loop clears as it goes: [f->dirty], [n->pending_insert]. *)
Definition collected_entry (e : PgRedisEntry) : PgRedisEntry :=
  match e_value e with
  | VHash (Some h) =>
      set_value (VHash (Some
        {| h_fields := (fun fl => {| f_value := f_value fl; f_dirty := false |}) <$> h_fields h;
           h_field_count := h_field_count h; h_memory_usage := h_memory_usage h;
           h_tombstones := h_tombstones h |})) e
  | VList (Some l) =>
      set_value (VList (Some
        {| l_nodes := (fun n => {| n_value := n_value n; n_ord := n_ord n;
                                   n_pending_insert := false |}) <$> l_nodes l;
           l_length := l_length l; l_memory_usage := l_memory_usage l;
           l_min_ord := l_min_ord l; l_max_ord := l_max_ord l;
           l_ord_initialized := l_ord_initialized l;
           l_pending_delete_ords := l_pending_delete_ords l |})) e
  | _ => e
  end.

(** A tombstone is dropped when the key is dirty again. *)
Definition flush_deletes (deletes dirty : list bytes) : list bytes :=
  filter (fun p => p ∉ dirty) deletes.

Definition exec (nonempty : bool) (stmt : Db -> outcome Db) : M Backend unit := fun s =>
  if nonempty then
    match stmt (db s) with
    | Ret d => (Ret tt, set_db d s)
    | Raise e => (Raise e, s)
    end
  else (Ret tt, s).

Definition nonempty {A} (l : list A) : bool := match l with [] => false | _ => true end.

(** The plans, in FK-safe order. *)
Definition flush_execute (b : FlushBatch) (store_delete_keys : list bytes) : M Backend unit :=
  exec (nonempty (store_rows b)) (SQL_STORE_UPSERT (store_rows b)) ;;
  exec (nonempty (hf_del b)) (SQL_HASH_FIELD_DELETE (hf_del b)) ;;
  exec (nonempty (hf_up b)) (SQL_HASH_FIELD_UPSERT (hf_up b)) ;;
  exec (nonempty (li_del b)) (SQL_LIST_ITEM_DELETE (li_del b)) ;;
  exec (nonempty (li_ins b)) (SQL_LIST_ITEM_INSERT (li_ins b)) ;;
  exec (nonempty store_delete_keys) (SQL_STORE_DELETE store_delete_keys).

(** The final loop of run_flush: membership, flag, tombstones, pending
    deletes. *)
Definition flushed_entry (e : PgRedisEntry) : PgRedisEntry :=
  let e := set_dirty false (set_in_dirty_set false e) in
  match e_value e with
  | VHash (Some h) =>
      set_value (VHash (Some
        {| h_fields := h_fields h; h_field_count := h_field_count h;
           h_memory_usage := h_memory_usage h; h_tombstones := [] |})) e
  | VList (Some l) =>
      set_value (VList (Some
        {| l_nodes := l_nodes l; l_length := l_length l; l_memory_usage := l_memory_usage l;
           l_min_ord := l_min_ord l; l_max_ord := l_max_ord l;
           l_ord_initialized := l_ord_initialized l; l_pending_delete_ords := [] |})) e
  | _ => e
  end.

Definition alter_all (f : PgRedisEntry -> PgRedisEntry) (ks : list bytes) (x : KvState) : KvState :=
  set_htab (foldr (alter f) (htab x) ks) x.

Definition run_flush : M Backend unit :=
  dirty ← on_kv pg_redis_dirty_head_take;
  deletes ← on_kv pg_redis_pending_deletes_take;
  if nonempty dirty || nonempty deletes then
    es ← gets (fun s => chain_entries dirty (htab (kv s)));
    upd_kv (alter_all collected_entry dirty) ;;
    flush_execute (flush_collect es) (flush_deletes deletes dirty) ;;
    upd_kv (alter_all flushed_entry dirty)
  else mret tt.

(** ** The session store *)

(** Ascending ordinals, for [ORDER BY]. *)
Definition ord_le {A} (p q : Z * A) : Prop := p.1 <= q.1.
#[export] Instance ord_le_dec {A} (p q : Z * A) : Decision (ord_le p q).
Proof. unfold ord_le. apply _. Defined.

(** ** Lazy load on first access

    The load is one body for both storage modes; [LoadOps] is what the modes do
    differently.  [ld_store] ends a row: [*e = ...], and in shared mode the
    writeback of the scratch copy. *)
Record LoadOps (St Ref : Type) := {
  ld_upsert : bytes -> M St (Ref * bool);
  ld_read : Ref -> M St PgRedisEntry;
  ld_store : Ref -> PgRedisEntry -> M St unit;
  ld_remove : bytes -> M St bool;
  ld_now : St -> Z;                             (* now() *)
  ld_db : St -> Db                              (* the tables *)
}.
Arguments ld_upsert {St Ref}.
Arguments ld_read {St Ref}.
Arguments ld_store {St Ref}.
Arguments ld_remove {St Ref}.
Arguments ld_now {St Ref}.
Arguments ld_db {St Ref}.

(** [expire_at IS NULL OR expire_at > now()] *)
Definition row_live (now : Z) (row : StoreRow) : bool :=
  match sr_expire_at row with None => true | Some x => now <? x end.

Definition row_expire (row : StoreRow) (e : PgRedisEntry) : PgRedisEntry :=
  match sr_expire_at row with
  | Some x => set_expire true x e
  | None => set_expire false (e_expire_at e) e
  end.

Section Load.
Context {St Ref : Type} (L : LoadOps St Ref).

(** One row of load_strings_and_ints.  A row whose bytes do not decode under
    its type is dropped from memory again, which records a tombstone. *)
Definition load_string_row (p : bytes * StoreRow) : M St unit :=
  let '(key, row) := p in
  if PG_REDIS_MAX_KEY_SIZE <? blen key then mret tt
  else
    '(r, _) ← ld_upsert L key;
    e ← ld_read L r;
    let finish e := ld_store L r (set_dirty false (row_expire row e)) in
    let skip := (ld_remove L key ;; mret tt) in
    if decide (sr_type row = bs "string") then
      match sr_value row with
      | None => finish (set_value (VString (match e_value e with VString s => s | _ => None end)) e)
      | Some raw => match pg_redis_decode_string (Some raw) with
                    | Some s => finish (set_value (VString (Some s)) e)
                    | None => skip
                    end
      end
    else if decide (sr_type row = bs "int") then
      match sr_value row with
      | None => finish (set_value (VInt (match e_value e with VInt i => i | _ => 0 end)) e)
      | Some raw => match pg_redis_decode_int (Some raw) with
                    | Some i => finish (set_value (VInt i) e)
                    | None => skip
                    end
      end
    else mret tt.

Definition select_scalars (now : Z) (d : Db) : list (bytes * StoreRow) :=
  filter (fun p => (sr_type p.2 = bs "string" \/ sr_type p.2 = bs "int") /\
                   row_live now p.2 = true)
         (map_to_list (store d)).

Definition load_strings_and_ints : M St unit :=
  rows ← gets (fun s => select_scalars (ld_now L s) (ld_db L s));
  for_each rows load_string_row.

(** One joined row of load_hashes: key, field, value, the parent's expiry.  An
    entry of type hash without its table is followed all the same. *)
Definition load_hash_row (p : (bytes * StoreRow) * (bytes * option bytes)) : M St unit :=
  let '((key, row), (field, value)) := p in
  if PG_REDIS_MAX_KEY_SIZE <? blen key then mret tt
  else if PG_REDIS_MAX_FIELD_SIZE <? blen field then mret tt
  else
    '(r, is_new) ← ld_upsert L key;
    e ← ld_read L r;
    let add h e :=
      match pg_redis_hash_set h field (default [] value) with
      | Raise err => ereport err
      | Ret (_, h') =>
          let h'' := {| h_fields := (fun fl => {| f_value := f_value fl; f_dirty := false |}) <$> h_fields h';
                        h_field_count := h_field_count h'; h_memory_usage := h_memory_usage h';
                        h_tombstones := h_tombstones h' |} in
          let e := set_value (VHash (Some h'')) e in
          ld_store L r (set_dirty false
            (match sr_expire_at row with Some x => set_expire true x e | None => e end))
      end in
    match is_new, e_value e with
    | false, VHash (Some h) => add h e
    | false, VHash None => ereport SEGMENTATION_FAULT
    | _, _ => add pg_redis_hash_create_in (pg_redis_entry_release_value e false)
    end.

(** The parents of type [ty] that are not expired. *)
Definition select_parents (ty : bytes) (now : Z) (d : Db) : list (bytes * StoreRow) :=
  filter (fun p => sr_type p.2 = ty /\ row_live now p.2 = true) (map_to_list (store d)).

(** The child rows of one key. *)
Definition children {K A} `{Countable K} (t : gmap (bytes * K) A) (key : bytes) : list (K * A) :=
  omap (fun p => if decide (p.1.1 = key) then Some (p.1.2, p.2) else None) (map_to_list t).

Definition select_hashes (now : Z) (d : Db) : list ((bytes * StoreRow) * (bytes * option bytes)) :=
  flat_map (fun p => (fun q => (p, q)) <$> children (hash_fields d) p.1)
           (select_parents (bs "hash") now d).

Definition load_hashes : M St unit :=
  rows ← gets (fun s => select_hashes (ld_now L s) (ld_db L s));
  for_each rows load_hash_row.

(** rpush, then the durable ordinal over the synthetic one. *)
Definition list_load_item (l : PgRedisList) (ord : Z) (v : bytes) : PgRedisList :=
  let '(_, l') := pg_redis_list_rpush l v in
  {| l_nodes := match reverse (l_nodes l') with
                | [] => []
                | n :: rest => reverse ({| n_value := n_value n; n_ord := ord;
                                           n_pending_insert := false |} :: rest)
                end;
     l_length := l_length l'; l_memory_usage := l_memory_usage l';
     l_min_ord := match l_nodes l' with [_] => ord | _ => l_min_ord l' end;
     l_max_ord := ord; l_ord_initialized := true;
     l_pending_delete_ords := l_pending_delete_ords l' |}.

Definition load_list_row (p : (bytes * StoreRow) * (Z * option bytes)) : M St unit :=
  let '((key, row), (ord, value)) := p in
  if PG_REDIS_MAX_KEY_SIZE <? blen key then mret tt
  else
    '(r, is_new) ← ld_upsert L key;
    e ← ld_read L r;
    let add l e :=
      let e := set_value (VList (Some (list_load_item l ord (default [] value)))) e in
      ld_store L r (set_dirty false
        (match sr_expire_at row with Some x => set_expire true x e | None => e end)) in
    match is_new, e_value e with
    | false, VList (Some l) => add l e
    | false, VList None => ereport SEGMENTATION_FAULT
    | _, _ => add pg_redis_list_create_in (pg_redis_entry_release_value e false)
    end.

(** [ORDER BY s.key, l.ord]; keys come in table order, ordinals ascending
    within a key. *)
Definition select_lists (now : Z) (d : Db) : list ((bytes * StoreRow) * (Z * option bytes)) :=
  flat_map (fun p => (fun q => (p, q)) <$> merge_sort ord_le (children (list_items d) p.1))
           (select_parents (bs "list") now d).

Definition load_lists : M St unit :=
  rows ← gets (fun s => select_lists (ld_now L s) (ld_db L s));
  for_each rows load_list_row.

Definition pg_redis_persistence_do_load : M St unit :=
  load_strings_and_ints ;; load_hashes ;; load_lists.
End Load.

Section Session.
Context (cfg : Config) (clock : nat -> Z).

Definition GetCurrentTimestamp : M Backend Z := fun s => (Ret (clock (readings s)), tick s).

(** [pg_redis_store_upsert] reads the clock only for a key with an expiry. *)
Definition session_upsert (key : bytes) : M Backend (bytes * bool) :=
  x ← gets (fun s => htab (kv s) !! key);
  now ← match x with
        | Some e => if e_has_expire e then GetCurrentTimestamp else mret 0
        | None => mret 0
        end;
  is_new ← on_kv (pg_redis_store_upsert now key);
  mret (key, is_new).

Definition session_read (key : bytes) : M Backend PgRedisEntry := fun s =>
  match htab (kv s) !! key with
  | Some e => (Ret e, s)
  | None => (Raise ERRCODE_INTERNAL_ERROR, s)     (* a dangling pointer *)
  end.

Definition session_write (key : bytes) (e : PgRedisEntry) : M Backend unit :=
  upd_kv (fun x => set_htab (<[key := e]> (htab x)) x).

Definition session_load : LoadOps Backend bytes := {|
  ld_upsert := session_upsert;
  ld_read := session_read;
  ld_store := session_write;
  ld_remove key := on_kv (pg_redis_store_remove key);
  ld_now := xact_now;
  ld_db := db
|}.

(** [pg_redis_persistence_load_if_needed] in session mode. *)
Definition pg_redis_persistence_load_if_needed : M Backend unit :=
  loaded ← gets persistence_loaded;
  if loaded : bool then mret tt
  else match pg_redis_resolve_persistence_mode cfg with
       | PG_REDIS_PERSIST_NONE => modify (set_loaded true)
       | _ => pg_redis_persistence_do_load session_load ;; modify (set_loaded true)
       end.

#[export] Instance session_ops : StoreOps Backend bytes := {|
  op_now := GetCurrentTimestamp;
  op_ensure_loaded := pg_redis_persistence_load_if_needed;
  op_lookup_raw key :=
    gets (fun s => match pg_redis_store_lookup_raw key (kv s) with
                   | Some _ => Some key | None => None end);
  op_upsert := session_upsert;
  op_remove key := on_kv (pg_redis_store_remove key);
  op_read := session_read;
  op_write := session_write;
  op_mark_dirty key := upd_kv (pg_redis_mark_dirty key);
  op_fast_hash := None
|}.

(** ** The single-row interface kept for old callers *)

Definition pg_redis_persistence_save_entry (entry : option bytes) : M Backend unit :=
  if negb (persistence_writes_enabled cfg) then mret tt
  else match entry with
       | None => mret tt
       | Some key =>
           e ← session_read key;
           if e_deleted e then mret tt else upd_kv (pg_redis_mark_dirty key)
       end.

Definition pg_redis_persistence_delete_key (key : bytes) : M Backend unit :=
  if negb (persistence_writes_enabled cfg) then mret tt else upd_kv (pg_redis_mark_deleted key).

Definition pg_redis_persistence_invalidate_load : M Backend unit := modify (set_loaded false).

(** ** Transactions *)

(** The PRE_COMMIT branch of pg_redis_xact_cb_persistence. *)
Definition pre_commit_cb : M Backend unit :=
  match pg_redis_effective_persistence_mode cfg with
  | PG_REDIS_PERSIST_SYNC_TABLE => run_flush
  | _ => upd_kv (fun x => pg_redis_pending_deletes_clear (pg_redis_dirty_clear x))
  end.

(** Its ABORT branch, and pg_redis_xact_cb of src/pg_redis.c, which drops the
    load flag in every mode. *)
Definition abort_cb : M Backend unit :=
  upd_kv (fun x => pg_redis_pending_deletes_clear (pg_redis_dirty_clear x)) ;;
  pg_redis_persistence_invalidate_load.

Definition begin_xact (now : Z) : M Backend unit := modify (set_xact_now now).

(** ROLLBACK: the tables return to the last commit. *)
Definition abort_xact : M Backend unit :=
  modify (fun s => set_db (db_committed s) s) ;; abort_cb.

(** COMMIT: an error raised before commit aborts the transaction. *)
Definition commit_xact : M Backend unit := fun s =>
  match pre_commit_cb s with
  | (Ret _, s') => (Ret tt, set_committed (db s') s')
  | (Raise e, s') => (Raise e, (abort_xact s').2)
  end.

(** ** FLUSHALL, background entry points, TTL sweep *)

Definition pg_redis_persistence_flushall : M Backend unit :=
  exec (persistence_writes_enabled cfg) SQL_TRUNCATE_STORE ;;
  modify (set_loaded true).

Definition pg_redis_flushall : M Backend bool :=
  upd_kv pg_redis_store_reset ;;
  pg_redis_persistence_flushall ;;
  mret true.

Definition pg_redis_persistence_flush_dirty_batch (max_batch : Z) : M Backend Z :=
  if negb (persistence_writes_enabled cfg) then mret 0
  else run_flush ;; mret 0.

Definition session_is_expired (e : PgRedisEntry) : M Backend bool :=
  if negb (e_has_expire e) then mret false
  else now ← GetCurrentTimestamp; mret (e_expire_at e <=? now).

(** First pass: the keys expired as the scan reaches them. *)
Fixpoint sweep_victims (es : list (bytes * PgRedisEntry)) : M Backend (list bytes) :=
  match es with
  | [] => mret []
  | (k, e) :: es' =>
      x ← session_is_expired e;
      vs ← sweep_victims es';
      mret (if x : bool then k :: vs else vs)
  end.

(** Second pass: remove them, counting. *)
Fixpoint sweep_remove (vs : list bytes) (removed : Z) : M Backend Z :=
  match vs with
  | [] => mret removed
  | k :: vs' =>
      b ← on_kv (pg_redis_store_remove k);
      sweep_remove vs' (if b : bool then removed + 1 else removed)
  end.

Definition pg_redis_ttl_sweep : M Backend Z :=
  es ← gets (fun s => map_to_list (htab (kv s)));
  vs ← sweep_victims es;
  sweep_remove vs 0.

(** [KEYS]: the scan skips expired entries and leaves them in place. *)
Fixpoint live_keys (es : list (bytes * PgRedisEntry)) : M Backend (list bytes) :=
  match es with
  | [] => mret []
  | (k, e) :: es' =>
      x ← session_is_expired e;
      ks ← live_keys es';
      mret (if x : bool then ks else k :: ks)
  end.

Definition pg_redis_keys : M Backend (list bytes) :=
  pg_redis_persistence_load_if_needed ;;
  es ← gets (fun s => map_to_list (htab (kv s)));
  live_keys es.
End Session.

(** ** Cached plans and the append-only table *)

(** [prepare_plan_if_needed] on one slot; [plan] is what [SPI_prepare] returns and
    [kept] whether [SPI_keepplan] succeeds. *)
Definition prepare_plan_if_needed {Plan : Type} (plan : option Plan) (kept : bool) : M (option Plan) Plan :=
  slot ← gets id;
  match slot, plan with
  | Some p, _ => mret p
  | None, None => ereport ERRCODE_INTERNAL_ERROR
  | None, Some p => if kept then modify (fun _ => Some p) ;; mret p else ereport ERRCODE_INTERNAL_ERROR
  end.

(** A slot is filled once: after a success every call returns that plan, and a
    failure leaves the slot for the next call. *)
Lemma plan_prepared_once {Plan : Type} (plan plan' : option Plan) kept kept' slot :
  match prepare_plan_if_needed plan kept slot with
  | (Ret p, slot') => slot' = Some p /\ prepare_plan_if_needed plan' kept' slot' = (Ret p, slot')
  | (Raise e, slot') => slot = None /\ slot' = None /\ e = ERRCODE_INTERNAL_ERROR
  end.
Proof. by destruct slot, plan, kept. Qed.

(** A row of [pgredis.aof]. *)
Record AofRow := { aof_op : bytes; aof_key : option bytes; aof_args : bytes }.

(** [args] is cast to jsonb by the statement: [jsonb] is PostgreSQL's. *)
Definition pg_redis_persistence_append_aof (jsonb : bytes -> option bytes) (connected : bool)
    (op key args_json : option bytes) : M (list AofRow) unit :=
  match op with
  | None => mret tt
  | Some op =>
      if negb connected then mret tt
      else match jsonb (default (bs "{}") args_json) with
           | None => ereport ERRCODE_INVALID_TEXT_REPRESENTATION
           | Some args => modify (fun rows => rows ++ [{| aof_op := op; aof_key := key; aof_args := args |}])
           end
  end.
