(* ===== verification/Flush.v ===== *)
(** * The pre-commit flush makes memory durable (src/persistence.c, run_flush)

    What the tables must hold for a backend's bookkeeping to be right
    ([session_sync]), and that run_flush, from such a state, succeeds and
    leaves every entry exactly represented. *)
From S2P Require Import Prelude Types Binval Utils ListValue HashValue StoreInterface KvStore Db.
From S2P Require Import Persistence.

(** ** The synchronisation invariant *)

(** The collection's deltas, applied to the child rows of its key, give its
    contents. *)
Definition coll_synced (d : Db) (k : bytes) (v : PgRedisValue) : Prop :=
  match v with
  | VHash (Some h) => exists rows, hash_rows_are d k rows /\ hash_synced rows h
  | VList (Some l) => exists rows, list_rows_are d k rows /\ list_synced rows l
  | _ => True
  end.

(** The parent row shows the entry (the version column is not read back). *)
Definition row_shows (row : StoreRow) (e : PgRedisEntry) : Prop :=
  sr_type row = pg_redis_type_name (e_type e) /\ sr_value row = parent_value e /\
  sr_expire_at row = (if e_has_expire e then Some (e_expire_at e) else None).

(** The tables show the entry of [k]: its parent row and its child rows. *)
Definition durable_is (d : Db) (k : bytes) (e : PgRedisEntry) : Prop :=
  (exists row, store d !! k = Some row /\ row_shows row e) /\
  match e_value e with
  | VHash (Some h) => hash_rows_are d k (hash_view h)
  | VList (Some l) => list_rows_are d k (list_rows l)
  | _ => True
  end.

(** The parent row of a collection without child rows. *)
Definition empty_parent (d : Db) (k : bytes) (row : StoreRow) : Prop :=
  (sr_type row = bs "hash" /\ hash_rows_are d k ∅) \/
  (sr_type row = bs "list" /\ list_rows_are d k ∅).

(** No row of the key that a load at [asof] or later would bring back: none at
    all, one that has expired, or the parent row of an empty collection. *)
Definition gone (asof : Z) (d : Db) (k : bytes) : Prop :=
  match store d !! k with
  | None => True
  | Some row => (exists x, sr_expire_at row = Some x /\ x <= asof) \/ empty_parent d k row
  end.

Definition key_synced (asof : Z) (d : Db) (x : KvState) (k : bytes) : Prop :=
  match htab x !! k with
  | Some e => coll_synced d k (e_value e) /\
              (e_in_dirty_set e = false -> durable_is d k e /\ k ∉ pending_deletes_head x)
  | None => k ∈ pending_deletes_head x \/ gone asof d k
  end.

Record session_sync (asof : Z) (s : Backend) : Prop := {
  sy_kv : kv_wf (kv s);
  sy_fk : db_fk (db s);
  sy_keys : forall k, key_synced asof (db s) (kv s) k;
  sy_nonempty : htab (kv s) !! [] = None
}.

(** The deltas of a collection see only the child rows of its key. *)
Definition same_children (d d' : Db) (k : bytes) : Prop :=
  (forall f, hash_fields d' !! (k, f) = hash_fields d !! (k, f)) /\
  (forall o, list_items d' !! (k, o) = list_items d !! (k, o)).

Lemma coll_synced_ext d d' k v : same_children d d' k -> coll_synced d k v -> coll_synced d' k v.
Proof.
  intros [Hh Hl]. destruct v as [| |[h|]|[l|]]; try done; intros (rows & Hr & Hs);
    exists rows; (split; [|done]); intros x; [by rewrite Hh|by rewrite Hl].
Qed.

(** ** Rows of a batch *)

Lemma lookup_nested {K1 K2 E A} `{Countable K1, Countable K2} (F : E -> list (K2 * A))
    (es : list (K1 * E)) (k : K1) (x : K2) :
  NoDup es.*1 ->
  (list_to_map (flat_map (fun p => (fun q => ((p.1, q.1), Some q.2)) <$> F p.2) es)
     : gmap (K1 * K2) (option A)) !! (k, x) =
  match (list_to_map es : gmap K1 E) !! k with
  | Some e => Some <$> (list_to_map (F e) : gmap K2 A) !! x
  | None => None
  end.
Proof.
  assert (Hone : forall k0 l, (list_to_map ((fun q : K2 * A => ((k0, q.1), Some q.2)) <$> l)
      : gmap (K1 * K2) (option A)) !! (k, x) =
      if decide (k0 = k) then Some <$> (list_to_map l : gmap K2 A) !! x else None).
  { intros k0. induction l as [|[y a] l IH]; [by case_decide|].
    rewrite fmap_cons, !list_to_map_cons, !lookup_insert, IH. simpl.
    repeat case_decide; simplify_eq; done. }
  induction es as [|[k0 e] es IH]; [done|].
  rewrite fmap_cons, NoDup_cons. intros [Hk0 Hnd]. cbn [flat_map].
  rewrite (list_to_map_cons es), list_to_map_app, lookup_union, Hone, IH, lookup_insert by done.
  cbn [fst snd]. destruct (decide (k0 = k)) as [->|]; [|by rewrite (left_id None _)].
  rewrite (not_elem_of_list_to_map_1 es) by done. by rewrite (right_id None _).
Qed.

Lemma nested_NoDup {K1 K2 E A} (F : E -> list (K2 * A)) (es : list (K1 * E)) :
  NoDup es.*1 -> (forall p, p ∈ es -> NoDup (F p.2).*1) ->
  NoDup (flat_map (fun p => (fun q => ((p.1, q.1), Some q.2)) <$> F p.2) es).*1.
Proof.
  intros Hnd HF. induction es as [|[k0 e] es IH]; cbn [flat_map]; [constructor|].
  rewrite fmap_cons, NoDup_cons in Hnd. destruct Hnd as [Hk0 Hnd]. rewrite fmap_app.
  assert (Hfst : forall l : list (K2 * A),
    ((fun q => ((k0, q.1), Some q.2)) <$> l).*1 = (fun y => (k0, y)) <$> l.*1).
  { intros l. by rewrite <- !list_fmap_compose. }
  cbn [fst snd] in *. rewrite Hfst. apply NoDup_app. split_and!.
  - apply NoDup_fmap; [by intros ?? [= ->]|]. apply (HF (k0, e)). set_solver.
  - intros ky (y & -> & _)%list_elem_of_fmap Hin. apply Hk0.
    apply list_elem_of_fmap in Hin as ([[k y'] v] & [= -> ->] & Hin).
    apply elem_of_flat_map in Hin as ([k' e'] & Hin & Hin4).
    apply list_elem_of_fmap in Hin4 as (q & [= -> -> ->] & _).
    apply list_elem_of_fmap. by exists (k', e').
  - apply IH; [done|]. set_solver.
Qed.

(** The rows of one key after a batch of tagged deletes and upserts. *)
Lemma nested_rows_after {K1 K2 E A} `{Countable K1, Countable K2} (F : E -> list (K2 * A))
    (G : E -> list K2) (es : list (K1 * E)) (T : gmap (K1 * K2) (option A)) (k : K1) (x : K2) :
  NoDup es.*1 ->
  (list_to_map (flat_map (fun p => (fun q => ((p.1, q.1), Some q.2)) <$> F p.2) es) ∪
   filter (fun p => p.1 ∉ flat_map (fun p => (fun y => (p.1, y)) <$> G p.2) es) T) !! (k, x) =
  match (list_to_map es : gmap K1 E) !! k with
  | Some e => (Some <$> (list_to_map (F e) : gmap K2 A) !! x) ∪
              (if decide (x ∈ G e) then None else T !! (k, x))
  | None => T !! (k, x)
  end.
Proof.
  intros Hnd. rewrite lookup_union, lookup_nested by done.
  assert (Hdel : (k, x) ∈ flat_map (fun p => (fun y => (p.1, y)) <$> G p.2) es <->
                 exists e, (list_to_map es : gmap K1 E) !! k = Some e /\ x ∈ G e).
  { rewrite elem_of_flat_map. split.
    - intros ([k' e] & Hin & (y & [= -> ->] & Hy)%list_elem_of_fmap). exists e.
      by rewrite <- elem_of_list_to_map.
    - intros (e & He & Hx). exists (k, e). rewrite elem_of_list_to_map by done. split; [done|].
      apply list_elem_of_fmap. eauto. }
  assert (Hfil : filter (fun p => p.1 ∉ flat_map (fun p => (fun y => (p.1, y)) <$> G p.2) es) T !! (k, x) =
    if decide ((k, x) ∈ flat_map (fun p => (fun y => (p.1, y)) <$> G p.2) es) then None else T !! (k, x)).
  { apply option_eq. intros v. rewrite map_lookup_filter_Some. cbn [fst]. case_decide; naive_solver. }
  rewrite Hfil. destruct ((list_to_map es : gmap K1 E) !! k) as [e|].
  - f_equal. apply decide_ext. rewrite Hdel. naive_solver.
  - rewrite (left_id None _). apply decide_False. rewrite Hdel. naive_solver.
Qed.

Lemma delta_lookup {K A} `{Countable K} (ups : list (K * A)) (dels : list K) (rows : gmap K A) x :
  (Some <$> (list_to_map ups : gmap K A) !! x) ∪ (if decide (x ∈ dels) then None else Some <$> rows !! x) =
  Some <$> (list_to_map ups ∪ filter (fun p => p.1 ∉ dels) rows) !! x.
Proof.
  rewrite lookup_union. destruct ((list_to_map ups : gmap K A) !! x) as [v|]; cbn; [by rewrite !union_Some_l|].
  rewrite !(left_id None _), map_lookup_filter. destruct (rows !! x); cbn; [|by case_decide].
  case_decide; case_guard; done.
Qed.

Lemma filter_keep {K A} `{Countable K} (P : K * A -> Prop) `{!forall x, Decision (P x)} (T : gmap K A) i :
  (forall v, P (i, v)) -> filter P T !! i = T !! i.
Proof. intros HP. apply option_eq. intros v. rewrite map_lookup_filter_Some. naive_solver. Qed.

(** ** The chain *)

Lemma elem_of_chain D t k e : (k, e) ∈ chain_entries D t <-> k ∈ D /\ t !! k = Some e.
Proof.
  unfold chain_entries. rewrite list_elem_of_omap. split.
  - intros (k' & Hk' & Hl). destruct (t !! k') eqn:E; simplify_eq/=. done.
  - intros [Hk Ht]. exists k. by rewrite Ht.
Qed.

Lemma chain_keys D t : (forall k, k ∈ D -> is_Some (t !! k)) -> (chain_entries D t).*1 = D.
Proof.
  unfold chain_entries. induction D as [|k D IH]; intros HD; [done|]. cbn.
  destruct (HD k) as [e He]; [set_solver|]. rewrite He. cbn. f_equal.
  apply IH. set_solver.
Qed.

Lemma lookup_chain D t k :
  NoDup D -> (forall k, k ∈ D -> is_Some (t !! k)) ->
  (list_to_map (chain_entries D t) : gmap bytes PgRedisEntry) !! k =
    if decide (k ∈ D) then t !! k else None.
Proof.
  intros Hnd HD. apply option_eq. intros e.
  rewrite <- elem_of_list_to_map by (by rewrite chain_keys).
  rewrite elem_of_chain. case_decide; naive_solver.
Qed.

(** ** Executing the plans *)

Definition flush_tables (b : FlushBatch) (dels : list bytes) (d : Db) : Db :=
  let store1 := list_to_map (store_rows b) ∪ store d in
  {| store := filter (fun p => p.1 ∉ dels) store1;
     hash_fields := filter (fun p => ~ (p.1.1 ∈ dels /\ is_Some (store1 !! p.1.1)))
       (list_to_map (hf_up b) ∪ filter (fun p => p.1 ∉ hf_del b) (hash_fields d));
     list_items := filter (fun p => ~ (p.1.1 ∈ dels /\ is_Some (store1 !! p.1.1)))
       (list_to_map (li_ins b) ∪ filter (fun p => p.1 ∉ li_del b) (list_items d)) |}.

Lemma set_db_id s : set_db (db s) s = s.
Proof. by destruct s. Qed.

Lemma exec_ok {A} (l : list A) stmt s d :
  stmt (db s) = Ret d -> (l = [] -> d = db s) -> exec (nonempty l) stmt s = (Ret tt, set_db d s).
Proof.
  intros Hs Hnil. unfold exec. destruct l; simpl; [|by rewrite Hs].
  by rewrite Hnil, set_db_id.
Qed.

Lemma bind_exec {A B} (l : list A) stmt (k : unit -> M Backend B) s d :
  stmt (db s) = Ret d -> (l = [] -> d = db s) ->
  (exec (nonempty l) stmt ≫= k) s = k tt (set_db d s).
Proof. intros Hs Hnil. by apply bind_Ret, exec_ok. Qed.

Lemma filter_not_in_nil {K A} `{Countable K} (m : gmap K A) : filter (fun p => p.1 ∉ []) m = m.
Proof. apply map_filter_id. set_solver. Qed.

Record batch_ok (b : FlushBatch) (d : Db) : Prop := {
  bo_store : NoDup (store_rows b).*1;
  bo_hf_up : NoDup (hf_up b).*1;
  bo_li_ins : NoDup (li_ins b).*1;
  bo_hf_fk : forall r, r ∈ hf_up b -> r.1.1 ∈ (store_rows b).*1;
  bo_li_fk : forall r, r ∈ li_ins b -> r.1.1 ∈ (store_rows b).*1;
  bo_li_fresh : forall r, r ∈ li_ins b -> r.1 ∈ li_del b \/ list_items d !! r.1 = None
}.

Lemma flush_execute_ok b dels s :
  batch_ok b (db s) ->
  flush_execute b dels s = (Ret tt, set_db (flush_tables b dels (db s)) s).
Proof.
  intros [Hst Hhu Hli Hhfk Hlfk Hfresh]. unfold flush_execute.
  set (store1 := (list_to_map (store_rows b) ∪ store (db s)) : gmap bytes StoreRow).
  assert (Hfk : forall k, k ∈ (store_rows b).*1 -> is_Some (store1 !! k)).
  { intros k Hk. apply list_elem_of_fmap in Hk as ([k' r] & -> & Hin). cbn [fst].
    apply elem_of_list_to_map_1 in Hin; [|done]. exists r. unfold store1.
    by rewrite lookup_union, Hin, union_Some_l. }
  set (h1 := filter (fun p : bytes * bytes * option bytes => p.1 ∉ hf_del b) (hash_fields (db s))).
  set (l1 := filter (fun p : bytes * Z * option bytes => p.1 ∉ li_del b) (list_items (db s))).
  assert (Hfr : Forall (fun r : bytes * Z * option bytes => l1 !! r.1 = None) (li_ins b)).
  { apply Forall_forall. intros r Hr. apply map_lookup_filter_None.
    destruct (Hfresh r Hr) as [Hd|Hn]; [right|by left]. intros v _ Hnd. by apply Hnd. }
  rewrite (bind_exec (store_rows b) _ _ s
    {| store := store1; hash_fields := hash_fields (db s); list_items := list_items (db s) |});
    [|unfold SQL_STORE_UPSERT; by rewrite distinct_on_last_nodup
     |intros E; unfold store1; rewrite E; cbn; rewrite (left_id_L ∅ _); by destruct (db s)].
  rewrite (bind_exec (hf_del b) _ _ _
    {| store := store1; hash_fields := h1; list_items := list_items (db s) |});
    [|done|intros E; unfold h1; by rewrite E, filter_not_in_nil].
  rewrite (bind_exec (hf_up b) _ _ _
    {| store := store1; hash_fields := list_to_map (hf_up b) ∪ h1; list_items := list_items (db s) |});
    [|unfold SQL_HASH_FIELD_UPSERT; rewrite bool_decide_true by (apply Forall_forall; naive_solver);
      by rewrite distinct_on_last_nodup
     |intros E; rewrite E; cbn; by rewrite (left_id_L ∅ _)].
  rewrite (bind_exec (li_del b) _ _ _
    {| store := store1; hash_fields := list_to_map (hf_up b) ∪ h1; list_items := l1 |});
    [|done|intros E; unfold l1; by rewrite E, filter_not_in_nil].
  rewrite (bind_exec (li_ins b) _ _ _
    {| store := store1; hash_fields := list_to_map (hf_up b) ∪ h1;
       list_items := list_to_map (li_ins b) ∪ l1 |});
    [|unfold SQL_LIST_ITEM_INSERT; rewrite bool_decide_true by done;
      by rewrite bool_decide_true by (apply Forall_forall; naive_solver)
     |intros E; rewrite E; cbn; by rewrite (left_id_L ∅ _)].
  cbv beta. rewrite (exec_ok dels _ _ (flush_tables b dels (db s))); [done|done|].
  intros ->. unfold flush_tables. cbn. fold store1. rewrite filter_not_in_nil.
  f_equal; apply map_filter_id; set_solver.
Qed.

Section FlushOk.
Context (asof : Z) (s : Backend) (Hsync : session_sync asof s).

#[local] Notation D := (dirty_head (kv s)).
#[local] Notation t := (htab (kv s)).
#[local] Notation es := (chain_entries D t).
#[local] Notation b := (flush_collect es).
#[local] Notation dels := (flush_deletes (pending_deletes_head (kv s)) D).
#[local] Notation d' := (flush_tables b dels (db s)).

Lemma dirty_present k : k ∈ D -> is_Some (t !! k).
Proof. intros (e & He & _)%(kw_chain _ (sy_kv _ _ Hsync)). eauto. Qed.

Lemma es_keys : es.*1 = D.
Proof. apply chain_keys, dirty_present. Qed.

Lemma es_NoDup : NoDup es.*1.
Proof. rewrite es_keys. apply kw_nodup, Hsync. Qed.

Lemma es_lookup k :
  (list_to_map es : gmap bytes PgRedisEntry) !! k = if decide (k ∈ D) then t !! k else None.
Proof. apply lookup_chain; [apply kw_nodup, Hsync|apply dirty_present]. Qed.

Lemma es_synced k e : (k, e) ∈ es -> coll_synced (db s) k (e_value e) /\ entry_wf e.
Proof.
  intros [_ He]%elem_of_chain. split; [|exact (kw_entries _ (sy_kv _ _ Hsync) _ _ He)].
  pose proof (sy_keys _ _ Hsync k) as Hk. unfold key_synced in Hk. rewrite He in Hk. apply Hk.
Qed.

Lemma store_rows_keys : (store_rows b).*1 = D.
Proof. cbn. rewrite <- list_fmap_compose. exact es_keys. Qed.

Lemma entry_li_ins_NoDup e : entry_wf e -> NoDup (entry_li_ins e).*1.
Proof.
  unfold entry_wf, entry_li_ins. destruct (e_value e) as [| | |[l|]]; try (intros; constructor).
  apply pending_insert_ords_NoDup.
Qed.

Lemma entry_hf_up_NoDup e : NoDup (entry_hf_up e).*1.
Proof.
  unfold entry_hf_up. destruct (e_value e) as [| |[h|]|]; try constructor. apply dirty_fields_NoDup.
Qed.

Lemma batch_is_ok : batch_ok b (db s).
Proof.
  split.
  - rewrite store_rows_keys. apply kw_nodup, Hsync.
  - apply nested_NoDup; [apply es_NoDup|]. intros p _. apply entry_hf_up_NoDup.
  - apply nested_NoDup; [apply es_NoDup|]. intros [k e] Hin.
    apply entry_li_ins_NoDup. by apply (es_synced k e).
  - intros r ([k e] & Hin & Hr)%elem_of_flat_map. rewrite store_rows_keys, <- es_keys.
    apply list_elem_of_fmap in Hr as (q & -> & _). apply list_elem_of_fmap. by exists (k, e).
  - intros r ([k e] & Hin & Hr)%elem_of_flat_map. rewrite store_rows_keys, <- es_keys.
    apply list_elem_of_fmap in Hr as (q & -> & _). apply list_elem_of_fmap. by exists (k, e).
  - intros r ([k e] & Hin & Hr)%elem_of_flat_map. destruct (es_synced k e Hin) as [Hc Hw].
    apply list_elem_of_fmap in Hr as ([o v] & -> & Ho). cbn [fst snd] in *.
    unfold entry_li_ins, coll_synced, entry_wf in *.
    destruct (e_value e) as [| | |[l|]] eqn:Ev; try (by apply elem_of_nil in Ho).
    destruct Hc as (rows & Hr & Hs). pose proof (pending_inserts_fresh rows l o v Hw Hs Ho) as Hf.
    apply map_lookup_filter_None in Hf as [Hn|Hd].
    + right. by rewrite Hr, Hn.
    + destruct (rows !! o) as [w|] eqn:Er; [|right; by rewrite Hr, Er]. left.
      apply elem_of_flat_map. exists (k, e). split; [done|]. apply list_elem_of_fmap.
      exists o. split; [done|]. cbn [snd]. unfold entry_li_del. rewrite Ev.
      destruct (decide (o ∈ l_pending_delete_ords l)); [done|]. by destruct (Hd w eq_refl).
Qed.

Lemma store_rows_lookup k :
  (list_to_map (store_rows b) : gmap bytes StoreRow) !! k =
    if decide (k ∈ D) then parent_row <$> t !! k else None.
Proof.
  cbn [store_rows flush_collect].
  rewrite (list_to_map_fmap parent_row es), lookup_fmap, es_lookup. by case_decide.
Qed.

Lemma dels_spec k : k ∈ dels <-> k ∉ D /\ k ∈ pending_deletes_head (kv s).
Proof. unfold flush_deletes. by rewrite list_elem_of_filter. Qed.

Lemma store_after k :
  store d' !! k =
    if decide (k ∈ D) then parent_row <$> t !! k
    else if decide (k ∈ pending_deletes_head (kv s)) then None else store (db s) !! k.
Proof.
  cbn [store flush_tables]. apply option_eq. intros row.
  rewrite map_lookup_filter_Some, lookup_union, store_rows_lookup. cbn [fst]. rewrite dels_spec.
  destruct (decide (k ∈ D)) as [HD|HD].
  - destruct (dirty_present k HD) as [e ->]. cbn. rewrite union_Some_l. tauto.
  - rewrite (left_id None _). case_decide; naive_solver.
Qed.

Lemma dirty_not_deleted k : k ∈ D -> k ∉ dels.
Proof. rewrite dels_spec. tauto. Qed.

Lemma clean_rows_kept k :
  k ∉ D -> k ∉ dels ->
  same_children (db s) d' k.
Proof.
  intros HD Hk. split; intros x; cbn [hash_fields list_items flush_tables flush_collect hf_up hf_del li_ins li_del];
    rewrite filter_keep by (cbn; tauto); rewrite nested_rows_after by apply es_NoDup;
    by rewrite es_lookup, decide_False.
Qed.

Lemma hash_durable k e h :
  k ∈ D -> t !! k = Some e -> e_value e = VHash (Some h) -> hash_rows_are d' k (hash_view h).
Proof.
  intros HD He Ev f. destruct (es_synced k e) as [Hc _]; [by apply elem_of_chain|].
  unfold coll_synced in Hc. rewrite Ev in Hc. destruct Hc as (rows & Hr & Hs).
  rewrite <- (hash_flush_rows rows h Hs). cbn [hash_fields flush_tables flush_collect hf_up hf_del].
  rewrite filter_keep by (pose proof (dirty_not_deleted k HD); cbn; tauto).
  rewrite nested_rows_after by apply es_NoDup. rewrite es_lookup, decide_True, He by done.
  unfold entry_hf_up, entry_hf_del, hash_rows_after. rewrite Ev, Hr. apply delta_lookup.
Qed.

Lemma list_durable k e l :
  k ∈ D -> t !! k = Some e -> e_value e = VList (Some l) -> list_rows_are d' k (list_rows l).
Proof.
  intros HD He Ev o. destruct (es_synced k e) as [Hc Hw]; [by apply elem_of_chain|].
  unfold coll_synced, entry_wf in *. rewrite Ev in *. destruct Hc as (rows & Hr & Hs).
  rewrite <- (list_flush_rows rows l Hw Hs). cbn [list_items flush_tables flush_collect li_ins li_del].
  rewrite filter_keep by (pose proof (dirty_not_deleted k HD); cbn; tauto).
  rewrite nested_rows_after by apply es_NoDup. rewrite es_lookup, decide_True, He by done.
  unfold entry_li_ins, entry_li_del. rewrite Ev, Hr. apply delta_lookup.
Qed.

(** Every entry is represented once the plans have run. *)
Lemma flush_durable k e : t !! k = Some e -> durable_is d' k e.
Proof.
  intros He. destruct (decide (k ∈ D)) as [HD|HD].
  - split; [exists (parent_row e); rewrite store_after; destruct (decide (k ∈ D)); [by rewrite He|done]|].
    destruct (e_value e) as [| |[h|]|[l|]] eqn:Ev; try done; [by eapply hash_durable|by eapply list_durable].
  - pose proof (sy_keys _ _ Hsync k) as Hk. unfold key_synced in Hk. rewrite He in Hk.
    assert (Hd : e_in_dirty_set e = false).
    { destruct (e_in_dirty_set e) eqn:Hd; [|done]. destruct HD.
      apply (kw_chain _ (sy_kv _ _ Hsync)). eauto. }
    destruct Hk as [_ Hk]. destruct (Hk Hd) as [[(row & Hrow & Hsh) Hch] Hnp].
    destruct (clean_rows_kept k HD) as [Hh Hl]; [rewrite dels_spec; tauto|]. split.
    + exists row. split; [|done]. rewrite store_after. destruct (decide (k ∈ D)); [done|].
      by rewrite decide_False.
    + unfold hash_rows_are, list_rows_are in *.
      destruct (e_value e) as [| |[h|]|[l|]]; try done; intros x; [by rewrite Hh|by rewrite Hl].
Qed.

Lemma flush_gone k : t !! k = None -> gone asof d' k.
Proof.
  intros He. unfold gone. rewrite store_after. destruct (decide (k ∈ D)) as [HD|HD].
  - by rewrite He.
  - pose proof (sy_keys _ _ Hsync k) as Hk. unfold key_synced in Hk. rewrite He in Hk.
    case_decide as Hp; [done|]. destruct Hk as [|Hk]; [done|]. unfold gone in Hk.
    destruct (clean_rows_kept k HD) as [Hh Hl]; [rewrite dels_spec; tauto|].
    destruct (store (db s) !! k); [|done].
    destruct Hk as [?|[[? Hr]|[? Hr]]]; [by left|right; left|right; right];
      (split; [done|]); intros x; [by rewrite Hh|by rewrite Hl].
Qed.

Lemma flush_fk : db_fk d'.
Proof.
  assert (Hkeep : forall k, is_Some ((list_to_map (store_rows b) ∪ store (db s) : gmap bytes StoreRow) !! k) ->
    k ∉ dels -> is_Some (store d' !! k)).
  { intros k [r Hr] Hk. exists r. by apply map_lookup_filter_Some. }
  assert (Hold : forall k, is_Some (store (db s) !! k) ->
    is_Some ((list_to_map (store_rows b) ∪ store (db s) : gmap bytes StoreRow) !! k)).
  { intros k Hk. apply lookup_union_is_Some. by right. }
  assert (Hnew : forall k, k ∈ (store_rows b).*1 ->
    is_Some ((list_to_map (store_rows b) ∪ store (db s) : gmap bytes StoreRow) !! k)).
  { intros k Hk. rewrite store_rows_keys in Hk. destruct (dirty_present k Hk) as [e He].
    rewrite lookup_union, store_rows_lookup, decide_True, He by done. cbn. by rewrite union_Some_l. }
  destruct (sy_fk _ _ Hsync) as [Hfh Hfl]. pose proof batch_is_ok as [_ _ _ Hbh Hbl _].
  split; intros k x v [Hx Hn]%filter_lookup_some; cbn [fst] in Hn.
  - assert (Hs : is_Some ((list_to_map (store_rows b) ∪ store (db s) : gmap bytes StoreRow) !! k)).
    { apply lookup_union_Some_raw in Hx as [Hx|[_ [Hx _]%filter_lookup_some]]; [|by eapply Hold, Hfh].
      apply Hnew, (Hbh (k, x, v)). by apply lookup_list_to_map_in. }
    apply Hkeep; [done|]. tauto.
  - assert (Hs : is_Some ((list_to_map (store_rows b) ∪ store (db s) : gmap bytes StoreRow) !! k)).
    { apply lookup_union_Some_raw in Hx as [Hx|[_ [Hx _]%filter_lookup_some]]; [|by eapply Hold, Hfl].
      apply Hnew, (Hbl (k, x, v)). by apply lookup_list_to_map_in. }
    apply Hkeep; [done|]. tauto.
Qed.
End FlushOk.

(** ** The entries after a flush *)

Lemma lookup_alter_all f ks x k :
  NoDup ks ->
  htab (alter_all f ks x) !! k = (if decide (k ∈ ks) then f else id) <$> htab x !! k.
Proof.
  unfold alter_all. cbn [htab set_htab]. intros Hnd. induction Hnd as [|y ks Hy _ IH]; cbn [foldr].
  - rewrite decide_False by set_solver. by rewrite option_fmap_id.
  - rewrite lookup_alter, IH. destruct (decide (y = k)) as [->|Hne].
    + rewrite IH, (decide_False (P := k ∈ ks)) by done.
      rewrite (decide_True (P := k ∈ k :: ks)) by set_solver. by rewrite option_fmap_id.
    + destruct (decide (k ∈ ks)).
      * by rewrite (decide_True (P := k ∈ y :: ks)) by set_solver.
      * by rewrite (decide_False (P := k ∈ y :: ks)) by set_solver.
Qed.

(** A dirty entry once collected and cleared. *)
Definition settled (e : PgRedisEntry) : PgRedisEntry := flushed_entry (collected_entry e).

Definition clean_value (v : PgRedisValue) : PgRedisValue :=
  match v with
  | VHash (Some h) => VHash (Some (hash_clean h))
  | VList (Some l) => VList (Some (list_clean l))
  | v => v
  end.

Lemma settled_fields e :
  e_value (settled e) = clean_value (e_value e) /\ e_in_dirty_set (settled e) = false /\
  e_has_expire (settled e) = e_has_expire e /\ e_expire_at (settled e) = e_expire_at e.
Proof.
  destruct e as [v x h d del m ver]. unfold settled, collected_entry, flushed_entry. cbn.
  destruct v as [| |[h0|]|[l|]]; cbn; done.
Qed.

Lemma list_clean_items l : Deque.items (list_clean l) = Deque.items l.
Proof. unfold Deque.items, list_clean. cbn. by rewrite <- list_fmap_compose. Qed.

Lemma list_clean_rows l : list_rows (list_clean l) = list_rows l.
Proof. unfold list_rows, list_clean. cbn. by rewrite <- list_fmap_compose. Qed.

Lemma clean_value_view v : val_view (clean_value v) = val_view v.
Proof. destruct v as [| |[h|]|[l|]]; cbn [clean_value val_view from_option];
  by rewrite ?hash_clean_view, ?list_clean_items. Qed.

Lemma clean_value_wf v : value_wf v -> value_wf (clean_value v).
Proof. destruct v as [| |[h|]|[l|]]; cbn [clean_value value_wf from_option]; auto using hash_clean_wf, list_clean_wf. Qed.

Lemma settled_view e : entry_view (settled e) = entry_view e.
Proof.
  destruct (settled_fields e) as (Hv & _ & Hh & Hx). unfold entry_view.
  by rewrite Hv, Hh, Hx, clean_value_view.
Qed.

Lemma settled_wf e : entry_wf e -> entry_wf (settled e).
Proof. unfold entry_wf. rewrite (proj1 (settled_fields e)). apply clean_value_wf. Qed.

Lemma settled_type e : e_type (settled e) = e_type e.
Proof. rewrite <- !e_type_view. by rewrite settled_view. Qed.

Lemma settled_parent_value e : parent_value (settled e) = parent_value e.
Proof.
  unfold parent_value. rewrite settled_type. unfold pg_redis_encode_value, e_type.
  rewrite (proj1 (settled_fields e)). by destruct (e_value e) as [| |[h|]|[l|]].
Qed.

Lemma durable_settled d k e : durable_is d k e -> durable_is d k (settled e).
Proof.
  intros [(row & Hrow & Ht & Hval & Hx) Hch].
  pose proof (settled_fields e) as (Hv & _ & Hhas & Hexp). split.
  - exists row. split; [done|]. unfold row_shows.
    by rewrite settled_type, settled_parent_value, Hhas, Hexp.
  - rewrite Hv. destruct (e_value e) as [| |[h|]|[l|]]; cbn [clean_value]; try done.
    + by rewrite hash_clean_view.
    + by rewrite list_clean_rows.
Qed.

Lemma durable_coll_synced d k e : entry_wf e -> durable_is d k e -> coll_synced d k (e_value (settled e)).
Proof.
  intros Hw [_ Hch]. rewrite (proj1 (settled_fields e)). unfold entry_wf in Hw.
  destruct (e_value e) as [| |[h|]|[l|]]; cbn [clean_value coll_synced] in *; try done;
    eexists; (split; [exact Hch|]).
  - apply hash_clean_synced.
  - by apply list_clean_synced.
Qed.

(** ** run_flush *)

(** The state run_flush reaches. *)
Definition flushed_kv (x : KvState) : KvState :=
  alter_all flushed_entry (dirty_head x)
    (alter_all collected_entry (dirty_head x)
       {| htab := htab x; dirty_head := []; pending_deletes_head := [] |}).

Definition flushed_backend (s : Backend) : Backend :=
  let es := chain_entries (dirty_head (kv s)) (htab (kv s)) in
  set_kv (flushed_kv (kv s))
    (set_db (flush_tables (flush_collect es)
               (flush_deletes (pending_deletes_head (kv s)) (dirty_head (kv s))) (db s)) s).

Lemma run_flush_eq asof s :
  session_sync asof s -> run_flush s = (Ret tt, flushed_backend s).
Proof.
  intros Hsync. pose proof (batch_is_ok asof s Hsync) as Hb. unfold run_flush.
  rewrite (bind_Ret (on_kv pg_redis_dirty_head_take) _ s _ _ eq_refl).
  rewrite (bind_Ret (on_kv pg_redis_pending_deletes_take) _ _ _ _ eq_refl).
  cbn [fst kv set_kv pending_deletes_head].
  destruct (nonempty (dirty_head (kv s)) || nonempty (pending_deletes_head (kv s))) eqn:Hne.
  - rewrite (bind_Ret (gets _) _ _ _ _ eq_refl), (bind_Ret (upd_kv _) _ _ _ _ eq_refl).
    erewrite bind_Ret; [|by apply flush_execute_ok]. done.
  - unfold flushed_backend, flushed_kv, alter_all.
    destruct (dirty_head (kv s)); [|done]. destruct (pending_deletes_head (kv s)); [|done].
    (* No plan runs, and the tables are what no plan leaves. *)
    assert (Hnop : set_db (flush_tables (flush_collect []) [] (db s)) s = s).
    { pose proof (flush_execute_ok _ [] s Hb) as Hx. cbn in Hx. by injection Hx. }
    cbn [chain_entries omap list_omap flush_deletes]. unfold flush_deletes. cbn [filter list_filter].
    by rewrite Hnop.
Qed.

Section FlushOutcome.
Context (asof : Z) (s : Backend) (Hsync : session_sync asof s).

Lemma flushed_lookup k :
  htab (kv (flushed_backend s)) !! k =
    (if decide (k ∈ dirty_head (kv s)) then settled else id) <$> htab (kv s) !! k.
Proof.
  pose proof (kw_nodup _ (sy_kv _ _ Hsync)) as Hnd. unfold flushed_backend, flushed_kv.
  cbn [kv set_kv]. rewrite !lookup_alter_all by done. cbn [htab].
  case_decide; destruct (htab (kv s) !! k); done.
Qed.

Lemma flushed_lookup_some k e' :
  htab (kv (flushed_backend s)) !! k = Some e' ->
  exists e, htab (kv s) !! k = Some e /\ e_in_dirty_set e' = false /\ entry_view e' = entry_view e /\
    (e' = settled e \/ e' = e /\ e_in_dirty_set e = false).
Proof.
  rewrite flushed_lookup. intros Hk. destruct (htab (kv s) !! k) as [e|] eqn:He; [|done].
  exists e. split; [done|]. case_decide as HD; cbn in Hk; injection Hk as <-.
  - split_and!; [apply settled_fields|apply settled_view|by left].
  - assert (Hd : e_in_dirty_set e = false).
    { destruct (e_in_dirty_set e) eqn:Hd; [|done]. destruct HD.
      apply (kw_chain _ (sy_kv _ _ Hsync)). eauto. }
    split_and!; [done..|]. by right.
Qed.

Lemma flushed_durable k e' :
  htab (kv (flushed_backend s)) !! k = Some e' -> durable_is (db (flushed_backend s)) k e'.
Proof.
  intros (e & He & _ & _ & Hcase)%flushed_lookup_some.
  pose proof (flush_durable asof s Hsync k e He) as Hd.
  destruct Hcase as [->|[-> _]]; [by apply durable_settled|done].
Qed.

Lemma flushed_sync : session_sync asof (flushed_backend s).
Proof.
  assert (Hwf : kv_wf (kv (flushed_backend s))).
  { split.
    - constructor.
    - intros k. split; [set_solver|]. intros (e & (e0 & _ & Hd & _)%flushed_lookup_some & ?). congruence.
    - intros k e (e0 & He0 & _ & _ & Hc)%flushed_lookup_some.
      pose proof (kw_entries _ (sy_kv _ _ Hsync) _ _ He0) as Hw.
      destruct Hc as [->|[-> _]]; [by apply settled_wf|done]. }
  split; [done|exact (flush_fk asof s Hsync)| |].
  - intros k. unfold key_synced. destruct (htab (kv (flushed_backend s)) !! k) as [e'|] eqn:Hk.
    + pose proof (flushed_durable k e' Hk) as Hdur. split; [|intros _; split; [done|set_solver]].
      pose proof (kw_entries _ Hwf _ _ Hk) as Hw'.
      destruct (flushed_lookup_some k e' Hk) as (e & He & _ & _ & [->|[-> Hd]]).
      * apply durable_coll_synced; [by eapply kw_entries, He; apply Hsync|].
        exact (flush_durable asof s Hsync k e He).
      * pose proof (sy_keys _ _ Hsync k) as Hold. unfold key_synced in Hold. rewrite He in Hold.
        destruct Hold as [Hcs Hold]. destruct (Hold Hd) as [_ Hnp].
        apply (coll_synced_ext (db s)); [|done]. apply (clean_rows_kept asof s Hsync k).
        -- rewrite (kw_chain _ (sy_kv _ _ Hsync)). intros (e1 & He1 & Hd1). congruence.
        -- rewrite dels_spec. tauto.
    + right. apply (flush_gone asof s Hsync). rewrite flushed_lookup in Hk.
      by destruct (htab (kv s) !! k).
  - by rewrite flushed_lookup, (sy_nonempty _ _ Hsync).
Qed.

Lemma flushed_view : entry_view <$> htab (kv (flushed_backend s)) = entry_view <$> htab (kv s).
Proof.
  apply map_eq. intros k. rewrite !lookup_fmap, flushed_lookup.
  destruct (htab (kv s) !! k) as [e|]; [|done]. cbn. f_equal.
  case_decide; [apply settled_view|done].
Qed.
End FlushOutcome.
