(* ===== verification/SessionLaws.v ===== *)
(** * The per-backend keyspace implements the store interface

    Session mode (src/kv_store.c over the per-backend table) satisfies
    [StoreLaws] and [DirectStore], first for its in-memory invariant alone,
    then together with the synchronisation of memory and tables: every command
    keeps the deltas exact. *)
From S2P Require Import Prelude Types Binval Utils ListValue HashValue StoreInterface KvStore Db.
From S2P Require Import Persistence Flush.

(** ** What the operations compute *)

Section Equations.
Context (clock : nat -> Z).

Definition has_deadline (s : Backend) (k : bytes) : bool :=
  match htab (kv s) !! k with Some e => e_has_expire e | None => false end.

Lemma session_upsert_eq k s :
  session_upsert clock k s =
    (Ret (k, (pg_redis_store_upsert (clock (readings s)) k (kv s)).1),
     set_kv (pg_redis_store_upsert (clock (readings s)) k (kv s)).2
       (if has_deadline s k then tick s else s)).
Proof.
  unfold session_upsert, has_deadline, pg_redis_store_upsert, pg_redis_entry_is_expired.
  rewrite (bind_Ret (gets _) _ _ _ _ eq_refl).
  destruct (htab (kv s) !! k) as [e|] eqn:E; [destruct (e_has_expire e) eqn:Hx|].
  - rewrite (bind_Ret (GetCurrentTimestamp clock) _ _ _ _ eq_refl).
    unfold on_kv, mbind, M_bind, pg_redis_store_upsert, pg_redis_entry_is_expired.
    cbn [kv tick]. rewrite E, Hx. cbn [negb]. by destruct (_ <=? _).
  - rewrite bind_mret. unfold on_kv, mbind, M_bind, pg_redis_store_upsert, pg_redis_entry_is_expired.
    by rewrite E, Hx.
  - rewrite bind_mret. unfold on_kv, mbind, M_bind, pg_redis_store_upsert.
    by rewrite E.
Qed.

Lemma remove_eq k s :
  on_kv (pg_redis_store_remove k) s =
    (Ret (pg_redis_store_remove k (kv s)).1, set_kv (pg_redis_store_remove k (kv s)).2 s).
Proof. unfold on_kv. by destruct (pg_redis_store_remove k (kv s)). Qed.
End Equations.

Definition session_view (s : Backend) : gmap bytes AEntry := entry_view <$> htab (kv s).
Definition session_refs (s : Backend) (r : bytes) : option (bytes * PgRedisEntry) :=
  (fun e => (r, e)) <$> htab (kv s) !! r.

Lemma session_refs_inv s r k e : session_refs s r = Some (k, e) -> r = k /\ htab (kv s) !! k = Some e.
Proof. unfold session_refs. destruct (htab (kv s) !! r) eqn:E; [|done]. cbn. by intros [= <- <-]. Qed.

(** ** Views of the operations *)

Lemma upsert_spec now k x :
  match htab x !! k with
  | Some e => if a_expired now (entry_view e)
              then exists e', pg_redis_store_upsert now k x = (true, set_htab (<[k := e']> (htab x)) x) /\
                   entry_view e' = fresh_aentry /\ e_value e' = VString None /\
                   e_in_dirty_set e' = e_in_dirty_set e
              else pg_redis_store_upsert now k x = (false, x)
  | None => pg_redis_store_upsert now k x = (true, set_htab (<[k := fresh_entry]> (htab x)) x)
  end.
Proof.
  unfold pg_redis_store_upsert. destruct (htab x !! k) as [e|]; [|done].
  rewrite is_expired_view. destruct (a_expired now (entry_view e)); [|done].
  eexists. split; [done|]. split_and!; done.
Qed.

Lemma remove_spec k x :
  (pg_redis_store_remove k x).1 = bool_decide (is_Some (htab x !! k)) /\
  htab (pg_redis_store_remove k x).2 = delete k (htab x) /\
  (k <> [] -> pending_deletes_head (pg_redis_store_remove k x).2 =
    if decide (is_Some (htab x !! k)) then k :: pending_deletes_head x else pending_deletes_head x).
Proof.
  unfold pg_redis_store_remove. destruct (htab x !! k) as [e|] eqn:E.
  - cbn [fst snd]. rewrite bool_decide_true, decide_True by eauto. cbn [htab set_htab].
    rewrite (proj1 (mark_deleted_fields _ _)). split_and!; [done..|]. by destruct k.
  - rewrite bool_decide_false, decide_False by (by intros [? ?]). cbn [fst snd].
    by rewrite delete_id.
Qed.

Lemma mark_dirty_spec k x e :
  htab x !! k = Some e ->
  exists e', htab (pg_redis_mark_dirty k x) = <[k := e']> (htab x) /\
    e_in_dirty_set e' = true /\ e_value e' = e_value e /\ entry_view e' = entry_view e /\
    pending_deletes_head (pg_redis_mark_dirty k x) = pending_deletes_head x.
Proof.
  intros E. unfold pg_redis_mark_dirty. rewrite E. destruct (e_in_dirty_set e) eqn:Hd.
  - exists e. by rewrite insert_id.
  - eexists. split; [done|]. done.
Qed.

(** ** Policies

    What is demanded of the tables next to the in-memory invariant: of each
    key ([pol_key]), of the key under construction ([pol_open]), and for the
    creation of a collection ([pol_create]). *)
Class SyncPolicy := {
  pol_db : Db -> Prop;
  pol_key : Db -> KvState -> bytes -> Prop;
  pol_open : Db -> option PgRedisEntry -> bytes -> Prop;
  pol_create : Db -> bytes -> Prop;
  pol_key_open d x k : pol_key d x k -> pol_open d (htab x !! k) k;
  pol_key_ext d x x' k :
    htab x' !! k = htab x !! k ->
    (k ∈ pending_deletes_head x' <-> k ∈ pending_deletes_head x) ->
    pol_key d x k -> pol_key d x' k;
  pol_open_ext d e e' k : e_value e' = e_value e -> pol_open d (Some e) k -> pol_open d (Some e') k;
  pol_fresh d e k : e_value e = VString None -> pol_open d (Some e) k;
  pol_step d e e' k : value_step (pol_create d k) (e_value e) (e_value e') ->
    pol_open d (Some e) k -> pol_open d (Some e') k;
  pol_dirty d x k e : htab x !! k = Some e -> e_in_dirty_set e = true ->
    pol_open d (Some e) k -> pol_key d x k;
  pol_removed d x k : htab x !! k = None -> k ∈ pending_deletes_head x -> pol_key d x k
}.

(** Memory alone. *)
#[export] Instance memory_policy : SyncPolicy | 10.
Proof.
  refine {| pol_db _ := True; pol_key _ _ _ := True; pol_open _ _ _ := True; pol_create _ _ := True |};
    done.
Defined.

(** Memory and tables. *)
Definition no_children (d : Db) (k : bytes) : Prop :=
  hash_rows_are d k ∅ /\ list_rows_are d k ∅.

Lemma coll_synced_step d k v v' :
  value_step (no_children d k) v v' -> coll_synced d k v -> coll_synced d k v'.
Proof.
  intros Hs Hc. destruct Hs as [v|v v' Hv|h h' Hh|l l' Hl|v h' Hn _ Hh|v l' Hn _ Hl]; try done.
  - by destruct v'.
  - destruct Hc as (rows & Hr & Hy). exists rows. eauto.
  - destruct Hc as (rows & Hr & Hy). exists rows. eauto.
  - exists ∅. split; [apply Hn|done].
  - exists ∅. split; [apply Hn|done].
Qed.

Definition table_policy (asof : Z) : SyncPolicy.
Proof.
  refine {| pol_db := db_fk; pol_key := key_synced asof;
            pol_open d oe k := match oe with Some e => coll_synced d k (e_value e) | None => True end;
            pol_create := no_children |}.
  - intros d x k. unfold key_synced. destruct (htab x !! k); tauto.
  - intros d x x' k He Hp. unfold key_synced. rewrite He.
    destruct (htab x !! k); [|by rewrite Hp]. by rewrite Hp.
  - intros d e e' k ->. done.
  - intros d e k ->. done.
  - intros d e e' k. apply coll_synced_step.
  - intros d x k e He Hd Hc. unfold key_synced. rewrite He. split; [done|]. congruence.
  - intros d x k He Hp. unfold key_synced. rewrite He. by left.
Defined.

(** ** The laws *)

Section Laws.
Context (cfg : Config) (clock : nat -> Z) `{Pol : SyncPolicy}.
#[local] Existing Instance session_ops.
#[local] Instance ops : StoreOps Backend bytes := session_ops cfg clock.

Record session_open (s : Backend) (k : bytes) : Prop := {
  so_loaded : persistence_loaded s = true;
  so_kv : kv_wf (kv s);
  so_nonempty : htab (kv s) !! [] = None;
  so_db : pol_db (db s);
  so_others : forall k', k' <> k -> pol_key (db s) (kv s) k';
  so_this : pol_open (db s) (htab (kv s) !! k) k
}.

Record session_inv (s : Backend) : Prop := {
  si_loaded : persistence_loaded s = true;
  si_kv : kv_wf (kv s);
  si_nonempty : htab (kv s) !! [] = None;
  si_db : pol_db (db s);
  si_keys : forall k, pol_key (db s) (kv s) k
}.

Lemma inv_open s k : session_inv s -> session_open s k.
Proof. intros [H1 H2 H3 H4 H5]. split; try done. by apply pol_key_open. Qed.

Lemma tick_inv s : session_inv s -> session_inv (tick s).
Proof. by intros []; split. Qed.
Lemma tick_open s k : session_open s k -> session_open (tick s) k.
Proof. by intros []; split. Qed.

(** A change confined to the entry of [k]. *)
Lemma open_insert s k e' :
  session_open s k -> k <> [] -> kv_wf (set_htab (<[k := e']> (htab (kv s))) (kv s)) ->
  pol_open (db s) (Some e') k ->
  session_open (set_kv (set_htab (<[k := e']> (htab (kv s))) (kv s)) s) k.
Proof.
  intros [H1 H2 H3 H4 H5 H6] Hk Hwf Hpol. split; cbn [kv set_kv db persistence_loaded]; try done.
  - cbn. by rewrite lookup_insert_ne.
  - intros k' Hne. apply (pol_key_ext (db s) (kv s)); [|done|by apply H5]. cbn. by rewrite lookup_insert_ne.
  - cbn. by rewrite lookup_insert_eq.
Qed.

Lemma refs_nonempty s k e : session_open s k -> htab (kv s) !! k = Some e -> k <> [].
Proof. intros Ho He ->. by rewrite (so_nonempty _ _ Ho) in He. Qed.

Lemma write_ok r k e e' s :
  session_open s k -> session_refs s r = Some (k, e) -> entry_wf e' ->
  e_in_dirty_set e' = e_in_dirty_set e ->
  value_step (pol_create (db s) k) (e_value e) (e_value e') ->
  exists s', op_write r e' s = (Ret tt, s') /\ session_open s' k /\ session_refs s' r = Some (k, e') /\
    session_view s' = <[k := entry_view e']> (session_view s) /\ readings s' = readings s.
Proof.
  intros Ho Hr Hw Hf Hs. apply session_refs_inv in Hr as [-> He].
  eexists. split; [reflexivity|]. split_and!.
  - apply open_insert; [done|by eapply refs_nonempty| |].
    + eapply kv_wf_insert_keep; [apply Ho|done..].
    + eapply pol_step; [done|]. rewrite <- He. apply Ho.
  - unfold session_refs. cbn. by rewrite lookup_insert_eq.
  - unfold session_view. cbn. by rewrite fmap_insert.
  - done.
Qed.

Lemma mark_ok r k e s :
  session_open s k -> session_refs s r = Some (k, e) -> exists s',
    op_mark_dirty r s = (Ret tt, s') /\ session_inv s' /\ session_view s' = session_view s /\
    readings s' = readings s.
Proof.
  intros Ho Hr. apply session_refs_inv in Hr as [-> He].
  eexists. split; [reflexivity|].
  destruct (mark_dirty_spec k (kv s) e He) as (e' & Ht & Hd & Hv & Hview & Hp). split_and!; [|..|done].
  - destruct Ho as [H1 H2 H3 H4 H5 H6]. split; cbn [kv set_kv db persistence_loaded]; try done.
    + by apply mark_dirty_wf.
    + rewrite Ht, lookup_insert_ne; [done|]. intros ->. congruence.
    + intros k'. destruct (decide (k' = k)) as [->|Hne].
      * eapply pol_dirty; [by rewrite Ht, lookup_insert_eq|done|].
        eapply pol_open_ext; [exact Hv|]. by rewrite <- He.
      * apply (pol_key_ext (db s) (kv s)); [|by rewrite Hp|by apply H5]. by rewrite Ht, lookup_insert_ne.
  - unfold session_view. cbn [kv set_kv]. rewrite Ht, fmap_insert, Hview.
    apply insert_id. by rewrite lookup_fmap, He.
Qed.

Lemma remove_ok k s :
  session_inv s -> exists s',
    op_remove k s = (Ret (bool_decide (is_Some (session_view s !! k))), s') /\
    session_inv s' /\ session_view s' = delete k (session_view s) /\ readings s' = readings s.
Proof.
  intros [H1 H2 H3 H4 H5]. destruct (remove_spec k (kv s)) as (Hb & Ht & Hp).
  cbn [op_remove ops session_ops]. rewrite remove_eq.
  eexists. split; [unfold session_view; rewrite Hb, lookup_fmap; do 2 f_equal;
    by destruct (htab (kv s) !! k)|].
  split_and!; [|by unfold session_view; cbn [kv set_kv]; rewrite Ht, fmap_delete|done].
  split; cbn [kv set_kv db persistence_loaded]; try done.
  - by apply remove_wf.
  - rewrite Ht. apply lookup_delete_None. by right.
  - intros k'. destruct (decide (k = [])) as [->|Hk].
    { apply (pol_key_ext (db s) (kv s)); [by rewrite Ht, (delete_id _ _ H3)| |done].
      unfold pg_redis_store_remove. by rewrite H3. }
    specialize (Hp Hk). destruct (decide (k' = k)) as [->|Hne].
    + destruct (decide (is_Some (htab (kv s) !! k))) as [|Hn].
      * apply pol_removed; [by rewrite Ht, lookup_delete_eq|]. rewrite Hp. set_solver.
      * apply (pol_key_ext (db s) (kv s)); [|by rewrite Hp|done].
        rewrite Ht, lookup_delete_eq. symmetry. by apply eq_None_not_Some.
    + apply (pol_key_ext (db s) (kv s)); [by rewrite Ht, lookup_delete_ne| |done].
      rewrite Hp. case_decide; set_solver.
Qed.

Lemma upsert_ok k s :
  session_inv s -> k <> [] -> exists r e is_new s',
  op_upsert k s = (Ret (r, is_new), s') /\
  session_open s' k /\ session_refs s' r = Some (k, e) /\ entry_wf e /\ db s' = db s /\
  delete k (session_view s') = delete k (session_view s) /\
  readings s' = (readings s + if (session_view s !! k ≫= a_expire : option Z) then 1 else 0)%nat /\
  match session_view s !! k with
  | Some a => if a_expired (clock (readings s)) a
              then is_new = true /\ entry_view e = fresh_aentry
              else is_new = false /\ entry_view e = a /\ session_view s' !! k = Some a /\ session_inv s'
  | None => is_new = true /\ entry_view e = fresh_aentry
  end.
Proof.
  intros Hi Hk. pose proof (upsert_spec (clock (readings s)) k (kv s)) as Hu.
  cbn [op_upsert ops session_ops]. rewrite session_upsert_eq. unfold has_deadline, session_view.
  rewrite lookup_fmap. destruct (htab (kv s) !! k) as [e|] eqn:He; cbn [fmap option_fmap option_map].
  2: { rewrite Hu. cbn [fst snd]. exists k, fresh_entry, true. eexists. split; [done|].
       split_and!; try done; cbn [kv set_kv readings htab set_htab].
       - apply open_insert; [by apply inv_open|done|by apply kv_wf_insert_new; [apply Hi|]|].
         by apply pol_fresh.
       - unfold session_refs. cbn. by rewrite lookup_insert_eq.
       - by rewrite fmap_insert, delete_insert_eq. }
  pose proof (kw_entries _ (si_kv _ Hi) _ _ He) as Hw.
  set (s0 := if e_has_expire e then tick s else s).
  assert (Hs0 : session_inv s0 /\ kv s0 = kv s /\ db s0 = db s /\
    readings s0 = (readings s + if (a_expire (entry_view e)) then 1 else 0)%nat).
  { unfold s0. cbn. destruct (e_has_expire e).
    - split; [by apply tick_inv|]. cbn. split_and!; [done..|lia].
    - split; [done|]. split_and!; [done..|lia]. }
  destruct Hs0 as (Hi0 & Hkv0 & Hdb0 & Ht0).
  destruct (a_expired (clock (readings s)) (entry_view e)).
  - destruct Hu as (e' & -> & Hv & Hval & Hd). cbn [fst snd].
    exists k, e', true. eexists. split; [done|]. rewrite <- Hkv0.
    split_and!; try done; cbn [kv set_kv readings htab set_htab].
    + apply open_insert; [by apply inv_open|done| |by apply pol_fresh].
      eapply kv_wf_insert_keep; [apply Hi0|by rewrite Hkv0|done|]. unfold entry_wf. by rewrite Hval.
    + unfold session_refs. cbn. by rewrite lookup_insert_eq.
    + unfold entry_wf. by rewrite Hval.
    + by rewrite fmap_insert, delete_insert_eq.
  - rewrite Hu. cbn [fst snd].
    assert (Heq : set_kv (kv s) s0 = s0) by (rewrite <- Hkv0; by destruct s0).
    rewrite Heq. exists k, e, false, s0. split; [done|]. rewrite Hkv0.
    split_and!; try done; [by apply inv_open|unfold session_refs; by rewrite Hkv0, He|].
    by rewrite lookup_fmap, He.
Qed.

#[refine] Instance session_laws : StoreLaws Backend bytes := {|
  st_inv := session_inv; st_open := session_open; may_create s k := pol_create (db s) k;
  view := session_view; ticks := readings; clk := clock; refs := session_refs
|}.
Proof.
  - apply inv_open.
  - intros s Hi. exists (tick s). split_and!; try done. by apply tick_inv.
  - intros s Hi. cbn. unfold pg_redis_persistence_load_if_needed.
    rewrite (bind_Ret (gets _) _ _ _ _ eq_refl). by rewrite (si_loaded _ Hi).
  - intros k s Hi Hk. exists s. split_and!; try done. cbn. unfold gets, pg_redis_store_lookup_raw.
    unfold session_view in Hk. rewrite lookup_fmap in Hk. by destruct (htab (kv s) !! k).
  - intros k s a Hi Hk. unfold session_view in Hk. rewrite lookup_fmap in Hk.
    destruct (htab (kv s) !! k) as [e|] eqn:He; [|done]. injection Hk as <-.
    exists k, e, s. split_and!; try done.
    + cbn. unfold gets, pg_redis_store_lookup_raw. by rewrite He.
    + unfold session_refs. by rewrite He.
    + by eapply kw_entries, He; apply Hi.
  - intros k s Hi Hk. destruct (upsert_ok k s Hi Hk) as (r & e & n & s' & H1 & H2 & H3 & H4 & H5 & H6).
    exists r, e, n, s'. rewrite H5. tauto.
  - apply remove_ok.
  - intros r k e s Ho Hr. apply session_refs_inv in Hr as [-> He]. cbn. unfold session_read. by rewrite He.
  - intros r k e e' s Ho Hr Hw Hf Hs.
    destruct (write_ok r k e e' s Ho Hr Hw Hf Hs) as (s1 & E1 & Ho1 & Hr1 & Hv1 & Ht1).
    destruct (mark_ok r k e' s1 Ho1 Hr1) as (s2 & E2 & Hi2 & Hv2 & Ht2).
    exists s2. rewrite (bind_Ret _ _ _ _ _ E1), E2, Hv2, Ht2, Hv1, Ht1. done.
Defined.

#[refine] Instance session_direct : DirectStore Backend bytes := {| direct_no_fast := eq_refl |}.
Proof.
  - apply write_ok.
  - intros k s a Ho Hk. cbn in Hk. unfold session_view in Hk. rewrite lookup_fmap in Hk.
    destruct (htab (kv s) !! k) as [e|] eqn:He; [|done].
    exists k, e, s. split_and!; try done.
    + cbn. unfold gets, pg_redis_store_lookup_raw. by rewrite He.
    + cbn. unfold session_refs. by rewrite He.
  - apply mark_ok.
Defined.
End Laws.
