(* ===== verification/Session.v ===== *)
(** * Transactions of a backend in session mode

    Scripts of commands over the per-backend store: what they answer, and what
    a commit leaves in the tables. *)
From S2P Require Import Prelude Types Binval Utils ListValue HashValue StoreInterface KvStore Commands.
From S2P Require Import CommandSpec Db Persistence Flush SessionLaws.

Section Scripts.
Context (cfg : Config) (clock : nat -> Z).

(** One command of a session. *)
Definition session_cmd (c : cmd) : M Backend reply :=
  @run_cmd cfg Backend bytes (session_ops cfg clock) c.

(** Statement after statement; an error ends the script. *)
Fixpoint session_script (cs : list cmd) : M Backend (list reply) :=
  match cs with
  | [] => mret []
  | c :: cs' => r ← session_cmd c; rs ← session_script cs'; mret (r :: rs)
  end.

Fixpoint spec_script (cs : list cmd) : M ASt (list reply) :=
  match cs with
  | [] => mret []
  | c :: cs' => r ← spec_cmd cfg clock c; rs ← spec_script cs'; mret (r :: rs)
  end.

Definition memory_inv : Backend -> Prop := @session_inv memory_policy.
Definition sync_inv (asof : Z) : Backend -> Prop := @session_inv (table_policy asof).

Lemma sync_inv_iff asof s :
  sync_inv asof s <-> persistence_loaded s = true /\ session_sync asof s.
Proof. split; [intros []; split; [done|by split]|intros [? []]; by split]. Qed.

(** No rows are left under the key, or it is live: a collection is created
    only on a clean slate. *)
Definition fresh_slate (s : Backend) (c : cmd) : Prop :=
  match creates c with
  | None => True
  | Some k => no_children (db s) k \/
              exists e, htab (kv s) !! k = Some e /\
                        pg_redis_entry_is_expired (clock (readings s)) e = false
  end.

Fixpoint script_slates (cs : list cmd) (s : Backend) : Prop :=
  match cs with
  | [] => True
  | c :: cs' => fresh_slate s c /\
                match session_cmd c s with
                | (Ret _, s') => script_slates cs' s'
                | (Raise _, _) => True
                end
  end.

(** One command, under either policy. *)
Lemma session_cmd_sim (Pol : SyncPolicy) c s :
  @session_inv Pol s ->
  @creation_ok Backend bytes (session_ops cfg clock) (session_laws cfg clock) c s ->
  exists o s', session_cmd c s = (o, s') /\ @session_inv Pol s' /\
    spec_cmd cfg clock c (session_view s, readings s) = (o, (session_view s', readings s')).
Proof.
  intros Hi Hok.
  assert (Hc : @closed Backend bytes _ (session_laws cfg clock) s (session_view s, readings s))
    by (split; done).
  pose proof (@run_cmd_refines cfg Backend bytes _ _ (session_direct cfg clock) c s _ Hc Hok) as Hs.
  unfold sim in Hs. unfold session_cmd. cbn [clk session_laws] in Hs.
  destruct (run_cmd cfg c s) as [[r|err] s'],
    (spec_cmd cfg clock c (session_view s, readings s)) as [[r'|err'] t']; try done.
  - destruct Hs as [-> [Hi' ->]]. eauto.
  - destruct Hs as [<- [Hi' ->]]. eauto.
Qed.

Lemma fresh_slate_ok (asof : Z) c s :
  fresh_slate s c ->
  @creation_ok Backend bytes (session_ops cfg clock)
    (@session_laws cfg clock (table_policy asof)) c s.
Proof.
  unfold fresh_slate, creation_ok. destruct (creates c) as [k|]; [|done]. cbn.
  intros [Hn|(e & He & Hx)]; [by left|right]. exists (entry_view e).
  unfold session_view. rewrite lookup_fmap, He. split; [done|]. by rewrite <- is_expired_view.
Qed.

Lemma memory_slate_ok c s :
  @creation_ok Backend bytes (session_ops cfg clock) (@session_laws cfg clock memory_policy) c s.
Proof. unfold creation_ok. destruct (creates c); [|done]. by left. Qed.

Lemma session_cmd_db c s asof :
  sync_inv asof s -> fresh_slate s c -> sync_inv asof (session_cmd c s).2.
Proof.
  intros Hi Hf. destruct (session_cmd_sim (table_policy asof) c s Hi (fresh_slate_ok asof c s Hf))
    as (o & s' & E & Hi' & _). by rewrite E.
Qed.

Lemma session_script_sync cs s asof :
  sync_inv asof s -> script_slates cs s -> sync_inv asof (session_script cs s).2.
Proof.
  revert s. induction cs as [|c cs IH]; intros s Hi Hs; [done|]. destruct Hs as [Hf Hs].
  pose proof (session_cmd_db c s asof Hi Hf) as Hi'. cbn [session_script]. rewrite bind_unfold.
  destruct (session_cmd c s) as [[r|e] s'] eqn:E; [|done]. cbn [snd] in Hi'.
  specialize (IH s' Hi' Hs). rewrite bind_unfold.
  by destruct (session_script cs s') as [[rs|e] s''].
Qed.

(** C4: a session answers every script of commands, errors included, exactly
    as the abstract keyspace does, and ends with the keyspace the
    specification gives. *)
Theorem session_refines_spec (cs : list cmd) (s : Backend) :
  memory_inv s ->
  let '(o, s') := session_script cs s in
  spec_script cs (session_view s, readings s) = (o, (session_view s', readings s')) /\
  memory_inv s'.
Proof.
  revert s. induction cs as [|c cs IH]; intros s Hi; [done|].
  destruct (session_cmd_sim memory_policy c s Hi (memory_slate_ok c s)) as (o & s' & E & Hi' & Es).
  cbn [session_script spec_script]. rewrite !bind_unfold, E, Es. destruct o as [r|e]; [|done].
  specialize (IH s' Hi'). rewrite !bind_unfold.
  destruct (session_script cs s') as [[rs|e] s'']; destruct IH as [-> Hi'']; done.
Qed.

Lemma commit_flushes asof s :
  pg_redis_effective_persistence_mode cfg = PG_REDIS_PERSIST_SYNC_TABLE ->
  sync_inv asof s ->
  commit_xact cfg s = (Ret tt, set_committed (db (flushed_backend s)) (flushed_backend s)).
Proof.
  intros Hm [_ Hs]%sync_inv_iff. unfold commit_xact, pre_commit_cb. rewrite Hm.
  by rewrite (run_flush_eq asof s Hs).
Qed.

Lemma flushed_inv asof s :
  sync_inv asof s ->
  sync_inv asof (set_committed (db (flushed_backend s)) (flushed_backend s)).
Proof.
  rewrite !sync_inv_iff. intros [Hl Hs]. split; [done|].
  destruct (flushed_sync asof s Hs) as [H1 H2 H3 H4]. by split.
Qed.


(** ROLLBACK returns the tables to the last commit, empties the dirty
    set and the pending deletes without touching a value, leaves the dirty
    bookkeeping consistent, and forces a reload. *)
Theorem abort_drops_tracking (s : Backend) :
  kv_wf (kv s) ->
  exists s', abort_xact s = (Ret tt, s') /\
    db s' = db_committed s /\ db_committed s' = db_committed s /\
    dirty_head (kv s') = [] /\ pending_deletes_head (kv s') = [] /\
    persistence_loaded s' = false /\ session_view s' = session_view s /\ kv_wf (kv s').
Proof.
  intros Hwf. eexists. split; [reflexivity|]. cbn. split_and!; try done.
  - apply map_eq. intros k. unfold session_view. cbn [kv set_kv]. rewrite !lookup_fmap.
    transitivity (entry_view <$> htab (pg_redis_dirty_clear (kv s)) !! k); [done|].
    rewrite dirty_clear_htab. destruct (htab (kv s) !! k); [|done]. cbn. by case_decide.
  - destruct (dirty_clear_wf (kv s) Hwf) as [H1 H2 H3]. by split.
Qed.
End Scripts.

(** ** Witnesses *)

(** A backend that has loaded empty tables, and a clock ticking once a second
    (in microseconds). *)
Definition demo_clock (n : nat) : Z := 1000000 * Z.of_nat n.
Definition demo_warm : Backend :=
  {| kv := kv_empty; persistence_loaded := true; db := db_empty; db_committed := db_empty;
     xact_now := 0; readings := 0 |}.

Lemma demo_warm_memory : memory_inv demo_warm.
Proof. split; try done. apply kv_empty_wf. Qed.

Lemma demo_warm_sync asof : sync_inv asof demo_warm.
Proof.
  apply sync_inv_iff. split; [done|]. split; try done; [apply kv_empty_wf|].
  intros k. unfold key_synced. cbn. rewrite lookup_empty. right. unfold gone. cbn. by rewrite lookup_empty.
Qed.

Lemma db_empty_no_children k : no_children db_empty k.
Proof. by split; intros x; cbn; rewrite !lookup_empty. Qed.

Definition demo_script : list cmd :=
  [HSET (bs "h") (bs "f") (bs "v"); RPUSH (bs "l") (bs "a"); SET (bs "s") (bs "41"); INCR (bs "s");
   EXPIRE (bs "s") 60; LPUSH (bs "l") (bs "b"); GET (bs "h")].

Lemma session_refines_spec_witness :
  spec_script default_config demo_clock demo_script (∅, 0%nat) =
    (Raise ERRCODE_DATATYPE_MISMATCH,
     (session_view (session_script default_config demo_clock demo_script demo_warm).2,
      readings (session_script default_config demo_clock demo_script demo_warm).2)).
Proof.
  pose proof (session_refines_spec default_config demo_clock demo_script demo_warm demo_warm_memory) as H.
  assert (E : (session_script default_config demo_clock demo_script demo_warm).1 =
              Raise ERRCODE_DATATYPE_MISMATCH) by (vm_compute; reflexivity).
  destruct (session_script default_config demo_clock demo_script demo_warm) as [o s'].
  cbn [fst snd] in *. subst o. exact (proj1 H).
Defined.

(** One statement of each kind that creates a row, then a commit. *)
Definition demo_txn : list cmd := [HSET (bs "h") (bs "f") (bs "v"); RPUSH (bs "l") (bs "a")].
Definition demo_1 : Backend :=
  Eval vm_compute in (session_cmd default_config demo_clock (HSET (bs "h") (bs "f") (bs "v")) demo_warm).2.
Definition demo_2 : Backend :=
  Eval vm_compute in (session_cmd default_config demo_clock (RPUSH (bs "l") (bs "a")) demo_1).2.

Lemma demo_slates : script_slates default_config demo_clock demo_txn demo_warm.
Proof.
  assert (E1 : session_cmd default_config demo_clock (HSET (bs "h") (bs "f") (bs "v")) demo_warm =
               (Ret (RBool true), demo_1)) by (vm_compute; reflexivity).
  assert (E2 : session_cmd default_config demo_clock (RPUSH (bs "l") (bs "a")) demo_1 =
               (Ret (RInt 1), demo_2)) by (vm_compute; reflexivity).
  unfold demo_txn. cbn [script_slates]. rewrite E1, E2.
  split; [left; apply db_empty_no_children|]. split; [left; apply db_empty_no_children|done].
Qed.


Lemma abort_drops_tracking_witness :
  exists s', abort_xact demo_2 = (Ret tt, s') /\ dirty_head (kv s') = [] /\
    session_view s' = session_view demo_2 /\ kv_wf (kv s').
Proof.
  destruct (abort_drops_tracking demo_2) as (s' & H1 & _ & _ & H2 & _ & _ & H3 & H4).
  - pose proof (session_script_sync default_config demo_clock demo_txn demo_warm 0
      (demo_warm_sync 0) demo_slates) as Hs.
    assert (E : (session_script default_config demo_clock demo_txn demo_warm).2 = demo_2)
      by (vm_compute; reflexivity).
    rewrite E in Hs. apply Hs.
  - exists s'. auto.
Defined.
