(* ===== verification/Maintenance.v ===== *)
(** * Sweeping, listing, flushing and counting
    (src/ttl.c pg_redis_ttl_sweep; src/pg_redis.c KEYS, FLUSHALL, STATS) *)
From S2P Require Import Prelude Types Binval Utils ListValue HashValue StoreInterface KvStore Commands.
From S2P Require Import CommandSpec Db Persistence Flush SessionLaws Session.

(** ** TTL sweep *)

Section Sweep.
Context (clock : nat -> Z).

Lemma iter_tick_kv n s : kv (Nat.iter n tick s) = kv s.
Proof. induction n as [|n IH]; [done|]. exact IH. Qed.

Lemma iter_tick_readings n s : readings (Nat.iter n tick s) = (readings s + n)%nat.
Proof. induction n as [|n IH]; [cbn; lia|]. rewrite Nat.iter_succ. cbn [readings tick]. lia. Qed.

Lemma is_expired_eq e s :
  exists n, session_is_expired clock e s =
    (Ret (pg_redis_entry_is_expired (clock (readings s)) e), Nat.iter n tick s).
Proof.
  unfold session_is_expired, pg_redis_entry_is_expired.
  destruct (e_has_expire e); cbn [negb]; [by exists 1%nat|by exists 0%nat].
Qed.

(** The first pass: each entry is judged at a reading within the pass. *)
Lemma sweep_victims_ok es s :
  exists vs n, sweep_victims clock es s = (Ret vs, Nat.iter n tick s) /\
    sublist vs es.*1 /\
    forall k e, (k, e) ∈ es -> NoDup es.*1 ->
      exists m, (readings s <= m <= readings s + n)%nat /\
        (k ∈ vs <-> pg_redis_entry_is_expired (clock m) e = true).
Proof.
  revert s. induction es as [|[k e] es IH]; intros s.
  { exists [], 0%nat. split_and!; [done|constructor|set_solver]. }
  cbn [sweep_victims]. destruct (is_expired_eq e s) as [n1 E1]. rewrite (bind_Ret _ _ _ _ _ E1).
  destruct (IH (Nat.iter n1 tick s)) as (vs & n2 & E2 & Hsub & Hin). rewrite (bind_Ret _ _ _ _ _ E2).
  rewrite iter_tick_readings in Hin.
  eexists _, (n2 + n1)%nat. rewrite Nat.iter_add. split; [reflexivity|]. split.
  - rewrite fmap_cons. cbn [fst]. destruct (pg_redis_entry_is_expired _ e); by constructor.
  - intros k' e' Hel Hnd. rewrite fmap_cons, NoDup_cons in Hnd. destruct Hnd as [Hni Hnd]. cbn [fst] in Hni.
    assert (Hkv : k ∉ vs) by (intros Hk; apply Hni; by eapply elem_of_sublist).
    apply elem_of_cons in Hel as [[= -> ->]|Hel].
    + exists (readings s). split; [lia|]. destruct (pg_redis_entry_is_expired _ e); set_solver.
    + destruct (Hin k' e' Hel Hnd) as (m & Hm & Hiff). exists m. split; [lia|].
      assert (k' <> k) by (intros ->; apply Hni, list_elem_of_fmap; by exists (k, e')).
      destruct (pg_redis_entry_is_expired _ e); set_solver.
Qed.

(** The second pass removes exactly the victims it is given. *)
Lemma sweep_remove_ok (Pol : SyncPolicy) vs c s :
  @session_inv Pol s -> NoDup vs -> (forall k, k ∈ vs -> is_Some (htab (kv s) !! k)) ->
  exists s', sweep_remove vs c s = (Ret (c + Z.of_nat (length vs)), s') /\ @session_inv Pol s' /\
    session_view s' = filter (fun p => p.1 ∉ vs) (session_view s).
Proof.
  revert c s. induction vs as [|k vs IH]; intros c s Hi Hnd Hpres.
  { exists s. split_and!; [cbn; by rewrite Z.add_0_r|done|]. symmetry. apply map_filter_id. set_solver. }
  apply NoDup_cons in Hnd as [Hni Hnd]. cbn [sweep_remove].
  destruct (remove_ok default_config clock k s Hi) as (s1 & E1 & Hi1 & Hv1 & _).
  cbn [op_remove ops session_ops] in E1. rewrite (bind_Ret _ _ _ _ _ E1).
  assert (Hk : is_Some (session_view s !! k)).
  { unfold session_view. rewrite lookup_fmap. destruct (Hpres k) as [e ->]; [set_solver|]. by eexists. }
  rewrite bool_decide_true by done.
  destruct (IH (c + 1) s1 Hi1 Hnd) as (s2 & E2 & Hi2 & Hv2).
  { intros k' Hk'. assert (k' <> k) by (intros ->; done).
    assert (Hx : is_Some (session_view s1 !! k')).
    { rewrite Hv1, lookup_delete_ne by done. unfold session_view. rewrite lookup_fmap.
      destruct (Hpres k') as [e ->]; [set_solver|]. by eexists. }
    unfold session_view in Hx. rewrite lookup_fmap in Hx. by apply fmap_is_Some in Hx. }
  exists s2. split_and!; [|done|].
  - rewrite E2. do 2 f_equal. cbn [length]. lia.
  - rewrite Hv2, Hv1. apply map_eq. intros i. apply option_eq. intros a.
    rewrite !map_lookup_filter_Some, lookup_delete_Some. cbn [fst]. set_solver.
Qed.

(** A TTL sweep removes every key whose deadline had passed when it
    started, keeps unchanged every key whose deadline is still ahead when it
    ends, returns the number of keys removed, and leaves memory and tables
    synchronised (each removal records the row to delete). *)
Theorem ttl_sweep_exact (asof : Z) (s : Backend) :
  (forall i j, (i <= j)%nat -> clock i <= clock j) ->
  sync_inv asof s ->
  exists n vs m s', pg_redis_ttl_sweep clock s = (Ret n, s') /\ sync_inv asof s' /\
    n = Z.of_nat (length vs) /\ NoDup vs /\
    session_view s' = filter (fun p => p.1 ∉ vs) (session_view s) /\
    forall k a, session_view s !! k = Some a ->
      (a_expired (clock (readings s)) a = true -> k ∈ vs) /\
      (a_expired (clock m) a = false -> k ∉ vs).
Proof.
  intros Hmono Hi. unfold pg_redis_ttl_sweep. rewrite (bind_Ret (gets _) _ _ _ _ eq_refl).
  destruct (sweep_victims_ok (map_to_list (htab (kv s))) s) as (vs & n & E & Hsub & Hin).
  rewrite (bind_Ret _ _ _ _ _ E).
  pose proof (NoDup_fst_map_to_list (htab (kv s))) as Hnd.
  pose proof (sublist_NoDup _ _ Hnd Hsub) as Hndv.
  assert (Hi' : sync_inv asof (Nat.iter n tick s)).
  { clear -Hi. induction n as [|n IH]; [done|]. by apply tick_inv. }
  destruct (sweep_remove_ok (table_policy asof) vs 0 (Nat.iter n tick s) Hi' Hndv) as (s' & E' & Hi2 & Hv).
  { intros k Hk. rewrite iter_tick_kv. eapply elem_of_sublist in Hk; [|done].
    apply list_elem_of_fmap in Hk as ([k' e] & -> & Hk). apply elem_of_map_to_list in Hk. by eexists. }
  exists (Z.of_nat (length vs)), vs, (readings s + n)%nat, s'. split_and!; try done.
  - rewrite Hv. unfold session_view. by rewrite iter_tick_kv.
  - intros k a Ha. unfold session_view in Ha. rewrite lookup_fmap in Ha.
    destruct (htab (kv s) !! k) as [e|] eqn:He; [|done]. injection Ha as <-.
    destruct (Hin k e) as (m & Hm & Hiff); [by apply elem_of_map_to_list|done|].
    rewrite Hiff, is_expired_view. unfold a_expired. destruct (a_expire (entry_view e)) as [x|]; [|done].
    pose proof (Hmono (readings s) m ltac:(lia)). pose proof (Hmono m (readings s + n)%nat ltac:(lia)).
    rewrite Z.leb_le, Z.leb_gt. lia.
Qed.
End Sweep.

(** ** KEYS *)

Lemma live_keys_ok clock es s :
  exists ks n, live_keys clock es s = (Ret ks, Nat.iter n tick s) /\
    sublist ks es.*1 /\
    forall k e, (k, e) ∈ es -> NoDup es.*1 ->
      exists m, (readings s <= m <= readings s + n)%nat /\
        (k ∈ ks <-> pg_redis_entry_is_expired (clock m) e = false).
Proof.
  revert s. induction es as [|[k e] es IH]; intros s.
  { exists [], 0%nat. split_and!; [done|constructor|set_solver]. }
  cbn [live_keys]. destruct (is_expired_eq clock e s) as [n1 E1]. rewrite (bind_Ret _ _ _ _ _ E1).
  destruct (IH (Nat.iter n1 tick s)) as (ks & n2 & E2 & Hsub & Hin). rewrite (bind_Ret _ _ _ _ _ E2).
  rewrite iter_tick_readings in Hin.
  eexists _, (n2 + n1)%nat. rewrite Nat.iter_add. split; [reflexivity|]. split.
  - rewrite fmap_cons. cbn [fst]. destruct (pg_redis_entry_is_expired _ e); by constructor.
  - intros k' e' Hel Hnd. rewrite fmap_cons, NoDup_cons in Hnd. destruct Hnd as [Hni Hnd]. cbn [fst] in Hni.
    assert (Hkv : k ∉ ks) by (intros Hk; apply Hni; by eapply elem_of_sublist).
    apply elem_of_cons in Hel as [[= -> ->]|Hel].
    + exists (readings s). split; [lia|]. destruct (pg_redis_entry_is_expired _ e); set_solver.
    + destruct (Hin k' e' Hel Hnd) as (m & Hm & Hiff). exists m. split; [lia|].
      assert (k' <> k) by (intros ->; apply Hni, list_elem_of_fmap; by exists (k, e')).
      destruct (pg_redis_entry_is_expired _ e); set_solver.
Qed.

(** KEYS lists each key at most once, lists every key still live when the
    scan ends and no key already expired when it starts, and changes neither
    memory nor tables. *)
Theorem keys_exact (cfg : Config) (clock : nat -> Z) (s : Backend) :
  (forall i j, (i <= j)%nat -> clock i <= clock j) ->
  memory_inv s ->
  exists ks n, pg_redis_keys cfg clock s = (Ret ks, Nat.iter n tick s) /\ NoDup ks /\
    (forall k, k ∈ ks -> exists a, session_view s !! k = Some a /\
                                   a_expired (clock (readings s)) a = false) /\
    (forall k a, session_view s !! k = Some a ->
                 a_expired (clock (readings s + n)%nat) a = false -> k ∈ ks).
Proof.
  intros Hmono Hi. unfold pg_redis_keys, pg_redis_persistence_load_if_needed. rewrite bind_assoc.
  rewrite (bind_Ret (gets _) _ _ _ _ eq_refl), (si_loaded _ Hi), bind_mret.
  rewrite (bind_Ret (gets _) _ _ _ _ eq_refl).
  destruct (live_keys_ok clock (map_to_list (htab (kv s))) s) as (ks & n & E & Hsub & Hin).
  pose proof (NoDup_fst_map_to_list (htab (kv s))) as Hnd.
  exists ks, n. split_and!; [done|by eapply sublist_NoDup| |].
  - intros k Hk. assert (Hk' := elem_of_sublist _ _ _ Hk Hsub).
    apply list_elem_of_fmap in Hk' as ([k' e] & -> & Hel). cbn [fst] in *.
    destruct (Hin k' e Hel Hnd) as (m & Hm & Hiff). apply Hiff in Hk. rewrite is_expired_view in Hk.
    apply elem_of_map_to_list in Hel. exists (entry_view e). unfold session_view.
    rewrite lookup_fmap, Hel. split; [done|]. unfold a_expired in *.
    destruct (a_expire (entry_view e)) as [x|]; [|done].
    pose proof (Hmono (readings s) m ltac:(lia)). apply Z.leb_gt in Hk. apply Z.leb_gt. lia.
  - intros k a Ha Hx. unfold session_view in Ha. rewrite lookup_fmap in Ha.
    destruct (htab (kv s) !! k) as [e|] eqn:He; [|done]. injection Ha as <-.
    destruct (Hin k e) as (m & Hm & Hiff); [by apply elem_of_map_to_list|done|].
    apply Hiff. rewrite is_expired_view. unfold a_expired in *.
    destruct (a_expire (entry_view e)) as [x|]; [|done].
    pose proof (Hmono m (readings s + n)%nat ltac:(lia)). apply Z.leb_gt in Hx. apply Z.leb_gt. lia.
Qed.

(** ** FLUSHALL *)

(** FLUSHALL empties the keyspace, the dirty set, the pending deletes and,
    in a mode that writes, the tables, from any state whatever, and leaves the
    backend loaded and synchronised. *)
Theorem flushall_empties (cfg : Config) (asof : Z) (s : Backend) :
  persistence_writes_enabled cfg = true ->
  exists s', pg_redis_flushall cfg s = (Ret true, s') /\
    kv s' = kv_empty /\ db s' = db_empty /\ sync_inv asof s'.
Proof.
  intros Hw. eexists. split; [unfold pg_redis_flushall, pg_redis_persistence_flushall; rewrite Hw; reflexivity|].
  split_and!; [done..|]. apply sync_inv_iff. split; [done|].
  split; [apply kv_empty_wf|by split; intros k x v; cbn; rewrite lookup_empty| |done].
  intros k. unfold key_synced. cbn. rewrite lookup_empty. right. unfold gone. cbn. by rewrite lookup_empty.
Qed.

(** ** STATS *)

(** the counters of STATS are consistent: the four type counters add up to
    the key count, the key count is the size of the table, the keys with a
    deadline are among them, and the memory figure is the one MEMORY USAGE
    reports. *)
Theorem stats_consistent (x : KvState) :
  let st := pg_redis_store_collect_stats x in
  string_count st + int_count st + hash_count st + list_count st = key_count st /\
  key_count st = pg_redis_store_count x /\
  0 <= expiring_count st <= key_count st /\
  memory_usage st = pg_redis_store_memory_usage x.
Proof.
  unfold pg_redis_store_collect_stats, pg_redis_store_count, pg_redis_store_memory_usage.
  generalize (htab x). clear x. intros t.
  apply (map_fold_weak_ind (fun st (t : gmap bytes PgRedisEntry) =>
    string_count st + int_count st + hash_count st + list_count st = key_count st /\
    key_count st = Z.of_nat (size t) /\ 0 <= expiring_count st <= key_count st /\
    memory_usage st = map_fold (fun _ e total => total + sizeof_PgRedisEntry + value_memory (e_value e)) 0 t)).
  - done.
  - intros k e t' r Hk (H1 & H2 & H3 & H4). cbn [string_count int_count hash_count list_count key_count
      expiring_count memory_usage].
    rewrite map_size_insert_None by done.
    rewrite map_fold_insert_L by (done || (intros; lia)). rewrite H4.
    split_and!; [|lia|destruct (e_has_expire e); lia|destruct (e_has_expire e); lia|lia].
    destruct (e_type e); repeat (case_decide; try done); lia.
Qed.

(** ** EXPIRE and TTL *)

Lemma key_ok_ok cfg k t :
  0 < blen k <= PG_REDIS_MAX_KEY_SIZE -> pg_redis_max_key_size cfg = PG_REDIS_MAX_KEY_SIZE ->
  key_ok cfg k t = (Ret tt, t).
Proof.
  intros Hk Hm. unfold key_ok, pg_redis_check_key_len. rewrite Hm. unfold PG_REDIS_MAX_KEY_SIZE in *.
  cbn [Z.leb Z.ltb Z.compare orb]. destruct (Z.eqb_spec (blen k) 0); [lia|].
  cbn. destruct (Z.ltb_spec 1024 (blen k)); [lia|done].
Qed.

Lemma spec_expire_eq cfg clock k a n m t :
  key_ok cfg k (m, t) = (Ret tt, (m, t)) -> m !! k = Some a -> a_expire a = None -> 0 < n ->
  spec_cmd cfg clock (EXPIRE k n) (m, t) =
    (Ret (RBool true),
     (<[k := {| a_val := a_val a; a_expire := Some (clock t + n * 1000000) |}]> m, S t)).
Proof.
  intros Hk Hm Ha Hn. cbn [spec_cmd]. rewrite (bind_Ret _ _ _ _ _ Hk).
  rewrite (bind_Ret (a_live clock true k) _ (m, t) (Some a) (m, t)).
  - destruct (Z.leb_spec n 0); [lia|done].
  - unfold a_live. by rewrite Hm, Ha.
Qed.

Lemma spec_ttl_eq cfg clock k a x m t :
  key_ok cfg k (m, t) = (Ret tt, (m, t)) -> m !! k = Some a -> a_expire a = Some x ->
  clock t < x -> clock (S t) < x ->
  spec_cmd cfg clock (TTL k) (m, t) =
    (Ret (RInt (s32 ((x - clock (S t) + 999999) / 1000000))), (m, S (S t))).
Proof.
  intros Hk Hm Ha Hx1 Hx2. cbn [spec_cmd]. rewrite (bind_Ret _ _ _ _ _ Hk).
  rewrite (bind_Ret (a_live clock true k) _ (m, t) (Some a) (m, S t)).
  - rewrite Ha, (bind_Ret (a_now clock) _ (m, S t) (clock (S t)) (m, S (S t)) eq_refl).
    destruct (Z.leb_spec x (clock (S t))); [lia|done].
  - unfold a_live. rewrite Hm, Ha. destruct (Z.leb_spec x (clock t)); [lia|done].
Qed.

(** EXPIRE on a live key answers true, and a TTL asked [e] microseconds of
    clock later, before the deadline, answers the remaining time rounded up to
    whole seconds: all [seconds] of them right after EXPIRE. *)
Theorem expire_then_ttl (cfg : Config) (clock : nat -> Z) (s : Backend) (k : bytes) (a : AEntry)
    (seconds : Z) :
  memory_inv s -> session_view s !! k = Some a -> a_expire a = None ->
  0 < blen k <= PG_REDIS_MAX_KEY_SIZE -> pg_redis_max_key_size cfg = PG_REDIS_MAX_KEY_SIZE ->
  0 < seconds < 2 ^ 31 ->
  clock (readings s) <= clock (S (readings s)) ->
  clock (S (readings s)) <= clock (S (S (readings s))) < clock (readings s) + seconds * 1000000 ->
  let left := clock (readings s) + seconds * 1000000 - clock (S (S (readings s))) in
  exists s', session_script cfg clock [EXPIRE k seconds; TTL k] s =
    (Ret [RBool true; RInt ((left + 999999) / 1000000)], s') /\
  (clock (S (S (readings s))) = clock (readings s) -> (left + 999999) / 1000000 = seconds).
Proof.
  intros Hi Hk Ha Hlen Hmax Hs Hc1 Hc2 left. set (t := readings s) in *.
  destruct (session_cmd_sim cfg clock memory_policy (EXPIRE k seconds) s Hi (memory_slate_ok cfg clock _ s))
    as (o1 & s1 & E1 & Hi1 & S1).
  destruct (session_cmd_sim cfg clock memory_policy (TTL k) s1 Hi1 (memory_slate_ok cfg clock _ s1))
    as (o2 & s2 & E2 & Hi2 & S2).
  pose proof (key_ok_ok cfg k) as Hok.
  rewrite (spec_expire_eq cfg clock k a seconds) in S1 by (done || lia || by apply Hok).
  injection S1 as <- Hv1 Hr1.
  set (x := clock t + seconds * 1000000) in *.
  rewrite (spec_ttl_eq cfg clock k {| a_val := a_val a; a_expire := Some x |} x) in S2;
    [|by apply Hok|by rewrite <- Hv1, lookup_insert_eq|done|rewrite <- Hr1; unfold x, t in *; lia
     |rewrite <- Hr1; unfold x, t in *; lia].
  rewrite <- Hr1 in S2. fold t left in S2. injection S2 as <- _ _.
  assert (Hleft : 0 < left <= seconds * 1000000) by (unfold left, x in *; lia).
  exists s2. split.
  - assert (Hw : s32 ((left + 999999) / 1000000) = (left + 999999) / 1000000).
    { unfold wrap_s. rewrite Z.mod_small; [lia|].
      assert (0 <= (left + 999999) / 1000000 <= seconds); [|lia].
      split; [apply Z.div_pos; lia|]. apply Z.lt_succ_r, Z.div_lt_upper_bound; lia. }
    rewrite Hw in E2. cbn [session_script]. rewrite (bind_Ret _ _ _ _ _ E1).
    by rewrite bind_assoc, (bind_Ret _ _ _ _ _ E2).
  - intros Heq. unfold left. rewrite Heq. unfold x.
    replace (clock t + seconds * 1000000 - clock t + 999999) with (999999 + seconds * 1000000) by lia.
    rewrite Z.div_add by lia. done.
Qed.

(** ** Witnesses *)

Lemma demo_clock_mono i j : (i <= j)%nat -> demo_clock i <= demo_clock j.
Proof. unfold demo_clock. lia. Qed.

Lemma demo_2_sync : sync_inv 0 demo_2.
Proof.
  pose proof (session_script_sync default_config demo_clock demo_txn demo_warm 0
    (demo_warm_sync 0) demo_slates) as Hs.
  assert (E : (session_script default_config demo_clock demo_txn demo_warm).2 = demo_2)
    by (vm_compute; reflexivity).
  by rewrite E in Hs.
Qed.

Lemma ttl_sweep_exact_witness :
  exists n s', pg_redis_ttl_sweep demo_clock demo_2 = (Ret n, s') /\ sync_inv 0 s'.
Proof.
  destruct (ttl_sweep_exact demo_clock 0 demo_2) as (n & vs & m & s' & H1 & H2 & _).
  - apply demo_clock_mono.
  - apply demo_2_sync.
  - exists n, s'. auto.
Defined.

Lemma keys_exact_witness :
  exists ks n, pg_redis_keys default_config demo_clock demo_warm = (Ret ks, Nat.iter n tick demo_warm) /\
    NoDup ks.
Proof.
  destruct (keys_exact default_config demo_clock demo_warm) as (ks & n & H1 & H2 & _).
  - apply demo_clock_mono.
  - apply demo_warm_memory.
  - exists ks, n. auto.
Defined.

Lemma flushall_empties_witness :
  exists s', pg_redis_flushall default_config demo_2 = (Ret true, s') /\ db s' = db_empty.
Proof.
  destruct (flushall_empties default_config 0 demo_2) as (s' & H1 & _ & H2 & _).
  - reflexivity.
  - exists s'. auto.
Defined.

(** A minute, counted on a clock that stands still. *)
Definition demo_key : Backend :=
  Eval vm_compute in (session_cmd default_config demo_clock (SET (bs "k") (bs "v")) demo_warm).2.

Lemma demo_key_memory : memory_inv demo_key.
Proof.
  pose proof (session_cmd_sim default_config demo_clock memory_policy (SET (bs "k") (bs "v")) demo_warm
    demo_warm_memory (memory_slate_ok _ _ _ _)) as (o & s' & E & Hi & _).
  assert (E' : (session_cmd default_config demo_clock (SET (bs "k") (bs "v")) demo_warm).2 = demo_key)
    by (vm_compute; reflexivity).
  rewrite E in E'. cbn in E'. by subst s'.
Qed.

Lemma expire_then_ttl_witness :
  exists s', session_script default_config (fun _ => 0) [EXPIRE (bs "k") 60; TTL (bs "k")] demo_key =
    (Ret [RBool true; RInt 60], s').
Proof.
  destruct (expire_then_ttl default_config (fun _ => 0) demo_key (bs "k")
    {| a_val := AString (Some (bs "v")); a_expire := None |} 60) as (s' & H1 & _).
  - apply demo_key_memory.
  - vm_compute. reflexivity.
  - reflexivity.
  - vm_compute. split; [reflexivity|discriminate].
  - reflexivity.
  - lia.
  - lia.
  - lia.
  - exists s'. exact H1.
Defined.
