(* ===== verification/Load.v ===== *)
(** * The cold-start load restores the committed keyspace
    (src/persistence.c, pg_redis_persistence_do_load)

    Loading the tables into an empty backend gives exactly the entries the
    tables show, clean and synchronised; expired rows and empty collections are
    the only ones left out. *)
From S2P Require Import Prelude Types Binval Utils ListValue HashValue StoreInterface KvStore Db.
From S2P Require Import Persistence Flush SessionLaws Session.

(** ** Loaded entries *)

Definition loaded_entry (row : StoreRow) (v : PgRedisValue) : PgRedisEntry :=
  {| e_value := v; e_expire_at := default 0 (sr_expire_at row);
     e_has_expire := match sr_expire_at row with Some _ => true | None => false end;
     e_dirty := false; e_deleted := false; e_in_dirty_set := false; e_version := 1 |}.

(** The clock stays before the row's deadline from reading [n] on. *)
Definition clock_ahead (clock : nat -> Z) (n : nat) (row : StoreRow) : Prop :=
  forall x m, sr_expire_at row = Some x -> (n <= m)%nat -> clock m < x.

(** [s'] is [s] with another table and later readings of the clock. *)
Record only_table (s s' : Backend) : Prop := {
  ot_dirty : dirty_head (kv s') = dirty_head (kv s);
  ot_pending : pending_deletes_head (kv s') = pending_deletes_head (kv s);
  ot_loaded : persistence_loaded s' = persistence_loaded s;
  ot_db : db s' = db s;
  ot_committed : db_committed s' = db_committed s;
  ot_now : xact_now s' = xact_now s;
  ot_readings : (readings s <= readings s')%nat
}.

Lemma only_table_refl s : only_table s s.
Proof. by split. Qed.

Lemma only_table_trans s1 s2 s3 : only_table s1 s2 -> only_table s2 s3 -> only_table s1 s3.
Proof. intros [] []. split; try congruence. lia. Qed.

Lemma clock_ahead_mono clock n m row : (n <= m)%nat -> clock_ahead clock n row -> clock_ahead clock m row.
Proof. intros Hle Hc x j Hx Hj. eapply Hc; [done|lia]. Qed.

(** An upsert of the load: on a key not yet seen, or on its half-built entry. *)
Lemma load_upsert clock k row ov s :
  clock_ahead clock (readings s) row ->
  htab (kv s) !! k = loaded_entry row <$> ov ->
  exists is_new e s', session_upsert clock k s = (Ret (k, is_new), s') /\ only_table s s' /\
    htab (kv s') = <[k := e]> (htab (kv s)) /\
    match ov with
    | None => is_new = true /\ e = fresh_entry
    | Some v => is_new = false /\ e = loaded_entry row v
    end.
Proof.
  intros Hc Hk. rewrite session_upsert_eq. unfold has_deadline.
  pose proof (upsert_spec (clock (readings s)) k (kv s)) as Hu. rewrite Hk in *.
  destruct ov as [v|]; cbn [fmap option_fmap option_map] in *.
  - assert (Hx : a_expired (clock (readings s)) (entry_view (loaded_entry row v)) = false).
    { unfold a_expired, loaded_entry, entry_view. cbn. destruct (sr_expire_at row) as [x|] eqn:Ex; [|done].
      cbn. apply Z.leb_gt. by eapply Hc. }
    rewrite Hx in Hu. rewrite Hu. cbn [fst snd].
    exists false, (loaded_entry row v). eexists. split; [done|].
    split_and!; [|..|done|done].
    + destruct (e_has_expire _); split; cbn; try done. lia.
    + cbn. by rewrite insert_id.
  - rewrite Hu. cbn [fst snd]. exists true, fresh_entry. eexists. split; [done|].
    split_and!; [|done..]. by split.
Qed.

(** ** Collections *)

Definition hash_load_item (h : PgRedisHash) (f v : bytes) : PgRedisHash :=
  match pg_redis_hash_set h f v with
  | Ret (_, h') =>
      {| h_fields := (fun fl => {| f_value := f_value fl; f_dirty := false |}) <$> h_fields h';
         h_field_count := h_field_count h'; h_memory_usage := h_memory_usage h';
         h_tombstones := h_tombstones h' |}
  | Raise _ => h
  end.

(** The write that ends a row of the load. *)
Lemma load_write k e0 e s s1 :
  only_table s s1 -> htab (kv s1) = <[k := e0]> (htab (kv s)) ->
  exists s', session_write k e s1 = (Ret tt, s') /\ only_table s s' /\
    htab (kv s') = <[k := e]> (htab (kv s)).
Proof.
  intros Ho Ht. eexists. split; [reflexivity|]. split.
  - eapply only_table_trans; [exact Ho|]. by split.
  - cbn. by rewrite Ht, insert_insert_eq.
Qed.

(** Whether it starts from the fresh entry or from the half-built one, a row
    ends with the loaded entry. *)
Lemma loaded_again row v v' :
  set_dirty false match sr_expire_at row with
                  | Some x => set_expire true x (set_value v' (loaded_entry row v))
                  | None => set_value v' (loaded_entry row v)
                  end = loaded_entry row v'.
Proof. unfold loaded_entry. by destruct (sr_expire_at row). Qed.

Lemma loaded_fresh row v' :
  set_dirty false match sr_expire_at row with
                  | Some x => set_expire true x (set_value v' (pg_redis_entry_release_value fresh_entry false))
                  | None => set_value v' (pg_redis_entry_release_value fresh_entry false)
                  end = loaded_entry row v'.
Proof. unfold loaded_entry. by destruct (sr_expire_at row). Qed.

Lemma load_hash_row_eq clock k row f ov oh s :
  blen k <= PG_REDIS_MAX_KEY_SIZE -> blen f <= PG_REDIS_MAX_FIELD_SIZE ->
  clock_ahead clock (readings s) row ->
  htab (kv s) !! k = (fun h => loaded_entry row (VHash (Some h))) <$> oh ->
  exists s', load_hash_row (session_load clock) ((k, row), (f, ov)) s = (Ret tt, s') /\ only_table s s' /\
    htab (kv s') = <[k := loaded_entry row (VHash (Some
      (hash_load_item (default pg_redis_hash_create_in oh) f (default [] ov))))]> (htab (kv s)).
Proof.
  intros Hk Hf Hc He. unfold load_hash_row. cbn [session_load ld_upsert ld_read ld_store ld_remove].
  destruct (Z.ltb_spec PG_REDIS_MAX_KEY_SIZE (blen k)); [lia|].
  destruct (Z.ltb_spec PG_REDIS_MAX_FIELD_SIZE (blen f)); [lia|].
  destruct (load_upsert clock k row ((fun h => VHash (Some h)) <$> oh) s Hc) as (n & e & s1 & E1 & Ho1 & Ht1 & Hcase).
  { rewrite He. by destruct oh. }
  rewrite (bind_Ret _ _ _ _ _ E1). cbn beta iota.
  rewrite (bind_Ret (session_read k) _ s1 e s1); [|unfold session_read; by rewrite Ht1, lookup_insert_eq].
  assert (Hset : forall h, exists b h', pg_redis_hash_set h f (default [] ov) = Ret (b, h')).
  { intros h. unfold pg_redis_hash_set. destruct (Z.ltb_spec PG_REDIS_MAX_FIELD_SIZE (blen f)); [lia|].
    destruct (h_fields h !! f); eauto. }
  destruct oh as [h|]; cbn in Hcase; destruct Hcase as [-> ->]; cbn [default from_option id].
  - destruct (Hset h) as (b & h' & Eh). cbn [e_value loaded_entry].
    unfold hash_load_item. rewrite Eh. fold (loaded_entry row (VHash (Some h))).
    rewrite loaded_again. by eapply load_write.
  - destruct (Hset pg_redis_hash_create_in) as (b & h' & Eh).
    unfold hash_load_item. rewrite Eh, loaded_fresh. by eapply load_write.
Qed.

Lemma load_list_row_eq clock k row o ov ol s :
  blen k <= PG_REDIS_MAX_KEY_SIZE ->
  clock_ahead clock (readings s) row ->
  htab (kv s) !! k = (fun l => loaded_entry row (VList (Some l))) <$> ol ->
  exists s', load_list_row (session_load clock) ((k, row), (o, ov)) s = (Ret tt, s') /\ only_table s s' /\
    htab (kv s') = <[k := loaded_entry row (VList (Some
      (list_load_item (default pg_redis_list_create_in ol) o (default [] ov))))]> (htab (kv s)).
Proof.
  intros Hk Hc He. unfold load_list_row. cbn [session_load ld_upsert ld_read ld_store ld_remove].
  destruct (Z.ltb_spec PG_REDIS_MAX_KEY_SIZE (blen k)); [lia|].
  destruct (load_upsert clock k row ((fun l => VList (Some l)) <$> ol) s Hc) as (n & e & s1 & E1 & Ho1 & Ht1 & Hcase).
  { rewrite He. by destruct ol. }
  rewrite (bind_Ret _ _ _ _ _ E1). cbn beta iota.
  rewrite (bind_Ret (session_read k) _ s1 e s1); [|unfold session_read; by rewrite Ht1, lookup_insert_eq].
  destruct ol as [l|]; cbn in Hcase; destruct Hcase as [-> ->]; cbn [default from_option id].
  - cbn [e_value loaded_entry]. fold (loaded_entry row (VList (Some l))).
    rewrite loaded_again. by eapply load_write.
  - cbn zeta. rewrite loaded_fresh. by eapply load_write.
Qed.

(** ** The nested loops

    Both collection loops visit, parent by parent, the child rows of the
    parent.  [R] is the body, [inj] the value constructor, [add] the item the
    body adds. *)
Section Nested.
Context (clock : nat -> Z) {K C : Type}.
Context (R : (bytes * StoreRow) * (K * option bytes) -> M Backend unit).
Context (inj : C -> PgRedisValue) (create : C) (add : C -> K -> bytes -> C) (item_ok : K -> Prop).
Hypothesis HR : forall k row x ov oc s,
  blen k <= PG_REDIS_MAX_KEY_SIZE -> item_ok x -> clock_ahead clock (readings s) row ->
  htab (kv s) !! k = (fun c => loaded_entry row (inj c)) <$> oc ->
  exists s', R ((k, row), (x, ov)) s = (Ret tt, s') /\ only_table s s' /\
    htab (kv s') = <[k := loaded_entry row (inj (add (default create oc) x (default [] ov)))]>
                     (htab (kv s)).

Definition add_all (c : C) (qs : list (K * option bytes)) : C :=
  foldl (fun c q => add c q.1 (default [] q.2)) c qs.

Lemma inner_loop k row qs c s :
  blen k <= PG_REDIS_MAX_KEY_SIZE -> Forall (fun q => item_ok q.1) qs ->
  clock_ahead clock (readings s) row ->
  htab (kv s) !! k = Some (loaded_entry row (inj c)) ->
  exists s', for_each ((fun q => ((k, row), q)) <$> qs) R s = (Ret tt, s') /\ only_table s s' /\
    htab (kv s') = <[k := loaded_entry row (inj (add_all c qs))]> (htab (kv s)).
Proof.
  intros Hk. revert c s. induction qs as [|[x ov] qs IH]; intros c s Hok Hc He.
  { exists s. split; [done|]. split; [apply only_table_refl|]. cbn. by rewrite insert_id. }
  apply Forall_cons in Hok as [Hx Hok]. rewrite fmap_cons. cbn [for_each].
  destruct (HR k row x ov (Some c) s Hk Hx Hc) as (s1 & E1 & Ho1 & Ht1); [by rewrite He|].
  rewrite (bind_Ret _ _ _ _ _ E1).
  destruct (IH (add c x (default [] ov)) s1 Hok) as (s2 & E2 & Ho2 & Ht2).
  - eapply clock_ahead_mono; [apply Ho1|done].
  - rewrite Ht1. apply lookup_insert_eq.
  - exists s2. split; [done|]. split; [by eapply only_table_trans|].
    by rewrite Ht2, Ht1, insert_insert_eq.
Qed.

Definition built (row : StoreRow) (qs : list (K * option bytes)) : option PgRedisEntry :=
  match qs with
  | [] => None
  | _ => Some (loaded_entry row (inj (add_all create qs)))
  end.

Lemma outer_loop (ch : bytes -> list (K * option bytes)) ps s :
  NoDup ps.*1 ->
  Forall (fun p => htab (kv s) !! p.1 = None /\
                   (ch p.1 = [] \/
                    blen p.1 <= PG_REDIS_MAX_KEY_SIZE /\ clock_ahead clock (readings s) p.2 /\
                    Forall (fun q => item_ok q.1) (ch p.1))) ps ->
  exists s', for_each (flat_map (fun p => (fun q => (p, q)) <$> ch p.1) ps) R s = (Ret tt, s') /\
    only_table s s' /\
    forall k, htab (kv s') !! k =
      match (list_to_map ps : gmap bytes StoreRow) !! k with
      | Some row => built row (ch k)
      | None => htab (kv s) !! k
      end.
Proof.
  revert s. induction ps as [|[k row] ps IH]; intros s Hnd Hall.
  { exists s. split_and!; [done|apply only_table_refl|done]. }
  rewrite fmap_cons, NoDup_cons in Hnd. destruct Hnd as [Hni Hnd].
  apply Forall_cons in Hall as [(Hnone & Hcase) Hall]. cbn [fst snd] in *.
  cbn [flat_map]. rewrite for_each_app.
  assert (Hhead : exists s1, for_each ((fun q => ((k, row), q)) <$> ch k) R s = (Ret tt, s1) /\
    only_table s s1 /\ (forall k', k' <> k -> htab (kv s1) !! k' = htab (kv s) !! k') /\
    htab (kv s1) !! k = built row (ch k)).
  { destruct (ch k) as [|[x ov] qs] eqn:Eq.
    - exists s. split_and!; [done|apply only_table_refl|done|done].
    - destruct Hcase as [|(Hk & Hc & Hok)]; [done|].
      apply Forall_cons in Hok as [Hx Hok]. rewrite fmap_cons. cbn [for_each].
      destruct (HR k row x ov None s Hk Hx Hc) as (s1 & E1 & Ho1 & Ht1); [by rewrite Hnone|].
      rewrite (bind_Ret _ _ _ _ _ E1).
      destruct (inner_loop k row qs (add create x (default [] ov)) s1 Hk Hok) as (s2 & E2 & Ho2 & Ht2).
      + eapply clock_ahead_mono; [apply Ho1|done].
      + rewrite Ht1. apply lookup_insert_eq.
      + exists s2. rewrite Ht2, Ht1. split_and!; [done|by eapply only_table_trans| |].
        * intros k' Hne. by rewrite !lookup_insert_ne.
        * by rewrite lookup_insert_eq. }
  destruct Hhead as (s1 & E1 & Ho1 & Hother & Hthis). rewrite (bind_Ret _ _ _ _ _ E1).
  destruct (IH s1 Hnd) as (s2 & E2 & Ho2 & Ht2).
  { eapply Forall_impl; [apply Forall_and; split; [exact Hall|]|].
    - apply Forall_forall. intros p Hp. instantiate (1 := fun p => p.1 <> k). cbn.
      intros <-. apply Hni. by apply list_elem_of_fmap_2.
    - intros p [(H1 & H2) Hne]. rewrite Hother by done. split; [done|].
      destruct H2 as [|(H2 & H3 & H4)]; [by left|right]. split_and!; [done| |done].
      eapply clock_ahead_mono; [apply Ho1|done]. }
  exists s2. split_and!; [done|by eapply only_table_trans|]. intros k'. rewrite Ht2.
  rewrite list_to_map_cons, lookup_insert. cbn [fst snd]. destruct (decide (k = k')) as [<-|Hne].
  - by rewrite not_elem_of_list_to_map_1.
  - destruct (list_to_map ps !! k'); [done|]. by apply Hother.
Qed.
End Nested.

(** ** Strings and ints *)

Definition type_of_row (row : StoreRow) : option PgRedisValueType :=
  pg_redis_type_from_name (Some (sr_type row)).

(** The value a scalar row decodes to. *)
Definition scalar_of (row : StoreRow) : option PgRedisValue :=
  match type_of_row row, sr_value row with
  | Some t, Some raw => decode_row t (Some raw)
  | _, _ => None
  end.

Lemma scalar_of_inv row v :
  scalar_of row = Some v ->
  exists raw, sr_value row = Some raw /\
    (sr_type row = bs "string" /\ (exists s, pg_redis_decode_string (Some raw) = Some s /\ v = VString (Some s)) \/
     sr_type row = bs "int" /\ (exists i, pg_redis_decode_int (Some raw) = Some i /\ v = VInt i)).
Proof.
  unfold scalar_of, type_of_row, pg_redis_type_from_name. intros Hv.
  repeat case_decide; destruct (sr_value row) as [raw|]; try done; exists raw; (split; [done|]);
    unfold decode_row in Hv.
  - left. split; [done|]. destruct (pg_redis_decode_string (Some raw)); [|done]. cbn in Hv. simplify_eq. eauto.
  - right. split; [done|]. destruct (pg_redis_decode_int (Some raw)); [|done]. cbn in Hv. simplify_eq. eauto.
Qed.

Lemma load_string_row_eq clock k row v s :
  blen k <= PG_REDIS_MAX_KEY_SIZE -> clock_ahead clock (readings s) row ->
  htab (kv s) !! k = None -> scalar_of row = Some v ->
  exists s', load_string_row (session_load clock) (k, row) s = (Ret tt, s') /\ only_table s s' /\
    htab (kv s') = <[k := loaded_entry row v]> (htab (kv s)).
Proof.
  intros Hk Hc Hnone Hv. unfold load_string_row. cbn [session_load ld_upsert ld_read ld_store ld_remove].
  destruct (Z.ltb_spec PG_REDIS_MAX_KEY_SIZE (blen k)); [lia|].
  destruct (load_upsert clock k row None s Hc) as (n & e & s1 & E1 & Ho1 & Ht1 & -> & ->); [done|].
  rewrite (bind_Ret _ _ _ _ _ E1). cbn beta iota.
  rewrite (bind_Ret (session_read k) _ s1 fresh_entry s1);
    [|unfold session_read; by rewrite Ht1, lookup_insert_eq].
  assert (Hfin : forall w, set_dirty false (row_expire row (set_value w fresh_entry)) = loaded_entry row w).
  { intros w. unfold row_expire, loaded_entry. by destruct (sr_expire_at row). }
  destruct (scalar_of_inv row v Hv) as (raw & Hraw & [[Ht (x & Hd & ->)]|[Ht (x & Hd & ->)]]); rewrite Hraw.
  - rewrite decide_True by done. rewrite Hd. cbn zeta. rewrite Hfin. by eapply load_write.
  - rewrite decide_False by (by rewrite Ht). rewrite decide_True by done.
    rewrite Hd. cbn zeta. rewrite Hfin. by eapply load_write.
Qed.

Lemma scalars_loop clock ps s :
  NoDup ps.*1 ->
  Forall (fun p => blen p.1 <= PG_REDIS_MAX_KEY_SIZE /\ clock_ahead clock (readings s) p.2 /\
                   is_Some (scalar_of p.2) /\ htab (kv s) !! p.1 = None) ps ->
  exists s', for_each ps (load_string_row (session_load clock)) s = (Ret tt, s') /\ only_table s s' /\
    forall k, htab (kv s') !! k =
      match (list_to_map ps : gmap bytes StoreRow) !! k with
      | Some row => loaded_entry row <$> scalar_of row
      | None => htab (kv s) !! k
      end.
Proof.
  revert s. induction ps as [|[k row] ps IH]; intros s Hnd Hall.
  { exists s. split_and!; [done|apply only_table_refl|done]. }
  rewrite fmap_cons, NoDup_cons in Hnd. destruct Hnd as [Hni Hnd].
  apply Forall_cons in Hall as [(Hk & Hc & [v Hv] & Hnone) Hall]. cbn [fst snd] in *.
  destruct (load_string_row_eq clock k row v s Hk Hc Hnone Hv) as (s1 & E1 & Ho1 & Ht1).
  cbn [for_each]. rewrite (bind_Ret _ _ _ _ _ E1).
  destruct (IH s1 Hnd) as (s2 & E2 & Ho2 & Ht2).
  { apply Forall_forall. intros p Hp. rewrite Forall_forall in Hall.
    destruct (Hall p Hp) as (H1 & H2 & H3 & H4). split_and!; [done| |done|].
    - eapply clock_ahead_mono; [apply Ho1|done].
    - rewrite Ht1, lookup_insert_ne; [done|]. intros ->. apply Hni. by apply list_elem_of_fmap_2. }
  exists s2. split_and!; [done|by eapply only_table_trans|]. intros k'. rewrite Ht2, Ht1.
  rewrite list_to_map_cons, !lookup_insert. cbn [fst snd]. destruct (decide (k = k')) as [<-|Hne]; [|done].
  by rewrite not_elem_of_list_to_map_1, Hv.
Qed.

(** ** Child rows *)

Lemma elem_of_children {K A} `{Countable K} (T : gmap (bytes * K) A) k x v :
  (x, v) ∈ children T k <-> T !! (k, x) = Some v.
Proof.
  unfold children. rewrite list_elem_of_omap. split.
  - intros ([[k' x'] v'] & Hin & Hc). cbn in Hc. case_decide; simplify_eq. by apply elem_of_map_to_list.
  - intros Hv. exists (k, x, v). split; [by apply elem_of_map_to_list|]. cbn. by rewrite decide_True.
Qed.

Lemma children_NoDup {K A} `{Countable K} (T : gmap (bytes * K) A) k : NoDup (children T k).*1.
Proof.
  unfold children. pose proof (NoDup_fst_map_to_list T) as Hnd.
  induction (map_to_list T) as [|[[k' x] v] l IH]; cbn; [constructor|].
  rewrite fmap_cons, NoDup_cons in Hnd. destruct Hnd as [Hni Hnd]. cbn [fst] in Hni.
  case_decide as Hk; [|by apply IH]. cbn. rewrite NoDup_cons. split; [|by apply IH].
  subst k'. intros Hin. apply Hni.
  apply list_elem_of_fmap in Hin as ([x' v'] & -> & Hin). cbn.
  apply list_elem_of_omap in Hin as ([[k2 x2] v2] & Hin & Hc). cbn in Hc. case_decide; simplify_eq.
  apply list_elem_of_fmap. eexists. by split; [|exact Hin].
Qed.

(** ** Loaded hashes *)

(** Nothing to flush: every field clean, no tombstone. *)
Definition hash_at_rest (h : PgRedisHash) : Prop :=
  h_tombstones h = [] /\ forall f fl, h_fields h !! f = Some fl -> f_dirty fl = false.

Lemma hash_at_rest_synced h : hash_at_rest h -> hash_synced (hash_view h) h.
Proof.
  intros [Ht Hd] f. unfold hash_view. rewrite lookup_fmap, Ht.
  destruct (h_fields h !! f) as [fl|]; [|by right]. intros _. split; [done|set_solver].
Qed.

Lemma hash_load_item_ok h f v :
  hash_wf h -> h_tombstones h = [] -> blen f <= PG_REDIS_MAX_FIELD_SIZE ->
  hash_wf (hash_load_item h f v) /\ hash_at_rest (hash_load_item h f v) /\
  hash_view (hash_load_item h f v) = <[f := v]> (hash_view h).
Proof.
  intros Hw Ht Hf. unfold hash_load_item.
  destruct (hash_set_spec h f v Hw Hf) as (h' & -> & Hw' & Hv' & Hfl & Ht').
  assert (Hclean : {| h_fields := (fun fl => {| f_value := f_value fl; f_dirty := false |}) <$> h_fields h';
         h_field_count := h_field_count h'; h_memory_usage := h_memory_usage h';
         h_tombstones := h_tombstones h' |} = hash_clean h').
  { unfold hash_clean. f_equal. by rewrite Ht'. }
  rewrite Hclean. split_and!.
  - by apply hash_clean_wf.
  - split; [done|]. intros g gl. cbn. rewrite lookup_fmap. by destruct (h_fields h' !! g); intros [= <-].
  - by rewrite hash_clean_view.
Qed.

Lemma hash_loaded qs h :
  hash_wf h -> hash_at_rest h -> Forall (fun q => blen q.1 <= PG_REDIS_MAX_FIELD_SIZE) qs ->
  NoDup qs.*1 ->
  let h' := add_all hash_load_item h qs in
  hash_wf h' /\ hash_at_rest h' /\
  (forall f ov, (f, ov) ∈ qs -> hash_view h' !! f = Some (default [] ov)) /\
  (forall f, f ∉ qs.*1 -> hash_view h' !! f = hash_view h !! f).
Proof.
  revert h. induction qs as [|[f ov] qs IH]; intros h Hw Hr Hlen Hnd.
  { split_and!; [done..| |done]. set_solver. }
  apply Forall_cons in Hlen as [Hf Hlen]. rewrite fmap_cons, NoDup_cons in Hnd. destruct Hnd as [Hni Hnd].
  destruct (hash_load_item_ok h f (default [] ov) Hw (proj1 Hr) Hf) as (Hw1 & Hr1 & Hv1).
  destruct (IH _ Hw1 Hr1 Hlen Hnd) as (H1 & H2 & H3 & H4). cbn. split_and!; [done..| |].
  - intros g w [[= -> ->]|Hin]%elem_of_cons; [|by apply H3].
    rewrite H4 by done. by rewrite Hv1, lookup_insert_eq.
  - intros g [Hne Hg]%not_elem_of_cons. rewrite H4 by done. rewrite Hv1. cbn in Hne.
    by rewrite lookup_insert_ne.
Qed.

(** ** Loaded lists *)

Definition list_at_rest (l : PgRedisList) : Prop :=
  l_pending_delete_ords l = [] /\ Forall (fun n => n_pending_insert n = false) (l_nodes l).

Lemma list_at_rest_synced l : list_wf l -> list_at_rest l -> list_synced (list_rows l) l.
Proof.
  intros Hw [Hd Hn]. rewrite Forall_forall in Hn. split; rewrite Hd.
  - intros n Hin _. split; [by apply lookup_list_rows|set_solver].
  - intros o v (n & Hin & Ho & _)%lookup_list_rows_inv _. eauto 10.
Qed.

Lemma list_load_item_nodes l o v :
  l_nodes (list_load_item l o v) =
    l_nodes l ++ [{| n_value := v; n_ord := o; n_pending_insert := false |}].
Proof.
  unfold list_load_item, pg_redis_list_rpush. destruct (if negb _ then _ else _) as [[a b] c].
  cbn [l_nodes]. by rewrite reverse_snoc, reverse_cons, reverse_involutive.
Qed.

Lemma list_load_item_ok l o v :
  list_wf l -> list_at_rest l -> Forall (fun n => n_ord n < o) (l_nodes l) ->
  list_wf (list_load_item l o v) /\ list_at_rest (list_load_item l o v).
Proof.
  intros Hw [Hd Hn] Ho. pose proof (list_load_item_nodes l o v) as Hnodes.
  pose proof Hw as [Hlen Hmem Hs Hinit Hmin Hmax].
  split.
  - split; rewrite ?Hnodes.
    + unfold list_load_item, pg_redis_list_rpush. destruct (if negb _ then _ else _) as [[a b] c].
      cbn. rewrite length_app. cbn. lia.
    + rewrite nodes_memory_app. unfold list_load_item, pg_redis_list_rpush.
      destruct (if negb _ then _ else _) as [[a b] c]. cbn. unfold node_bytes. cbn. lia.
    + rewrite fmap_app. cbn. apply sorted_snoc. by rewrite Forall_fmap.
    + unfold list_load_item. destruct (pg_redis_list_rpush l v). by destruct (l_nodes l).
    + unfold list_load_item, pg_redis_list_rpush. rewrite Hinit, Hmin.
      destruct (l_nodes l) as [|n [|n' ns]]; done.
    + rewrite last_ord_snoc. unfold list_load_item. by destruct (pg_redis_list_rpush l v).
  - split.
    + unfold list_load_item, pg_redis_list_rpush. by destruct (if negb _ then _ else _) as [[a b] c].
    + rewrite Hnodes. apply Forall_app. split; [done|]. by repeat constructor.
Qed.

Lemma list_loaded qs l :
  list_wf l -> list_at_rest l ->
  StronglySorted Z.lt ((n_ord <$> l_nodes l) ++ qs.*1) ->
  let l' := add_all list_load_item l qs in
  list_wf l' /\ list_at_rest l' /\
  l_nodes l' = l_nodes l ++
    ((fun q => {| n_value := default [] q.2; n_ord := q.1; n_pending_insert := false |}) <$> qs).
Proof.
  revert l. induction qs as [|[o ov] qs IH]; intros l Hw Hr Hs.
  { split_and!; [done..|]. cbn. by rewrite app_nil_r. }
  rewrite fmap_cons, cons_middle, app_assoc in Hs. cbn [fst] in Hs.
  pose proof (StronglySorted_app_1_l _ _ _ Hs) as Hs1. apply sorted_snoc in Hs1 as [_ Ho].
  rewrite Forall_fmap in Ho.
  destruct (list_load_item_ok l o (default [] ov) Hw Hr Ho) as [Hw1 Hr1].
  destruct (IH (list_load_item l o (default [] ov)) Hw1 Hr1) as (H1 & H2 & H3).
  { rewrite list_load_item_nodes, fmap_app. exact Hs. }
  cbn. split_and!; [done..|]. unfold add_all in H3. rewrite H3, list_load_item_nodes, <- app_assoc. done.
Qed.

#[export] Instance ord_le_total {A} : Total (ord_le (A := A)).
Proof. intros p q. unfold ord_le. lia. Qed.
#[export] Instance ord_le_trans {A} : Transitive (ord_le (A := A)).
Proof. intros p q r. unfold ord_le. lia. Qed.

Lemma sorted_children_strict {A} (l : list (Z * A)) :
  NoDup l.*1 -> StronglySorted Z.lt (merge_sort ord_le l).*1.
Proof.
  intros Hnd. pose proof (StronglySorted_merge_sort ord_le l) as Hs.
  pose proof (merge_sort_Permutation ord_le l) as Hp.
  assert (Hnd' : NoDup (merge_sort ord_le l).*1) by (by rewrite Hp).
  clear Hp Hnd. induction Hs as [|[o a] ls Hs IH Hall]; [constructor|].
  rewrite fmap_cons, NoDup_cons in Hnd'. destruct Hnd' as [Hni Hnd']. rewrite fmap_cons.
  constructor; [by apply IH|]. rewrite Forall_fmap. apply Forall_forall. intros [o' a'] Hin.
  rewrite Forall_forall in Hall. specialize (Hall _ Hin). unfold ord_le in Hall. cbn in *.
  assert (o <> o'); [|lia]. intros ->. apply Hni. by apply (list_elem_of_fmap_2 fst _ (o', a')).
Qed.

(** ** The whole load *)

(** What the program itself writes satisfies this: keys and fields within
    their limits, values that decode under their type, no NULL child; and no
    live row reaches its deadline while it is being loaded. *)
Definition row_ok (clock : nat -> Z) (n : nat) (d : Db) (k : bytes) (row : StoreRow) : Prop :=
  k <> [] /\ blen k <= PG_REDIS_MAX_KEY_SIZE /\ clock_ahead clock n row /\
  match type_of_row row with
  | Some PG_REDIS_TYPE_STRING | Some PG_REDIS_TYPE_INT => is_Some (scalar_of row)
  | Some PG_REDIS_TYPE_HASH => sr_value row = None /\
      forall f v, hash_fields d !! (k, f) = Some v -> is_Some v /\ blen f <= PG_REDIS_MAX_FIELD_SIZE
  | Some PG_REDIS_TYPE_LIST => sr_value row = None /\
      forall o v, list_items d !! (k, o) = Some v -> is_Some v
  | None => False
  end.

Definition tables_ok (clock : nat -> Z) (n : nat) (now : Z) (d : Db) : Prop :=
  forall k row, store d !! k = Some row -> row_live now row = true ->
    row_ok clock n d k row \/ empty_parent d k row.

(** The entry a load makes of a row. *)
Definition row_entry (d : Db) (k : bytes) (row : StoreRow) : option PgRedisEntry :=
  match type_of_row row with
  | Some PG_REDIS_TYPE_STRING | Some PG_REDIS_TYPE_INT => loaded_entry row <$> scalar_of row
  | Some PG_REDIS_TYPE_HASH =>
      built (fun h => VHash (Some h)) pg_redis_hash_create_in hash_load_item row (children (hash_fields d) k)
  | Some PG_REDIS_TYPE_LIST =>
      built (fun l => VList (Some l)) pg_redis_list_create_in list_load_item row
        (merge_sort ord_le (children (list_items d) k))
  | None => None
  end.

Definition table_entry (d : Db) (now : Z) (k : bytes) : option PgRedisEntry :=
  row ← store d !! k;
  if row_live now row then row_entry d k row else None.

Lemma select_lookup (P : bytes * StoreRow -> Prop) `{!forall p, Decision (P p)} (d : Db) k :
  (list_to_map (filter P (map_to_list (store d))) : gmap bytes StoreRow) !! k =
    row ← store d !! k; if decide (P (k, row)) then Some row else None.
Proof.
  apply option_eq. intros row. rewrite <- elem_of_list_to_map.
  - rewrite list_elem_of_filter, elem_of_map_to_list.
    destruct (store d !! k) as [row'|]; cbn; [|naive_solver]. case_decide; naive_solver.
  - eapply sublist_NoDup; [apply (NoDup_fst_map_to_list (store d))|].
    apply (fmap_sublist fst), sublist_filter.
Qed.

Lemma select_NoDup (P : bytes * StoreRow -> Prop) `{!forall p, Decision (P p)} (d : Db) :
  NoDup (filter P (map_to_list (store d))).*1.
Proof.
  eapply sublist_NoDup; [apply (NoDup_fst_map_to_list (store d))|].
  apply (fmap_sublist fst), sublist_filter.
Qed.

Lemma type_of_row_iff row t : type_of_row row = Some t <-> sr_type row = pg_redis_type_name t.
Proof.
  unfold type_of_row, pg_redis_type_from_name. split.
  - repeat case_decide; intros [= <-]; done.
  - intros ->. by destruct t; cbv.
Qed.

Lemma children_nil {K A} `{Countable K} (T : gmap (bytes * K) A) k :
  (forall x, T !! (k, x) = None) -> children T k = [].
Proof.
  intros Hn. destruct (children T k) as [|[x v] l] eqn:E; [done|].
  assert (Hx : (x, v) ∈ children T k) by (rewrite E; set_solver).
  apply elem_of_children in Hx. by rewrite Hn in Hx.
Qed.

Lemma empty_no_hash_children d k row :
  type_of_row row = Some PG_REDIS_TYPE_HASH -> empty_parent d k row -> children (hash_fields d) k = [].
Proof.
  intros Ht%type_of_row_iff [[_ Hr]|[Hl _]]; [|by rewrite Hl in Ht].
  apply children_nil. intros f. by rewrite Hr, lookup_empty.
Qed.

Lemma empty_no_list_children d k row :
  type_of_row row = Some PG_REDIS_TYPE_LIST -> empty_parent d k row -> children (list_items d) k = [].
Proof.
  intros Ht%type_of_row_iff [[Hl _]|[_ Hr]]; [by rewrite Hl in Ht|].
  apply children_nil. intros f. by rewrite Hr, lookup_empty.
Qed.

Section LoadAll.
Context (clock : nat -> Z) (s : Backend).
Hypothesis Hempty : htab (kv s) = ∅.
Hypothesis Hok : tables_ok clock (readings s) (xact_now s) (db s).

Lemma row_ok_later n k row :
  (readings s <= n)%nat -> store (db s) !! k = Some row -> row_live (xact_now s) row = true ->
  row_ok clock n (db s) k row \/ empty_parent (db s) k row.
Proof.
  intros Hn Hr Hl. destruct (Hok k row Hr Hl) as [(H1 & H2 & H3 & H4)|He]; [left|by right].
  split_and!; try done. by eapply clock_ahead_mono.
Qed.

(** The parents of one type, as a loop's precondition. *)
Lemma parents_ok t s1 p :
  only_table s s1 -> p ∈ select_parents (pg_redis_type_name t) (xact_now s1) (db s1) ->
  store (db s) !! p.1 = Some p.2 /\ type_of_row p.2 = Some t /\ row_live (xact_now s) p.2 = true /\
  (row_ok clock (readings s1) (db s) p.1 p.2 \/ empty_parent (db s) p.1 p.2).
Proof.
  intros Ho Hin. apply list_elem_of_filter in Hin as [[Ht Hl] Hin]. destruct p as [k row].
  apply elem_of_map_to_list in Hin. rewrite (ot_db _ _ Ho) in Hin. rewrite (ot_now _ _ Ho) in Hl.
  cbn in *. split_and!; [done|by apply type_of_row_iff|done|]. apply row_ok_later; [apply Ho|done..].
Qed.

Lemma parents_lookup t s1 k :
  only_table s s1 ->
  (list_to_map (select_parents (pg_redis_type_name t) (xact_now s1) (db s1)) : gmap bytes StoreRow) !! k =
    row ← store (db s) !! k;
    if decide (type_of_row row = Some t /\ row_live (xact_now s) row = true) then Some row else None.
Proof.
  intros Ho. unfold select_parents. rewrite select_lookup, (ot_db _ _ Ho), (ot_now _ _ Ho).
  destruct (store (db s) !! k) as [row|]; [|done]. cbn [mbind option_bind fst snd].
  apply decide_ext. by rewrite type_of_row_iff.
Qed.

Lemma load_scalars : exists s1, load_strings_and_ints (session_load clock) s = (Ret tt, s1) /\ only_table s s1 /\
  forall k, htab (kv s1) !! k =
    row ← store (db s) !! k;
    if row_live (xact_now s) row then loaded_entry row <$> scalar_of row else None.
Proof.
  unfold load_strings_and_ints. rewrite (bind_Ret (gets _) _ _ _ _ eq_refl).
  destruct (scalars_loop clock (select_scalars (xact_now s) (db s)) s) as (s1 & E1 & Ho1 & Ht1).
  - apply select_NoDup.
  - apply Forall_forall. intros [k row] [[Hty Hl] Hin]%list_elem_of_filter.
    apply elem_of_map_to_list in Hin. cbn in *.
    destruct (row_ok_later (readings s) k row) as [(H1 & H2 & H3 & H4)|[[He _]|[He _]]]; [done..| | |];
      [|rewrite He in Hty; by destruct Hty..].
    rewrite Hempty. split_and!; try done.
    assert (Ht : type_of_row row = Some PG_REDIS_TYPE_STRING \/ type_of_row row = Some PG_REDIS_TYPE_INT)
      by (by rewrite !type_of_row_iff).
    by destruct Ht as [Ht|Ht]; rewrite Ht in H4.
  - exists s1. split_and!; [done..|]. intros k. rewrite Ht1. unfold select_scalars.
    rewrite select_lookup, Hempty. destruct (store (db s) !! k) as [row|] eqn:Er; [|done]. cbn.
    assert (Hns : ~ (sr_type row = bs "string" \/ sr_type row = bs "int") -> scalar_of row = None).
    { intros Hn. destruct (scalar_of row) eqn:Esc; [|done].
      apply scalar_of_inv in Esc as (raw & _ & [[? _]|[? _]]); tauto. }
    case_decide as Hd; destruct (row_live (xact_now s) row) eqn:Hl; try done; [naive_solver|].
    rewrite Hns; [done|]. tauto.
Qed.

Lemma load_hashes_ok s1 :
  only_table s s1 ->
  (forall k row, store (db s) !! k = Some row -> type_of_row row = Some PG_REDIS_TYPE_HASH ->
     htab (kv s1) !! k = None) ->
  exists s2, load_hashes (session_load clock) s1 = (Ret tt, s2) /\ only_table s1 s2 /\
    forall k, htab (kv s2) !! k =
      match (row ← store (db s) !! k;
             if decide (type_of_row row = Some PG_REDIS_TYPE_HASH /\ row_live (xact_now s) row = true)
             then Some row else None) with
      | Some row => row_entry (db s) k row
      | None => htab (kv s1) !! k
      end.
Proof.
  intros Ho Hnone. unfold load_hashes. rewrite (bind_Ret (gets _) _ _ _ _ eq_refl).
  unfold select_hashes. cbn [session_load ld_now ld_db].
  destruct (outer_loop clock (load_hash_row (session_load clock)) (fun h => VHash (Some h)) pg_redis_hash_create_in
    hash_load_item (fun f => blen f <= PG_REDIS_MAX_FIELD_SIZE) (load_hash_row_eq clock)
    (children (hash_fields (db s1))) (select_parents (bs "hash") (xact_now s1) (db s1)) s1) as (s2 & E2 & Ho2 & Ht2).
  - apply select_NoDup.
  - apply Forall_forall. intros p Hp. rewrite (ot_db _ _ Ho).
    destruct (parents_ok PG_REDIS_TYPE_HASH s1 p Ho Hp) as (Hr & Ht & Hl & Hrow).
    split; [by eapply Hnone|].
    destruct Hrow as [(H1 & H2 & H3 & H4)|He]; [right|left; by eapply empty_no_hash_children].
    rewrite Ht in H4. split_and!; try done.
    apply Forall_forall. intros [f v] Hc%elem_of_children. by apply (proj2 H4 f v).
  - exists s2. split_and!; [done..|]. intros k. rewrite Ht2.
    pose proof (parents_lookup PG_REDIS_TYPE_HASH s1 k Ho) as Hp. cbn [pg_redis_type_name] in Hp.
    rewrite Hp, (ot_db _ _ Ho).
    destruct (store (db s) !! k) as [row|]; [|done]. cbn [mbind option_bind].
    case_decide as Hd; [|done]. unfold row_entry. by rewrite (proj1 Hd).
Qed.

Lemma load_lists_ok s1 :
  only_table s s1 ->
  (forall k row, store (db s) !! k = Some row -> type_of_row row = Some PG_REDIS_TYPE_LIST ->
     htab (kv s1) !! k = None) ->
  exists s2, load_lists (session_load clock) s1 = (Ret tt, s2) /\ only_table s1 s2 /\
    forall k, htab (kv s2) !! k =
      match (row ← store (db s) !! k;
             if decide (type_of_row row = Some PG_REDIS_TYPE_LIST /\ row_live (xact_now s) row = true)
             then Some row else None) with
      | Some row => row_entry (db s) k row
      | None => htab (kv s1) !! k
      end.
Proof.
  intros Ho Hnone. unfold load_lists. rewrite (bind_Ret (gets _) _ _ _ _ eq_refl).
  unfold select_lists. cbn [session_load ld_now ld_db].
  destruct (outer_loop clock (load_list_row (session_load clock)) (fun l => VList (Some l)) pg_redis_list_create_in
    list_load_item (fun _ => True) ltac:(intros; by apply load_list_row_eq)
    (fun k => merge_sort ord_le (children (list_items (db s1)) k))
    (select_parents (bs "list") (xact_now s1) (db s1)) s1) as (s2 & E2 & Ho2 & Ht2).
  - apply select_NoDup.
  - apply Forall_forall. intros p Hp. rewrite (ot_db _ _ Ho).
    destruct (parents_ok PG_REDIS_TYPE_LIST s1 p Ho Hp) as (Hr & Ht & Hl & Hrow).
    split; [by eapply Hnone|].
    destruct Hrow as [(H1 & H2 & H3 & H4)|He]; [right|left].
    + split_and!; try done. by apply Forall_true.
    + by rewrite (empty_no_list_children _ _ _ Ht He).
  - exists s2. split_and!; [done..|]. intros k. rewrite Ht2.
    pose proof (parents_lookup PG_REDIS_TYPE_LIST s1 k Ho) as Hp. cbn [pg_redis_type_name] in Hp.
    rewrite Hp, (ot_db _ _ Ho).
    destruct (store (db s) !! k) as [row|]; [|done]. cbn [mbind option_bind].
    case_decide as Hd; [|done]. unfold row_entry. by rewrite (proj1 Hd).
Qed.

Lemma do_load_ok : exists s', pg_redis_persistence_do_load (session_load clock) s = (Ret tt, s') /\ only_table s s' /\
  forall k, htab (kv s') !! k = table_entry (db s) (xact_now s) k.
Proof.
  destruct load_scalars as (s1 & E1 & Ho1 & Ht1).
  assert (Hsc : forall k row t, store (db s) !! k = Some row -> type_of_row row = Some t ->
    (t = PG_REDIS_TYPE_HASH \/ t = PG_REDIS_TYPE_LIST) -> htab (kv s1) !! k = None).
  { intros k row t Hr Ht Hcase. rewrite Ht1, Hr. cbn. unfold scalar_of. rewrite Ht.
    destruct (row_live (xact_now s) row); [|done]. destruct (sr_value row); [|done].
    by destruct Hcase as [->| ->]. }
  destruct (load_hashes_ok s1 Ho1) as (s2 & E2 & Ho2 & Ht2); [naive_solver|].
  pose proof (only_table_trans _ _ _ Ho1 Ho2) as Ho12.
  destruct (load_lists_ok s2 Ho12) as (s3 & E3 & Ho3 & Ht3).
  { intros k row Hr Ht. rewrite Ht2, Hr. cbn [mbind option_bind]. rewrite decide_False by naive_solver.
    eapply Hsc; eauto. }
  exists s3. split_and!; [|by eapply only_table_trans|].
  - unfold pg_redis_persistence_do_load. by rewrite (bind_Ret _ _ _ _ _ E1), (bind_Ret _ _ _ _ _ E2).
  - intros k. rewrite Ht3, Ht2, Ht1. unfold table_entry.
    destruct (store (db s) !! k) as [row|] eqn:Er; [|done]. cbn [mbind option_bind].
    destruct (row_live (xact_now s) row) eqn:Hl.
    + assert (Hty : is_Some (type_of_row row)).
      { destruct (Hok k row Er Hl) as [(_ & _ & _ & H4)|[[He _]|[He _]]].
        - destruct (type_of_row row); [by eexists|done].
        - exists PG_REDIS_TYPE_HASH. by apply type_of_row_iff.
        - exists PG_REDIS_TYPE_LIST. by apply type_of_row_iff. }
      destruct Hty as [t Hty].
      destruct (type_of_row row) as [[]|] eqn:Ht; try done;
        rewrite ?decide_False by (by intros [? _]); rewrite ?decide_True by done;
        unfold row_entry; by rewrite ?Ht.
    + rewrite !decide_False by naive_solver. done.
Qed.
End LoadAll.

(** ** What the load gives *)

Lemma loaded_row_shows row v :
  (forall raw, sr_value row = Some raw -> pg_redis_encode_value (loaded_entry row v) = Some raw) ->
  sr_type row = pg_redis_type_name (e_type (loaded_entry row v)) ->
  (scalar v <-> is_Some (sr_value row)) ->
  row_shows row (loaded_entry row v).
Proof.
  intros Henc Ht Hsc. split; [done|]. split.
  - unfold parent_value. destruct (sr_value row) as [raw|] eqn:Er.
    + destruct v; cbn; try (by rewrite <- (Henc raw eq_refl)); destruct Hsc as [_ Hsc]; by destruct Hsc.
    + destruct v; cbn; try done; destruct Hsc as [Hsc _]; by destruct (Hsc I).
  - unfold loaded_entry. cbn. by destruct (sr_expire_at row).
Qed.

(** What is known of a loaded entry. *)
Definition entry_loaded (d : Db) (k : bytes) (e : PgRedisEntry) : Prop :=
  entry_wf e /\ durable_is d k e /\ coll_synced d k (e_value e) /\ e_in_dirty_set e = false.

Lemma scalar_entry_loaded d k row v :
  store d !! k = Some row -> scalar_of row = Some v -> entry_loaded d k (loaded_entry row v).
Proof.
  intros Hr Hv. pose proof Hv as Hv'. unfold scalar_of in Hv'.
  destruct (type_of_row row) as [t|] eqn:Ht; [|done].
  destruct (sr_value row) as [raw|] eqn:Eraw; [|done].
  destruct (decode_row_canonical t raw v (loaded_entry row v) Hv' eq_refl) as [Henc Hty].
  apply type_of_row_iff in Ht.
  assert (Hsh : row_shows row (loaded_entry row v)).
  { apply loaded_row_shows; rewrite ?Eraw; [by intros ? [= <-]|by rewrite Hty|].
    destruct (scalar_of_inv row v Hv) as (? & _ & [[_ (? & _ & ->)]|[_ (? & _ & ->)]]); by split. }
  destruct (scalar_of_inv row v Hv) as (raw' & _ & [[_ (x & _ & ->)]|[_ (x & Hd & ->)]]).
  - split_and!; try done. split; [by exists row|done].
  - split_and!; try done; [by eapply decode_int_range|]. split; [by exists row|done].
Qed.

Lemma hash_entry_loaded d k row :
  store d !! k = Some row -> type_of_row row = Some PG_REDIS_TYPE_HASH -> sr_value row = None ->
  (forall f v, hash_fields d !! (k, f) = Some v -> is_Some v /\ blen f <= PG_REDIS_MAX_FIELD_SIZE) ->
  entry_loaded d k (loaded_entry row (VHash (Some
    (add_all hash_load_item pg_redis_hash_create_in (children (hash_fields d) k))))).
Proof.
  intros Hr Ht Hval Hch.
  destruct (hash_loaded (children (hash_fields d) k) pg_redis_hash_create_in) as (Hw & Hrest & Hin & Hout).
  { apply hash_create_wf. } { by split. }
  { apply Forall_forall. intros [f v] Hc%elem_of_children. by apply (Hch f v). }
  { apply children_NoDup. }
  set (h := add_all _ _ _) in *.
  assert (Hrows : hash_rows_are d k (hash_view h)).
  { intros f. destruct (hash_fields d !! (k, f)) as [ov|] eqn:Ef.
    - destruct (Hch f ov Ef) as [[v ->] _]. apply elem_of_children in Ef. by rewrite (Hin f _ Ef).
    - rewrite Hout; [unfold hash_view; by rewrite lookup_fmap|].
      intros ([f' v] & -> & Hc)%list_elem_of_fmap. apply elem_of_children in Hc. cbn in Ef. congruence. }
  split_and!; try done.
  - split; [|done]. exists row. split; [done|]. apply type_of_row_iff in Ht.
    apply loaded_row_shows; [by rewrite Hval|done|]. rewrite Hval. split; [done|by intros [? ?]].
  - exists (hash_view h). split; [done|]. by apply hash_at_rest_synced.
Qed.

Lemma list_entry_loaded d k row :
  store d !! k = Some row -> type_of_row row = Some PG_REDIS_TYPE_LIST -> sr_value row = None ->
  (forall o v, list_items d !! (k, o) = Some v -> is_Some v) ->
  entry_loaded d k (loaded_entry row (VList (Some
    (add_all list_load_item pg_redis_list_create_in (merge_sort ord_le (children (list_items d) k)))))).
Proof.
  intros Hr Ht Hval Hch. set (qs := merge_sort ord_le (children (list_items d) k)).
  assert (Hqs : forall o v, (o, v) ∈ qs <-> list_items d !! (k, o) = Some v).
  { intros o v. unfold qs. by rewrite merge_sort_Permutation, elem_of_children. }
  destruct (list_loaded qs pg_redis_list_create_in) as (Hw & Hrest & Hnodes).
  { apply list_create_wf. } { by split; [|constructor]. }
  { cbn. apply sorted_children_strict, children_NoDup. }
  set (l := add_all _ _ _) in *. cbn [l_nodes pg_redis_list_create_in app] in Hnodes.
  assert (Hrows : list_rows_are d k (list_rows l)).
  { intros o. destruct (list_items d !! (k, o)) as [ov|] eqn:Eo.
    - destruct (Hch o ov Eo) as [v ->]. apply Hqs in Eo.
      set (n := {| n_value := v; n_ord := o; n_pending_insert := false |}).
      assert (Hn : n ∈ l_nodes l).
      { rewrite Hnodes. apply list_elem_of_fmap. by exists (o, Some v). }
      change o with (n_ord n). by rewrite (lookup_list_rows l n Hw Hn).
    - destruct (list_rows l !! o) as [v|] eqn:El; [|done].
      apply lookup_list_rows_inv in El as (n & Hn & <- & _). rewrite Hnodes in Hn.
      apply list_elem_of_fmap in Hn as ([o' ov] & -> & Hin). apply Hqs in Hin. cbn in Eo. congruence. }
  split_and!; try done.
  - split; [|done]. exists row. split; [done|]. apply type_of_row_iff in Ht.
    apply loaded_row_shows; [by rewrite Hval|done|]. rewrite Hval. split; [done|by intros [? ?]].
  - exists (list_rows l). split; [done|]. by apply list_at_rest_synced.
Qed.

(** A collection without items. *)
Definition a_empty (a : AEntry) : bool :=
  match a_val a with
  | AHash m => bool_decide (m = ∅)
  | AList q => bool_decide (q = [])
  | AString _ | AInt _ => false
  end.

Lemma table_entry_spec clock n now d k :
  tables_ok clock n now d ->
  match table_entry d now k with
  | Some e => entry_loaded d k e /\ a_expired now (entry_view e) = false /\
              a_empty (entry_view e) = false /\ k <> []
  | None => gone now d k
  end.
Proof.
  intros Hok. unfold table_entry, gone. destruct (store d !! k) as [row|] eqn:Er; [|done].
  cbn [mbind option_bind]. specialize (Hok k row Er).
  assert (Hlive : forall v, row_live now row = true -> a_expired now (entry_view (loaded_entry row v)) = false).
  { intros v. unfold row_live, a_expired, entry_view, loaded_entry. cbn.
    destruct (sr_expire_at row); [|done]. cbn. intros ?%Z.ltb_lt. apply Z.leb_gt. lia. }
  destruct (row_live now row) eqn:Hl.
  2: { left. unfold row_live in Hl. destruct (sr_expire_at row) as [x|]; [|done].
       exists x. split; [done|]. by apply Z.ltb_ge. }
  unfold row_entry. destruct (Hok eq_refl) as [(Hk & _ & _ & Hrow)|He].
  - destruct (type_of_row row) as [[]|] eqn:Ht; try done.
    + destruct Hrow as [v Hv]. rewrite Hv. cbn [fmap option_fmap option_map].
      split_and!; [by apply scalar_entry_loaded|by apply Hlive| |done].
      by destruct (scalar_of_inv row v Hv) as (? & _ & [[_ (? & _ & ->)]|[_ (? & _ & ->)]]).
    + destruct Hrow as [v Hv]. rewrite Hv. cbn [fmap option_fmap option_map].
      split_and!; [by apply scalar_entry_loaded|by apply Hlive| |done].
      by destruct (scalar_of_inv row v Hv) as (? & _ & [[_ (? & _ & ->)]|[_ (? & _ & ->)]]).
    + destruct Hrow as [Hval Hch]. pose proof (hash_entry_loaded d k row Er Ht Hval Hch) as He.
      unfold built. destruct (children (hash_fields d) k) as [|[f v] qs] eqn:Eq.
      * right. left. split; [by apply type_of_row_iff in Ht|]. intros f. rewrite lookup_empty.
        destruct (hash_fields d !! (k, f)) as [v|] eqn:Ef; [|done].
        apply elem_of_children in Ef. rewrite Eq in Ef. set_solver.
      * split_and!; [done|by apply Hlive| |done]. destruct He as (_ & [_ Hrows] & _).
        cbn in Hrows. unfold a_empty. cbn. apply bool_decide_false. intros Hv. rewrite Hv in Hrows.
        assert (Hin : (f, v) ∈ children (hash_fields d) k) by (rewrite Eq; set_solver).
        apply elem_of_children in Hin. by rewrite (Hrows f), lookup_empty in Hin.
    + destruct Hrow as [Hval Hch]. pose proof (list_entry_loaded d k row Er Ht Hval Hch) as He.
      unfold built. destruct (merge_sort ord_le (children (list_items d) k)) as [|[o v] qs] eqn:Eq.
      * right. right. split; [by apply type_of_row_iff in Ht|]. intros o. rewrite lookup_empty.
        destruct (list_items d !! (k, o)) as [v|] eqn:Ef; [|done].
        apply elem_of_children in Ef. rewrite <- (merge_sort_Permutation ord_le), Eq in Ef. set_solver.
      * split_and!; [done|by apply Hlive| |done]. destruct He as (_ & [_ Hrows] & _).
        cbn in Hrows. unfold a_empty. cbn. apply bool_decide_false. intros Hv.
        unfold list_rows_are, list_rows in Hrows. apply fmap_nil_inv in Hv. rewrite Hv in Hrows.
        assert (Hin : (o, v) ∈ children (list_items d) k)
          by (rewrite <- (merge_sort_Permutation ord_le), Eq; set_solver).
        apply elem_of_children in Hin. rewrite (Hrows o) in Hin. done.
  - pose proof He as [[Ht _]|[Ht _]].
    + assert (Hty : type_of_row row = Some PG_REDIS_TYPE_HASH) by (by apply type_of_row_iff).
      rewrite Hty, (empty_no_hash_children d k row Hty He). by right.
    + assert (Hty : type_of_row row = Some PG_REDIS_TYPE_LIST) by (by apply type_of_row_iff).
      rewrite Hty, (empty_no_list_children d k row Hty He). by right.
Qed.

(** A backend that has not loaded yet. *)
Definition cold (s : Backend) : Prop := kv s = kv_empty /\ persistence_loaded s = false.

Lemma load_cold cfg clock s :
  cold s -> pg_redis_resolve_persistence_mode cfg <> PG_REDIS_PERSIST_NONE ->
  tables_ok clock (readings s) (xact_now s) (db s) ->
  exists s', pg_redis_persistence_load_if_needed cfg clock s = (Ret tt, s') /\ only_table s (set_loaded false s') /\
    persistence_loaded s' = true /\
    forall k, htab (kv s') !! k = table_entry (db s) (xact_now s) k.
Proof.
  intros [Hkv Hl] Hm Hok.
  destruct (do_load_ok clock s) as (s1 & E1 & Ho1 & Ht1); [by rewrite Hkv|done|].
  exists (set_loaded true s1). split_and!; [| |done|done].
  - unfold pg_redis_persistence_load_if_needed. rewrite (bind_Ret (gets _) _ _ _ _ eq_refl), Hl.
    destruct (pg_redis_resolve_persistence_mode cfg); try done; by rewrite (bind_Ret _ _ _ _ _ E1).
  - destruct Ho1. split; try done.
Qed.

Lemma load_cold_sync clock s s' :
  cold s -> db_fk (db s) -> tables_ok clock (readings s) (xact_now s) (db s) ->
  only_table s (set_loaded false s') -> persistence_loaded s' = true ->
  (forall k, htab (kv s') !! k = table_entry (db s) (xact_now s) k) ->
  sync_inv (xact_now s) s'.
Proof.
  intros [Hkv Hl] Hfk Hok Ho Hloaded Ht. apply sync_inv_iff. split; [done|].
  pose proof (fun k => table_entry_spec clock _ _ _ k Hok) as Hspec.
  destruct Ho as [Hd Hp _ Hdb _ _ _]. cbn in Hd, Hp, Hdb. rewrite Hkv in Hd, Hp. cbn in Hd, Hp.
  split.
  - split; rewrite ?Hd; [constructor| |].
    + intros k. split; [set_solver|]. rewrite Ht. intros (e & He & Hde). specialize (Hspec k).
      rewrite He in Hspec. destruct Hspec as [(_ & _ & _ & ?) _]. congruence.
    + intros k e He. rewrite Ht in He. specialize (Hspec k). rewrite He in Hspec. apply Hspec.
  - by rewrite Hdb.
  - intros k. unfold key_synced. rewrite Ht, Hdb, Hp. specialize (Hspec k).
    destruct (table_entry (db s) (xact_now s) k) as [e|]; [|by right].
    destruct Hspec as [(_ & H2 & H3 & _) _]. split; [done|]. intros _. split; [done|set_solver].
  - rewrite Ht. specialize (Hspec []). destruct (table_entry (db s) (xact_now s) []); [|done].
    by destruct Hspec as (_ & _ & _ & ?).
Qed.

(** ** Restart *)

(** Within the limits the command arguments are checked against. *)
Definition storable (s : Backend) : Prop :=
  forall k e, htab (kv s) !! k = Some e ->
    blen k <= PG_REDIS_MAX_KEY_SIZE /\ (scalar (e_value e) -> encodable (e_value e)).

Lemma list_rows_items l l' :
  list_wf l -> list_wf l' -> list_rows l = list_rows l' -> Deque.items l = Deque.items l'.
Proof.
  intros Hw Hw' Hr. set (g := fun n => (n_ord n, n_value n)).
  assert (Hs : forall l, list_wf l -> StronglySorted (fun p q : Z * bytes => p.1 < q.1) (g <$> l_nodes l)).
  { intros l0 H0. pose proof (lw_sorted _ H0) as Hs0. induction (l_nodes l0) as [|n ns IH]; [constructor|].
    rewrite fmap_cons in *. inversion_clear Hs0 as [|? ? Hs1 Hall]. constructor; [by apply IH|].
    apply Forall_fmap. exact (proj1 (Forall_fmap n_ord _ ns) Hall). }
  assert (Hnd : forall l, list_wf l -> NoDup (g <$> l_nodes l)).
  { intros l0 H0. eapply NoDup_fmap_1 with (f := fst). rewrite <- list_fmap_compose.
    exact (list_ords_NoDup l0 H0). }
  assert (Heq : g <$> l_nodes l = g <$> l_nodes l').
  { apply (StronglySorted_unique_strong (fun p q : Z * bytes => p.1 < q.1)); [|by apply Hs..|].
    - intros p q _ _. lia.
    - apply NoDup_Permutation; [by apply Hnd..|]. intros [o v].
      rewrite !(elem_of_list_to_map (M := gmap Z)) by
        (rewrite <- list_fmap_compose; by apply list_ords_NoDup).
      unfold list_rows in Hr. by fold g in Hr; rewrite Hr. }
  unfold Deque.items. change n_value with (snd ∘ g). by rewrite !list_fmap_compose, Heq.
Qed.

(** A live row the tables hold for an entry loads as the entry. *)
Lemma durable_row_ok clock n d k e row :
  durable_is d k e -> entry_wf e -> k <> [] -> blen k <= PG_REDIS_MAX_KEY_SIZE ->
  (scalar (e_value e) -> encodable (e_value e)) -> store d !! k = Some row ->
  clock_ahead clock n row -> row_ok clock n d k row.
Proof.
  intros [(row' & Hr' & Hty & Hval & Hx) Hch] Hw Hk Hlen Henc Hr Hc. simplify_eq.
  split_and!; [done..|]. apply type_of_row_iff in Hty. rewrite Hty.
  unfold entry_wf in Hw. unfold e_type in *. destruct (e_value e) as [s|i|[h|]|[l|]] eqn:Ev; try done.
  - destruct (decode_encoded e) as (raw & Eraw & Hd); [rewrite Ev; by apply Henc|].
    unfold scalar_of. rewrite Hty, Hval. unfold parent_value, e_type in *. rewrite Ev in *.
    rewrite Eraw, Hd. by eexists.
  - destruct (decode_encoded e) as (raw & Eraw & Hd); [rewrite Ev; by apply Henc|].
    unfold scalar_of. rewrite Hty, Hval. unfold parent_value, e_type in *. rewrite Ev in *.
    rewrite Eraw, Hd. by eexists.
  - split; [rewrite Hval; unfold parent_value, e_type; by rewrite Ev|].
    intros f v Hf. rewrite Hch in Hf. destruct (hash_view h !! f) as [w|] eqn:Ew; [|done].
    injection Hf as <-. split; [by eexists|]. unfold hash_view in Ew. rewrite lookup_fmap in Ew.
    destruct (h_fields h !! f) eqn:Ef; [|done]. by eapply hw_names.
  - split; [rewrite Hval; unfold parent_value, e_type; by rewrite Ev|].
    intros o v Ho. rewrite Hch in Ho. by destruct (list_rows l !! o); simplify_eq/=.
Qed.


Lemma loaded_view row v e :
  sr_expire_at row = (if e_has_expire e then Some (e_expire_at e) else None) ->
  val_view v = val_view (e_value e) -> entry_view (loaded_entry row v) = entry_view e.
Proof.
  intros Hx Hv. unfold entry_view, loaded_entry. cbn. rewrite Hv, Hx. by destruct (e_has_expire e).
Qed.

Lemma durable_row_entry clock n d k e row :
  durable_is d k e -> entry_wf e -> store d !! k = Some row -> row_ok clock n d k row ->
  (scalar (e_value e) -> encodable (e_value e)) ->
  entry_view <$> row_entry d k row = if a_empty (entry_view e) then None else Some (entry_view e).
Proof.
  intros Hdur Hw Hr (_ & _ & _ & Hrow) Henc. pose proof Hdur as [(row' & Hr' & Hty & Hval & Hx) Hch].
  simplify_eq. apply type_of_row_iff in Hty. unfold row_entry. rewrite Hty in *.
  unfold entry_wf in Hw.
  destruct (e_value e) as [s|i|[h|]|[l|]] eqn:Ev; try done; unfold e_type in *; rewrite Ev in *.
  1-2: destruct (decode_encoded e) as (raw & Eraw & Hd); [rewrite Ev; by apply Henc|];
    unfold scalar_of, parent_value, e_type in *; rewrite Hty, Hval, ?Ev in *;
    rewrite Eraw, Hd; unfold a_empty, entry_view at 2; rewrite ?Ev; cbn; f_equal;
    apply loaded_view; [done|by rewrite Ev].
  - destruct Hrow as [Hv0 Hc0].
    pose proof (hash_entry_loaded d k row Hr Hty Hv0 Hc0) as (_ & [_ Hrows'] & _). cbn in Hrows'.
    pose proof (hash_rows_are_ext _ _ _ _ Hrows' Hch) as Heq.
    assert (Hemp : children (hash_fields d) k = [] <-> hash_view h = ∅).
    { split.
      - intros E. rewrite E in Heq. by rewrite <- Heq.
      - intros E. apply children_nil. intros f. by rewrite (Hch f), E, lookup_empty. }
    unfold a_empty, entry_view at 2. rewrite Ev. cbn [a_val val_view from_option].
    unfold built. destruct (children (hash_fields d) k) as [|q qs] eqn:Eq.
    + rewrite bool_decide_true; [done|]. by apply Hemp.
    + rewrite bool_decide_false by (intros E; by apply Hemp in E). cbn [fmap option_fmap option_map].
      f_equal. apply loaded_view; [done|]. rewrite Ev. cbn [val_view from_option]. by rewrite Heq.
  - destruct Hrow as [Hv0 Hc0].
    pose proof (list_entry_loaded d k row Hr Hty Hv0 Hc0) as (Hw' & [_ Hrows'] & _). cbn in Hrows', Hw'.
    set (qs := merge_sort ord_le (children (list_items d) k)) in *.
    assert (Heq : list_rows (add_all list_load_item pg_redis_list_create_in qs) = list_rows l).
    { apply map_eq. intros o. specialize (Hrows' o). specialize (Hch o). rewrite Hrows' in Hch.
      by apply (inj (fmap Some)) in Hch. }
    pose proof (list_rows_items _ _ Hw' Hw Heq) as Hit.
    assert (Hemp : qs = [] <-> Deque.items l = []).
    { split; [by intros E; rewrite <- Hit, E|]. intros E%fmap_nil_inv.
      assert (Hn : children (list_items d) k = []); [|unfold qs; by rewrite Hn].
      apply children_nil. intros o. rewrite (Hch o). unfold list_rows. by rewrite E. }
    unfold a_empty, entry_view at 2. rewrite Ev. cbn [a_val val_view from_option].
    unfold built. destruct qs as [|q qs'] eqn:Eq.
    + rewrite bool_decide_true; [done|]. by apply Hemp.
    + rewrite bool_decide_false by (intros E; by apply Hemp in E). cbn [fmap option_fmap option_map].
      f_equal. apply loaded_view; [done|]. rewrite Ev. cbn [val_view from_option]. by rewrite Hit.
Qed.

(** C2: what a backend has committed, the next backend reads back: its first
    access loads exactly the committed keyspace, value for value and deadline
    for deadline, less the keys that have expired meanwhile and the collections
    that are empty. *)
Theorem restart_recovers (cfg : Config) (clock : nat -> Z) (asof : Z) (s b : Backend) :
  sync_inv asof s -> dirty_head (kv s) = [] -> pending_deletes_head (kv s) = [] -> storable s ->
  cold b -> db b = db s -> asof <= xact_now b ->
  pg_redis_resolve_persistence_mode cfg <> PG_REDIS_PERSIST_NONE ->
  (forall k row, store (db b) !! k = Some row -> row_live (xact_now b) row = true ->
     clock_ahead clock (readings b) row) ->
  exists b', pg_redis_persistence_load_if_needed cfg clock b = (Ret tt, b') /\
    forall k, session_view b' !! k =
      a ← session_view s !! k;
      if a_expired (xact_now b) a || a_empty a then None else Some a.
Proof.
  intros [_ Hs]%sync_inv_iff Hd Hp Hst Hcold Hdb Hasof Hm Hclk.
  pose proof (sy_keys _ _ Hs) as Hkeys. unfold key_synced in Hkeys. rewrite Hp in Hkeys.
  assert (Hdur : forall k e, htab (kv s) !! k = Some e -> durable_is (db s) k e /\ entry_wf e /\ k <> []).
  { intros k e He. specialize (Hkeys k). rewrite He in Hkeys. split_and!.
    - apply Hkeys. destruct (e_in_dirty_set e) eqn:Hf; [|done].
      assert (k ∈ dirty_head (kv s)) by (apply (kw_chain _ (sy_kv _ _ Hs)); eauto). rewrite Hd in *. set_solver.
    - by eapply kw_entries, He; apply Hs.
    - intros ->. by rewrite (sy_nonempty _ _ Hs) in He. }
  assert (Hok : tables_ok clock (readings b) (xact_now b) (db b)).
  { intros k row Hr Hl. pose proof (Hclk k row Hr Hl) as Hc. rewrite Hdb in *.
    destruct (htab (kv s) !! k) as [e|] eqn:He.
    - left. destruct (Hdur k e He) as (H1 & H2 & H3). destruct (Hst k e He). by eapply durable_row_ok.
    - right. specialize (Hkeys k). rewrite He in Hkeys. destruct Hkeys as [Hk|Hg]; [set_solver|].
      unfold gone in Hg. rewrite Hr in Hg. destruct Hg as [(x & Hx & Hle)|Hg]; [|done].
      unfold row_live in Hl. rewrite Hx in Hl. apply Z.ltb_lt in Hl. lia. }
  destruct (load_cold cfg clock b Hcold Hm Hok) as (b' & E & _ & _ & Ht). exists b'. split; [done|].
  intros k. unfold session_view. rewrite !lookup_fmap, Ht, Hdb. unfold table_entry.
  destruct (htab (kv s) !! k) as [e|] eqn:He.
  - destruct (Hdur k e He) as (H1 & H2 & H3). destruct (Hst k e He) as [Hlen Henc].
    pose proof H1 as [(row & Hr & Hty & Hval & Hx) _]. rewrite Hr. cbn [mbind option_bind fmap option_fmap option_map].
    assert (Hlive : row_live (xact_now b) row = negb (a_expired (xact_now b) (entry_view e))).
    { unfold row_live, a_expired, entry_view. rewrite Hx. cbn. destruct (e_has_expire e); [|done].
      by rewrite Z.leb_antisym, negb_involutive. }
    rewrite Hlive. destruct (a_expired (xact_now b) (entry_view e)) eqn:Hexp; cbn [negb orb]; [done|].
    eapply durable_row_entry; [done..| |done]. rewrite <- Hdb in *. eapply durable_row_ok; [done..|].
    apply Hclk with k; [done|]. by rewrite Hlive.
  - specialize (Hkeys k). rewrite He in Hkeys. destruct Hkeys as [Hk|Hg]; [set_solver|].
    cbn. pose proof (table_entry_spec clock _ _ _ k Hok) as Hspec. rewrite Hdb in Hspec.
    unfold gone in Hg. unfold table_entry in *.
    destruct (store (db s) !! k) as [row|] eqn:Hr; [|done]. cbn in *.
    destruct (row_live (xact_now b) row) eqn:Hl; [|done].
    destruct Hg as [(x & Hx & Hle)|Hg].
    { unfold row_live in Hl. rewrite Hx in Hl. apply Z.ltb_lt in Hl. lia. }
    pose proof Hg as [[Hg1 _]|[Hg1 _]]; unfold row_entry.
    + assert (Hty : type_of_row row = Some PG_REDIS_TYPE_HASH) by (by apply type_of_row_iff).
      by rewrite Hty, (empty_no_hash_children _ k row Hty Hg).
    + assert (Hty : type_of_row row = Some PG_REDIS_TYPE_LIST) by (by apply type_of_row_iff).
      by rewrite Hty, (empty_no_list_children _ k row Hty Hg).
Qed.

(** ** Witnesses *)

(** One committed counter. *)
Definition demo_entry : PgRedisEntry := set_value (VInt 42) fresh_entry.
Definition demo_db : Db :=
  {| store := {[ bs "n" := parent_row demo_entry ]}; hash_fields := ∅; list_items := ∅ |}.
Definition demo_committed : Backend :=
  {| kv := {| htab := {[ bs "n" := demo_entry ]}; dirty_head := []; pending_deletes_head := [] |};
     persistence_loaded := true; db := demo_db; db_committed := demo_db; xact_now := 0; readings := 0 |}.
Definition demo_cold : Backend :=
  {| kv := kv_empty; persistence_loaded := false; db := demo_db; db_committed := demo_db;
     xact_now := 5; readings := 0 |}.

Lemma demo_db_fk : db_fk demo_db.
Proof. by split; intros k x v; cbn; rewrite lookup_empty. Qed.

Lemma demo_durable : durable_is demo_db (bs "n") demo_entry.
Proof. split; [|done]. exists (parent_row demo_entry). split; [apply lookup_singleton_eq|done]. Qed.

Lemma demo_committed_sync : sync_inv 0 demo_committed.
Proof.
  apply sync_inv_iff. split; [done|]. split; [|apply demo_db_fk| |done].
  - split; [constructor| |].
    + intros k. split; [by intros ?%elem_of_nil|]. intros (e & He & Hd).
      cbn in He. apply lookup_singleton_Some in He as [_ <-]. done.
    + intros k e He. cbn in He. apply lookup_singleton_Some in He as [_ <-]. vm_compute. by split.
  - intros k. unfold key_synced. cbn [kv htab demo_committed db].
    destruct (decide (bs "n" = k)) as [<-|Hne].
    + rewrite lookup_singleton_eq. split; [done|]. intros _. split; [apply demo_durable|by intros ?%elem_of_nil].
    + rewrite lookup_singleton_ne by done. right. unfold gone. cbn [store demo_db].
      by rewrite lookup_singleton_ne.
Qed.

Lemma demo_tables_ok : tables_ok demo_clock 0 5 demo_db.
Proof.
  intros k row Hr _. left. cbn in Hr. apply lookup_singleton_Some in Hr as [<- <-].
  split_and!; [done|done|by intros x m Hx|]. by exists (VInt 42).
Qed.


Lemma restart_recovers_witness :
  exists b', pg_redis_persistence_load_if_needed default_config demo_clock demo_cold = (Ret tt, b') /\
    session_view b' !! bs "n" = Some {| a_val := AInt 42; a_expire := None |}.
Proof.
  destruct (restart_recovers default_config demo_clock 0 demo_committed demo_cold) as (b' & H1 & H2).
  - apply demo_committed_sync.
  - done.
  - done.
  - intros k e He. cbn in He. apply lookup_singleton_Some in He as [<- <-]. split; [done|]. by intros _.
  - done.
  - done.
  - done.
  - vm_compute. discriminate.
  - intros k row Hr _. cbn in Hr. apply lookup_singleton_Some in Hr as [<- <-]. by intros x m Hx.
  - exists b'. split; [done|]. rewrite H2. vm_compute. reflexivity.
Defined.
