(* ===== verification/LinearProbing.v ===== *)
(** * Linear probing with tombstones

    The table algorithm that src/shared_hash.c runs over its buckets, free of
    shared memory: slots that are empty, deleted or hold a key, a bounded probe
    from the key's start position, and what placing, replacing and deleting do
    to the entries.  SharedHash.v relates the buckets of src/shared_hash.c to
    these slots. *)
From S2P Require Import Prelude.

Section Probing.
Context {K V : Type} `{EqDecision K}.

Inductive slot := Empty | Tomb | Occ (k : K) (v : V).

(** The probe loop, [fuel] probes left, [tomb] the first deleted slot seen. *)
Fixpoint probe (ss : list slot) (k : K) (fuel idx : nat) (tomb : option nat)
    : option (nat * bool) :=
  match fuel with
  | O => (fun t => (t, false)) <$> tomb
  | S fuel' =>
      match ss !! idx with
      | None => None
      | Some Empty => Some (default idx tomb, false)
      | Some Tomb => probe ss k fuel' (S idx mod length ss) (Some (default idx tomb))
      | Some (Occ k' _) =>
          if decide (k' = k) then Some (idx, true)
          else probe ss k fuel' (S idx mod length ss) tomb
      end
  end.

Definition slot_entry (s : slot) : option (K * V) :=
  match s with Occ k v => Some (k, v) | _ => None end.
Definition slot_tomb (s : slot) : nat := match s with Tomb => 1 | _ => 0 end.

Definition entries (ss : list slot) : list (K * V) := omap slot_entry ss.
Definition tombs (ss : list slot) : nat := sum_list_with slot_tomb ss.

(** ** Counting *)

Lemma entries_update ss i s :
  ss !! i = Some s ->
  exists rest, forall s', entries (<[i := s']> ss) ≡ₚ option_list (slot_entry s') ++ rest.
Proof.
  intros Hi. exists (entries (take i ss) ++ entries (drop (S i) ss)). intros s'.
  rewrite insert_take_drop by by apply lookup_lt_Some in Hi.
  unfold entries. rewrite omap_app. cbn. destruct (slot_entry s'); cbn; [|done].
  by rewrite <- Permutation_middle.
Qed.

Lemma tombs_update ss i s :
  ss !! i = Some s -> exists r, forall s', tombs (<[i := s']> ss) = (slot_tomb s' + r)%nat.
Proof.
  intros Hi. exists (tombs (take i ss) + tombs (drop (S i) ss))%nat. intros s'.
  rewrite insert_take_drop by by apply lookup_lt_Some in Hi.
  unfold tombs. rewrite sum_list_with_app. cbn. lia.
Qed.

(** The entries before and after one slot changes. *)
Lemma entries_replace ss i s s' :
  ss !! i = Some s ->
  exists rest, entries ss ≡ₚ option_list (slot_entry s) ++ rest /\
    entries (<[i := s']> ss) ≡ₚ option_list (slot_entry s') ++ rest.
Proof.
  intros Hi. destruct (entries_update ss i s Hi) as [rest Hr]. exists rest.
  split; [|done]. rewrite <- (Hr s). by rewrite list_insert_id.
Qed.

Lemma tombs_replace ss i s s' :
  ss !! i = Some s ->
  (tombs (<[i := s']> ss) + slot_tomb s = tombs ss + slot_tomb s')%nat.
Proof.
  intros Hi. destruct (tombs_update ss i s Hi) as [r Hr].
  rewrite <- (list_insert_id ss i s Hi) at 2. rewrite !Hr. lia.
Qed.

Lemma elem_of_entries ss k v :
  (k, v) ∈ entries ss <-> exists i, ss !! i = Some (Occ k v).
Proof.
  unfold entries. rewrite list_elem_of_omap. split.
  - intros (s & Hs & E). apply list_elem_of_lookup_1 in Hs as [i Hi].
    destruct s; cbn in E; simplify_eq. eauto.
  - intros [i Hi]. exists (Occ k v). split; [by eapply list_elem_of_lookup_2|done].
Qed.

(** Fewer taken slots than slots: one is empty. *)
Lemma exists_empty ss :
  (length (entries ss) + tombs ss < length ss)%nat -> exists e, ss !! e = Some Empty.
Proof.
  induction ss as [|s ss IH]; cbn; [lia|]. intros Hlt.
  destruct s as [| |k v]; cbn in Hlt; [by exists 0%nat|..];
    (destruct IH as [e He]; [unfold tombs, entries; lia|by exists (S e)]).
Qed.

Lemma entries_replicate n : entries (replicate n Empty) = [].
Proof. by induction n. Qed.
Lemma tombs_replicate n : tombs (replicate n Empty) = 0%nat.
Proof. by induction n. Qed.

(** ** The probe chain *)

Section Chain.
Variable start : K -> nat.

Definition at_probe (ss : list slot) (k : K) (j : nat) : nat :=
  ((start k + j) mod length ss)%nat.

(** Position [i] is met from [k]'s start before any empty slot. *)
Definition reach (ss : list slot) (k : K) (i : nat) : Prop :=
  exists j, (j < length ss)%nat /\ i = at_probe ss k j /\
    forall j', (j' < j)%nat -> ss !! at_probe ss k j' <> Some Empty.

Record table_wf (ss : list slot) : Prop := {
  tw_chain : forall i k v, ss !! i = Some (Occ k v) -> reach ss k i;
  tw_keys : NoDup (entries ss).*1
}.

Lemma at_probe_succ ss k j :
  at_probe ss k (S j) = (S (at_probe ss k j) mod length ss)%nat.
Proof.
  unfold at_probe. destruct (decide (length ss = 0)%nat) as [->|Hn]; [cbn; lia|].
  replace (start k + S j)%nat with (1 + (start k + j))%nat by lia.
  rewrite <- Nat.Div0.add_mod_idemp_r. done.
Qed.

Lemma at_probe_lt ss k j : (0 < length ss)%nat -> (at_probe ss k j < length ss)%nat.
Proof. intros. apply Nat.mod_upper_bound. lia. Qed.

(** Every position is some probe. *)
Lemma at_probe_cover ss k e :
  (e < length ss)%nat -> exists j, (j < length ss)%nat /\ at_probe ss k j = e.
Proof.
  intros He. set (n := length ss) in *.
  exists ((e + (n - start k mod n)) mod n)%nat. split; [apply Nat.mod_upper_bound; lia|].
  unfold at_probe. fold n. rewrite Nat.Div0.add_mod_idemp_r.
  assert (start k mod n < n)%nat by (apply Nat.mod_upper_bound; lia).
  rewrite <- Nat.Div0.add_mod_idemp_l.
  replace (start k mod n + (e + (n - start k mod n)))%nat with (e + 1 * n)%nat by lia.
  rewrite Nat.Div0.mod_add. by apply Nat.mod_small.
Qed.

(** What the probe returns for [k]. *)
Definition probed (ss : list slot) (k : K) (r : option (nat * bool)) : Prop :=
  exists i b, r = Some (i, b) /\
    (if b then exists v, ss !! i = Some (Occ k v)
     else k ∉ (entries ss).*1 /\ (exists s, ss !! i = Some s /\ slot_entry s = None) /\ reach ss k i).

Lemma probe_loop_spec ss k fuel j tomb :
  table_wf ss -> (j + fuel = length ss)%nat ->
  (forall j', (j' < j)%nat -> ss !! at_probe ss k j' <> Some Empty /\
                              forall v, ss !! at_probe ss k j' <> Some (Occ k v)) ->
  (forall t, tomb = Some t -> ss !! t = Some Tomb /\
     exists j0, (j0 < j)%nat /\ t = at_probe ss k j0) ->
  (exists e, (j <= e < length ss)%nat /\ ss !! at_probe ss k e = Some Empty) ->
  probed ss k (probe ss k fuel (at_probe ss k j) tomb).
Proof.
  intros Hwf. revert j tomb. induction fuel as [|fuel IH]; intros j tomb Hj Hpast Ht (e & He & Hemp);
    [lia|].
  cbn [probe]. destruct (ss !! at_probe ss k j) as [s|] eqn:Hs.
  2:{ apply lookup_ge_None in Hs. pose proof (at_probe_lt ss k j). lia. }
  assert (Hnext : s <> Empty -> exists e', (S j <= e' < length ss)%nat /\
            ss !! at_probe ss k e' = Some Empty).
  { intros Hn. exists e. split; [|done]. destruct (decide (e = j)) as [->|]; [congruence|lia]. }
  destruct s as [| |k' v'].
  - exists (default (at_probe ss k j) tomb), false. split; [done|]. split.
    { intros (p & -> & Hin)%list_elem_of_fmap. destruct p as [k0 v0].
      apply elem_of_entries in Hin as [i Hi]. cbn [fst] in *.
      destruct (tw_chain _ Hwf _ _ _ Hi) as (m & Hm & -> & Hbefore).
      destruct (decide (m < j)%nat) as [Hlt|Hge]; [by apply (Hpast m Hlt) in Hi|].
      destruct (decide (m = j)) as [->|]; [congruence|]. apply (Hbefore j); [lia|done]. }
    destruct tomb as [t|]; cbn.
    + destruct (Ht t eq_refl) as (Htomb & j0 & Hj0 & ->).
      split; [by exists Tomb|]. exists j0. split; [lia|]. split; [done|].
      intros j' Hj'. apply Hpast. lia.
    + split; [by exists Empty|]. exists j. split; [lia|]. split; [done|].
      intros j' Hj'. by apply Hpast.
  - rewrite <- at_probe_succ. apply IH; [lia|..|by apply Hnext].
    + intros j' Hj'. destruct (decide (j' = j)) as [->|]; [by rewrite Hs|apply Hpast; lia].
    + intros t [= <-]. destruct tomb as [t|]; cbn.
      * destruct (Ht t eq_refl) as (? & j0 & ? & ?). split; [done|]. exists j0. split; [lia|done].
      * split; [done|]. exists j. split; [lia|done].
  - case_decide as Hk.
    + subst. exists (at_probe ss k j), true. eauto.
    + rewrite <- at_probe_succ. apply IH; [lia|..|by apply Hnext].
      * intros j' Hj'. destruct (decide (j' = j)) as [->|]; [|apply Hpast; lia].
        rewrite Hs. split; [done|]. intros v [= <- _]. done.
      * intros t Hts. destruct (Ht t Hts) as (? & j0 & ? & ?). split; [done|]. exists j0. split; [lia|done].
Qed.

(** A table with an empty slot: [length ss] probes decide membership. *)
Lemma probe_spec ss k e :
  table_wf ss -> (start k < length ss)%nat -> ss !! e = Some Empty ->
  probed ss k (probe ss k (length ss) (start k) None).
Proof.
  intros Hwf Hlt He. pose proof (lookup_lt_Some _ _ _ He) as Hel.
  destruct (at_probe_cover ss k e Hel) as (j & Hj & <-).
  assert (E : start k = at_probe ss k 0).
  { unfold at_probe. rewrite Nat.add_0_r. by rewrite Nat.mod_small. }
  rewrite E. apply probe_loop_spec; [done|lia|lia|done|].
  exists j. split; [lia|done].
Qed.

(** ** Updates keep the chains *)

Lemma reach_insert ss i s k i' :
  reach ss k i' -> s <> Empty -> reach (<[i := s]> ss) k i'.
Proof.
  intros (j & Hj & -> & Hb) Hs. exists j. unfold at_probe in *.
  rewrite length_insert. split; [done|]. split; [done|]. intros j' Hj' E.
  rewrite list_lookup_insert_Some in E. destruct E as [(_ & E & _)|(_ & E)]; [done|].
  by apply (Hb j' Hj').
Qed.

Lemma chain_insert ss i s :
  table_wf ss -> s <> Empty ->
  (forall k v, s = Occ k v -> reach ss k i) ->
  forall i' k v, <[i := s]> ss !! i' = Some (Occ k v) -> reach (<[i := s]> ss) k i'.
Proof.
  intros Hwf Hs Hr i' k v E. apply reach_insert; [|done].
  rewrite list_lookup_insert_Some in E. destruct E as [(<- & E & _)|(_ & E)]; [by eapply Hr|].
  by eapply tw_chain.
Qed.

Lemma table_wf_place ss i s k v :
  table_wf ss -> ss !! i = Some s -> slot_entry s = None -> reach ss k i ->
  k ∉ (entries ss).*1 ->
  table_wf (<[i := Occ k v]> ss) /\ entries (<[i := Occ k v]> ss) ≡ₚ (k, v) :: entries ss.
Proof.
  intros Hwf Hi Hs Hr Hk. destruct (entries_replace ss i s (Occ k v) Hi) as (rest & H0 & H1).
  rewrite Hs in H0. cbn in H0, H1. rewrite H0. split; [|done]. split.
  - apply chain_insert; [done|done|]. by intros ? ? [= <- <-].
  - rewrite H1. cbn. rewrite <- H0. by constructor; [|apply tw_keys].
Qed.

Lemma table_wf_overwrite ss i k v0 v :
  table_wf ss -> ss !! i = Some (Occ k v0) ->
  table_wf (<[i := Occ k v]> ss) /\
  exists rest, entries ss ≡ₚ (k, v0) :: rest /\ entries (<[i := Occ k v]> ss) ≡ₚ (k, v) :: rest.
Proof.
  intros Hwf Hi. destruct (entries_replace ss i _ (Occ k v) Hi) as (rest & H0 & H1).
  cbn in H0, H1. split; [|eauto]. split.
  - apply chain_insert; [done|done|]. intros ? ? [= <- <-]. by eapply tw_chain.
  - rewrite H1. pose proof (tw_keys _ Hwf) as Hn. by rewrite H0 in Hn.
Qed.

Lemma table_wf_tomb ss i k v :
  table_wf ss -> ss !! i = Some (Occ k v) ->
  table_wf (<[i := Tomb]> ss) /\ entries ss ≡ₚ (k, v) :: entries (<[i := Tomb]> ss).
Proof.
  intros Hwf Hi. destruct (entries_replace ss i _ Tomb Hi) as (rest & H0 & H1).
  cbn in H0, H1. rewrite H1. split; [|done]. split.
  - by apply chain_insert.
  - rewrite H1. pose proof (tw_keys _ Hwf) as Hn. rewrite H0 in Hn. by inversion Hn.
Qed.

Lemma table_wf_fresh n : table_wf (replicate n Empty).
Proof.
  split.
  - intros i k v Hi. apply lookup_replicate in Hi. by destruct Hi.
  - rewrite entries_replicate. constructor.
Qed.
End Chain.
End Probing.

Arguments slot : clear implicits.
