(* ===== verification/SharedMem.v ===== *)
(** * The shared allocator and what it holds (src/shmem.c, src/types.h)

    [dsa_area] is PostgreSQL's dynamic shared memory allocator.  Its choice of
    pointers is a parameter, the class [DsaAllocator]; what the program relies
    on is [DsaLaws].  The three wrappers of src/shmem.c are translated on top.
    A chunk holds what the program stores in it: raw bytes, the header and
    buckets of a shared hash table, or a node of a shared list. *)
From S2P Require Import Prelude.

Abbreviation dsa_pointer := Z (only parsing).
Definition InvalidDsaPointer : dsa_pointer := 0.

(** ** The shared structures of src/types.h *)

Inductive PgRedisSharedHashBucketState :=
| PG_REDIS_SHB_EMPTY
| PG_REDIS_SHB_OCCUPIED
| PG_REDIS_SHB_TOMBSTONE.

Record PgRedisSharedHashBucket := {
  b_state : PgRedisSharedHashBucketState;
  b_field_len : Z;              (* uint16 *)
  b_value_len : Z;              (* uint16 *)
  b_field_dsa : dsa_pointer;
  b_value_dsa : dsa_pointer
}.

(** The header with the bucket array laid out after it. *)
Record PgRedisSharedHashTable := {
  t_bucket_count : Z;
  t_occupied : Z;
  t_tombstones : Z;
  t_buckets : list PgRedisSharedHashBucket
}.

Record PgRedisSharedListNode := {
  sn_prev : dsa_pointer;
  sn_next : dsa_pointer;
  sn_ord : Z;
  sn_value_len : Z;             (* uint16 *)
  sn_value_dsa : dsa_pointer
}.

Inductive Chunk :=
| CBytes (b : bytes)
| CTable (t : PgRedisSharedHashTable)
| CNode (n : PgRedisSharedListNode).

Abbreviation Heap := (gmap dsa_pointer Chunk).

(** The chunks handed out and not freed, by pointer; [None]: not attached. *)
Definition Dsa : Type := option Heap.

(** [dsa_allocate_extended(area, size, DSA_ALLOC_NO_OOM | DSA_ALLOC_ZERO)]:
    the pointer of the new chunk, or nothing when memory is exhausted. *)
Class DsaAllocator := dsa_choose : Heap -> Z -> option dsa_pointer.

Class DsaLaws `{DsaAllocator} : Prop := {
  dsa_valid : forall h sz p, dsa_choose h sz = Some p -> p <> InvalidDsaPointer;
  dsa_fresh : forall h sz p, dsa_choose h sz = Some p -> h !! p = None
}.

(** What an address is: NULL, a chunk in use, or memory that is not one. *)
Inductive address :=
| ANull
| ADangling
| AChunk (c : Chunk).

Section SharedMem.
Context `{DsaAllocator}.

Definition pg_redis_shared_palloc (sz : Z) : M Dsa dsa_pointer := fun area =>
  match area with
  | None => (Ret InvalidDsaPointer, area)
  | Some h =>
      match dsa_choose h sz with
      | None => (Ret InvalidDsaPointer, area)
      | Some p => (Ret p, Some (<[p := CBytes (replicate (Z.to_nat sz) Byte.x00)]> h))
      end
  end.

Definition pg_redis_shared_pfree (p : dsa_pointer) (area : Dsa) : Dsa :=
  if p =? InvalidDsaPointer then area else delete p <$> area.

Definition pg_redis_shared_addr (area : Dsa) (p : dsa_pointer) : address :=
  if p =? InvalidDsaPointer then ANull
  else match area with
       | None => ANull
       | Some h => match h !! p with Some c => AChunk c | None => ADangling end
       end.

(** The address read as bytes, a table or a node; [None] where the access is
    undefined. *)
Definition shared_bytes (area : Dsa) (p : dsa_pointer) : option bytes :=
  match pg_redis_shared_addr area p with AChunk (CBytes b) => Some b | _ => None end.
Definition shared_table (area : Dsa) (p : dsa_pointer) : option PgRedisSharedHashTable :=
  match pg_redis_shared_addr area p with AChunk (CTable t) => Some t | _ => None end.
Definition shared_node (area : Dsa) (p : dsa_pointer) : option PgRedisSharedListNode :=
  match pg_redis_shared_addr area p with AChunk (CNode n) => Some n | _ => None end.

(** [addr == NULL] *)
Definition shared_null (area : Dsa) (p : dsa_pointer) : bool :=
  match pg_redis_shared_addr area p with ANull => true | _ => false end.

(** A pointer dereferenced without a check. *)
Definition deref {S A} (o : option A) : M S A :=
  match o with Some a => mret a | None => ereport SEGMENTATION_FAULT end.

(** Writing through the address of [p]. *)
Definition dsa_store (p : dsa_pointer) (c : Chunk) (area : Dsa) : Dsa := <[p := c]> <$> area.
Definition shared_write (p : dsa_pointer) (content : bytes) (area : Dsa) : Dsa :=
  dsa_store p (CBytes content) area.

(** A computation on the area, in a state that has more beside it. *)
Definition on_dsa {X A} (m : M Dsa A) : M (Dsa * X) A := fun s =>
  let '(r, area) := m s.1 in (r, (area, s.2)).

(** ** Lemmas *)

Lemma on_dsa_modify {X A} (f : Dsa -> Dsa) (k : unit -> M (Dsa * X) A) d x :
  (on_dsa (modify f) ≫= k) (d, x) = k tt (f d, x).
Proof. done. Qed.

Lemma shared_bytes_Some h p b :
  shared_bytes (Some h) p = Some b <-> p <> InvalidDsaPointer /\ h !! p = Some (CBytes b).
Proof.
  unfold shared_bytes, pg_redis_shared_addr. destruct (Z.eqb_spec p InvalidDsaPointer); [naive_solver|].
  destruct (h !! p) as [[]|]; naive_solver.
Qed.

Lemma shared_bytes_kept h h' p b :
  h' !! p = h !! p -> shared_bytes (Some h) p = Some b -> shared_bytes (Some h') p = Some b.
Proof. by rewrite !shared_bytes_Some => ->. Qed.

Lemma shared_bytes_attached area p b : shared_bytes area p = Some b -> is_Some area.
Proof.
  unfold shared_bytes, pg_redis_shared_addr. destruct (p =? _), area; by eauto.
Qed.

Context `{!DsaLaws}.

(** A new chunk is somewhere nothing else is. *)
Lemma palloc_cases sz h :
  pg_redis_shared_palloc sz (Some h) = (Ret InvalidDsaPointer, Some h) \/
  exists p, pg_redis_shared_palloc sz (Some h) =
              (Ret p, Some (<[p := CBytes (replicate (Z.to_nat sz) Byte.x00)]> h)) /\
            p <> InvalidDsaPointer /\ h !! p = None.
Proof.
  unfold pg_redis_shared_palloc. destruct (dsa_choose h sz) as [p|] eqn:Hc; [|by left].
  right. exists p. split; [done|]. split; [by eapply dsa_valid|by eapply dsa_fresh].
Qed.

Lemma palloc_spec sz area p area' :
  pg_redis_shared_palloc sz area = (Ret p, area') -> p <> InvalidDsaPointer ->
  shared_bytes area p = None /\
  shared_bytes area' p = Some (replicate (Z.to_nat sz) Byte.x00) /\
  forall q, q <> p -> shared_bytes area' q = shared_bytes area q.
Proof.
  intros E Hp. destruct area as [h|]; [|by cbn in E; simplify_eq].
  destruct (palloc_cases sz h) as [E1|(p1 & E1 & _ & Hf)]; rewrite E1 in E; simplify_eq.
  unfold shared_bytes, pg_redis_shared_addr. rewrite (proj2 (Z.eqb_neq _ _) Hp), Hf, lookup_insert_eq.
  repeat split. intros q Hq. by rewrite lookup_insert_ne.
Qed.

Lemma shared_write_spec p content area q :
  p <> InvalidDsaPointer -> is_Some area ->
  shared_bytes (shared_write p content area) q =
  if decide (q = p) then Some content else shared_bytes area q.
Proof.
  intros Hp [h ->]. unfold shared_bytes, pg_redis_shared_addr, shared_write, dsa_store. cbn.
  case_decide as Hq.
  - subst. by rewrite (proj2 (Z.eqb_neq _ _) Hp), lookup_insert_eq.
  - by rewrite lookup_insert_ne.
Qed.

Lemma pfree_spec p area q :
  shared_bytes (pg_redis_shared_pfree p area) q =
  if decide (q = p) then None else shared_bytes area q.
Proof.
  unfold shared_bytes, pg_redis_shared_addr, pg_redis_shared_pfree.
  destruct (Z.eqb_spec p InvalidDsaPointer) as [->|Hp].
  - case_decide; [by subst|done].
  - destruct area as [h|]; cbn; [|by repeat case_match].
    case_decide; [subst; by rewrite lookup_delete_eq, (proj2 (Z.eqb_neq _ _) Hp)|].
    by rewrite lookup_delete_ne.
Qed.

End SharedMem.

(** ** Frames

    The heap without the chunks of [F].  An operation that owns [F] before and
    [F'] after, and keeps this the same, changes nothing it does not own and
    leaks nothing. *)
Definition rest (F : gset dsa_pointer) (h : Heap) : Heap := filter (fun kv => kv.1 ∉ F) h.

Lemma lookup_rest F h q : rest F h !! q = if decide (q ∈ F) then None else h !! q.
Proof.
  unfold rest. rewrite map_lookup_filter. destruct (h !! q); cbn; repeat case_guard; repeat case_decide; done.
Qed.

Lemma rest_empty h : rest ∅ h = h.
Proof. apply map_eq. intros q. by rewrite lookup_rest, decide_False by set_solver. Qed.

Lemma rest_eq F F' h h' :
  (forall q, q ∈ F -> q ∈ F' \/ h' !! q = None) ->
  (forall q, q ∈ F' -> q ∈ F \/ h !! q = None) ->
  (forall q, q ∉ F -> q ∉ F' -> h' !! q = h !! q) ->
  rest F' h' = rest F h.
Proof.
  intros H1 H2 H3. apply map_eq. intros q. rewrite !lookup_rest.
  specialize (H1 q). specialize (H2 q). specialize (H3 q). repeat case_decide; naive_solver.
Qed.

Lemma rest_alloc F h q c : h !! q = None -> rest ({[q]} ∪ F) (<[q := c]> h) = rest F h.
Proof.
  intros. apply rest_eq; [set_solver|set_solver|]. intros r ? ?. apply lookup_insert_ne. set_solver.
Qed.

Lemma rest_write F h q c : q ∈ F -> rest F (<[q := c]> h) = rest F h.
Proof. intros. apply rest_eq; [auto|auto|]. intros r ? ?. apply lookup_insert_ne. set_solver. Qed.

Lemma rest_free F h q : q ∈ F -> rest (F ∖ {[q]}) (delete q h) = rest F h.
Proof.
  intros. apply rest_eq.
  - intros r ?. destruct (decide (r = q)) as [->|]; [right; apply lookup_delete_eq|set_solver].
  - set_solver.
  - intros r ? ?. apply lookup_delete_ne. set_solver.
Qed.

(** What a chunk outside [F] holds is untouched. *)
Lemma rest_lookup_same F F' h h' q :
  rest F' h' = rest F h -> q ∉ F -> is_Some (h !! q) -> h' !! q = h !! q /\ q ∉ F'.
Proof.
  intros E Hq [c Hc]. pose proof (f_equal (lookup q) E) as Eq. rewrite !lookup_rest in Eq.
  rewrite (decide_False (P := q ∈ F)) in Eq by done. case_decide; [congruence|done].
Qed.

(** The chunk behind a pointer that may be invalid. *)
Definition vptrs (p : dsa_pointer) : list dsa_pointer := if p =? InvalidDsaPointer then [] else [p].

Lemma elem_of_vptrs q p : q ∈ vptrs p <-> q = p /\ p <> InvalidDsaPointer.
Proof. unfold vptrs. destruct (Z.eqb_spec p InvalidDsaPointer); set_solver. Qed.

Lemma vptrs_nodup p : NoDup (vptrs p).
Proof. unfold vptrs. destruct (_ =? _); repeat constructor. set_solver. Qed.

(** [pg_redis_shared_pfree] on an attached heap. *)
Definition hfree (p : dsa_pointer) (h : Heap) : Heap :=
  if p =? InvalidDsaPointer then h else delete p h.

Lemma pfree_hfree p h : pg_redis_shared_pfree p (Some h) = Some (hfree p h).
Proof. unfold pg_redis_shared_pfree, hfree. by destruct (p =? _). Qed.

Lemma lookup_hfree p h q : hfree p h !! q = if decide (q ∈ vptrs p) then None else h !! q.
Proof.
  unfold hfree, vptrs. destruct (p =? _); [by rewrite decide_False by set_solver|].
  rewrite lookup_delete. repeat case_decide; set_solver.
Qed.

(** An allocator that hands out increasing pointers up to a memory limit; it
    shows the laws can hold. *)
Definition bump_allocator (limit : Z) : DsaAllocator := fun h sz =>
  if limit <? sz then None
  else Some (1 + max_key h).

Lemma bump_laws limit : @DsaLaws (bump_allocator limit).
Proof.
  split; intros h sz p E; unfold dsa_choose, bump_allocator in E; case_match; simplify_eq; apply (above_max_key h).
Qed.
