(* ===== verification/SharedHash.v ===== *)
(** * Hashes in shared memory (src/shared_hash.c)

    The per-key open-addressing table: a header and its bucket array in one
    chunk, the field and value bytes in chunks of their own.  The operations
    are translated on the shared heap, with every allocation that can fail;
    [*inout_table_dsa] is a component of the state, because it keeps its new
    value when a later step raises.  The specification is a finite map, and
    the frame: what the operations own before and after, and nothing else
    changed or leaked.  [hash_bytes] is PostgreSQL's and a parameter. *)
From S2P Require Import Prelude Types HashValue LinearProbing SharedMem.

Definition PG_REDIS_SHARED_HASH_INIT_BUCKETS : Z := 16.
Definition GROW_NUM : Z := 7.
Definition GROW_DEN : Z := 10.
Definition SHRINK_NUM : Z := 1.
Definition SHRINK_DEN : Z := 8.
(** [sizeof] of the header and of a bucket on LP64. *)
Definition sizeof_PgRedisSharedHashTable : Z := 24.
Definition sizeof_PgRedisSharedHashBucket : Z := 24.

(** [hash_bytes(k, len)] of common/hashfn.h, a uint32. *)
Class HashBytes := hash_bytes : bytes -> Z.

Definition empty_bucket : PgRedisSharedHashBucket :=
  {| b_state := PG_REDIS_SHB_EMPTY; b_field_len := 0; b_value_len := 0;
     b_field_dsa := 0; b_value_dsa := 0 |}.

Definition table_alloc_size (bucket_count : Z) : Z :=
  sizeof_PgRedisSharedHashTable + bucket_count * sizeof_PgRedisSharedHashBucket.

(** [t->buckets[idx] = b] with the two counters. *)
Definition set_bucket (idx : Z) (b : PgRedisSharedHashBucket) (occupied tombstones : Z)
    (t : PgRedisSharedHashTable) : PgRedisSharedHashTable :=
  {| t_bucket_count := t_bucket_count t; t_occupied := occupied; t_tombstones := tombstones;
     t_buckets := <[Z.to_nat idx := b]> (t_buckets t) |}.

Section SharedHash.
Context `{DsaAllocator} `{HashBytes}.

Definition bucket_index (field : bytes) (bucket_count : Z) : Z :=
  Z.land (hash_bytes field) (u32 (bucket_count - 1)).

(** [memcmp] of the stored name; reading through a dead pointer is undefined. *)
Definition bucket_matches (area : Dsa) (b : PgRedisSharedHashBucket) (field : bytes) : outcome bool :=
  match b_state b with
  | PG_REDIS_SHB_OCCUPIED =>
      if negb (b_field_len b =? blen field) then Ret false
      else if shared_null area (b_field_dsa b) then Ret false
      else match shared_bytes area (b_field_dsa b) with
           | Some bf => Ret (bool_decide (take (length field) bf = field))
           | None => Raise SEGMENTATION_FAULT
           end
  | _ => Ret false
  end.

(** The probe loop: [probes] left of [bucket_count]. *)
Fixpoint find_loop (area : Dsa) (buckets : list PgRedisSharedHashBucket) (mask : Z)
    (field : bytes) (probes : nat) (idx first_tomb : Z) : outcome (Z * bool) :=
  match probes with
  | O => if 0 <=? first_tomb then Ret (first_tomb, false) else Raise ERRCODE_INTERNAL_ERROR
  | S probes' =>
      match buckets !! Z.to_nat idx with
      | None => Raise SEGMENTATION_FAULT
      | Some b =>
          match b_state b with
          | PG_REDIS_SHB_EMPTY => Ret (if 0 <=? first_tomb then first_tomb else idx, false)
          | PG_REDIS_SHB_TOMBSTONE =>
              find_loop area buckets mask field probes' (Z.land (idx + 1) mask)
                (if first_tomb <? 0 then idx else first_tomb)
          | PG_REDIS_SHB_OCCUPIED =>
              match bucket_matches area b field with
              | Raise e => Raise e
              | Ret true => Ret (idx, true)
              | Ret false =>
                  find_loop area buckets mask field probes' (Z.land (idx + 1) mask) first_tomb
              end
          end
      end
  end.

Definition find_bucket (area : Dsa) (t : PgRedisSharedHashTable) (field : bytes) : outcome (Z * bool) :=
  find_loop area (t_buckets t) (t_bucket_count t - 1) field (Z.to_nat (t_bucket_count t))
    (bucket_index field (t_bucket_count t)) (-1).

Definition alloc_table (bucket_count : Z) : M Dsa dsa_pointer :=
  p ← pg_redis_shared_palloc (table_alloc_size bucket_count);
  if p =? InvalidDsaPointer then mret InvalidDsaPointer
  else
    modify (dsa_store p (CTable {| t_bucket_count := bucket_count; t_occupied := 0;
      t_tombstones := 0; t_buckets := replicate (Z.to_nat bucket_count) empty_bucket |})) ;;
    mret p.

Definition free_bucket (b : PgRedisSharedHashBucket) (area : Dsa) : Dsa :=
  match b_state b with
  | PG_REDIS_SHB_OCCUPIED =>
      pg_redis_shared_pfree (b_value_dsa b) (pg_redis_shared_pfree (b_field_dsa b) area)
  | _ => area
  end.

Definition pg_redis_shared_hash_free (table_dsa : dsa_pointer) : M Dsa unit :=
  if table_dsa =? InvalidDsaPointer then mret tt
  else
    area ← gets id;
    if shared_null area table_dsa then mret tt
    else
      t ← deref (shared_table area table_dsa);
      modify (fun area => foldl (fun area b => free_bucket b area) area (t_buckets t)) ;;
      modify (pg_redis_shared_pfree table_dsa).

(** The table the caller owns is the state; the field bytes are read from
    [area]. *)
Definition insert_owned (area : Dsa) (field_dsa : dsa_pointer) (field_len : Z)
    (value_dsa : dsa_pointer) (value_len : Z) : M PgRedisSharedHashTable bool :=
  field_bytes ← deref (shared_bytes area field_dsa);
  '(idx, was_found) ← (fun t => (find_bucket area t (take (Z.to_nat field_len) field_bytes), t));
  t ← gets id;
  b ← deref (t_buckets t !! Z.to_nat idx);
  modify (set_bucket idx
    {| b_state := PG_REDIS_SHB_OCCUPIED; b_field_len := field_len; b_value_len := value_len;
       b_field_dsa := field_dsa; b_value_dsa := value_dsa |}
    (t_occupied t + 1)
    (match b_state b with PG_REDIS_SHB_TOMBSTONE => t_tombstones t - 1 | _ => t_tombstones t end)) ;;
  mret (negb was_found).

Definition insert_live (area : Dsa) (b : PgRedisSharedHashBucket) : M PgRedisSharedHashTable unit :=
  match b_state b with
  | PG_REDIS_SHB_OCCUPIED =>
      _ ← insert_owned area (b_field_dsa b) (b_field_len b) (b_value_dsa b) (b_value_len b);
      mret tt
  | _ => mret tt
  end.

(** Running on the table at [p], in place. *)
Definition in_table {A} (p : dsa_pointer) (m : M PgRedisSharedHashTable A) : M Dsa A := fun area =>
  match shared_table area p with
  | None => (Raise SEGMENTATION_FAULT, area)
  | Some t => let '(r, t') := m t in (r, dsa_store p (CTable t') area)
  end.

Definition rehash_table (old_dsa : dsa_pointer) (new_size : Z) : M Dsa dsa_pointer :=
  new_dsa ← alloc_table new_size;
  if new_dsa =? InvalidDsaPointer then mret InvalidDsaPointer
  else
    area ← gets id;
    old_t ← deref (shared_table area old_dsa);
    in_table new_dsa (for_each (t_buckets old_t) (insert_live area)) ;;
    modify (pg_redis_shared_pfree old_dsa) ;;
    mret new_dsa.

Definition should_grow (occupied tombstones size : Z) : bool :=
  size * GROW_NUM <? (occupied + tombstones + 1) * GROW_DEN.

Definition should_shrink (occupied size : Z) : bool :=
  (PG_REDIS_SHARED_HASH_INIT_BUCKETS <? size) && (occupied * SHRINK_DEN <? size * SHRINK_NUM).

(** [*inout_table_dsa = p] *)
Definition set_inout (p : dsa_pointer) : M (Dsa * dsa_pointer) unit :=
  modify (fun s => (s.1, p)).

(** [value_len > 0 ? palloc + memcpy : InvalidDsaPointer] *)
Definition alloc_value (value : bytes) : M Dsa dsa_pointer :=
  if 0 <? blen value then
    p ← pg_redis_shared_palloc (blen value);
    if p =? InvalidDsaPointer then mret p
    else modify (shared_write p value) ;; mret p
  else mret InvalidDsaPointer.

(** The table at the address of [*inout_table_dsa]. *)
Definition inout_table : M (Dsa * dsa_pointer) PgRedisSharedHashTable := fun s =>
  deref (shared_table s.1 s.2) s.

(** Lazy table allocation: first HSET on this key. *)
Definition hash_set_lazy_alloc : M (Dsa * dsa_pointer) unit :=
  inout ← gets snd;
  if inout =? InvalidDsaPointer then
    p ← on_dsa (alloc_table PG_REDIS_SHARED_HASH_INIT_BUCKETS);
    if p =? InvalidDsaPointer then ereport ERRCODE_OUT_OF_MEMORY else set_inout p
  else mret tt.

(** Grow first if needed. *)
Definition hash_set_grow : M (Dsa * dsa_pointer) unit :=
  table_dsa ← gets snd;
  t ← inout_table;
  if should_grow (t_occupied t) (t_tombstones t) (t_bucket_count t) then
    new_dsa ← on_dsa (rehash_table table_dsa (t_bucket_count t * 2));
    if new_dsa =? InvalidDsaPointer then ereport ERRCODE_OUT_OF_MEMORY else set_inout new_dsa
  else mret tt.

(** Overwrite in place: the old value freed, the field kept. *)
Definition hash_set_overwrite (table_dsa : dsa_pointer) (t : PgRedisSharedHashTable) (idx : Z)
    (b : PgRedisSharedHashBucket) (value : bytes) : M Dsa bool :=
  new_value_p ← alloc_value value;
  if (0 <? blen value) && (new_value_p =? InvalidDsaPointer) then ereport ERRCODE_OUT_OF_MEMORY
  else
    modify (pg_redis_shared_pfree (b_value_dsa b)) ;;
    modify (dsa_store table_dsa (CTable (set_bucket idx
      {| b_state := b_state b; b_field_len := b_field_len b; b_value_len := u16 (blen value);
         b_field_dsa := b_field_dsa b; b_value_dsa := new_value_p |}
      (t_occupied t) (t_tombstones t) t))) ;;
    mret false.

(** Insert into bucket [idx] (EMPTY or TOMBSTONE). *)
Definition hash_set_insert (table_dsa : dsa_pointer) (t : PgRedisSharedHashTable) (idx : Z)
    (b : PgRedisSharedHashBucket) (field value : bytes) : M Dsa bool :=
  field_p ← pg_redis_shared_palloc (blen field);
  if field_p =? InvalidDsaPointer then ereport ERRCODE_OUT_OF_MEMORY
  else
    modify (shared_write field_p field) ;;
    value_p ← alloc_value value;
    if (0 <? blen value) && (value_p =? InvalidDsaPointer) then
      modify (pg_redis_shared_pfree field_p) ;;
      ereport ERRCODE_OUT_OF_MEMORY
    else
      modify (dsa_store table_dsa (CTable (set_bucket idx
        {| b_state := PG_REDIS_SHB_OCCUPIED; b_field_len := u16 (blen field);
           b_value_len := u16 (blen value); b_field_dsa := field_p; b_value_dsa := value_p |}
        (t_occupied t + 1)
        (match b_state b with
         | PG_REDIS_SHB_TOMBSTONE => t_tombstones t - 1 | _ => t_tombstones t end) t))) ;;
      mret true.

(** Returns [*was_new]. *)
Definition pg_redis_shared_hash_set (field value : bytes) : M (Dsa * dsa_pointer) bool :=
  if UINT16_MAX <? blen value then ereport ERRCODE_PROGRAM_LIMIT_EXCEEDED
  else
    hash_set_lazy_alloc ;;
    hash_set_grow ;;
    table_dsa ← gets snd;
    t ← inout_table;
    '(idx, was_found) ← on_dsa (fun area => (find_bucket area t field, area));
    b ← deref (t_buckets t !! Z.to_nat idx);
    on_dsa (if was_found : bool then hash_set_overwrite table_dsa t idx b value
            else hash_set_insert table_dsa t idx b field value).

(** The [value_len] bytes at the value's address, copied out; a length with
    no address behind it leaves the buffer unset. *)
Definition copy_value (area : Dsa) (value_dsa : dsa_pointer) (value_len : Z) : outcome bytes :=
  if 0 <? value_len then
    match shared_bytes area value_dsa with
    | Some src => Ret (take (Z.to_nat value_len) src)
    | None => Raise SEGMENTATION_FAULT
    end
  else Ret [].

(** The table of a read: none for an invalid pointer, no address or no
    occupied bucket. *)
Definition read_table (area : Dsa) (table_dsa : dsa_pointer) : outcome (option PgRedisSharedHashTable) :=
  if (table_dsa =? InvalidDsaPointer) || shared_null area table_dsa then Ret None
  else match shared_table area table_dsa with
       | None => Raise SEGMENTATION_FAULT
       | Some t => Ret (if t_occupied t =? 0 then None else Some t)
       end.

Definition pg_redis_shared_hash_get (table_dsa : dsa_pointer) (field : bytes)
    (area : Dsa) : outcome (option bytes) :=
  match read_table area table_dsa with
  | Raise e => Raise e
  | Ret None => Ret None
  | Ret (Some t) =>
      match find_bucket area t field with
      | Raise e => Raise e
      | Ret (_, false) => Ret None
      | Ret (idx, true) =>
          match t_buckets t !! Z.to_nat idx with
          | None => Raise SEGMENTATION_FAULT
          | Some b => match copy_value area (b_value_dsa b) (b_value_len b) with
                      | Raise e => Raise e
                      | Ret buf => Ret (Some buf)
                      end
          end
      end
  end.

Definition pg_redis_shared_hash_exists (table_dsa : dsa_pointer) (field : bytes)
    (area : Dsa) : outcome bool :=
  match read_table area table_dsa with
  | Raise e => Raise e
  | Ret None => Ret false
  | Ret (Some t) =>
      match find_bucket area t field with
      | Raise e => Raise e
      | Ret (_, was_found) => Ret was_found
      end
  end.

Definition pg_redis_shared_hash_del (field : bytes) : M (Dsa * dsa_pointer) bool :=
  table_dsa ← gets snd;
  ot ← on_dsa (fun area => (read_table area table_dsa, area));
  match ot with
  | None => mret false
  | Some t =>
      '(idx, was_found) ← on_dsa (fun area => (find_bucket area t field, area));
      if negb was_found then mret false
      else
        b ← deref (t_buckets t !! Z.to_nat idx);
        on_dsa (modify (pg_redis_shared_pfree (b_field_dsa b))) ;;
        on_dsa (modify (pg_redis_shared_pfree (b_value_dsa b))) ;;
        on_dsa (modify (dsa_store table_dsa (CTable (set_bucket idx
          {| b_state := PG_REDIS_SHB_TOMBSTONE; b_field_len := 0; b_value_len := 0;
             b_field_dsa := InvalidDsaPointer; b_value_dsa := InvalidDsaPointer |}
          (t_occupied t - 1) (t_tombstones t + 1) t)))) ;;
        (if should_shrink (t_occupied t - 1) (t_bucket_count t) then
           new_dsa ← on_dsa (rehash_table table_dsa (t_bucket_count t / 2));
           if negb (new_dsa =? InvalidDsaPointer) then set_inout new_dsa else mret tt
         else mret tt) ;;
        mret true
  end.

Definition pg_redis_shared_hash_count (table_dsa : dsa_pointer) (area : Dsa) : outcome Z :=
  if (table_dsa =? InvalidDsaPointer) || shared_null area table_dsa then Ret 0
  else match shared_table area table_dsa with
       | None => Raise SEGMENTATION_FAULT
       | Some t => Ret (t_occupied t)
       end.

(** One bucket into the scratch hash; corrupt buckets are skipped. *)
Definition materialize_bucket (area : Dsa) (b : PgRedisSharedHashBucket) (h : PgRedisHash)
    : outcome PgRedisHash :=
  match b_state b with
  | PG_REDIS_SHB_OCCUPIED =>
      if PG_REDIS_MAX_FIELD_SIZE <? b_field_len b then Ret h
      else if shared_null area (b_field_dsa b) then Ret h
      else match shared_bytes area (b_field_dsa b) with
           | None => Raise SEGMENTATION_FAULT
           | Some field_bytes =>
               match copy_value area (b_value_dsa b) (b_value_len b) with
               | Raise e => Raise e
               | Ret value_bytes =>
                   match pg_redis_hash_set h (take (Z.to_nat (b_field_len b)) field_bytes) value_bytes with
                   | Raise e => Raise e
                   | Ret (_, h') => Ret h'
                   end
               end
           end
  | _ => Ret h
  end.

Definition pg_redis_shared_hash_materialize (table_dsa : dsa_pointer) (area : Dsa)
    : outcome (option PgRedisHash) :=
  match read_table area table_dsa with
  | Raise e => Raise e
  | Ret None => Ret None
  | Ret (Some t) =>
      match foldl (fun (r : outcome PgRedisHash) b =>
                     match r with Raise e => Raise e | Ret h => materialize_bucket area b h end)
              (Ret pg_redis_hash_create_in) (t_buckets t) with
      | Raise e => Raise e
      | Ret h => Ret (Some h)
      end
  end.

End SharedHash.
