(* ===== verification/SharedHashSpec.v ===== *)
(** * The shared hash is a finite map

    Well-formedness of the table of src/shared_hash.c in the heap, the map it
    stands for, the chunks it owns, and what each operation does to them. *)
From S2P Require Import Prelude Types HashValue LinearProbing SharedMem SharedHash.

#[export] Instance SHB_eq_dec : EqDecision PgRedisSharedHashBucketState.
Proof. solve_decision. Defined.

(** ** Buckets as slots *)

Definition live (bs : list PgRedisSharedHashBucket) : list PgRedisSharedHashBucket :=
  filter (fun b => b_state b = PG_REDIS_SHB_OCCUPIED) bs.

Definition field_of (h : Heap) (b : PgRedisSharedHashBucket) : bytes :=
  default [] (shared_bytes (Some h) (b_field_dsa b)).
Definition value_of (h : Heap) (b : PgRedisSharedHashBucket) : bytes :=
  default [] (shared_bytes (Some h) (b_value_dsa b)).

Definition slot_of (h : Heap) (b : PgRedisSharedHashBucket) : slot bytes PgRedisSharedHashBucket :=
  match b_state b with
  | PG_REDIS_SHB_EMPTY => Empty
  | PG_REDIS_SHB_TOMBSTONE => Tomb
  | PG_REDIS_SHB_OCCUPIED => Occ (field_of h b) b
  end.
Definition slots (h : Heap) (bs : list PgRedisSharedHashBucket) := slot_of h <$> bs.

(** The chunks of a bucket. *)
Definition bucket_ptrs (b : PgRedisSharedHashBucket) : list dsa_pointer :=
  b_field_dsa b :: (if b_value_dsa b =? InvalidDsaPointer then [] else [b_value_dsa b]).
Definition owned (bs : list PgRedisSharedHashBucket) : list dsa_pointer := flat_map bucket_ptrs bs.

Record bucket_ok (h : Heap) (b : PgRedisSharedHashBucket) : Prop := {
  bk_field : shared_bytes (Some h) (b_field_dsa b) = Some (field_of h b);
  bk_field_len : b_field_len b = blen (field_of h b);
  bk_field_max : blen (field_of h b) <= PG_REDIS_MAX_FIELD_SIZE;
  bk_value : if b_value_len b =? 0 then b_value_dsa b = InvalidDsaPointer
             else shared_bytes (Some h) (b_value_dsa b) = Some (value_of h b);
  bk_value_len : b_value_len b = blen (value_of h b);
  bk_value_max : blen (value_of h b) <= UINT16_MAX
}.

Record buckets_ok (h : Heap) (start : bytes -> nat) (bs : list PgRedisSharedHashBucket) : Prop := {
  bo_table : table_wf start (slots h bs);
  bo_live : Forall (bucket_ok h) (live bs);
  bo_owned : NoDup (owned (live bs))
}.

(** The field map of a list of occupied buckets. *)
Definition contents (h : Heap) (l : list PgRedisSharedHashBucket) : gmap bytes bytes :=
  list_to_map ((fun b => (field_of h b, value_of h b)) <$> l).

Lemma entries_slots h bs : entries (slots h bs) = (fun b => (field_of h b, b)) <$> live bs.
Proof.
  induction bs as [|b bs IH]; [done|]. unfold slots, live, entries in *. rewrite fmap_cons, filter_cons.
  cbn [omap list_omap]. unfold slot_of at 1. destruct (b_state b) eqn:E; cbn; rewrite IH; done.
Qed.

Lemma keys_slots h bs : (entries (slots h bs)).*1 = field_of h <$> live bs.
Proof. rewrite entries_slots, <- list_fmap_compose. done. Qed.

Lemma length_slots h bs : length (slots h bs) = length bs.
Proof. apply length_fmap. Qed.

Lemma lookup_slots h bs i : slots h bs !! i = slot_of h <$> bs !! i.
Proof. apply list_lookup_fmap. Qed.

Lemma slot_of_occ h b f b' : slot_of h b = Occ f b' -> b' = b /\ f = field_of h b /\ b_state b = PG_REDIS_SHB_OCCUPIED.
Proof. unfold slot_of. destruct (b_state b) eqn:E; naive_solver. Qed.

Lemma elem_of_live bs b : b ∈ live bs <-> b ∈ bs /\ b_state b = PG_REDIS_SHB_OCCUPIED.
Proof. unfold live. rewrite list_elem_of_filter. naive_solver. Qed.

Lemma elem_of_owned l q : q ∈ owned l <-> exists b, b ∈ l /\ q ∈ bucket_ptrs b.
Proof. apply elem_of_flat_map. Qed.

Lemma owned_cons b l : owned (b :: l) = bucket_ptrs b ++ owned l.
Proof. done. Qed.

#[export] Instance owned_perm : Proper ((≡ₚ) ==> (≡ₚ)) owned.
Proof.
  intros l1 l2 Hp. by apply Permutation.Permutation_flat_map.
Qed.

(** ** Heaps that agree on what the buckets own *)

Section Agree.
Variables (h h' : Heap) (l : list PgRedisSharedHashBucket).
Hypothesis Hagree : forall q, q ∈ owned l -> h' !! q = h !! q.

Lemma bytes_agree p : p ∈ owned l -> shared_bytes (Some h') p = shared_bytes (Some h) p.
Proof. intros Hp. unfold shared_bytes, pg_redis_shared_addr. by rewrite (Hagree p Hp). Qed.

Lemma field_agree b : b ∈ l -> field_of h' b = field_of h b.
Proof.
  intros Hb. unfold field_of. rewrite bytes_agree; [done|]. apply elem_of_owned. exists b.
  split; [done|]. unfold bucket_ptrs. set_solver.
Qed.

Lemma value_agree b : b ∈ l -> shared_bytes (Some h') (b_value_dsa b) = shared_bytes (Some h) (b_value_dsa b).
Proof.
  intros Hb. destruct (Z.eqb_spec (b_value_dsa b) InvalidDsaPointer) as [E|E]; [by rewrite E|].
  apply bytes_agree, elem_of_owned. exists b. split; [done|].
  unfold bucket_ptrs. rewrite (proj2 (Z.eqb_neq _ _) E). set_solver.
Qed.

Lemma bucket_ok_agree b : b ∈ l -> bucket_ok h b -> bucket_ok h' b.
Proof.
  intros Hb [H1 H2 H3 H4 H5 H6]. split; unfold value_of; rewrite ?field_agree, ?value_agree by done; try done.
  rewrite bytes_agree; [done|]. apply elem_of_owned. exists b. split; [done|]. unfold bucket_ptrs. set_solver.
Qed.

Lemma contents_agree : contents h' l = contents h l.
Proof.
  unfold contents. f_equal. apply list_fmap_ext. intros i b Hb.
  apply list_elem_of_lookup_2 in Hb. unfold value_of. by rewrite field_agree, value_agree.
Qed.
End Agree.

Lemma slots_agree h h' bs :
  (forall q, q ∈ owned (live bs) -> h' !! q = h !! q) -> slots h' bs = slots h bs.
Proof.
  intros Ha. apply list_fmap_ext. intros i b Hb. apply list_elem_of_lookup_2 in Hb.
  unfold slot_of. destruct (b_state b) eqn:E; [done| |done].
  f_equal. eapply field_agree; [done|]. by apply elem_of_live.
Qed.

Lemma buckets_ok_agree h h' start bs :
  (forall q, q ∈ owned (live bs) -> h' !! q = h !! q) -> buckets_ok h start bs -> buckets_ok h' start bs.
Proof.
  intros Ha [H1 H2 H3]. split; [by rewrite (slots_agree h h')| |done].
  rewrite Forall_forall in *. intros b Hb. eapply bucket_ok_agree; eauto.
Qed.

(** Owned chunks are in the heap. *)
Lemma owned_in h l q : Forall (bucket_ok h) l -> q ∈ owned l -> q <> InvalidDsaPointer /\ is_Some (h !! q).
Proof.
  intros Hl (b & Hb & Hq)%elem_of_owned. rewrite Forall_forall in Hl. destruct (Hl b Hb).
  unfold bucket_ptrs in Hq. apply elem_of_cons in Hq as [->|Hq].
  - apply shared_bytes_Some in bk_field0. naive_solver.
  - destruct (Z.eqb_spec (b_value_dsa b) InvalidDsaPointer); [set_solver|].
    assert (q = b_value_dsa b) as -> by set_solver.
    destruct (b_value_len b =? 0); [done|]. apply shared_bytes_Some in bk_value0. naive_solver.
Qed.

(** ** Well-formed tables *)

Section Spec.
Context `{DsaAllocator} `{HashBytes} `{!DsaLaws}.

Definition start_of (bucket_count : Z) (field : bytes) : nat :=
  Z.to_nat (bucket_index field bucket_count).

(** A power of two, at least the initial size. *)
Definition good_size (n : Z) : Prop := exists k, 0 <= k /\ n = PG_REDIS_SHARED_HASH_INIT_BUCKETS * 2 ^ k.

Record table_ok (h : Heap) (t : PgRedisSharedHashTable) : Prop := {
  to_size : good_size (t_bucket_count t);
  to_length : Z.of_nat (length (t_buckets t)) = t_bucket_count t;
  to_occupied : t_occupied t = Z.of_nat (length (live (t_buckets t)));
  to_tombstones : t_tombstones t = Z.of_nat (tombs (slots h (t_buckets t)));
  to_buckets : buckets_ok h (start_of (t_bucket_count t)) (t_buckets t)
}.

(** The load that [should_grow] keeps. *)
Definition load_ok (t : PgRedisSharedHashTable) : Prop :=
  (t_occupied t + t_tombstones t) * GROW_DEN <= t_bucket_count t * GROW_NUM.

Lemma good_size_pos n : good_size n -> 16 <= n.
Proof.
  intros (k & Hk & ->). unfold PG_REDIS_SHARED_HASH_INIT_BUCKETS.
  assert (1 <= 2 ^ k) by (apply (Z.pow_le_mono_r 2 0 k); lia). lia.
Qed.

Lemma good_size_double n : good_size n -> good_size (n * 2).
Proof.
  intros (k & Hk & ->). exists (k + 1). split; [lia|]. rewrite Z.pow_add_r by lia. lia.
Qed.

Lemma good_size_half n : good_size n -> PG_REDIS_SHARED_HASH_INIT_BUCKETS < n -> good_size (n / 2) /\ n = 2 * (n / 2).
Proof.
  intros (k & Hk & ->) Hlt. destruct (decide (k = 0)) as [->|Hk0]; [lia|].
  assert (2 ^ k = 2 * 2 ^ (k - 1)) as E by (rewrite <- Z.pow_succ_r by lia; f_equal; lia).
  rewrite E. replace (PG_REDIS_SHARED_HASH_INIT_BUCKETS * (2 * 2 ^ (k - 1)))
    with (PG_REDIS_SHARED_HASH_INIT_BUCKETS * 2 ^ (k - 1) * 2) by lia.
  rewrite Z.div_mul by lia. split; [|lia]. exists (k - 1). split; [lia|done].
Qed.

(** [(idx + 1) & mask] is the next position modulo the size. *)
Lemma mask_next n idx :
  good_size n -> 0 <= idx -> Z.land (idx + 1) (n - 1) = (idx + 1) mod n.
Proof.
  intros (k & Hk & ->) Hi. unfold PG_REDIS_SHARED_HASH_INIT_BUCKETS.
  replace (16 * 2 ^ k) with (2 ^ (k + 4)) by (rewrite Z.pow_add_r; lia).
  rewrite <- Z.land_ones by lia. f_equal. rewrite Z.ones_equiv. lia.
Qed.

Lemma bucket_index_range field n : 1 <= n -> 0 <= bucket_index field n < n.
Proof.
  intros Hn. unfold bucket_index. pose proof (wrap_u_range 32 (n - 1) ltac:(lia)) as Hu.
  assert (u32 (n - 1) <= n - 1) by (apply Z.mod_le; lia).
  assert (Z.land (hash_bytes field) (u32 (n - 1)) <= u32 (n - 1)); [|split; [apply Z.land_nonneg; lia|lia]].
  rewrite Z.land_comm. apply Z.ldiff_le; [lia|].
  apply Z.bits_inj'. intros i Hi. rewrite Z.ldiff_spec, Z.land_spec, Z.bits_0.
  destruct (Z.testbit (u32 (n - 1)) i), (Z.testbit (hash_bytes field) i); done.
Qed.

Lemma bucket_matches_spec h b field :
  b_state b = PG_REDIS_SHB_OCCUPIED -> bucket_ok h b ->
  bucket_matches (Some h) b field = Ret (bool_decide (field_of h b = field)).
Proof.
  intros Hs Hok. unfold bucket_matches. rewrite Hs, (bk_field_len _ _ Hok).
  destruct (Z.eqb_spec (blen (field_of h b)) (blen field)) as [El|El]; cbn.
  - rewrite (bk_field _ _ Hok). pose proof (bk_field _ _ Hok) as Hb.
    unfold shared_null. unfold shared_bytes in Hb. destruct (pg_redis_shared_addr _ _) as [| |[]]; try done.
    unfold blen in El. by rewrite take_ge by lia.
  - rewrite bool_decide_false; [done|]. intros E. by rewrite E in El.
Qed.

(** The loop is the abstract probe. *)
Definition tomb_z (tomb : option nat) : Z := match tomb with Some t => Z.of_nat t | None => -1 end.

Lemma find_loop_probe h bs n field fuel idx tomb :
  good_size n -> Z.of_nat (length bs) = n -> (idx < length bs)%nat ->
  Forall (bucket_ok h) (live bs) ->
  find_loop (Some h) bs (n - 1) field fuel (Z.of_nat idx) (tomb_z tomb) =
  match probe (slots h bs) field fuel idx tomb with
  | Some (i, b) => Ret (Z.of_nat i, b)
  | None => Raise ERRCODE_INTERNAL_ERROR
  end.
Proof.
  intros Hn Hlen. pose proof (good_size_pos n Hn). intros Hidx Hlive.
  revert idx tomb Hidx. induction fuel as [|fuel IH]; intros idx tomb Hidx; cbn [find_loop probe].
  { destruct tomb as [t|]; cbn; [|done]. by rewrite (proj2 (Z.leb_le 0 _)) by lia. }
  assert (Hnext : Z.land (Z.of_nat idx + 1) (n - 1) = Z.of_nat (S idx mod length (slots h bs))).
  { rewrite mask_next by (done || lia). rewrite length_slots, Nat2Z.inj_mod, Hlen. f_equal. lia. }
  assert (Hlt : (S idx mod length (slots h bs) < length bs)%nat).
  { rewrite length_slots. apply Nat.mod_upper_bound. lia. }
  rewrite Nat2Z.id, lookup_slots. destruct (lookup_lt_is_Some_2 bs idx Hidx) as [b Hb]. rewrite Hb.
  cbn [fmap option_fmap option_map]. unfold slot_of. destruct (b_state b) eqn:Hs.
  - destruct tomb as [t|]; cbn; [|done]. by rewrite (proj2 (Z.leb_le 0 _)) by lia.
  - assert (Hok : bucket_ok h b).
    { rewrite Forall_forall in Hlive. apply Hlive, elem_of_live. split; [|done]. by eapply list_elem_of_lookup_2. }
    rewrite bucket_matches_spec by done. case_bool_decide as Hf.
    + by rewrite decide_True.
    + rewrite decide_False by done. rewrite Hnext. by apply IH.
  - rewrite Hnext. destruct tomb as [t|]; cbn [tomb_z default from_option id].
    + destruct (Z.ltb_spec (Z.of_nat t) 0); [lia|]. by apply (IH _ (Some t)).
    + by apply (IH _ (Some idx)).
Qed.

Definition has_room (t : PgRedisSharedHashTable) : Prop :=
  t_occupied t + t_tombstones t < t_bucket_count t.

Lemma load_has_room h t : table_ok h t -> load_ok t -> has_room t.
Proof.
  intros Ht Hl. pose proof (good_size_pos _ (to_size _ _ Ht)).
  unfold load_ok, has_room, GROW_DEN, GROW_NUM in *.
  pose proof (to_occupied _ _ Ht). pose proof (to_tombstones _ _ Ht). lia.
Qed.

(** The search always answers: the bucket that holds the field, or a free
    bucket on its probe chain. *)
Lemma find_bucket_spec h t field :
  table_ok h t -> has_room t ->
  exists i was_found b,
    find_bucket (Some h) t field = Ret (Z.of_nat i, was_found) /\ t_buckets t !! i = Some b /\
    if was_found : bool then b ∈ live (t_buckets t) /\ field_of h b = field
    else b_state b <> PG_REDIS_SHB_OCCUPIED /\ field ∉ field_of h <$> live (t_buckets t) /\
         reach (start_of (t_bucket_count t)) (slots h (t_buckets t)) field i.
Proof.
  intros Ht Hr. pose proof (good_size_pos _ (to_size _ _ Ht)) as Hn. destruct (to_buckets _ _ Ht) as [Hw Hl Ho].
  destruct (exists_empty (slots h (t_buckets t))) as [e He].
  { rewrite entries_slots, length_fmap, length_slots. unfold has_room in Hr.
    rewrite (to_occupied _ _ Ht), (to_tombstones _ _ Ht) in Hr. pose proof (to_length _ _ Ht). lia. }
  pose proof (bucket_index_range field (t_bucket_count t) ltac:(lia)) as Hb.
  assert (Hlen : (start_of (t_bucket_count t) field < length (slots h (t_buckets t)))%nat).
  { rewrite length_slots. unfold start_of. pose proof (to_length _ _ Ht). lia. }
  pose proof (probe_spec _ _ field e Hw Hlen He) as (i & wf & Hp & Hspec).
  rewrite length_slots in Hp, Hlen.
  exists i, wf. unfold find_bucket. pose proof (to_length _ _ Ht) as Hcount.
  replace (Z.to_nat (t_bucket_count t)) with (length (t_buckets t)) by lia.
  replace (bucket_index field (t_bucket_count t)) with (Z.of_nat (start_of (t_bucket_count t) field))
    by (unfold start_of; lia).
  rewrite (find_loop_probe h _ _ _ _ _ None) by (done || apply Ht). rewrite Hp.
  destruct wf.
  - destruct Hspec as [v Hv]. rewrite lookup_slots in Hv.
    destruct (t_buckets t !! i) as [b|] eqn:Hi; [|done]. cbn in Hv. injection Hv as Hv.
    apply slot_of_occ in Hv as (-> & -> & Hs). exists b. split; [done|]. split; [done|].
    split; [|done]. apply elem_of_live. split; [by eapply list_elem_of_lookup_2|done].
  - destruct Hspec as (Hk & (s & Hs & Hse) & Hreach). rewrite lookup_slots in Hs.
    destruct (t_buckets t !! i) as [b|] eqn:Hi; [|done]. cbn in Hs. injection Hs as Hs.
    exists b. split; [done|]. split; [done|]. rewrite keys_slots in Hk. split; [|done].
    intros E. unfold slot_of in Hs. rewrite E in Hs. by subst.
Qed.

(** ** Changing one bucket *)

Lemma live_update bs i b b' :
  bs !! i = Some b ->
  live bs ≡ₚ live [b] ++ live (delete i bs) /\
  live (<[i := b']> bs) ≡ₚ live [b'] ++ live (delete i bs).
Proof.
  intros Hi. pose proof (lookup_lt_Some _ _ _ Hi) as Hlt.
  assert (Hall : forall x, live (<[i := x]> bs) ≡ₚ live [x] ++ live (delete i bs)).
  { intros x. rewrite insert_take_drop, delete_take_drop by done. unfold live.
    rewrite !filter_app. change (x :: drop (S i) bs) with ([x] ++ drop (S i) bs). rewrite filter_app.
    rewrite !app_assoc. f_equiv. apply Permutation_app_comm. }
  split; [|done]. rewrite <- (list_insert_id bs i b Hi) at 1. apply Hall.
Qed.

Lemma elem_of_live_delete bs i j b :
  bs !! j = Some b -> j <> i -> b_state b = PG_REDIS_SHB_OCCUPIED -> b ∈ live (delete i bs).
Proof.
  intros Hj Hne Hs. apply elem_of_live. split; [|done]. rewrite delete_take_drop, elem_of_app.
  destruct (decide (j < i)%nat).
  - left. apply (list_elem_of_lookup_2 _ j). by rewrite lookup_take_lt.
  - right. apply (list_elem_of_lookup_2 _ (j - S i)). rewrite lookup_drop. by replace (S i + (j - S i))%nat with j by lia.
Qed.

Section Update.
Variables (h h' : Heap) (start : bytes -> nat) (bs : list PgRedisSharedHashBucket).
Variables (i : nat) (b b' : PgRedisSharedHashBucket).
Hypothesis Hi : bs !! i = Some b.
Hypothesis Hbs : buckets_ok h start bs.
Hypothesis Hkeep : forall q, q ∈ owned (live (delete i bs)) -> h' !! q = h !! q.

Lemma slots_update : slots h' (<[i := b']> bs) = <[i := slot_of h' b']> (slots h bs).
Proof using Hkeep.
  unfold slots. rewrite list_fmap_insert. apply list_eq. intros j.
  destruct (decide (j = i)) as [->|Hne].
  - destruct (decide (i < length bs)%nat).
    + by rewrite !list_lookup_insert_eq by (by rewrite length_fmap).
    + rewrite !lookup_ge_None_2; [done|rewrite length_insert, length_fmap; lia..].
  - rewrite !list_lookup_insert_ne, !list_lookup_fmap by done.
    destruct (bs !! j) as [c|] eqn:Hj; [|done]. cbn. f_equal. unfold slot_of.
    destruct (b_state c) eqn:Hs; [done| |done]. f_equal.
    eapply field_agree; [done|]. by eapply elem_of_live_delete.
Qed.

Lemma buckets_update :
  Forall (bucket_ok h') (live [b']) ->
  NoDup (owned (live [b']) ++ owned (live (delete i bs))) ->
  table_wf start (<[i := slot_of h' b']> (slots h bs)) ->
  buckets_ok h' start (<[i := b']> bs).
Proof using Hi Hbs Hkeep.
  intros Hb' Hnd Hwf. destruct (live_update bs i b b' Hi) as [E E'].
  split; [by rewrite slots_update|..].
  - rewrite E'. apply Forall_app. split; [done|]. pose proof (bo_live _ _ _ Hbs) as Hl.
    rewrite E in Hl. apply Forall_app in Hl as [_ Hl]. rewrite Forall_forall in *.
    intros c Hc. eapply bucket_ok_agree; eauto.
  - rewrite E'. unfold owned in *. by rewrite flat_map_app.
Qed.
End Update.

Lemma live_occ b : b_state b = PG_REDIS_SHB_OCCUPIED -> live [b] = [b].
Proof. intros E. unfold live. by rewrite filter_cons_True. Qed.
Lemma live_free b : b_state b <> PG_REDIS_SHB_OCCUPIED -> live [b] = [].
Proof. intros E. unfold live. by rewrite filter_cons_False. Qed.

Lemma slot_of_free h b : b_state b <> PG_REDIS_SHB_OCCUPIED -> slot_entry (slot_of h b) = None.
Proof. unfold slot_of. by destruct (b_state b). Qed.

Definition tomb_count (b : PgRedisSharedHashBucket) : nat :=
  match b_state b with PG_REDIS_SHB_TOMBSTONE => 1 | _ => 0 end.
#[local] Arguments tomb_count : simpl never.
#[local] Arguments tombs : simpl never.
#[local] Arguments slots : simpl never.
#[local] Arguments live : simpl never.

Lemma slot_tomb_of h b : slot_tomb (slot_of h b) = tomb_count b.
Proof. unfold slot_of, tomb_count. by destruct (b_state b). Qed.

Lemma tombs_set_bucket h h' t i b b' :
  t_buckets t !! i = Some b ->
  (forall q, q ∈ owned (live (delete i (t_buckets t))) -> h' !! q = h !! q) ->
  (tombs (slots h' (<[i := b']> (t_buckets t))) + tomb_count b =
   tombs (slots h (t_buckets t)) + tomb_count b')%nat.
Proof.
  intros Hi Hk. erewrite (slots_update h h') by done.
  rewrite <- (slot_tomb_of h b), <- (slot_tomb_of h' b'). apply tombs_replace.
  by rewrite lookup_slots, Hi.
Qed.

(** Filling a free bucket of the probe chain. *)
Lemma place_ok h h' t i b b' :
  table_ok h t -> t_buckets t !! i = Some b -> b_state b <> PG_REDIS_SHB_OCCUPIED ->
  reach (start_of (t_bucket_count t)) (slots h (t_buckets t)) (field_of h' b') i ->
  field_of h' b' ∉ field_of h <$> live (t_buckets t) ->
  b_state b' = PG_REDIS_SHB_OCCUPIED -> bucket_ok h' b' ->
  (forall q, q ∈ owned (live (t_buckets t)) -> h' !! q = h !! q) ->
  NoDup (bucket_ptrs b' ++ owned (live (t_buckets t))) ->
  let t' := set_bucket (Z.of_nat i) b' (t_occupied t + 1) (t_tombstones t - Z.of_nat (tomb_count b)) t in
  table_ok h' t' /\ live (t_buckets t') ≡ₚ b' :: live (t_buckets t).
Proof.
  intros Ht Hi Hfree Hreach Hk Hs Hok Hkeep Hnd. cbn zeta.
  destruct (live_update _ i b b' Hi) as [E E']. rewrite (live_free b Hfree) in E. cbn in E.
  rewrite (live_occ b' Hs), <- E in E'.
  assert (Hkeep' : forall q, q ∈ owned (live (delete i (t_buckets t))) -> h' !! q = h !! q).
  { intros q. rewrite <- E. apply Hkeep. }
  assert (Hnd' : NoDup (owned (live [b']) ++ owned (live (delete i (t_buckets t))))).
  { rewrite <- E, (live_occ b' Hs). cbn. by rewrite app_nil_r. }
  pose proof (table_wf_place _ _ i (slot_of h b) _ b' (bo_table _ _ _ (to_buckets _ _ Ht))
    ltac:(by rewrite lookup_slots, Hi) (slot_of_free h b Hfree) Hreach) as [Hwf _].
  { by rewrite keys_slots. }
  assert (Hslot : slot_of h' b' = Occ (field_of h' b') b') by (unfold slot_of; by rewrite Hs).
  rewrite <- Hslot in Hwf.
  pose proof (tombs_set_bucket h h' t i b b' Hi Hkeep') as Htomb.
  split; [|cbn; by rewrite Nat2Z.id]. split; cbn; rewrite ?Nat2Z.id.
  - apply Ht.
  - rewrite length_insert. apply Ht.
  - rewrite E'. cbn. pose proof (to_occupied _ _ Ht). lia.
  - pose proof (to_tombstones _ _ Ht). assert (tomb_count b' = 0%nat) by (unfold tomb_count; by rewrite Hs). lia.
  - eapply (buckets_update h); try done; [apply Ht|]. rewrite (live_occ b' Hs). by constructor.
Qed.

(** Replacing the value of an occupied bucket. *)
Lemma overwrite_ok h h' t i b b' :
  table_ok h t -> t_buckets t !! i = Some b -> b_state b = PG_REDIS_SHB_OCCUPIED ->
  b_state b' = PG_REDIS_SHB_OCCUPIED -> bucket_ok h' b' -> field_of h' b' = field_of h b ->
  (forall q, q ∈ owned (live (delete i (t_buckets t))) -> h' !! q = h !! q) ->
  NoDup (bucket_ptrs b' ++ owned (live (delete i (t_buckets t)))) ->
  let t' := set_bucket (Z.of_nat i) b' (t_occupied t) (t_tombstones t) t in
  table_ok h' t' /\ live (t_buckets t') ≡ₚ b' :: live (delete i (t_buckets t)).
Proof.
  intros Ht Hi Hs Hs' Hok Hf Hkeep Hnd. cbn zeta.
  destruct (live_update _ i b b' Hi) as [E E']. rewrite (live_occ b Hs) in E. rewrite (live_occ b' Hs') in E'.
  assert (Hslot : slot_of h' b' = Occ (field_of h b) b') by (unfold slot_of; by rewrite Hs', Hf).
  pose proof (table_wf_overwrite _ _ i (field_of h b) b b' (bo_table _ _ _ (to_buckets _ _ Ht))
    ltac:(rewrite lookup_slots, Hi; cbn; unfold slot_of; by rewrite Hs)) as [Hwf _].
  rewrite <- Hslot in Hwf.
  pose proof (tombs_set_bucket h h' t i b b' Hi Hkeep) as Htomb.
  split; [|cbn; by rewrite Nat2Z.id]. split; cbn; rewrite ?Nat2Z.id.
  - apply Ht.
  - rewrite length_insert. apply Ht.
  - rewrite (to_occupied _ _ Ht), E', E. done.
  - pose proof (to_tombstones _ _ Ht). unfold tomb_count in Htomb. rewrite Hs, Hs' in Htomb. lia.
  - eapply (buckets_update h); try done; [apply Ht|..].
    + rewrite (live_occ b' Hs'). by constructor.
    + rewrite (live_occ b' Hs'). cbn. by rewrite app_nil_r.
Qed.

(** Turning an occupied bucket into a tombstone. *)
Lemma tombstone_ok h h' t i b b' :
  table_ok h t -> t_buckets t !! i = Some b -> b_state b = PG_REDIS_SHB_OCCUPIED ->
  b_state b' = PG_REDIS_SHB_TOMBSTONE ->
  (forall q, q ∈ owned (live (delete i (t_buckets t))) -> h' !! q = h !! q) ->
  let t' := set_bucket (Z.of_nat i) b' (t_occupied t - 1) (t_tombstones t + 1) t in
  table_ok h' t' /\ live (t_buckets t') ≡ₚ live (delete i (t_buckets t)).
Proof.
  intros Ht Hi Hs Hs' Hkeep. cbn zeta.
  destruct (live_update _ i b b' Hi) as [E E']. rewrite (live_occ b Hs) in E.
  rewrite (live_free b') in E' by (by rewrite Hs'). cbn in E'.
  assert (Hslot : slot_of h' b' = Tomb) by (unfold slot_of; by rewrite Hs').
  pose proof (table_wf_tomb _ _ i (field_of h b) b (bo_table _ _ _ (to_buckets _ _ Ht))
    ltac:(rewrite lookup_slots, Hi; cbn; unfold slot_of; by rewrite Hs)) as [Hwf _].
  rewrite <- Hslot in Hwf.
  pose proof (tombs_set_bucket h h' t i b b' Hi Hkeep) as Htomb.
  pose proof (bo_owned _ _ _ (to_buckets _ _ Ht)) as Hnd. rewrite E in Hnd.
  split; [|cbn; by rewrite Nat2Z.id]. split; cbn; rewrite ?Nat2Z.id.
  - apply Ht.
  - rewrite length_insert. apply Ht.
  - rewrite (to_occupied _ _ Ht), E', E. cbn. lia.
  - pose proof (to_tombstones _ _ Ht). unfold tomb_count in Htomb. rewrite Hs, Hs' in Htomb. lia.
  - eapply (buckets_update h); try done; [apply Ht|..]; rewrite (live_free b') by (by rewrite Hs'); cbn; [done|].
    change ([b] ++ ?l) with (b :: l) in Hnd. rewrite owned_cons in Hnd. by apply NoDup_app in Hnd as (_ & _ & ?).
Qed.

(** ** Rehashing *)

Lemma table_ok_agree h h' t :
  (forall q, q ∈ owned (live (t_buckets t)) -> h' !! q = h !! q) -> table_ok h t -> table_ok h' t.
Proof.
  intros Ha [H1' H2 H3 H4 H5]. split; try done; [by rewrite (slots_agree h h')|by eapply buckets_ok_agree].
Qed.

Lemma insert_owned_spec h t b :
  table_ok h t -> has_room t -> b_state b = PG_REDIS_SHB_OCCUPIED -> bucket_ok h b ->
  field_of h b ∉ field_of h <$> live (t_buckets t) ->
  NoDup (bucket_ptrs b ++ owned (live (t_buckets t))) ->
  exists t', insert_live (Some h) b t = (Ret tt, t') /\ table_ok h t' /\
    live (t_buckets t') ≡ₚ b :: live (t_buckets t) /\
    t_bucket_count t' = t_bucket_count t /\ t_occupied t' = t_occupied t + 1 /\
    t_tombstones t' <= t_tombstones t.
Proof.
  intros Ht Hr Hs Hok Hf Hnd. unfold insert_live. rewrite Hs. unfold insert_owned.
  rewrite (bk_field _ _ Hok), (bk_field_len _ _ Hok). cbn [deref]. rewrite !bind_unfold. cbn [mret M_ret].
  rewrite take_ge by (unfold blen; lia).
  destruct (find_bucket_spec h t (field_of h b) Ht Hr) as (i & wf & c & E & Hi & Hspec).
  rewrite bind_unfold, E. destruct wf.
  { destruct Hspec as [Hc Hcf]. destruct Hf. rewrite <- Hcf. by apply list_elem_of_fmap_2. }
  destruct Hspec as (Hcs & Hk & Hreach).
  rewrite bind_unfold. cbn [gets id]. rewrite Nat2Z.id, Hi. cbn [deref]. rewrite bind_mret.
  destruct (place_ok h h t i c b Ht Hi Hcs Hreach Hf Hs Hok ltac:(done) Hnd) as [Hok' Hlive].
  assert (Hb : {| b_state := PG_REDIS_SHB_OCCUPIED; b_field_len := blen (field_of h b);
                  b_value_len := b_value_len b; b_field_dsa := b_field_dsa b; b_value_dsa := b_value_dsa b |} = b).
  { rewrite <- (bk_field_len _ _ Hok), <- Hs. by destruct b. }
  rewrite Hb.
  assert (Htc : match b_state c with PG_REDIS_SHB_TOMBSTONE => t_tombstones t - 1 | _ => t_tombstones t end
                = t_tombstones t - Z.of_nat (tomb_count c)).
  { unfold tomb_count. destruct (b_state c); cbn; lia. }
  rewrite Htc. eexists. split; [reflexivity|]. split; [done|]. split; [done|].
  cbn. split; [done|]. split; [done|]. lia.
Qed.

Lemma live_cons b bs : live (b :: bs) = live [b] ++ live bs.
Proof. unfold live. by rewrite <- filter_app. Qed.

Lemma insert_all_spec h l t :
  table_ok h t -> t_tombstones t = 0 ->
  Z.of_nat (length (live l)) + t_occupied t < t_bucket_count t ->
  Forall (bucket_ok h) (live l) ->
  NoDup (field_of h <$> live l ++ live (t_buckets t)) ->
  NoDup (owned (live l ++ live (t_buckets t))) ->
  exists t', for_each l (insert_live (Some h)) t = (Ret tt, t') /\ table_ok h t' /\
    t_tombstones t' = 0 /\ live (t_buckets t') ≡ₚ live l ++ live (t_buckets t) /\
    t_bucket_count t' = t_bucket_count t.
Proof.
  revert t. induction l as [|b l IH]; intros t Ht H0' Hlt Hl Hf Ho; [by exists t|].
  cbn [for_each]. destruct (decide (b_state b = PG_REDIS_SHB_OCCUPIED)) as [Hs|Hs].
  - rewrite live_cons, (live_occ b Hs) in *. cbn [app] in *. cbn [length] in Hlt.
    apply Forall_cons in Hl as [Hb Hl].
    rewrite fmap_cons in Hf. apply NoDup_cons in Hf as [Hbf Hf].
    rewrite owned_cons in Ho.
    assert (Ho' : owned (live l ++ live (t_buckets t)) = owned (live l) ++ owned (live (t_buckets t))).
    { unfold owned. apply flat_map_app. }
    destruct (insert_owned_spec h t b) as (t1 & E & Ht1 & Hlive & Hc & Hocc & Htomb); try done.
    { unfold has_room. lia. }
    { intros Hin. apply Hbf. rewrite fmap_app. set_solver. }
    { rewrite Ho' in Ho. eapply sublist_NoDup; [done|]. apply sublist_app; [done|]. by apply sublist_inserts_l. }
    assert (Hp : live l ++ live (t_buckets t1) ≡ₚ b :: live l ++ live (t_buckets t)).
    { rewrite Hlive. by rewrite Permutation_middle. }
    destruct (IH t1) as (t' & E' & Ht' & Htomb' & Hlive' & Hc'); try done.
    + pose proof (to_tombstones _ _ Ht1). lia.
    + lia.
    + rewrite Hp. cbn. by constructor.
    + by rewrite Hp, owned_cons.
    + exists t'. rewrite (bind_Ret _ _ _ _ _ E). split; [done|]. split; [done|]. split; [done|].
      split; [|congruence]. by rewrite Hlive', Hp.
  - rewrite live_cons, (live_free b Hs) in *. cbn [app] in *.
    assert (E : insert_live (Some h) b t = (Ret tt, t)) by (unfold insert_live; by destruct (b_state b)).
    rewrite (bind_Ret _ _ _ _ _ E). by apply IH.
Qed.

Lemma fresh_table_ok h n :
  good_size n ->
  table_ok h {| t_bucket_count := n; t_occupied := 0; t_tombstones := 0;
                t_buckets := replicate (Z.to_nat n) empty_bucket |}.
Proof.
  intros Hn. pose proof (good_size_pos n Hn).
  assert (Hslots : slots h (replicate (Z.to_nat n) empty_bucket) = replicate (Z.to_nat n) Empty).
  { unfold slots. by rewrite fmap_replicate. }
  assert (Hlive : live (replicate (Z.to_nat n) empty_bucket) = []).
  { clear. induction (Z.to_nat n) as [|k IH]; [done|]. cbn [replicate]. by rewrite live_cons, IH. }
  split; cbn [t_bucket_count t_buckets t_occupied t_tombstones]; rewrite ?Hlive, ?Hslots; try done.
  - rewrite length_replicate. lia.
  - by rewrite tombs_replicate.
  - split; rewrite ?Hlive, ?Hslots; [apply table_wf_fresh|constructor|constructor].
Qed.

Lemma alloc_table_cases n h :
  alloc_table n (Some h) = (Ret InvalidDsaPointer, Some h) \/
  exists p, p <> InvalidDsaPointer /\ h !! p = None /\
    alloc_table n (Some h) = (Ret p, Some (<[p := CTable {| t_bucket_count := n; t_occupied := 0;
      t_tombstones := 0; t_buckets := replicate (Z.to_nat n) empty_bucket |}]> h)).
Proof.
  unfold alloc_table. rewrite bind_unfold.
  destruct (palloc_cases (table_alloc_size n) h) as [E|(p & E & Hp & Hf)]; rewrite E; [by left|].
  right. exists p. split; [done|]. split; [done|]. rewrite (proj2 (Z.eqb_neq _ _) Hp).
  rewrite bind_unfold. cbn. by rewrite insert_insert_eq.
Qed.

Lemma shared_table_Some h p t :
  shared_table (Some h) p = Some t <-> p <> InvalidDsaPointer /\ h !! p = Some (CTable t).
Proof.
  unfold shared_table, pg_redis_shared_addr. destruct (Z.eqb_spec p InvalidDsaPointer); [naive_solver|].
  destruct (h !! p) as [[]|]; naive_solver.
Qed.

(** Either there is no memory and nothing changed, or the table has moved. *)
Lemma rehash_cases h p t n :
  p <> InvalidDsaPointer -> h !! p = Some (CTable t) -> table_ok h t -> p ∉ owned (live (t_buckets t)) ->
  good_size n -> t_occupied t < n ->
  rehash_table p n (Some h) = (Ret InvalidDsaPointer, Some h) \/
  exists p' t', rehash_table p n (Some h) = (Ret p', Some (delete p (<[p' := CTable t']> h))) /\
    p' <> InvalidDsaPointer /\ h !! p' = None /\
    table_ok (delete p (<[p' := CTable t']> h)) t' /\ t_tombstones t' = 0 /\
    t_bucket_count t' = n /\ live (t_buckets t') ≡ₚ live (t_buckets t).
Proof.
  intros Hp Hh Ht Hpo Hn Hlt. unfold rehash_table. rewrite bind_unfold.
  destruct (alloc_table_cases n h) as [E|(p' & Hp' & Hf & E)]; rewrite E; [by left|].
  right. rewrite (proj2 (Z.eqb_neq _ _) Hp'). set (t0 := {| t_bucket_count := n |}).
  set (h0 := <[p' := CTable t0]> h).
  assert (Hne : p' <> p) by congruence.
  pose proof (bo_live _ _ _ (to_buckets _ _ Ht)) as Hlive.
  assert (Hown : forall q, q ∈ owned (live (t_buckets t)) -> q <> p').
  { intros q Hq ->. apply (owned_in h) in Hq as [_ [c Hc]]; [|done]. congruence. }
  assert (Hkeep0 : forall q, q ∈ owned (live (t_buckets t)) -> h0 !! q = h !! q).
  { intros q Hq. unfold h0. rewrite lookup_insert_ne; [done|]. intros <-. by apply (Hown p'). }
  pose proof (table_ok_agree h h0 t Hkeep0 Ht) as Ht0. destruct (to_buckets _ _ Ht0) as [Hw0 Hl0 Ho0].
  assert (Hempty : live (t_buckets t0) = []).
  { pose proof (to_occupied _ _ (fresh_table_ok h0 n Hn)) as E0. cbn in E0.
    unfold t0. cbn [t_buckets]. by destruct (live (replicate _ _)). }
  destruct (insert_all_spec h0 (t_buckets t) t0) as (t' & E' & Ht' & Htomb & Hlive' & Hc).
  { by apply fresh_table_ok. }
  { done. }
  { cbn. pose proof (to_occupied _ _ Ht). lia. }
  { done. }
  { rewrite Hempty, app_nil_r. pose proof (tw_keys _ _ Hw0) as Hk. by rewrite keys_slots in Hk. }
  { by rewrite Hempty, app_nil_r. }
  rewrite Hempty, app_nil_r in Hlive'.
  exists p', t'. rewrite bind_unfold. cbn [gets id]. rewrite bind_unfold.
  assert (shared_table (Some h0) p = Some t) as ->.
  { apply shared_table_Some. split; [done|]. unfold h0. by rewrite lookup_insert_ne. }
  cbn [deref mret M_ret]. rewrite bind_unfold. unfold in_table.
  assert (shared_table (Some h0) p' = Some t0) as ->.
  { apply shared_table_Some. split; [done|]. apply lookup_insert_eq. }
  rewrite E'. cbn. unfold pg_redis_shared_pfree. rewrite (proj2 (Z.eqb_neq _ _) Hp). cbn.
  unfold h0. rewrite insert_insert_eq. split; [done|]. split; [done|]. split; [done|].
  split; [|done]. apply (table_ok_agree h0); [|done]. intros q Hq. rewrite Hlive' in Hq.
  assert (q <> p') by (by apply Hown).
  rewrite lookup_delete_ne by set_solver. unfold h0. rewrite !lookup_insert_ne by done. done.
Qed.
End Spec.
