(* ===== verification/SharedHashOps.v ===== *)
(** * Operations of the shared hash against the finite map

    [hash_repr h p m F]: in heap [h] the pointer [p] is a shared hash that
    stands for the map [m] and owns the chunks [F].  Each operation of
    src/shared_hash.c takes a represented map to a represented map, keeps the
    rest of the heap, and fails only for lack of memory or an oversized value,
    with the map as it was. *)
From S2P Require Import Prelude Types HashValue LinearProbing SharedMem SharedHash SharedHashSpec.

(** ** Values in chunks of their own *)

Lemma u16_len v : blen v <= UINT16_MAX -> u16 (blen v) = blen v.
Proof. intros. apply wrap_u_small. pose proof (blen_nonneg v). unfold UINT16_MAX in *. lia. Qed.

Lemma bucket_ptrs_eq b : bucket_ptrs b = b_field_dsa b :: vptrs (b_value_dsa b).
Proof. done. Qed.

(** A value chunk: none for the empty value, a new one otherwise. *)
Record value_new (h h' : Heap) (v : bytes) (p : dsa_pointer) : Prop := {
  vn_bytes : if blen v =? 0 then p = InvalidDsaPointer else shared_bytes (Some h') p = Some v;
  vn_fresh : forall q, q ∈ vptrs p -> h !! q = None;
  vn_same : forall q, q ∉ vptrs p -> h' !! q = h !! q
}.

Lemma value_new_kept h h1 h' v p :
  value_new h h1 v p -> (forall q, q ∈ vptrs p -> h' !! q = h1 !! q) ->
  if blen v =? 0 then p = InvalidDsaPointer else shared_bytes (Some h') p = Some v.
Proof.
  intros [Hb _ _] Hq. destruct (blen v =? 0); [done|]. eapply shared_bytes_kept; [|done].
  apply Hq, elem_of_vptrs. by apply shared_bytes_Some in Hb as [? _].
Qed.

Section Values.
Context `{DsaAllocator} `{!DsaLaws}.

Lemma alloc_value_cases v h :
  exists p h', alloc_value v (Some h) = (Ret p, Some h') /\
    if (0 <? blen v) && (p =? InvalidDsaPointer) then h' = h
    else value_new h h' v p.
Proof.
  unfold alloc_value. pose proof (blen_nonneg v). destruct (Z.ltb_spec 0 (blen v)) as [Hv|Hv].
  - rewrite bind_unfold. destruct (palloc_cases (blen v) h) as [E|(p & E & Hp & Hf)]; rewrite E.
    + by exists InvalidDsaPointer, h.
    + rewrite (proj2 (Z.eqb_neq _ _) Hp). exists p, (<[p := CBytes v]> h). split.
      { rewrite bind_unfold. cbn. by rewrite insert_insert_eq. }
      rewrite (proj2 (Z.eqb_neq _ _) Hp). split.
      * rewrite (proj2 (Z.eqb_neq _ _)) by lia. apply shared_bytes_Some. split; [done|]. apply lookup_insert_eq.
      * by intros q [-> _]%elem_of_vptrs.
      * intros q Hq. apply lookup_insert_ne. intros <-. by apply Hq, elem_of_vptrs.
  - exists InvalidDsaPointer, h. split; [done|]. split; [|by intros q [-> ?]%elem_of_vptrs|done].
    by rewrite (proj2 (Z.eqb_eq _ _)) by lia.
Qed.

End Values.

Section Ops.
Context `{DsaAllocator} `{HashBytes} `{!DsaLaws}.

Record hash_at (h : Heap) (p : dsa_pointer) (t : PgRedisSharedHashTable) : Prop := {
  ha_valid : p <> InvalidDsaPointer;
  ha_lookup : h !! p = Some (CTable t);
  ha_ok : table_ok h t;
  ha_load : load_ok t;
  ha_own : p ∉ owned (live (t_buckets t))
}.

Definition foot (p : dsa_pointer) (t : PgRedisSharedHashTable) : gset dsa_pointer :=
  {[p]} ∪ list_to_set (owned (live (t_buckets t))).

Definition table_map (h : Heap) (t : PgRedisSharedHashTable) : gmap bytes bytes :=
  contents h (live (t_buckets t)).

Definition hash_repr (h : Heap) (p : dsa_pointer) (m : gmap bytes bytes) (F : gset dsa_pointer) : Prop :=
  (p = InvalidDsaPointer /\ m = ∅ /\ F = ∅) \/
  exists t, hash_at h p t /\ m = table_map h t /\ F = foot p t.

(** ** The map of a table *)

Lemma fields_nodup h t : table_ok h t -> NoDup (field_of h <$> live (t_buckets t)).
Proof. intros Ht. rewrite <- keys_slots. apply (tw_keys _ _ (bo_table _ _ _ (to_buckets _ _ Ht))). Qed.

Lemma contents_keys h l : ((fun b => (field_of h b, value_of h b)) <$> l).*1 = field_of h <$> l.
Proof. by rewrite <- list_fmap_compose. Qed.

Lemma contents_perm h l l' : NoDup (field_of h <$> l) -> l ≡ₚ l' -> contents h l = contents h l'.
Proof.
  intros Hn Hp. unfold contents. apply list_to_map_proper; [by rewrite contents_keys|].
  by apply fmap_Permutation.
Qed.

Lemma contents_cons h b l : contents h (b :: l) = <[field_of h b := value_of h b]> (contents h l).
Proof. done. Qed.

Lemma contents_None h l f : contents h l !! f = None <-> f ∉ field_of h <$> l.
Proof. unfold contents. rewrite <- contents_keys. symmetry. apply not_elem_of_list_to_map. Qed.

Lemma contents_Some h l b :
  NoDup (field_of h <$> l) -> b ∈ l -> contents h l !! field_of h b = Some (value_of h b).
Proof.
  intros Hn Hb. apply elem_of_list_to_map_1; [by rewrite contents_keys|].
  apply list_elem_of_fmap. by exists b.
Qed.

Lemma contents_size h l : NoDup (field_of h <$> l) -> size (contents h l) = length l.
Proof.
  intros Hn. unfold contents. rewrite map_size_list_to_map by (by rewrite contents_keys).
  apply length_fmap.
Qed.

(** ** Reads *)

Lemma foot_in h p t q : hash_at h p t -> q ∈ foot p t -> q <> InvalidDsaPointer /\ is_Some (h !! q).
Proof.
  intros Ha Hin. unfold foot in Hin.
  apply elem_of_union in Hin as [->%elem_of_singleton|Hq%elem_of_list_to_set].
  - destruct Ha. eauto.
  - eapply owned_in; [|done]. apply Ha.
Qed.

Lemma repr_table h p t : hash_at h p t -> shared_table (Some h) p = Some t /\ shared_null (Some h) p = false /\ (p =? InvalidDsaPointer) = false.
Proof.
  intros [Hp Hh _ _ _]. split; [by apply shared_table_Some|].
  unfold shared_null, pg_redis_shared_addr. rewrite (proj2 (Z.eqb_neq _ _) Hp), Hh. done.
Qed.

Lemma live_nil_iff h t : table_ok h t -> (t_occupied t =? 0) = true -> live (t_buckets t) = [].
Proof. intros Ht E%Z.eqb_eq. rewrite (to_occupied _ _ Ht) in E. destruct (live _); [done|cbn in E; lia]. Qed.

Lemma read_table_spec h p m F :
  hash_repr h p m F ->
  (read_table (Some h) p = Ret None /\ m = ∅) \/
  exists t, read_table (Some h) p = Ret (Some t) /\ hash_at h p t /\ m = table_map h t /\ F = foot p t.
Proof.
  intros [(-> & -> & ->)|(t & Ha & -> & ->)]; [by left|].
  destruct (repr_table h p t Ha) as (Et & En & Ep). unfold read_table. rewrite Ep, En, Et. cbn.
  destruct (t_occupied t =? 0) eqn:E0; [left|by right; eauto].
  split; [done|]. unfold table_map. by rewrite (live_nil_iff h t (ha_ok _ _ _ Ha) E0).
Qed.

Lemma copy_value_spec h b : bucket_ok h b -> copy_value (Some h) (b_value_dsa b) (b_value_len b) = Ret (value_of h b).
Proof.
  intros [_ _ _ Hv Hl _]. unfold copy_value. pose proof (blen_nonneg (value_of h b)).
  destruct (Z.eqb_spec (b_value_len b) 0) as [E|E].
  - rewrite E. unfold value_of. rewrite Hv. done.
  - rewrite (proj2 (Z.ltb_lt 0 _)) by lia. rewrite Hv, Hl. f_equal. apply take_ge. unfold blen. lia.
Qed.

Lemma find_at h p t field :
  hash_at h p t ->
  exists i was_found b,
    find_bucket (Some h) t field = Ret (Z.of_nat i, was_found) /\ t_buckets t !! i = Some b /\
    if was_found : bool then b ∈ live (t_buckets t) /\ field_of h b = field
    else b_state b <> PG_REDIS_SHB_OCCUPIED /\ field ∉ field_of h <$> live (t_buckets t) /\
         reach (start_of (t_bucket_count t)) (slots h (t_buckets t)) field i.
Proof. intros Ha. apply find_bucket_spec; [apply Ha|]. eapply load_has_room; apply Ha. Qed.

Lemma shared_get_spec h p m F field :
  hash_repr h p m F -> pg_redis_shared_hash_get p field (Some h) = Ret (m !! field).
Proof.
  intros Hr. unfold pg_redis_shared_hash_get.
  destruct (read_table_spec h p m F Hr) as [(-> & ->)|(t & -> & Ha & -> & _)]; [by rewrite lookup_empty|].
  destruct (find_at h p t field Ha) as (i & wf & b & -> & Hi & Hspec). destruct wf.
  - destruct Hspec as [Hb Hf]. rewrite Nat2Z.id, Hi.
    pose proof (bo_live _ _ _ (to_buckets _ _ (ha_ok _ _ _ Ha))) as Hl. rewrite Forall_forall in Hl.
    rewrite copy_value_spec by (by apply Hl). unfold table_map.
    rewrite <- Hf, contents_Some; [done|apply fields_nodup, Ha|done].
  - destruct Hspec as (_ & Hk & _). unfold table_map. by rewrite (proj2 (contents_None _ _ _) Hk).
Qed.

Lemma shared_exists_spec h p m F field :
  hash_repr h p m F -> pg_redis_shared_hash_exists p field (Some h) = Ret (bool_decide (is_Some (m !! field))).
Proof.
  intros Hr. unfold pg_redis_shared_hash_exists.
  destruct (read_table_spec h p m F Hr) as [(-> & ->)|(t & -> & Ha & -> & _)]; [by rewrite lookup_empty|].
  destruct (find_at h p t field Ha) as (i & wf & b & -> & Hi & Hspec). unfold table_map. destruct wf.
  - destruct Hspec as [Hb Hf]. rewrite <- Hf, contents_Some; [done|apply fields_nodup, Ha|done].
  - destruct Hspec as (_ & Hk & _). by rewrite (proj2 (contents_None _ _ _) Hk).
Qed.

Lemma shared_count_spec h p m F :
  hash_repr h p m F -> pg_redis_shared_hash_count p (Some h) = Ret (Z.of_nat (size m)).
Proof.
  intros [(-> & -> & ->)|(t & Ha & -> & ->)]; [done|]. unfold pg_redis_shared_hash_count.
  destruct (repr_table h p t Ha) as (-> & -> & ->). cbn. unfold table_map.
  rewrite contents_size by apply fields_nodup, Ha. by rewrite (to_occupied _ _ (ha_ok _ _ _ Ha)).
Qed.

(** ** HSET, step by step *)

(** Freeing a table's chunk and moving its entries keeps the map. *)
Lemma rehash_at h p t n :
  hash_at h p t -> good_size n -> t_occupied t * GROW_DEN <= n * GROW_NUM ->
  rehash_table p n (Some h) = (Ret InvalidDsaPointer, Some h) \/
  exists p' t' h', rehash_table p n (Some h) = (Ret p', Some h') /\
    hash_at h' p' t' /\ t_bucket_count t' = n /\ t_occupied t' = t_occupied t /\ t_tombstones t' = 0 /\
    table_map h' t' = table_map h t /\ rest (foot p' t') h' = rest (foot p t) h.
Proof.
  intros Ha Hn Hload. pose proof (good_size_pos n Hn). pose proof (to_occupied _ _ (ha_ok _ _ _ Ha)) as Hocc.
  unfold GROW_DEN, GROW_NUM in Hload.
  destruct (rehash_cases h p t n) as [E|(p' & t' & E & Hp' & Hf & Ht' & Htomb & Hc & Hlive)];
    [apply Ha..|done|lia|by left|right].
  set (h' := delete p (<[p' := CTable t']> h)) in *.
  assert (Hpp : p' <> p) by (intros ->; rewrite (ha_lookup _ _ _ Ha) in Hf; done).
  assert (Hown : forall q, q ∈ owned (live (t_buckets t)) -> q <> p' /\ q <> p).
  { intros q Hq. split; [|intros ->; by destruct Ha].
    intros ->. apply (owned_in h) in Hq as [_ [c Hc']]; [congruence|]. apply Ha. }
  assert (Hkeep : forall q, q ∈ owned (live (t_buckets t)) -> h' !! q = h !! q).
  { intros q [Hq1 Hq2]%Hown. unfold h'. by rewrite lookup_delete_ne, lookup_insert_ne by done. }
  assert (Hocc' : t_occupied t' = t_occupied t).
  { rewrite Hocc, (to_occupied _ _ Ht'), Hlive. done. }
  exists p', t', h'. split; [done|]. split; [split|].
  - done.
  - unfold h'. rewrite lookup_delete_ne by done. apply lookup_insert_eq.
  - done.
  - unfold load_ok, GROW_DEN, GROW_NUM. rewrite Htomb, Hc, Hocc'. lia.
  - rewrite Hlive. intros Hq%Hown. naive_solver.
  - split; [done|]. split; [done|]. split; [done|]. split.
    + unfold table_map. rewrite (contents_perm h' _ (live (t_buckets t))) by (apply fields_nodup || done; done).
      by apply contents_agree.
    + unfold foot. apply rest_eq; intros q; rewrite !elem_of_union, !elem_of_list_to_set, !elem_of_singleton, Hlive.
      * intros [->|Hq]; [right|by left; right]. unfold h'. apply lookup_delete_eq.
      * intros [->|Hq]; [by right|by left; right].
      * intros Hq1 Hq2. unfold h'. rewrite lookup_delete_ne, lookup_insert_ne; naive_solver.
Qed.

(** The state after the table exists and has room for one more. *)
Definition stage (h : Heap) (m : gmap bytes bytes) (F : gset dsa_pointer) (P : PgRedisSharedHashTable -> Prop)
    (x : outcome unit * (Dsa * dsa_pointer)) : Prop :=
  exists h' p' F', x.2 = (Some h', p') /\ rest F' h' = rest F h /\
    match x.1 with
    | Ret _ => exists t, hash_at h' p' t /\ m = table_map h' t /\ F' = foot p' t /\ P t
    | Raise e => e = ERRCODE_OUT_OF_MEMORY /\ hash_repr h' p' m F'
    end.

Lemma lazy_alloc_spec h p m F :
  hash_repr h p m F -> stage h m F (fun _ => True) (hash_set_lazy_alloc (Some h, p)).
Proof.
  intros [(-> & -> & ->)|(t & Ha & -> & ->)]; unfold hash_set_lazy_alloc; rewrite bind_unfold; cbn [gets snd].
  - cbn [Z.eqb InvalidDsaPointer]. rewrite bind_unfold. unfold on_dsa. cbn [fst snd].
    destruct (alloc_table_cases PG_REDIS_SHARED_HASH_INIT_BUCKETS h) as [E|(p & Hp & Hf & E)]; rewrite E.
    + exists h, InvalidDsaPointer, ∅. cbn. split; [done|]. split; [done|]. split; [done|]. by left.
    + rewrite (proj2 (Z.eqb_neq _ _) Hp).
      match goal with |- context [<[p := CTable ?t0]> h] => set (t := t0) end.
      exists (<[p := CTable t]> h), p, (foot p t). split; [done|].
      assert (Hn : good_size PG_REDIS_SHARED_HASH_INIT_BUCKETS) by (by exists 0).
      pose proof (fresh_table_ok (<[p := CTable t]> h) _ Hn) as Hok. fold t in Hok.
      assert (Hl : live (t_buckets t) = []) by (by vm_compute).
      split; [|split with t; split; [split|]]; cbn [fst]; rewrite ?Hl; try done.
      * unfold foot. rewrite Hl. by apply rest_alloc.
      * apply lookup_insert_eq.
      * apply not_elem_of_nil.
  - destruct (repr_table h p t Ha) as (_ & _ & ->).
    exists h, p, (foot p t). split; [done|]. split; [done|]. exists t. done.
Qed.

Lemma grow_spec h p t :
  hash_at h p t ->
  stage h (table_map h t) (foot p t)
    (fun t => (t_occupied t + t_tombstones t + 1) * GROW_DEN <= t_bucket_count t * GROW_NUM)
    (hash_set_grow (Some h, p)).
Proof.
  intros Ha. unfold hash_set_grow. rewrite bind_unfold. cbn [gets snd]. rewrite bind_unfold.
  unfold inout_table. cbn [fst snd]. destruct (repr_table h p t Ha) as (-> & _ & _). cbn [deref mret M_ret].
  unfold should_grow. pose proof (good_size_pos _ (to_size _ _ (ha_ok _ _ _ Ha))).
  pose proof (ha_load _ _ _ Ha) as Hload. unfold load_ok, GROW_NUM, GROW_DEN in *.
  pose proof (to_occupied _ _ (ha_ok _ _ _ Ha)). pose proof (to_tombstones _ _ (ha_ok _ _ _ Ha)).
  destruct (Z.ltb_spec (t_bucket_count t * 7) ((t_occupied t + t_tombstones t + 1) * 10)).
  - rewrite bind_unfold. unfold on_dsa. cbn [fst snd].
    destruct (rehash_at h p t (t_bucket_count t * 2) Ha) as
      [E|(p' & t' & h' & E & Ha' & Hc & Ho & Htm & Hm & Hrest)];
      [apply good_size_double, Ha|unfold GROW_DEN, GROW_NUM; lia|..]; rewrite E.
    + exists h, p, (foot p t). cbn. split; [done|]. split; [done|]. split; [done|].
      right. eauto.
    + rewrite (proj2 (Z.eqb_neq _ _) (ha_valid _ _ _ Ha')).
      exists h', p', (foot p' t'). cbn [fst]. split; [done|]. split; [done|]. exists t'.
      split; [done|]. split; [done|]. split; [done|]. unfold GROW_NUM, GROW_DEN. lia.
  - exists h, p, (foot p t). cbn [fst]. split; [done|]. split; [done|]. exists t. done.
Qed.

(** A bucket over a field chunk and a new value chunk is well formed. *)
Lemma bucket_ok_make h b field value :
  shared_bytes (Some h) (b_field_dsa b) = Some field -> b_field_len b = blen field ->
  blen field <= PG_REDIS_MAX_FIELD_SIZE -> b_value_len b = blen value -> blen value <= UINT16_MAX ->
  (if blen value =? 0 then b_value_dsa b = InvalidDsaPointer
   else shared_bytes (Some h) (b_value_dsa b) = Some value) ->
  bucket_ok h b /\ field_of h b = field /\ value_of h b = value.
Proof.
  intros Hf Hfl Hfm Hvl Hvm Hv.
  assert (Ef : field_of h b = field) by (unfold field_of; by rewrite Hf).
  assert (Ev : value_of h b = value).
  { unfold value_of. destruct (Z.eqb_spec (blen value) 0) as [E|E]; rewrite Hv; [|done].
    unfold blen in E. destruct value; [done|cbn in E; lia]. }
  split; [|done]. split; rewrite ?Ef, ?Ev; try done. rewrite Hvl.
  by destruct (blen value =? 0); rewrite ?Ev.
Qed.

(** ** Committing a change of the table

    The buckets [old] were replaced by [new] beside the untouched [keep]. *)
Lemma committed h h' p t t' old new keep :
  hash_at h p t -> h' !! p = Some (CTable t') -> table_ok h' t' -> load_ok t' ->
  live (t_buckets t) ≡ₚ old ++ keep -> live (t_buckets t') ≡ₚ new ++ keep ->
  p ∉ owned new ->
  (forall q, q ∈ owned keep -> h' !! q = h !! q) ->
  (forall q, q ∈ owned old -> q ∈ owned new \/ h' !! q = None) ->
  (forall q, q ∈ owned new -> q ∈ owned old \/ h !! q = None) ->
  (forall q, q <> p -> q ∉ owned old -> q ∉ owned new -> h' !! q = h !! q) ->
  hash_at h' p t' /\ table_map h' t' = contents h' (new ++ keep) /\ contents h' keep = contents h keep /\
  table_map h t = contents h (old ++ keep) /\ rest (foot p t') h' = rest (foot p t) h.
Proof.
  intros Ha Hp Hok Hl E E' Hpn Hkeep Hold Hnew Hsame.
  assert (Happ : forall a b, owned (a ++ b) = owned a ++ owned b) by (intros; apply flat_map_app).
  pose proof (ha_own _ _ _ Ha) as Hpo. rewrite E, Happ, elem_of_app in Hpo.
  split; [split; try done; [apply Ha|]|split; [|split; [|split]]].
  - rewrite E', Happ, elem_of_app. naive_solver.
  - by apply contents_perm; [apply fields_nodup|].
  - by apply contents_agree.
  - apply contents_perm; [apply fields_nodup, Ha|done].
  - unfold foot. apply rest_eq; intros q; rewrite !elem_of_union, !elem_of_list_to_set, !elem_of_singleton,
      E, E', !Happ, !elem_of_app; naive_solver.
Qed.

Lemma owned_one b : owned [b] = bucket_ptrs b.
Proof. apply app_nil_r. Qed.

(** The outcome of writing [field] into the table at [p]. *)
Definition written (h : Heap) (p : dsa_pointer) (t : PgRedisSharedHashTable) (field value : bytes)
    (was_new : bool) (x : outcome bool * Dsa) : Prop :=
  exists h', x.2 = Some h' /\
    match x.1 with
    | Ret r => r = was_new /\ exists t', hash_at h' p t' /\
        table_map h' t' = <[field := value]> (table_map h t) /\ rest (foot p t') h' = rest (foot p t) h
    | Raise e => e = ERRCODE_OUT_OF_MEMORY /\ h' = h
    end.

(** The table with the value of bucket [i] replaced by a fresh chunk and the old
    chunk freed. *)
Lemma overwrite_commit h h1 p t i b value np :
  hash_at h p t -> t_buckets t !! i = Some b -> b_state b = PG_REDIS_SHB_OCCUPIED -> value_new h h1 value np ->
  blen value <= UINT16_MAX ->
  let b' := {| b_state := PG_REDIS_SHB_OCCUPIED; b_field_len := b_field_len b; b_value_len := blen value;
               b_field_dsa := b_field_dsa b; b_value_dsa := np |} in
  let t' := set_bucket (Z.of_nat i) b' (t_occupied t) (t_tombstones t) t in
  let h' := <[p := CTable t']> (hfree (b_value_dsa b) h1) in
  hash_at h' p t' /\ table_map h' t' = <[field_of h b := value]> (table_map h t) /\
  rest (foot p t') h' = rest (foot p t) h.
Proof.
  intros Ha Hi Hs Hcase Hv b' t' h'.
  destruct (live_update (t_buckets t) i b b' Hi) as [El _]. rewrite (live_occ b Hs) in El.
  set (L := live (delete i (t_buckets t))) in *. change ([b] ++ L) with (b :: L) in El.
  pose proof (bo_live _ _ _ (to_buckets _ _ (ha_ok _ _ _ Ha))) as Hlive.
  pose proof (bo_owned _ _ _ (to_buckets _ _ (ha_ok _ _ _ Ha))) as Hnd.
  pose proof (ha_own _ _ _ Ha) as Hpo. rewrite El in Hlive, Hnd, Hpo.
  assert (Hin : forall q, q ∈ owned (b :: L) -> q ∉ vptrs np).
  { intros q Hq Hq'. apply (vn_fresh _ _ _ _ Hcase) in Hq'.
    apply (owned_in h _ _ Hlive) in Hq as [_ [c Hc]]. congruence. }
  rewrite owned_cons, bucket_ptrs_eq in *. apply Forall_cons in Hlive as [Hb HL].
  assert (Hpn : p ∉ vptrs np).
  { intros Hq. apply (vn_fresh _ _ _ _ Hcase) in Hq. rewrite (ha_lookup _ _ _ Ha) in Hq. done. }
  assert (Hlook : forall q, q <> p -> q ∉ vptrs (b_value_dsa b) -> h' !! q = h1 !! q).
  { intros q H1' H2'. unfold h'. by rewrite lookup_insert_ne, lookup_hfree, decide_False by done. }
  assert (Hsame : forall q, q <> p -> q ∉ vptrs (b_value_dsa b) -> q ∉ vptrs np -> h' !! q = h !! q).
  { intros q ? ? ?. rewrite Hlook by done. by apply (vn_same _ _ _ _ Hcase). }
  cbn [app] in Hnd. apply NoDup_cons in Hnd as [Hfd Hnd]. rewrite elem_of_app in Hfd.
  apply NoDup_app in Hnd as (_ & Hdis & HndL).
  assert (Hbok : bucket_ok h' b' /\ field_of h' b' = field_of h b /\ value_of h' b' = value).
  { pose proof (bk_field _ _ Hb) as Hf. apply bucket_ok_make; cbn [b_field_dsa b' b_field_len b_value_len b_value_dsa];
      try done; try apply Hb.
    - eapply shared_bytes_kept; [|done]. apply Hsame; [set_solver|set_solver|]. apply Hin. set_solver.
    - apply (value_new_kept _ _ _ _ _ Hcase). intros q Hq.
      apply Hlook; [by intros ->|]. intros Hq'. apply (Hin q); [set_solver|done]. }
  destruct Hbok as (Hbok & Hf' & Hv').
  assert (HkeepL : forall q, q ∈ owned L -> h' !! q = h !! q).
  { intros q Hq. apply Hsame; [set_solver|set_solver|]. apply Hin. set_solver. }
  destruct (overwrite_ok h h' t i b b' (ha_ok _ _ _ Ha) Hi Hs eq_refl Hbok Hf' HkeepL) as [Hok' Hl'].
  { rewrite bucket_ptrs_eq. cbn [app b_field_dsa b_value_dsa b']. apply NoDup_cons. split.
    - rewrite elem_of_app. intros [Hq|Hq]; [|set_solver]. by apply (Hin (b_field_dsa b)); [set_solver|].
    - apply NoDup_app. split; [apply vptrs_nodup|]. split; [|done].
      intros q Hq Hq'. apply (Hin q); [set_solver|done]. }
  fold t' L in Hok', Hl'.
  destruct (committed h h' p t t' [b] [b'] L) as (Ha' & Em & Ek & Eo & Er); try done;
    [apply lookup_insert_eq|apply Ha|..]; rewrite ?owned_one, ?bucket_ptrs_eq; cbn [b_field_dsa b_value_dsa b'].
  - set_solver.
  - intros q [->|Hq]%elem_of_cons; [set_solver|]. right. unfold h'.
    rewrite lookup_insert_ne by set_solver. by rewrite lookup_hfree, decide_True.
  - intros q [->|Hq]%elem_of_cons; [set_solver|]. right. by apply (vn_fresh _ _ _ _ Hcase).
  - intros q ? ? ?. apply Hsame; set_solver.
  - split; [done|]. split; [|done].
    rewrite Em, Eo. cbn [app]. by rewrite !contents_cons, Hf', Hv', Ek, insert_insert_eq.
Qed.

Lemma overwrite_spec h p t i b value :
  hash_at h p t -> t_buckets t !! i = Some b -> b_state b = PG_REDIS_SHB_OCCUPIED ->
  blen value <= UINT16_MAX ->
  written h p t (field_of h b) value false (hash_set_overwrite p t (Z.of_nat i) b value (Some h)).
Proof.
  intros Ha Hi Hs Hv. unfold hash_set_overwrite. rewrite bind_unfold.
  destruct (alloc_value_cases value h) as (np & h1 & E & Hcase). rewrite E.
  destruct ((0 <? blen value) && (np =? InvalidDsaPointer)).
  { exists h1. split; [done|]. split; [done|]. done. }
  rewrite bind_unfold. cbn [modify]. rewrite pfree_hfree, bind_unfold. cbn [modify mret M_ret fst snd].
  rewrite u16_len, Hs by done.
  exists (<[p := CTable (set_bucket (Z.of_nat i) {| b_state := PG_REDIS_SHB_OCCUPIED; b_field_len := b_field_len b;
    b_value_len := blen value; b_field_dsa := b_field_dsa b; b_value_dsa := np |} (t_occupied t) (t_tombstones t) t)]>
    (hfree (b_value_dsa b) h1)).
  split; [done|]. split; [done|]. eexists. by apply overwrite_commit.
Qed.

(** The table with a free bucket [i] taken by a field and a value in fresh chunks. *)
Lemma insert_commit h h1 p t i b field value fp np :
  hash_at h p t -> t_buckets t !! i = Some b -> b_state b <> PG_REDIS_SHB_OCCUPIED ->
  field ∉ field_of h <$> live (t_buckets t) ->
  reach (start_of (t_bucket_count t)) (slots h (t_buckets t)) field i ->
  (t_occupied t + t_tombstones t + 1) * GROW_DEN <= t_bucket_count t * GROW_NUM ->
  blen field <= PG_REDIS_MAX_FIELD_SIZE -> blen value <= UINT16_MAX ->
  fp <> InvalidDsaPointer -> h !! fp = None -> value_new (<[fp := CBytes field]> h) h1 value np ->
  let b' := {| b_state := PG_REDIS_SHB_OCCUPIED; b_field_len := blen field; b_value_len := blen value;
               b_field_dsa := fp; b_value_dsa := np |} in
  let t' := set_bucket (Z.of_nat i) b' (t_occupied t + 1) (t_tombstones t - Z.of_nat (tomb_count b)) t in
  let h' := <[p := CTable t']> h1 in
  hash_at h' p t' /\ table_map h' t' = <[field := value]> (table_map h t) /\
  rest (foot p t') h' = rest (foot p t) h.
Proof.
  intros Ha Hi Hs Hk Hreach Hroom Hfl Hv Hfp Hff Hcase b' t' h'. set (h0 := <[fp := CBytes field]> h) in *.
  set (L := live (t_buckets t)) in *.
  pose proof (bo_live _ _ _ (to_buckets _ _ (ha_ok _ _ _ Ha))) as Hlive.
  pose proof (bo_owned _ _ _ (to_buckets _ _ (ha_ok _ _ _ Ha))) as Hnd.
  pose proof (ha_own _ _ _ Ha) as Hpo. fold L in Hlive, Hnd, Hpo.
  assert (Hnew : forall q, is_Some (h !! q) -> q ∉ vptrs np /\ q <> fp).
  { intros q [c Hc]. split; [|congruence]. intros Hq. apply (vn_fresh _ _ _ _ Hcase) in Hq.
    unfold h0 in Hq. apply lookup_insert_None in Hq as [? _]. congruence. }
  assert (Hfn : fp ∉ vptrs np).
  { intros Hq. apply (vn_fresh _ _ _ _ Hcase) in Hq. unfold h0 in Hq. by rewrite lookup_insert_eq in Hq. }
  assert (Hp : p ∉ vptrs np /\ p <> fp) by (apply Hnew; by rewrite (ha_lookup _ _ _ Ha)).
  assert (Hown : forall q, q ∈ owned L -> q ∉ vptrs np /\ q <> fp /\ q <> p).
  { intros q Hq. pose proof (owned_in h _ _ Hlive Hq) as [_ Hc]. apply Hnew in Hc as [? ?].
    split; [done|]. split; [done|]. by intros ->. }
  assert (Hsame : forall q, q <> p -> q <> fp -> q ∉ vptrs np -> h' !! q = h !! q).
  { intros q ? ? ?. unfold h'. rewrite lookup_insert_ne by done.
    rewrite (vn_same _ _ _ _ Hcase) by done. unfold h0. by rewrite lookup_insert_ne. }
  assert (Hbok : bucket_ok h' b' /\ field_of h' b' = field /\ value_of h' b' = value).
  { apply bucket_ok_make; cbn [b_field_dsa b' b_field_len b_value_len b_value_dsa]; try done.
    - apply shared_bytes_Some. split; [done|]. unfold h'. rewrite lookup_insert_ne by apply Hp.
      rewrite (vn_same _ _ _ _ Hcase) by done. apply lookup_insert_eq.
    - apply (value_new_kept _ _ _ _ _ Hcase). intros q Hq.
      apply lookup_insert_ne. intros ->. by apply (proj1 Hp). }
  destruct Hbok as (Hbok & Hf' & Hv').
  assert (HkeepL : forall q, q ∈ owned L -> h' !! q = h !! q).
  { intros q Hq%Hown. apply Hsame; naive_solver. }
  rewrite <- Hf' in Hreach, Hk.
  destruct (place_ok h h' t i b b' (ha_ok _ _ _ Ha) Hi Hs Hreach Hk eq_refl Hbok HkeepL) as [Hok' Hl'].
  { rewrite bucket_ptrs_eq. cbn [app b_field_dsa b_value_dsa b']. apply NoDup_cons. split.
    - rewrite elem_of_app. intros [Hq|Hq]; [done|]. by apply Hown in Hq as (_ & ? & _).
    - apply NoDup_app. split; [apply vptrs_nodup|]. split; [|done].
      intros q Hq Hq'%Hown. naive_solver. }
  fold t' L in Hok', Hl'.
  destruct (committed h h' p t t' [] [b'] L) as (Ha' & Em & Ek & Eo & Er); try done;
    [apply lookup_insert_eq| |rewrite ?owned_one, ?bucket_ptrs_eq; cbn [b_field_dsa b_value_dsa b']..].
  - unfold load_ok, t', set_bucket. cbn [t_occupied t_tombstones t_bucket_count].
    unfold GROW_DEN, GROW_NUM in *. lia.
  - set_solver.
  - by intros q ?%elem_of_nil.
  - intros q [->|Hq]%elem_of_cons; [by right|]. right. apply (vn_fresh _ _ _ _ Hcase) in Hq.
    unfold h0 in Hq. by apply lookup_insert_None in Hq as [? _].
  - intros q ? _ ?. apply Hsame; set_solver.
  - split; [done|]. split; [|done].
    rewrite Em, Eo. cbn [app]. by rewrite contents_cons, Hf', Hv', Ek.
Qed.

Lemma insert_spec h p t i b field value :
  hash_at h p t -> t_buckets t !! i = Some b -> b_state b <> PG_REDIS_SHB_OCCUPIED ->
  field ∉ field_of h <$> live (t_buckets t) ->
  reach (start_of (t_bucket_count t)) (slots h (t_buckets t)) field i ->
  (t_occupied t + t_tombstones t + 1) * GROW_DEN <= t_bucket_count t * GROW_NUM ->
  blen field <= PG_REDIS_MAX_FIELD_SIZE -> blen value <= UINT16_MAX ->
  written h p t field value true (hash_set_insert p t (Z.of_nat i) b field value (Some h)).
Proof.
  intros Ha Hi Hs Hk Hreach Hroom Hfl Hv. unfold hash_set_insert. rewrite bind_unfold.
  destruct (palloc_cases (blen field) h) as [E|(fp & E & Hfp & Hff)]; rewrite E.
  { exists h. done. }
  rewrite (proj2 (Z.eqb_neq _ _) Hfp), bind_unfold. cbn [modify].
  change (shared_write fp field (Some ?x)) with (Some (<[fp := CBytes field]> x)).
  rewrite insert_insert_eq, bind_unfold. set (h0 := <[fp := CBytes field]> h).
  destruct (alloc_value_cases value h0) as (np & h1 & E1 & Hcase). rewrite E1.
  destruct ((0 <? blen value) && (np =? InvalidDsaPointer)).
  { exists h. split; [|done]. subst h1. rewrite bind_unfold. cbn [modify ereport snd].
    rewrite pfree_hfree. unfold hfree, h0. rewrite (proj2 (Z.eqb_neq _ _) Hfp).
    by rewrite delete_insert_id. }
  rewrite bind_unfold. cbn [modify mret M_ret fst snd].
  rewrite !u16_len by (unfold PG_REDIS_MAX_FIELD_SIZE, UINT16_MAX in *; lia).
  assert (Htc : match b_state b with PG_REDIS_SHB_TOMBSTONE => t_tombstones t - 1 | _ => t_tombstones t end
                = t_tombstones t - Z.of_nat (tomb_count b)).
  { unfold tomb_count. destruct (b_state b); cbn; lia. }
  rewrite Htc. unfold written. cbn [fst snd dsa_store fmap option_fmap option_map]. eexists. split; [done|]. split; [done|].
  eexists. by apply insert_commit.
Qed.

(** The outcome of an operation that takes the represented map [m] to [m'] on
    success; on an error the map is as it was. *)
Definition hash_post {A : Type} (h : Heap) (m : gmap bytes bytes) (F : gset dsa_pointer)
    (a : A) (m' : gmap bytes bytes) (err : errcode -> Prop) (x : outcome A * (Dsa * dsa_pointer)) : Prop :=
  exists h' p' F', x.2 = (Some h', p') /\ rest F' h' = rest F h /\
    match x.1 with
    | Ret r => r = a /\ hash_repr h' p' m' F'
    | Raise e => err e /\ hash_repr h' p' m F'
    end.

Lemma shared_set_spec h p m F field value :
  hash_repr h p m F -> blen field <= PG_REDIS_MAX_FIELD_SIZE ->
  hash_post h m F (bool_decide (m !! field = None)) (<[field := value]> m)
    (fun e => e = if UINT16_MAX <? blen value then ERRCODE_PROGRAM_LIMIT_EXCEEDED else ERRCODE_OUT_OF_MEMORY)
    (pg_redis_shared_hash_set field value (Some h, p)).
Proof.
  intros Hr Hf. unfold pg_redis_shared_hash_set.
  destruct (Z.ltb_spec UINT16_MAX (blen value)) as [Hv|Hv]; [by exists h, p, F|].
  rewrite bind_unfold.
  destruct (lazy_alloc_spec h p m F Hr) as (h1 & p1 & F1 & E1 & R1 & S1).
  destruct (hash_set_lazy_alloc (Some h, p)) as [[[]|e] s1]; cbn [fst snd] in *; subst s1.
  2:{ destruct S1 as [-> S1]. exists h1, p1, F1. done. }
  destruct S1 as (t1 & Ha1 & -> & -> & _). rewrite bind_unfold.
  destruct (grow_spec h1 p1 t1 Ha1) as (h2 & p2 & F2 & E2 & R2 & S2).
  destruct (hash_set_grow (Some h1, p1)) as [[[]|e] s2]; cbn [fst snd] in *; subst s2.
  2:{ destruct S2 as [-> S2]. exists h2, p2, F2. split; [done|]. split; [congruence|done]. }
  destruct S2 as (t & Ha & Em & -> & Hroom). rewrite bind_unfold. cbn [gets snd].
  rewrite bind_unfold. unfold inout_table. cbn [fst snd].
  destruct (repr_table h2 p2 t Ha) as (-> & _ & _). cbn [deref mret M_ret].
  rewrite bind_unfold. unfold on_dsa at 1. cbn [fst snd].
  destruct (find_at h2 p2 t field Ha) as (i & wf & b & -> & Hi & Hspec).
  rewrite bind_unfold, Nat2Z.id, Hi. cbn [deref mret M_ret].
  assert (Hw : written h2 p2 t field value (bool_decide (table_map h1 t1 !! field = None))
    ((if wf then hash_set_overwrite p2 t (Z.of_nat i) b value
      else hash_set_insert p2 t (Z.of_nat i) b field value) (Some h2))).
  { rewrite Em. destruct wf.
    - destruct Hspec as [Hb <-]. unfold table_map.
      rewrite contents_Some, bool_decide_false by (done || apply fields_nodup, Ha).
      apply overwrite_spec; try done. by apply elem_of_live in Hb as [_ ?].
    - destruct Hspec as (Hs & Hk & Hreach). unfold table_map.
      rewrite (proj2 (contents_None _ _ _) Hk), bool_decide_true by done. by apply insert_spec. }
  unfold on_dsa. cbn [fst snd]. clear Hspec.
  match type of Hw with written _ _ _ _ _ _ ?x => destruct x as [r a3] end.
  unfold written in Hw. cbn [fst snd] in Hw. destruct Hw as (h3 & -> & Hw).
  destruct r as [r|e].
  - destruct Hw as (-> & t3 & Ha3 & Em3 & R3). exists h3, p2, (foot p2 t3).
    split; [done|]. split; [congruence|]. split; [done|]. right. exists t3.
    by rewrite Em, Em3.
  - destruct Hw as [-> ->]. exists h2, p2, (foot p2 t). split; [done|]. split; [congruence|].
    split; [done|]. right. exists t. done.
Qed.

(** ** HDEL *)

Lemma tombstone_spec h p t i b :
  hash_at h p t -> t_buckets t !! i = Some b -> b_state b = PG_REDIS_SHB_OCCUPIED ->
  let t' := set_bucket (Z.of_nat i) {| b_state := PG_REDIS_SHB_TOMBSTONE; b_field_len := 0; b_value_len := 0;
              b_field_dsa := InvalidDsaPointer; b_value_dsa := InvalidDsaPointer |}
              (t_occupied t - 1) (t_tombstones t + 1) t in
  let h' := <[p := CTable t']> (hfree (b_value_dsa b) (hfree (b_field_dsa b) h)) in
  hash_at h' p t' /\ table_map h' t' = delete (field_of h b) (table_map h t) /\
  rest (foot p t') h' = rest (foot p t) h.
Proof.
  intros Ha Hi Hs. set (b' := {| b_state := PG_REDIS_SHB_TOMBSTONE |}). cbn zeta.
  set (t' := set_bucket _ b' _ _ t). set (h' := <[p := CTable t']> _).
  destruct (live_update (t_buckets t) i b b' Hi) as [El _]. rewrite (live_occ b Hs) in El.
  set (L := live (delete i (t_buckets t))) in *.
  pose proof (bo_owned _ _ _ (to_buckets _ _ (ha_ok _ _ _ Ha))) as Hnd.
  pose proof (fields_nodup _ _ (ha_ok _ _ _ Ha)) as Hfn.
  pose proof (ha_own _ _ _ Ha) as Hpo. rewrite El in Hnd, Hpo, Hfn. change ([b] ++ L) with (b :: L) in *.
  rewrite owned_cons, bucket_ptrs_eq in *. apply NoDup_app in Hnd as (_ & Hdis & _).
  assert (Hgone : forall q, q <> p -> q ∉ b_field_dsa b :: vptrs (b_value_dsa b) -> h' !! q = h !! q).
  { intros q Hq1 Hq2. unfold h'. rewrite lookup_insert_ne, !lookup_hfree, !decide_False; [done|..];
      [rewrite elem_of_vptrs|..]; set_solver. }
  assert (HkeepL : forall q, q ∈ owned L -> h' !! q = h !! q).
  { intros q Hq. apply Hgone; [set_solver|]. intros Hq'. by apply (Hdis q). }
  destruct (tombstone_ok h h' t i b b' (ha_ok _ _ _ Ha) Hi Hs eq_refl HkeepL) as [Hok' Hl'].
  fold t' L in Hok', Hl'.
  destruct (committed h h' p t t' [b] [] L) as (Ha' & Em & Ek & Eo & Er); try done;
    rewrite ?owned_one, ?bucket_ptrs_eq.
  - apply lookup_insert_eq.
  - pose proof (ha_load _ _ _ Ha). unfold load_ok in *. cbn. lia.
  - set_solver.
  - intros q Hq. right. unfold h'. rewrite lookup_insert_ne by set_solver. rewrite !lookup_hfree.
    apply elem_of_cons in Hq as [->|Hq]; [|by rewrite decide_True].
    case_decide; [done|]. rewrite decide_True; [done|]. apply elem_of_vptrs. split; [done|].
    eapply foot_in; [done|]. unfold foot. rewrite El, owned_cons, bucket_ptrs_eq. set_solver.
  - by intros q ?%elem_of_nil.
  - intros q ? ? _. by apply Hgone.
  - split; [done|]. split; [|done]. rewrite Em, Eo. cbn [app]. rewrite Ek, contents_cons, delete_insert_id; [done|].
    apply contents_None. cbn in Hfn. by apply NoDup_cons in Hfn as [? _].
Qed.

Lemma shared_del_spec h p m F field :
  hash_repr h p m F ->
  hash_post h m F (bool_decide (is_Some (m !! field))) (delete field m) (fun _ => False)
    (pg_redis_shared_hash_del field (Some h, p)).
Proof.
  intros Hr. unfold pg_redis_shared_hash_del. rewrite bind_unfold. cbn [gets snd].
  rewrite bind_unfold. unfold on_dsa at 1. cbn [fst snd].
  destruct (read_table_spec h p m F Hr) as [(-> & ->)|(t & -> & Ha & -> & ->)].
  { exists h, p, F. by rewrite lookup_empty, delete_empty. }
  rewrite bind_unfold. unfold on_dsa at 1. cbn [fst snd].
  destruct (find_at h p t field Ha) as (i & wf & b & -> & Hi & Hspec). destruct wf; cbn [negb].
  2:{ destruct Hspec as (_ & Hk & _). exists h, p, (foot p t). cbn [fst snd mret M_ret].
      unfold table_map in *. rewrite (proj2 (contents_None _ _ _) Hk). split; [done|]. split; [done|].
      split; [done|]. by rewrite delete_id by by apply contents_None. }
  destruct Hspec as [Hb <-]. pose proof Hb as [_ Hs]%elem_of_live.
  rewrite bind_unfold, Nat2Z.id, Hi. cbn [deref mret M_ret].
  rewrite !on_dsa_modify, !pfree_hfree. cbn [dsa_store fmap option_fmap option_map].
  destruct (tombstone_spec h p t i b Ha Hi Hs) as (Ha' & Em & Er).
  set (t' := set_bucket (Z.of_nat i) _ _ _ t) in *. set (h' := <[p := CTable t']> _) in *.
  assert (Hm : bool_decide (is_Some (table_map h t !! field_of h b)) = true).
  { unfold table_map. rewrite contents_Some by (done || apply fields_nodup, Ha). done. }
  unfold hash_post. rewrite Hm, <- Em, <- Er. unfold should_shrink.
  destruct (PG_REDIS_SHARED_HASH_INIT_BUCKETS <? t_bucket_count t) eqn:Hbig; cbn [andb].
  2:{ exists h', p, (foot p t'). split; [done|]. split; [done|]. split; [done|]. right. eauto. }
  destruct ((t_occupied t - 1) * SHRINK_DEN <? t_bucket_count t * SHRINK_NUM) eqn:Hsmall.
  2:{ exists h', p, (foot p t'). split; [done|]. split; [done|]. split; [done|]. right. eauto. }
  apply Z.ltb_lt in Hbig, Hsmall. unfold SHRINK_DEN, SHRINK_NUM in Hsmall.
  destruct (good_size_half _ (to_size _ _ (ha_ok _ _ _ Ha)) Hbig) as [Hhalf Hdiv].
  rewrite bind_unfold, bind_unfold. unfold on_dsa. cbn [fst snd].
  destruct (rehash_at h' p t' (t_bucket_count t / 2) Ha' Hhalf) as
    [E|(p2 & t2 & h2 & E & Ha2 & _ & _ & _ & Em2 & Er2)]; rewrite ?E.
  { unfold GROW_DEN, GROW_NUM. cbn [t' set_bucket t_occupied]. pose proof (good_size_pos _ Hhalf). lia. }
  - exists h', p, (foot p t'). split; [done|]. split; [done|]. split; [done|]. right. eauto.
  - rewrite (proj2 (Z.eqb_neq _ _) (ha_valid _ _ _ Ha2)). cbn [negb].
    exists h2, p2, (foot p2 t2). split; [done|]. split; [done|]. split; [done|]. right. eauto.
Qed.
End Ops.
