(* ===== verification/SharedHashRefine.v ===== *)
(** * Runs of shared-hash operations

    Freeing, materialising, and sequences of operations of src/shared_hash.c
    against the finite map. *)
From S2P Require Import Prelude Types HashValue LinearProbing SharedMem SharedHash SharedHashSpec SharedHashOps.

Section Refine.
Context `{DsaAllocator} `{HashBytes} `{!DsaLaws}.

(** ** Freeing *)

Lemma free_buckets_spec bs h :
  Forall (bucket_ok h) (live bs) -> NoDup (owned (live bs)) ->
  exists h', foldl (fun area b => free_bucket b area) (Some h) bs = Some h' /\
    forall q, h' !! q = if decide (q ∈ owned (live bs)) then None else h !! q.
Proof.
  revert h. induction bs as [|b bs IH]; intros h Hok Hnd; [by exists h|]. cbn [foldl].
  rewrite live_cons in *. destruct (decide (b_state b = PG_REDIS_SHB_OCCUPIED)) as [Hs|Hs].
  - rewrite (live_occ b Hs) in *. cbn [app] in *. rewrite owned_cons in *.
    apply Forall_cons in Hok as [Hb Hok]. apply NoDup_app in Hnd as (Hnb & Hdis & Hnd).
    unfold free_bucket at 2. rewrite Hs, !pfree_hfree.
    set (h1 := hfree _ (hfree _ h)).
    assert (Hh1 : forall q, h1 !! q = if decide (q ∈ bucket_ptrs b) then None else h !! q).
    { intros q. unfold h1. rewrite !lookup_hfree, bucket_ptrs_eq.
      pose proof (bk_field _ _ Hb) as [Hf _]%shared_bytes_Some.
      pose proof (elem_of_vptrs q (b_field_dsa b)) as Hv.
      repeat case_decide; try done; set_solver. }
    destruct (IH h1) as (h' & E & Hl); [|done|].
    + rewrite Forall_forall in *. intros c Hc. eapply (bucket_ok_agree h h1 (live bs)); [|done|by apply Hok].
      intros q Hq. rewrite Hh1, decide_False; [done|]. intros Hq'. by apply (Hdis q).
    + exists h'. split; [done|]. intros q. rewrite Hl, Hh1. repeat case_decide; set_solver.
  - rewrite (live_free b Hs) in *. cbn [app] in *.
    assert (free_bucket b (Some h) = Some h) as -> by (unfold free_bucket; by destruct (b_state b)).
    by apply IH.
Qed.

(** Freeing gives back every chunk the hash owns and touches no other. *)
Lemma shared_free_spec h p m F :
  hash_repr h p m F -> pg_redis_shared_hash_free p (Some h) = (Ret tt, Some (rest F h)).
Proof.
  intros [(-> & -> & ->)|(t & Ha & -> & ->)]; [by rewrite rest_empty|].
  unfold pg_redis_shared_hash_free. destruct (repr_table h p t Ha) as (Et & En & Ep).
  rewrite Ep, bind_unfold. cbn [gets id]. rewrite En, bind_unfold, Et. cbn [deref mret M_ret].
  destruct (to_buckets _ _ (ha_ok _ _ _ Ha)) as [_ Hl Ho].
  destruct (free_buckets_spec (t_buckets t) h Hl Ho) as (h' & E & Hh').
  rewrite bind_unfold. cbn [modify]. rewrite E. unfold modify. rewrite pfree_hfree. do 2 f_equal.
  apply map_eq. intros q. rewrite lookup_hfree, Hh', lookup_rest. unfold foot.
  pose proof (elem_of_vptrs q p). pose proof (ha_valid _ _ _ Ha).
  repeat case_decide; set_solver.
Qed.

(** ** Materialising *)

Definition dirty_field (v : bytes) : PgRedisHashField := {| f_value := v; f_dirty := true |}.

Definition scratch_of (sh : PgRedisHash) (m : gmap bytes bytes) : Prop :=
  hash_wf sh /\ h_fields sh = dirty_field <$> m /\ h_tombstones sh = [].

Lemma materialize_bucket_spec h b sh m :
  b_state b = PG_REDIS_SHB_OCCUPIED -> bucket_ok h b -> scratch_of sh m ->
  exists sh', materialize_bucket (Some h) b sh = Ret sh' /\ scratch_of sh' (<[field_of h b := value_of h b]> m).
Proof.
  intros Hs Hb (Hw & Hf & Ht). unfold materialize_bucket. rewrite Hs, (bk_field_len _ _ Hb).
  destruct (Z.ltb_spec PG_REDIS_MAX_FIELD_SIZE (blen (field_of h b))) as [Hlt|Hle].
  { pose proof (bk_field_max _ _ Hb). lia. }
  pose proof (bk_field _ _ Hb) as Hbf. rewrite Hbf.
  assert (shared_null (Some h) (b_field_dsa b) = false) as ->.
  { unfold shared_null, shared_bytes in *. by destruct (pg_redis_shared_addr _ _). }
  rewrite copy_value_spec by done. rewrite take_ge by (unfold blen; lia).
  destruct (hash_set_spec sh (field_of h b) (value_of h b) Hw Hle) as (sh' & -> & Hw' & _ & Hf' & Ht').
  exists sh'. split; [done|]. split; [done|]. split; [|congruence]. by rewrite Hf', Hf, fmap_insert.
Qed.

Lemma materialize_fold_spec h bs sh m :
  Forall (bucket_ok h) (live bs) -> NoDup (field_of h <$> live bs) -> scratch_of sh m ->
  exists sh', foldl (fun (r : outcome PgRedisHash) b =>
                match r with Raise e => Raise e | Ret h0 => materialize_bucket (Some h) b h0 end) (Ret sh) bs = Ret sh' /\
    scratch_of sh' (contents h (live bs) ∪ m).
Proof.
  revert sh m. induction bs as [|b bs IH]; intros sh m Hok Hnd Hsh.
  { exists sh. split; [done|]. change (contents h (live [])) with (∅ : gmap bytes bytes).
    by rewrite map_empty_union. }
  cbn [foldl]. rewrite live_cons in *. destruct (decide (b_state b = PG_REDIS_SHB_OCCUPIED)) as [Hs|Hs].
  - rewrite (live_occ b Hs) in *. cbn [app] in *. apply Forall_cons in Hok as [Hb Hok].
    rewrite fmap_cons in Hnd. apply NoDup_cons in Hnd as [Hk Hnd].
    destruct (materialize_bucket_spec h b sh m Hs Hb Hsh) as (sh1 & -> & Hsh1).
    destruct (IH sh1 _ Hok Hnd Hsh1) as (sh' & E & Hsh'). exists sh'. split; [done|].
    rewrite contents_cons, <- insert_union_l, insert_union_r; [done|].
    by apply contents_None.
  - rewrite (live_free b Hs) in *. cbn [app] in *.
    assert (materialize_bucket (Some h) b sh = Ret sh) as -> by (unfold materialize_bucket; by destruct (b_state b)).
    by apply IH.
Qed.

(** The scratch copy of a hash: its fields, every one marked dirty; an empty
    hash gives NULL. *)
Lemma shared_materialize_spec h p m F :
  hash_repr h p m F ->
  exists osh, pg_redis_shared_hash_materialize p (Some h) = Ret osh /\
    match osh with Some sh => scratch_of sh m | None => m = ∅ end.
Proof.
  intros Hr. unfold pg_redis_shared_hash_materialize.
  destruct (read_table_spec h p m F Hr) as [(-> & ->)|(t & -> & Ha & -> & _)]; [by eexists|].
  destruct (materialize_fold_spec h (t_buckets t) pg_redis_hash_create_in ∅) as (sh & -> & Hsh).
  - apply (to_buckets _ _ (ha_ok _ _ _ Ha)).
  - apply fields_nodup, Ha.
  - split; [apply hash_create_wf|]. split; [|done]. by rewrite fmap_empty.
  - exists (Some sh). split; [done|]. by rewrite map_union_empty in Hsh.
Qed.
End Refine.

(** ** Sequences of operations *)

Module SharedHashRun.
Inductive op := HSET (f v : bytes) | HGET (f : bytes) | HDEL (f : bytes) | HEXISTS (f : bytes) | HLEN.
Inductive reply := RBool (b : bool) | RVal (v : option bytes) | RInt (n : Z) | RErr (e : errcode).

Section Run.
Context `{DsaAllocator} `{HashBytes}.

Definition reply_of {A} (f : A -> reply) (x : outcome A) : reply :=
  match x with Ret a => f a | Raise e => RErr e end.

Definition step (o : op) (s : Dsa * dsa_pointer) : reply * (Dsa * dsa_pointer) :=
  match o with
  | HSET f v => let '(r, s') := pg_redis_shared_hash_set f v s in (reply_of RBool r, s')
  | HGET f => (reply_of RVal (pg_redis_shared_hash_get s.2 f s.1), s)
  | HDEL f => let '(r, s') := pg_redis_shared_hash_del f s in (reply_of RBool r, s')
  | HEXISTS f => (reply_of RBool (pg_redis_shared_hash_exists s.2 f s.1), s)
  | HLEN => (reply_of RInt (pg_redis_shared_hash_count s.2 s.1), s)
  end.

Fixpoint run (os : list op) (s : Dsa * dsa_pointer) : list reply * (Dsa * dsa_pointer) :=
  match os with
  | [] => ([], s)
  | o :: os' => let '(r, s1) := step o s in let '(rs, s2) := run os' s1 in (r :: rs, s2)
  end.
End Run.

(** The specification: a finite map, except that a write may be refused for
    lack of memory. *)
Definition spec_step (o : op) (m : gmap bytes bytes) : reply * gmap bytes bytes :=
  match o with
  | HSET f v => if UINT16_MAX <? blen v then (RErr ERRCODE_PROGRAM_LIMIT_EXCEEDED, m)
                else (RBool (bool_decide (m !! f = None)), <[f := v]> m)
  | HGET f => (RVal (m !! f), m)
  | HDEL f => (RBool (bool_decide (is_Some (m !! f))), delete f m)
  | HEXISTS f => (RBool (bool_decide (is_Some (m !! f))), m)
  | HLEN => (RInt (Z.of_nat (size m)), m)
  end.

Inductive spec_run : list op -> gmap bytes bytes -> list reply -> gmap bytes bytes -> Prop :=
| spec_done m : spec_run [] m [] m
| spec_next o os m r m1 rs m2 :
    spec_step o m = (r, m1) -> spec_run os m1 rs m2 -> spec_run (o :: os) m (r :: rs) m2
| spec_oom f v os m rs m2 :
    spec_run os m rs m2 -> spec_run (HSET f v :: os) m (RErr ERRCODE_OUT_OF_MEMORY :: rs) m2.

Definition op_ok (o : op) : Prop :=
  match o with HSET f _ => blen f <= PG_REDIS_MAX_FIELD_SIZE | _ => True end.
End SharedHashRun.

Section Claims.
Context `{DsaAllocator} `{HashBytes} `{!DsaLaws}.
Import SharedHashRun.

Lemma step_refines o h p m F :
  hash_repr h p m F -> op_ok o ->
  exists r h' p' m' F', step o (Some h, p) = (r, (Some h', p')) /\ hash_repr h' p' m' F' /\
    rest F' h' = rest F h /\
    (spec_step o m = (r, m') \/ exists f v, o = HSET f v /\ r = RErr ERRCODE_OUT_OF_MEMORY /\ m' = m).
Proof.
  intros Hr Hok. destruct o as [f v|f|f|f|]; cbn [step op_ok fst snd spec_step] in *.
  - destruct (shared_set_spec h p m F f v Hr Hok) as (h' & p' & F' & E & R & Hx).
    destruct (pg_redis_shared_hash_set f v (Some h, p)) as [[b|e] s] eqn:Es; cbn [fst snd reply_of] in *; subst s.
    + destruct Hx as [-> Hx]. do 5 eexists. split; [done|]. split; [done|]. split; [done|]. left.
      unfold pg_redis_shared_hash_set in Es. by destruct (UINT16_MAX <? blen v).
    + destruct Hx as [-> Hx]. exists (RErr (if UINT16_MAX <? blen v then ERRCODE_PROGRAM_LIMIT_EXCEEDED else ERRCODE_OUT_OF_MEMORY)).
      do 4 eexists. split; [done|]. split; [done|]. split; [done|].
      destruct (UINT16_MAX <? blen v); [by left|by right; eauto].
  - rewrite (shared_get_spec h p m F f Hr). do 5 eexists. split; [done|]. split; [done|]. split; [done|]. by left.
  - destruct (shared_del_spec h p m F f Hr) as (h' & p' & F' & E & R & Hx).
    destruct (pg_redis_shared_hash_del f (Some h, p)) as [[b|e] s]; cbn [fst snd reply_of] in *; subst s; [|by destruct Hx].
    destruct Hx as [-> Hx]. do 5 eexists. split; [done|]. split; [done|]. split; [done|]. by left.
  - rewrite (shared_exists_spec h p m F f Hr). do 5 eexists. split; [done|]. split; [done|]. split; [done|]. by left.
  - rewrite (shared_count_spec h p m F Hr). do 5 eexists. split; [done|]. split; [done|]. split; [done|]. by left.
Qed.

Lemma run_refines os h p m F :
  hash_repr h p m F -> Forall op_ok os ->
  exists rs h' p' m' F', run os (Some h, p) = (rs, (Some h', p')) /\ hash_repr h' p' m' F' /\
    rest F' h' = rest F h /\ spec_run os m rs m'.
Proof.
  revert h p m F. induction os as [|o os IH]; intros h p m F Hr Hok.
  { do 5 eexists. split; [done|]. split; [done|]. split; [done|]. constructor. }
  apply Forall_cons in Hok as [Ho Hok]. cbn [run].
  destruct (step_refines o h p m F Hr Ho) as (r & h1 & p1 & m1 & F1 & -> & Hr1 & R1 & Hs).
  destruct (IH h1 p1 m1 F1 Hr1 Hok) as (rs & h' & p' & m' & F' & -> & Hr' & R' & Hrun).
  do 5 eexists. split; [done|]. split; [done|]. split; [congruence|].
  destruct Hs as [Hs|(f & v & -> & -> & ->)]; [by eapply spec_next|by apply spec_oom].
Qed.

(** C7: A shared hash is a finite map and leaks nothing.  From no table at all,
    in any heap and with any allocator and hash function, every sequence of
    HSET, HGET, HDEL, HEXISTS and HLEN gives the replies of the map, through
    lazy allocation, growth, tombstone reuse and shrinking; the only other reply
    is out-of-memory to an HSET, which leaves the map as it was.  The table
    never reports saturation and never follows a dead pointer, chunks that the
    hash does not own stay as they were, and freeing the hash at the end
    restores the heap exactly. *)
Theorem shared_hash_refines_map (os : list op) (h : Heap) :
  Forall op_ok os ->
  exists rs h' p m F,
    run os (Some h, InvalidDsaPointer) = (rs, (Some h', p)) /\
    spec_run os ∅ rs m /\ hash_repr h' p m F /\
    pg_redis_shared_hash_free p (Some h') = (Ret tt, Some h).
Proof.
  intros Hok.
  destruct (run_refines os h InvalidDsaPointer ∅ ∅) as (rs & h' & p & m & F & E & Hr & R & Hs);
    [by left|done|].
  exists rs, h', p, m, F. split; [done|]. split; [done|]. split; [done|].
  by rewrite (shared_free_spec h' p m F Hr), R, rest_empty.
Qed.
End Claims.

(** Thirty fields of increasing length, some overwritten and most deleted:
    the table grows to 64 buckets and shrinks again. *)
Definition demo_shared_ops : list SharedHashRun.op :=
  let f n := replicate n Byte.x61 in
  map (fun n => SharedHashRun.HSET (f n) (f (n - 1)%nat)) (seq 1 30) ++
  [SharedHashRun.HSET (f 7%nat) (bs "new"); SharedHashRun.HGET (f 7%nat)] ++
  map (fun n => SharedHashRun.HDEL (f n)) (seq 2 28) ++ [SharedHashRun.HLEN].

Lemma shared_hash_refines_map_witness :
  exists rs h' p m F,
    @SharedHashRun.run (bump_allocator 100000) (fun b => blen b) demo_shared_ops (Some ∅, InvalidDsaPointer) = (rs, (Some h', p)) /\
    SharedHashRun.spec_run demo_shared_ops ∅ rs m /\ @hash_repr (fun b => blen b) h' p m F /\
    pg_redis_shared_hash_free p (Some h') = (Ret tt, Some ∅).
Proof.
  apply (@shared_hash_refines_map (bump_allocator 100000) (fun b => blen b) (bump_laws 100000)
    demo_shared_ops ∅).
  repeat (constructor; [vm_compute; done|]). constructor.
Defined.
