(* ===== verification/SharedList.v ===== *)
(** * Lists in shared memory (src/shared_list.c)

    The doubly linked list of a LIST entry: nodes and values in chunks of
    their own, the ends, the length and the ordinal bounds in the meta record
    that the entry holds.  The meta record is a component of the state.
    [value_len] is a uint16 and is stored without a check. *)
From S2P Require Import Prelude Types ListValue SharedMem SharedHash.

(** [sizeof(PgRedisSharedListNode)] on LP64. *)
Definition sizeof_PgRedisSharedListNode : Z := 40.

Record PgRedisSharedListMeta := {
  lm_head : dsa_pointer;
  lm_tail : dsa_pointer;
  lm_length : Z;
  lm_min_ord : Z;
  lm_max_ord : Z;
  lm_ord_initialized : bool
}.

Definition empty_meta : PgRedisSharedListMeta :=
  {| lm_head := InvalidDsaPointer; lm_tail := InvalidDsaPointer; lm_length := 0;
     lm_min_ord := 0; lm_max_ord := -1; lm_ord_initialized := false |}.

(** [node->prev = p], [node->next = p] *)
Definition set_prev (p : dsa_pointer) (n : PgRedisSharedListNode) : PgRedisSharedListNode :=
  {| sn_prev := p; sn_next := sn_next n; sn_ord := sn_ord n; sn_value_len := sn_value_len n;
     sn_value_dsa := sn_value_dsa n |}.
Definition set_next (p : dsa_pointer) (n : PgRedisSharedListNode) : PgRedisSharedListNode :=
  {| sn_prev := sn_prev n; sn_next := p; sn_ord := sn_ord n; sn_value_len := sn_value_len n;
     sn_value_dsa := sn_value_dsa n |}.

Section SharedList.
Context `{DsaAllocator}.

(** The node at an address, dereferenced; and written back. *)
Definition load_node (p : dsa_pointer) : M Dsa PgRedisSharedListNode := fun area =>
  deref (shared_node area p) area.
Definition store_node (p : dsa_pointer) (n : PgRedisSharedListNode) : M Dsa unit :=
  modify (dsa_store p (CNode n)).

(** [alloc_value] leaves InvalidDsaPointer for an empty value as well, so the
    failure is told apart by the length. *)
Definition new_node (value : bytes) (ord : Z) : M Dsa dsa_pointer :=
  node_p ← pg_redis_shared_palloc sizeof_PgRedisSharedListNode;
  if node_p =? InvalidDsaPointer then mret InvalidDsaPointer
  else
    value_p ← alloc_value value;
    if (0 <? blen value) && (value_p =? InvalidDsaPointer) then
      modify (pg_redis_shared_pfree node_p) ;;
      mret InvalidDsaPointer
    else
      store_node node_p
        {| sn_prev := InvalidDsaPointer; sn_next := InvalidDsaPointer; sn_ord := ord;
           sn_value_len := u16 (blen value); sn_value_dsa := value_p |} ;;
      mret node_p.

Definition free_node (node_p : dsa_pointer) : M Dsa unit :=
  if node_p =? InvalidDsaPointer then mret tt
  else
    area ← gets id;
    if shared_null area node_p then mret tt
    else
      node ← load_node node_p;
      modify (pg_redis_shared_pfree (sn_value_dsa node)) ;;
      modify (pg_redis_shared_pfree node_p).

(** The loop over the chain.  Each round frees a live chunk, so the number of
    live chunks bounds the rounds. *)
Fixpoint free_chain (fuel : nat) (cur : dsa_pointer) : M Dsa unit :=
  if cur =? InvalidDsaPointer then mret tt
  else match fuel with
       | O => ereport SEGMENTATION_FAULT
       | S fuel' =>
           null ← gets (fun area => shared_null area cur);
           if null : bool then mret tt
           else
             node ← load_node cur;
             free_node cur ;;
             free_chain fuel' (sn_next node)
       end.

Definition chunk_count (area : Dsa) : nat := match area with Some h => size h | None => 0%nat end.

Definition pg_redis_shared_list_free : M (Dsa * PgRedisSharedListMeta) unit :=
  meta ← gets snd;
  on_dsa (fun area => free_chain (chunk_count area) (lm_head meta) area) ;;
  modify (fun s => (s.1, empty_meta)).

Definition set_meta (m : PgRedisSharedListMeta) : M (Dsa * PgRedisSharedListMeta) unit :=
  modify (fun s => (s.1, m)).

Definition pg_redis_shared_list_lpush (value : bytes) : M (Dsa * PgRedisSharedListMeta) Z :=
  meta ← gets snd;
  let ord := if negb (lm_ord_initialized meta) then 0 else lm_min_ord meta - 1 in
  node_p ← on_dsa (new_node value ord);
  if node_p =? InvalidDsaPointer then ereport ERRCODE_OUT_OF_MEMORY
  else
    node ← on_dsa (load_node node_p);
    on_dsa (store_node node_p (set_next (lm_head meta) node)) ;;
    tail ← (if negb (lm_head meta =? InvalidDsaPointer) then
              old_head ← on_dsa (load_node (lm_head meta));
              on_dsa (store_node (lm_head meta) (set_prev node_p old_head)) ;;
              mret (lm_tail meta)
            else mret node_p);
    set_meta {| lm_head := node_p; lm_tail := tail; lm_length := lm_length meta + 1;
                lm_min_ord := ord;
                lm_max_ord := if negb (lm_ord_initialized meta) then ord else lm_max_ord meta;
                lm_ord_initialized := true |} ;;
    mret (lm_length meta + 1).

Definition pg_redis_shared_list_rpush (value : bytes) : M (Dsa * PgRedisSharedListMeta) Z :=
  meta ← gets snd;
  let ord := if negb (lm_ord_initialized meta) then 0 else lm_max_ord meta + 1 in
  node_p ← on_dsa (new_node value ord);
  if node_p =? InvalidDsaPointer then ereport ERRCODE_OUT_OF_MEMORY
  else
    node ← on_dsa (load_node node_p);
    on_dsa (store_node node_p (set_prev (lm_tail meta) node)) ;;
    head ← (if negb (lm_tail meta =? InvalidDsaPointer) then
              old_tail ← on_dsa (load_node (lm_tail meta));
              on_dsa (store_node (lm_tail meta) (set_next node_p old_tail)) ;;
              mret (lm_head meta)
            else mret node_p);
    set_meta {| lm_head := head; lm_tail := node_p; lm_length := lm_length meta + 1;
                lm_min_ord := if negb (lm_ord_initialized meta) then ord else lm_min_ord meta;
                lm_max_ord := ord;
                lm_ord_initialized := true |} ;;
    mret (lm_length meta + 1).

Definition copy_value_out (node : PgRedisSharedListNode) (area : Dsa) : outcome bytes :=
  copy_value area (sn_value_dsa node) (sn_value_len node).

(** [Some (value, ord)], or [None] for [false]. *)
Definition pg_redis_shared_list_lpop : M (Dsa * PgRedisSharedListMeta) (option (bytes * Z)) :=
  meta ← gets snd;
  null ← gets (fun s => shared_null s.1 (lm_head meta));
  if (lm_head meta =? InvalidDsaPointer) || null then mret None
  else
    head ← on_dsa (load_node (lm_head meta));
    value ← on_dsa (fun area => (copy_value_out head area, area));
    let next_p := sn_next head in
    (if negb (next_p =? InvalidDsaPointer) then
       next ← on_dsa (load_node next_p);
       on_dsa (store_node next_p (set_prev InvalidDsaPointer next)) ;;
       set_meta {| lm_head := next_p; lm_tail := lm_tail meta; lm_length := lm_length meta - 1;
                   lm_min_ord := sn_ord next; lm_max_ord := lm_max_ord meta;
                   lm_ord_initialized := lm_ord_initialized meta |}
     else
       set_meta {| lm_head := next_p; lm_tail := InvalidDsaPointer; lm_length := lm_length meta - 1;
                   lm_min_ord := 0; lm_max_ord := -1; lm_ord_initialized := false |}) ;;
    on_dsa (free_node (lm_head meta)) ;;
    mret (Some (value, sn_ord head)).

Definition pg_redis_shared_list_rpop : M (Dsa * PgRedisSharedListMeta) (option (bytes * Z)) :=
  meta ← gets snd;
  null ← gets (fun s => shared_null s.1 (lm_tail meta));
  if (lm_tail meta =? InvalidDsaPointer) || null then mret None
  else
    tail ← on_dsa (load_node (lm_tail meta));
    value ← on_dsa (fun area => (copy_value_out tail area, area));
    let prev_p := sn_prev tail in
    (if negb (prev_p =? InvalidDsaPointer) then
       prev ← on_dsa (load_node prev_p);
       on_dsa (store_node prev_p (set_next InvalidDsaPointer prev)) ;;
       set_meta {| lm_head := lm_head meta; lm_tail := prev_p; lm_length := lm_length meta - 1;
                   lm_min_ord := lm_min_ord meta; lm_max_ord := sn_ord prev;
                   lm_ord_initialized := lm_ord_initialized meta |}
     else
       set_meta {| lm_head := InvalidDsaPointer; lm_tail := prev_p; lm_length := lm_length meta - 1;
                   lm_min_ord := 0; lm_max_ord := -1; lm_ord_initialized := false |}) ;;
    on_dsa (free_node (lm_tail meta)) ;;
    mret (Some (value, sn_ord tail)).

(** [l->tail->ord = ord; l->tail->pending_insert = false] *)
Definition stamp_tail (ord : Z) (l : PgRedisList) : PgRedisList :=
  {| l_nodes := match reverse (l_nodes l) with
                | [] => []
                | n :: ns => reverse ns ++ [{| n_value := n_value n; n_ord := ord; n_pending_insert := false |}]
                end;
     l_length := l_length l; l_memory_usage := l_memory_usage l; l_min_ord := l_min_ord l;
     l_max_ord := l_max_ord l; l_ord_initialized := l_ord_initialized l;
     l_pending_delete_ords := l_pending_delete_ords l |}.

(** A chain longer than the number of live chunks is a cycle, on which the
    loop does not end. *)
Fixpoint materialize_chain (area : Dsa) (fuel : nat) (cur : dsa_pointer) (l : PgRedisList)
    : outcome PgRedisList :=
  if cur =? InvalidDsaPointer then Ret l
  else if shared_null area cur then Ret l
  else match fuel, shared_node area cur with
       | S fuel', Some node =>
           match copy_value area (sn_value_dsa node) (sn_value_len node) with
           | Raise e => Raise e
           | Ret value =>
               materialize_chain area fuel' (sn_next node)
                 (stamp_tail (sn_ord node) (pg_redis_list_rpush l value).2)
           end
       | _, _ => Raise SEGMENTATION_FAULT
       end.

Definition pg_redis_shared_list_materialize (meta : PgRedisSharedListMeta) (area : Dsa)
    : outcome (option PgRedisList) :=
  if lm_head meta =? InvalidDsaPointer then Ret None
  else match materialize_chain area (chunk_count area) (lm_head meta) pg_redis_list_create_in with
       | Raise e => Raise e
       | Ret l => Ret (Some {| l_nodes := l_nodes l; l_length := l_length l;
           l_memory_usage := l_memory_usage l; l_min_ord := lm_min_ord meta;
           l_max_ord := lm_max_ord meta; l_ord_initialized := lm_ord_initialized meta;
           l_pending_delete_ords := l_pending_delete_ords l |})
       end.
End SharedList.
