(* ===== verification/SharedListSpec.v ===== *)
(** * The shared list is a deque

    A segment of linked nodes in the heap, the items it stands for and the
    chunks it owns, and what each operation of src/shared_list.c does. *)
From S2P Require Import Prelude Types ListValue SharedMem SharedHash SharedHashOps SharedList.

(** One node: where it is, where its value is, and what a reader gets. *)
Record item := {
  i_ptr : dsa_pointer;
  i_vptr : dsa_pointer;
  i_ord : Z;
  i_value : bytes
}.

Definition node_of (prev next : dsa_pointer) (it : item) : PgRedisSharedListNode :=
  {| sn_prev := prev; sn_next := next; sn_ord := i_ord it; sn_value_len := blen (i_value it);
     sn_value_dsa := i_vptr it |}.

Definition value_ok (h : Heap) (it : item) : Prop :=
  if i_vptr it =? InvalidDsaPointer then i_value it = []
  else exists c, h !! i_vptr it = Some (CBytes c) /\ i_value it `prefix_of` c.

Record node_ok (h : Heap) (prev next : dsa_pointer) (it : item) : Prop := {
  no_valid : i_ptr it <> InvalidDsaPointer;
  no_node : h !! i_ptr it = Some (CNode (node_of prev next it));
  no_value : value_ok h it
}.

Definition head_ptr (d : dsa_pointer) (its : list item) : dsa_pointer :=
  match its with [] => d | it :: _ => i_ptr it end.
Definition last_ptr (d : dsa_pointer) (its : list item) : dsa_pointer := from_option i_ptr d (last its).

(** The nodes of [its] linked from [prev] to [next]. *)
Fixpoint dseg (h : Heap) (prev : dsa_pointer) (its : list item) (next : dsa_pointer) : Prop :=
  match its with
  | [] => True
  | it :: its' => node_ok h prev (head_ptr next its') it /\ dseg h (i_ptr it) its' next
  end.

Definition item_ptrs (it : item) : list dsa_pointer := i_ptr it :: vptrs (i_vptr it).
Definition iowned (its : list item) : list dsa_pointer := flat_map item_ptrs its.

Definition meta_of (its : list item) : PgRedisSharedListMeta :=
  {| lm_head := head_ptr InvalidDsaPointer its; lm_tail := last_ptr InvalidDsaPointer its;
     lm_length := Z.of_nat (length its);
     lm_min_ord := from_option i_ord 0 (head its); lm_max_ord := from_option i_ord (-1) (last its);
     lm_ord_initialized := match its with [] => false | _ => true end |}.

Record list_repr (h : Heap) (meta : PgRedisSharedListMeta) (its : list item) : Prop := {
  lr_seg : dseg h InvalidDsaPointer its InvalidDsaPointer;
  lr_own : NoDup (iowned its);
  lr_meta : meta = meta_of its
}.

(** ** Segments *)

Lemma iowned_app a b : iowned (a ++ b) = iowned a ++ iowned b.
Proof. apply flat_map_app. Qed.
Lemma iowned_one it : iowned [it] = item_ptrs it.
Proof. apply app_nil_r. Qed.
Lemma iowned_cons it its : iowned (it :: its) = item_ptrs it ++ iowned its.
Proof. done. Qed.

Lemma last_ptr_snoc d its it : last_ptr d (its ++ [it]) = i_ptr it.
Proof. unfold last_ptr. by rewrite last_snoc. Qed.
Lemma last_ptr_cons d it its : last_ptr d (it :: its) = last_ptr (i_ptr it) its.
Proof. unfold last_ptr. rewrite last_cons. by destruct (last its). Qed.
Lemma head_ptr_snoc d its it : head_ptr d (its ++ [it]) = head_ptr (i_ptr it) its.
Proof. by destruct its. Qed.

Lemma dseg_snoc h prev its it next :
  dseg h prev (its ++ [it]) next <-> dseg h prev its (i_ptr it) /\ node_ok h (last_ptr prev its) next it.
Proof.
  revert prev. induction its as [|x its IH]; intros prev; cbn [app dseg]; [cbn; tauto|].
  rewrite IH, head_ptr_snoc, last_ptr_cons. tauto.
Qed.

Lemma value_ok_agree h h' it :
  (forall q, q ∈ vptrs (i_vptr it) -> h' !! q = h !! q) -> value_ok h it -> value_ok h' it.
Proof.
  unfold value_ok. intros Hq. destruct (Z.eqb_spec (i_vptr it) InvalidDsaPointer) as [|Hv]; [done|].
  intros (c & Hc & Hp). exists c. split; [|done]. rewrite Hq; [done|]. by apply elem_of_vptrs.
Qed.

Lemma node_ok_agree h h' prev next it :
  (forall q, q ∈ item_ptrs it -> h' !! q = h !! q) -> node_ok h prev next it -> node_ok h' prev next it.
Proof.
  intros Hq [H1 H2 H3]. split; [done|rewrite Hq; [done|unfold item_ptrs; set_solver]|].
  eapply value_ok_agree; [|done]. intros q ?. apply Hq. unfold item_ptrs. set_solver.
Qed.

Lemma dseg_agree h h' prev its next :
  (forall q, q ∈ iowned its -> h' !! q = h !! q) -> dseg h prev its next -> dseg h' prev its next.
Proof.
  revert prev. induction its as [|it its IH]; intros prev Hq; [done|]. rewrite iowned_cons in Hq.
  intros [H1 H2]. split; [eapply node_ok_agree; [|done]|apply IH; [|done]]; intros q ?; apply Hq; set_solver.
Qed.

Lemma iowned_in h prev its next q :
  dseg h prev its next -> q ∈ iowned its -> q <> InvalidDsaPointer /\ is_Some (h !! q).
Proof.
  revert prev. induction its as [|it its IH]; intros prev; [by intros _ ?%elem_of_nil|].
  intros [[H1 H2 H3] Hs] Hq. rewrite iowned_cons, elem_of_app in Hq. destruct Hq as [Hq|Hq]; [|by eapply IH].
  unfold item_ptrs in Hq. apply elem_of_cons in Hq as [->|Hq]; [by eauto|].
  apply elem_of_vptrs in Hq as [-> Hv]. unfold value_ok in H3. rewrite (proj2 (Z.eqb_neq _ _) Hv) in H3.
  destruct H3 as (c & Hc & _). by eauto.
Qed.

(** Relinking an end of a segment. *)
Lemma node_ok_relink h h' prev next prev' next' it :
  node_ok h prev next it -> h' !! i_ptr it = Some (CNode (node_of prev' next' it)) ->
  (forall q, q ∈ vptrs (i_vptr it) -> h' !! q = h !! q) -> node_ok h' prev' next' it.
Proof. intros [H1 H2 H3] Hn Hv. split; [done|done|]. by eapply value_ok_agree. Qed.

(** ** Building and taking apart represented lists *)

(** [it] and the other items own different chunks. *)
Lemma own_cons it its :
  NoDup (iowned (it :: its)) <->
  NoDup (item_ptrs it) /\ (forall q, q ∈ item_ptrs it -> q ∉ iowned its) /\ NoDup (iowned its).
Proof. rewrite iowned_cons. apply NoDup_app. Qed.

Lemma own_snoc it its : NoDup (iowned (its ++ [it])) <-> NoDup (iowned (it :: its)).
Proof. rewrite iowned_app, iowned_one, iowned_cons. by rewrite (Permutation_app_comm (iowned its)). Qed.

Definition new_item (h h' : Heap) (it : item) : Prop :=
  NoDup (item_ptrs it) /\ (forall q, q ∈ item_ptrs it -> h !! q = None) /\ value_ok h' it.

(** The heap after a new first node: its own chunks, and the old first node
    linked back to it. *)
Lemma repr_push_front h h' meta its it :
  list_repr h meta its -> new_item h h' it -> i_ptr it <> InvalidDsaPointer ->
  h' !! i_ptr it = Some (CNode (node_of InvalidDsaPointer (head_ptr InvalidDsaPointer its) it)) ->
  (forall z zs, its = z :: zs -> h' !! i_ptr z = Some (CNode (node_of (i_ptr it) (head_ptr InvalidDsaPointer zs) z))) ->
  (forall q, q ∉ item_ptrs it -> q <> head_ptr InvalidDsaPointer its -> h' !! q = h !! q) ->
  list_repr h' (meta_of (it :: its)) (it :: its).
Proof.
  intros [Hs Ho _] (Hn & Hf & Hv) Hp Hnode Hold Hsame.
  assert (Hdis : forall q, q ∈ item_ptrs it -> q ∉ iowned its).
  { intros q Hq Hq'. apply (iowned_in _ _ _ _ _ Hs) in Hq' as [_ [c Hc]]. rewrite Hf in Hc; done. }
  split; [|by apply own_cons|done]. split; [by split|].
  destruct its as [|z zs]; [done|]. destruct Hs as [Hz Hs]. cbn [head_ptr] in Hsame.
  apply own_cons in Ho as (Hzn & Hzd & _).
  split.
  - eapply node_ok_relink; [exact Hz|by apply Hold|]. intros q Hq. unfold item_ptrs in Hzn.
    apply NoDup_cons in Hzn as [Hzn _]. apply Hsame; [|set_solver].
    intros Hq'. apply (Hdis q Hq'). rewrite iowned_cons. unfold item_ptrs. set_solver.
  - eapply dseg_agree; [|done]. intros q Hq. apply Hsame.
    + intros Hq'. apply (Hdis q Hq'). rewrite iowned_cons. set_solver.
    + intros ->. apply (Hzd (i_ptr z)); [unfold item_ptrs; set_solver|done].
Qed.

Lemma repr_push_back h h' meta its it :
  list_repr h meta its -> new_item h h' it -> i_ptr it <> InvalidDsaPointer ->
  h' !! i_ptr it = Some (CNode (node_of (last_ptr InvalidDsaPointer its) InvalidDsaPointer it)) ->
  (forall z zs, its = zs ++ [z] -> h' !! i_ptr z = Some (CNode (node_of (last_ptr InvalidDsaPointer zs) (i_ptr it) z))) ->
  (forall q, q ∉ item_ptrs it -> q <> last_ptr InvalidDsaPointer its -> h' !! q = h !! q) ->
  list_repr h' (meta_of (its ++ [it])) (its ++ [it]).
Proof.
  intros [Hs Ho _] (Hn & Hf & Hv) Hp Hnode Hold Hsame.
  assert (Hdis : forall q, q ∈ item_ptrs it -> q ∉ iowned its).
  { intros q Hq Hq'. apply (iowned_in _ _ _ _ _ Hs) in Hq' as [_ [c Hc]]. rewrite Hf in Hc; done. }
  split; [|by apply own_snoc, own_cons|done]. apply dseg_snoc. split; [|by split].
  destruct (list_snoc_cases its) as [->|(zs & z & ->)]; [done|].
  apply dseg_snoc in Hs as [Hs Hz]. rewrite last_ptr_snoc in Hsame.
  apply own_snoc, own_cons in Ho as (Hzn & Hzd & _). rewrite iowned_app, iowned_one in Hdis.
  apply dseg_snoc. split.
  - eapply dseg_agree; [|done]. intros q Hq. apply Hsame.
    + intros Hq'. apply (Hdis q Hq'). set_solver.
    + intros ->. apply (Hzd (i_ptr z)); [unfold item_ptrs; set_solver|done].
  - eapply node_ok_relink; [exact Hz|by apply Hold|]. intros q Hq. unfold item_ptrs in Hzn.
    apply NoDup_cons in Hzn as [Hzn _]. apply Hsame; [|set_solver].
    intros Hq'. apply (Hdis q Hq'). unfold item_ptrs. set_solver.
Qed.

(** The heap without the first node, the second one cut loose. *)
Lemma repr_pop_front h h' meta it its :
  list_repr h meta (it :: its) ->
  (forall z zs, its = z :: zs -> h' !! i_ptr z = Some (CNode (node_of InvalidDsaPointer (head_ptr InvalidDsaPointer zs) z))) ->
  (forall q, q ∉ item_ptrs it -> q <> head_ptr InvalidDsaPointer its -> h' !! q = h !! q) ->
  list_repr h' (meta_of its) its.
Proof.
  intros [[_ Hs] Ho _] Hold Hsame. apply own_cons in Ho as (_ & Hdis & Ho). split; [|done|done].
  destruct its as [|z zs]; [done|]. destruct Hs as [Hz Hs]. cbn [head_ptr] in Hsame.
  apply own_cons in Ho as (Hzn & Hzd & _). split.
  - eapply node_ok_relink; [exact Hz|by apply Hold|]. intros q Hq. unfold item_ptrs in Hzn.
    apply NoDup_cons in Hzn as [Hzn _]. apply Hsame; [|set_solver].
    intros Hq'. apply (Hdis q Hq'). rewrite iowned_cons. unfold item_ptrs. set_solver.
  - eapply dseg_agree; [|done]. intros q Hq. apply Hsame.
    + intros Hq'. apply (Hdis q Hq'). rewrite iowned_cons. set_solver.
    + intros ->. apply (Hzd (i_ptr z)); [unfold item_ptrs; set_solver|done].
Qed.

Lemma repr_pop_back h h' meta it its :
  list_repr h meta (its ++ [it]) ->
  (forall z zs, its = zs ++ [z] -> h' !! i_ptr z = Some (CNode (node_of (last_ptr InvalidDsaPointer zs) InvalidDsaPointer z))) ->
  (forall q, q ∉ item_ptrs it -> q <> last_ptr InvalidDsaPointer its -> h' !! q = h !! q) ->
  list_repr h' (meta_of its) its.
Proof.
  intros [Hs Ho _] Hold Hsame. apply dseg_snoc in Hs as [Hs _].
  apply own_snoc, own_cons in Ho as (_ & Hdis & Ho). split; [|done|done].
  destruct (list_snoc_cases its) as [->|(zs & z & ->)]; [done|].
  apply dseg_snoc in Hs as [Hs Hz]. rewrite last_ptr_snoc in Hsame.
  apply own_snoc, own_cons in Ho as (Hzn & Hzd & _). rewrite iowned_app, iowned_one in Hdis.
  apply dseg_snoc. split.
  - eapply dseg_agree; [|done]. intros q Hq. apply Hsame.
    + intros Hq'. apply (Hdis q Hq'). set_solver.
    + intros ->. apply (Hzd (i_ptr z)); [unfold item_ptrs; set_solver|done].
  - eapply node_ok_relink; [exact Hz|by apply Hold|]. intros q Hq. unfold item_ptrs in Hzn.
    apply NoDup_cons in Hzn as [Hzn _]. apply Hsame; [|set_solver].
    intros Hq'. apply (Hdis q Hq'). unfold item_ptrs. set_solver.
Qed.

(** ** The operations *)

Section ListOps.
Context `{DsaAllocator} `{!DsaLaws}.

Definition ifoot (its : list item) : gset dsa_pointer := list_to_set (iowned its).

(** What the uint16 length keeps of a value. *)
Definition trunc16 (v : bytes) : bytes := take (Z.to_nat (u16 (blen v))) v.

Lemma blen_trunc16 v : blen (trunc16 v) = u16 (blen v).
Proof.
  unfold trunc16, blen. rewrite length_take. pose proof (wrap_u_range 16 (Z.of_nat (length v)) ltac:(lia)).
  assert (u16 (Z.of_nat (length v)) <= Z.of_nat (length v)) by (apply Z.mod_le; lia). lia.
Qed.

Lemma on_dsa_Ret {X A B} (m : M Dsa A) (k : A -> M (Dsa * X) B) d x a d' :
  m d = (Ret a, d') -> (on_dsa m ≫= k) (d, x) = k a (d', x).
Proof. intros E. rewrite bind_unfold. unfold on_dsa. cbn [fst snd]. by rewrite E. Qed.

Lemma on_dsa_store_node {X A} p n (k : unit -> M (Dsa * X) A) h x :
  (on_dsa (store_node p n) ≫= k) (Some h, x) = k tt (Some (<[p := CNode n]> h), x).
Proof. done. Qed.

Lemma load_node_at h p n :
  p <> InvalidDsaPointer -> h !! p = Some (CNode n) -> load_node p (Some h) = (Ret n, Some h).
Proof.
  intros Hp Hn. unfold load_node, shared_node, pg_redis_shared_addr.
  by rewrite (proj2 (Z.eqb_neq _ _) Hp), Hn.
Qed.

Lemma not_null_at h p c :
  p <> InvalidDsaPointer -> h !! p = Some c -> shared_null (Some h) p = false.
Proof.
  intros Hp Hc. unfold shared_null, pg_redis_shared_addr. by rewrite (proj2 (Z.eqb_neq _ _) Hp), Hc.
Qed.

Lemma free_node_at h p n :
  p <> InvalidDsaPointer -> h !! p = Some (CNode n) ->
  free_node p (Some h) = (Ret tt, Some (hfree p (hfree (sn_value_dsa n) h))).
Proof.
  intros Hp Hn. unfold free_node. rewrite (proj2 (Z.eqb_neq _ _) Hp), bind_unfold. cbn [gets id].
  rewrite (not_null_at h p _ Hp Hn), (bind_Ret _ _ _ _ _ (load_node_at h p n Hp Hn)).
  rewrite bind_unfold. unfold modify. by rewrite !pfree_hfree.
Qed.

Record fresh_node (h h' : Heap) (it : item) (v : bytes) (ord : Z) : Prop := {
  fn_valid : i_ptr it <> InvalidDsaPointer;
  fn_ord : i_ord it = ord;
  fn_value : i_value it = trunc16 v;
  fn_node : h' !! i_ptr it = Some (CNode (node_of InvalidDsaPointer InvalidDsaPointer it));
  fn_nodup : NoDup (item_ptrs it);
  fn_fresh : forall q, q ∈ item_ptrs it -> h !! q = None;
  fn_ok : value_ok h' it;
  fn_same : forall q, q ∉ item_ptrs it -> h' !! q = h !! q
}.

Lemma new_node_cases v ord h :
  new_node v ord (Some h) = (Ret InvalidDsaPointer, Some h) \/
  exists it h', new_node v ord (Some h) = (Ret (i_ptr it), Some h') /\ fresh_node h h' it v ord.
Proof.
  unfold new_node. rewrite bind_unfold.
  destruct (palloc_cases sizeof_PgRedisSharedListNode h) as [E|(p & E & Hp & Hf)]; rewrite E; [by left|].
  rewrite (proj2 (Z.eqb_neq _ _) Hp), bind_unfold. set (h0 := <[p := _]> h).
  destruct (alloc_value_cases v h0) as (vp & h1 & E1 & Hcase). rewrite E1.
  destruct ((0 <? blen v) && (vp =? InvalidDsaPointer)).
  { left. subst h1. rewrite bind_unfold. cbn [modify mret M_ret]. rewrite pfree_hfree. unfold hfree, h0.
    rewrite (proj2 (Z.eqb_neq _ _) Hp). by rewrite delete_insert_id. }
  right. exists {| i_ptr := p; i_vptr := vp; i_ord := ord; i_value := trunc16 v |}. cbn [i_ptr].
  eexists. split; [reflexivity|].
  assert (Hpv : p ∉ vptrs vp).
  { intros Hq. apply (vn_fresh _ _ _ _ Hcase) in Hq. unfold h0 in Hq. by rewrite lookup_insert_eq in Hq. }
  split; cbn [i_ptr i_ord i_value i_vptr]; try done.
  - rewrite lookup_insert_eq. unfold node_of. cbn. by rewrite blen_trunc16.
  - apply NoDup_cons. split; [done|apply vptrs_nodup].
  - intros q [->|Hq]%elem_of_cons; [done|]. apply (vn_fresh _ _ _ _ Hcase) in Hq.
    unfold h0 in Hq. by apply lookup_insert_None in Hq as [? _].
  - unfold value_ok. cbn. destruct (Z.eqb_spec vp InvalidDsaPointer) as [->|Hv].
    + pose proof (vn_bytes _ _ _ _ Hcase) as Hb. destruct (Z.eqb_spec (blen v) 0) as [E0|E0].
      * unfold trunc16. rewrite E0. done.
      * by apply shared_bytes_Some in Hb as [? _].
    + pose proof (vn_bytes _ _ _ _ Hcase) as Hb. destruct (blen v =? 0); [done|].
      apply shared_bytes_Some in Hb as [_ Hb]. exists v. split; [|apply prefix_take].
      rewrite lookup_insert_ne; [done|]. intros ->. by apply Hpv, elem_of_vptrs.
  - intros q Hq. unfold item_ptrs in Hq. cbn in Hq. rewrite lookup_insert_ne by set_solver.
    rewrite (vn_same _ _ _ _ Hcase) by set_solver. unfold h0. rewrite lookup_insert_ne; set_solver.
Qed.

Lemma copy_value_item h it prev next :
  node_ok h prev next it -> copy_value_out (node_of prev next it) (Some h) = Ret (i_value it).
Proof.
  intros [_ _ Hv]. unfold copy_value_out, copy_value, node_of, value_ok in *. cbn [sn_value_dsa sn_value_len].
  destruct (Z.ltb_spec 0 (blen (i_value it))) as [Hl|Hl].
  - destruct (Z.eqb_spec (i_vptr it) InvalidDsaPointer) as [E|E].
    + rewrite Hv in Hl. by cbn in Hl.
    + destruct Hv as (c & Hc & [k ->]). rewrite (proj2 (shared_bytes_Some h _ _) (conj E Hc)).
      unfold blen. rewrite Nat2Z.id. by rewrite take_app_length.
  - unfold blen in Hl. destruct (i_value it); [done|cbn in Hl; lia].
Qed.

(** The frame of a push and of a pop. *)
Lemma push_rest h h' its its' it :
  (forall q, q ∈ item_ptrs it -> h !! q = None) ->
  iowned its' ≡ₚ item_ptrs it ++ iowned its ->
  (forall q, q ∉ item_ptrs it -> q ∉ iowned its -> h' !! q = h !! q) ->
  rest (ifoot its') h' = rest (ifoot its) h.
Proof.
  intros Hf Hp Hsame. unfold ifoot. apply rest_eq; intros q; rewrite !elem_of_list_to_set, Hp, elem_of_app; naive_solver.
Qed.

Lemma pop_rest h h' its its' it :
  (forall q, q ∈ item_ptrs it -> h' !! q = None) ->
  iowned its ≡ₚ item_ptrs it ++ iowned its' ->
  (forall q, q ∉ item_ptrs it -> q ∉ iowned its' -> h' !! q = h !! q) ->
  rest (ifoot its') h' = rest (ifoot its) h.
Proof.
  intros Hf Hp Hsame. unfold ifoot. apply rest_eq; intros q; rewrite !elem_of_list_to_set, Hp, elem_of_app; naive_solver.
Qed.

Lemma iowned_snoc its it : iowned (its ++ [it]) ≡ₚ item_ptrs it ++ iowned its.
Proof. rewrite iowned_app, iowned_one. apply Permutation_app_comm. Qed.

Lemma elem_of_iowned its it q : it ∈ its -> q ∈ item_ptrs it -> q ∈ iowned its.
Proof. intros. apply elem_of_flat_map. eauto. Qed.

Lemma ptr_in_ptrs it : i_ptr it ∈ item_ptrs it.
Proof. unfold item_ptrs. set_solver. Qed.

Definition front_ord (its : list item) : Z := match its with [] => 0 | z :: _ => i_ord z - 1 end.
Definition back_ord (its : list item) : Z := match last its with None => 0 | Some z => i_ord z + 1 end.

Definition pushed (h : Heap) (meta : PgRedisSharedListMeta) (its : list item) (v : bytes) (ord : Z)
    (put : item -> list item) (x : outcome Z * (Dsa * PgRedisSharedListMeta)) : Prop :=
  x = (Raise ERRCODE_OUT_OF_MEMORY, (Some h, meta)) \/
  exists it h', x = (Ret (Z.of_nat (S (length its))), (Some h', meta_of (put it))) /\
    list_repr h' (meta_of (put it)) (put it) /\ i_ord it = ord /\ i_value it = trunc16 v /\
    rest (ifoot (put it)) h' = rest (ifoot its) h.

(** Writing the links of a fresh node. *)
Lemma linked_node h h1 it v ord n :
  fresh_node h h1 it v ord ->
  (forall q, q ∉ item_ptrs it -> <[i_ptr it := CNode n]> h1 !! q = h !! q) /\
  value_ok (<[i_ptr it := CNode n]> h1) it.
Proof.
  intros [Hp Ho Hv Hn Hnd Hf Hok Hs]. split.
  - intros q Hq. rewrite lookup_insert_ne by (intros <-; by apply Hq, ptr_in_ptrs). by apply Hs.
  - eapply value_ok_agree; [|exact Hok]. intros q Hq. unfold item_ptrs in Hnd. apply NoDup_cons in Hnd as [Hnd _].
    apply lookup_insert_ne. congruence.
Qed.

Lemma lpush_spec h meta its v :
  list_repr h meta its ->
  pushed h meta its v (front_ord its) (fun it => it :: its) (pg_redis_shared_list_lpush v (Some h, meta)).
Proof.
  intros Hr. unfold pg_redis_shared_list_lpush. rewrite bind_unfold. cbn [gets snd].
  pose proof (lr_meta _ _ _ Hr) as Em. subst meta.
  assert (Eord : (if negb (lm_ord_initialized (meta_of its)) then 0 else lm_min_ord (meta_of its) - 1) = front_ord its).
  { by destruct its. }
  rewrite Eord. destruct (new_node_cases v (front_ord its) h) as [E|(it & h1 & E & Hfresh)].
  { left. rewrite bind_unfold. unfold on_dsa. cbn [fst snd]. by rewrite E. }
  pose proof Hfresh as [Hp Ho Hv Hn Hnd Hf Hok Hs]. right. rewrite (on_dsa_Ret _ _ _ _ _ _ E), (proj2 (Z.eqb_neq _ _) Hp).
  rewrite (on_dsa_Ret _ _ _ _ _ _ (load_node_at _ _ _ Hp Hn)).
  rewrite on_dsa_store_node.
  change (set_next ?p (node_of ?a ?b it)) with (node_of a p it).
  set (h2 := <[i_ptr it := _]> h1).
  assert ((forall q, q ∉ item_ptrs it -> h2 !! q = h !! q) /\ value_ok h2 it) as [Hh2 Hv2] by (by eapply linked_node).
  cbn [meta_of lm_head lm_tail] in *. destruct its as [|z zs]; cbn [head_ptr negb] in *.
  - exists it, h2. split; [rewrite bind_unfold; unfold meta_of; cbn; by rewrite Ho|].
    assert (Hsame : forall q, q ∉ item_ptrs it -> q <> InvalidDsaPointer -> h2 !! q = h !! q) by auto.
    split; [eapply (repr_push_front h h2); try done; apply lookup_insert_eq|].
    split; [done|]. split; [done|]. eapply push_rest; [done| |intros; by apply Hh2]. by rewrite iowned_cons.
  - destruct (lr_seg _ _ _ Hr) as [[Hzp Hzn Hzv] _].
    assert (Hz : i_ptr z ∉ item_ptrs it) by (intros Hq%Hf; congruence).
    rewrite (proj2 (Z.eqb_neq _ _) Hzp). cbn [negb]. rewrite bind_assoc.
    assert (Hz2 : h2 !! i_ptr z = Some (CNode (node_of InvalidDsaPointer (head_ptr InvalidDsaPointer zs) z)))
      by (by rewrite Hh2).
    rewrite (on_dsa_Ret _ _ _ _ _ _ (load_node_at _ _ _ Hzp Hz2)).
    rewrite bind_assoc, on_dsa_store_node.
    change (set_prev ?p (node_of ?a ?b z)) with (node_of p b z).
    set (h3 := <[i_ptr z := _]> h2).
    exists it, h3. split.
    { rewrite bind_unfold. unfold meta_of. cbn. rewrite Ho. cbn.
      by replace (Z.of_nat (S (length zs)) + 1) with (Z.of_nat (S (S (length zs)))) by lia. }
    assert (Hh3 : forall q, q ∉ item_ptrs it -> q <> i_ptr z -> h3 !! q = h !! q).
    { intros q H1 H2. unfold h3. rewrite lookup_insert_ne by done. by apply Hh2. }
    split; [|split; [done|split; [done|]]].
    + apply (repr_push_front h h3 (meta_of (z :: zs))); [done| |done|..|done].
      * split; [done|]. split; [done|]. eapply value_ok_agree; [|exact Hv2].
        intros q Hq. unfold h3. apply lookup_insert_ne. intros <-. apply Hz. unfold item_ptrs. set_solver.
      * unfold h3. rewrite lookup_insert_ne by (intros E2; apply Hz; rewrite E2; apply ptr_in_ptrs).
        unfold h2. apply lookup_insert_eq.
      * intros z' zs' [= <- <-]. unfold h3. apply lookup_insert_eq.
    + eapply push_rest; [done|by rewrite iowned_cons|]. intros q H1 H2. apply Hh3; [done|].
      intros ->. apply H2. rewrite iowned_cons. pose proof (ptr_in_ptrs z). set_solver.
Qed.

Lemma meta_snoc its it :
  meta_of (its ++ [it]) =
  {| lm_head := head_ptr (i_ptr it) its; lm_tail := i_ptr it; lm_length := Z.of_nat (S (length its));
     lm_min_ord := from_option i_ord (i_ord it) (head its); lm_max_ord := i_ord it; lm_ord_initialized := true |}.
Proof.
  unfold meta_of. rewrite head_ptr_snoc, last_ptr_snoc, length_app, last_snoc. cbn [length from_option].
  rewrite Nat.add_1_r. by destruct its.
Qed.

Lemma rpush_spec h meta its v :
  list_repr h meta its ->
  pushed h meta its v (back_ord its) (fun it => its ++ [it]) (pg_redis_shared_list_rpush v (Some h, meta)).
Proof.
  intros Hr. unfold pg_redis_shared_list_rpush. rewrite bind_unfold. cbn [gets snd].
  pose proof (lr_meta _ _ _ Hr) as Em. subst meta.
  assert (Eord : (if negb (lm_ord_initialized (meta_of its)) then 0 else lm_max_ord (meta_of its) + 1) = back_ord its).
  { destruct (list_snoc_cases its) as [->|(zs & z & ->)]; [done|]. rewrite meta_snoc. unfold back_ord. by rewrite last_snoc. }
  rewrite Eord. destruct (new_node_cases v (back_ord its) h) as [E|(it & h1 & E & Hfresh)].
  { left. rewrite bind_unfold. unfold on_dsa. cbn [fst snd]. by rewrite E. }
  pose proof Hfresh as [Hp Ho Hv Hn Hnd Hf Hok Hs]. right. rewrite (on_dsa_Ret _ _ _ _ _ _ E), (proj2 (Z.eqb_neq _ _) Hp).
  rewrite (on_dsa_Ret _ _ _ _ _ _ (load_node_at _ _ _ Hp Hn)), on_dsa_store_node.
  change (set_prev ?p (node_of ?a ?b it)) with (node_of p b it).
  set (h2 := <[i_ptr it := _]> h1).
  assert ((forall q, q ∉ item_ptrs it -> h2 !! q = h !! q) /\ value_ok h2 it) as [Hh2 Hv2] by (by eapply linked_node).
  destruct (list_snoc_cases its) as [->|(zs & z & ->)].
  - exists it, h2. split; [rewrite bind_unfold; unfold meta_of; cbn; by rewrite Ho|].
    split; [eapply (repr_push_back h h2); try done; [apply lookup_insert_eq|by intros ? [|]|auto]|].
    split; [done|]. split; [done|]. eapply push_rest; [done|apply iowned_snoc|intros; by apply Hh2].
  - pose proof (lr_seg _ _ _ Hr) as [_ [Hzp Hzn Hzv]]%dseg_snoc.
    assert (Hz : i_ptr z ∉ item_ptrs it) by (intros Hq%Hf; congruence).
    unfold h2 in *. clear h2. rewrite meta_snoc in *. cbn [lm_tail lm_head lm_ord_initialized lm_length lm_min_ord lm_max_ord negb] in *.
    set (h2 := <[i_ptr it := _]> h1) in *.
    rewrite (proj2 (Z.eqb_neq _ _) Hzp). cbn [negb]. rewrite bind_assoc.
    assert (Hz2 : h2 !! i_ptr z = Some (CNode (node_of (last_ptr InvalidDsaPointer zs) InvalidDsaPointer z)))
      by (by rewrite Hh2).
    rewrite (on_dsa_Ret _ _ _ _ _ _ (load_node_at _ _ _ Hzp Hz2)), bind_assoc, on_dsa_store_node.
    change (set_next ?p (node_of ?a ?b z)) with (node_of a p z). set (h3 := <[i_ptr z := _]> h2).
    exists it, h3. split.
    { rewrite bind_unfold, meta_snoc, Ho, length_app, head_ptr_snoc. unfold back_ord. rewrite last_snoc. cbn.
      replace (Z.of_nat (S (length zs)) + 1) with (Z.of_nat (S (length zs + 1))) by lia.
      by destruct zs. }
    assert (Hh3 : forall q, q ∉ item_ptrs it -> q <> i_ptr z -> h3 !! q = h !! q).
    { intros q H1 H2. unfold h3. rewrite lookup_insert_ne by done. by apply Hh2. }
    split; [|split; [done|split; [done|]]].
    + apply (repr_push_back h h3 (meta_of (zs ++ [z]))); rewrite ?last_ptr_snoc; [by rewrite meta_snoc| |done|..|done].
      * split; [done|]. split; [done|]. eapply value_ok_agree; [|exact Hv2].
        intros q Hq. unfold h3. apply lookup_insert_ne. intros <-. apply Hz. unfold item_ptrs. set_solver.
      * unfold h3. rewrite lookup_insert_ne by (intros E2; apply Hz; rewrite E2; apply ptr_in_ptrs).
        unfold h2. apply lookup_insert_eq.
      * intros z' zs' [<- <-]%app_inj_tail. unfold h3. apply lookup_insert_eq.
    + eapply push_rest; [done|apply iowned_snoc|]. intros q H1 H2. apply Hh3; [done|].
      intros ->. apply H2, (elem_of_iowned _ z); [set_solver|apply ptr_in_ptrs].
Qed.

Definition popped (h : Heap) (its : list item) (it : item)
    (x : outcome (option (bytes * Z)) * (Dsa * PgRedisSharedListMeta)) (old : list item) : Prop :=
  exists h', x = (Ret (Some (i_value it, i_ord it)), (Some h', meta_of its)) /\
    list_repr h' (meta_of its) its /\ rest (ifoot its) h' = rest (ifoot old) h.

(** After the two frees of [free_node]. *)
Lemma lookup_freed h it q :
  i_ptr it <> InvalidDsaPointer ->
  hfree (i_ptr it) (hfree (i_vptr it) h) !! q = if decide (q ∈ item_ptrs it) then None else h !! q.
Proof.
  intros Hp. rewrite !lookup_hfree. unfold item_ptrs. pose proof (elem_of_vptrs q (i_ptr it)).
  repeat case_decide; set_solver.
Qed.

Lemma lpop_spec h meta it its :
  list_repr h meta (it :: its) ->
  popped h its it (pg_redis_shared_list_lpop (Some h, meta)) (it :: its).
Proof.
  intros Hr. pose proof (lr_meta _ _ _ Hr) as Em. subst meta.
  destruct (lr_seg _ _ _ Hr) as [Hit Hs]. pose proof Hit as [Hp Hn Hv].
  pose proof (lr_own _ _ _ Hr) as (Hnd & Hdis & Ho)%own_cons.
  unfold pg_redis_shared_list_lpop. rewrite bind_unfold. cbn [gets snd]. rewrite bind_unfold.
  cbn [gets fst meta_of lm_head head_ptr].
  rewrite (proj2 (Z.eqb_neq _ _) Hp), (not_null_at _ _ _ Hp Hn). cbn [orb].
  rewrite (on_dsa_Ret _ _ _ _ _ _ (load_node_at _ _ _ Hp Hn)).
  rewrite bind_unfold. unfold on_dsa at 1. cbn [fst snd].
  rewrite (copy_value_item _ _ _ _ Hit). cbn [sn_next node_of].
  destruct its as [|z zs]; cbn [head_ptr].
  - cbn [Z.eqb InvalidDsaPointer negb]. rewrite bind_unfold. cbn [set_meta modify fst].
    rewrite (on_dsa_Ret _ _ _ _ _ _ (free_node_at _ _ _ Hp Hn)). cbn [sn_value_dsa node_of].
    eexists. split; [reflexivity|]. split.
    + split; [done|constructor|done].
    + apply (pop_rest _ _ _ _ it); [|done|]; intros q Hq; [|intros _]; rewrite lookup_freed by done;
        [by rewrite decide_True|by rewrite decide_False].
  - destruct Hs as [[Hzp Hzn Hzv] Hs]. rewrite (proj2 (Z.eqb_neq _ _) Hzp). cbn [negb].
    assert (Hz : i_ptr z ∉ item_ptrs it).
    { intros Hq%Hdis. apply Hq. apply (elem_of_iowned _ z); [set_solver|apply ptr_in_ptrs]. }
    rewrite bind_assoc, (on_dsa_Ret _ _ _ _ _ _ (load_node_at _ _ _ Hzp Hzn)), bind_assoc, on_dsa_store_node.
    change (set_prev ?p (node_of ?a ?b z)) with (node_of p b z). set (h1 := <[i_ptr z := _]> h).
    rewrite bind_unfold. cbn [set_meta modify fst].
    assert (Hn1 : h1 !! i_ptr it = Some (CNode (node_of InvalidDsaPointer (i_ptr z) it))).
    { unfold h1. rewrite lookup_insert_ne; [done|]. intros E. apply Hz. rewrite E. apply ptr_in_ptrs. }
    rewrite (on_dsa_Ret _ _ _ _ _ _ (free_node_at _ _ _ Hp Hn1)). cbn [sn_value_dsa node_of].
    assert (Hlook : forall q, q ∉ item_ptrs it -> q <> i_ptr z ->
      hfree (i_ptr it) (hfree (i_vptr it) h1) !! q = h !! q).
    { intros q H1 H2. rewrite lookup_freed, decide_False by done. unfold h1. by rewrite lookup_insert_ne. }
    eexists. split; [|split].
    + cbn. do 3 f_equal. unfold meta_of, last_ptr. cbn. f_equal. lia.
    + eapply (repr_pop_front h); [done| |done].
      intros z' zs' [= <- <-]. rewrite lookup_freed, decide_False by done. unfold h1. apply lookup_insert_eq.
    + apply (pop_rest _ _ _ _ it); [|done|].
      * intros q Hq. by rewrite lookup_freed, decide_True by done.
      * intros q H1 H2. apply Hlook; [done|]. intros ->. apply H2, (elem_of_iowned _ z); [set_solver|apply ptr_in_ptrs].
Qed.

Lemma rpop_spec h meta it its :
  list_repr h meta (its ++ [it]) ->
  popped h its it (pg_redis_shared_list_rpop (Some h, meta)) (its ++ [it]).
Proof.
  intros Hr. pose proof (lr_meta _ _ _ Hr) as Em. subst meta.
  pose proof (lr_seg _ _ _ Hr) as [Hs Hit]%dseg_snoc. pose proof Hit as [Hp Hn Hv].
  pose proof (lr_own _ _ _ Hr) as (Hnd & Hdis & Ho)%own_snoc%own_cons.
  unfold pg_redis_shared_list_rpop. rewrite bind_unfold. cbn [gets snd]. rewrite bind_unfold.
  rewrite meta_snoc in *. cbn [gets fst lm_head lm_tail lm_length lm_min_ord lm_ord_initialized].
  rewrite (proj2 (Z.eqb_neq _ _) Hp), (not_null_at _ _ _ Hp Hn). cbn [orb].
  rewrite (on_dsa_Ret _ _ _ _ _ _ (load_node_at _ _ _ Hp Hn)).
  rewrite bind_unfold. unfold on_dsa at 1. cbn [fst snd].
  rewrite (copy_value_item _ _ _ _ Hit). cbn [sn_prev node_of].
  destruct (list_snoc_cases its) as [->|(zs & z & ->)].
  - cbn [last_ptr last from_option Z.eqb InvalidDsaPointer negb]. rewrite bind_unfold. cbn [set_meta modify fst].
    rewrite (on_dsa_Ret _ _ _ _ _ _ (free_node_at _ _ _ Hp Hn)). cbn [sn_value_dsa node_of].
    eexists. split; [reflexivity|]. split.
    + split; [done|constructor|done].
    + apply (pop_rest _ _ _ _ it); [|apply iowned_snoc|]; intros q Hq; [|intros _]; rewrite lookup_freed by done;
        [by rewrite decide_True|by rewrite decide_False].
  - apply dseg_snoc in Hs as [Hs [Hzp Hzn Hzv]]. rewrite last_ptr_snoc in *.
    rewrite (proj2 (Z.eqb_neq _ _) Hzp). cbn [negb].
    assert (Hz : i_ptr z ∉ item_ptrs it).
    { intros Hq%Hdis. apply Hq. apply (elem_of_iowned _ z); [set_solver|apply ptr_in_ptrs]. }
    rewrite bind_assoc, (on_dsa_Ret _ _ _ _ _ _ (load_node_at _ _ _ Hzp Hzn)), bind_assoc, on_dsa_store_node.
    change (set_next ?p (node_of ?a ?b z)) with (node_of a p z). set (h1 := <[i_ptr z := _]> h).
    rewrite bind_unfold. cbn [set_meta modify fst].
    assert (Hn1 : h1 !! i_ptr it = Some (CNode (node_of (i_ptr z) InvalidDsaPointer it))).
    { unfold h1. rewrite lookup_insert_ne; [done|]. intros E. apply Hz. rewrite E. apply ptr_in_ptrs. }
    rewrite (on_dsa_Ret _ _ _ _ _ _ (free_node_at _ _ _ Hp Hn1)). cbn [sn_value_dsa node_of].
    assert (Hlook : forall q, q ∉ item_ptrs it -> q <> i_ptr z ->
      hfree (i_ptr it) (hfree (i_vptr it) h1) !! q = h !! q).
    { intros q H1 H2. rewrite lookup_freed, decide_False by done. unfold h1. by rewrite lookup_insert_ne. }
    eexists. split; [|split].
    + cbn. do 3 f_equal. rewrite meta_snoc, length_app, head_ptr_snoc. cbn [length].
      replace (Z.of_nat (S (length zs + 1)) - 1) with (Z.of_nat (S (length zs))) by lia. by destruct zs.
    + eapply (repr_pop_back h); [exact Hr| |by rewrite last_ptr_snoc].
      intros z' zs' [<- <-]%app_inj_tail. rewrite lookup_freed, decide_False by done. unfold h1. apply lookup_insert_eq.
    + apply (pop_rest _ _ _ _ it); [|apply iowned_snoc|].
      * intros q Hq. by rewrite lookup_freed, decide_True by done.
      * intros q H1 H2. apply Hlook; [done|]. intros ->. apply H2, (elem_of_iowned _ z); [set_solver|apply ptr_in_ptrs].
Qed.

Lemma pop_empty h meta :
  list_repr h meta [] ->
  pg_redis_shared_list_lpop (Some h, meta) = (Ret None, (Some h, meta)) /\
  pg_redis_shared_list_rpop (Some h, meta) = (Ret None, (Some h, meta)).
Proof. intros [_ _ ->]. done. Qed.

(** ** Freeing and materialising *)

Lemma chain_free h its prev fuel :
  dseg h prev its InvalidDsaPointer -> NoDup (iowned its) -> (length its <= fuel)%nat ->
  exists h', free_chain fuel (head_ptr InvalidDsaPointer its) (Some h) = (Ret tt, Some h') /\
    forall q, h' !! q = if decide (q ∈ iowned its) then None else h !! q.
Proof.
  revert h prev fuel. induction its as [|it its IH]; intros h prev fuel Hs Ho Hf.
  { exists h. split; [by destruct fuel|]. intros q. by rewrite decide_False by set_solver. }
  destruct Hs as [[Hp Hn Hv] Hs]. apply own_cons in Ho as (Hnd & Hdis & Ho).
  destruct fuel as [|fuel]; cbn [length] in Hf; [lia|]. cbn [free_chain head_ptr].
  rewrite (proj2 (Z.eqb_neq _ _) Hp), bind_unfold. cbn [gets]. rewrite (not_null_at _ _ _ Hp Hn).
  rewrite (bind_Ret _ _ _ _ _ (load_node_at _ _ _ Hp Hn)), (bind_Ret _ _ _ _ _ (free_node_at _ _ _ Hp Hn)).
  cbn [sn_next sn_value_dsa node_of].
  destruct (IH (hfree (i_ptr it) (hfree (i_vptr it) h)) (i_ptr it) fuel) as (h' & E & Hl); [|done|lia|].
  { eapply dseg_agree; [|done]. intros q Hq. rewrite lookup_freed by done. rewrite decide_False; [done|].
    intros Hq'. by apply (Hdis q). }
  exists h'. split; [done|]. intros q. rewrite Hl, lookup_freed, iowned_cons by done.
  repeat case_decide; set_solver.
Qed.

(** Distinct nodes are distinct chunks, so the heap's size is fuel enough. *)
Lemma chain_length h prev its next : dseg h prev its next -> NoDup (iowned its) -> (length its <= size h)%nat.
Proof.
  intros Hs Ho.
  assert (Hd : NoDup (i_ptr <$> its)).
  { clear Hs. induction its as [|it its IH]; [constructor|]. apply own_cons in Ho as (_ & Hdis & Ho).
    cbn. constructor; [|by apply IH]. intros (z & E & Hz)%list_elem_of_fmap.
    apply (Hdis (i_ptr it)); [apply ptr_in_ptrs|]. rewrite E. by apply (elem_of_iowned _ z), ptr_in_ptrs. }
  assert (Hsub : list_to_set (i_ptr <$> its) ⊆ dom h).
  { intros q (z & -> & Hz)%elem_of_list_to_set%list_elem_of_fmap. apply elem_of_dom.
    eapply iowned_in; [done|]. by apply (elem_of_iowned _ z), ptr_in_ptrs. }
  apply subseteq_size in Hsub. rewrite size_list_to_set, length_fmap, size_dom in Hsub; done.
Qed.

Lemma list_free_spec h meta its :
  list_repr h meta its ->
  pg_redis_shared_list_free (Some h, meta) = (Ret tt, (Some (rest (ifoot its) h), empty_meta)).
Proof.
  intros [Hs Ho ->]. unfold pg_redis_shared_list_free. rewrite bind_unfold. cbn [gets snd chunk_count].
  destruct (chain_free h its InvalidDsaPointer (size h) Hs Ho (chain_length _ _ _ _ Hs Ho)) as (h' & E & Hl).
  rewrite (on_dsa_Ret (fun area => free_chain (chunk_count area) (lm_head (meta_of its)) area) _ (Some h) _ _ _ E).
  assert (h' = rest (ifoot its) h) as ->; [|done].
  apply map_eq. intros q. rewrite Hl, lookup_rest. unfold ifoot. repeat case_decide; set_solver.
Qed.

(** The scratch list: the items in order under their ordinals, none pending. *)
Definition scratch_node (it : item) : PgRedisListNode :=
  {| n_value := i_value it; n_ord := i_ord it; n_pending_insert := false |}.

Lemma chain_materialize h its prev fuel l :
  dseg h prev its InvalidDsaPointer -> (length its <= fuel)%nat ->
  exists l', materialize_chain (Some h) fuel (head_ptr InvalidDsaPointer its) l = Ret l' /\
    l_nodes l' = l_nodes l ++ (scratch_node <$> its) /\
    l_length l' = l_length l + Z.of_nat (length its) /\
    l_memory_usage l' = l_memory_usage l + nodes_memory (scratch_node <$> its) /\
    l_pending_delete_ords l' = l_pending_delete_ords l.
Proof.
  revert prev fuel l. induction its as [|it its IH]; intros prev fuel l Hs Hf.
  { exists l. split; [by destruct fuel|]. cbn. rewrite app_nil_r. repeat split; lia. }
  destruct Hs as [Hit Hs]. pose proof Hit as [Hp Hn Hv].
  destruct fuel as [|fuel]; cbn [length] in Hf; [lia|]. cbn [materialize_chain head_ptr].
  rewrite (proj2 (Z.eqb_neq _ _) Hp), (not_null_at _ _ _ Hp Hn).
  assert (shared_node (Some h) (i_ptr it) = Some (node_of prev (head_ptr InvalidDsaPointer its) it)) as ->.
  { unfold shared_node, pg_redis_shared_addr. by rewrite (proj2 (Z.eqb_neq _ _) Hp), Hn. }
  pose proof (copy_value_item _ _ _ _ Hit) as Hc. unfold copy_value_out in Hc. rewrite Hc.
  cbn [sn_next sn_ord node_of].
  set (l1 := stamp_tail _ _).
  destruct (IH (i_ptr it) fuel l1 Hs ltac:(lia)) as (l' & E & H1 & H2 & H3 & H4).
  exists l'. split; [done|]. rewrite H1, H2, H3, H4. unfold l1, stamp_tail, pg_redis_list_rpush.
  destruct (negb (l_ord_initialized l)); cbn [snd l_nodes l_length l_memory_usage l_pending_delete_ords];
    rewrite reverse_snoc, reverse_involutive, fmap_cons; cbn [nodes_memory];
    unfold node_bytes; cbn [n_value scratch_node length]; rewrite <- app_assoc; repeat split; lia.
Qed.

Lemma list_materialize_spec h meta its :
  list_repr h meta its -> its <> [] ->
  exists l, pg_redis_shared_list_materialize meta (Some h) = Ret (Some l) /\
    l_nodes l = scratch_node <$> its /\ l_length l = Z.of_nat (length its) /\
    l_memory_usage l = nodes_memory (l_nodes l) /\ l_min_ord l = lm_min_ord meta /\
    l_max_ord l = lm_max_ord meta /\ l_ord_initialized l = true /\ l_pending_delete_ords l = [].
Proof.
  intros [Hs Ho ->] Hne. unfold pg_redis_shared_list_materialize.
  destruct (chain_materialize h its InvalidDsaPointer (size h) pg_redis_list_create_in Hs
    (chain_length _ _ _ _ Hs Ho)) as (l & E & H1 & H2 & H3 & H4).
  cbn [meta_of lm_head chunk_count]. rewrite E. destruct its as [|it its]; [done|].
  destruct Hs as [[Hp _ _] _]. cbn [head_ptr]. rewrite (proj2 (Z.eqb_neq _ _) Hp).
  eexists. split; [reflexivity|]. cbn [l_nodes l_length l_memory_usage l_min_ord l_max_ord l_ord_initialized l_pending_delete_ords].
  rewrite H1, H2, H3, H4. cbn. repeat split; lia.
Qed.

Lemma list_materialize_empty h meta :
  list_repr h meta [] -> pg_redis_shared_list_materialize meta (Some h) = Ret None.
Proof. by intros [_ _ ->]. Qed.
End ListOps.
