(* ===== verification/SharedListRefine.v ===== *)
(** * Runs of shared-list operations

    Sequences of operations of src/shared_list.c against a deque of values
    under ordinals. *)
From S2P Require Import Prelude Types ListValue SharedMem SharedHash SharedHashOps SharedList SharedListSpec.

Module SharedListRun.
Inductive op := LPUSH (v : bytes) | RPUSH (v : bytes) | LPOP | RPOP.
Inductive reply := RInt (n : Z) | RItem (x : option (bytes * Z)) | RErr (e : errcode).

Section Run.
Context `{DsaAllocator}.

Definition reply_of {A} (f : A -> reply) (x : outcome A) : reply :=
  match x with Ret a => f a | Raise e => RErr e end.

Definition step (o : op) (s : Dsa * PgRedisSharedListMeta) : reply * (Dsa * PgRedisSharedListMeta) :=
  match o with
  | LPUSH v => let '(r, s') := pg_redis_shared_list_lpush v s in (reply_of RInt r, s')
  | RPUSH v => let '(r, s') := pg_redis_shared_list_rpush v s in (reply_of RInt r, s')
  | LPOP => let '(r, s') := pg_redis_shared_list_lpop s in (reply_of RItem r, s')
  | RPOP => let '(r, s') := pg_redis_shared_list_rpop s in (reply_of RItem r, s')
  end.

Fixpoint run (os : list op) (s : Dsa * PgRedisSharedListMeta) : list reply * (Dsa * PgRedisSharedListMeta) :=
  match os with
  | [] => ([], s)
  | o :: os' => let '(r, s1) := step o s in let '(rs, s2) := run os' s1 in (r :: rs, s2)
  end.
End Run.

(** The specification: values under ordinals, the front one below and the back
    one above all others. *)
Definition deque := list (Z * bytes).

Definition spec_step (o : op) (d : deque) : reply * deque :=
  match o with
  | LPUSH v => (RInt (Z.of_nat (S (length d))),
                (match d with [] => 0 | x :: _ => x.1 - 1 end, trunc16 v) :: d)
  | RPUSH v => (RInt (Z.of_nat (S (length d))),
                d ++ [(match last d with None => 0 | Some x => x.1 + 1 end, trunc16 v)])
  | LPOP => match d with [] => (RItem None, []) | x :: d' => (RItem (Some (x.2, x.1)), d') end
  | RPOP => match last d with
            | None => (RItem None, d)
            | Some x => (RItem (Some (x.2, x.1)), take (length d - 1) d)
            end
  end.

Inductive spec_run : list op -> deque -> list reply -> deque -> Prop :=
| spec_done d : spec_run [] d [] d
| spec_next o os d r d1 rs d2 :
    spec_step o d = (r, d1) -> spec_run os d1 rs d2 -> spec_run (o :: os) d (r :: rs) d2
| spec_oom o v os d rs d2 :
    o = LPUSH v \/ o = RPUSH v ->
    spec_run os d rs d2 -> spec_run (o :: os) d (RErr ERRCODE_OUT_OF_MEMORY :: rs) d2.
End SharedListRun.

(** ** Ordinals *)

Lemma spec_step_sorted o d r d' :
  SharedListRun.spec_step o d = (r, d') -> StronglySorted Z.lt d.*1 -> StronglySorted Z.lt d'.*1.
Proof.
  destruct o as [v|v| |]; cbn [SharedListRun.spec_step].
  - intros [= <- <-] Hs. destruct d as [|x d]; cbn in *; [repeat constructor|].
    apply StronglySorted_cons in Hs as [Hf Hs]. apply StronglySorted_cons. split; [|by apply StronglySorted_cons].
    constructor; [lia|]. eapply Forall_impl; [done|]. cbn. lia.
  - intros [= <- <-] Hs. rewrite fmap_app. cbn. apply sorted_snoc. split; [done|].
    destruct (list_snoc_cases d) as [->|(d0 & x & ->)]; [constructor|]. rewrite last_snoc.
    rewrite fmap_app in *. cbn in *. apply sorted_snoc in Hs as [_ Hf]. apply Forall_app.
    split; [|constructor; [lia|constructor]]. eapply Forall_impl; [done|]. cbn. lia.
  - destruct d as [|x d]; intros [= <- <-] Hs; [done|]. cbn in Hs. by apply StronglySorted_cons in Hs as [_ ?].
  - destruct (last d); intros [= <- <-] Hs; [|done]. rewrite fmap_take.
    rewrite <- (take_drop (length d - 1) d.*1) in Hs. by apply StronglySorted_app_1_l in Hs.
Qed.

Lemma spec_run_sorted os d rs d' :
  SharedListRun.spec_run os d rs d' -> StronglySorted Z.lt d.*1 -> StronglySorted Z.lt d'.*1.
Proof. induction 1; [done|intros; eauto using spec_step_sorted|done]. Qed.

Section Claims.
Context `{DsaAllocator} `{!DsaLaws}.
Import SharedListRun.

Definition view (it : item) : Z * bytes := (i_ord it, i_value it).

Lemma back_ord_view its :
  back_ord its = match last (view <$> its) with None => 0 | Some x => x.1 + 1 end.
Proof. unfold back_ord. rewrite fmap_last. by destruct (last its). Qed.

Lemma front_ord_view its :
  front_ord its = match view <$> its with [] => 0 | x :: _ => x.1 - 1 end.
Proof. by destruct its. Qed.

Lemma list_step_refines o h its :
  list_repr h (meta_of its) its ->
  exists r h' its', step o (Some h, meta_of its) = (r, (Some h', meta_of its')) /\
    list_repr h' (meta_of its') its' /\ rest (ifoot its') h' = rest (ifoot its) h /\
    (spec_step o (view <$> its) = (r, view <$> its') \/
     (exists v, o = LPUSH v \/ o = RPUSH v) /\ r = RErr ERRCODE_OUT_OF_MEMORY /\ its' = its).
Proof.
  intros Hr. destruct o as [v|v| |]; cbn [step spec_step].
  - destruct (lpush_spec h _ its v Hr) as [E|(it & h' & E & Hr' & Ho & Hv & R)]; rewrite E.
    + do 3 eexists. split; [done|]. split; [done|]. split; [done|]. right. eauto.
    + do 3 eexists. split; [done|]. split; [done|]. split; [done|]. left.
      rewrite fmap_cons, length_fmap, <- front_ord_view, <- Ho, <- Hv. done.
  - destruct (rpush_spec h _ its v Hr) as [E|(it & h' & E & Hr' & Ho & Hv & R)]; rewrite E.
    + do 3 eexists. split; [done|]. split; [done|]. split; [done|]. right. eauto.
    + do 3 eexists. split; [done|]. split; [done|]. split; [done|]. left.
      rewrite fmap_app, length_fmap, <- back_ord_view, <- Ho, <- Hv. done.
  - destruct its as [|it its].
    + rewrite (proj1 (pop_empty h _ Hr)). do 3 eexists. split; [done|]. split; [done|]. split; [done|]. by left.
    + destruct (lpop_spec h _ it its Hr) as (h' & -> & Hr' & R).
      do 3 eexists. split; [done|]. split; [done|]. split; [done|]. by left.
  - destruct (list_snoc_cases its) as [->|(its0 & it & ->)].
    + rewrite (proj2 (pop_empty h _ Hr)). do 3 eexists. split; [done|]. split; [done|]. split; [done|]. by left.
    + destruct (rpop_spec h _ it its0 Hr) as (h' & -> & Hr' & R).
      do 3 eexists. split; [done|]. split; [done|]. split; [done|]. left.
      rewrite fmap_app. cbn [fmap list_fmap]. rewrite last_snoc. cbn. do 2 f_equal.
      rewrite length_app. cbn [length]. rewrite Nat.add_sub. apply take_app_length.
Qed.

Lemma list_run_refines os h its :
  list_repr h (meta_of its) its ->
  exists rs h' its', run os (Some h, meta_of its) = (rs, (Some h', meta_of its')) /\
    list_repr h' (meta_of its') its' /\ rest (ifoot its') h' = rest (ifoot its) h /\
    spec_run os (view <$> its) rs (view <$> its').
Proof.
  revert h its. induction os as [|o os IH]; intros h its Hr.
  { do 3 eexists. split; [done|]. split; [done|]. split; [done|]. constructor. }
  cbn [run]. destruct (list_step_refines o h its Hr) as (r & h1 & its1 & -> & Hr1 & R1 & Hs).
  destruct (IH h1 its1 Hr1) as (rs & h' & its' & -> & Hr' & R' & Hrun).
  do 3 eexists. split; [done|]. split; [done|]. split; [congruence|].
  destruct Hs as [Hs|((v & Hv) & -> & ->)]; [by eapply spec_next|by eapply spec_oom].
Qed.

(** C14: A shared list is a deque of values under strictly increasing ordinals,
    and leaks nothing.  From the empty list, in any heap and with any allocator,
    every sequence of LPUSH, RPUSH, LPOP and RPOP gives the replies of the
    deque, each popped value with the ordinal it was pushed under; a value is
    kept to its length modulo 65536 (the uint16 member); the only other reply is
    out-of-memory to a push, which changes nothing.  No dead pointer is
    followed, chunks of others stay as they were, and freeing the list at the
    end restores the heap exactly. *)
Theorem shared_list_refines_deque (os : list op) (h : Heap) :
  exists rs h' its,
    run os (Some h, empty_meta) = (rs, (Some h', meta_of its)) /\
    spec_run os [] rs (view <$> its) /\ list_repr h' (meta_of its) its /\
    StronglySorted Z.lt (i_ord <$> its) /\
    pg_redis_shared_list_free (Some h', meta_of its) = (Ret tt, (Some h, empty_meta)).
Proof.
  destruct (list_run_refines os h []) as (rs & h' & its & E & Hr & R & Hs).
  { split; [done|constructor|done]. }
  exists rs, h', its. split; [done|]. split; [done|]. split; [done|]. split.
  { apply spec_run_sorted in Hs; [|constructor]. by rewrite <- list_fmap_compose in Hs. }
  by rewrite (list_free_spec h' _ its Hr), R, rest_empty.
Qed.
End Claims.

(** Pushes on both sides and pops past the end. *)
Definition demo_list_ops : list SharedListRun.op :=
  [SharedListRun.RPUSH (bs "b"); SharedListRun.LPUSH (bs "a"); SharedListRun.RPUSH []; SharedListRun.RPOP;
   SharedListRun.LPOP; SharedListRun.LPOP; SharedListRun.LPOP; SharedListRun.LPUSH (bs "z")].

Lemma shared_list_refines_deque_witness :
  exists rs h' its,
    @SharedListRun.run (bump_allocator 1000) demo_list_ops (Some ∅, empty_meta) = (rs, (Some h', meta_of its)) /\
    SharedListRun.spec_run demo_list_ops [] rs (view <$> its) /\ list_repr h' (meta_of its) its /\
    StronglySorted Z.lt (i_ord <$> its) /\
    pg_redis_shared_list_free (Some h', meta_of its) = (Ret tt, (Some ∅, empty_meta)).
Proof.
  apply (@shared_list_refines_deque (bump_allocator 1000) (bump_laws 1000) demo_list_ops ∅).
Defined.

(** The replies of that run. *)
Example demo_list_replies :
  (@SharedListRun.run (bump_allocator 1000) demo_list_ops (Some ∅, empty_meta)).1 =
  [SharedListRun.RInt 1; SharedListRun.RInt 2; SharedListRun.RInt 3;
   SharedListRun.RItem (Some ([], 1)); SharedListRun.RItem (Some (bs "a", -1));
   SharedListRun.RItem (Some (bs "b", 0)); SharedListRun.RItem None; SharedListRun.RInt 1].
Proof. by vm_compute. Qed.
