(* ===== verification/SharedStore.v ===== *)
(** * The shared keyspace (src/shared_store.c)

    The shared table maps keys to fixed-size entries whose payloads are in the
    shared heap.  A command gets a private scratch copy, changes it and writes
    it back; the hash commands have direct paths.  Each function runs under the
    lock of the key's partition and is one step here.  The type tag and the
    union move together, so they are one sum.

    [HASH_ENTER] of a new key can find the table out of memory: [can_enter] is
    a parameter.  [now] is [GetCurrentTimestamp()]. *)
From S2P Require Import Prelude Types ListValue HashValue StoreInterface SharedMem SharedHash SharedList.

Inductive SharedValue :=
| SString (dsa_value : dsa_pointer) (value_len : Z)
| SInt (int_value : Z)
| SHash (table : dsa_pointer) (field_count : Z)
| SList (meta : PgRedisSharedListMeta).

Record PgRedisSharedEntry := {
  se_value : SharedValue;
  se_expire_at : Z;
  se_has_expire : bool;
  se_version : Z
}.

Definition se_type (se : PgRedisSharedEntry) : PgRedisValueType :=
  match se_value se with
  | SString _ _ => PG_REDIS_TYPE_STRING
  | SInt _ => PG_REDIS_TYPE_INT
  | SHash _ _ => PG_REDIS_TYPE_HASH
  | SList _ => PG_REDIS_TYPE_LIST
  end.

Abbreviation Keyspace := (gmap bytes PgRedisSharedEntry).

(** [ss_keyspace] is [None] when the shared table or the locks are missing. *)
Record SharedStore := { ss_keyspace : option Keyspace; ss_dsa : Dsa }.

Class KeyspaceLimit := can_enter : Keyspace -> bool.

(** The zeroed union read at a type; the ordinal bounds of a list are not
    read while [ord_initialized] is false. *)
Definition zero_value (ty : PgRedisValueType) : SharedValue :=
  match ty with
  | PG_REDIS_TYPE_STRING => SString InvalidDsaPointer 0
  | PG_REDIS_TYPE_INT => SInt 0
  | PG_REDIS_TYPE_HASH => SHash InvalidDsaPointer 0
  | PG_REDIS_TYPE_LIST =>
      SList {| lm_head := InvalidDsaPointer; lm_tail := InvalidDsaPointer; lm_length := 0;
               lm_min_ord := 0; lm_max_ord := 0; lm_ord_initialized := false |}
  end.

Definition se_expired (now : Z) (se : PgRedisSharedEntry) : bool :=
  se_has_expire se && (se_expire_at se <=? now).

Section SharedStore.
Context `{DsaAllocator} `{HashBytes} `{KeyspaceLimit}.

(** ** Scratch copies *)

Definition materialize_value (area : Dsa) (v : SharedValue) : outcome PgRedisValue :=
  match v with
  | SString p n =>
      if negb (shared_null area p) && (0 <? n)
      then match shared_bytes area p with
           | Some src => Ret (VString (Some (take (Z.to_nat n) src)))
           | None => Raise SEGMENTATION_FAULT
           end
      else Ret (VString None)
  | SInt i => Ret (VInt i)
  | SHash table _ =>
      match pg_redis_shared_hash_materialize table area with
      | Ret h => Ret (VHash h)
      | Raise e => Raise e
      end
  | SList meta =>
      match pg_redis_shared_list_materialize meta area with
      | Ret l => Ret (VList l)
      | Raise e => Raise e
      end
  end.

Definition materialize_scratch (area : Dsa) (se : PgRedisSharedEntry) : outcome PgRedisEntry :=
  match materialize_value area (se_value se) with
  | Raise e => Raise e
  | Ret v => Ret {| e_value := v; e_expire_at := se_expire_at se; e_has_expire := se_has_expire se;
                    e_dirty := false; e_deleted := false; e_in_dirty_set := false;
                    e_version := se_version se |}
  end.

(** ** Payloads *)

(** [pg_redis_shared_list_free] of a meta record on the stack. *)
Definition free_list_of (meta : PgRedisSharedListMeta) : M Dsa unit := fun area =>
  let '(r, (area', _)) := pg_redis_shared_list_free (area, meta) in (r, area').

Definition pg_redis_shared_entry_release_payloads (se : PgRedisSharedEntry) : M Dsa PgRedisSharedEntry :=
  v ← match se_value se with
      | SString p _ => modify (pg_redis_shared_pfree p) ;; mret (SString InvalidDsaPointer 0)
      | SInt _ => mret (SInt 0)
      | SHash table _ => pg_redis_shared_hash_free table ;; mret (SHash InvalidDsaPointer 0)
      | SList meta =>
          free_list_of meta ;; mret (SList empty_meta)
      end;
  mret {| se_value := v; se_expire_at := se_expire_at se; se_has_expire := se_has_expire se;
          se_version := se_version se |}.

(** The fields in scan order; returns the count of new ones added to [count]. *)
Fixpoint set_fields (l : list (bytes * bytes)) (count : Z) : M (Dsa * dsa_pointer) Z :=
  match l with
  | [] => mret count
  | (f, v) :: l' =>
      was_new ← pg_redis_shared_hash_set f v;
      set_fields l' (if was_new : bool then count + 1 else count)
  end.

Fixpoint del_fields (l : list bytes) (count : Z) : M (Dsa * dsa_pointer) Z :=
  match l with
  | [] => mret count
  | f :: l' =>
      removed ← pg_redis_shared_hash_del f;
      del_fields l' (if removed : bool then count - 1 else count)
  end.

Fixpoint push_values (l : list bytes) : M (Dsa * PgRedisSharedListMeta) unit :=
  match l with
  | [] => mret tt
  | v :: l' => _ ← pg_redis_shared_list_rpush v; push_values l'
  end.

(** The union that [populate_shared_from_scratch] builds; what it has
    allocated is freed again when a step raises. *)
Definition build_hash (fields : list (bytes * bytes)) : M Dsa SharedValue := fun area =>
  match set_fields fields 0 (area, InvalidDsaPointer) with
  | (Ret count, (area', table)) => (Ret (SHash table count), area')
  | (Raise e, (area', table)) =>
      match pg_redis_shared_hash_free table area' with
      | (Ret _, area'') => (Raise e, area'')
      | (Raise e', area'') => (Raise e', area'')
      end
  end.

Definition build_list (values : list bytes) : M Dsa SharedValue := fun area =>
  match push_values values (area, empty_meta) with
  | (Ret _, (area', meta)) => (Ret (SList meta), area')
  | (Raise e, (area', meta)) =>
      match pg_redis_shared_list_free (area', meta) with
      | (Ret _, (area'', _)) => (Raise e, area'')
      | (Raise e', (area'', _)) => (Raise e', area'')
      end
  end.

Definition build_string (s : bytes) : M Dsa SharedValue :=
  p ← alloc_value s;
  if (0 <? blen s) && (p =? InvalidDsaPointer) then ereport ERRCODE_OUT_OF_MEMORY
  else mret (SString p (blen s)).

Definition scratch_fields (h : PgRedisHash) : list (bytes * bytes) :=
  prod_map id f_value <$> map_to_list (h_fields h).

Definition build_value (v : PgRedisValue) : M Dsa SharedValue :=
  match v with
  | VString s => build_string (default [] s)
  | VInt i => mret (SInt i)
  | VHash h => build_hash (from_option scratch_fields [] h)
  | VList l => build_list (from_option (fun l => n_value <$> l_nodes l) [] l)
  end.

(** The entry with the scratch's header and a value. *)
Definition entry_with (e : PgRedisEntry) (v : SharedValue) : PgRedisSharedEntry :=
  {| se_value := v; se_expire_at := e_expire_at e; se_has_expire := e_has_expire e;
     se_version := e_version e |}.

(** The header is written before the payload is built: an error leaves the
    entry with the new type and the zeroed union. *)
Definition populate_shared_from_scratch (key : bytes) (e : PgRedisEntry) (ks : Keyspace)
    : M SharedStore unit := fun s =>
  match build_value (e_value e) (ss_dsa s) with
  | (Ret v, area) =>
      (Ret tt, {| ss_keyspace := Some (<[key := entry_with e v]> ks); ss_dsa := area |})
  | (Raise err, area) =>
      (Raise err, {| ss_keyspace := Some (<[key := entry_with e (zero_value (e_type e))]> ks);
                     ss_dsa := area |})
  end.

(** ** Lookup, upsert, remove *)

Definition pg_redis_shared_store_lookup_raw (key : bytes) : M SharedStore (option PgRedisEntry) := fun s =>
  match ss_keyspace s with
  | None => (Ret None, s)
  | Some ks =>
      match ks !! key with
      | None => (Ret None, s)
      | Some se => match materialize_scratch (ss_dsa s) se with
                   | Ret e => (Ret (Some e), s)
                   | Raise err => (Raise err, s)
                   end
      end
  end.

(** [release_payloads] in the store's state. *)
Definition release_in_store (se : PgRedisSharedEntry) : M SharedStore PgRedisSharedEntry := fun s =>
  let '(r, area) := pg_redis_shared_entry_release_payloads se (ss_dsa s) in
  (r, {| ss_keyspace := ss_keyspace s; ss_dsa := area |}).

Definition set_keyspace (ks : Keyspace) : M SharedStore unit :=
  modify (fun s => {| ss_keyspace := Some ks; ss_dsa := ss_dsa s |}).

Definition pg_redis_shared_store_remove (key : bytes) : M SharedStore bool :=
  oks ← gets ss_keyspace;
  match oks with
  | None => mret false
  | Some ks =>
      match ks !! key with
      | None => mret false
      | Some se => _ ← release_in_store se; set_keyspace (delete key ks) ;; mret true
      end
  end.

(** The entry, and whether it was found expired. *)
Definition pg_redis_shared_store_lookup (now : Z) (key : bytes)
    : M SharedStore (option PgRedisEntry * bool) :=
  oe ← pg_redis_shared_store_lookup_raw key;
  match oe with
  | None => mret (None, false)
  | Some e =>
      if e_has_expire e && (e_expire_at e <=? now)
      then _ ← pg_redis_shared_store_remove key; mret (None, true)
      else mret (Some e, false)
  end.

Definition fresh_shared_entry : PgRedisSharedEntry :=
  {| se_value := SString InvalidDsaPointer 0; se_expire_at := 0; se_has_expire := false; se_version := 1 |}.

Definition scratch_copy (se : PgRedisSharedEntry) : M SharedStore PgRedisEntry := fun s =>
  (materialize_scratch (ss_dsa s) se, s).

(** The scratch and [is_new]. *)
Definition pg_redis_shared_store_upsert (now : Z) (key : bytes) : M SharedStore (PgRedisEntry * bool) :=
  oks ← gets ss_keyspace;
  match oks with
  | None => ereport ERRCODE_INTERNAL_ERROR
  | Some ks =>
      match ks !! key with
      | None =>
          if negb (can_enter ks) then ereport ERRCODE_OUT_OF_MEMORY
          else
            set_keyspace (<[key := fresh_shared_entry]> ks) ;;
            e ← scratch_copy fresh_shared_entry;
            mret (e, true)
      | Some se =>
          if se_expired now se then
            _ ← release_in_store se;
            set_keyspace (<[key := fresh_shared_entry]> ks) ;;
            e ← scratch_copy fresh_shared_entry;
            mret (e, true)
          else
            e ← scratch_copy se;
            mret (e, false)
      end
  end.

(** Two passes: every payload is freed, then every collected key removed. *)
Definition pg_redis_shared_store_reset_all : M SharedStore Z :=
  oks ← gets ss_keyspace;
  match oks with
  | None => mret 0
  | Some ks =>
      for_each (map_to_list ks) (fun p =>
        se ← release_in_store p.2;
        modify (fun s => {| ss_keyspace := insert p.1 se <$> ss_keyspace s; ss_dsa := ss_dsa s |})) ;;
      for_each (map_to_list ks).*1 (fun k =>
        modify (fun s => {| ss_keyspace := delete k <$> ss_keyspace s; ss_dsa := ss_dsa s |})) ;;
      mret (Z.of_nat (size ks))
  end.

(** ** Writeback *)

(** The dirty fields are set and the tombstones deleted in the table; the new
    table pointer and count reach the entry only when no step raised. *)
Definition surgical_apply_hash (table : dsa_pointer) (field_count : Z) (oh : option PgRedisHash)
    : M Dsa SharedValue := fun area =>
  let '(dirty, tombs) := match oh with
                         | Some h => (dirty_fields h, h_tombstones h)
                         | None => ([], [])
                         end in
  match (c ← set_fields dirty field_count; del_fields tombs c) (area, table) with
  | (Ret count, (area', table')) => (Ret (SHash table' count), area')
  | (Raise e, (area', _)) => (Raise e, area')
  end.

Definition pg_redis_shared_store_writeback (key : bytes) (e : PgRedisEntry) : M SharedStore unit :=
  oks ← gets ss_keyspace;
  match oks with
  | None => mret tt
  | Some ks =>
      match ks !! key with
      | None =>
          if negb (can_enter ks) then ereport ERRCODE_OUT_OF_MEMORY
          else populate_shared_from_scratch key e ks
      | Some se =>
          match se_value se, e_value e with
          | SHash table count, VHash oh => fun s =>
              match surgical_apply_hash table count oh (ss_dsa s) with
              | (Ret v, area) =>
                  (Ret tt, {| ss_keyspace := Some (<[key := entry_with e v]> ks); ss_dsa := area |})
              | (Raise err, area) =>
                  (Raise err, {| ss_keyspace := Some (<[key := entry_with e (SHash table count)]> ks);
                                 ss_dsa := area |})
              end
          | _, _ => _ ← release_in_store se; populate_shared_from_scratch key e ks
          end
      end
  end.

(** ** Direct paths of the hash commands *)

Definition pg_redis_shared_hash_lookup_field (now : Z) (key field : bytes) (want_value : bool)
    : M SharedStore PgRedisFastHashOutcome := fun s =>
  match ss_keyspace s with
  | None => (Ret PG_REDIS_FAST_HASH_KEY_MISS, s)
  | Some ks =>
      match ks !! key with
      | None => (Ret PG_REDIS_FAST_HASH_KEY_MISS, s)
      | Some se =>
          if se_expired now se then (Ret PG_REDIS_FAST_HASH_KEY_EXPIRED, s)
          else match se_value se with
               | SHash table _ =>
                   if want_value then
                     match pg_redis_shared_hash_get table field (ss_dsa s) with
                     | Raise e => (Raise e, s)
                     | Ret None => (Ret PG_REDIS_FAST_HASH_FIELD_MISS, s)
                     | Ret (Some v) => (Ret (PG_REDIS_FAST_HASH_HIT v), s)
                     end
                   else
                     match pg_redis_shared_hash_exists table field (ss_dsa s) with
                     | Raise e => (Raise e, s)
                     | Ret false => (Ret PG_REDIS_FAST_HASH_FIELD_MISS, s)
                     | Ret true => (Ret (PG_REDIS_FAST_HASH_HIT []), s)
                     end
               | _ => (Ret (PG_REDIS_FAST_HASH_WRONGTYPE (se_type se)), s)
               end
      end
  end.
End SharedStore.
