(* ===== verification/SharedStoreSpec.v ===== *)
(** * The shared keyspace stands for a map of values

    [store_repr s V R]: the store [s] holds the keys and values [V], each
    payload in chunks of its own, and [R] is the heap beside them.  The
    operations of src/shared_store.c are related to updates of [V]; [R] never
    changes, so no operation leaks a chunk or touches one it does not own. *)
From S2P Require Import Prelude Types ListValue HashValue StoreInterface SharedMem SharedHash SharedHashSpec.
From S2P Require Import SharedHashOps SharedHashRefine SharedList SharedListSpec SharedStore.

Section Spec.
Context `{DsaAllocator} `{HashBytes} `{KeyspaceLimit} `{!DsaLaws}.

(** ** Values *)

Definition list_value (h : Heap) (meta : PgRedisSharedListMeta) (its : list item) : Prop :=
  list_repr h meta its \/ (its = [] /\ lm_head meta = InvalidDsaPointer).

Definition value_repr (h : Heap) (v : SharedValue) (a : AVal) (F : gset dsa_pointer) : Prop :=
  match v, a with
  | SString p n, AString None => p = InvalidDsaPointer /\ n = 0 /\ F = ∅
  | SString p n, AString (Some s) =>
      s <> [] /\ shared_bytes (Some h) p = Some s /\ n = blen s /\ F = {[p]}
  | SInt i, AInt j => i = j /\ F = ∅
  | SHash t c, AHash m => hash_repr h t m F /\ c = Z.of_nat (size m)
  | SList meta, AList q => exists its, list_value h meta its /\ q = i_value <$> its /\ F = ifoot its
  | _, _ => False
  end.

Lemma hash_repr_agree h h' p m F :
  hash_repr h p m F -> (forall q, q ∈ F -> h' !! q = h !! q) -> hash_repr h' p m F.
Proof.
  intros [?|(t & Ha & -> & ->)] Hq; [by left|]. right. exists t.
  assert (Hown : forall q, q ∈ owned (live (t_buckets t)) -> h' !! q = h !! q).
  { intros q ?. apply Hq. unfold foot. set_solver. }
  split; [|split; [|done]].
  - destruct Ha. split; try done; [|by eapply table_ok_agree]. rewrite Hq; [done|]. unfold foot. set_solver.
  - symmetry. by apply contents_agree.
Qed.

Lemma list_repr_agree h h' meta its :
  list_value h meta its -> (forall q, q ∈ ifoot its -> h' !! q = h !! q) -> list_value h' meta its.
Proof.
  intros [[Hs Ho Hm]|?] Hq; [left|by right]. split; [|done|done]. eapply dseg_agree; [|done].
  intros q ?. apply Hq. unfold ifoot. set_solver.
Qed.

Lemma value_repr_agree h h' v a F :
  value_repr h v a F -> (forall q, q ∈ F -> h' !! q = h !! q) -> value_repr h' v a F.
Proof.
  intros Hv Hq. destruct v as [p n|i|t c|meta], a as [[s|]|j|m|q]; cbn in *; try done.
  - destruct Hv as (? & Hb & ? & ->). split; [done|]. split; [|done].
    apply shared_bytes_Some in Hb as [? Hb]. apply shared_bytes_Some. split; [done|]. rewrite Hq; [done|set_solver].
  - destruct Hv as [? ?]. split; [|done]. by eapply hash_repr_agree.
  - destruct Hv as (its & ? & ? & ->). exists its. split; [|done]. by eapply list_repr_agree.
Qed.

Lemma list_value_in h meta its q :
  list_value h meta its -> q ∈ ifoot its -> is_Some (h !! q).
Proof.
  unfold ifoot. rewrite elem_of_list_to_set. intros [[Hs _ _]|[-> _]] Hq; [|by apply elem_of_nil in Hq].
  by eapply (iowned_in _ _ _ _ _ Hs) in Hq as [_ ?].
Qed.

Lemma value_repr_in h v a F q : value_repr h v a F -> q ∈ F -> is_Some (h !! q).
Proof.
  intros Hv Hq. destruct v as [p n|i|t c|meta], a as [[s|]|j|m|x]; cbn in *; try done.
  - destruct Hv as (? & [_ Hb]%shared_bytes_Some & ? & ->). apply elem_of_singleton in Hq as ->. eauto.
  - destruct Hv as (? & ? & ->). set_solver.
  - destruct Hv as (? & ->). set_solver.
  - destruct Hv as [[(_ & _ & ->)|(t' & Ha & _ & ->)] _]; [set_solver|]. by eapply foot_in.
  - destruct Hv as (its & ? & ? & ->). by eapply list_value_in.
Qed.

(** ** Releasing *)

Lemma list_value_free h meta its :
  list_value h meta its -> free_list_of meta (Some h) = (Ret tt, Some (rest (ifoot its) h)).
Proof.
  unfold free_list_of. intros [Hr|[-> Hm]].
  { pose proof (list_free_spec h meta its Hr) as E. unfold Dsa in *. by rewrite E. }
  unfold pg_redis_shared_list_free. rewrite bind_unfold. cbn [gets snd]. rewrite Hm, bind_unfold. unfold on_dsa. cbn [fst snd].
  assert (free_chain (chunk_count (Some h)) InvalidDsaPointer (Some h) = (Ret tt, Some h)) as ->.
  { by destruct (chunk_count (Some h)). }
  cbn. by rewrite rest_empty.
Qed.

(** The type tag survives, the payload is gone. *)
Definition released (v : SharedValue) : SharedValue :=
  match v with
  | SString _ _ => SString InvalidDsaPointer 0
  | SInt _ => SInt 0
  | SHash _ _ => SHash InvalidDsaPointer 0
  | SList _ => SList empty_meta
  end.

Definition with_value (v : SharedValue) (se : PgRedisSharedEntry) : PgRedisSharedEntry :=
  {| se_value := v; se_expire_at := se_expire_at se; se_has_expire := se_has_expire se;
     se_version := se_version se |}.

Lemma release_spec h se a F :
  value_repr h (se_value se) a F ->
  pg_redis_shared_entry_release_payloads se (Some h) =
    (Ret (with_value (released (se_value se)) se), Some (rest F h)).
Proof.
  intros Hv. unfold pg_redis_shared_entry_release_payloads. rewrite bind_unfold. unfold with_value.
  destruct (se_value se) as [p n|i|t c|meta], a as [[s|]|j|m|q]; cbn [value_repr released] in *; try done.
  - destruct Hv as (_ & [Hp Hb]%shared_bytes_Some & _ & ->). rewrite bind_unfold. unfold modify. rewrite pfree_hfree.
    cbn. do 3 f_equal. apply map_eq. intros q. rewrite lookup_hfree, lookup_rest.
    pose proof (elem_of_vptrs q p). repeat case_decide; set_solver.
  - destruct Hv as (-> & _ & ->). by rewrite rest_empty.
  - destruct Hv as (_ & ->). by rewrite rest_empty.
  - destruct Hv as (Hr & _). by rewrite (bind_Ret _ _ _ _ _ (shared_free_spec _ _ _ _ Hr)).
  - destruct Hv as (its & Hl & _ & ->). by rewrite (bind_Ret _ _ _ _ _ (list_value_free h meta its Hl)).
Qed.

(** ** Materialising *)

Lemma materialize_value_spec h v a F :
  value_repr h v a F ->
  exists pv, materialize_value (Some h) v = Ret pv /\ val_view pv = a /\
    match pv, a with
    | VHash (Some sh), AHash m => hash_wf sh /\ h_tombstones sh = [] /\ hash_synced m sh
    | VList (Some l), AList q => l_pending_delete_ords l = []
    | _, _ => True
    end.
Proof.
  intros Hv. destruct v as [p n|i|t c|meta], a as [[s|]|j|m|q]; cbn [value_repr materialize_value] in *; try done.
  - destruct Hv as (Hne & Hb & -> & _). exists (VString (Some s)). split; [|done].
    pose proof Hb as Hb'. apply shared_bytes_Some in Hb' as [Hp Hl]. rewrite (not_null_at _ _ _ Hp Hl), Hb. cbn [negb andb].
    unfold blen. destruct s as [|x s]; [done|]. cbn [length].
    rewrite (proj2 (Z.ltb_lt 0 _)) by lia. rewrite take_ge by (cbn; lia). done.
  - destruct Hv as (-> & -> & _). exists (VString None). done.
  - destruct Hv as (-> & _). exists (VInt j). done.
  - destruct Hv as (Hr & _). destruct (shared_materialize_spec h t m F Hr) as (osh & -> & Hsh).
    exists (VHash osh). split; [done|]. destruct osh as [sh|]; cbn [val_view from_option].
    + destruct Hsh as (Hw & Hf & Ht).
      assert (Hview : hash_view sh = m).
      { unfold hash_view. rewrite Hf, <- map_fmap_compose. apply map_fmap_id. }
      split; [by rewrite Hview|]. split; [done|]. split; [done|]. intros f. rewrite Hf, lookup_fmap.
      destruct (m !! f); cbn; [done|by right].
    + by rewrite Hsh.
  - destruct Hv as (its & Hl & -> & ->). destruct (decide (its = [])) as [->|Hne].
    + exists (VList None). split; [|done].
      assert (lm_head meta = InvalidDsaPointer) as E by (by destruct Hl as [[_ _ ->]|[_ ?]]).
      unfold pg_redis_shared_list_materialize. by rewrite E.
    + destruct Hl as [Hr|[? _]]; [|done].
      destruct (list_materialize_spec h meta its Hr Hne) as (l & -> & Hn & _ & _ & _ & _ & _ & Hp).
      exists (VList (Some l)). split; [done|]. split; [|done].
      cbn [val_view from_option]. unfold Deque.items. by rewrite Hn, <- list_fmap_compose.
Qed.

(** ** Building *)

(** The errors of an allocation: no memory, or a hash value over 65535 bytes. *)
Definition mem_error (e : errcode) : Prop := e = ERRCODE_OUT_OF_MEMORY \/ e = ERRCODE_PROGRAM_LIMIT_EXCEEDED.

Definition put_fields (l : list (bytes * bytes)) (m : gmap bytes bytes) : gmap bytes bytes :=
  foldl (fun m q => <[q.1 := q.2]> m) m l.

Lemma put_fields_union l m : NoDup l.*1 -> put_fields l m = list_to_map l ∪ m.
Proof.
  revert m. induction l as [|[f v] l IH]; intros m Hn; cbn; [by rewrite map_empty_union|].
  apply NoDup_cons in Hn as [Hf Hn]. unfold put_fields in IH. rewrite IH by done. cbn.
  rewrite <- insert_union_l, <- insert_union_r; [done|]. by apply not_elem_of_list_to_map.
Qed.

Lemma set_fields_spec l h p m F :
  hash_repr h p m F -> Forall (fun q => blen q.1 <= PG_REDIS_MAX_FIELD_SIZE) l ->
  exists h' p' m' F', (set_fields l (Z.of_nat (size m)) (Some h, p)).2 = (Some h', p') /\
    rest F' h' = rest F h /\ hash_repr h' p' m' F' /\
    match (set_fields l (Z.of_nat (size m)) (Some h, p)).1 with
    | Ret c => c = Z.of_nat (size m') /\ m' = put_fields l m
    | Raise e => mem_error e
    end.
Proof.
  revert h p m F. induction l as [|[f v] l IH]; intros h p m F Hr Hl; cbn [set_fields].
  { exists h, p, m, F. done. }
  apply Forall_cons in Hl as [Hf Hl]. cbn [fst] in Hf. rewrite bind_unfold.
  destruct (shared_set_spec h p m F f v Hr Hf) as (h1 & p1 & F1 & E1 & R1 & Hx).
  destruct (pg_redis_shared_hash_set f v (Some h, p)) as [[b|e] s1]; cbn [fst snd] in *; subst s1.
  - destruct Hx as [-> Hr1].
    assert (Hc : (if bool_decide (m !! f = None) then Z.of_nat (size m) + 1 else Z.of_nat (size m))
                 = Z.of_nat (size (<[f := v]> m))).
    { case_bool_decide as Hm; [rewrite map_size_insert_None by done; lia|].
      rewrite map_size_insert_Some; [done|]. by destruct (m !! f); eauto. }
    rewrite Hc. destruct (IH h1 p1 _ F1 Hr1 Hl) as (h' & p' & m' & F' & E' & R' & Hr' & Hx').
    exists h', p', m', F'. split; [done|]. split; [congruence|]. done.
  - destruct Hx as [-> Hr1]. exists h1, p1, m, F1. split; [done|]. split; [done|]. split; [done|].
    unfold mem_error. destruct (_ <? _); auto.
Qed.

Definition drop_fields (l : list bytes) (m : gmap bytes bytes) : gmap bytes bytes :=
  foldl (fun m f => delete f m) m l.

Lemma del_fields_spec l h p m F :
  hash_repr h p m F ->
  exists h' p' F', del_fields l (Z.of_nat (size m)) (Some h, p) =
      (Ret (Z.of_nat (size (drop_fields l m))), (Some h', p')) /\
    rest F' h' = rest F h /\ hash_repr h' p' (drop_fields l m) F'.
Proof.
  revert h p m F. induction l as [|f l IH]; intros h p m F Hr; cbn [del_fields drop_fields foldl].
  { exists h, p, F. done. }
  rewrite bind_unfold. destruct (shared_del_spec h p m F f Hr) as (h1 & p1 & F1 & E1 & R1 & Hx).
  destruct (pg_redis_shared_hash_del f (Some h, p)) as [[b|e] s1]; cbn [fst snd] in *; subst s1; [|by destruct Hx].
  destruct Hx as [-> Hr1].
  assert (Hc : (if bool_decide (is_Some (m !! f)) then Z.of_nat (size m) - 1 else Z.of_nat (size m))
               = Z.of_nat (size (delete f m))).
  { case_bool_decide as Hm.
    - assert (size m <> 0)%nat by (apply map_size_non_empty_iff; intros ->; by destruct Hm).
      rewrite map_size_delete_Some by done. lia.
    - rewrite delete_id; [done|]. by apply eq_None_not_Some. }
  rewrite Hc. destruct (IH h1 p1 _ F1 Hr1) as (h' & p' & F' & E' & R' & Hr').
  exists h', p', F'. split; [done|]. split; [congruence|done].
Qed.

Lemma push_values_spec l h its :
  list_repr h (meta_of its) its ->
  exists h' its', (push_values l (Some h, meta_of its)).2 = (Some h', meta_of its') /\
    list_repr h' (meta_of its') its' /\ rest (ifoot its') h' = rest (ifoot its) h /\
    match (push_values l (Some h, meta_of its)).1 with
    | Ret _ => i_value <$> its' = (i_value <$> its) ++ (trunc16 <$> l)
    | Raise e => e = ERRCODE_OUT_OF_MEMORY
    end.
Proof.
  revert h its. induction l as [|v l IH]; intros h its Hr; cbn [push_values].
  { exists h, its. cbn. by rewrite app_nil_r. }
  rewrite bind_unfold.
  destruct (rpush_spec h _ its v Hr) as [E|(it & h1 & E & Hr1 & _ & Hv & R1)]; unfold Dsa in *; rewrite E.
  - exists h, its. done.
  - destruct (IH h1 _ Hr1) as (h' & its' & E' & Hr' & R' & Hx).
    exists h', its'. split; [done|]. split; [done|]. split; [congruence|].
    destruct (push_values l (Some h1, meta_of (its ++ [it]))) as [[?|e] s'] eqn:Ep; cbn [fst] in *; [|done].
    rewrite Hx, fmap_app, fmap_cons, <- app_assoc. cbn. by rewrite Hv.
Qed.

(** What a value becomes in shared memory: the empty string is no string, list
    elements keep their length modulo 65536. *)
Definition stored (a : AVal) : AVal :=
  match a with
  | AString (Some []) => AString None
  | AList q => AList (trunc16 <$> q)
  | _ => a
  end.

Definition scratch_ok (v : PgRedisValue) : Prop :=
  match v with VHash (Some h) => hash_wf h | _ => True end.

Lemma scratch_fields_view h : list_to_map (scratch_fields h) = hash_view h /\ NoDup (scratch_fields h).*1.
Proof.
  unfold scratch_fields, hash_view. split.
  - by rewrite list_to_map_fmap, list_to_map_to_list.
  - rewrite <- list_fmap_compose. apply NoDup_fst_map_to_list.
Qed.

(** Success builds the value in new chunks; an error leaves the heap as it was. *)
Definition built (h : Heap) (a : AVal) (x : outcome SharedValue * Dsa) : Prop :=
  match x with
  | (Ret v, area) => exists h' F, area = Some h' /\ rest F h' = h /\ value_repr h' v a F
  | (Raise e, area) => area = Some h /\ mem_error e
  end.

Lemma build_value_spec h v : scratch_ok v -> built h (stored (val_view v)) (build_value v (Some h)).
Proof.
  intros Hok. destruct v as [s|i|oh|ol]; cbn [build_value val_view stored scratch_ok] in *.
  - assert (E : match s with Some [] => AString None | _ => AString s end
                = match default [] s with [] => AString None | x => AString (Some x) end) by (by destruct s as [[]|]).
    rewrite E. clear E. generalize (default [] s). intros b. unfold build_string. rewrite bind_unfold.
    destruct (alloc_value_cases b h) as (p & h' & Ea & Hcase). rewrite Ea.
    destruct ((0 <? blen b) && (p =? InvalidDsaPointer)); [by subst; split; [|left]|].
    exists h', (list_to_set (vptrs p)). split; [done|]. destruct Hcase as [Hb Hf Hs]. split.
    + rewrite <- (rest_empty h). apply rest_eq; [set_solver|intros q; rewrite elem_of_list_to_set; auto|].
      intros q _. rewrite elem_of_list_to_set. apply Hs.
    + destruct b as [|x b]; cbn [blen length] in *.
      * change (blen [] =? 0) with true in Hb. cbn in Hb. subst p. done.
      * assert (blen (x :: b) =? 0 = false) as E by (apply Z.eqb_neq; unfold blen; cbn; lia). rewrite E in Hb.
        split; [done|]. split; [done|]. split; [done|]. apply shared_bytes_Some in Hb as [Hp _].
        unfold vptrs. rewrite (proj2 (Z.eqb_neq _ _) Hp). cbn. set_solver.
  - exists h, ∅. by rewrite rest_empty.
  - assert (Hfs : Forall (fun q => blen q.1 <= PG_REDIS_MAX_FIELD_SIZE) (from_option scratch_fields [] oh)).
    { destruct oh as [sh|]; [|constructor]. cbn. unfold scratch_fields. apply Forall_fmap, Forall_forall.
      intros [f fl] Hin%elem_of_map_to_list. by apply (hw_names _ Hok) in Hin. }
    unfold build_hash.
    destruct (set_fields_spec _ h InvalidDsaPointer ∅ ∅ ltac:(by left) Hfs) as (h' & p' & m' & F' & E & R & Hr & Hx).
    rewrite map_size_empty in E, Hx. change (Z.of_nat 0) with 0 in E, Hx.
    unfold Dsa in *. destruct (set_fields _ 0 (Some h, InvalidDsaPointer)) as [[c|e] s']; cbn [fst snd] in *; subst s'.
    + destruct Hx as [-> ->]. exists h', F'. split; [done|]. split; [by rewrite R, rest_empty|].
      assert (Em : put_fields (from_option scratch_fields [] oh) ∅ = from_option hash_view ∅ oh).
      { destruct oh as [sh|]; [|done]. cbn [from_option]. destruct (scratch_fields_view sh) as [Ev Hn].
        by rewrite put_fields_union, map_union_empty, Ev. }
      by rewrite <- Em.
    + rewrite (shared_free_spec h' p' m' F' Hr), R, rest_empty. done.
  - unfold build_list.
    destruct (push_values_spec (from_option (fun l => n_value <$> l_nodes l) [] ol) h []) as (h' & its' & E & Hr & R & Hx).
    { split; [done|constructor|done]. }
    change (meta_of []) with empty_meta in E, Hx. change (ifoot []) with (∅ : gset Z) in R. rewrite rest_empty in R.
    unfold Dsa in *. destruct (push_values _ (Some h, empty_meta)) as [[?|e] s']; cbn [fst snd] in *; subst s'.
    + exists h', (ifoot its'). split; [done|]. split; [done|]. exists its'. split; [by left|]. split; [|done].
      rewrite Hx. destruct ol; done.
    + pose proof (list_free_spec h' _ its' Hr) as Ef. unfold Dsa in *. rewrite Ef, R. subst e. split; [done|by left].
Qed.
End Spec.
