(* ===== verification/SharedStoreOps.v ===== *)
(** * Operations of the shared keyspace

    What lookup, upsert, remove, reset and writeback of src/shared_store.c do
    to the keys and values a store stands for. *)
From S2P Require Import Prelude Types ListValue HashValue StoreInterface SharedMem SharedHash SharedHashSpec.
From S2P Require Import SharedHashOps SharedHashRefine SharedList SharedListSpec SharedStore SharedStoreSpec.

Section Ops.
Context `{DsaAllocator} `{HashBytes} `{KeyspaceLimit} `{!DsaLaws}.

Definition entry_repr (h : Heap) (se : PgRedisSharedEntry) (a : AEntry) (F : gset dsa_pointer) : Prop :=
  value_repr h (se_value se) (a_val a) F /\
  a_expire a = if se_has_expire se then Some (se_expire_at se) else None.

(** Everything the keys own. *)
Definition all_foot (ks : Keyspace) (f : bytes -> gset dsa_pointer) : gset dsa_pointer :=
  ⋃ (f <$> (map_to_list ks).*1).

Record store_at (ks : Keyspace) (h : Heap) (f : bytes -> gset dsa_pointer) (V : gmap bytes AEntry) : Prop := {
  sa_dom : forall k, ks !! k = None -> V !! k = None;
  sa_entry : forall k se, ks !! k = Some se -> exists a, V !! k = Some a /\ entry_repr h se a (f k);
  sa_disjoint : forall k k', is_Some (ks !! k) -> is_Some (ks !! k') -> k <> k' -> f k ## f k'
}.

Definition store_repr (s : SharedStore) (V : gmap bytes AEntry) (R : Heap) : Prop :=
  exists ks h f, s = {| ss_keyspace := Some ks; ss_dsa := Some h |} /\
    store_at ks h f V /\ R = rest (all_foot ks f) h.

Lemma elem_of_all_foot ks f q : q ∈ all_foot ks f <-> exists k, is_Some (ks !! k) /\ q ∈ f k.
Proof.
  unfold all_foot. rewrite elem_of_union_list. split.
  - intros (X & (k & -> & ([k' se] & -> & Hin%elem_of_map_to_list)%list_elem_of_fmap)%list_elem_of_fmap & Hq). eauto.
  - intros (k & [se Hk] & Hq). exists (f k). split; [|done]. apply list_elem_of_fmap_2.
    apply list_elem_of_fmap. exists (k, se). split; [done|]. by apply elem_of_map_to_list.
Qed.

(** The footprint of one key. *)
Definition key_foot (ks : Keyspace) (f : bytes -> gset dsa_pointer) (k : bytes) : gset dsa_pointer :=
  match ks !! k with Some _ => f k | None => ∅ end.

Lemma all_foot_key ks f k q :
  q ∈ all_foot ks f <-> q ∈ key_foot ks f k \/ exists x, x <> k /\ is_Some (ks !! x) /\ q ∈ f x.
Proof.
  rewrite elem_of_all_foot. unfold key_foot. split.
  - intros (x & Hx & Hq). destruct (decide (x = k)) as [->|Hne]; [left; by destruct (ks !! k), Hx|right; eauto].
  - intros [Hq|(x & _ & ? & ?)]; [|eauto]. destruct (ks !! k) eqn:Ek; [exists k; rewrite Ek; eauto|set_solver].
Qed.

(** What no key owns does not change when one key's chunks are exchanged. *)
Lemma rest_change (ks : Keyspace) (f : bytes -> gset dsa_pointer) (k : bytes) (h h' : Heap) (F' A' : gset dsa_pointer) :
  rest F' h' = rest (key_foot ks f k) h ->
  (forall q, q ∈ A' <-> q ∈ F' \/ exists x, x <> k /\ is_Some (ks !! x) /\ q ∈ f x) ->
  rest A' h' = rest (all_foot ks f) h.
Proof.
  intros HR HA. apply map_eq. intros q. pose proof (f_equal (lookup q) HR) as HRq. rewrite !lookup_rest in *.
  specialize (HA q). pose proof (all_foot_key ks f k q) as Hq. repeat case_decide; naive_solver.
Qed.

(** One key changes, from the chunks it owned to the chunks it owns: the other
    keys and the rest of the heap are as they were. *)
Lemma store_change (ks : Keyspace) (h : Heap) (f : bytes -> gset dsa_pointer) (V : gmap bytes AEntry) (k : bytes) (h' : Heap) (F' : gset dsa_pointer) (ks' : Keyspace) (V' : gmap bytes AEntry) :
  store_at ks h f V ->
  rest F' h' = rest (key_foot ks f k) h ->
  delete k ks' = delete k ks -> delete k V' = delete k V ->
  (ks' !! k = None -> V' !! k = None /\ F' = ∅) ->
  (forall se, ks' !! k = Some se -> exists a, V' !! k = Some a /\ entry_repr h' se a F') ->
  store_repr {| ss_keyspace := Some ks'; ss_dsa := Some h' |} V' (rest (all_foot ks f) h).
Proof.
  intros Hs HR Hks HV Hnone Hsome.
  assert (Eks : forall x, x <> k -> ks' !! x = ks !! x).
  { intros x Hx. pose proof (f_equal (lookup x) Hks) as E. by rewrite !lookup_delete_ne in E by done. }
  assert (EV : forall x, x <> k -> V' !! x = V !! x).
  { intros x Hx. pose proof (f_equal (lookup x) HV) as E. by rewrite !lookup_delete_ne in E by done. }
  set (f' := fun x => if decide (x = k) then F' else f x).
  assert (Hf' : forall x, x <> k -> f' x = f x) by (intros; unfold f'; by rewrite decide_False).
  assert (Hfk : f' k = F') by (unfold f'; by rewrite decide_True).
  assert (Hkeep : forall x se q, x <> k -> ks !! x = Some se -> q ∈ f x -> h' !! q = h !! q /\ q ∉ F').
  { intros x se q Hx Hse Hq. destruct (sa_entry _ _ _ _ Hs x se Hse) as (a & _ & [Hv _]).
    eapply rest_lookup_same; [done| |by eapply value_repr_in].
    unfold key_foot. destruct (ks !! k) eqn:Ek; [|set_solver].
    pose proof (sa_disjoint _ _ _ _ Hs x k) as Hd. rewrite Hse, Ek in Hd. specialize (Hd ltac:(eauto) ltac:(eauto) Hx). set_solver. }
  exists ks', h', f'. split; [done|]. split; [split|].
  - intros x Hx. destruct (decide (x = k)) as [->|Hne]; [by apply Hnone|].
    rewrite EV by done. apply Hs. by rewrite <- Eks.
  - intros x se Hx. destruct (decide (x = k)) as [->|Hne]; [rewrite Hfk; by apply Hsome|].
    rewrite Eks in Hx by done. destruct (sa_entry _ _ _ _ Hs x se Hx) as (a & Ha & [Hv He]).
    exists a. rewrite EV, Hf' by done. split; [done|]. split; [|done]. eapply value_repr_agree; [done|].
    intros q Hq. by eapply Hkeep.
  - intros x y [sx Hx] [sy Hy] Hxy.
    destruct (decide (x = k)) as [->|Hxk], (decide (y = k)) as [->|Hyk]; [done|..].
    + rewrite Hfk, Hf' by done. rewrite Eks in Hy by done. intros q Hq1 Hq2. by apply (Hkeep y sy q Hyk Hy Hq2).
    + rewrite Hfk, Hf' by done. rewrite Eks in Hx by done. intros q Hq1 Hq2. by apply (Hkeep x sx q Hxk Hx Hq1).
    + rewrite !Hf' by done. rewrite Eks in Hx, Hy by done. apply (sa_disjoint _ _ _ _ Hs); eauto.
  - symmetry. apply (rest_change ks f k h h' F'); [done|].
    intros q. rewrite elem_of_all_foot. split.
    + intros (x & Hx & Hq). destruct (decide (x = k)) as [->|Hne]; [rewrite Hfk in Hq; by left|].
      right. exists x. rewrite <- Eks by done. by rewrite Hf' in Hq.
    + intros [Hq|(x & Hne & Hx & Hq)]; [|exists x; by rewrite Eks, Hf'].
      exists k. rewrite Hfk. split; [|done]. apply not_eq_None_Some. intros E. apply Hnone in E as [_ ->]. set_solver.
Qed.

(** The key gets an entry whose payload takes the place of what it owned. *)
Lemma store_put (ks : Keyspace) (h : Heap) (f : bytes -> gset dsa_pointer) (V : gmap bytes AEntry) (k : bytes) (h' : Heap) (F' : gset dsa_pointer) (se : PgRedisSharedEntry) (a : AEntry) :
  store_at ks h f V -> rest F' h' = rest (key_foot ks f k) h -> entry_repr h' se a F' ->
  store_repr {| ss_keyspace := Some (<[k := se]> ks); ss_dsa := Some h' |} (<[k := a]> V) (rest (all_foot ks f) h).
Proof.
  intros Hs HR Hr. apply (store_change ks h f V k h' F'); [done|done|..].
  - by rewrite delete_insert_eq.
  - by rewrite delete_insert_eq.
  - by rewrite lookup_insert_eq.
  - intros se'. rewrite !lookup_insert_eq. intros [= <-]. eauto.
Qed.

(** ** Lookup and remove *)

(** A scratch hash that accounts for the stored contents [m]. *)
Definition in_sync (m : gmap bytes bytes) (oh : option PgRedisHash) : Prop :=
  match oh with
  | Some sh => hash_synced m sh /\ forall f, f ∈ h_tombstones sh -> h_fields sh !! f = None
  | None => m = ∅
  end.

(** A private copy of an entry: what it shows, and that its hash accounts for
    the stored one. *)
Record scratch_for (e : PgRedisEntry) (a : AEntry) : Prop := {
  sf_view : entry_view e = a;
  sf_ok : scratch_ok (e_value e);
  sf_sync : forall oh m, e_value e = VHash oh -> a_val a = AHash m -> in_sync m oh;
  sf_tombs : forall sh, e_value e = VHash (Some sh) -> h_tombstones sh = []
}.

Lemma scratch_spec h se a F :
  entry_repr h se a F ->
  exists e, materialize_scratch (Some h) se = Ret e /\ scratch_for e a.
Proof.
  intros [Hv He]. unfold materialize_scratch. destruct (materialize_value_spec h _ _ F Hv) as (pv & -> & Hpv & Hx).
  eexists. split; [done|]. split.
  - unfold entry_view. cbn. rewrite Hpv, <- He. by destruct a.
  - cbn. destruct pv as [?|?|[sh|]|?], (a_val a); cbn in Hpv; try done. apply Hx.
  - cbn. intros oh m -> Hm. rewrite Hm in *. injection Hpv as Hpv. destruct oh as [sh|]; cbn in *; [|done].
    destruct Hx as (Hwf & Ht & Hs). split; [done|]. rewrite Ht. set_solver.
  - cbn. intros sh ->. destruct (a_val a); cbn in Hpv; try done. apply Hx.
Qed.

Lemma lookup_raw_spec s V R k :
  store_repr s V R ->
  exists oe, pg_redis_shared_store_lookup_raw k s = (Ret oe, s) /\ option_Forall2 scratch_for oe (V !! k).
Proof.
  intros (ks & h & f & -> & Hs & _). unfold pg_redis_shared_store_lookup_raw. cbn [ss_keyspace ss_dsa].
  destruct (ks !! k) as [se|] eqn:Hk.
  - destruct (sa_entry _ _ _ _ Hs k se Hk) as (a & Ha & Hr). rewrite Ha.
    destruct (scratch_spec h se a _ Hr) as (e & -> & He). exists (Some e). split; [done|]. by constructor.
  - exists None. rewrite (sa_dom _ _ _ _ Hs k Hk). split; [done|constructor].
Qed.

Lemma release_in_store_spec ks h se a F :
  value_repr h (se_value se) a F ->
  release_in_store se {| ss_keyspace := Some ks; ss_dsa := Some h |} =
    (Ret (with_value (released (se_value se)) se), {| ss_keyspace := Some ks; ss_dsa := Some (rest F h) |}).
Proof. intros Hv. unfold release_in_store. cbn [ss_dsa ss_keyspace]. by rewrite (release_spec h se a F Hv). Qed.

Lemma rest_rest F h : rest ∅ (rest F h) = rest F h.
Proof. apply rest_empty. Qed.

Lemma shared_remove_spec s V R k :
  store_repr s V R ->
  exists s', pg_redis_shared_store_remove k s = (Ret (bool_decide (is_Some (V !! k))), s') /\
    store_repr s' (delete k V) R.
Proof.
  intros Hrepr. pose proof Hrepr as (ks & h & f & -> & Hs & ->).
  unfold pg_redis_shared_store_remove. rewrite bind_unfold. cbn [gets ss_keyspace].
  destruct (ks !! k) as [se|] eqn:Hk.
  - destruct (sa_entry _ _ _ _ Hs k se Hk) as (a & Ha & [Hv He]). rewrite Ha.
    rewrite (bind_Ret _ _ _ _ _ (release_in_store_spec ks h se _ _ Hv)). eexists. split; [done|].
    cbn [ss_dsa]. apply (store_change ks h f V k _ ∅); [done|..].
    + unfold key_foot. by rewrite Hk, rest_rest.
    + by rewrite delete_delete_eq.
    + by rewrite delete_delete_eq.
    + intros _. split; [apply lookup_delete_eq|done].
    + intros se'. by rewrite lookup_delete_eq.
  - rewrite (sa_dom _ _ _ _ Hs k Hk). eexists. split; [done|]. rewrite delete_id; [done|]. by apply Hs.
Qed.

Definition shared_expired (now : Z) (V : gmap bytes AEntry) (k : bytes) : bool :=
  match V !! k with Some a => a_expired now a | None => false end.

Lemma entry_view_expired now e :
  (e_has_expire e && (e_expire_at e <=? now)) = a_expired now (entry_view e).
Proof. unfold a_expired, entry_view. cbn. by destruct (e_has_expire e). Qed.

Lemma se_expired_spec now h se a F : entry_repr h se a F -> se_expired now se = a_expired now a.
Proof. intros [_ He]. unfold se_expired, a_expired. rewrite He. by destruct (se_has_expire se). Qed.

(** Lazy eviction: an expired key is removed and not returned. *)
Lemma shared_lookup_spec now s V R k :
  store_repr s V R ->
  exists oe s', pg_redis_shared_store_lookup now k s = (Ret (oe, shared_expired now V k), s') /\
    if shared_expired now V k then oe = None /\ store_repr s' (delete k V) R
    else option_Forall2 scratch_for oe (V !! k) /\ s' = s.
Proof.
  intros Hr. unfold pg_redis_shared_store_lookup. destruct (lookup_raw_spec s V R k Hr) as (oe & E & Hv).
  rewrite (bind_Ret _ _ _ _ _ E). unfold shared_expired. destruct Hv as [e a He|].
  - rewrite entry_view_expired, (sf_view _ _ He). destruct (a_expired now a).
    + destruct (shared_remove_spec s V R k Hr) as (s' & E' & Hr'). rewrite (bind_Ret _ _ _ _ _ E'). by eexists None, s'.
    + exists (Some e), s. split; [done|]. split; [by constructor|done].
  - exists None, s. split; [done|]. split; [constructor|done].
Qed.

(** ** Upsert *)

Lemma fresh_repr h : entry_repr h fresh_shared_entry fresh_aentry ∅.
Proof. split; [|done]. cbn. done. Qed.

Lemma shared_upsert_spec now s V R k :
  store_repr s V R ->
  (pg_redis_shared_store_upsert now k s = (Raise ERRCODE_OUT_OF_MEMORY, s) /\ V !! k = None) \/
  exists e is_new s', pg_redis_shared_store_upsert now k s = (Ret (e, is_new), s') /\
    let fresh := bool_decide (V !! k = None) || shared_expired now V k in
    is_new = fresh /\
    if fresh then scratch_for e fresh_aentry /\ store_repr s' (<[k := fresh_aentry]> V) R
    else (exists a, V !! k = Some a /\ scratch_for e a) /\ store_repr s' V R.
Proof.
  intros Hrepr. pose proof Hrepr as (ks & h & f & -> & Hs & ->).
  unfold pg_redis_shared_store_upsert. rewrite bind_unfold. cbn [gets ss_keyspace].
  assert (Hnew : forall h', rest ∅ h' = rest (key_foot ks f k) h ->
    store_repr {| ss_keyspace := Some (<[k := fresh_shared_entry]> ks); ss_dsa := Some h' |}
      (<[k := fresh_aentry]> V) (rest (all_foot ks f) h)).
  { intros h' Hh'. by apply (store_put ks h f V k h' ∅); [..|apply fresh_repr]. }
  destruct (scratch_spec (rest (key_foot ks f k) h) fresh_shared_entry fresh_aentry ∅ (fresh_repr _)) as (e0 & E0 & Hv0).
  destruct (ks !! k) as [se|] eqn:Hk.
  - right. destruct (sa_entry _ _ _ _ Hs k se Hk) as (a & Ha & Hr). unfold shared_expired. rewrite Ha.
    rewrite (se_expired_spec now h se a _ Hr). cbn [bool_decide orb]. destruct (a_expired now a).
    + assert (Ef : key_foot ks f k = f k) by (unfold key_foot; by rewrite Hk). rewrite Ef in *.
      rewrite (bind_Ret _ _ _ _ _ (release_in_store_spec ks h se _ _ (proj1 Hr))).
      rewrite bind_unfold. cbn [set_keyspace modify ss_dsa]. rewrite bind_unfold. unfold scratch_copy. cbn [ss_dsa].
      rewrite E0. do 3 eexists. split; [done|]. split; [done|]. split; [done|]. apply Hnew. by rewrite rest_empty.
    + rewrite bind_unfold. unfold scratch_copy. cbn [ss_dsa].
      destruct (scratch_spec h se a _ Hr) as (e & -> & Hv). do 3 eexists. split; [done|]. split; [done|]. split; [by exists a|done].
  - pose proof (sa_dom _ _ _ _ Hs k Hk) as HV. unfold shared_expired. rewrite HV. cbn [bool_decide orb].
    destruct (can_enter ks); cbn [negb]; [right|by left].
    assert (Ef : key_foot ks f k = ∅) by (unfold key_foot; by rewrite Hk). rewrite Ef, rest_empty in *.
    rewrite bind_unfold. cbn [set_keyspace modify ss_dsa]. rewrite bind_unfold. unfold scratch_copy. cbn [ss_dsa].
    rewrite E0. do 3 eexists. split; [done|]. split; [done|]. split; [done|]. apply Hnew. by rewrite rest_empty.
Qed.

(** ** Writeback *)

Lemma lookup_drop_fields (l : list bytes) (m : gmap bytes bytes) (f : bytes) :
  drop_fields l m !! f = if decide (f ∈ l) then None else m !! f.
Proof.
  revert m. induction l as [|g l IH]; intros m; cbn; [by rewrite decide_False by set_solver|].
  unfold drop_fields in IH. rewrite IH, lookup_delete. repeat case_decide; set_solver.
Qed.

(** Setting the dirty fields and deleting the tombstones gives the scratch. *)
Lemma surgical_map m sh :
  in_sync m (Some sh) -> drop_fields (h_tombstones sh) (put_fields (dirty_fields sh) m) = hash_view sh.
Proof.
  intros [Hs Ht]. rewrite put_fields_union by apply dirty_fields_NoDup.
  apply map_eq. intros f. rewrite lookup_drop_fields, lookup_union, lookup_dirty_fields.
  unfold hash_view. rewrite lookup_fmap. specialize (Hs f). specialize (Ht f).
  destruct (h_fields sh !! f) as [fl|] eqn:Ef; cbn.
  - rewrite decide_False by (intros Hin; by apply Ht in Hin).
    destruct (f_dirty fl); [by rewrite union_Some_l|]. rewrite (left_id None _). by apply Hs.
  - case_decide; [done|]. rewrite (left_id None _). by destruct Hs.
Qed.

Lemma surgical_spec h t m F oh :
  hash_repr h t m F -> in_sync m oh -> scratch_ok (VHash oh) ->
  match surgical_apply_hash t (Z.of_nat (size m)) oh (Some h) with
  | (Ret v, area) => exists h' F', area = Some h' /\ rest F' h' = rest F h /\
      value_repr h' v (AHash (from_option hash_view ∅ oh)) F'
  | (Raise e, _) => mem_error e
  end.
Proof.
  intros Hr Hsync Hok. unfold surgical_apply_hash. destruct oh as [sh|].
  2:{ cbn in Hsync. subst m. exists h, F. done. }
  assert (Hfs : Forall (fun q => blen q.1 <= PG_REDIS_MAX_FIELD_SIZE) (dirty_fields sh)).
  { apply Forall_forall. intros [f v] (fl & Hin & _)%dirty_fields_elem. by apply (hw_names _ Hok) in Hin. }
  destruct (set_fields_spec _ h t m F Hr Hfs) as (h1 & p1 & m1 & F1 & E1 & R1 & Hr1 & Hx).
  rewrite bind_unfold. unfold Dsa in *.
  destruct (set_fields (dirty_fields sh) (Z.of_nat (size m)) (Some h, t)) as [[c|e] s1]; cbn [fst snd] in *; subst s1; [|done].
  destruct Hx as [-> ->].
  destruct (del_fields_spec (h_tombstones sh) h1 p1 _ F1 Hr1) as (h' & p' & F' & E' & R' & Hr'). rewrite E'.
  exists h', F'. split; [done|]. split; [congruence|]. cbn. rewrite surgical_map in Hr' |- * by done. done.
Qed.

Definition stored_entry (e : PgRedisEntry) : AEntry :=
  {| a_val := stored (a_val (entry_view e)); a_expire := a_expire (entry_view e) |}.

(** What is left of a value whose rebuild ran out of memory. *)
Definition lost_value (ty : PgRedisValueType) : AVal :=
  match ty with
  | PG_REDIS_TYPE_STRING => AString None
  | PG_REDIS_TYPE_INT => AInt 0
  | PG_REDIS_TYPE_HASH => AHash ∅
  | PG_REDIS_TYPE_LIST => AList []
  end.
Definition lost_entry (e : PgRedisEntry) : AEntry :=
  {| a_val := lost_value (e_type e); a_expire := a_expire (entry_view e) |}.

Lemma zero_value_repr h ty : value_repr h (zero_value ty) (lost_value ty) ∅.
Proof.
  destruct ty; cbn; [done|done|split; [by left|done]|]. exists []. split; [by right|done].
Qed.

(** The payload built in a heap where the key owns nothing any more. *)
Lemma populate_spec (ks : Keyspace) (h : Heap) (f : bytes -> gset dsa_pointer) (V : gmap bytes AEntry)
    (k : bytes) (e : PgRedisEntry) (h0 : Heap) :
  store_at ks h f V -> scratch_ok (e_value e) -> h0 = rest (key_foot ks f k) h ->
  match populate_shared_from_scratch k e ks {| ss_keyspace := Some ks; ss_dsa := Some h0 |} with
  | (Ret _, s') => store_repr s' (<[k := stored_entry e]> V) (rest (all_foot ks f) h)
  | (Raise err, s') => mem_error err /\ store_repr s' (<[k := lost_entry e]> V) (rest (all_foot ks f) h)
  end.
Proof.
  intros Hs Hok ->. unfold populate_shared_from_scratch. cbn [ss_dsa].
  assert (Hput : forall h' F' v a, rest F' h' = rest (key_foot ks f k) h -> value_repr h' v (a_val a) F' ->
    a_expire a = a_expire (entry_view e) ->
    store_repr {| ss_keyspace := Some (<[k := entry_with e v]> ks); ss_dsa := Some h' |} (<[k := a]> V)
      (rest (all_foot ks f) h)).
  { intros h' F' v a HR Hv He. by apply (store_put ks h f V k h' F'). }
  pose proof (build_value_spec (rest (key_foot ks f k) h) (e_value e) Hok) as Hb.
  destruct (build_value (e_value e) (Some (rest (key_foot ks f k) h))) as [[v|err] area]; cbn [built] in Hb.
  - destruct Hb as (h' & F & -> & HR & Hv). by apply (Hput h' F v (stored_entry e)).
  - destruct Hb as [-> Herr]. split; [done|]. apply (Hput _ ∅); [by rewrite rest_empty|apply zero_value_repr|done].
Qed.

(** Whether writing [e] to [k] updates a stored hash in place. *)
Definition hash_over_hash (V : gmap bytes AEntry) (k : bytes) (e : PgRedisEntry) : option (gmap bytes bytes) :=
  match V !! k, e_value e with
  | Some {| a_val := AHash m |}, VHash _ => Some m
  | _, _ => None
  end.

Lemma writeback_spec (s : SharedStore) (V : gmap bytes AEntry) (R : Heap) (k : bytes) (e : PgRedisEntry) :
  store_repr s V R -> scratch_ok (e_value e) ->
  (forall m oh, hash_over_hash V k e = Some m -> e_value e = VHash oh -> in_sync m oh) ->
  match pg_redis_shared_store_writeback k e s with
  | (Ret _, s') => store_repr s' (<[k := stored_entry e]> V) R
  | (Raise err, s') => mem_error err /\
      ((s' = s /\ V !! k = None) \/ hash_over_hash V k e <> None \/ store_repr s' (<[k := lost_entry e]> V) R)
  end.
Proof.
  intros Hrepr Hok Hsync. pose proof Hrepr as (ks & h & f & -> & Hs & ->).
  unfold pg_redis_shared_store_writeback. rewrite bind_unfold. cbn [gets ss_keyspace].
  destruct (ks !! k) as [se|] eqn:Hk.
  2:{ destruct (can_enter ks); cbn [negb]; [|split; [by left|left; split; [done|by apply Hs]]].
      pose proof (populate_spec ks h f V k e h Hs Hok) as Hp. unfold key_foot in Hp. rewrite Hk, rest_empty in Hp.
      specialize (Hp eq_refl). destruct (populate_shared_from_scratch _ _ _ _) as [[?|err] s']; [done|]. naive_solver. }
  destruct (sa_entry _ _ _ _ Hs k se Hk) as (a & Ha & [Hv He]).
  assert (Hfull : match (release_in_store se ≫= fun _ => populate_shared_from_scratch k e ks)
            {| ss_keyspace := Some ks; ss_dsa := Some h |} with
          | (Ret _, s') => store_repr s' (<[k := stored_entry e]> V) (rest (all_foot ks f) h)
          | (Raise err, s') => mem_error err /\ store_repr s' (<[k := lost_entry e]> V) (rest (all_foot ks f) h)
          end).
  { rewrite (bind_Ret _ _ _ _ _ (release_in_store_spec ks h se _ _ Hv)). apply populate_spec; [done|done|].
    unfold key_foot. by rewrite Hk. }
  assert (Hweak : match (release_in_store se ≫= fun _ => populate_shared_from_scratch k e ks)
            {| ss_keyspace := Some ks; ss_dsa := Some h |} with
          | (Ret _, s') => store_repr s' (<[k := stored_entry e]> V) (rest (all_foot ks f) h)
          | (Raise err, s') => mem_error err /\
              ((s' = {| ss_keyspace := Some ks; ss_dsa := Some h |} /\ V !! k = None) \/ hash_over_hash V k e <> None \/
               store_repr s' (<[k := lost_entry e]> V) (rest (all_foot ks f) h))
          end).
  { match type of Hfull with match ?x with _ => _ end => destruct x as [[?|err] s'] end; [done|]. naive_solver. }
  clear Hfull. destruct (se_value se) as [p n|i|t c|meta] eqn:Esv; [done|done| |done].
  destruct (e_value e) as [?|?|oh|?] eqn:Eev; [done|done| |done]. clear Hweak.
  destruct a as [[?|?|m|?] ex]; cbn [value_repr a_val] in Hv; try done. destruct Hv as [Hr ->].
  assert (Hh : hash_over_hash V k e = Some m) by (unfold hash_over_hash; by rewrite Ha, Eev).
  pose proof (surgical_spec h t m (f k) oh Hr (Hsync m oh Hh eq_refl) Hok) as Hx. cbn [ss_dsa].
  destruct (surgical_apply_hash t (Z.of_nat (size m)) oh (Some h)) as [[v|err] area].
  - destruct Hx as (h' & F' & -> & HR & Hv'). apply (store_put ks h f V k h' F'); [done| |].
    + unfold key_foot. by rewrite Hk.
    + split; [|done]. cbn. by rewrite Eev.
  - split; [done|]. right. left. by rewrite Hh.
Qed.

(** ** FLUSHALL's reset *)

Definition release_body (p : bytes * PgRedisSharedEntry) : M SharedStore unit :=
  se ← release_in_store p.2;
  modify (fun s => {| ss_keyspace := insert p.1 se <$> ss_keyspace s; ss_dsa := ss_dsa s |}).

Lemma rest_union (A B : gset dsa_pointer) h : rest A (rest B h) = rest (A ∪ B) h.
Proof. apply map_eq. intros q. rewrite !lookup_rest. repeat case_decide; set_solver. Qed.

Lemma release_all_spec (l : list (bytes * PgRedisSharedEntry)) (f : bytes -> gset dsa_pointer)
    (ks : Keyspace) (h : Heap) :
  (forall p, p ∈ l -> exists a, value_repr h (se_value p.2) a (f p.1)) ->
  NoDup l.*1 -> (forall k k', k ∈ l.*1 -> k' ∈ l.*1 -> k <> k' -> f k ## f k') ->
  exists ks', for_each l release_body {| ss_keyspace := Some ks; ss_dsa := Some h |} =
      (Ret tt, {| ss_keyspace := Some ks'; ss_dsa := Some (rest (⋃ (f <$> l.*1)) h) |}) /\
    forall k, is_Some (ks' !! k) <-> is_Some (ks !! k) \/ k ∈ l.*1.
Proof.
  revert ks h. induction l as [|[k se] l IH]; intros ks h Hr Hn Hd.
  { exists ks. cbn. rewrite rest_empty. split; [done|]. set_solver. }
  cbn [fmap list_fmap fst] in *. apply NoDup_cons in Hn as [Hk Hn].
  destruct (Hr (k, se)) as (a & Hv); [set_solver|]. cbn [fst snd] in Hv.
  cbn [for_each]. rewrite bind_unfold. unfold release_body at 1. cbn [fst snd].
  rewrite (bind_Ret _ _ _ _ _ (release_in_store_spec ks h se _ _ Hv)). cbn [modify ss_keyspace ss_dsa fmap option_fmap option_map].
  destruct (IH (<[k := with_value (released (se_value se)) se]> ks) (rest (f k) h)) as (ks' & E & Hdom).
  - intros [k' se'] Hin. destruct (Hr (k', se')) as (a' & Hv'); [set_solver|]. exists a'. cbn [fst snd] in *.
    eapply value_repr_agree; [done|]. intros q Hq. rewrite lookup_rest, decide_False; [done|].
    assert (Hin' : k' ∈ l.*1) by (by apply (list_elem_of_fmap_2 fst) in Hin).
    assert (f k ## f k') as Hdis by (apply Hd; [set_solver|set_solver|congruence]). set_solver.
  - done.
  - intros x y Hx Hy. apply Hd; set_solver.
  - exists ks'. rewrite E. split.
    + cbn [union_list]. rewrite rest_union. do 4 f_equal. cbn. set_solver.
    + intros x. rewrite Hdom, lookup_insert_is_Some'. set_solver.
Qed.

Lemma remove_all_spec (l : list bytes) (ks : Keyspace) (h : Heap) :
  exists ks', for_each l (fun k => modify (fun s => {| ss_keyspace := delete k <$> ss_keyspace s; ss_dsa := ss_dsa s |}))
      {| ss_keyspace := Some ks; ss_dsa := Some h |} = (Ret tt, {| ss_keyspace := Some ks'; ss_dsa := Some h |}) /\
    forall k, is_Some (ks' !! k) -> is_Some (ks !! k) /\ k ∉ l.
Proof.
  revert ks. induction l as [|k l IH]; intros ks; [exists ks; split; [done|]; set_solver|].
  cbn [for_each]. rewrite bind_unfold. cbn [modify ss_keyspace ss_dsa fmap option_fmap option_map].
  destruct (IH (delete k ks)) as (ks' & E & Hl). exists ks'. split; [done|].
  intros x Hx. apply Hl in Hx as [Hx ?]. rewrite lookup_delete_is_Some in Hx. set_solver.
Qed.

(** The keyspace is empty and the heap is exactly what the keys never owned. *)
Lemma reset_all_spec s V R :
  store_repr s V R ->
  exists n, pg_redis_shared_store_reset_all s = (Ret n, {| ss_keyspace := Some ∅; ss_dsa := Some R |}) /\
    n = Z.of_nat (size V).
Proof.
  intros (ks & h & f & -> & Hs & ->). unfold pg_redis_shared_store_reset_all. rewrite bind_unfold. cbn [gets ss_keyspace].
  destruct (release_all_spec (map_to_list ks) f ks h) as (ks1 & E1 & Hd1).
  - intros [k se] Hin%elem_of_map_to_list. destruct (sa_entry _ _ _ _ Hs k se Hin) as (a & _ & [Hv _]). eauto.
  - apply NoDup_fst_map_to_list.
  - intros k k' Hk Hk'. apply (sa_disjoint _ _ _ _ Hs).
    + apply list_elem_of_fmap in Hk as ([? se] & -> & Hin%elem_of_map_to_list). eauto.
    + apply list_elem_of_fmap in Hk' as ([? se] & -> & Hin%elem_of_map_to_list). eauto.
  - rewrite (bind_Ret _ _ _ _ _ E1).
    destruct (remove_all_spec (map_to_list ks).*1 ks1 (rest (all_foot ks f) h)) as (ks2 & E2 & Hd2).
    rewrite (bind_Ret _ _ _ _ _ E2).
    assert (ks2 = ∅) as ->.
    { apply map_empty. intros k. apply eq_None_not_Some. intros Hk. apply Hd2 in Hk as [Hk Hn]. apply Hn.
      apply Hd1 in Hk as [[se Hk]|?]; [|done]. apply list_elem_of_fmap. exists (k, se). split; [done|].
      by apply elem_of_map_to_list. }
    eexists. split; [done|]. f_equal.
    assert (dom ks = dom V) as Edom.
    { apply set_eq. intros k. rewrite !elem_of_dom. split.
      - intros [se Hk]. destruct (sa_entry _ _ _ _ Hs k se Hk) as (a & ? & _). eauto.
      - intros [a Ha]. apply not_eq_None_Some. intros E. apply (sa_dom _ _ _ _ Hs) in E. congruence. }
    by rewrite <- !size_dom, Edom.
Qed.

(** ** The direct read of a hash field *)

Lemma lookup_field_spec now s V R k field want :
  store_repr s V R ->
  pg_redis_shared_hash_lookup_field now k field want s =
  (Ret (match V !! k with
        | None => PG_REDIS_FAST_HASH_KEY_MISS
        | Some a =>
            if a_expired now a then PG_REDIS_FAST_HASH_KEY_EXPIRED
            else match a_val a with
                 | AHash m => match m !! field with
                              | None => PG_REDIS_FAST_HASH_FIELD_MISS
                              | Some v => PG_REDIS_FAST_HASH_HIT (if want : bool then v else [])
                              end
                 | _ => PG_REDIS_FAST_HASH_WRONGTYPE (a_type a)
                 end
        end), s).
Proof.
  intros (ks & h & f & -> & Hs & _). unfold pg_redis_shared_hash_lookup_field. cbn [ss_keyspace ss_dsa].
  destruct (ks !! k) as [se|] eqn:Hk; [|by rewrite (sa_dom _ _ _ _ Hs k Hk)].
  destruct (sa_entry _ _ _ _ Hs k se Hk) as (a & -> & Hr). rewrite (se_expired_spec now h se a _ Hr).
  destruct (a_expired now a); [done|]. destruct Hr as [Hv _]. unfold a_type, se_type.
  destruct (se_value se) as [p n|i|t c|meta], (a_val a) as [[b|]|j|m|q]; cbn [value_repr] in Hv; try done.
  destruct Hv as [Hr _]. destruct want.
  - rewrite (shared_get_spec h t m _ field Hr). by destruct (m !! field).
  - rewrite (shared_exists_spec h t m _ field Hr). by destruct (m !! field).
Qed.
End Ops.
