(* ===== verification/DirtyEvent.v ===== *)
(** * Events of the dirty ring (src/dirty_ring.h, src/dirty_ring.c)

    The event record, the six encoders with the inline buffer and the spill to
    shared memory, and the accessors the consumer uses.  Lengths are kept in
    [uint16] members, as in the struct, and the encoders convert without a
    check.  [state] and [write_started_at] belong to the slot (DirtyRing.v):
    publishing never copies them from the caller's event. *)
From S2P Require Import Prelude Types SharedMem.

Definition PG_REDIS_DIRTY_EVENT_INLINE_BYTES : Z := 256.

Inductive PgRedisDirtyEventType :=
| PG_REDIS_EVENT_KEY_UPSERT
| PG_REDIS_EVENT_KEY_DELETE
| PG_REDIS_EVENT_HASH_FIELD_UPSERT
| PG_REDIS_EVENT_HASH_FIELD_DELETE
| PG_REDIS_EVENT_LIST_ITEM_INSERT
| PG_REDIS_EVENT_LIST_ITEM_DELETE.

#[export] Instance PgRedisDirtyEventType_eq_dec : EqDecision PgRedisDirtyEventType.
Proof. solve_decision. Defined.

Record PgRedisDirtyEvent := {
  ev_type : PgRedisDirtyEventType;
  ev_value_type : PgRedisValueType;
  ev_key_len : Z;              (* uint16 *)
  ev_field_len : Z;            (* uint16 *)
  ev_ord : Z;
  ev_expire_at : Z;
  ev_has_expire : bool;
  ev_version : Z;
  ev_value_len : Z;            (* uint16 *)
  ev_dsa_overflow : bool;
  ev_dsa_payload : dsa_pointer;
  ev_inline_bytes : bytes
}.

#[export] Instance PgRedisDirtyEvent_eq_dec : EqDecision PgRedisDirtyEvent.
Proof. solve_decision. Defined.

(** [memcpy(buf + off, part, len)] *)
Definition memcpy_at (off : nat) (part buf : bytes) : bytes :=
  take off buf ++ part ++ drop (off + length part) buf.

(** The three copies at consecutive offsets; an absent part has length 0. *)
Definition write_parts (part1 part2 part3 buf : bytes) : bytes :=
  memcpy_at (length part1 + length part2) part3
    (memcpy_at (length part1) part2 (memcpy_at 0 part1 buf)).

(** [read_at base off len]: the [len] bytes at [base + off]; reading past the
    end of the chunk or the buffer is undefined. *)
Definition read_at (base : bytes) (off len : Z) : option bytes :=
  if off + len <=? blen base
  then Some (take (Z.to_nat len) (drop (Z.to_nat off) base)) else None.

Section Codec.
Context `{DsaAllocator}.

Definition with_payload (overflow : bool) (p : dsa_pointer) (inline : bytes)
    (ev : PgRedisDirtyEvent) : PgRedisDirtyEvent :=
  {| ev_type := ev_type ev; ev_value_type := ev_value_type ev;
     ev_key_len := ev_key_len ev; ev_field_len := ev_field_len ev; ev_ord := ev_ord ev;
     ev_expire_at := ev_expire_at ev; ev_has_expire := ev_has_expire ev;
     ev_version := ev_version ev; ev_value_len := ev_value_len ev;
     ev_dsa_overflow := overflow; ev_dsa_payload := p; ev_inline_bytes := inline |}.

Definition event_inline_write (ev : PgRedisDirtyEvent) (part1 part2 part3 : bytes)
    : M Dsa PgRedisDirtyEvent :=
  let total := blen part1 + blen part2 + blen part3 in
  if PG_REDIS_DIRTY_EVENT_INLINE_BYTES <? total then
    dsa_p ← pg_redis_shared_palloc total;
    if dsa_p =? InvalidDsaPointer then ereport ERRCODE_OUT_OF_MEMORY
    else
      modify (fun area => shared_write dsa_p
        (write_parts part1 part2 part3 (default [] (shared_bytes area dsa_p))) area) ;;
      mret (with_payload true dsa_p (ev_inline_bytes ev) ev)
  else
    mret (with_payload false InvalidDsaPointer
      (write_parts part1 part2 part3 (ev_inline_bytes ev)) ev).

(** [memset(ev, 0, offsetof(PgRedisDirtyEvent, inline_bytes))], then the two
    tags and the three lengths. *)
Definition event_header (ty : PgRedisDirtyEventType) (vt : PgRedisValueType)
    (keylen fieldlen val_len ord : Z) (ev : PgRedisDirtyEvent) : PgRedisDirtyEvent :=
  {| ev_type := ty; ev_value_type := vt; ev_key_len := u16 keylen; ev_field_len := u16 fieldlen;
     ev_ord := ord; ev_expire_at := 0; ev_has_expire := false; ev_version := 0;
     ev_value_len := u16 val_len; ev_dsa_overflow := false; ev_dsa_payload := 0;
     ev_inline_bytes := ev_inline_bytes ev |}.

Definition pg_redis_event_encode_key_upsert (ev : PgRedisDirtyEvent) (key : bytes)
    (e : PgRedisEntry) (tlv : bytes) : M Dsa PgRedisDirtyEvent :=
  let h := event_header PG_REDIS_EVENT_KEY_UPSERT (e_type e) (blen key) 0 (blen tlv) 0 ev in
  event_inline_write
    {| ev_type := ev_type h; ev_value_type := ev_value_type h;
       ev_key_len := ev_key_len h; ev_field_len := 0; ev_ord := 0;
       ev_expire_at := e_expire_at e; ev_has_expire := e_has_expire e;
       ev_version := e_version e; ev_value_len := ev_value_len h;
       ev_dsa_overflow := false; ev_dsa_payload := 0; ev_inline_bytes := ev_inline_bytes h |}
    key [] tlv.

Definition pg_redis_event_encode_key_delete (ev : PgRedisDirtyEvent) (key : bytes)
    : M Dsa PgRedisDirtyEvent :=
  event_inline_write
    (event_header PG_REDIS_EVENT_KEY_DELETE PG_REDIS_TYPE_STRING (blen key) 0 0 0 ev) key [] [].

Definition pg_redis_event_encode_hash_field_upsert (ev : PgRedisDirtyEvent)
    (key field val : bytes) : M Dsa PgRedisDirtyEvent :=
  event_inline_write
    (event_header PG_REDIS_EVENT_HASH_FIELD_UPSERT PG_REDIS_TYPE_HASH
       (blen key) (blen field) (blen val) 0 ev) key field val.

Definition pg_redis_event_encode_hash_field_delete (ev : PgRedisDirtyEvent)
    (key field : bytes) : M Dsa PgRedisDirtyEvent :=
  event_inline_write
    (event_header PG_REDIS_EVENT_HASH_FIELD_DELETE PG_REDIS_TYPE_HASH
       (blen key) (blen field) 0 0 ev) key field [].

Definition pg_redis_event_encode_list_item_insert (ev : PgRedisDirtyEvent)
    (key : bytes) (ord : Z) (val : bytes) : M Dsa PgRedisDirtyEvent :=
  event_inline_write
    (event_header PG_REDIS_EVENT_LIST_ITEM_INSERT PG_REDIS_TYPE_LIST
       (blen key) 0 (blen val) ord ev) key [] val.

Definition pg_redis_event_encode_list_item_delete (ev : PgRedisDirtyEvent)
    (key : bytes) (ord : Z) : M Dsa PgRedisDirtyEvent :=
  event_inline_write
    (event_header PG_REDIS_EVENT_LIST_ITEM_DELETE PG_REDIS_TYPE_LIST
       (blen key) 0 0 ord ev) key [] [].

(** ** Accessors *)

Definition event_payload_base (area : Dsa) (ev : PgRedisDirtyEvent) : option bytes :=
  if ev_dsa_overflow ev then shared_bytes area (ev_dsa_payload ev)
  else Some (ev_inline_bytes ev).

Definition pg_redis_event_decode_key (area : Dsa) (ev : PgRedisDirtyEvent) : option bytes :=
  base ← event_payload_base area ev; read_at base 0 (ev_key_len ev).

Definition pg_redis_event_decode_field (area : Dsa) (ev : PgRedisDirtyEvent) : option bytes :=
  base ← event_payload_base area ev; read_at base (ev_key_len ev) (ev_field_len ev).

Definition pg_redis_event_decode_value (area : Dsa) (ev : PgRedisDirtyEvent) : option bytes :=
  base ← event_payload_base area ev;
  read_at base (ev_key_len ev + ev_field_len ev) (ev_value_len ev).

(** ** What an event stands for *)

(** One durable change, as the callers of the encoders name it. *)
Inductive Change :=
| KeyUpsert (key : bytes) (e : PgRedisEntry) (tlv : bytes)
| KeyDelete (key : bytes)
| HashFieldUpsert (key field val : bytes)
| HashFieldDelete (key field : bytes)
| ListItemInsert (key : bytes) (ord : Z) (val : bytes)
| ListItemDelete (key : bytes) (ord : Z).

Definition encode_change (ev : PgRedisDirtyEvent) (c : Change) : M Dsa PgRedisDirtyEvent :=
  match c with
  | KeyUpsert key e tlv => pg_redis_event_encode_key_upsert ev key e tlv
  | KeyDelete key => pg_redis_event_encode_key_delete ev key
  | HashFieldUpsert key field val => pg_redis_event_encode_hash_field_upsert ev key field val
  | HashFieldDelete key field => pg_redis_event_encode_hash_field_delete ev key field
  | ListItemInsert key ord val => pg_redis_event_encode_list_item_insert ev key ord val
  | ListItemDelete key ord => pg_redis_event_encode_list_item_delete ev key ord
  end.

Definition change_key (c : Change) : bytes :=
  match c with
  | KeyUpsert key _ _ | KeyDelete key | HashFieldUpsert key _ _ | HashFieldDelete key _
  | ListItemInsert key _ _ | ListItemDelete key _ => key
  end.
Definition change_field (c : Change) : bytes :=
  match c with HashFieldUpsert _ f _ | HashFieldDelete _ f => f | _ => [] end.
Definition change_value (c : Change) : bytes :=
  match c with
  | KeyUpsert _ _ tlv => tlv
  | HashFieldUpsert _ _ v | ListItemInsert _ _ v => v
  | _ => []
  end.
Definition change_size (c : Change) : Z :=
  blen (change_key c) + blen (change_field c) + blen (change_value c).

(** The members that are not payload. *)
Definition header_says (c : Change) (ev : PgRedisDirtyEvent) : Prop :=
  match c with
  | KeyUpsert _ e _ =>
      ev_type ev = PG_REDIS_EVENT_KEY_UPSERT /\ ev_value_type ev = e_type e /\
      ev_expire_at ev = e_expire_at e /\ ev_has_expire ev = e_has_expire e /\
      ev_version ev = e_version e
  | KeyDelete _ => ev_type ev = PG_REDIS_EVENT_KEY_DELETE
  | HashFieldUpsert _ _ _ => ev_type ev = PG_REDIS_EVENT_HASH_FIELD_UPSERT
  | HashFieldDelete _ _ => ev_type ev = PG_REDIS_EVENT_HASH_FIELD_DELETE
  | ListItemInsert _ ord _ => ev_type ev = PG_REDIS_EVENT_LIST_ITEM_INSERT /\ ev_ord ev = ord
  | ListItemDelete _ ord => ev_type ev = PG_REDIS_EVENT_LIST_ITEM_DELETE /\ ev_ord ev = ord
  end.

(** A memory in which the event still owns its payload. *)
Definition payload_kept (area' area : Dsa) (ev : PgRedisDirtyEvent) : Prop :=
  ev_dsa_overflow ev = true ->
  shared_bytes area' (ev_dsa_payload ev) = shared_bytes area (ev_dsa_payload ev).

(** Keys and fields are capped at 1024 bytes by the argument checks. *)
Definition ids_fit (c : Change) : Prop :=
  blen (change_key c) <= UINT16_MAX /\ blen (change_field c) <= UINT16_MAX.

(** ** Lemmas *)

Lemma write_parts_eq part1 part2 part3 buf :
  (length part1 + length part2 + length part3 <= length buf)%nat ->
  write_parts part1 part2 part3 buf =
  part1 ++ part2 ++ part3 ++ drop (length part1 + length part2 + length part3) buf.
Proof.
  intros Hl. unfold write_parts, memcpy_at. rewrite take_0. cbn [app Nat.add].
  rewrite (take_app_length part1), (drop_app_add part1), drop_drop.
  rewrite (app_assoc part1 part2), <- length_app.
  rewrite take_app_length, drop_app_add, drop_drop, <- !app_assoc.
  rewrite length_app. repeat f_equal; lia.
Qed.

Lemma read_at_middle a b c n :
  0 <= n <= blen b -> read_at (a ++ b ++ c) (blen a) n = Some (take (Z.to_nat n) b).
Proof.
  intros Hn. unfold read_at. rewrite !blen_app.
  pose proof (blen_nonneg c). rewrite (proj2 (Z.leb_le _ _)) by lia.
  unfold blen in *. rewrite Nat2Z.id, drop_app_length, take_app_le by lia. done.
Qed.

Lemma u16_len_le (b : bytes) : 0 <= u16 (blen b) <= blen b.
Proof.
  unfold wrap_u. pose proof (blen_nonneg b). split; [apply Z.mod_pos_bound; lia|].
  apply Z.mod_le; lia.
Qed.

Lemma u16_fits z : 0 <= z <= UINT16_MAX -> u16 z = z.
Proof. unfold UINT16_MAX. intros. apply wrap_u_small. lia. Qed.

Context `{!DsaLaws}.

(** Where the payload is, and what else the encoder changed. *)
Lemma event_inline_write_spec ev p1 p2 p3 area ev' area' :
  blen (ev_inline_bytes ev) = PG_REDIS_DIRTY_EVENT_INLINE_BYTES ->
  event_inline_write ev p1 p2 p3 area = (Ret ev', area') ->
  (exists rest, event_payload_base area' ev' = Some (p1 ++ p2 ++ p3 ++ rest)) /\
  (exists o p i, ev' = with_payload o p i ev) /\
  (forall q, is_Some (shared_bytes area q) ->
     shared_bytes area' q = shared_bytes area q /\
     (ev_dsa_overflow ev' = true -> q <> ev_dsa_payload ev')).
Proof.
  intros Hb. unfold event_inline_write. case_match eqn:Ht.
  - rewrite bind_unfold. destruct (pg_redis_shared_palloc _ area) as [[p|?] a1] eqn:Ha; [|done].
    case_match eqn:Hp; [done|]. apply Z.eqb_neq in Hp. cbn. intros [= <- <-].
    destruct (palloc_spec _ _ _ _ Ha Hp) as (Hf & Hn & Ho).
    assert (is_Some a1) as Hs.
    { by eapply shared_bytes_attached. }
    rewrite Hn. cbn [default from_option id]. split; [|split; [eauto|]].
    + exists []. unfold event_payload_base. cbn. rewrite shared_write_spec, decide_True by done.
      rewrite write_parts_eq by (rewrite length_replicate; unfold blen; lia).
      rewrite drop_ge by (rewrite length_replicate; unfold blen; lia). done.
    + intros q [b Hq]. assert (q <> p) by congruence. cbn. split; [|done].
      rewrite shared_write_spec, decide_False by done. by apply Ho.
  - intros [= <- <-]. split; [|split; [eauto|]]; [|by intros q _].
    apply Z.ltb_ge in Ht. unfold event_payload_base. cbn.
    rewrite write_parts_eq by (unfold blen in *; lia). eauto.
Qed.

Lemma encode_change_spec ev c area ev' area' :
  blen (ev_inline_bytes ev) = PG_REDIS_DIRTY_EVENT_INLINE_BYTES ->
  encode_change ev c area = (Ret ev', area') ->
  (exists rest, event_payload_base area' ev' =
     Some (change_key c ++ change_field c ++ change_value c ++ rest)) /\
  header_says c ev' /\
  ev_key_len ev' = u16 (blen (change_key c)) /\
  ev_field_len ev' = u16 (blen (change_field c)) /\
  ev_value_len ev' = u16 (blen (change_value c)) /\
  (forall q, is_Some (shared_bytes area q) ->
     shared_bytes area' q = shared_bytes area q /\
     (ev_dsa_overflow ev' = true -> q <> ev_dsa_payload ev')).
Proof.
  intros Hb E. destruct c; apply event_inline_write_spec in E;
    try exact Hb; destruct E as (H1 & (o & p & i & ->) & H3); cbn; repeat split; eauto;
    by apply H3.
Qed.

Lemma payload_kept_base area' area ev :
  payload_kept area' area ev -> event_payload_base area' ev = event_payload_base area ev.
Proof. unfold payload_kept, event_payload_base. intros Hk. by case_match; [apply Hk|]. Qed.

(** The accessors on an encoded event: the value comes back cut to its length
    modulo 2^16. *)
Lemma decode_encoded_change ev c area ev' area' area'' :
  blen (ev_inline_bytes ev) = PG_REDIS_DIRTY_EVENT_INLINE_BYTES -> ids_fit c ->
  encode_change ev c area = (Ret ev', area') -> payload_kept area'' area' ev' ->
  pg_redis_event_decode_key area'' ev' = Some (change_key c) /\
  pg_redis_event_decode_field area'' ev' = Some (change_field c) /\
  pg_redis_event_decode_value area'' ev' =
    Some (take (Z.to_nat (u16 (blen (change_value c)))) (change_value c)) /\
  header_says c ev'.
Proof.
  intros Hb [Hk Hf] E Hkept. apply encode_change_spec in E as ([rest Hp] & Hh & Ek & Ef & Ev & _); [|done].
  rewrite <- (payload_kept_base _ _ _ Hkept) in Hp.
  unfold pg_redis_event_decode_key, pg_redis_event_decode_field, pg_redis_event_decode_value.
  rewrite Hp, Ek, Ef, Ev. cbn [mbind option_bind].
  pose proof (blen_nonneg (change_key c)). pose proof (blen_nonneg (change_field c)).
  rewrite !(u16_fits (blen (change_key c))), !(u16_fits (blen (change_field c))) by done.
  split_and!; [| | |done].
  - pose proof (read_at_middle [] (change_key c)) as Hr. cbn [app] in Hr.
    rewrite blen_nil in Hr. rewrite Hr by lia. by rewrite firstn_all2; [|unfold blen; lia].
  - rewrite (read_at_middle (change_key c) (change_field c)) by lia.
    by rewrite firstn_all2; [|unfold blen; lia].
  - rewrite app_assoc, <- blen_app. apply read_at_middle, u16_len_le.
Qed.

(** The encoders succeed when the payload fits inline, and raise only for want
    of shared memory. *)
Lemma encode_change_total ev c area :
  match encode_change ev c area with
  | (Ret _, _) => True
  | (Raise e, area') =>
      e = ERRCODE_OUT_OF_MEMORY /\ area' = area /\ PG_REDIS_DIRTY_EVENT_INLINE_BYTES < change_size c
  end.
Proof.
  assert (Hw : forall h p1 p2 p3, match event_inline_write h p1 p2 p3 area with
    | (Ret _, _) => True
    | (Raise e, area') => e = ERRCODE_OUT_OF_MEMORY /\ area' = area /\
        PG_REDIS_DIRTY_EVENT_INLINE_BYTES < blen p1 + blen p2 + blen p3 end).
  { intros h p1 p2 p3. unfold event_inline_write.
    destruct (PG_REDIS_DIRTY_EVENT_INLINE_BYTES <? _) eqn:Ht; [|done].
    apply Z.ltb_lt in Ht. rewrite bind_unfold. unfold pg_redis_shared_palloc.
    destruct area as [m|]; [|done]. destruct (dsa_choose m _) as [p|] eqn:Hc; [|done].
    by rewrite (proj2 (Z.eqb_neq p _)) by (by eapply dsa_valid). }
  destruct c; apply Hw.
Qed.


(** C34: [value_len] is a [uint16] and the encoders cast without a check: a
    value of 65536 bytes or more reaches the consumer cut to its length modulo
    65536, with no error. *)
Theorem long_value_truncated ev c area ev' area' :
  blen (ev_inline_bytes ev) = PG_REDIS_DIRTY_EVENT_INLINE_BYTES -> ids_fit c ->
  encode_change ev c area = (Ret ev', area') ->
  pg_redis_event_decode_value area' ev' =
    Some (take (Z.to_nat (blen (change_value c) mod 65536)) (change_value c)).
Proof.
  intros Hb Hi E.
  by destruct (decode_encoded_change _ _ _ _ _ area' Hb Hi E) as (_ & _ & -> & _).
Qed.

End Codec.

(** ** Witnesses *)

Definition blank_event : PgRedisDirtyEvent :=
  {| ev_type := PG_REDIS_EVENT_KEY_DELETE; ev_value_type := PG_REDIS_TYPE_STRING; ev_key_len := 0;
     ev_field_len := 0; ev_ord := 0; ev_expire_at := 0; ev_has_expire := false; ev_version := 0;
     ev_value_len := 0; ev_dsa_overflow := false; ev_dsa_payload := 0;
     ev_inline_bytes := replicate 256 Byte.x2a |}.

(** A value that spills, under the bump allocator. *)
Definition spilled_change : Change := HashFieldUpsert (bs "h") (bs "f") (replicate 300 Byte.x61).


(** The shortest value that is cut. *)
Definition long_value : bytes := replicate (Z.to_nat 65536) Byte.x61.

Lemma long_value_len : blen long_value = 65536.
Proof. unfold blen, long_value. rewrite length_replicate. by rewrite Z2Nat.id. Qed.

Lemma long_value_encodes v :
  blen v = 65536 ->
  exists ev' area',
    @encode_change (bump_allocator 100000) blank_event (ListItemInsert (bs "l") 0 v) (Some ∅) =
      (Ret ev', area').
Proof.
  intros Hv. unfold encode_change, pg_redis_event_encode_list_item_insert, event_inline_write.
  rewrite Hv. cbn. eauto.
Qed.

Lemma long_value_truncated_witness :
  exists ev' area',
    @encode_change (bump_allocator 100000) blank_event (ListItemInsert (bs "l") 0 long_value)
      (Some ∅) = (Ret ev', area') /\
    pg_redis_event_decode_value area' ev' = Some [].
Proof.
  destruct (long_value_encodes _ long_value_len) as (ev' & area' & E).
  assert (Hids : ids_fit (ListItemInsert (bs "l") 0 long_value)) by (split; discriminate).
  exists ev', area'. split; [exact E|].
  rewrite (@long_value_truncated (bump_allocator 100000) (bump_laws 100000) blank_event
             (ListItemInsert (bs "l") 0 long_value) (Some ∅) ev' area' eq_refl Hids E).
  cbn [change_value]. rewrite long_value_len. reflexivity.
Defined.
