(* ===== verification/DirtyRing.v ===== *)
(** * The dirty ring (src/dirty_ring.c)

    Slots with their lifecycle state, the two heads, and the operations on
    them.  Publishing takes no lock: it is a machine with one transition per
    atomic access, so that producers interleave as they do in shared memory.
    The consumer's operations run under [ring_consumer_lock] and are one
    transition each; a release writes [read_head] last, and a producer looks
    at a slot only after it has seen room between the heads, so no producer
    observes a release half done.  Heads are [uint64]. *)
From S2P Require Import Prelude Types SharedMem DirtyEvent.

Inductive SlotState := SLOT_EMPTY | SLOT_WRITING | SLOT_READY | SLOT_DRAINING.

#[export] Instance SlotState_eq_dec : EqDecision SlotState.
Proof. solve_decision. Defined.

Record Slot := {
  sl_state : SlotState;
  sl_write_started_at : Z;
  sl_event : PgRedisDirtyEvent
}.

Record Ring := {
  ring_slots : list Slot;
  ring_write_head : Z;
  ring_read_head : Z
}.

Definition zero_event : PgRedisDirtyEvent :=
  {| ev_type := PG_REDIS_EVENT_KEY_UPSERT; ev_value_type := PG_REDIS_TYPE_STRING;
     ev_key_len := 0; ev_field_len := 0; ev_ord := 0; ev_expire_at := 0; ev_has_expire := false;
     ev_version := 0; ev_value_len := 0; ev_dsa_overflow := false; ev_dsa_payload := 0;
     ev_inline_bytes := replicate 256 Byte.x00 |}.
Definition zero_slot : Slot :=
  {| sl_state := SLOT_EMPTY; sl_write_started_at := 0; sl_event := zero_event |}.

Definition pg_redis_dirty_ring_shmem_init (slot_count : nat) : Ring :=
  {| ring_slots := replicate slot_count zero_slot; ring_write_head := 0; ring_read_head := 0 |}.

Definition ring_capacity (h : Ring) : Z := Z.of_nat (length (ring_slots h)).

(** [ring_slots[pos % ring_capacity]] *)
Definition slot (h : Ring) (pos : Z) : Slot :=
  default zero_slot (ring_slots h !! Z.to_nat (pos mod ring_capacity h)).
Definition set_slot (pos : Z) (f : Slot -> Slot) (h : Ring) : Ring :=
  {| ring_slots := alter f (Z.to_nat (pos mod ring_capacity h)) (ring_slots h);
     ring_write_head := ring_write_head h; ring_read_head := ring_read_head h |}.
Definition set_write_head (w : Z) (h : Ring) : Ring :=
  {| ring_slots := ring_slots h; ring_write_head := w; ring_read_head := ring_read_head h |}.
Definition set_read_head (r : Z) (h : Ring) : Ring :=
  {| ring_slots := ring_slots h; ring_write_head := ring_write_head h; ring_read_head := r |}.
Definition set_state (st : SlotState) (sl : Slot) : Slot :=
  {| sl_state := st; sl_write_started_at := sl_write_started_at sl; sl_event := sl_event sl |}.
(** The payload write of publish: everything but [state]. *)
Definition fill_slot (now : Z) (ev : PgRedisDirtyEvent) (sl : Slot) : Slot :=
  {| sl_state := sl_state sl; sl_write_started_at := now; sl_event := ev |}.

Definition pg_redis_dirty_ring_pending (h : Ring) : Z :=
  if ring_read_head h <? ring_write_head h then ring_write_head h - ring_read_head h else 0.

Definition pg_redis_dirty_ring_full (h : Ring) : bool :=
  if ring_capacity h <=? 0 then false
  else ring_capacity h <=? pg_redis_dirty_ring_pending h.

(** The scan of [read_head, write_head], both ends included. *)
Definition stuck_writing (h : Ring) : Z :=
  Z.of_nat (length (filter (fun pos => sl_state (slot h pos) = SLOT_WRITING)
    (seqZ (ring_read_head h) (ring_write_head h - ring_read_head h + 1)))).
Definition pg_redis_dirty_ring_inspect (h : Ring) : Z * Z * Z * Z :=
  if 0 <? ring_capacity h
  then (ring_write_head h, ring_read_head h, pg_redis_dirty_ring_pending h, stuck_writing h)
  else (0, 0, 0, 0).

(** ** Producers *)

Inductive PgRedisRingPublishResult := PG_REDIS_RING_OK | PG_REDIS_RING_FULL.

#[export] Instance PgRedisRingPublishResult_eq_dec : EqDecision PgRedisRingPublishResult.
Proof. solve_decision. Defined.

(** Where a call of [pg_redis_dirty_ring_publish] stands. *)
Inductive ProducerState :=
| P_Start                      (* about to read write_head *)
| P_GotW (w : Z)               (* about to read read_head *)
| P_Reserve (w : Z)            (* about to CAS slots[w] EMPTY -> WRITING *)
| P_Write (w : Z)              (* reserved; about to fill the slot *)
| P_Publish (w : Z)            (* filled; about to CAS WRITING -> READY *)
| P_Advance (w : Z)            (* published; about to CAS write_head w -> w + 1 *)
| P_Return (res : PgRedisRingPublishResult)
| P_Raise (e : errcode).

#[export] Instance ProducerState_eq_dec : EqDecision ProducerState.
Proof. solve_decision. Defined.

Definition publish_step (now : Z) (ev : PgRedisDirtyEvent) (pc : ProducerState) (h : Ring)
    : ProducerState * Ring :=
  match pc with
  | P_Start =>
      if ring_capacity h <=? 0 then (P_Raise ERRCODE_INTERNAL_ERROR, h)
      else (P_GotW (ring_write_head h), h)
  | P_GotW w =>
      if ring_capacity h <=? u64 (w - ring_read_head h)
      then (P_Return PG_REDIS_RING_FULL, h) else (P_Reserve w, h)
  | P_Reserve w =>
      match sl_state (slot h w) with
      | SLOT_EMPTY => (P_Write w, set_slot w (set_state SLOT_WRITING) h)
      | _ => (P_Start, h)
      end
  | P_Write w => (P_Publish w, set_slot w (fill_slot now ev) h)
  | P_Publish w =>
      match sl_state (slot h w) with
      | SLOT_WRITING => (P_Advance w, set_slot w (set_state SLOT_READY) h)
      | _ => (P_Return PG_REDIS_RING_FULL, h)
      end
  | P_Advance w =>
      (P_Return PG_REDIS_RING_OK,
       if ring_write_head h =? w then set_write_head (u64 (w + 1)) h else h)
  | P_Return _ | P_Raise _ => (pc, h)
  end.

(** A call that no other process interleaves with: six transitions when it
    gets a slot; a failed CAS goes back to the start. *)
Fixpoint publish_run (fuel : nat) (now : Z) (ev : PgRedisDirtyEvent) (pc : ProducerState)
    (h : Ring) : option (PgRedisRingPublishResult * Ring) :=
  match pc, fuel with
  | P_Return res, _ => Some (res, h)
  | _, O => None
  | _, S fuel' => let '(pc', h') := publish_step now ev pc h in publish_run fuel' now ev pc' h'
  end.
Definition pg_redis_dirty_ring_publish (now : Z) (ev : PgRedisDirtyEvent) (h : Ring)
    : option (PgRedisRingPublishResult * Ring) := publish_run 6 now ev P_Start h.

(** ** The consumer *)

(** At most [n] READY slots from [pos] on, below [w]. *)
Fixpoint collect_loop (n : nat) (pos w : Z) (h : Ring) : list PgRedisDirtyEvent * Ring :=
  match n with
  | O => ([], h)
  | S n' =>
      if pos <? w then
        match sl_state (slot h pos) with
        | SLOT_READY =>
            let '(evs, h') := collect_loop n' (u64 (pos + 1)) w (set_slot pos (set_state SLOT_DRAINING) h) in
            (sl_event (slot h pos) :: evs, h')
        | _ => ([], h)
        end
      else ([], h)
  end.
Definition pg_redis_dirty_ring_collect (max : nat) (h : Ring)
    : list PgRedisDirtyEvent * Z * Ring :=
  if ring_capacity h <=? 0 then ([], 0, h)
  else
    let '(evs, h') := collect_loop max (ring_read_head h) (ring_write_head h) h in
    (evs, ring_read_head h, h').

(** Free a spilled payload and forget it. *)
Definition forget_payload (ev : PgRedisDirtyEvent) : PgRedisDirtyEvent :=
  if ev_dsa_overflow ev && negb (ev_dsa_payload ev =? InvalidDsaPointer)
  then with_payload false InvalidDsaPointer (ev_inline_bytes ev) ev else ev.
Definition free_event_spill (ev : PgRedisDirtyEvent) (area : Dsa) : Dsa :=
  if ev_dsa_overflow ev && negb (ev_dsa_payload ev =? InvalidDsaPointer)
  then pg_redis_shared_pfree (ev_dsa_payload ev) area else area.
Definition empty_slot (sl : Slot) : Slot :=
  {| sl_state := SLOT_EMPTY; sl_write_started_at := sl_write_started_at sl;
     sl_event := forget_payload (sl_event sl) |}.

(** The loop of release over [n] slots from [pos]. *)
Fixpoint release_loop (n : nat) (pos : Z) (x : Ring * Dsa) : Ring * Dsa :=
  match n with
  | O => x
  | S n' =>
      release_loop n' (u64 (pos + 1))
        (set_slot pos empty_slot x.1, free_event_spill (sl_event (slot x.1 pos)) x.2)
  end.
Definition pg_redis_dirty_ring_release_batch (base : Z) (n : nat) (x : Ring * Dsa) : Ring * Dsa :=
  if (ring_capacity x.1 <=? 0) || (Z.of_nat n <=? 0) then x
  else
    let '(h, area) := release_loop n base x in
    (set_read_head (u64 (base + Z.of_nat n)) h, area).

Fixpoint abort_loop (n : nat) (pos : Z) (h : Ring) : Ring :=
  match n with
  | O => h
  | S n' => abort_loop n' (u64 (pos + 1)) (set_slot pos (set_state SLOT_READY) h)
  end.
Definition pg_redis_dirty_ring_abort_batch (base : Z) (n : nat) (h : Ring) : Ring :=
  if (ring_capacity h <=? 0) || (Z.of_nat n <=? 0) then h else abort_loop n base h.

(** [TimestampDifferenceExceeds]: timestamps are microseconds. *)
Definition TimestampDifferenceExceeds (start stop msec : Z) : bool := msec * 1000 <=? stop - start.

Definition pg_redis_dirty_ring_reclaim_stuck (now stuck_timeout_ms : Z) (h : Ring) : Z * Ring :=
  if ring_capacity h <=? 0 then (0, h)
  else
    let w := ring_write_head h in
    if bool_decide (sl_state (slot h w) = SLOT_WRITING) &&
       TimestampDifferenceExceeds (sl_write_started_at (slot h w)) now stuck_timeout_ms
    then (1, set_slot w (set_state SLOT_EMPTY) h)
    else (0, h).

(** At most [n] slots from [r] on, below [w]; returns the events dropped. *)
Fixpoint drop_loop (n : nat) (r w : Z) (x : Ring * Dsa) : list PgRedisDirtyEvent * (Ring * Dsa) :=
  match n with
  | O => ([], x)
  | S n' =>
      if r <? w then
        match sl_state (slot x.1 r) with
        | SLOT_READY | SLOT_DRAINING =>
            let '(evs, x') := drop_loop n' (u64 (r + 1)) w
              (set_slot r empty_slot x.1, free_event_spill (sl_event (slot x.1 r)) x.2) in
            (sl_event (slot x.1 r) :: evs, x')
        | _ => ([], x)
        end
      else ([], x)
  end.
Definition pg_redis_dirty_ring_drop_all_pending (x : Ring * Dsa)
    : list PgRedisDirtyEvent * (Ring * Dsa) :=
  if ring_capacity x.1 <=? 0 then ([], x)
  else
    let r := ring_read_head x.1 in
    let w := ring_write_head x.1 in
    let '(evs, (h, area)) := drop_loop (Z.to_nat (w - r)) r w x in
    (evs, (match evs with [] => h | _ => set_read_head (u64 (r + Z.of_nat (length evs))) h end, area)).
