(* ===== verification/RingProtocol.v ===== *)
(** * Producers, drainers and reclaim on one ring

    The interleavings of src/dirty_ring.c: any number of producers inside
    [pg_redis_dirty_ring_publish], drainers that collected a batch and have not
    released it yet (the background worker and, under [sync_flush], the
    producers themselves), the reclaim pass and FLUSHALL.  [acknowledged] lists
    the events whose publish returned OK, in order; [consumed] the events that
    left the ring, in order. *)
From S2P Require Import Prelude Types SharedMem DirtyEvent DirtyRing.

Record Sys := {
  sy_ring : Ring;
  sy_dsa : Dsa;
  sy_producers : gmap nat (PgRedisDirtyEvent * ProducerState);
  sy_drains : gmap nat (Z * list PgRedisDirtyEvent);
  acknowledged : list PgRedisDirtyEvent;
  consumed : list PgRedisDirtyEvent
}.

Inductive Action :=
| Call (p : nat) (ev : PgRedisDirtyEvent)     (* publish(ev) *)
| Step (p : nat) (now : Z)                    (* the next atomic access of p *)
| Die (p : nat)                               (* p leaves publish by an error *)
| Collect (d : nat) (max : nat)
| Release (d : nat)
| AbortBatch (d : nat)
| Reclaim (now stuck_timeout_ms : Z)
| DropAll.

Definition with_ring (h : Ring) (s : Sys) : Sys :=
  {| sy_ring := h; sy_dsa := sy_dsa s; sy_producers := sy_producers s; sy_drains := sy_drains s;
     acknowledged := acknowledged s; consumed := consumed s |}.
Definition with_producers (ps : gmap nat (PgRedisDirtyEvent * ProducerState)) (s : Sys) : Sys :=
  {| sy_ring := sy_ring s; sy_dsa := sy_dsa s; sy_producers := ps; sy_drains := sy_drains s;
     acknowledged := acknowledged s; consumed := consumed s |}.
Definition with_drains (ds : gmap nat (Z * list PgRedisDirtyEvent)) (s : Sys) : Sys :=
  {| sy_ring := sy_ring s; sy_dsa := sy_dsa s; sy_producers := sy_producers s; sy_drains := ds;
     acknowledged := acknowledged s; consumed := consumed s |}.
Definition acknowledge (ev : PgRedisDirtyEvent) (s : Sys) : Sys :=
  {| sy_ring := sy_ring s; sy_dsa := sy_dsa s; sy_producers := sy_producers s;
     sy_drains := sy_drains s; acknowledged := acknowledged s ++ [ev]; consumed := consumed s |}.
Definition consume (evs : list PgRedisDirtyEvent) (x : Ring * Dsa) (s : Sys) : Sys :=
  {| sy_ring := x.1; sy_dsa := x.2; sy_producers := sy_producers s; sy_drains := sy_drains s;
     acknowledged := acknowledged s; consumed := consumed s ++ evs |}.

(** [None]: the action is not possible in this state. *)
Definition sys_step (a : Action) (s : Sys) : option Sys :=
  match a with
  | Call p ev =>
      match sy_producers s !! p with
      | Some _ => None
      | None => Some (with_producers (<[p := (ev, P_Start)]> (sy_producers s)) s)
      end
  | Step p now =>
      '(ev, pc) ← sy_producers s !! p;
      let '(pc', h') := publish_step now ev pc (sy_ring s) in
      Some match pc' with
           | P_Return PG_REDIS_RING_OK =>
               acknowledge ev (with_producers (delete p (sy_producers s)) (with_ring h' s))
           | P_Return PG_REDIS_RING_FULL | P_Raise _ =>
               with_producers (delete p (sy_producers s)) (with_ring h' s)
           | _ => with_producers (<[p := (ev, pc')]> (sy_producers s)) (with_ring h' s)
           end
  | Die p =>
      _ ← sy_producers s !! p; Some (with_producers (delete p (sy_producers s)) s)
  | Collect d max =>
      match sy_drains s !! d with
      | Some _ => None
      | None =>
          let '(evs, base, h') := pg_redis_dirty_ring_collect max (sy_ring s) in
          Some match evs with
               | [] => with_ring h' s
               | _ => with_drains (<[d := (base, evs)]> (sy_drains s)) (with_ring h' s)
               end
      end
  | Release d =>
      '(base, evs) ← sy_drains s !! d;
      Some (with_drains (delete d (sy_drains s))
        (consume evs (pg_redis_dirty_ring_release_batch base (length evs) (sy_ring s, sy_dsa s)) s))
  | AbortBatch d =>
      '(base, evs) ← sy_drains s !! d;
      Some (with_drains (delete d (sy_drains s))
        (with_ring (pg_redis_dirty_ring_abort_batch base (length evs) (sy_ring s)) s))
  | Reclaim now t => Some (with_ring (pg_redis_dirty_ring_reclaim_stuck now t (sy_ring s)).2 s)
  | DropAll =>
      let '(evs, x) := pg_redis_dirty_ring_drop_all_pending (sy_ring s, sy_dsa s) in
      Some (consume evs x s)
  end.

Fixpoint run (acts : list Action) (s : Sys) : option Sys :=
  match acts with
  | [] => Some s
  | a :: acts' => s' ← sys_step a s; run acts' s'
  end.

Definition sys_init (slot_count : nat) (area : Dsa) : Sys :=
  {| sy_ring := pg_redis_dirty_ring_shmem_init slot_count; sy_dsa := area; sy_producers := ∅;
     sy_drains := ∅; acknowledged := []; consumed := [] |}.

(** The position a producer has reserved. *)
Definition owned (pc : ProducerState) : option Z :=
  match pc with P_Write w | P_Publish w | P_Advance w => Some w | _ => None end.

(** ** Orderly actions

    What the comments of the source take for granted, as conditions on single
    actions: a reservation happens while [write_head] is still what the
    producer read ("write_head cannot advance past w until slots[w]'s owner
    publishes it"); the reclaim pass resets no slot of a producer that is still
    running ("a live producer never lingers"); FLUSHALL drops no slot a drainer
    holds ("only one drainer ever holds a given batch's DRAINING slots"); and a
    producer does not die between publishing its slot and advancing the head. *)
Definition orderly (a : Action) (s : Sys) : Prop :=
  match a with
  | Step p _ =>
      match sy_producers s !! p with
      | Some (_, P_Reserve w) =>
          sl_state (slot (sy_ring s) w) = SLOT_EMPTY -> w = ring_write_head (sy_ring s)
      | _ => True
      end
  | Reclaim now t =>
      (pg_redis_dirty_ring_reclaim_stuck now t (sy_ring s)).1 = 0 \/
      map_Forall (fun _ x => owned x.2 = None) (sy_producers s)
  | DropAll => sy_drains s = ∅
  | Die p =>
      match sy_producers s !! p with Some (_, P_Advance _) => False | _ => True end
  | _ => True
  end.

Fixpoint orderly_run (acts : list Action) (s : Sys) : Prop :=
  match acts with
  | [] => True
  | a :: acts' =>
      orderly a s /\ match sys_step a s with Some s' => orderly_run acts' s' | None => False end
  end.

(** The events between the heads. *)
Definition pending_events (h : Ring) : list PgRedisDirtyEvent :=
  (fun pos => sl_event (slot h pos)) <$>
    seqZ (ring_read_head h) (ring_write_head h - ring_read_head h).

(** The abstract contract: a bounded queue.  Everything acknowledged has left
    the queue or is in it, once and in order; a batch in flight is a prefix of
    the queue. *)
Record is_queue (s : Sys) : Prop := {
  q_contents : acknowledged s = consumed s ++ pending_events (sy_ring s);
  q_bound : Z.of_nat (length (pending_events (sy_ring s))) <= ring_capacity (sy_ring s);
  q_batch : forall d base evs, sy_drains s !! d = Some (base, evs) ->
    base = ring_read_head (sy_ring s) /\ evs `prefix_of` pending_events (sy_ring s);
  q_one_drainer : forall d d' x x', sy_drains s !! d = Some x -> sy_drains s !! d' = Some x' -> d = d'
}.

(** ** Slots by position *)

Section Positions.
Context (h : Ring) (Hcap : 0 < ring_capacity h).

Lemma slot_index_lt pos : (Z.to_nat (pos mod ring_capacity h) < length (ring_slots h))%nat.
Proof. pose proof (Z.mod_pos_bound pos _ Hcap). unfold ring_capacity in *. lia. Qed.

Lemma slot_index_eq pos pos' :
  Z.to_nat (pos mod ring_capacity h) = Z.to_nat (pos' mod ring_capacity h) <->
  pos mod ring_capacity h = pos' mod ring_capacity h.
Proof.
  pose proof (Z.mod_pos_bound pos _ Hcap). pose proof (Z.mod_pos_bound pos' _ Hcap). lia.
Qed.

(** Two positions of one window share a slot only if they are equal. *)
Lemma mod_window pos pos' :
  Z.abs (pos - pos') < ring_capacity h ->
  pos mod ring_capacity h = pos' mod ring_capacity h -> pos = pos'.
Proof.
  intros Hd He. pose proof (Z.div_mod pos (ring_capacity h) ltac:(lia)).
  pose proof (Z.div_mod pos' (ring_capacity h) ltac:(lia)).
  assert (pos - pos' = ring_capacity h * (pos / ring_capacity h - pos' / ring_capacity h)) as Hq by lia.
  revert Hd Hq. generalize (pos / ring_capacity h - pos' / ring_capacity h) as k.
  intros k Hd Hq. destruct (Z.lt_trichotomy k 0) as [?|[->|?]]; nia.
Qed.

Lemma set_slot_capacity pos f : ring_capacity (set_slot pos f h) = ring_capacity h.
Proof. unfold ring_capacity, set_slot. cbn. by rewrite length_alter. Qed.

Lemma slot_set_mod pos f pos' :
  slot (set_slot pos f h) pos' =
  if decide (pos mod ring_capacity h = pos' mod ring_capacity h)
  then f (slot h pos') else slot h pos'.
Proof.
  unfold slot. rewrite set_slot_capacity. cbn [set_slot ring_slots]. case_decide as He.
  - apply slot_index_eq in He. rewrite He, list_lookup_alter_eq.
    destruct (lookup_lt_is_Some_2 _ _ (slot_index_lt pos')) as [sl ->]. done.
  - rewrite list_lookup_alter_ne; [done|]. by rewrite slot_index_eq.
Qed.

Lemma slot_set_eq pos f : slot (set_slot pos f h) pos = f (slot h pos).
Proof. by rewrite slot_set_mod, decide_True. Qed.

Lemma slot_set_ne pos f pos' :
  pos <> pos' -> Z.abs (pos - pos') < ring_capacity h -> slot (set_slot pos f h) pos' = slot h pos'.
Proof. intros. rewrite slot_set_mod, decide_False; [done|]. intros ?%mod_window; done. Qed.

Lemma slot_wrap pos : slot h (pos + ring_capacity h) = slot h pos.
Proof.
  unfold slot. do 3 f_equal. rewrite <- (Z.mul_1_l (ring_capacity h)) at 1.
  apply Z_mod_plus_full.
Qed.

End Positions.

(** ** The invariant *)

(** What a producer knows where it stands. *)
Definition pc_ok (k : Z) (h : Ring) (pc : ProducerState) : Prop :=
  match pc with
  | P_GotW v => 0 <= v <= k
  | P_Reserve v => v < ring_read_head h + ring_capacity h
  | P_Return _ | P_Raise _ => False
  | _ => True
  end.

Lemma pc_ok_mono k k' h h' pc :
  pc_ok k h pc -> k <= k' -> ring_read_head h <= ring_read_head h' ->
  ring_capacity h' = ring_capacity h -> pc_ok k' h' pc.
Proof. destruct pc; cbn; lia. Qed.

(** [b] is the batch in flight and [k] bounds the heads. *)
Record ring_inv (k : Z) (b : list PgRedisDirtyEvent) (s : Sys) : Prop := {
  ri_cap : 0 < ring_capacity (sy_ring s);
  ri_heads : 0 <= ring_read_head (sy_ring s) <= ring_write_head (sy_ring s);
  ri_room : ring_write_head (sy_ring s) <= ring_read_head (sy_ring s) + ring_capacity (sy_ring s);
  ri_k : ring_write_head (sy_ring s) <= k /\ k + ring_capacity (sy_ring s) < 2 ^ 64;
  ri_batch_len : Z.of_nat (length b) <= ring_write_head (sy_ring s) - ring_read_head (sy_ring s);
  ri_drains : (sy_drains s = ∅ /\ b = []) \/
    (b <> [] /\ exists d, sy_drains s = {[ d := (ring_read_head (sy_ring s), b) ]});
  ri_batch : forall i ev, b !! i = Some ev ->
    sl_event (slot (sy_ring s) (ring_read_head (sy_ring s) + Z.of_nat i)) = ev;
  ri_window : forall pos, ring_read_head (sy_ring s) <= pos < ring_write_head (sy_ring s) ->
    sl_state (slot (sy_ring s) pos) =
      if pos <? ring_read_head (sy_ring s) + Z.of_nat (length b) then SLOT_DRAINING else SLOT_READY;
  ri_free : forall pos, ring_write_head (sy_ring s) < pos <
      ring_read_head (sy_ring s) + ring_capacity (sy_ring s) ->
    sl_state (slot (sy_ring s) pos) = SLOT_EMPTY;
  ri_head : ring_write_head (sy_ring s) < ring_read_head (sy_ring s) + ring_capacity (sy_ring s) ->
    match sl_state (slot (sy_ring s) (ring_write_head (sy_ring s))) with
    | SLOT_DRAINING => False
    | SLOT_READY => exists p ev,
        sy_producers s !! p = Some (ev, P_Advance (ring_write_head (sy_ring s)))
    | _ => True
    end;
  ri_owner : forall p ev pc v, sy_producers s !! p = Some (ev, pc) -> owned pc = Some v ->
    v = ring_write_head (sy_ring s) /\ v < ring_read_head (sy_ring s) + ring_capacity (sy_ring s) /\
    match pc with
    | P_Write _ => sl_state (slot (sy_ring s) v) = SLOT_WRITING
    | P_Publish _ => sl_state (slot (sy_ring s) v) = SLOT_WRITING /\ sl_event (slot (sy_ring s) v) = ev
    | _ => sl_state (slot (sy_ring s) v) = SLOT_READY /\ sl_event (slot (sy_ring s) v) = ev
    end;
  ri_unique : forall p p' x x', sy_producers s !! p = Some x -> sy_producers s !! p' = Some x' ->
    is_Some (owned x.2) -> is_Some (owned x'.2) -> p = p';
  ri_pcs : forall p ev pc, sy_producers s !! p = Some (ev, pc) ->
    pc_ok k (sy_ring s) pc;
  ri_contents : acknowledged s = consumed s ++ pending_events (sy_ring s)
}.

Lemma pending_length h :
  ring_read_head h <= ring_write_head h ->
  Z.of_nat (length (pending_events h)) = ring_write_head h - ring_read_head h.
Proof. intros. unfold pending_events. rewrite length_fmap, length_seqZ. lia. Qed.

Lemma pending_lookup h i :
  Z.of_nat i < ring_write_head h - ring_read_head h ->
  pending_events h !! i = Some (sl_event (slot h (ring_read_head h + Z.of_nat i))).
Proof.
  intros Hi. unfold pending_events. rewrite list_lookup_fmap, lookup_seqZ_lt by lia. done.
Qed.

(** Rings that agree on the events between unchanged heads. *)
Lemma pending_ext h h' :
  ring_read_head h' = ring_read_head h -> ring_write_head h' = ring_write_head h ->
  (forall pos, ring_read_head h <= pos < ring_write_head h ->
     sl_event (slot h' pos) = sl_event (slot h pos)) ->
  pending_events h' = pending_events h.
Proof.
  intros Er Ew He. unfold pending_events. rewrite Er, Ew. apply list_fmap_ext.
  intros i pos Hp. apply lookup_seqZ in Hp as [-> Hi]. apply He. lia.
Qed.

Lemma inv_is_queue k b s : ring_inv k b s -> is_queue s.
Proof.
  intros I. pose proof (ri_heads _ _ _ I) as Hh. split.
  - apply (ri_contents _ _ _ I).
  - rewrite pending_length by lia. pose proof (ri_room _ _ _ I). lia.
  - intros d base evs Hd. destruct (ri_drains _ _ _ I) as [[E _]|[_ [d' E]]]; rewrite E in Hd.
    { by rewrite lookup_empty in Hd. }
    apply lookup_singleton_Some in Hd as [_ [= <- <-]]. split; [done|].
    apply prefix_of_lookup. intros i ev Hev. pose proof (ri_batch_len _ _ _ I).
    pose proof (lookup_lt_Some _ _ _ Hev).
    rewrite pending_lookup by lia. f_equal. by eapply ri_batch.
  - intros d d' x x' H1 H2. destruct (ri_drains _ _ _ I) as [[E _]|[_ [d0 E]]]; rewrite E in H1, H2.
    { by rewrite lookup_empty in H1. }
    apply lookup_singleton_Some in H1 as [<- _]. by apply lookup_singleton_Some in H2 as [<- _].
Qed.

Lemma slot_init n pos : sl_state (slot (pg_redis_dirty_ring_shmem_init n) pos) = SLOT_EMPTY.
Proof.
  unfold slot, pg_redis_dirty_ring_shmem_init. cbn.
  destruct (replicate n zero_slot !! _) eqn:E; [|done].
  by apply lookup_replicate in E as [-> _].
Qed.

Lemma inv_init n area k :
  (0 < n)%nat -> 0 <= k -> k + Z.of_nat n < 2 ^ 64 -> ring_inv k [] (sys_init n area).
Proof.
  intros Hn Hk Hb.
  assert (Hc : ring_capacity (pg_redis_dirty_ring_shmem_init n) = Z.of_nat n).
  { unfold ring_capacity. cbn. by rewrite length_replicate. }
  split; cbn -[ring_capacity pg_redis_dirty_ring_shmem_init slot];
    rewrite ?Hc; cbn [ring_read_head ring_write_head pg_redis_dirty_ring_shmem_init]; try lia; try done.
  - left. done.
  - intros. apply slot_init.
  - by rewrite slot_init.
Qed.

(** ** Loops over consecutive slots *)

Fixpoint update_range (n : nat) (pos : Z) (g : Slot -> Slot) (h : Ring) : Ring :=
  match n with
  | O => h
  | S n' => update_range n' (pos + 1) g (set_slot pos g h)
  end.

Lemma update_range_heads n pos g h :
  ring_write_head (update_range n pos g h) = ring_write_head h /\
  ring_read_head (update_range n pos g h) = ring_read_head h /\
  ring_capacity (update_range n pos g h) = ring_capacity h.
Proof.
  revert pos h. induction n as [|n IH]; intros pos h; [done|]. cbn [update_range].
  destruct (IH (pos + 1) (set_slot pos g h)) as (-> & -> & ->). by rewrite set_slot_capacity.
Qed.

Lemma update_range_slot n pos g h q :
  0 < ring_capacity h -> Z.of_nat n <= ring_capacity h -> pos <= q < pos + ring_capacity h ->
  slot (update_range n pos g h) q = if q <? pos + Z.of_nat n then g (slot h q) else slot h q.
Proof.
  intros Hc. revert pos h q Hc. induction n as [|n IH]; intros pos h q Hc Hn Hq.
  { cbn [update_range]. by rewrite (proj2 (Z.ltb_ge _ _)) by lia. }
  cbn [update_range]. set (h1 := set_slot pos g h).
  assert (Hc1 : ring_capacity h1 = ring_capacity h) by apply set_slot_capacity.
  assert (Hc2 : ring_capacity (update_range n (pos + 1) g h1) = ring_capacity h)
    by (by destruct (update_range_heads n (pos + 1) g h1) as (_ & _ & ->)).
  destruct (decide (q = pos)) as [->|Hne].
  - rewrite <- (slot_wrap _ pos), Hc2, IH by (rewrite ?Hc1; lia).
    rewrite (proj2 (Z.ltb_ge _ _)), (proj2 (Z.ltb_lt _ _)) by lia.
    rewrite <- Hc1, slot_wrap. by apply slot_set_eq.
  - rewrite IH by (rewrite ?Hc1; lia). unfold h1. rewrite slot_set_ne by lia.
    replace (pos + 1 + Z.of_nat n) with (pos + Z.of_nat (S n)) by lia. done.
Qed.

Definition range_events (n : nat) (pos : Z) (h : Ring) : list PgRedisDirtyEvent :=
  (fun q => sl_event (slot h q)) <$> seqZ pos (Z.of_nat n).

Lemma range_events_set n pos g h :
  0 < ring_capacity h -> Z.of_nat n < ring_capacity h ->
  range_events n (pos + 1) (set_slot pos g h) = range_events n (pos + 1) h.
Proof.
  intros Hc Hn. unfold range_events. apply list_fmap_ext. intros i q Hq.
  apply lookup_seqZ in Hq as [-> Hi]. by rewrite slot_set_ne by lia.
Qed.

Lemma range_events_S n pos h :
  range_events (S n) pos h = sl_event (slot h pos) :: range_events n (pos + 1) h.
Proof.
  unfold range_events. rewrite (seqZ_cons pos (Z.of_nat (S n))) by lia. cbn [fmap list_fmap].
  by replace (Z.pred (Z.of_nat (S n))) with (Z.of_nat n) by lia.
Qed.

Lemma collect_loop_eq n pos w h :
  0 < ring_capacity h -> 0 <= pos <= w -> w - pos <= ring_capacity h -> w < 2 ^ 64 ->
  (forall q, pos <= q < w -> sl_state (slot h q) = SLOT_READY) ->
  let m := Nat.min n (Z.to_nat (w - pos)) in
  collect_loop n pos w h = (range_events m pos h, update_range m pos (set_state SLOT_DRAINING) h).
Proof.
  revert pos h. induction n as [|n IH]; intros pos h Hc Hp Hw Hb Hr; [done|]. cbn [collect_loop].
  destruct (pos <? w) eqn:Hlt.
  - apply Z.ltb_lt in Hlt. rewrite (Hr pos) by lia.
    rewrite (wrap_u_small 64 (pos + 1)) by lia. rewrite IH by
      (rewrite ?set_slot_capacity; first [lia | intros q Hq; rewrite slot_set_ne by lia; apply Hr; lia]).
    replace (Nat.min (S n) (Z.to_nat (w - pos)))
      with (S (Nat.min n (Z.to_nat (w - (pos + 1))))) by lia.
    cbn zeta. rewrite range_events_S, range_events_set by lia. done.
  - apply Z.ltb_ge in Hlt. by replace (Nat.min (S n) (Z.to_nat (w - pos))) with 0%nat by lia.
Qed.

Lemma release_loop_eq n pos x :
  0 <= pos -> pos + Z.of_nat n < 2 ^ 64 ->
  (release_loop n pos x).1 = update_range n pos empty_slot x.1.
Proof.
  revert pos x. induction n as [|n IH]; intros pos x Hp Hb; [done|]. cbn [release_loop update_range].
  rewrite (wrap_u_small 64 (pos + 1)) by lia. rewrite IH by lia. done.
Qed.

Lemma abort_loop_eq n pos h :
  0 <= pos -> pos + Z.of_nat n < 2 ^ 64 ->
  abort_loop n pos h = update_range n pos (set_state SLOT_READY) h.
Proof.
  revert pos h. induction n as [|n IH]; intros pos h Hp Hb; [done|]. cbn [abort_loop update_range].
  rewrite (wrap_u_small 64 (pos + 1)) by lia. by rewrite IH by lia.
Qed.

Lemma drop_loop_eq n pos w x :
  0 < ring_capacity x.1 -> 0 <= pos -> pos + Z.of_nat n = w -> Z.of_nat n <= ring_capacity x.1 ->
  w < 2 ^ 64 -> (forall q, pos <= q < w -> sl_state (slot x.1 q) = SLOT_READY) ->
  exists area, drop_loop n pos w x = (range_events n pos x.1, (update_range n pos empty_slot x.1, area)).
Proof.
  revert pos x. induction n as [|n IH]; intros pos x Hc Hp Hw Hn Hb Hr.
  { exists x.2. by destruct x. }
  cbn [drop_loop]. rewrite (proj2 (Z.ltb_lt _ _)) by lia. rewrite (Hr pos) by lia.
  rewrite (wrap_u_small 64 (pos + 1)) by lia.
  edestruct IH as [area ->]; cycle -1; [exists area|..]; cbn [fst]; rewrite ?set_slot_capacity; try lia.
  - by rewrite range_events_S, range_events_set by lia.
  - intros q Hq. rewrite slot_set_ne by lia. apply Hr. lia.
Qed.

(** ** Preservation *)

Lemma inv_weaken k k' b s :
  ring_inv k b s -> k <= k' -> k' + ring_capacity (sy_ring s) < 2 ^ 64 -> ring_inv k' b s.
Proof.
  intros [] ? ?. split; try done; [lia|]. intros p ev pc Hp.
  by apply (pc_ok_mono k k' (sy_ring s)); [by eapply ri_pcs0|..].
Qed.

(** A producer moves between states that own no slot, or leaves. *)
Lemma inv_put_pc k b s p x :
  ring_inv k b s ->
  (forall ev v, sy_producers s !! p <> Some (ev, P_Advance v)) ->
  match x with
  | None => True
  | Some (ev, pc) => owned pc = None /\
      pc_ok k (sy_ring s) pc
  end ->
  ring_inv k b (with_producers (partial_alter (fun _ => x) p (sy_producers s)) s).
Proof.
  intros I Hp Hx.
  assert (Hl : forall q y, partial_alter (fun _ => x) p (sy_producers s) !! q = Some y ->
    (q = p /\ x = Some y) \/ (q <> p /\ sy_producers s !! q = Some y)).
  { intros q y. destruct (decide (q = p)) as [->|Hq].
    - rewrite lookup_partial_alter_eq. auto.
    - rewrite lookup_partial_alter_ne by done. auto. }
  destruct I. split; cbn [with_producers sy_ring sy_producers sy_drains acknowledged consumed]; try done.
  - intros Hw. specialize (ri_head0 Hw).
    destruct (sl_state (slot (sy_ring s) (ring_write_head (sy_ring s)))); try done.
    destruct ri_head0 as (q & ev & Hq). exists q, ev. rewrite lookup_partial_alter_ne; [done|].
    intros ->. by apply (Hp _ _ Hq).
  - intros q ev pc v [[-> ->]|[_ Hq]]%Hl Ho; [destruct Hx; congruence|]. by eapply ri_owner0.
  - intros q q' y y' [[-> E1]|[_ Hq]]%Hl [[-> E2]|[_ Hq']]%Hl Hy Hy'; subst; try done.
    + destruct y as [ev pc]. destruct Hx as [E _]. cbn in Hy. rewrite E in Hy. by destruct Hy.
    + destruct y' as [ev pc]. destruct Hx as [E _]. cbn in Hy'. rewrite E in Hy'. by destruct Hy'.
    + by eapply ri_unique0.
  - intros q ev pc [[-> ->]|[_ Hq]]%Hl; [apply Hx|]. by eapply ri_pcs0.
Qed.

(** The slot at [write_head] changes together with the producer that owns it. *)
Lemma inv_head_update k b s f p x :
  let w := ring_write_head (sy_ring s) in
  let sl := f (slot (sy_ring s) w) in
  ring_inv k b s -> w < ring_read_head (sy_ring s) + ring_capacity (sy_ring s) ->
  (forall q y, sy_producers s !! q = Some y -> q <> p -> owned y.2 = None) ->
  match x with
  | None => sl_state sl = SLOT_EMPTY
  | Some (ev, pc) => owned pc = Some w /\
      match pc with
      | P_Write _ => sl_state sl = SLOT_WRITING
      | P_Publish _ => sl_state sl = SLOT_WRITING /\ sl_event sl = ev
      | _ => sl_state sl = SLOT_READY /\ sl_event sl = ev
      end
  end ->
  ring_inv k b (with_producers (partial_alter (fun _ => x) p (sy_producers s))
                  (with_ring (set_slot w f (sy_ring s)) s)).
Proof.
  intros w sl I Hw Hq Hx.
  assert (Hl : forall q y, partial_alter (fun _ => x) p (sy_producers s) !! q = Some y ->
    (q = p /\ x = Some y) \/ (q <> p /\ sy_producers s !! q = Some y)).
  { intros q y. destruct (decide (q = p)) as [->|Hne].
    - rewrite lookup_partial_alter_eq. auto.
    - rewrite lookup_partial_alter_ne by done. auto. }
  destruct I.
  assert (Hs : forall pos, ring_read_head (sy_ring s) <= pos < ring_read_head (sy_ring s) + ring_capacity (sy_ring s) ->
    pos <> w -> slot (set_slot w f (sy_ring s)) pos = slot (sy_ring s) pos).
  { intros pos Hp Hne. apply slot_set_ne; try done. lia. }
  assert (Hsw : slot (set_slot w f (sy_ring s)) w = sl) by (by apply slot_set_eq).
  split; cbn -[ring_capacity slot set_slot]; cbn [set_slot ring_read_head ring_write_head];
    fold w; rewrite ?set_slot_capacity; try done.
  - intros i ev Hi. pose proof (lookup_lt_Some _ _ _ Hi). rewrite Hs by lia. auto.
  - intros pos Hp. rewrite Hs by lia. auto.
  - intros pos Hp. rewrite Hs by lia. auto.
  - intros _. change (slot _ w) with (slot (set_slot w f (sy_ring s)) w). rewrite Hsw.
    destruct x as [[ev pc]|]; [|by rewrite Hx].
    destruct pc; destruct Hx as [Ho Hx]; try done; cbn in Ho; injection Ho as ->.
    + by rewrite Hx.
    + destruct Hx as [-> _]. done.
    + destruct Hx as [-> _]. exists p, ev. by rewrite lookup_partial_alter_eq.
  - intros q ev pc v [[-> ->]|[Hne Hp]]%Hl Ho.
    + destruct Hx as [Hx1 Hx]. rewrite Hx1 in Ho. injection Ho as <-.
      change (slot _ w) with (slot (set_slot w f (sy_ring s)) w). rewrite Hsw. split_and!; try done.
    + pose proof (Hq _ _ Hp Hne) as Hn. cbn in Hn. congruence.
  - intros q q' y y' [[-> E1]|[Hn Hp]]%Hl [[-> E2]|[Hn' Hp']]%Hl Hy Hy'; subst; try done.
    + rewrite (Hq _ _ Hp' Hn') in Hy'. by destruct Hy'.
    + rewrite (Hq _ _ Hp Hn) in Hy. by destruct Hy.
    + rewrite (Hq _ _ Hp Hn) in Hy. by destruct Hy.
  - intros q ev pc [[-> ->]|[Hn Hp]]%Hl; [destruct Hx; by destruct pc|].
    apply (pc_ok_mono k k (sy_ring s)); [by eapply ri_pcs0|done|done|by rewrite set_slot_capacity].
  - rewrite (pending_ext (sy_ring s)); try done. intros pos Hp. by rewrite Hs by lia.
Qed.

(** The owner of the READY slot at [write_head] advances the head. *)
Lemma inv_advance k b s p ev w :
  ring_inv k b s -> k + 1 + ring_capacity (sy_ring s) < 2 ^ 64 ->
  sy_producers s !! p = Some (ev, P_Advance w) ->
  w = ring_write_head (sy_ring s) /\
  ring_inv (k + 1) b (acknowledge ev (with_producers (delete p (sy_producers s))
    (with_ring (set_write_head (u64 (w + 1)) (sy_ring s)) s))).
Proof.
  intros I Hk Hp. destruct (ri_owner _ _ _ I _ _ _ w Hp eq_refl) as (Ew & Hw & Hst & Hev).
  split; [done|].
  assert (Hno : forall q y, sy_producers s !! q = Some y -> q <> p -> owned y.2 = None).
  { intros q y Hq Hne. destruct (owned y.2) eqn:Ho; [|done]. destruct Hne.
    eapply (ri_unique _ _ _ I); [exact Hq|exact Hp|by eauto|by eexists]. }
  destruct I. rewrite wrap_u_small by lia.
  split; cbn -[slot ring_capacity];
    change (ring_capacity (set_write_head _ (sy_ring s))) with (ring_capacity (sy_ring s));
    try (by auto); try lia.
  - intros pos Hpos. change (slot _ pos) with (slot (sy_ring s) pos).
    destruct (decide (pos = w)) as [->|]; [|apply ri_window0; lia].
    rewrite Hst, (proj2 (Z.ltb_ge _ _)) by lia. done.
  - intros pos Hpos. change (slot _ pos) with (slot (sy_ring s) pos).
    apply ri_free0. lia.
  - intros Hpos.
    change (slot _ (w + 1)) with (slot (sy_ring s) (w + 1)). rewrite ri_free0 by lia. done.
  - intros q e pc v [Hne Hq]%lookup_delete_Some Ho. pose proof (Hno _ _ Hq ltac:(done)) as Hn.
    cbn in Hn. congruence.
  - intros q q' y y' [Hne Hq]%lookup_delete_Some [Hne' Hq']%lookup_delete_Some. by apply ri_unique0.
  - intros q e pc [Hne Hq]%lookup_delete_Some.
    apply (pc_ok_mono k (k + 1) (sy_ring s)); [by eapply ri_pcs0|lia|done|done].
  - rewrite ri_contents0, <- app_assoc. f_equal. unfold pending_events. cbn -[slot].
    replace (w + 1 - ring_read_head (sy_ring s))
      with ((ring_write_head (sy_ring s) - ring_read_head (sy_ring s)) + 1) by lia.
    rewrite seqZ_app, fmap_app by lia. f_equal.
    replace (ring_read_head (sy_ring s) + _) with w by lia. rewrite seqZ_cons by lia.
    cbn [fmap list_fmap]. f_equal. symmetry. exact Hev.
Qed.

(** A transition of the consumer leaves the producers and the slots outside
    the window between the heads alone.  What is left to check is the window,
    the free slots and the bookkeeping. *)
Lemma inv_consumer k b s b' s' :
  ring_inv k b s ->
  sy_producers s' = sy_producers s ->
  ring_capacity (sy_ring s') = ring_capacity (sy_ring s) ->
  ring_write_head (sy_ring s') = ring_write_head (sy_ring s) ->
  ring_read_head (sy_ring s) <= ring_read_head (sy_ring s') <= ring_write_head (sy_ring s) ->
  (forall pos, ring_write_head (sy_ring s) <= pos <
     ring_read_head (sy_ring s) + ring_capacity (sy_ring s) ->
     slot (sy_ring s') pos = slot (sy_ring s) pos) ->
  (forall pos, ring_read_head (sy_ring s) + ring_capacity (sy_ring s) <= pos <
     ring_read_head (sy_ring s') + ring_capacity (sy_ring s) ->
     sl_state (slot (sy_ring s') pos) = SLOT_EMPTY) ->
  Z.of_nat (length b') <= ring_write_head (sy_ring s') - ring_read_head (sy_ring s') ->
  ((sy_drains s' = ∅ /\ b' = []) \/
   (b' <> [] /\ exists d, sy_drains s' = {[ d := (ring_read_head (sy_ring s'), b') ]})) ->
  (forall i ev, b' !! i = Some ev ->
     sl_event (slot (sy_ring s') (ring_read_head (sy_ring s') + Z.of_nat i)) = ev) ->
  (forall pos, ring_read_head (sy_ring s') <= pos < ring_write_head (sy_ring s') ->
     sl_state (slot (sy_ring s') pos) =
       if pos <? ring_read_head (sy_ring s') + Z.of_nat (length b') then SLOT_DRAINING else SLOT_READY) ->
  acknowledged s' = consumed s' ++ pending_events (sy_ring s') ->
  ring_inv k b' s'.
Proof.
  intros I Ep Ec Ew Hr Hout Hnew Hlen Hdr Hb Hwin Hq. destruct I.
  split; rewrite ?Ep, ?Ec; try done; try (rewrite Ew in *; lia).
  - intros pos Hp. rewrite Ew in Hp.
    destruct (decide (pos < ring_read_head (sy_ring s) + ring_capacity (sy_ring s))).
    + rewrite Hout by lia. apply ri_free0. lia.
    + apply Hnew. lia.
  - rewrite Ew. intros Hp.
    destruct (decide (ring_write_head (sy_ring s) < ring_read_head (sy_ring s) + ring_capacity (sy_ring s))).
    + rewrite Hout by lia. by apply ri_head0.
    + by rewrite Hnew by lia.
  - intros p ev pc v Hp Ho. rewrite Ew. destruct (ri_owner0 _ _ _ _ Hp Ho) as (-> & Hv & Hm).
    split_and!; [done|lia|]. by rewrite Hout by lia.
  - intros p ev pc Hp. apply (pc_ok_mono k k (sy_ring s)); [by eapply ri_pcs0|lia|lia|done].
Qed.

Lemma range_events_length n pos h : length (range_events n pos h) = n.
Proof. unfold range_events. rewrite length_fmap, length_seqZ. lia. Qed.

Lemma range_events_lookup n pos h i ev :
  range_events n pos h !! i = Some ev -> (i < n)%nat /\ ev = sl_event (slot h (pos + Z.of_nat i)).
Proof.
  unfold range_events. rewrite list_lookup_fmap, fmap_Some.
  intros (q & [-> Hi]%lookup_seqZ & ->). split; [lia|done].
Qed.

Lemma pending_range h : pending_events h = range_events (Z.to_nat (ring_write_head h - ring_read_head h)) (ring_read_head h) h.
Proof.
  unfold pending_events, range_events. destruct (decide (ring_read_head h <= ring_write_head h)).
  - by rewrite Z2Nat.id by lia.
  - rewrite !seqZ_nil by lia. done.
Qed.

Lemma inv_collect k b s d max s' :
  ring_inv k b s -> sys_step (Collect d max) s = Some s' -> exists b', ring_inv k b' s'.
Proof.
  intros I. cbn -[pg_redis_dirty_ring_collect]. case_match eqn:Hd; [done|].
  pose proof I as []. unfold pg_redis_dirty_ring_collect.
  rewrite (proj2 (Z.leb_gt _ _)) by done.
  destruct ri_drains0 as [[Ed ->]|[Hb [d' Ed]]]; cycle 1.
  - (* another batch is in flight: the first slot is not READY *)
    assert (collect_loop max (ring_read_head (sy_ring s)) (ring_write_head (sy_ring s)) (sy_ring s)
      = ([], sy_ring s)) as ->.
    { destruct max as [|n]; [done|]. cbn [collect_loop]. destruct b as [|e b]; [done|]. cbn in ri_batch_len0.
      rewrite (proj2 (Z.ltb_lt _ _)) by lia. rewrite ri_window0 by lia.
      by rewrite (proj2 (Z.ltb_lt _ _)) by (cbn; lia). }
    intros [= <-]. exists b. by destruct s.
  - rewrite collect_loop_eq; try lia; cycle 1.
    { intros q Hq. rewrite ri_window0 by lia. by rewrite (proj2 (Z.ltb_ge _ _)) by (cbn; lia). }
    set (m := Nat.min _ _). destruct (update_range_heads m (ring_read_head (sy_ring s))
      (set_state SLOT_DRAINING) (sy_ring s)) as (Ew & Er & Ec).
    assert (Hs : forall q, ring_read_head (sy_ring s) <= q < ring_read_head (sy_ring s) + ring_capacity (sy_ring s) ->
      slot (update_range m (ring_read_head (sy_ring s)) (set_state SLOT_DRAINING) (sy_ring s)) q =
      if q <? ring_read_head (sy_ring s) + Z.of_nat m then set_state SLOT_DRAINING (slot (sy_ring s) q)
      else slot (sy_ring s) q) by (intros q Hq; apply update_range_slot; lia).
    intros E. exists (range_events m (ring_read_head (sy_ring s)) (sy_ring s)).
    assert (sy_ring s' = update_range m (ring_read_head (sy_ring s)) (set_state SLOT_DRAINING) (sy_ring s) /\
      sy_producers s' = sy_producers s /\ acknowledged s' = acknowledged s /\ consumed s' = consumed s)
      as (Eh & Ep & Ea & Eco) by (case_match; by simplify_eq).
    eapply (inv_consumer k [] s); rewrite ?Eh, ?Ew, ?Er, ?Ec, ?range_events_length; try done; try lia.
    + intros pos Hp. rewrite Hs by lia. by rewrite (proj2 (Z.ltb_ge _ _)) by lia.
    + destruct (range_events m _ _) eqn:Hre; simplify_eq; [by left|right].
      split; [done|]. exists d. cbn. by rewrite Ed.
    + intros i ev [Hi ->]%range_events_lookup. rewrite Hs by lia.
      by rewrite (proj2 (Z.ltb_lt _ _)) by lia.
    + intros pos Hp. rewrite Hs by lia. destruct (pos <? ring_read_head (sy_ring s) + Z.of_nat m) eqn:Hm; [done|]. rewrite ri_window0 by lia.
      by rewrite (proj2 (Z.ltb_ge _ _)) by (cbn; lia).
    + rewrite Ea, Eco, ri_contents0. f_equal. symmetry. apply pending_ext; try done.
      intros pos Hp. rewrite Hs by lia. by destruct (pos <? _).
Qed.

(** The batch in flight, from its entry in the table of drainers. *)
Lemma inv_drain k b s d base evs :
  ring_inv k b s -> sy_drains s !! d = Some (base, evs) ->
  base = ring_read_head (sy_ring s) /\ evs = b /\ delete d (sy_drains s) = ∅ /\
  (0 < length b)%nat /\ evs = range_events (length b) base (sy_ring s).
Proof.
  intros I Hd. destruct (ri_drains _ _ _ I) as [[E _]|[Hb [d' E]]]; rewrite E in Hd.
  { by rewrite lookup_empty in Hd. }
  apply lookup_singleton_Some in Hd as [-> [= <- <-]]. split_and!; try done.
  - rewrite E. apply delete_singleton_eq.
  - destruct b; [done|cbn; lia].
  - apply list_eq_same_length with (n := length b); [by rewrite range_events_length|done|].
    intros i x y Hi Hx [_ ->]%range_events_lookup. symmetry. by eapply ri_batch.
Qed.

(** The rest of the queue once its first [n] events have left. *)
Lemma pending_split h h' n :
  ring_read_head h' = ring_read_head h + Z.of_nat n -> ring_write_head h' = ring_write_head h ->
  Z.of_nat n <= ring_write_head h - ring_read_head h ->
  (forall pos, ring_read_head h + Z.of_nat n <= pos < ring_write_head h ->
     sl_event (slot h' pos) = sl_event (slot h pos)) ->
  pending_events h = range_events n (ring_read_head h) h ++ pending_events h'.
Proof.
  intros Er Ew Hn He. unfold pending_events, range_events. rewrite Er, Ew.
  replace (ring_write_head h - ring_read_head h)
    with (Z.of_nat n + (ring_write_head h - (ring_read_head h + Z.of_nat n))) at 1 by lia.
  rewrite seqZ_app, fmap_app by lia. f_equal. apply list_fmap_ext.
  intros i pos [-> Hi]%lookup_seqZ. symmetry. apply He. lia.
Qed.

Lemma inv_leave k b s n evs x ds :
  ring_inv k b s -> (0 < n)%nat -> Z.of_nat n <= ring_write_head (sy_ring s) - ring_read_head (sy_ring s) ->
  (length b <= n)%nat -> ds = ∅ -> evs = range_events n (ring_read_head (sy_ring s)) (sy_ring s) ->
  x.1 = set_read_head (ring_read_head (sy_ring s) + Z.of_nat n)
          (update_range n (ring_read_head (sy_ring s)) empty_slot (sy_ring s)) ->
  ring_inv k [] (with_drains ds (consume evs x s)).
Proof.
  intros I Hn Hw Hb -> -> Ex. pose proof I as [].
  destruct (update_range_heads n (ring_read_head (sy_ring s)) empty_slot (sy_ring s)) as (Ew & Er & Ec).
  set (h' := update_range _ _ _ _) in *.
  assert (Hs : forall q, ring_read_head (sy_ring s) <= q < ring_read_head (sy_ring s) + ring_capacity (sy_ring s) ->
    slot x.1 q = if q <? ring_read_head (sy_ring s) + Z.of_nat n
      then empty_slot (slot (sy_ring s) q) else slot (sy_ring s) q).
  { intros q Hq. rewrite Ex. change (slot (set_read_head _ _) q) with (slot h' q). apply update_range_slot; lia. }
  assert (Ec' : ring_capacity x.1 = ring_capacity (sy_ring s)) by (rewrite Ex; exact Ec).
  assert (Er' : ring_read_head x.1 = ring_read_head (sy_ring s) + Z.of_nat n) by (by rewrite Ex).
  assert (Ew' : ring_write_head x.1 = ring_write_head (sy_ring s)) by (by rewrite Ex).
  eapply (inv_consumer k b s); cbn [with_drains consume sy_ring sy_producers sy_drains acknowledged consumed];
    rewrite ?Er', ?Ew', ?Ec'; try done; try (cbn; lia).
  - intros pos Hp. rewrite Hs by lia. by rewrite (proj2 (Z.ltb_ge _ _)) by lia.
  - intros pos Hp. replace pos with ((pos - ring_capacity x.1) + ring_capacity x.1) by lia.
    rewrite slot_wrap, Hs by lia. by rewrite (proj2 (Z.ltb_lt _ _)) by lia.
  - by left.
  - intros pos Hp. rewrite Hs by lia. rewrite (proj2 (Z.ltb_ge _ _)) by lia.
    rewrite ri_window0 by lia. rewrite !(proj2 (Z.ltb_ge _ _)) by (cbn; lia). done.
  - rewrite ri_contents0, <- app_assoc. f_equal. apply pending_split; try done.
    intros pos Hp. rewrite Hs by lia. by rewrite (proj2 (Z.ltb_ge _ _)) by lia.
Qed.

Lemma inv_release k b s d s' :
  ring_inv k b s -> sys_step (Release d) s = Some s' -> ring_inv k [] s'.
Proof.
  intros I. cbn -[pg_redis_dirty_ring_release_batch].
  destruct (sy_drains s !! d) as [[base evs]|] eqn:Hd; [|done]. cbn. intros [= <-].
  destruct (inv_drain _ _ _ _ _ _ I Hd) as (-> & -> & Hdel & Hlen & Hev). pose proof I as [].
  eapply (inv_leave k b s (length b)); try done.
  unfold pg_redis_dirty_ring_release_batch. cbn [fst].
  rewrite (proj2 (Z.leb_gt _ _)), (proj2 (Z.leb_gt _ _)) by lia. cbn [orb].
  destruct (release_loop _ _ _) as [h area] eqn:E. cbn [fst].
  rewrite wrap_u_small by lia. f_equal. change h with (h, area).1. rewrite <- E.
  rewrite release_loop_eq by lia. done.
Qed.

Lemma inv_drop k b s s' :
  ring_inv k b s -> sy_drains s = ∅ -> sys_step DropAll s = Some s' -> exists b', ring_inv k b' s'.
Proof.
  intros I Hd E. pose proof I as []. assert (b = []) as ->.
  { destruct ri_drains0 as [[_ ?]|[_ [d' Hs]]]; [done|]. rewrite Hd in Hs.
    symmetry in Hs. by apply map_non_empty_singleton in Hs. }
  cbn in E. unfold pg_redis_dirty_ring_drop_all_pending in E. cbn [fst] in E.
  rewrite (proj2 (Z.leb_gt _ _)) in E by done.
  set (n := Z.to_nat _) in E.
  destruct (drop_loop_eq n (ring_read_head (sy_ring s)) (ring_write_head (sy_ring s)) (sy_ring s, sy_dsa s))
    as [area Hl]; cbn [fst]; try lia.
  { intros q Hq. rewrite ri_window0 by lia. by rewrite (proj2 (Z.ltb_ge _ _)) by (cbn; lia). }
  rewrite Hl in E. cbn [fst] in E. simplify_eq. exists [].
  destruct (decide (n = 0%nat)) as [Hn|Hn].
  - rewrite Hn. cbn [range_events update_range]. unfold range_events. cbn.
    unfold consume. cbn. rewrite app_nil_r. destruct s. cbn in *. by destruct I; split.
  - assert (Hdr : forall y evs, with_drains ∅ (consume evs y s) = consume evs y s)
      by (intros; unfold with_drains, consume; cbn; by rewrite Hd).
    rewrite <- Hdr. eapply (inv_leave k [] s n); try done; try (cbn; lia).
    rewrite range_events_length. cbn [fst].
    destruct (range_events n _ _) eqn:Hre; [|by rewrite wrap_u_small by lia].
    apply (f_equal length) in Hre. rewrite range_events_length in Hre. done.
Qed.

Lemma inv_abort k b s d s' :
  ring_inv k b s -> sys_step (AbortBatch d) s = Some s' -> ring_inv k [] s'.
Proof.
  intros I. cbn -[pg_redis_dirty_ring_abort_batch].
  destruct (sy_drains s !! d) as [[base evs]|] eqn:Hd; [|done]. cbn. intros [= <-].
  destruct (inv_drain _ _ _ _ _ _ I Hd) as (-> & -> & Hdel & Hlen & _). pose proof I as [].
  unfold pg_redis_dirty_ring_abort_batch.
  rewrite (proj2 (Z.leb_gt _ _)), (proj2 (Z.leb_gt _ _)) by lia. cbn [orb].
  rewrite abort_loop_eq, Hdel by lia. set (g := set_state SLOT_READY).
  destruct (update_range_heads (length b) (ring_read_head (sy_ring s)) g (sy_ring s)) as (Ew & Er & Ec).
  assert (Hs : forall q, ring_read_head (sy_ring s) <= q < ring_read_head (sy_ring s) + ring_capacity (sy_ring s) ->
    slot (update_range (length b) (ring_read_head (sy_ring s)) g (sy_ring s)) q =
    if q <? ring_read_head (sy_ring s) + Z.of_nat (length b) then g (slot (sy_ring s) q)
    else slot (sy_ring s) q) by (intros q Hq; apply update_range_slot; lia).
  eapply (inv_consumer k b s); cbn [with_drains with_ring sy_ring sy_producers sy_drains acknowledged consumed];
    rewrite ?Ew, ?Er, ?Ec; try done; try (cbn; lia).
  - intros pos Hp. rewrite Hs by lia. by rewrite (proj2 (Z.ltb_ge _ _)) by lia.
  - by left.
  - intros pos Hp. rewrite Hs by lia. rewrite (proj2 (Z.ltb_ge pos (_ + Z.of_nat (length []))))
      by (cbn; lia).
    destruct (pos <? _) eqn:Hq; [done|]. rewrite ri_window0 by lia. by rewrite Hq.
  - rewrite ri_contents0. f_equal. symmetry. apply pending_ext; try done.
    intros pos Hp. rewrite Hs by lia. by destruct (pos <? _).
Qed.

Lemma with_producers_id s : with_producers (sy_producers s) s = s.
Proof. by destruct s. Qed.
Lemma with_ring_id s : with_ring (sy_ring s) s = s.
Proof. by destruct s. Qed.

Lemma inv_reclaim k b s now t :
  ring_inv k b s -> orderly (Reclaim now t) s ->
  ring_inv k b (with_ring (pg_redis_dirty_ring_reclaim_stuck now t (sy_ring s)).2 s).
Proof.
  intros I. cbn. unfold pg_redis_dirty_ring_reclaim_stuck.
  rewrite (proj2 (Z.leb_gt _ _)) by apply I. case_match eqn:Hst; cbn; intros Ho; cycle 1.
  { by rewrite with_ring_id. }
  destruct Ho as [|Ho]; [done|]. apply andb_prop in Hst as [Hst _]. apply bool_decide_eq_true in Hst.
  set (p := fresh (dom (sy_producers s))).
  assert (Hp : sy_producers s !! p = None) by (apply not_elem_of_dom, is_fresh).
  rewrite <- (with_producers_id (with_ring _ s)). cbn [with_ring sy_producers].
  rewrite <- (delete_id _ _ Hp) at 1. apply (inv_head_update k b s _ p None I); try done.
  - destruct (decide (ring_write_head (sy_ring s) < ring_read_head (sy_ring s) + ring_capacity (sy_ring s)));
      [done|]. exfalso. pose proof I as [].
    assert (ring_write_head (sy_ring s) = ring_read_head (sy_ring s) + ring_capacity (sy_ring s)) as E by lia.
    rewrite E, slot_wrap, ri_window0 in Hst by lia. by destruct (_ <? _) in Hst.
  - intros q y Hq _. by apply (Ho q y).
Qed.

(** No other producer owns a slot while [p] owns one, and none does while the
    slot at [write_head] is EMPTY. *)
Lemma inv_others k b s p ev pc :
  ring_inv k b s -> sy_producers s !! p = Some (ev, pc) ->
  is_Some (owned pc) \/ sl_state (slot (sy_ring s) (ring_write_head (sy_ring s))) = SLOT_EMPTY ->
  forall q y, sy_producers s !! q = Some y -> q <> p -> owned y.2 = None.
Proof.
  intros I Hp Hc q [ev' pc'] Hq Hne. cbn. destruct (owned pc') as [v|] eqn:Ho; [|done]. exfalso.
  destruct Hc as [Hc|Hc].
  - apply Hne. by eapply (ri_unique _ _ _ I _ _ _ _ Hq Hp).
  - destruct (ri_owner _ _ _ I _ _ _ _ Hq Ho) as (-> & _ & Hm). rewrite Hc in Hm.
    destruct pc'; try done; by destruct Hm.
Qed.

Lemma inv_step_producer k b s p now s' :
  ring_inv k b s -> k + 1 + ring_capacity (sy_ring s) < 2 ^ 64 ->
  orderly (Step p now) s -> sys_step (Step p now) s = Some s' -> ring_inv (k + 1) b s'.
Proof.
  intros I Hk Ho E. cbn -[publish_step] in E, Ho.
  destruct (sy_producers s !! p) as [[ev pc]|] eqn:Hp; [|done]. cbn -[publish_step] in E.
  assert (Hna : (forall w, pc <> P_Advance w) -> forall e v, sy_producers s !! p <> Some (e, P_Advance v))
    by (intros Hn e v Hv; rewrite Hp in Hv; simplify_eq; by eapply Hn).
  pose proof (ri_cap _ _ _ I) as Hc.
  destruct pc as [|w|w|w|w|w|res|e]; cbn -[slot set_slot ring_capacity] in E.
  - rewrite (proj2 (Z.leb_gt _ _)) in E by done. simplify_eq. apply (inv_weaken k); [|lia|done].
    rewrite with_ring_id. apply (inv_put_pc k b s p (Some _) I); [by apply Hna|].
    split; [done|]. pose proof (ri_heads _ _ _ I). pose proof (ri_k _ _ _ I). cbn. lia.
  - destruct (ring_capacity (sy_ring s) <=? _) eqn:Hfull; simplify_eq; apply (inv_weaken k); try lia; try done;
      rewrite with_ring_id.
    + apply (inv_put_pc k b s p None I); [by apply Hna|done].
    + apply (inv_put_pc k b s p (Some _) I); [by apply Hna|]. split; [done|].
      apply Z.leb_gt in Hfull. pose proof (ri_pcs _ _ _ I _ _ _ Hp) as Hw. cbn in Hw |- *.
      pose proof I as []. destruct (Z_lt_ge_dec w (ring_read_head (sy_ring s))); [lia|].
      rewrite wrap_u_small in Hfull by lia. lia.
  - pose proof (ri_pcs _ _ _ I _ _ _ Hp) as Hw. cbn in Hw.
    destruct (sl_state (slot (sy_ring s) w)) eqn:Hst; [specialize (Ho eq_refl); subst w|..]; simplify_eq;
      (apply (inv_weaken k); [|lia|cbn -[ring_capacity set_slot]; by rewrite ?set_slot_capacity]);
      rewrite ?with_ring_id; try (apply (inv_put_pc k b s p (Some _) I); [by apply Hna|done]).
    apply (inv_head_update k b s _ p (Some _) I); try done.
    eapply inv_others; [done..|by right].
  - destruct (ri_owner _ _ _ I _ _ _ w Hp eq_refl) as (-> & Hw & Hst). simplify_eq.
    apply (inv_weaken k); [|lia|cbn -[ring_capacity set_slot]; by rewrite set_slot_capacity].
    apply (inv_head_update k b s _ p (Some _) I); try done.
    eapply inv_others; [done..|left; by eexists].
  - destruct (ri_owner _ _ _ I _ _ _ w Hp eq_refl) as (-> & Hw & Hst & Hev). rewrite Hst in E. simplify_eq.
    apply (inv_weaken k); [|lia|cbn -[ring_capacity set_slot]; by rewrite set_slot_capacity].
    apply (inv_head_update k b s _ p (Some _) I); try done.
    eapply inv_others; [done..|left; by eexists].
  - destruct (inv_advance _ _ _ _ _ _ I Hk Hp) as [Ew I'].
    rewrite (proj2 (Z.eqb_eq _ _)) in E by done. by simplify_eq.
  - destruct (ri_pcs _ _ _ I _ _ _ Hp).
  - destruct (ri_pcs _ _ _ I _ _ _ Hp).
Qed.

(** ** The capacity never changes *)

Lemma collect_loop_capacity n pos w h : ring_capacity (collect_loop n pos w h).2 = ring_capacity h.
Proof.
  revert pos h. induction n as [|n IH]; intros pos h; [done|]. cbn [collect_loop].
  destruct (pos <? w); [|done]. destruct (sl_state (slot h pos)); try done.
  specialize (IH (u64 (pos + 1)) (set_slot pos (set_state SLOT_DRAINING) h)).
  destruct (collect_loop _ _ _ _). cbn in *. by rewrite IH, set_slot_capacity.
Qed.

Lemma release_loop_capacity n pos x : ring_capacity (release_loop n pos x).1 = ring_capacity x.1.
Proof.
  revert pos x. induction n as [|n IH]; intros pos x; [done|]. cbn [release_loop].
  rewrite IH. apply set_slot_capacity.
Qed.

Lemma abort_loop_capacity n pos h : ring_capacity (abort_loop n pos h) = ring_capacity h.
Proof.
  revert pos h. induction n as [|n IH]; intros pos h; [done|]. cbn [abort_loop].
  rewrite IH. apply set_slot_capacity.
Qed.

Lemma drop_loop_capacity n r w x : ring_capacity (drop_loop n r w x).2.1 = ring_capacity x.1.
Proof.
  revert r x. induction n as [|n IH]; intros r x; [done|]. cbn [drop_loop].
  destruct (r <? w); [|done].
  specialize (IH (u64 (r + 1)) (set_slot r empty_slot x.1, free_event_spill (sl_event (slot x.1 r)) x.2)).
  destruct (sl_state (slot x.1 r)); try done;
    destruct (drop_loop _ _ _ _); cbn in *; by rewrite IH, set_slot_capacity.
Qed.

Lemma publish_step_capacity now ev pc h :
  ring_capacity (publish_step now ev pc h).2 = ring_capacity h.
Proof.
  destruct pc; cbn -[slot set_slot ring_capacity]; repeat case_match; cbn -[set_slot ring_capacity];
    rewrite ?set_slot_capacity; done.
Qed.

Lemma step_capacity a s s' :
  sys_step a s = Some s' -> ring_capacity (sy_ring s') = ring_capacity (sy_ring s).
Proof.
  destruct a as [p ev|p now|p|d max|d|d|now t|]; intros E; cbn -[publish_step] in E.
  - case_match; by simplify_eq.
  - destruct (sy_producers s !! p) as [[ev pc]|]; [|done]. cbn -[publish_step] in E.
    pose proof (publish_step_capacity now ev pc (sy_ring s)) as Hc.
    destruct (publish_step now ev pc (sy_ring s)) as [pc' h'].
    destruct pc' as [| | | | | |[]|]; by simplify_eq.
  - destruct (sy_producers s !! p); cbn in E; by simplify_eq.
  - case_match; [done|]. unfold pg_redis_dirty_ring_collect in E.
    destruct (ring_capacity (sy_ring s) <=? 0); [by simplify_eq|].
    pose proof (collect_loop_capacity max (ring_read_head (sy_ring s)) (ring_write_head (sy_ring s)) (sy_ring s)).
    destruct (collect_loop _ _ _ _) as [[|? ?] ?]; by simplify_eq.
  - destruct (sy_drains s !! d) as [[base evs]|]; [|done]. cbn in E. simplify_eq. cbn -[pg_redis_dirty_ring_release_batch].
    unfold pg_redis_dirty_ring_release_batch. case_match; [done|].
    pose proof (release_loop_capacity (length evs) base (sy_ring s, sy_dsa s)).
    by destruct (release_loop _ _ _).
  - destruct (sy_drains s !! d) as [[base evs]|]; [|done]. cbn in E. simplify_eq. cbn -[pg_redis_dirty_ring_abort_batch].
    unfold pg_redis_dirty_ring_abort_batch. case_match; [done|]. apply abort_loop_capacity.
  - simplify_eq. cbn. unfold pg_redis_dirty_ring_reclaim_stuck. repeat case_match; cbn -[set_slot];
      rewrite ?set_slot_capacity; done.
  - unfold pg_redis_dirty_ring_drop_all_pending in E. cbn [fst] in E.
    destruct (ring_capacity (sy_ring s) <=? 0); [by simplify_eq|].
    pose proof (drop_loop_capacity (Z.to_nat (ring_write_head (sy_ring s) - ring_read_head (sy_ring s)))
      (ring_read_head (sy_ring s)) (ring_write_head (sy_ring s)) (sy_ring s, sy_dsa s)) as Hc.
    destruct (drop_loop _ _ _ _) as [evs [h area]]. simplify_eq. cbn in Hc |- *. by destruct evs.
Qed.

Lemma inv_step k b s a s' :
  ring_inv k b s -> k + 1 + ring_capacity (sy_ring s) < 2 ^ 64 ->
  orderly a s -> sys_step a s = Some s' ->
  exists b', ring_inv (k + 1) b' s'.
Proof.
  intros I Hk Ho E. pose proof (step_capacity _ _ _ E) as Hc.
  assert (Hkeep : forall b', ring_inv k b' s' -> exists b'', ring_inv (k + 1) b'' s')
    by (intros b' I'; exists b'; apply (inv_weaken k); [done|lia|by rewrite Hc]).
  destruct a as [p ev|p now|p|d max|d|d|now t|].
  - cbn in E. destruct (sy_producers s !! p) eqn:Hp; simplify_eq. apply (Hkeep b).
    apply (inv_put_pc k b s p (Some _) I); [by rewrite Hp|done].
  - exists b. by eapply inv_step_producer.
  - cbn in E, Ho. destruct (sy_producers s !! p) as [[ev pc]|] eqn:Hp; cbn in E; [|done].
    simplify_eq. apply (Hkeep b).
    apply (inv_put_pc k b s p None I); [|done]. rewrite Hp. intros ? ? ?. by simplify_eq.
  - by edestruct inv_collect as [b' I']; [..|by apply (Hkeep b')].
  - eapply Hkeep. by eapply inv_release.
  - eapply Hkeep. by eapply inv_abort.
  - cbn in E. simplify_eq. apply (Hkeep b). by apply inv_reclaim.
  - by edestruct inv_drop as [b' I']; [..|by apply (Hkeep b')].
Qed.

Lemma orderly_run_inv acts k b s :
  ring_inv k b s -> k + Z.of_nat (length acts) + ring_capacity (sy_ring s) < 2 ^ 64 ->
  orderly_run acts s ->
  exists s' b', run acts s = Some s' /\ ring_inv (k + Z.of_nat (length acts)) b' s'.
Proof.
  revert k b s. induction acts as [|a acts IH]; intros k b s I Hk Ho.
  { exists s, b. split; [done|]. by rewrite Z.add_0_r. }
  cbn [orderly_run length] in Ho, Hk. destruct Ho as [Ho Hr].
  destruct (sys_step a s) as [s1|] eqn:E; [|done].
  destruct (inv_step k b s a s1 I ltac:(lia) Ho E) as [b1 I1].
  destruct (IH (k + 1) b1 s1 I1) as (s' & b' & Hs & I'); [|done|].
  { rewrite (step_capacity _ _ _ E). lia. }
  exists s', b'. cbn [run]. rewrite E. split; [done|].
  by replace (k + Z.of_nat (length (a :: acts))) with (k + 1 + Z.of_nat (length acts)) by (cbn; lia).
Qed.

(** C5: The ring is a bounded FIFO queue.  From an empty ring, along any
    interleaving of producers, drainers, aborted batches, reclaim passes and
    FLUSHALLs whose actions are orderly, every event whose publish returned OK
    has either left the ring or is between the heads, exactly once and in
    order; there are never more than [ring_capacity] of them; and a batch in
    flight is a prefix of what is pending, held by one drainer, so an aborted
    batch is collected again by the next drain. *)
Theorem ring_is_queue slot_count area acts :
  (0 < slot_count)%nat -> Z.of_nat (length acts) + Z.of_nat slot_count < 2 ^ 64 ->
  orderly_run acts (sys_init slot_count area) ->
  exists s, run acts (sys_init slot_count area) = Some s /\ is_queue s.
Proof.
  intros Hn Hl Ho.
  assert (Hc : ring_capacity (sy_ring (sys_init slot_count area)) = Z.of_nat slot_count)
    by (unfold ring_capacity; cbn; by rewrite length_replicate).
  destruct (orderly_run_inv acts 0 [] (sys_init slot_count area)) as (s & b & Hs & I); try done.
  { apply inv_init; lia. }
  { rewrite Hc. lia. }
  exists s. split; [done|]. by eapply inv_is_queue.
Qed.

(** ** A call that runs alone *)

Lemma publish_run_S n now ev pc h pc' h' :
  publish_step now ev pc h = (pc', h') -> match pc with P_Return _ => False | _ => True end ->
  publish_run (S n) now ev pc h = publish_run n now ev pc' h'.
Proof. intros E Hpc. destruct pc; try done; cbn [publish_run]; by rewrite E. Qed.

(** The three writes of a publish at position [w]. *)
Definition filled (now : Z) (ev : PgRedisDirtyEvent) (w : Z) (h : Ring) : Ring :=
  set_slot w (set_state SLOT_READY) (set_slot w (fill_slot now ev) (set_slot w (set_state SLOT_WRITING) h)).

Lemma publish_alone_full now ev h :
  0 < ring_capacity h -> ring_capacity h <= u64 (ring_write_head h - ring_read_head h) ->
  pg_redis_dirty_ring_publish now ev h = Some (PG_REDIS_RING_FULL, h).
Proof.
  intros Hc Hf. unfold pg_redis_dirty_ring_publish.
  erewrite publish_run_S; [|cbn [publish_step]; by rewrite (proj2 (Z.leb_gt _ _))|done].
  erewrite publish_run_S; [|cbn [publish_step]; by rewrite (proj2 (Z.leb_le _ _))|done]. done.
Qed.

Lemma publish_alone_ok now ev h :
  0 < ring_capacity h -> u64 (ring_write_head h - ring_read_head h) < ring_capacity h ->
  sl_state (slot h (ring_write_head h)) = SLOT_EMPTY ->
  pg_redis_dirty_ring_publish now ev h =
    Some (PG_REDIS_RING_OK, set_write_head (u64 (ring_write_head h + 1)) (filled now ev (ring_write_head h) h)).
Proof.
  intros Hc Hf Hst. unfold pg_redis_dirty_ring_publish.
  erewrite publish_run_S; [|cbn [publish_step]; by rewrite (proj2 (Z.leb_gt _ _))|done].
  erewrite publish_run_S; [|cbn [publish_step]; by rewrite (proj2 (Z.leb_gt _ _))|done].
  erewrite publish_run_S; [|cbn [publish_step]; by rewrite Hst|done].
  erewrite publish_run_S; [|cbn [publish_step]; done|done].
  erewrite publish_run_S; [|cbn [publish_step]; rewrite !slot_set_eq by (rewrite ?set_slot_capacity; done); done|done].
  erewrite publish_run_S; [|cbn [publish_step]; done|done].
  cbn [publish_run]. change (ring_write_head (set_slot _ _ _)) with (ring_write_head h). by rewrite Z.eqb_refl.
Qed.

Lemma filled_slot now ev w h pos :
  0 < ring_capacity h -> Z.abs (w - pos) < ring_capacity h ->
  slot (filled now ev w h) pos =
  if decide (pos = w) then {| sl_state := SLOT_READY; sl_write_started_at := now; sl_event := ev |}
  else slot h pos.
Proof.
  intros Hc Hd. unfold filled. case_decide as Hp.
  - subst. rewrite !slot_set_eq by (rewrite ?set_slot_capacity; done). done.
  - rewrite !slot_set_ne; rewrite ?set_slot_capacity; done.
Qed.

Lemma filled_capacity now ev w h : ring_capacity (filled now ev w h) = ring_capacity h.
Proof. unfold filled. by rewrite !set_slot_capacity. Qed.

Lemma filled_pending now ev h :
  0 < ring_capacity h -> ring_read_head h <= ring_write_head h ->
  ring_write_head h < ring_read_head h + ring_capacity h ->
  pending_events (set_write_head (ring_write_head h + 1) (filled now ev (ring_write_head h) h)) =
  pending_events h ++ [ev].
Proof.
  intros Hc Hr Hw. set (w := ring_write_head h) in *. set (r := ring_read_head h) in *.
  unfold pending_events. cbn [set_write_head filled set_slot ring_read_head ring_write_head].
  fold w r. replace (w + 1 - r) with ((w - r) + 1) by lia. rewrite seqZ_app, fmap_app by lia. f_equal.
  - apply list_fmap_ext. intros i pos [-> Hi]%lookup_seqZ. f_equal.
    change (slot (filled now ev w h) (r + Z.of_nat i) = slot h (r + Z.of_nat i)).
    rewrite filled_slot, decide_False by lia. done.
  - replace (r + (w - r)) with w by lia. rewrite seqZ_cons by lia. cbn [fmap list_fmap]. f_equal.
    change (sl_event (slot (filled now ev w h) w) = ev). by rewrite filled_slot, decide_True by lia.
Qed.

Lemma full_iff h :
  0 < ring_capacity h -> ring_read_head h <= ring_write_head h ->
  pg_redis_dirty_ring_full h = (ring_capacity h <=? ring_write_head h - ring_read_head h).
Proof.
  intros Hc Hr. unfold pg_redis_dirty_ring_full, pg_redis_dirty_ring_pending.
  rewrite (proj2 (Z.leb_gt (ring_capacity h) 0)) by done.
  destruct (ring_read_head h <? ring_write_head h) eqn:E; [done|]. apply Z.ltb_ge in E.
  by replace (ring_write_head h - ring_read_head h) with 0 by lia.
Qed.

(** A publish that no other process interleaves with returns within six
    transitions: FULL, with the ring untouched, when [ring_capacity] events are
    pending, and OK otherwise, with the event appended to the pending events,
    the head advanced by one and every other slot as it was. *)
Theorem publish_alone now ev h :
  0 < ring_capacity h -> 0 <= ring_read_head h <= ring_write_head h ->
  ring_write_head h <= ring_read_head h + ring_capacity h -> ring_write_head h + 1 < 2 ^ 64 ->
  sl_state (slot h (ring_write_head h)) = SLOT_EMPTY \/ pg_redis_dirty_ring_full h = true ->
  if pg_redis_dirty_ring_full h
  then pg_redis_dirty_ring_publish now ev h = Some (PG_REDIS_RING_FULL, h)
  else exists h', pg_redis_dirty_ring_publish now ev h = Some (PG_REDIS_RING_OK, h') /\
    pending_events h' = pending_events h ++ [ev] /\
    ring_read_head h' = ring_read_head h /\ ring_write_head h' = ring_write_head h + 1 /\
    forall pos, ring_read_head h <= pos < ring_read_head h + ring_capacity h ->
      pos <> ring_write_head h -> slot h' pos = slot h pos.
Proof.
  intros Hc Hr Hw Hb Hst. rewrite full_iff in * by lia.
  destruct (ring_capacity h <=? ring_write_head h - ring_read_head h) eqn:Hfull.
  { apply publish_alone_full; [done|]. rewrite wrap_u_small by lia. lia. }
  destruct Hst as [Hst|Hst]; [|done]. apply Z.leb_gt in Hfull.
  eexists. split; [apply publish_alone_ok; [done|rewrite wrap_u_small by lia; lia|done]|].
  rewrite wrap_u_small by lia. split; [apply filled_pending; lia|]. split_and!; [done..|].
  intros pos Hp Hne.
  change (slot (filled now ev (ring_write_head h) h) pos = slot h pos).
  rewrite filled_slot, decide_False by lia. done.
Qed.

(** ** A stale reservation *)

(** Nothing is between the heads, the slot at [write_head] is READY, and every
    running producer looks at that slot. *)
Definition wedged (s : Sys) : Prop :=
  0 < ring_capacity (sy_ring s) /\
  ring_read_head (sy_ring s) = ring_write_head (sy_ring s) /\
  sl_state (slot (sy_ring s) (ring_write_head (sy_ring s))) = SLOT_READY /\
  sy_drains s = ∅ /\
  map_Forall (fun _ x => x.2 = P_Start \/ x.2 = P_GotW (ring_write_head (sy_ring s)) \/
                         x.2 = P_Reserve (ring_write_head (sy_ring s))) (sy_producers s).

Lemma wedged_step a s s' :
  wedged s -> sys_step a s = Some s' ->
  wedged s' /\ acknowledged s' = acknowledged s /\ consumed s' = consumed s.
Proof.
  intros (Hc & Hh & Hst & Hd & Hp) E. destruct a as [p ev|p now|p|d max|d|d|now t|]; cbn -[publish_step] in E.
  - case_match; simplify_eq. repeat split; try done. apply map_Forall_insert_2; [|done]. by left.
  - destruct (sy_producers s !! p) as [[ev pc]|] eqn:Hl; [|done]. cbn -[publish_step] in E.
    specialize (map_Forall_lookup_1 _ _ _ _ Hp Hl) as Hpc. cbn in Hpc.
    assert (Hput : forall pc', (pc' = P_Start \/ pc' = P_GotW (ring_write_head (sy_ring s)) \/
        pc' = P_Reserve (ring_write_head (sy_ring s))) ->
      wedged (with_producers (<[p := (ev, pc')]> (sy_producers s)) s))
      by (intros pc' Hpc'; repeat split; try done; by apply map_Forall_insert_2).
    destruct Hpc as [->|[->| ->]]; cbn -[slot set_slot ring_capacity] in E.
    + rewrite (proj2 (Z.leb_gt _ _)) in E by done. rewrite with_ring_id in E. simplify_eq.
      split; [by apply Hput; auto|done].
    + rewrite Hh, Z.sub_diag, wrap_u_small in E by lia.
      rewrite (proj2 (Z.leb_gt _ _)), with_ring_id in E by done. simplify_eq.
      split; [by apply Hput; auto|done].
    + rewrite Hst, with_ring_id in E. simplify_eq. split; [by apply Hput; auto|done].
  - destruct (sy_producers s !! p); cbn in E; simplify_eq. repeat split; try done.
    by apply map_Forall_delete.
  - case_match; [done|]. unfold pg_redis_dirty_ring_collect in E.
    rewrite (proj2 (Z.leb_gt _ _)) in E by done. rewrite Hh in E.
    assert (Hcl : collect_loop max (ring_write_head (sy_ring s)) (ring_write_head (sy_ring s)) (sy_ring s)
      = ([], sy_ring s)) by (destruct max; [done|]; cbn; by rewrite Z.ltb_irrefl).
    rewrite Hcl, with_ring_id in E. by simplify_eq.
  - by rewrite Hd, lookup_empty in E.
  - by rewrite Hd, lookup_empty in E.
  - unfold pg_redis_dirty_ring_reclaim_stuck in E. rewrite (proj2 (Z.leb_gt _ _)), Hst in E by done.
    rewrite bool_decide_eq_false_2 in E by done. cbn in E. rewrite with_ring_id in E. by simplify_eq.
  - unfold pg_redis_dirty_ring_drop_all_pending in E. cbn [fst] in E.
    rewrite (proj2 (Z.leb_gt _ _)), Hh, Z.sub_diag in E by done. change (Z.to_nat 0) with 0%nat in E.
    cbn [drop_loop] in E. unfold consume in E. cbn [fst snd] in E. rewrite app_nil_r in E.
    destruct s. by simplify_eq.
Qed.

Lemma wedged_run acts s s' :
  wedged s -> run acts s = Some s' ->
  acknowledged s' = acknowledged s /\ consumed s' = consumed s.
Proof.
  revert s. induction acts as [|a acts IH]; intros s Hw E; [by simplify_eq/=|].
  cbn [run] in E. destruct (sys_step a s) as [s1|] eqn:E1; [|done].
  destruct (wedged_step _ _ _ Hw E1) as (Hw1 & <- & <-). by apply IH.
Qed.

Definition event_no (n : Z) : PgRedisDirtyEvent :=
  {| ev_type := PG_REDIS_EVENT_LIST_ITEM_DELETE; ev_value_type := PG_REDIS_TYPE_LIST; ev_key_len := 0;
     ev_field_len := 0; ev_ord := n; ev_expire_at := 0; ev_has_expire := false; ev_version := 0;
     ev_value_len := 0; ev_dsa_overflow := false; ev_dsa_payload := 0; ev_inline_bytes := [] |}.

(** A whole publish by [p], and a whole drain. *)
Definition publish_acts (p : nat) (n : Z) : list Action := Call p (event_no n) :: replicate 6 (Step p 0).
Definition drain_acts : list Action := [Collect 0 1024; Release 0].

(** Producer 1 reads the heads and is delayed; meanwhile producer 2 publishes
    the slot and the consumer drains it; producer 1 then reserves the slot,
    which is EMPTY again, under the position it read before. *)
Definition stale_history : list Action :=
  [Call 1 (event_no 1); Step 1 0; Step 1 0] ++ publish_acts 2 2 ++ drain_acts ++
  replicate 4 (Step 1 0) ++ publish_acts 3 3 ++ drain_acts.

(** C35: A reservation made with a stale [write_head] wedges the ring.  In
    [stale_history] three publishes return OK and two events are drained; the
    third sits READY in the slot at [write_head], outside the window between
    the heads.  From there no continuation whatever, of producers, drains,
    reclaim passes or FLUSHALLs, publishes another event or drains the lost
    one. *)
Theorem stale_reservation_wedges :
  exists s, run stale_history (sys_init 2 None) = Some s /\
    acknowledged s = [event_no 2; event_no 1; event_no 3] /\
    consumed s = [event_no 2; event_no 3] /\
    forall acts s', run acts s = Some s' ->
      acknowledged s' = acknowledged s /\ consumed s' = consumed s.
Proof.
  eexists. split; [vm_compute; reflexivity|]. split; [done|]. split; [done|].
  intros acts s' E. eapply wedged_run; [|exact E].
  repeat split; try done; apply map_Forall_empty.
Qed.

(** ** Witnesses *)

(** Two producers interleaved, a batch aborted and drained again, a stuck slot
    reclaimed. *)
Definition orderly_history : list Action :=
  [Call 1 (event_no 1); Call 2 (event_no 2); Step 1 0; Step 1 0; Step 1 0; Step 2 0; Step 2 0; Die 2;
   Step 1 0; Step 1 0; Step 1 0; Collect 7 10; AbortBatch 7] ++ publish_acts 3 3 ++
  [Collect 8 10; Call 4 (event_no 4); Step 4 0; Step 4 0; Release 8; Step 4 5; Die 4; Reclaim 2000 1] ++
  publish_acts 5 5 ++ [DropAll].

Lemma ring_is_queue_witness :
  exists s, run orderly_history (sys_init 4 None) = Some s /\ is_queue s.
Proof.
  apply (ring_is_queue 4 None orderly_history); [lia|by vm_compute|].
  vm_compute. repeat split; auto.
  right. intros ? ? E. discriminate E.
Defined.

Lemma publish_alone_witness :
  exists h', pg_redis_dirty_ring_publish 0 (event_no 1) (pg_redis_dirty_ring_shmem_init 2) =
      Some (PG_REDIS_RING_OK, h') /\
    pending_events h' = [event_no 1].
Proof.
  destruct (publish_alone 0 (event_no 1) (pg_redis_dirty_ring_shmem_init 2)) as (h' & E & Hp & _);
    [done|done|done|done|by left|]. exists h'. split; [exact E|exact Hp].
Defined.
