(* ===== verification/AsyncDrain.v ===== *)
(** * Draining the ring into the tables (src/persistence.c)

    [pg_redis_persistence_async_drain] collects a batch from the ring, sorts
    its events by kind into six groups, runs the six array statements in one
    fixed order and releases the batch, or returns it to the ring when a
    statement raises.  The reference it is compared with replays the events one
    by one in the order of the ring. *)
From S2P Require Import Prelude Types Utils KvStore Db Persistence.
From S2P Require Import SharedMem DirtyEvent DirtyRing RingProtocol.

(** ** Rows of an event *)

(** What one event pushes onto the vectors of the drain. *)
Inductive RowOp :=
| OpStore (key : bytes) (row : StoreRow)
| OpDelete (key : bytes)
| OpFieldUpsert (key field : bytes) (value : option bytes)
| OpFieldDelete (key field : bytes)
| OpItemInsert (key : bytes) (ord : Z) (value : option bytes)
| OpItemDelete (key : bytes) (ord : Z).

(** The value of a parent row: NULL when there are no bytes or the type is a
    collection. *)
Definition drained_value (vt : PgRedisValueType) (val : bytes) : option bytes :=
  if (blen val =? 0) || negb (bool_decide (vt = PG_REDIS_TYPE_STRING) || bool_decide (vt = PG_REDIS_TYPE_INT))
  then None else Some val.

(** The switch over the event type; [None]: the payload is not there to read. *)
Definition decode_op (area : Dsa) (ev : PgRedisDirtyEvent) : option RowOp :=
  key ← pg_redis_event_decode_key area ev;
  match ev_type ev with
  | PG_REDIS_EVENT_KEY_UPSERT =>
      val ← pg_redis_event_decode_value area ev;
      Some (OpStore key
        {| sr_type := pg_redis_type_name (ev_value_type ev);
           sr_value := drained_value (ev_value_type ev) val;
           sr_expire_at := if ev_has_expire ev then Some (ev_expire_at ev) else None;
           sr_version := s64 (ev_version ev) |})
  | PG_REDIS_EVENT_KEY_DELETE => Some (OpDelete key)
  | PG_REDIS_EVENT_HASH_FIELD_UPSERT =>
      field ← pg_redis_event_decode_field area ev;
      val ← pg_redis_event_decode_value area ev;
      Some (OpFieldUpsert key field (Some val))
  | PG_REDIS_EVENT_HASH_FIELD_DELETE =>
      field ← pg_redis_event_decode_field area ev;
      Some (OpFieldDelete key field)
  | PG_REDIS_EVENT_LIST_ITEM_INSERT =>
      val ← pg_redis_event_decode_value area ev;
      Some (OpItemInsert key (ev_ord ev) (Some val))
  | PG_REDIS_EVENT_LIST_ITEM_DELETE => Some (OpItemDelete key (ev_ord ev))
  end.

(** The vectors: those of run_flush and [store_delete_keys]. *)
Abbreviation Vectors := (FlushBatch * list bytes)%type.

Definition no_rows : Vectors :=
  ({| store_rows := []; hf_up := []; hf_del := []; li_ins := []; li_del := [] |}, []).

(** [vec_push] for one event. *)
Definition push_op (v : Vectors) (op : RowOp) : Vectors :=
  let '(b, dels) := v in
  match op with
  | OpStore k row =>
      ({| store_rows := store_rows b ++ [(k, row)]; hf_up := hf_up b; hf_del := hf_del b;
          li_ins := li_ins b; li_del := li_del b |}, dels)
  | OpDelete k => (b, dels ++ [k])
  | OpFieldUpsert k f x =>
      ({| store_rows := store_rows b; hf_up := hf_up b ++ [((k, f), x)]; hf_del := hf_del b;
          li_ins := li_ins b; li_del := li_del b |}, dels)
  | OpFieldDelete k f =>
      ({| store_rows := store_rows b; hf_up := hf_up b; hf_del := hf_del b ++ [(k, f)];
          li_ins := li_ins b; li_del := li_del b |}, dels)
  | OpItemInsert k o x =>
      ({| store_rows := store_rows b; hf_up := hf_up b; hf_del := hf_del b;
          li_ins := li_ins b ++ [((k, o), x)]; li_del := li_del b |}, dels)
  | OpItemDelete k o =>
      ({| store_rows := store_rows b; hf_up := hf_up b; hf_del := hf_del b;
          li_ins := li_ins b; li_del := li_del b ++ [(k, o)] |}, dels)
  end.

Definition obind {A B} (x : outcome A) (f : A -> outcome B) : outcome B :=
  match x with Ret a => f a | Raise e => Raise e end.

Definition guarded (nonempty : bool) (stmt : Db -> outcome Db) (d : Db) : outcome Db :=
  if nonempty then stmt d else Ret d.

(** The six statements in the order of the drain. *)
Definition drain_execute (v : Vectors) (d : Db) : outcome Db :=
  let '(b, dels) := v in
  obind (guarded (nonempty (store_rows b)) (SQL_STORE_UPSERT (store_rows b)) d) (fun d =>
  obind (guarded (nonempty (hf_del b)) (SQL_HASH_FIELD_DELETE (hf_del b)) d) (fun d =>
  obind (guarded (nonempty (hf_up b)) (SQL_HASH_FIELD_UPSERT (hf_up b)) d) (fun d =>
  obind (guarded (nonempty (li_del b)) (SQL_LIST_ITEM_DELETE (li_del b)) d) (fun d =>
  obind (guarded (nonempty (li_ins b)) (SQL_LIST_ITEM_INSERT (li_ins b)) d) (fun d =>
  guarded (nonempty dels) (SQL_STORE_DELETE dels) d))))).

(** ** The drain *)

Record Shared := { x_ring : Ring; x_dsa : Dsa; x_db : Db }.

Definition ASYNC_DRAIN_BATCH_MAX : Z := 1024.
Definition drain_batch_max (max_events : Z) : Z :=
  Z.min (if 0 <? max_events then max_events else ASYNC_DRAIN_BATCH_MAX) ASYNC_DRAIN_BATCH_MAX.

(** The transaction of the caller rolls back what the statements did before one
    of them raised, so an error leaves the tables as they were. *)
Definition pg_redis_persistence_async_drain (cfg : Config) (max_events : Z) : M Shared Z := fun s =>
  if negb (persistence_writes_enabled cfg) then (Ret 0, s)
  else
    let '(events, base, h) :=
      pg_redis_dirty_ring_collect (Z.to_nat (drain_batch_max max_events)) (x_ring s) in
    let n := length events in
    if (n =? 0)%nat then (Ret 0, {| x_ring := h; x_dsa := x_dsa s; x_db := x_db s |})
    else
      let aborted := {| x_ring := pg_redis_dirty_ring_abort_batch base n h; x_dsa := x_dsa s; x_db := x_db s |} in
      match mapM (decode_op (x_dsa s)) events with
      | None => (Raise ERRCODE_INTERNAL_ERROR, aborted)
      | Some ops =>
          match drain_execute (foldl push_op no_rows ops) (x_db s) with
          | Raise e => (Raise e, aborted)
          | Ret d =>
              let '(h', area) := pg_redis_dirty_ring_release_batch base n (h, x_dsa s) in
              (Ret (Z.of_nat n), {| x_ring := h'; x_dsa := area; x_db := d |})
          end
      end.

(** ** The reference: one statement per event, in order *)

Definition apply_op (op : RowOp) (d : Db) : outcome Db :=
  match op with
  | OpStore k row => SQL_STORE_UPSERT [(k, row)] d
  | OpDelete k => SQL_STORE_DELETE [k] d
  | OpFieldUpsert k f x => SQL_HASH_FIELD_UPSERT [((k, f), x)] d
  | OpFieldDelete k f => SQL_HASH_FIELD_DELETE [(k, f)] d
  | OpItemInsert k o x => SQL_LIST_ITEM_INSERT [((k, o), x)] d
  | OpItemDelete k o => SQL_LIST_ITEM_DELETE [(k, o)] d
  end.

Fixpoint replay (ops : list RowOp) (d : Db) : outcome Db :=
  match ops with
  | [] => Ret d
  | op :: ops' => obind (apply_op op d) (replay ops')
  end.

Definition op_key (op : RowOp) : bytes :=
  match op with
  | OpStore k _ | OpDelete k | OpFieldUpsert k _ _ | OpFieldDelete k _
  | OpItemInsert k _ _ | OpItemDelete k _ => k
  end.

(** [reorders op later]: the drain runs [later], which comes after [op] in the
    ring, before it, and the two touch the same row. *)
Definition reorders (op later : RowOp) : bool :=
  match op, later with
  | OpDelete _, OpDelete _ => false
  | OpDelete k, _ => bool_decide (op_key later = k)
  | OpFieldUpsert k f _, OpFieldDelete k' f' => bool_decide (k = k' /\ f = f')
  | OpItemInsert k o _, OpItemDelete k' o' => bool_decide (k = k' /\ o = o')
  | _, _ => false
  end.

(** No two events of the batch are reordered against each other. *)
Fixpoint drain_ordered (ops : list RowOp) : bool :=
  match ops with
  | [] => true
  | op :: ops' => forallb (fun later => negb (reorders op later)) ops' && drain_ordered ops'
  end.

(** ** The vectors of a batch *)

Definition cons_op (op : RowOp) (v : Vectors) : Vectors :=
  let '(b, dels) := v in
  match op with
  | OpStore k row =>
      ({| store_rows := (k, row) :: store_rows b; hf_up := hf_up b; hf_del := hf_del b;
          li_ins := li_ins b; li_del := li_del b |}, dels)
  | OpDelete k => (b, k :: dels)
  | OpFieldUpsert k f x =>
      ({| store_rows := store_rows b; hf_up := ((k, f), x) :: hf_up b; hf_del := hf_del b;
          li_ins := li_ins b; li_del := li_del b |}, dels)
  | OpFieldDelete k f =>
      ({| store_rows := store_rows b; hf_up := hf_up b; hf_del := (k, f) :: hf_del b;
          li_ins := li_ins b; li_del := li_del b |}, dels)
  | OpItemInsert k o x =>
      ({| store_rows := store_rows b; hf_up := hf_up b; hf_del := hf_del b;
          li_ins := ((k, o), x) :: li_ins b; li_del := li_del b |}, dels)
  | OpItemDelete k o =>
      ({| store_rows := store_rows b; hf_up := hf_up b; hf_del := hf_del b;
          li_ins := li_ins b; li_del := (k, o) :: li_del b |}, dels)
  end.

Definition app_rows (v1 v2 : Vectors) : Vectors :=
  ({| store_rows := store_rows v1.1 ++ store_rows v2.1; hf_up := hf_up v1.1 ++ hf_up v2.1;
      hf_del := hf_del v1.1 ++ hf_del v2.1; li_ins := li_ins v1.1 ++ li_ins v2.1;
      li_del := li_del v1.1 ++ li_del v2.1 |}, v1.2 ++ v2.2).

(** Pushing from left to right keeps the order of the events in each vector. *)
Lemma push_ops v ops : foldl push_op v ops = app_rows v (foldr cons_op no_rows ops).
Proof.
  revert v. induction ops as [|op ops IH]; intros [b dels]; cbn [foldl foldr].
  - unfold app_rows. cbn. rewrite !app_nil_r. by destruct b.
  - rewrite IH. destruct (foldr cons_op no_rows ops) as [b' dels'].
    unfold app_rows. destruct op; cbn; rewrite <- ?app_assoc; done.
Qed.

Lemma push_all ops : foldl push_op no_rows ops = foldr cons_op no_rows ops.
Proof. rewrite push_ops. by destruct (foldr cons_op no_rows ops) as [[] ?]. Qed.

(** ** What the six statements do, as one step *)

Definition batch_store (b : FlushBatch) (d : Db) : gmap bytes StoreRow :=
  distinct_on_last (store_rows b) ∪ store d.

Record batch_ok (b : FlushBatch) (d : Db) : Prop := {
  bo_fields : Forall (fun r => is_Some (batch_store b d !! r.1.1)) (hf_up b);
  bo_nodup : NoDup (li_ins b).*1;
  bo_fresh : Forall (fun r => filter (fun p => p.1 ∉ li_del b) (list_items d) !! r.1 = None) (li_ins b);
  bo_items : Forall (fun r => is_Some (batch_store b d !! r.1.1)) (li_ins b)
}.

Definition batch_db (v : Vectors) (d : Db) : Db :=
  let '(b, dels) := v in
  {| store := filter (fun p => p.1 ∉ dels) (batch_store b d);
     hash_fields := filter (fun p => ~ (p.1.1 ∈ dels /\ is_Some (batch_store b d !! p.1.1)))
       (distinct_on_last (hf_up b) ∪ filter (fun p => p.1 ∉ hf_del b) (hash_fields d));
     list_items := filter (fun p => ~ (p.1.1 ∈ dels /\ is_Some (batch_store b d !! p.1.1)))
       (list_to_map (li_ins b) ∪ filter (fun p => p.1 ∉ li_del b) (list_items d)) |}.

Lemma filter_all {K A} `{Countable K} (P : K * A -> Prop) `{!forall x, Decision (P x)} (m : gmap K A) :
  (forall k x, P (k, x)) -> filter P m = m.
Proof. intros HP. apply map_filter_id. auto. Qed.

Lemma guarded_nil {A} (stmt : list A -> Db -> outcome Db) l d :
  stmt [] d = Ret d -> guarded (nonempty l) (stmt l) d = stmt l d.
Proof. intros E. by destruct l. Qed.

Lemma empty_statements d :
  SQL_STORE_UPSERT [] d = Ret d /\ SQL_HASH_FIELD_DELETE [] d = Ret d /\
  SQL_HASH_FIELD_UPSERT [] d = Ret d /\ SQL_LIST_ITEM_DELETE [] d = Ret d /\
  SQL_LIST_ITEM_INSERT [] d = Ret d /\ SQL_STORE_DELETE [] d = Ret d.
Proof.
  destruct d as [s hf li].
  unfold SQL_STORE_UPSERT, SQL_HASH_FIELD_DELETE, SQL_HASH_FIELD_UPSERT, SQL_LIST_ITEM_DELETE,
    SQL_LIST_ITEM_INSERT, SQL_STORE_DELETE, distinct_on_last. cbn.
  rewrite !map_empty_union, !filter_all by set_solver. split_and!; done.
Qed.

Lemma drain_execute_iff b dels d d' :
  drain_execute (b, dels) d = Ret d' <-> batch_ok b d /\ d' = batch_db (b, dels) d.
Proof.
  unfold drain_execute. pose proof (fun d => empty_statements d) as He.
  rewrite guarded_nil by apply He. cbn [obind SQL_STORE_UPSERT].
  rewrite guarded_nil by apply He. cbn [obind SQL_HASH_FIELD_DELETE store hash_fields list_items].
  rewrite guarded_nil by apply He. unfold SQL_HASH_FIELD_UPSERT. cbn [store hash_fields list_items].
  fold (batch_store b d). case_bool_decide as H1; cbn [obind]; [|split; [done|by intros [[] _]]].
  rewrite guarded_nil by apply He. cbn [obind SQL_LIST_ITEM_DELETE store hash_fields list_items].
  rewrite guarded_nil by apply He. unfold SQL_LIST_ITEM_INSERT. cbn [store hash_fields list_items].
  case_bool_decide as H2; cbn [obind]; [|split; [done|intros [[] _]; by destruct H2]].
  case_bool_decide as H3; cbn [obind]; [|split; [done|by intros [[] _]]].
  rewrite guarded_nil by apply He. unfold SQL_STORE_DELETE. cbn [store hash_fields list_items].
  split.
  - intros [= <-]. split; [|done]. destruct H2. by split.
  - by intros [_ ->].
Qed.

(** Reading the result row by row. *)
Lemma lookup_distinct_cons {K A} `{Countable K} (k : K) (x : A) rows i :
  distinct_on_last ((k, x) :: rows) !! i =
  distinct_on_last rows !! i ∪ (if decide (i = k) then Some x else None).
Proof.
  unfold distinct_on_last. rewrite reverse_cons, list_to_map_app, lookup_union. cbn.
  rewrite insert_empty. case_decide as Hi; [subst; by rewrite lookup_singleton_eq|].
  by rewrite lookup_singleton_ne.
Qed.

Lemma lookup_distinct_nil {K A} `{Countable K} (i : K) : distinct_on_last (A := A) [] !! i = None.
Proof. apply lookup_empty. Qed.

Lemma lookup_distinct_None {K A} `{Countable K} (rows : list (K * A)) i :
  i ∉ rows.*1 -> distinct_on_last rows !! i = None.
Proof. intros Hi. apply not_elem_of_list_to_map_1. by rewrite fmap_reverse, elem_of_reverse. Qed.

Lemma lookup_filter_notin {K A} `{Countable K} (ks : list K) (m : gmap K A) i :
  filter (fun p => p.1 ∉ ks) m !! i = if decide (i ∈ ks) then None else m !! i.
Proof.
  rewrite map_lookup_filter. destruct (m !! i) as [x|]; cbn; [|by case_decide].
  case_decide as Hi; [rewrite option_guard_False; [done|cbn; auto]|by rewrite option_guard_True].
Qed.

(** Child rows have a parent, so the cascade takes all rows of a deleted key. *)
Lemma lookup_cascade {B} `{Countable B} (m : gmap (bytes * B) (option bytes)) (s : gmap bytes StoreRow)
    (dels : list bytes) k x :
  (forall v, m !! (k, x) = Some v -> is_Some (s !! k)) ->
  filter (fun p => ~ (p.1.1 ∈ dels /\ is_Some (s !! p.1.1))) m !! (k, x) =
  if decide (k ∈ dels) then None else m !! (k, x).
Proof.
  intros Hfk. rewrite map_lookup_filter. destruct (m !! (k, x)) as [v|] eqn:E; cbn; [|by case_decide].
  case_decide as Hk.
  - rewrite option_guard_False; [done|]. cbn. intros Hn. apply Hn. eauto.
  - rewrite option_guard_True; [done|]. cbn. by intros [].
Qed.

Section Rows.
Context (b : FlushBatch) (dels : list bytes) (d : Db).
Context (Hok : batch_ok b d) (Hfk : db_fk d).

Lemma batch_store_lookup k :
  batch_store b d !! k = distinct_on_last (store_rows b) !! k ∪ store d !! k.
Proof. apply lookup_union. Qed.

Lemma batch_store_old k : is_Some (store d !! k) -> is_Some (batch_store b d !! k).
Proof.
  intros [x Hx]. rewrite batch_store_lookup, Hx. by destruct (distinct_on_last (store_rows b) !! k).
Qed.

Lemma store_at k :
  store (batch_db (b, dels) d) !! k = if decide (k ∈ dels) then None else batch_store b d !! k.
Proof. apply lookup_filter_notin. Qed.

Lemma field_at k f :
  hash_fields (batch_db (b, dels) d) !! (k, f) =
  if decide (k ∈ dels) then None
  else distinct_on_last (hf_up b) !! (k, f) ∪
       (if decide ((k, f) ∈ hf_del b) then None else hash_fields d !! (k, f)).
Proof.
  cbn. rewrite lookup_cascade.
  - case_decide; [done|]. by rewrite lookup_union, lookup_filter_notin.
  - intros v Hv. apply lookup_union_Some_raw in Hv as [Hv|[_ Hv]].
    + apply lookup_list_to_map_in, elem_of_reverse in Hv. rewrite reverse_involutive in Hv.
      destruct Hok as [Hf _ _ _]. rewrite Forall_forall in Hf. exact (Hf _ Hv).
    + apply filter_lookup_some in Hv as [Hv _]. eapply batch_store_old, fk_hash; eauto.
Qed.

Lemma item_at k o :
  list_items (batch_db (b, dels) d) !! (k, o) =
  if decide (k ∈ dels) then None
  else (list_to_map (li_ins b) : gmap _ _) !! (k, o) ∪
       (if decide ((k, o) ∈ li_del b) then None else list_items d !! (k, o)).
Proof.
  cbn. rewrite lookup_cascade.
  - case_decide; [done|]. by rewrite lookup_union, lookup_filter_notin.
  - intros v Hv. apply lookup_union_Some_raw in Hv as [Hv|[_ Hv]].
    + apply lookup_list_to_map_in in Hv.
      destruct Hok as [_ _ _ Hf]. rewrite Forall_forall in Hf. exact (Hf _ Hv).
    + apply filter_lookup_some in Hv as [Hv _]. eapply batch_store_old, fk_list; eauto.
Qed.

End Rows.

Lemma db_ext d d' :
  (forall k, store d !! k = store d' !! k) ->
  (forall k f, hash_fields d !! (k, f) = hash_fields d' !! (k, f)) ->
  (forall k o, list_items d !! (k, o) = list_items d' !! (k, o)) -> d = d'.
Proof.
  destruct d, d'. cbn. intros H1 H2 H3.
  f_equal; apply map_eq; [done|by intros []|by intros []].
Qed.

(** The rows of later events that [op] must not meet. *)
Definition clear_of (op : RowOp) (v : Vectors) : Prop :=
  match op with
  | OpDelete k => k ∉ (store_rows v.1).*1 /\ k ∉ (hf_up v.1).*1.*1 /\ k ∉ (hf_del v.1).*1 /\
                  k ∉ (li_ins v.1).*1.*1 /\ k ∉ (li_del v.1).*1
  | OpFieldUpsert k f _ => (k, f) ∉ hf_del v.1
  | OpItemInsert k o _ => (k, o) ∉ li_del v.1
  | _ => True
  end.

Lemma clear_of_ops op ops :
  forallb (fun later => negb (reorders op later)) ops = true -> clear_of op (foldr cons_op no_rows ops).
Proof.
  induction ops as [|later ops IH]; cbn [forallb foldr].
  { intros _. destruct op; cbn; try done; set_solver. }
  intros [Hl Hr]%andb_prop. specialize (IH Hr). destruct (foldr cons_op no_rows ops) as [b dels].
  apply negb_true_iff in Hl.
  destruct op, later; cbn in *; try done; apply bool_decide_eq_false in Hl;
    rewrite ?fmap_cons; cbn; set_solver.
Qed.

(** ** Batching is replay *)

Lemma apply_op_fk op d d' : db_fk d -> apply_op op d = Ret d' -> db_fk d'.
Proof.
  destruct op; cbn [apply_op]; [apply store_upsert_fk|apply store_delete_fk|apply hash_field_upsert_fk
    |apply hash_field_delete_fk|apply list_item_insert_fk|apply list_item_delete_fk].
Qed.

(** Case analysis on membership, then on the entries found. *)
Ltac by_rows :=
  repeat case_decide; rewrite ?elem_of_cons, ?elem_of_nil in *; simplify_eq; cbn;
  try (by intuition congruence);
  repeat match goal with
         | |- context [?m !! ?i ∪ _] => destruct (m !! i); cbn
         | |- context [_ ∪ ?m !! ?i] => destruct (m !! i); cbn
         end;
  try (by intuition congruence).

Lemma batch_store_cons b k row dels d :
  batch_store (cons_op (OpStore k row) (b, dels)).1 d =
  distinct_on_last (store_rows b) ∪ (distinct_on_last [(k, row)] ∪ store d).
Proof.
  apply map_eq. intros i. unfold batch_store. cbn [cons_op fst store_rows].
  rewrite !lookup_union, !lookup_distinct_cons, lookup_distinct_nil.
  by destruct (distinct_on_last (store_rows b) !! i), (decide (i = k)), (store d !! i).
Qed.

Lemma cons_store k row b dels d d1 :
  apply_op (OpStore k row) d = Ret d1 -> batch_ok b d1 ->
  batch_ok (cons_op (OpStore k row) (b, dels)).1 d /\
  batch_db (cons_op (OpStore k row) (b, dels)) d = batch_db (b, dels) d1.
Proof.
  intros [= <-] [H1 H2 H3 H4]. unfold batch_store in H1, H4. cbn [store list_items] in *.
  pose proof (batch_store_cons b k row dels d) as E. split.
  - split; rewrite ?E; done.
  - cbn [cons_op batch_db] in *. cbn [fst] in E. rewrite E. done.
Qed.

Lemma cons_field_upsert k f x b dels d d1 :
  apply_op (OpFieldUpsert k f x) d = Ret d1 -> db_fk d -> db_fk d1 ->
  clear_of (OpFieldUpsert k f x) (b, dels) -> batch_ok b d1 ->
  batch_ok (cons_op (OpFieldUpsert k f x) (b, dels)).1 d /\
  batch_db (cons_op (OpFieldUpsert k f x) (b, dels)) d = batch_db (b, dels) d1.
Proof.
  intros E Hfk Hfk1 Hc Hok. cbn in Hc. cbn [apply_op] in E. unfold SQL_HASH_FIELD_UPSERT in E.
  case_bool_decide as Hp; [|done]. injection E as <-. rewrite Forall_singleton in Hp. cbn in Hp.
  assert (Hok' : batch_ok (cons_op (OpFieldUpsert k f x) (b, dels)).1 d).
  { destruct Hok as [H1 H2 H3 H4]. split; cbn in *; try done.
    constructor; [exact (batch_store_old b d k Hp)|done]. }
  split; [done|]. cbn [cons_op] in *. apply db_ext.
  - intros k'. by rewrite !store_at.
  - intros k' f'. rewrite !field_at by done. cbn [hash_fields hf_up hf_del].
    rewrite lookup_union, !lookup_distinct_cons, lookup_distinct_nil. by_rows.
  - intros k' o'. by rewrite !item_at.
Qed.

Lemma cons_field_delete k f b dels d d1 :
  apply_op (OpFieldDelete k f) d = Ret d1 -> db_fk d -> db_fk d1 -> batch_ok b d1 ->
  batch_ok (cons_op (OpFieldDelete k f) (b, dels)).1 d /\
  batch_db (cons_op (OpFieldDelete k f) (b, dels)) d = batch_db (b, dels) d1.
Proof.
  intros [= <-] Hfk Hfk1 Hok.
  assert (Hok' : batch_ok (cons_op (OpFieldDelete k f) (b, dels)).1 d) by (by destruct Hok; split).
  split; [done|]. cbn [cons_op] in *. apply db_ext.
  - intros k'. by rewrite !store_at.
  - intros k' f'. rewrite !field_at by done. cbn [hash_fields hf_up hf_del].
    rewrite lookup_filter_notin. by_rows.
  - intros k' o'. by rewrite !item_at.
Qed.

Lemma cons_item_insert k o x b dels d d1 :
  apply_op (OpItemInsert k o x) d = Ret d1 -> db_fk d -> db_fk d1 ->
  clear_of (OpItemInsert k o x) (b, dels) -> batch_ok b d1 ->
  batch_ok (cons_op (OpItemInsert k o x) (b, dels)).1 d /\
  batch_db (cons_op (OpItemInsert k o x) (b, dels)) d = batch_db (b, dels) d1.
Proof.
  intros E Hfk Hfk1 Hc Hok. cbn in Hc. cbn [apply_op] in E. unfold SQL_LIST_ITEM_INSERT in E.
  case_bool_decide as Hn; [|done]. case_bool_decide as Hp; [|done]. injection E as <-.
  destruct Hn as [_ Hn]. rewrite Forall_singleton in Hn, Hp. cbn in Hn, Hp.
  assert (Hne : forall r, r ∈ li_ins b -> r.1 <> (k, o) /\
    filter (fun p => p.1 ∉ li_del b) (list_items d) !! r.1 = None).
  { intros [[k' o'] x'] Hr. destruct Hok as [_ _ H3 _]. rewrite Forall_forall in H3. specialize (H3 _ Hr).
    cbn in H3 |- *. rewrite !lookup_filter_notin, lookup_union in *. cbn in H3.
    destruct (decide ((k', o') = (k, o))) as [E|Hd].
    - simplify_eq. rewrite insert_empty, lookup_singleton_eq, decide_False in H3 by done.
      by destruct (list_items d !! (k, o)).
    - rewrite insert_empty, lookup_singleton_ne in H3 by done. split; [done|].
      by case_decide; [|destruct (list_items d !! (k', o'))]. }
  assert (Hok' : batch_ok (cons_op (OpItemInsert k o x) (b, dels)).1 d).
  { destruct Hok as [H1 H2 H3 H4]. split; cbn in *; try done.
    - constructor; [|done]. intros ([? ?] & E & Hr)%list_elem_of_fmap. by destruct (Hne _ Hr).
    - constructor; [cbn; rewrite lookup_filter_notin; by case_decide|].
      apply Forall_forall. intros r Hr. by apply Hne.
    - constructor; [exact (batch_store_old b d k Hp)|done]. }
  split; [done|]. cbn [cons_op] in *. apply db_ext.
  - intros k'. by rewrite !store_at.
  - intros k' f'. by rewrite !field_at.
  - intros k' o'. rewrite !item_at by done. cbn [list_items li_ins li_del].
    rewrite lookup_union. cbn. rewrite insert_empty, lookup_insert, lookup_singleton.
    case_decide; [done|]. destruct (decide ((k, o) = (k', o'))) as [E|Hd]; [|by by_rows].
    simplify_eq. rewrite !(decide_False (P := _ ∈ li_del b)) by done.
    rewrite not_elem_of_list_to_map_1; [by destruct (list_items d !! _)|].
    intros (r & E & Hr)%list_elem_of_fmap. by destruct (Hne _ Hr) as [[] _].
Qed.

Lemma cons_item_delete k o b dels d d1 :
  apply_op (OpItemDelete k o) d = Ret d1 -> db_fk d -> db_fk d1 -> batch_ok b d1 ->
  batch_ok (cons_op (OpItemDelete k o) (b, dels)).1 d /\
  batch_db (cons_op (OpItemDelete k o) (b, dels)) d = batch_db (b, dels) d1.
Proof.
  intros [= <-] Hfk Hfk1 Hok.
  assert (Hok' : batch_ok (cons_op (OpItemDelete k o) (b, dels)).1 d).
  { destruct Hok as [H1 H2 H3 H4]. split; cbn in *; try done.
    eapply Forall_impl; [exact H3|]. intros [[k' o'] x'] Hr. cbn in Hr |- *.
    rewrite !lookup_filter_notin in *. by_rows. }
  split; [done|]. cbn [cons_op] in *. apply db_ext.
  - intros k'. by rewrite !store_at.
  - intros k' f'. by rewrite !field_at.
  - intros k' o'. rewrite !item_at by done. cbn [list_items li_ins li_del].
    rewrite lookup_filter_notin. by_rows.
Qed.

Lemma cons_delete k b dels d d1 :
  apply_op (OpDelete k) d = Ret d1 -> db_fk d -> db_fk d1 ->
  clear_of (OpDelete k) (b, dels) -> batch_ok b d1 ->
  batch_ok (cons_op (OpDelete k) (b, dels)).1 d /\
  batch_db (cons_op (OpDelete k) (b, dels)) d = batch_db (b, dels) d1.
Proof.
  intros E Hfk Hfk1 (Hs & Hu & Hd & Hi & Hl) Hok. cbn in Hs, Hu, Hd, Hi, Hl. injection E as E.
  assert (Es : forall k', store d1 !! k' = if decide (k' = k) then None else store d !! k').
  { intros k'. rewrite <- E. cbn. rewrite lookup_filter_notin. by_rows. }
  assert (Eh : forall k' f, hash_fields d1 !! (k', f) = if decide (k' = k) then None else hash_fields d !! (k', f)).
  { intros k' f. rewrite <- E. cbn. rewrite lookup_cascade by (intros; by eapply fk_hash). by_rows. }
  assert (El : forall k' o, list_items d1 !! (k', o) = if decide (k' = k) then None else list_items d !! (k', o)).
  { intros k' o. rewrite <- E. cbn. rewrite lookup_cascade by (intros; by eapply fk_list). by_rows. }
  clear E.
  assert (Eb : forall k', is_Some (batch_store b d1 !! k') -> is_Some (batch_store b d !! k')).
  { intros k'. rewrite !batch_store_lookup, Es. case_decide; [|done].
    by destruct (distinct_on_last (store_rows b) !! k'), (store d !! k'); cbn; intros []. }
  assert (Hok' : batch_ok (cons_op (OpDelete k) (b, dels)).1 d).
  { destruct Hok as [H1 H2 H3 H4]. split; cbn [cons_op fst]; try done.
    - eapply Forall_impl; [exact H1|]. intros r. apply Eb.
    - rewrite Forall_forall in H3 |- *. intros [[k' o] x] Hr. specialize (H3 _ Hr). cbn in H3 |- *.
      rewrite lookup_filter_notin in H3 |- *. case_decide; [done|]. rewrite El in H3.
      case_decide; [|done]. subst. destruct Hi. apply list_elem_of_fmap.
      exists (k, o). split; [done|]. apply list_elem_of_fmap. by exists (k, o, x).
    - eapply Forall_impl; [exact H4|]. intros r. apply Eb. }
  split; [done|]. cbn [cons_op] in *. apply db_ext.
  - intros k'. rewrite !store_at, !batch_store_lookup, Es.
    destruct (decide (k' = k)) as [->|Hne].
    + rewrite lookup_distinct_None by done. by_rows.
    + by_rows.
  - intros k' f'. rewrite !field_at, Eh by done. destruct (decide (k' = k)) as [->|Hne].
    + rewrite lookup_distinct_None; [by_rows|]. intros Hin. apply Hu. apply list_elem_of_fmap. by exists (k, f').
    + by_rows.
  - intros k' o'. rewrite !item_at, El by done. destruct (decide (k' = k)) as [->|Hne].
    + rewrite not_elem_of_list_to_map_1; [by_rows|]. intros Hin. apply Hi. apply list_elem_of_fmap. by exists (k, o').
    + by_rows.
Qed.

Lemma batch_cons op v d d1 :
  apply_op op d = Ret d1 -> db_fk d -> clear_of op v -> batch_ok v.1 d1 ->
  batch_ok (cons_op op v).1 d /\ batch_db (cons_op op v) d = batch_db v d1.
Proof.
  intros E Hfk Hc Hok. pose proof (apply_op_fk _ _ _ Hfk E) as Hfk1. destruct v as [b dels].
  destruct op; [by apply cons_store|by apply cons_delete|by apply cons_field_upsert
    |by apply cons_field_delete|by apply cons_item_insert|by apply cons_item_delete].
Qed.

Lemma batch_replay ops d d' :
  db_fk d -> drain_ordered ops = true -> replay ops d = Ret d' ->
  batch_ok (foldr cons_op no_rows ops).1 d /\ d' = batch_db (foldr cons_op no_rows ops) d.
Proof.
  revert d. induction ops as [|op ops IH]; intros d Hfk Ho E.
  - cbn in E. simplify_eq. cbn [foldr].
    apply (drain_execute_iff no_rows.1 no_rows.2 d' d'). reflexivity.
  - cbn [replay] in E. destruct (apply_op op d) as [d1|] eqn:E1; [|done]. cbn [obind] in E.
    cbn [drain_ordered] in Ho. apply andb_prop in Ho as [Hc Ho].
    destruct (IH d1) as [Hok ->]; [by eapply apply_op_fk|done|done|].
    cbn [foldr]. destruct (batch_cons op (foldr cons_op no_rows ops) d d1 E1 Hfk) as [Hok' ->]; [|done|done].
    by apply clear_of_ops.
Qed.

Lemma drain_execute_replay ops d d' :
  db_fk d -> drain_ordered ops = true -> replay ops d = Ret d' ->
  drain_execute (foldl push_op no_rows ops) d = Ret d'.
Proof.
  intros Hfk Ho E. rewrite push_all. destruct (batch_replay ops d d' Hfk Ho E) as [Hok ->].
  destruct (foldr cons_op no_rows ops) as [b dels]. by apply drain_execute_iff.
Qed.

(** C24: The six array statements of the drain do what replaying its events one
    by one in ring order does: whenever the replay succeeds, the drain succeeds
    and leaves the same tables, provided no event of the batch is followed by
    one on the same row that the fixed statement order runs before it (a key
    deletion followed by a change of that key, a field write followed by its
    deletion, an item insertion followed by its deletion). *)
Theorem drain_is_replay ops d d' :
  db_fk d -> drain_ordered ops = true -> replay ops d = Ret d' ->
  drain_execute (foldl push_op no_rows ops) d = Ret d'.
Proof. apply drain_execute_replay. Qed.

(** ** One drain *)

(** No batch is in flight and the pending slots are READY. *)
Record ring_quiet (h : Ring) : Prop := {
  rq_cap : 0 < ring_capacity h;
  rq_heads : 0 <= ring_read_head h <= ring_write_head h;
  rq_room : ring_write_head h <= ring_read_head h + ring_capacity h;
  rq_bound : ring_write_head h < 2 ^ 64;
  rq_ready : forall pos, ring_read_head h <= pos < ring_write_head h -> sl_state (slot h pos) = SLOT_READY
}.

Definition drain_size (max_events : Z) (h : Ring) : nat :=
  Nat.min (Z.to_nat (drain_batch_max max_events)) (length (pending_events h)).

Lemma drain_size_eq max h :
  ring_quiet h ->
  drain_size max h = Nat.min (Z.to_nat (drain_batch_max max)) (Z.to_nat (ring_write_head h - ring_read_head h)).
Proof. intros [? Hh ? ? ?]. unfold drain_size. pose proof (pending_length h ltac:(lia)). lia. Qed.

Lemma range_is_take n h :
  ring_read_head h <= ring_write_head h -> Z.of_nat n <= ring_write_head h - ring_read_head h ->
  range_events n (ring_read_head h) h = take n (pending_events h).
Proof.
  intros Hh Hn. unfold range_events, pending_events. rewrite <- fmap_take. f_equal.
  replace (ring_write_head h - ring_read_head h)
    with (Z.of_nat n + (ring_write_head h - ring_read_head h - Z.of_nat n)) by lia.
  rewrite seqZ_app by lia. rewrite take_app_le by (rewrite length_seqZ; lia).
  rewrite firstn_all2; [done|]. rewrite length_seqZ. lia.
Qed.

Section Drain.
Context (h : Ring) (Hq : ring_quiet h).

(** What a drain of [n] slots leaves, for each of its two ends. *)
Lemma collected_slots n g g' :
  Z.of_nat n <= ring_write_head h - ring_read_head h ->
  let h1 := update_range n (ring_read_head h) g (update_range n (ring_read_head h) g' h) in
  ring_write_head h1 = ring_write_head h /\ ring_read_head h1 = ring_read_head h /\
  ring_capacity h1 = ring_capacity h /\
  forall pos, ring_read_head h <= pos < ring_read_head h + ring_capacity h ->
    slot h1 pos = if pos <? ring_read_head h + Z.of_nat n then g (g' (slot h pos)) else slot h pos.
Proof.
  intros Hn h1. destruct Hq. pose proof (update_range_heads n (ring_read_head h) g' h) as (E1 & E2 & E3).
  pose proof (update_range_heads n (ring_read_head h) g (update_range n (ring_read_head h) g' h)) as (F1 & F2 & F3).
  unfold h1. rewrite F1, F2, F3. split_and!; try done. intros pos Hp.
  rewrite !update_range_slot by (rewrite ?E3; lia). by destruct (pos <? _).
Qed.

Lemma quiet_collect max :
  pg_redis_dirty_ring_collect (Z.to_nat (drain_batch_max max)) h =
  (take (drain_size max h) (pending_events h), ring_read_head h,
   update_range (drain_size max h) (ring_read_head h) (set_state SLOT_DRAINING) h).
Proof.
  pose proof Hq as []. unfold pg_redis_dirty_ring_collect. rewrite (proj2 (Z.leb_gt _ _)) by done.
  rewrite collect_loop_eq by (first [done | lia]). rewrite <- drain_size_eq by done.
  rewrite range_is_take; [done|lia|]. rewrite drain_size_eq by done. lia.
Qed.

Lemma quiet_abort n :
  (0 < n)%nat -> Z.of_nat n <= ring_write_head h - ring_read_head h ->
  let h' := pg_redis_dirty_ring_abort_batch (ring_read_head h) n
    (update_range n (ring_read_head h) (set_state SLOT_DRAINING) h) in
  ring_quiet h' /\ pending_events h' = pending_events h.
Proof.
  intros Hn0 Hn h'. pose proof Hq as [].
  assert (h' = update_range n (ring_read_head h) (set_state SLOT_READY)
    (update_range n (ring_read_head h) (set_state SLOT_DRAINING) h)) as ->.
  { unfold h', pg_redis_dirty_ring_abort_batch.
    destruct (update_range_heads n (ring_read_head h) (set_state SLOT_DRAINING) h) as (_ & _ & ->).
    rewrite !(proj2 (Z.leb_gt _ _)) by lia. cbn [orb]. by apply abort_loop_eq; lia. }
  destruct (collected_slots n (set_state SLOT_READY) (set_state SLOT_DRAINING) Hn) as (Ew & Er & Ec & Hs).
  split.
  - split; rewrite ?Ew, ?Er, ?Ec; try done. intros pos Hp. rewrite Hs by lia.
    destruct (pos <? _); [done|]. by apply rq_ready0.
  - apply pending_ext; try done. intros pos Hp. rewrite Hs by lia. by destruct (pos <? _).
Qed.

Lemma quiet_release_eq n area :
  (0 < n)%nat -> Z.of_nat n <= ring_write_head h - ring_read_head h ->
  (pg_redis_dirty_ring_release_batch (ring_read_head h) n
     (update_range n (ring_read_head h) (set_state SLOT_DRAINING) h, area)).1 =
  set_read_head (ring_read_head h + Z.of_nat n)
    (update_range n (ring_read_head h) empty_slot
       (update_range n (ring_read_head h) (set_state SLOT_DRAINING) h)).
Proof.
  intros Hn0 Hn. pose proof Hq as []. unfold pg_redis_dirty_ring_release_batch. cbn [fst].
  destruct (update_range_heads n (ring_read_head h) (set_state SLOT_DRAINING) h) as (_ & _ & ->).
  rewrite !(proj2 (Z.leb_gt _ _)) by lia. cbn [orb].
  pose proof (release_loop_eq n (ring_read_head h)
    (update_range n (ring_read_head h) (set_state SLOT_DRAINING) h, area) ltac:(lia) ltac:(lia)) as Hl.
  destruct (release_loop _ _ _) as [h2 a2]. cbn in Hl |- *. rewrite Hl, wrap_u_small by lia. done.
Qed.

Lemma quiet_release n area :
  (0 < n)%nat -> Z.of_nat n <= ring_write_head h - ring_read_head h ->
  let x := pg_redis_dirty_ring_release_batch (ring_read_head h) n
    (update_range n (ring_read_head h) (set_state SLOT_DRAINING) h, area) in
  ring_quiet x.1 /\ pending_events x.1 = drop n (pending_events h).
Proof.
  intros Hn0 Hn x. pose proof Hq as []. unfold x. rewrite quiet_release_eq by done.
  destruct (collected_slots n empty_slot (set_state SLOT_DRAINING) Hn) as (Ew & Er & Ec & Hs).
  set (h1 := update_range n (ring_read_head h) empty_slot _) in *. split.
  - split; cbn -[slot ring_capacity];
      change (ring_capacity (set_read_head _ h1)) with (ring_capacity h1); rewrite ?Ew, ?Ec; try done; try lia.
    intros pos Hp. change (slot (set_read_head _ h1) pos) with (slot h1 pos). rewrite Hs by lia.
    rewrite (proj2 (Z.ltb_ge _ _)) by lia. apply rq_ready0. lia.
  - pose proof (pending_split h (set_read_head (ring_read_head h + Z.of_nat n) h1) n) as Hsp.
    rewrite Hsp; try done; [by rewrite drop_app_length'; [|symmetry; apply range_events_length]|].
    intros pos Hp. change (slot (set_read_head _ h1) pos) with (slot h1 pos). rewrite Hs by lia.
    by rewrite (proj2 (Z.ltb_ge _ _)) by lia.
Qed.

End Drain.

(** C6: A drain on a quiet ring whose first events decode to [ops] (at most
    1024 of them, and at most [max_events] when that is positive) either makes
    exactly the changes of its six statements, takes exactly these events off
    the queue and returns their number, or, when a statement raises, raises the
    same error and leaves tables, shared memory and queue as they were, so that
    the next drain meets the same events.  It returns whenever the replay of
    the events in ring order succeeds and nothing in the batch is reordered,
    and the tables then are those of the replay. *)
Theorem drain_exact cfg max s ops :
  let evs := take (drain_size max (x_ring s)) (pending_events (x_ring s)) in
  persistence_writes_enabled cfg = true -> ring_quiet (x_ring s) -> db_fk (x_db s) ->
  mapM (decode_op (x_dsa s)) evs = Some ops ->
  match pg_redis_persistence_async_drain cfg max s with
  | (Ret n, s') =>
      n = Z.of_nat (length evs) /\ ring_quiet (x_ring s') /\
      pending_events (x_ring s') = drop (length evs) (pending_events (x_ring s)) /\
      drain_execute (foldl push_op no_rows ops) (x_db s) = Ret (x_db s')
  | (Raise e, s') =>
      drain_execute (foldl push_op no_rows ops) (x_db s) = Raise e /\
      ring_quiet (x_ring s') /\ pending_events (x_ring s') = pending_events (x_ring s) /\
      x_db s' = x_db s /\ x_dsa s' = x_dsa s
  end /\
  (forall d, drain_ordered ops = true -> replay ops (x_db s) = Ret d ->
     exists s', pg_redis_persistence_async_drain cfg max s = (Ret (Z.of_nat (length evs)), s') /\
       x_db s' = d).
Proof.
  intros evs Hw Hq Hfk Hd. unfold pg_redis_persistence_async_drain. rewrite Hw. cbn [negb].
  rewrite (quiet_collect _ Hq). fold evs. pose proof (rq_heads _ Hq) as Hh.
  pose proof (pending_length (x_ring s) ltac:(lia)) as Hlen.
  assert (Hn : length evs = drain_size max (x_ring s))
    by (unfold evs; rewrite length_take; unfold drain_size; lia).
  assert (Hle : Z.of_nat (length evs) <= ring_write_head (x_ring s) - ring_read_head (x_ring s))
    by (rewrite Hn; unfold drain_size; lia).
  rewrite <- Hn. destruct (length evs =? 0)%nat eqn:H0.
  - apply Nat.eqb_eq in H0. rewrite H0. apply nil_length_inv in H0. rewrite H0 in Hd. injection Hd as <-.
    split; [by split_and!|]. intros d _ E. cbn in E. simplify_eq. eauto.
  - apply Nat.eqb_neq in H0. rewrite Hd.
    pose proof (quiet_abort _ Hq (length evs) ltac:(lia) Hle) as [Ha1 Ha2].
    pose proof (quiet_release _ Hq (length evs) (x_dsa s) ltac:(lia) Hle) as [Hr1 Hr2].
    destruct (drain_execute _ (x_db s)) as [d0|e] eqn:Hx.
    + destruct (pg_redis_dirty_ring_release_batch _ _ _) as [h' area] eqn:Hrel.
      split; [done|]. intros d Ho E. rewrite (drain_execute_replay _ _ _ Hfk Ho E) in Hx. simplify_eq. eauto.
    + split; [done|]. intros d Ho E. by rewrite (drain_execute_replay _ _ _ Hfk Ho E) in Hx.
Qed.

(** ** What the fixed statement order does to reordered events *)

(** Outside [drain_ordered] the drain and the replay differ, on any tables:
    a key deleted and written again within one batch ends up deleted; a field
    written and deleted again within one batch, and an item inserted and
    deleted again, end up present. *)
Theorem drain_reorders k f o row x d :
  (exists d1 d2, replay [OpDelete k; OpStore k row] d = Ret d1 /\
     drain_execute (foldl push_op no_rows [OpDelete k; OpStore k row]) d = Ret d2 /\
     store d1 !! k = Some row /\ store d2 !! k = None) /\
  (is_Some (store d !! k) ->
   exists d1 d2, replay [OpFieldUpsert k f x; OpFieldDelete k f] d = Ret d1 /\
     drain_execute (foldl push_op no_rows [OpFieldUpsert k f x; OpFieldDelete k f]) d = Ret d2 /\
     hash_fields d1 !! (k, f) = None /\ hash_fields d2 !! (k, f) = Some x) /\
  (is_Some (store d !! k) -> list_items d !! (k, o) = None ->
   exists d1 d2, replay [OpItemInsert k o x; OpItemDelete k o] d = Ret d1 /\
     drain_execute (foldl push_op no_rows [OpItemInsert k o x; OpItemDelete k o]) d = Ret d2 /\
     list_items d1 !! (k, o) = None /\ list_items d2 !! (k, o) = Some x).
Proof.
  split_and!.
  - do 2 eexists. split; [reflexivity|]. split; [reflexivity|]. cbn. split.
    + by rewrite lookup_union, insert_empty, lookup_singleton_eq; destruct (filter _ _ !! _).
    + rewrite lookup_filter_notin, decide_True by set_solver. done.
  - intros Hp. cbn. unfold SQL_HASH_FIELD_UPSERT. cbn.
    rewrite !bool_decide_eq_true_2 by (by repeat constructor).
    do 2 eexists. split; [reflexivity|]. split; [reflexivity|]. cbn.
    rewrite lookup_filter_notin, decide_True by set_solver.
    by rewrite lookup_union, insert_empty, lookup_singleton_eq; destruct (filter _ _ !! _).
  - intros Hp Hn. cbn. unfold SQL_LIST_ITEM_INSERT. cbn.
    rewrite !bool_decide_eq_true_2; try (by repeat constructor).
    + do 2 eexists. split; [reflexivity|]. split; [reflexivity|]. cbn.
      rewrite lookup_filter_notin, decide_True by set_solver.
      by rewrite lookup_union, insert_empty, lookup_singleton_eq; destruct (filter _ _ !! _).
    + split; [apply NoDup_singleton|]. rewrite Forall_singleton. cbn.
      rewrite lookup_filter_notin, decide_True by set_solver. done.
    + split; [apply NoDup_singleton|]. by rewrite Forall_singleton.
Qed.

(** ** Witnesses *)

Definition async_config : Config :=
  {| pg_redis_persistence_mode := Some (bs "async_table");
     pg_redis_storage_mode := Some (bs "shared");
     pg_redis_max_key_size := 1024; pg_redis_max_value_size := 1048576; shmem_initialized := true |}.

(** A parent upsert, a field replaced, an item popped and one pushed: the
    events HDEL, HSET, LPOP, RPUSH put on the ring. *)
Definition demo_row (ty : string) : StoreRow :=
  {| sr_type := bs ty; sr_value := None; sr_expire_at := None; sr_version := 1 |}.
Definition demo_tables : Db :=
  {| store := {[ bs "h" := demo_row "hash"; bs "l" := demo_row "list" ]};
     hash_fields := {[ (bs "h", bs "f") := Some (bs "1") ]};
     list_items := {[ (bs "l", 0) := Some (bs "a") ]} |}.
Definition demo_ops : list RowOp :=
  [OpFieldDelete (bs "h") (bs "f"); OpFieldUpsert (bs "h") (bs "f") (Some (bs "2"));
   OpItemDelete (bs "l") 0; OpItemInsert (bs "l") 0 (Some (bs "b")); OpStore (bs "l") (demo_row "list");
   OpDelete (bs "l")].
Definition demo_after : Db :=
  match replay demo_ops demo_tables with Ret d => d | Raise _ => demo_tables end.

Lemma demo_tables_fk : db_fk demo_tables.
Proof.
  split; intros k x v Hv; cbn in Hv; apply lookup_singleton_Some in Hv as [[= <- <-] _]; eexists; by vm_compute.
Qed.

Lemma drain_is_replay_witness :
  drain_execute (foldl push_op no_rows demo_ops) demo_tables = Ret demo_after.
Proof. apply (drain_is_replay demo_ops demo_tables demo_after demo_tables_fk); by vm_compute. Defined.

(** A ring with one published event, a field write. *)
Definition demo_event : PgRedisDirtyEvent :=
  match @encode_change (bump_allocator 100000) blank_event
          (HashFieldUpsert (bs "h") (bs "f") (bs "2")) (Some ∅) with
  | (Ret ev, _) => ev
  | _ => blank_event
  end.
Definition demo_shared : Shared :=
  {| x_ring := match pg_redis_dirty_ring_publish 0 demo_event (pg_redis_dirty_ring_shmem_init 2) with
               | Some (_, h) => h
               | None => pg_redis_dirty_ring_shmem_init 2
               end;
     x_dsa := Some ∅; x_db := demo_tables |}.

Lemma demo_shared_quiet : ring_quiet (x_ring demo_shared).
Proof.
  split; try (by vm_compute).
  intros pos Hp. change (0 <= pos < 1) in Hp. assert (pos = 0) as -> by lia. by vm_compute.
Qed.

Lemma drain_exact_witness :
  exists cfg s', pg_redis_persistence_async_drain cfg 0 demo_shared = (Ret 1, s') /\
    hash_fields (x_db s') !! (bs "h", bs "f") = Some (Some (bs "2")).
Proof.
  set (ops := [OpFieldUpsert (bs "h") (bs "f") (Some (bs "2"))]).
  set (d := match replay ops demo_tables with Ret d => d | Raise _ => demo_tables end).
  destruct (drain_exact async_config 0 demo_shared ops) as [_ Hr];
    [by vm_compute|apply demo_shared_quiet|apply demo_tables_fk|by vm_compute|].
  destruct (Hr d) as (s' & E & Hd); [done|by vm_compute|].
  exists async_config, s'. split; [exact E|]. rewrite Hd. by vm_compute.
Defined.

Lemma drain_reorders_witness :
  exists d1 d2, replay [OpItemInsert (bs "l") 7 None; OpItemDelete (bs "l") 7] demo_tables = Ret d1 /\
    drain_execute (foldl push_op no_rows [OpItemInsert (bs "l") 7 None; OpItemDelete (bs "l") 7])
      demo_tables = Ret d2 /\
    list_items d1 !! (bs "l", 7) = None /\ list_items d2 !! (bs "l", 7) = Some None.
Proof.
  apply (proj2 (proj2 (drain_reorders (bs "l") (bs "f") 7 (demo_row "list") None demo_tables)));
    [eexists|]; by vm_compute.
Defined.
