(* ===== verification/AsyncPublish.v ===== *)
(** * Publishing a change (src/kv_store.c, src/dirty_ring.c, src/persistence.c)

    The asynchronous half of [pg_redis_mark_dirty] and [pg_redis_mark_deleted]:
    one event for the parent row and one per delta of the collection, each
    encoded and published by [pg_redis_dirty_ring_publish_blocking], which
    applies [pg_redis.async_full_action] when the ring is full.  What other
    processes do while a producer sleeps is a parameter, [env].  A call that
    spins for ever has no result ([None]). *)
From S2P Require Import Prelude Types Binval Utils ListValue HashValue KvStore Db Persistence.
From S2P Require Import SharedMem DirtyEvent DirtyRing RingProtocol AsyncDrain.

Inductive PgRedisAsyncFullAction := PG_REDIS_ASYNC_FULL_BLOCK | PG_REDIS_ASYNC_FULL_SYNC_FLUSH.

#[export] Instance PgRedisAsyncFullAction_eq_dec : EqDecision PgRedisAsyncFullAction.
Proof. solve_decision. Defined.

(** A producer: the shared state and its own count of published events. *)
Record Producer := { p_shared : Shared; async_published_in_xact : Z }.

(** Computations that may not return. *)
Definition P (A : Type) : Type := Producer -> option (outcome A * Producer).

Definition pret {A} (a : A) : P A := fun s => Some (Ret a, s).
Definition pbind {A B} (m : P A) (k : A -> P B) : P B := fun s =>
  match m s with
  | None => None
  | Some (Ret a, s') => k a s'
  | Some (Raise e, s') => Some (Raise e, s')
  end.

Fixpoint pfor_each {A} (l : list A) (f : A -> P unit) : P unit :=
  match l with
  | [] => pret tt
  | x :: l' => pbind (f x) (fun _ => pfor_each l' f)
  end.

Definition set_ring (h : Ring) (s : Shared) : Shared := {| x_ring := h; x_dsa := x_dsa s; x_db := x_db s |}.
Definition set_dsa (area : Dsa) (s : Shared) : Shared := {| x_ring := x_ring s; x_dsa := area; x_db := x_db s |}.

Section Publish.
Context `{DsaAllocator}.
Context (cfg : Config) (action : PgRedisAsyncFullAction) (env : Shared -> Shared) (now : Z).

(** The subtransaction (or transaction) around the drain: an error rolls the
    tables back and is raised again, which is how [async_drain] leaves them. *)
Definition pg_redis_persistence_sync_drain : M Shared Z := pg_redis_persistence_async_drain cfg 0.

(** [spin] attempts have failed since the last drain. *)
Fixpoint pg_redis_dirty_ring_publish_blocking (fuel spin : nat) (ev : PgRedisDirtyEvent) (s : Shared)
    : option (outcome unit * Shared) :=
  match fuel with
  | O => None
  | S fuel' =>
      match pg_redis_dirty_ring_publish now ev (x_ring s) with
      | None => None
      | Some (PG_REDIS_RING_OK, h) => Some (Ret tt, set_ring h s)
      | Some (PG_REDIS_RING_FULL, h) =>
          match action with
          | PG_REDIS_ASYNC_FULL_SYNC_FLUSH =>
              match pg_redis_persistence_sync_drain (set_ring h s) with
              | (Ret _, s') => pg_redis_dirty_ring_publish_blocking fuel' 0 ev s'
              | (Raise e, s') => Some (Raise e, s')
              end
          | PG_REDIS_ASYNC_FULL_BLOCK =>
              if (100 <=? S spin)%nat
              then Some (Raise ERRCODE_INSUFFICIENT_RESOURCES,
                         set_dsa (free_event_spill ev (x_dsa s)) (set_ring h s))
              else pg_redis_dirty_ring_publish_blocking fuel' (S spin) ev (env (set_ring h s))
          end
      end
  end.

(** ** The publishers

    [ev0] is the event on the stack before an encoder fills it; [fuel] bounds
    the attempts of one publish. *)
Context (ev0 : PgRedisDirtyEvent) (fuel : nat).

(** Encode, publish, and count ([pg_redis_persistence_note_async_publish]). *)
Definition publish_change (c : Change) : P unit := fun p =>
  match encode_change ev0 c (x_dsa (p_shared p)) with
  | (Raise e, area) =>
      Some (Raise e, {| p_shared := set_dsa area (p_shared p);
                        async_published_in_xact := async_published_in_xact p |})
  | (Ret ev, area) =>
      match pg_redis_dirty_ring_publish_blocking fuel 0 ev (set_dsa area (p_shared p)) with
      | None => None
      | Some (Ret _, s') => Some (Ret tt, {| p_shared := s';
                                             async_published_in_xact := async_published_in_xact p + 1 |})
      | Some (Raise e, s') => Some (Raise e, {| p_shared := s';
                                                async_published_in_xact := async_published_in_xact p |})
      end
  end.

Definition publish_async_key_upsert (key : bytes) (e : PgRedisEntry) : P unit :=
  match e_type e with
  | PG_REDIS_TYPE_STRING | PG_REDIS_TYPE_INT =>
      match pg_redis_encode_value e with
      | None => pret tt
      | Some tlv => publish_change (KeyUpsert key e tlv)
      end
  | PG_REDIS_TYPE_HASH | PG_REDIS_TYPE_LIST => publish_change (KeyUpsert key e [])
  end.

(** The flags and chains are cleared as the events go out. *)
Definition publish_async_hash_deltas (key : bytes) (e : PgRedisEntry) : P PgRedisEntry :=
  match e_value e with
  | VHash (Some h) =>
      pbind (pfor_each (dirty_fields h) (fun q => publish_change (HashFieldUpsert key q.1 q.2))) (fun _ =>
      pbind (pfor_each (h_tombstones h) (fun f => publish_change (HashFieldDelete key f))) (fun _ =>
      pret (set_value (VHash (Some
        {| h_fields := (fun fl => {| f_value := f_value fl; f_dirty := false |}) <$> h_fields h;
           h_field_count := h_field_count h; h_memory_usage := h_memory_usage h;
           h_tombstones := [] |})) e)))
  | _ => pret e
  end.

Definition publish_async_list_deltas (key : bytes) (e : PgRedisEntry) : P PgRedisEntry :=
  match e_value e with
  | VList (Some l) =>
      pbind (pfor_each (pending_inserts l) (fun q => publish_change (ListItemInsert key q.1 q.2))) (fun _ =>
      pbind (pfor_each (l_pending_delete_ords l) (fun o => publish_change (ListItemDelete key o))) (fun _ =>
      pret (set_value (VList (Some
        {| l_nodes := (fun n => {| n_value := n_value n; n_ord := n_ord n;
                                   n_pending_insert := false |}) <$> l_nodes l;
           l_length := l_length l; l_memory_usage := l_memory_usage l;
           l_min_ord := l_min_ord l; l_max_ord := l_max_ord l;
           l_ord_initialized := l_ord_initialized l; l_pending_delete_ords := [] |})) e)))
  | _ => pret e
  end.

(** The publishing half of [pg_redis_mark_dirty]. *)
Definition mark_dirty_publish (key : bytes) (e : PgRedisEntry) : P PgRedisEntry :=
  pbind (publish_async_key_upsert key e) (fun _ =>
  match e_type e with
  | PG_REDIS_TYPE_HASH => publish_async_hash_deltas key e
  | PG_REDIS_TYPE_LIST => publish_async_list_deltas key e
  | _ => pret e
  end).

(** The asynchronous branch of [pg_redis_mark_deleted]. *)
Definition mark_deleted_publish (key : bytes) : P unit :=
  match key with
  | [] => pret tt
  | _ => publish_change (KeyDelete key)
  end.

End Publish.

(** ** A ring nobody is writing to *)

Record ring_idle (h : Ring) : Prop := {
  ridle_quiet : ring_quiet h;
  ridle_free : forall pos, ring_write_head h <= pos < ring_read_head h + ring_capacity h ->
    sl_state (slot h pos) = SLOT_EMPTY;
  ridle_bound : ring_write_head h + 1 < 2 ^ 64
}.

Lemma idle_publish_full now ev h :
  ring_idle h -> pg_redis_dirty_ring_full h = true ->
  pg_redis_dirty_ring_publish now ev h = Some (PG_REDIS_RING_FULL, h).
Proof.
  intros [[] _ Hb] Hf. rewrite full_iff in Hf by lia. apply Z.leb_le in Hf.
  apply publish_alone_full; [done|]. rewrite wrap_u_small by lia. lia.
Qed.

(** A publish into a ring with room appends the event; one more slot is used. *)
Lemma idle_publish_ok now ev h :
  ring_idle h -> pg_redis_dirty_ring_full h = false ->
  exists h', pg_redis_dirty_ring_publish now ev h = Some (PG_REDIS_RING_OK, h') /\
    pending_events h' = pending_events h ++ [ev] /\ ring_capacity h' = ring_capacity h /\
    ring_read_head h' = ring_read_head h /\ ring_write_head h' = ring_write_head h + 1 /\
    ring_quiet h' /\
    (forall pos, ring_write_head h' <= pos < ring_read_head h' + ring_capacity h' ->
       sl_state (slot h' pos) = SLOT_EMPTY).
Proof.
  intros [Hq Hf Hb] Hfull. pose proof Hq as []. rewrite full_iff in Hfull by lia. apply Z.leb_gt in Hfull.
  set (w := ring_write_head h) in *. set (h' := set_write_head (w + 1) (filled now ev w h)).
  assert (Hc : ring_capacity h' = ring_capacity h) by (apply (filled_capacity now ev w h)).
  assert (Hs : forall pos, Z.abs (w - pos) < ring_capacity h -> slot h' pos =
    if decide (pos = w) then {| sl_state := SLOT_READY; sl_write_started_at := now; sl_event := ev |}
    else slot h pos) by (intros pos Hp; exact (filled_slot now ev w h pos rq_cap Hp)).
  exists h'. split_and!.
  - rewrite publish_alone_ok; [by rewrite wrap_u_small by lia|done|fold w; rewrite wrap_u_small by lia; lia|].
    apply Hf. fold w. lia.
  - apply filled_pending; fold w; lia.
  - done.
  - done.
  - done.
  - split; rewrite ?Hc; cbn -[slot ring_capacity]; fold w; try lia.
    intros pos Hp. change (slot _ pos) with (slot h' pos). rewrite Hs by lia.
    case_decide; [done|]. apply rq_ready. lia.
  - rewrite Hc. cbn -[slot ring_capacity]. intros pos Hp. change (slot _ pos) with (slot h' pos).
    rewrite Hs, decide_False by lia. apply Hf. fold w. lia.
Qed.

(** A released batch leaves its slots EMPTY. *)
Lemma idle_release h n area :
  ring_idle h -> (0 < n)%nat -> Z.of_nat n <= ring_write_head h - ring_read_head h ->
  let x := pg_redis_dirty_ring_release_batch (ring_read_head h) n
    (update_range n (ring_read_head h) (set_state SLOT_DRAINING) h, area) in
  ring_idle x.1 /\ ring_capacity x.1 = ring_capacity h /\ ring_write_head x.1 = ring_write_head h /\
  ring_read_head x.1 = ring_read_head h + Z.of_nat n.
Proof.
  intros [Hq Hf Hb] Hn0 Hn x. pose proof Hq as []. destruct (quiet_release h Hq n area Hn0 Hn) as [Hq' _].
  fold x in Hq'.
  destruct (collected_slots h Hq n empty_slot (set_state SLOT_DRAINING) Hn) as (Ew & Er & Ec & Hs).
  set (h1 := update_range n (ring_read_head h) empty_slot _) in *.
  assert (Ex : x.1 = set_read_head (ring_read_head h + Z.of_nat n) h1)
    by (by apply quiet_release_eq).
  rewrite Ex in *. cbn [set_read_head ring_read_head ring_write_head].
  change (ring_capacity (set_read_head _ h1)) with (ring_capacity h1). split_and!; try done.
  split; [done| |by cbn; rewrite Ew].
  cbn [set_read_head ring_read_head ring_write_head].
  change (ring_capacity (set_read_head _ h1)) with (ring_capacity h1).
  intros pos Hp. change (slot (set_read_head _ h1) pos) with (slot h1 pos). rewrite Ew, Ec in Hp.
  destruct (decide (pos < ring_read_head h + ring_capacity h)).
  - rewrite Hs by lia. rewrite (proj2 (Z.ltb_ge _ _)) by lia. apply Hf. lia.
  - replace pos with ((pos - ring_capacity h1) + ring_capacity h1) by lia.
    rewrite slot_wrap, Hs by lia. by rewrite (proj2 (Z.ltb_lt _ _)) by lia.
Qed.

(** ** A full ring *)

Section Full.
Context (cfg : Config) (now : Z).

Lemma set_ring_id s : set_ring (x_ring s) s = s.
Proof. by destruct s. Qed.

(** [async_full_action = 'block'] waits a bounded time.  Whatever other
    processes do to the ring between attempts, as long as they leave it between
    operations, a blocking publish makes at most 100 attempts: it publishes at
    the first attempt that finds room, appending the event to what is pending
    then, or finds the ring full 100 times, raises insufficient_resources, and
    leaves ring and tables as it last saw them. *)
Theorem block_waits_bounded (env : Shared -> Shared) ev s :
  (forall x, ring_idle (x_ring x) -> ring_idle (x_ring (env x))) -> ring_idle (x_ring s) ->
  let full i := pg_redis_dirty_ring_full (x_ring (Nat.iter i env s)) in
  let res := pg_redis_dirty_ring_publish_blocking cfg PG_REDIS_ASYNC_FULL_BLOCK env now 100 0 ev s in
  (exists i s', (i < 100)%nat /\ (forall j, (j < i)%nat -> full j = true) /\ full i = false /\
     res = Some (Ret tt, s') /\ x_db s' = x_db (Nat.iter i env s) /\
     pending_events (x_ring s') = pending_events (x_ring (Nat.iter i env s)) ++ [ev]) \/
  ((forall j, (j < 100)%nat -> full j = true) /\
   exists s', res = Some (Raise ERRCODE_INSUFFICIENT_RESOURCES, s') /\
     x_ring s' = x_ring (Nat.iter 99 env s) /\ x_db s' = x_db (Nat.iter 99 env s)).
Proof.
  intros Henv Hs full res.
  assert (Hidle : forall i, ring_idle (x_ring (Nat.iter i env s))) by (induction i; cbn; auto).
  (* attempt [i] is made with fuel [100 - i] and [i] failures behind it *)
  assert (Hgo : forall m i, (i + m = 100)%nat -> (0 < m)%nat -> (forall j, (j < i)%nat -> full j = true) ->
    res = pg_redis_dirty_ring_publish_blocking cfg PG_REDIS_ASYNC_FULL_BLOCK env now m i ev (Nat.iter i env s) ->
    (exists i s', (i < 100)%nat /\ (forall j, (j < i)%nat -> full j = true) /\ full i = false /\
       res = Some (Ret tt, s') /\ x_db s' = x_db (Nat.iter i env s) /\
       pending_events (x_ring s') = pending_events (x_ring (Nat.iter i env s)) ++ [ev]) \/
    ((forall j, (j < 100)%nat -> full j = true) /\
     exists s', res = Some (Raise ERRCODE_INSUFFICIENT_RESOURCES, s') /\
       x_ring s' = x_ring (Nat.iter 99 env s) /\ x_db s' = x_db (Nat.iter 99 env s))).
  { induction m as [|m IH]; intros i Hi Hm Hfull E; [lia|].
    cbn [pg_redis_dirty_ring_publish_blocking] in E. destruct (full i) eqn:Hf.
    - rewrite idle_publish_full in E by (by unfold full in Hf).
      rewrite set_ring_id in E.
      assert (Hall : forall j, (j < S i)%nat -> full j = true).
      { intros j Hj. destruct (decide (j = i)) as [->|]; [done|]. apply Hfull. lia. }
      destruct (decide (m = 0%nat)) as [->|Hm0].
      + right. assert (i = 99%nat) as -> by lia. split; [exact Hall|]. eexists. split; [exact E|done].
      + rewrite (proj2 (Nat.leb_gt _ _)) in E by lia. apply (IH (S i)); [lia|lia|done|exact E].
    - left. destruct (idle_publish_ok now ev _ (Hidle i) Hf) as (h' & Ep & Hp & _). rewrite Ep in E.
      exists i. eexists. split_and!; [lia|done|done|exact E|done|exact Hp]. }
  apply (Hgo 100%nat 0%nat); [lia|lia|lia|done].
Qed.

(** The drain of a full, idle ring. *)
Lemma idle_drain s ops d :
  let evs := take (drain_size 0 (x_ring s)) (pending_events (x_ring s)) in
  persistence_writes_enabled cfg = true -> ring_idle (x_ring s) -> (0 < length evs)%nat ->
  mapM (decode_op (x_dsa s)) evs = Some ops ->
  drain_execute (foldl push_op no_rows ops) (x_db s) = Ret d ->
  exists s', pg_redis_persistence_async_drain cfg 0 s = (Ret (Z.of_nat (length evs)), s') /\
    ring_idle (x_ring s') /\ x_db s' = d /\
    pending_events (x_ring s') = drop (length evs) (pending_events (x_ring s)) /\
    pg_redis_dirty_ring_full (x_ring s') = false.
Proof.
  intros evs Hw Hi He Hd Hx. pose proof (ridle_quiet _ Hi) as Hq. pose proof Hq as [].
  unfold pg_redis_persistence_async_drain. rewrite Hw. cbn [negb]. rewrite (quiet_collect _ Hq). fold evs.
  pose proof (pending_length (x_ring s) ltac:(lia)) as Hlen.
  assert (Hn : length evs = drain_size 0 (x_ring s))
    by (unfold evs; rewrite length_take; unfold drain_size; lia).
  assert (Hle : Z.of_nat (length evs) <= ring_write_head (x_ring s) - ring_read_head (x_ring s))
    by (rewrite Hn; unfold drain_size; lia).
  rewrite <- Hn. rewrite (proj2 (Nat.eqb_neq _ _)) by lia. rewrite Hd, Hx.
  destruct (quiet_release _ Hq (length evs) (x_dsa s) He Hle) as [_ Hp].
  destruct (idle_release _ (length evs) (x_dsa s) Hi He Hle) as (Hi' & Ec & Ew & Er).
  destruct (pg_redis_dirty_ring_release_batch _ _ _) as [h' area]. cbn [fst] in *.
  eexists. split; [done|]. cbn [x_ring x_db]. split_and!; try done.
  rewrite full_iff, Ec, Ew, Er by lia. apply Z.leb_gt. lia.
Qed.

(** [async_full_action = 'sync_flush'] makes room.  On an idle ring a
    blocking publish needs at most two attempts: with room it appends the event;
    on a full ring whose oldest events (at most 1024) decode it drains them, and
    if their statements succeed the tables show them, they have left the queue
    and the event is appended behind the rest; if a statement raises, the error
    is raised and tables and queue are as before. *)
Theorem sync_flush_makes_room (env : Shared -> Shared) fuel ev s ops :
  let evs := take (drain_size 0 (x_ring s)) (pending_events (x_ring s)) in
  let res := pg_redis_dirty_ring_publish_blocking cfg PG_REDIS_ASYNC_FULL_SYNC_FLUSH env now
    (S (S fuel)) 0 ev s in
  persistence_writes_enabled cfg = true -> ring_idle (x_ring s) ->
  mapM (decode_op (x_dsa s)) evs = Some ops ->
  if pg_redis_dirty_ring_full (x_ring s) then
    match drain_execute (foldl push_op no_rows ops) (x_db s) with
    | Ret d => exists s', res = Some (Ret tt, s') /\ x_db s' = d /\
        pending_events (x_ring s') = drop (length evs) (pending_events (x_ring s)) ++ [ev]
    | Raise e => exists s', res = Some (Raise e, s') /\ x_db s' = x_db s /\
        pending_events (x_ring s') = pending_events (x_ring s)
    end
  else exists s', res = Some (Ret tt, s') /\ x_db s' = x_db s /\
    pending_events (x_ring s') = pending_events (x_ring s) ++ [ev].
Proof.
  intros evs res Hw Hi Hd. unfold res. clear res. cbn [pg_redis_dirty_ring_publish_blocking].
  pose proof (ridle_quiet _ Hi) as Hq. pose proof Hq as [].
  destruct (pg_redis_dirty_ring_full (x_ring s)) eqn:Hf; cycle 1.
  { destruct (idle_publish_ok now ev _ Hi Hf) as (h' & -> & Hp & _). eexists. by split_and!. }
  rewrite idle_publish_full, set_ring_id by done. unfold pg_redis_persistence_sync_drain.
  pose proof (pending_length (x_ring s) ltac:(lia)) as Hlen.
  assert (He : (0 < length evs)%nat).
  { rewrite full_iff in Hf by lia. apply Z.leb_le in Hf. unfold evs.
    rewrite length_take. unfold drain_size. change (Z.to_nat (drain_batch_max 0)) with 1024%nat. lia. }
  destruct (drain_execute _ (x_db s)) as [d|e] eqn:Hx.
  - destruct (idle_drain s ops d Hw Hi He Hd Hx) as (s1 & -> & Hi1 & Hd1 & Hp1 & Hf1).
    cbn [pg_redis_dirty_ring_publish_blocking].
    destruct (idle_publish_ok now ev _ Hi1 Hf1) as (h' & -> & Hp & _).
    eexists. split; [done|]. cbn [set_ring x_db x_ring]. split; [done|]. rewrite Hp. unfold evs in Hp1. by rewrite Hp1.
  - unfold pg_redis_persistence_async_drain. rewrite Hw. cbn [negb]. rewrite (quiet_collect _ Hq). fold evs.
    assert (Hn : length evs = drain_size 0 (x_ring s))
      by (unfold evs; rewrite length_take; unfold drain_size; lia).
    rewrite <- Hn, (proj2 (Nat.eqb_neq _ _)), Hd, Hx by lia.
    destruct (quiet_abort _ Hq (length evs) He) as [_ Ha]; [rewrite Hn; unfold drain_size; lia|].
    eexists. by split_and!.
Qed.

End Full.

(** ** From an entry to its rows *)

(** The row change an event stands for. *)
Definition change_op (c : Change) : RowOp :=
  match c with
  | KeyUpsert k e tlv =>
      OpStore k {| sr_type := pg_redis_type_name (e_type e); sr_value := drained_value (e_type e) tlv;
                   sr_expire_at := if e_has_expire e then Some (e_expire_at e) else None;
                   sr_version := s64 (e_version e) |}
  | KeyDelete k => OpDelete k
  | HashFieldUpsert k f v => OpFieldUpsert k f (Some v)
  | HashFieldDelete k f => OpFieldDelete k f
  | ListItemInsert k o v => OpItemInsert k o (Some v)
  | ListItemDelete k o => OpItemDelete k o
  end.

(** The events of one [pg_redis_mark_dirty], in the order they go out. *)
Definition entry_deltas (key : bytes) (e : PgRedisEntry) : list Change :=
  match e_value e with
  | VHash (Some h) => ((fun q => HashFieldUpsert key q.1 q.2) <$> dirty_fields h) ++
                      (HashFieldDelete key <$> h_tombstones h)
  | VList (Some l) => ((fun q => ListItemInsert key q.1 q.2) <$> pending_inserts l) ++
                      (ListItemDelete key <$> l_pending_delete_ords l)
  | _ => []
  end.
Definition entry_changes (key : bytes) (e : PgRedisEntry) : list Change :=
  KeyUpsert key e (default [] (parent_value e)) :: entry_deltas key e.

(** Lengths that fit the [uint16] members. *)
Definition change_fits (c : Change) : Prop := ids_fit c /\ blen (change_value c) <= UINT16_MAX.

(** The entry with nothing left to publish. *)
Definition published_entry (e : PgRedisEntry) : PgRedisEntry :=
  match e_value e with
  | VHash (Some h) => set_value (VHash (Some
        {| h_fields := (fun fl => {| f_value := f_value fl; f_dirty := false |}) <$> h_fields h;
           h_field_count := h_field_count h; h_memory_usage := h_memory_usage h;
           h_tombstones := [] |})) e
  | VList (Some l) => set_value (VList (Some
        {| l_nodes := (fun n => {| n_value := n_value n; n_ord := n_ord n;
                                   n_pending_insert := false |}) <$> l_nodes l;
           l_length := l_length l; l_memory_usage := l_memory_usage l;
           l_min_ord := l_min_ord l; l_max_ord := l_max_ord l;
           l_ord_initialized := l_ord_initialized l; l_pending_delete_ords := [] |})) e
  | _ => e
  end.

Lemma parent_drained e : drained_value (e_type e) (default [] (parent_value e)) = parent_value e.
Proof.
  unfold parent_value, pg_redis_encode_value, e_type, drained_value.
  destruct (e_value e) as [s|i|h|l]; cbn; try done.
Qed.

Section Vectors.
Context (b : FlushBatch) (dels : list bytes) (key : bytes).

Lemma cons_field_upserts (l : list (bytes * bytes)) :
  foldr cons_op (b, dels) ((fun q => OpFieldUpsert key q.1 (Some q.2)) <$> l) =
  ({| store_rows := store_rows b; hf_up := ((fun q => ((key, q.1), Some q.2)) <$> l) ++ hf_up b;
      hf_del := hf_del b; li_ins := li_ins b; li_del := li_del b |}, dels).
Proof. induction l as [|q l IH]; [by destruct b|]. rewrite !fmap_cons. cbn [foldr]. by rewrite IH. Qed.

Lemma cons_field_deletes (l : list bytes) :
  foldr cons_op (b, dels) (OpFieldDelete key <$> l) =
  ({| store_rows := store_rows b; hf_up := hf_up b; hf_del := ((fun f => (key, f)) <$> l) ++ hf_del b;
      li_ins := li_ins b; li_del := li_del b |}, dels).
Proof. induction l as [|q l IH]; [by destruct b|]. rewrite !fmap_cons. cbn [foldr]. by rewrite IH. Qed.

Lemma cons_item_inserts (l : list (Z * bytes)) :
  foldr cons_op (b, dels) ((fun q => OpItemInsert key q.1 (Some q.2)) <$> l) =
  ({| store_rows := store_rows b; hf_up := hf_up b; hf_del := hf_del b;
      li_ins := ((fun q => ((key, q.1), Some q.2)) <$> l) ++ li_ins b; li_del := li_del b |}, dels).
Proof. induction l as [|q l IH]; [by destruct b|]. rewrite !fmap_cons. cbn [foldr]. by rewrite IH. Qed.

Lemma cons_item_deletes (l : list Z) :
  foldr cons_op (b, dels) (OpItemDelete key <$> l) =
  ({| store_rows := store_rows b; hf_up := hf_up b; hf_del := hf_del b; li_ins := li_ins b;
      li_del := ((fun o => (key, o)) <$> l) ++ li_del b |}, dels).
Proof. induction l as [|q l IH]; [by destruct b|]. rewrite !fmap_cons. cbn [foldr]. by rewrite IH. Qed.

End Vectors.

(** The drain collects from the events of an entry the vectors run_flush would
    collect from the entry itself. *)
Lemma entry_vectors key e :
  foldl push_op no_rows (change_op <$> entry_changes key e) = (flush_collect [(key, e)], []).
Proof.
  rewrite push_all. unfold entry_changes, entry_deltas, flush_collect.
  rewrite fmap_cons. cbn [foldr].
  assert (Hrow : (change_op (KeyUpsert key e (default [] (parent_value e)))) = OpStore key (parent_row e))
    by (unfold parent_row; cbn [change_op]; by rewrite parent_drained).
  rewrite Hrow. clear Hrow. unfold entry_hf_up, entry_hf_del, entry_li_ins, entry_li_del.
  cbn [flat_map fst snd]. destruct (e_value e) as [s|i|[h|]|[l|]] eqn:Hv; try reflexivity.
  - rewrite fmap_app, foldr_app, <- !list_fmap_compose.
    change (foldr cons_op no_rows (change_op ∘ HashFieldDelete key <$> h_tombstones h))
      with (foldr cons_op no_rows (OpFieldDelete key <$> h_tombstones h)).
    unfold no_rows. rewrite cons_field_deletes.
    change (change_op ∘ (fun q => HashFieldUpsert key q.1 q.2))
      with (fun q : bytes * bytes => OpFieldUpsert key q.1 (Some q.2)).
    rewrite cons_field_upserts. cbn. by rewrite !app_nil_r.
  - rewrite fmap_app, foldr_app, <- !list_fmap_compose.
    change (foldr cons_op no_rows (change_op ∘ ListItemDelete key <$> l_pending_delete_ords l))
      with (foldr cons_op no_rows (OpItemDelete key <$> l_pending_delete_ords l)).
    unfold no_rows. rewrite cons_item_deletes.
    change (change_op ∘ (fun q => ListItemInsert key q.1 q.2))
      with (fun q : Z * bytes => OpItemInsert key q.1 (Some q.2)).
    rewrite cons_item_inserts. cbn. by rewrite !app_nil_r.
Qed.

(** ** From publishing to the tables *)

Section EndToEnd.
Context `{DsaAllocator} `{!DsaLaws}.
Context (cfg : Config) (action : PgRedisAsyncFullAction) (env : Shared -> Shared) (now : Z).
Context (ev0 : PgRedisDirtyEvent) (fuel : nat).
Context (Hev0 : blen (ev_inline_bytes ev0) = PG_REDIS_DIRTY_EVENT_INLINE_BYTES).

Abbreviation publish := (publish_change cfg action env now ev0 fuel).

Lemma decode_encoded_op c area ev area' :
  change_fits c -> encode_change ev0 c area = (Ret ev, area') -> decode_op area' ev = Some (change_op c).
Proof.
  intros [Hi Hv] E. pose proof (blen_nonneg (change_value c)).
  destruct (decode_encoded_change ev0 c area ev area' area' Hev0 Hi E ltac:(by intros _))
    as (Hk & Hf & Hval & Hh).
  rewrite u16_fits, firstn_all2 in Hval by (unfold blen in *; lia).
  unfold decode_op. rewrite Hk. destruct c; cbn in Hh, Hf, Hval |- *.
  - destruct Hh as (-> & -> & -> & -> & ->). by rewrite Hval.
  - by rewrite Hh.
  - rewrite Hh, Hf. cbn. by rewrite Hval.
  - by rewrite Hh, Hf.
  - destruct Hh as [-> ->]. by rewrite Hval.
  - by destruct Hh as [-> ->].
Qed.

(** An event that decodes goes on decoding while its chunk is kept. *)
Lemma decode_op_kept area area' ev op :
  (forall q, is_Some (shared_bytes area q) ->
     shared_bytes area' q = shared_bytes area q) ->
  decode_op area ev = Some op -> decode_op area' ev = Some op.
Proof.
  intros Hkeep E.
  assert (Hb : event_payload_base area' ev = event_payload_base area ev).
  { unfold event_payload_base. destruct (ev_dsa_overflow ev) eqn:Ho; [|done]. apply Hkeep.
    unfold decode_op, pg_redis_event_decode_key, event_payload_base in E. rewrite Ho in E.
    by destruct (shared_bytes area (ev_dsa_payload ev)). }
  rewrite <- E. unfold decode_op, pg_redis_event_decode_key, pg_redis_event_decode_field,
    pg_redis_event_decode_value. by rewrite Hb.
Qed.

Definition decodes (s : Shared) (ops : list RowOp) : Prop :=
  mapM (decode_op (x_dsa s)) (pending_events (x_ring s)) = Some ops.

(** One publish into a ring with room. *)
Lemma publish_change_room c p p' ops :
  change_fits c -> ring_idle (x_ring (p_shared p)) ->
  pg_redis_dirty_ring_full (x_ring (p_shared p)) = false -> decodes (p_shared p) ops ->
  publish c p = Some (Ret tt, p') ->
  x_db (p_shared p') = x_db (p_shared p) /\ decodes (p_shared p') (ops ++ [change_op c]) /\
  ring_quiet (x_ring (p_shared p')) /\
  (forall pos, ring_write_head (x_ring (p_shared p')) <= pos <
     ring_read_head (x_ring (p_shared p')) + ring_capacity (x_ring (p_shared p')) ->
     sl_state (slot (x_ring (p_shared p')) pos) = SLOT_EMPTY) /\
  ring_capacity (x_ring (p_shared p')) = ring_capacity (x_ring (p_shared p)) /\
  ring_read_head (x_ring (p_shared p')) = ring_read_head (x_ring (p_shared p)) /\
  ring_write_head (x_ring (p_shared p')) = ring_write_head (x_ring (p_shared p)) + 1 /\
  async_published_in_xact p' = async_published_in_xact p + 1.
Proof.
  intros Hc Hi Hf Hd E. unfold publish_change in E.
  destruct (encode_change ev0 c (x_dsa (p_shared p))) as [[ev|e] area] eqn:He; [|done].
  destruct fuel as [|n]; [done|]. cbn [pg_redis_dirty_ring_publish_blocking] in E.
  destruct (idle_publish_ok now ev _ Hi Hf) as (h' & Ep & Hp & Ec & Er & Ew & Hq & Hfree).
  cbn [set_dsa x_ring] in E. rewrite Ep in E. injection E as <-.
  cbn [p_shared set_ring set_dsa x_ring x_db x_dsa async_published_in_xact]. split_and!; try done.
  unfold decodes. cbn [set_ring set_dsa x_ring x_dsa]. rewrite Hp.
  destruct (encode_change_spec ev0 c _ ev area Hev0 He) as (_ & _ & _ & _ & _ & Hkeep).
  apply mapM_Some. apply mapM_Some in Hd. apply Forall2_app.
  - eapply Forall2_impl; [exact Hd|]. intros ev' op. apply decode_op_kept. intros q Hq'. by apply Hkeep.
  - constructor; [|done]. by eapply decode_encoded_op.
Qed.

(** A sequence of publishes into a ring with room for all of them. *)
Lemma publish_changes cs p p' ops :
  Forall change_fits cs -> ring_idle (x_ring (p_shared p)) -> decodes (p_shared p) ops ->
  ring_write_head (x_ring (p_shared p)) + Z.of_nat (length cs) <=
    ring_read_head (x_ring (p_shared p)) + ring_capacity (x_ring (p_shared p)) ->
  ring_write_head (x_ring (p_shared p)) + Z.of_nat (length cs) + 1 < 2 ^ 64 ->
  pfor_each cs publish p = Some (Ret tt, p') ->
  x_db (p_shared p') = x_db (p_shared p) /\ decodes (p_shared p') (ops ++ (change_op <$> cs)) /\
  ring_idle (x_ring (p_shared p')) /\
  async_published_in_xact p' = async_published_in_xact p + Z.of_nat (length cs).
Proof.
  intros Hc. revert p ops. induction Hc as [|c cs Hc Hcs IH]; intros p ops Hi Hd Hroom Hb E.
  { injection E as <-. rewrite app_nil_r. cbn. split_and!; try done. lia. }
  cbn [pfor_each length] in *. unfold pbind in E.
  destruct (publish c p) as [[[[]|e] p1]|] eqn:E1; try done. pose proof (ridle_quiet _ Hi) as [].
  assert (Hf : pg_redis_dirty_ring_full (x_ring (p_shared p)) = false)
    by (rewrite full_iff by lia; apply Z.leb_gt; lia).
  destruct (publish_change_room c p p1 ops Hc Hi Hf Hd E1) as (Edb & Hd1 & Hq1 & Hf1 & Ec & Er & Ew & En).
  destruct (IH p1 (ops ++ [change_op c])) as (Edb' & Hd' & Hi' & En'); try done.
  { split; [done..|]. lia. }
  { lia. }
  { lia. }
  rewrite <- app_assoc in Hd'. split_and!; [congruence|done|done|lia].
Qed.

Lemma pfor_each_app {A} (l1 l2 : list A) (f : A -> P unit) p :
  pfor_each (l1 ++ l2) f p = pbind (pfor_each l1 f) (fun _ => pfor_each l2 f) p.
Proof.
  revert p. induction l1 as [|x l1 IH]; intros p; [done|]. cbn [app pfor_each].
  unfold pbind in *. destruct (f x p) as [[[u|e] p1]|]; done.
Qed.

Lemma pfor_each_fmap {A B} (g : A -> B) (l : list A) (f : B -> P unit) p :
  pfor_each (g <$> l) f p = pfor_each l (fun x => f (g x)) p.
Proof.
  revert p. induction l as [|x l IH]; intros p; [done|]. cbn [fmap list_fmap pfor_each]. unfold pbind.
  destruct (f (g x) p) as [[[u|e] p1]|]; done.
Qed.

(** [pg_redis_mark_dirty] publishes exactly [entry_changes]. *)
Lemma mark_dirty_changes key e p e' p' :
  mark_dirty_publish cfg action env now ev0 fuel key e p = Some (Ret e', p') ->
  pfor_each (entry_changes key e) publish p = Some (Ret tt, p') /\ e' = published_entry e.
Proof.
  unfold mark_dirty_publish, entry_changes, entry_deltas, publish_async_key_upsert, parent_value,
    publish_async_hash_deltas, publish_async_list_deltas, published_entry, pg_redis_encode_value, e_type.
  destruct (e_value e) as [s|i|[h|]|[l|]] eqn:Hv; cbn [pfor_each default from_option id]; unfold pbind at 1;
    intros E; unfold pbind at 1;
    (destruct (publish _ p) as [[[[]|er] p1]|] eqn:E1; try done); try (injection E as <- <-; done).
  - rewrite pfor_each_app. unfold pbind in *. rewrite pfor_each_fmap.
    destruct (pfor_each (dirty_fields h) _ p1) as [[[[]|er] p2]|] eqn:E2; try done.
    rewrite pfor_each_fmap. destruct (pfor_each (h_tombstones h) _ p2) as [[[[]|er] p3]|] eqn:E3; try done.
    by injection E as <- <-.
  - rewrite pfor_each_app. unfold pbind in *. rewrite pfor_each_fmap.
    destruct (pfor_each (pending_inserts l) _ p1) as [[[[]|er] p2]|] eqn:E2; try done.
    rewrite pfor_each_fmap. destruct (pfor_each (l_pending_delete_ords l) _ p2) as [[[[]|er] p3]|] eqn:E3; try done.
    by injection E as <- <-.
Qed.

(** The six guarded statements of run_flush are those of the drain. *)
Lemma exec_guarded ne stmt (s s' : Backend) :
  exec ne stmt s = (Ret tt, s') -> guarded ne stmt (db s) = Ret (db s') /\ s' = set_db (db s') s.
Proof.
  unfold exec, guarded. destruct ne; [|intros [= <-]; split; [done|by destruct s]].
  destruct (stmt (db s)); [|done]. by intros [= <-].
Qed.

Lemma exec_then ne stmt (k : M Backend unit) (s s' : Backend) :
  (exec ne stmt ;; k) s = (Ret tt, s') ->
  exists s1, guarded ne stmt (db s) = Ret (db s1) /\ k s1 = (Ret tt, s').
Proof.
  rewrite bind_unfold. destruct (exec ne stmt s) as [[[]|e] s1] eqn:E; [|done]. intros Hk.
  apply exec_guarded in E as [E _]. by exists s1.
Qed.

Lemma flush_execute_drain b dels (s s' : Backend) :
  flush_execute b dels s = (Ret tt, s') -> drain_execute (b, dels) (db s) = Ret (db s').
Proof.
  unfold flush_execute, drain_execute. intros E.
  apply exec_then in E as (s1 & E1 & E). rewrite E1. cbn [obind].
  apply exec_then in E as (s2 & E2 & E). rewrite E2. cbn [obind].
  apply exec_then in E as (s3 & E3 & E). rewrite E3. cbn [obind].
  apply exec_then in E as (s4 & E4 & E). rewrite E4. cbn [obind].
  apply exec_then in E as (s5 & E5 & E). rewrite E5. cbn [obind].
  by apply exec_guarded in E as [E _].
Qed.


End EndToEnd.

(** ** A drain inside a transaction that rolls back *)

(** The tables return to where the transaction found them; the ring is shared
    memory and does not. *)
Definition user_rollback (before after : Shared) : Shared :=
  {| x_ring := x_ring after; x_dsa := x_dsa after; x_db := x_db before |}.

(** A ring of one slot that holds another session's event, a field write. *)
Definition full_shared : Shared :=
  {| x_ring := match pg_redis_dirty_ring_publish 0 demo_event (pg_redis_dirty_ring_shmem_init 1) with
               | Some (_, h) => h
               | None => pg_redis_dirty_ring_shmem_init 1
               end;
     x_dsa := Some ∅; x_db := demo_tables |}.

(** The drain releases its batch before the transaction it runs in commits.
    A producer that finds the ring full under 'sync_flush' drains another
    session's acknowledged event inside its own transaction; when that
    transaction rolls back, the event is neither in the ring nor in the
    tables. *)
Example rollback_after_sync_flush_loses_event :
  match pg_redis_dirty_ring_publish_blocking async_config PG_REDIS_ASYNC_FULL_SYNC_FLUSH id 0 2 0
          (event_no 1) full_shared with
  | Some (Ret tt, s) =>
      pending_events (x_ring full_shared) = [demo_event] /\
      pending_events (x_ring (user_rollback full_shared s)) = [event_no 1] /\
      hash_fields (x_db s) !! (bs "h", bs "f") = Some (Some (bs "2")) /\
      hash_fields (x_db (user_rollback full_shared s)) !! (bs "h", bs "f") = Some (Some (bs "1"))
  | _ => False
  end.
Proof. vm_compute. repeat split. Qed.

(** ** Witnesses *)

Lemma full_shared_idle : ring_idle (x_ring full_shared).
Proof.
  split; [split|..]; try (by vm_compute).
  - intros pos Hp. change (0 <= pos < 1) in Hp. assert (pos = 0) as -> by lia. by vm_compute.
  - intros pos Hp. change (1 <= pos < 1) in Hp. lia.
Qed.

Lemma block_waits_bounded_witness :
  exists s', pg_redis_dirty_ring_publish_blocking async_config PG_REDIS_ASYNC_FULL_BLOCK id 0 100 0
      (event_no 1) full_shared = Some (Raise ERRCODE_INSUFFICIENT_RESOURCES, s').
Proof.
  destruct (block_waits_bounded async_config 0 id (event_no 1) full_shared)
    as [(i & s' & _ & _ & Hf & _)|(_ & s' & E & _)]; [done|apply full_shared_idle| |by exists s'].
  assert (forall j, Nat.iter j id full_shared = full_shared) as Hi by (induction j as [|j IH]; [done|exact IH]).
  by rewrite Hi in Hf.
Defined.

(** Whether a statement returned tables with a given field row. *)
Definition shows_field (d : outcome Db) (key field v : bytes) : bool :=
  match d with
  | Ret d => bool_decide (hash_fields d !! (key, field) = Some (Some v))
  | Raise _ => false
  end.

Lemma sync_flush_makes_room_witness :
  exists s', pg_redis_dirty_ring_publish_blocking async_config PG_REDIS_ASYNC_FULL_SYNC_FLUSH id 0 2 0
      (event_no 1) full_shared = Some (Ret tt, s') /\
    shows_field (Ret (x_db s')) (bs "h") (bs "f") (bs "2") = true.
Proof.
  set (ops := [OpFieldUpsert (bs "h") (bs "f") (Some (bs "2"))]).
  assert (Hb : shows_field (drain_execute (foldl push_op no_rows ops) (x_db full_shared))
    (bs "h") (bs "f") (bs "2") = true) by (vm_compute; reflexivity).
  pose proof (sync_flush_makes_room async_config 0 id 0 (event_no 1) full_shared ops eq_refl full_shared_idle
    ltac:(vm_compute; reflexivity)) as Hr.
  change (pg_redis_dirty_ring_full (x_ring full_shared)) with true in Hr. cbn iota in Hr.
  destruct (drain_execute (foldl push_op no_rows ops) (x_db full_shared)) as [d|er]; [|discriminate Hb].
  destruct Hr as (s' & E & Hd & _). exists s'. split; [exact E|]. rewrite Hd. exact Hb.
Defined.

(** HSET on a new key. *)
Definition demo_hash_entry : PgRedisEntry :=
  {| e_value := VHash (Some {| h_fields := {[ bs "f" := {| f_value := bs "v"; f_dirty := true |} ]};
                               h_field_count := 1; h_memory_usage := 0; h_tombstones := [] |});
     e_expire_at := 0; e_has_expire := false; e_dirty := false; e_deleted := false;
     e_in_dirty_set := false; e_version := 1 |}.
Definition empty_producer : Producer :=
  {| p_shared := {| x_ring := pg_redis_dirty_ring_shmem_init 4; x_dsa := Some ∅; x_db := db_empty |};
     async_published_in_xact := 0 |}.
Definition empty_backend : Backend :=
  {| kv := kv_empty; persistence_loaded := true; db := db_empty; db_committed := db_empty;
     xact_now := 0; readings := 0 |}.
Definition demo_publish : option (outcome PgRedisEntry * Producer) :=
  @mark_dirty_publish (bump_allocator 100000) async_config PG_REDIS_ASYNC_FULL_BLOCK id 0 blank_event 100
    (bs "h") demo_hash_entry empty_producer.

Lemma empty_producer_idle : ring_idle (x_ring (p_shared empty_producer)).
Proof.
  split; [split|..]; try (by vm_compute).
  - intros pos Hp. change (0 <= pos < 0) in Hp. lia.
  - intros pos Hp. apply slot_init.
Qed.

Definition published_ok (r : option (outcome PgRedisEntry * Producer)) : bool :=
  match r with Some (Ret _, _) => true | _ => false end.

