(* ===== verification/SharedAtomic.v ===== *)
(** * HSET and HDEL on the shared keyspace (src/shared_store.c)

    [pg_redis_shared_hash_set_atomic] and [pg_redis_shared_hash_del_atomic]
    change the stored table and publish the change under one acquisition of the
    partition lock.  On a full ring they release the lock, wait or drain, and
    try again; what other processes do meanwhile, to the keyspace and to the
    ring, is a parameter [env].  [clock i] is [GetCurrentTimestamp()] in attempt
    [i]; [now] is the reading that stamps a ring slot.  A call that never
    finishes has no result ([None]). *)
From S2P Require Import Prelude Types Utils HashValue StoreInterface SharedMem SharedHash SharedStore.
From S2P Require Import DirtyEvent DirtyRing AsyncDrain AsyncPublish.

(** The shared keyspace and a producer of the ring: the heap is one. *)
Record Node := { n_keyspace : option Keyspace; n_producer : Producer }.

Definition n_shared (w : Node) : Shared := p_shared (n_producer w).
Definition n_store (w : Node) : SharedStore := {| ss_keyspace := n_keyspace w; ss_dsa := x_dsa (n_shared w) |}.
Definition put_shared (x : Shared) (w : Node) : Node :=
  {| n_keyspace := n_keyspace w;
     n_producer := {| p_shared := x; async_published_in_xact := async_published_in_xact (n_producer w) |} |}.
Definition put_store (s : SharedStore) (w : Node) : Node :=
  {| n_keyspace := ss_keyspace s; n_producer := n_producer (put_shared (set_dsa (ss_dsa s) (n_shared w)) w) |}.
Definition note_async_publish (n : Z) (w : Node) : Node :=
  {| n_keyspace := n_keyspace w;
     n_producer := {| p_shared := n_shared w;
                      async_published_in_xact := async_published_in_xact (n_producer w) + n |} |}.

Definition on_store {A} (m : M SharedStore A) : M Node A := fun w =>
  let '(r, s) := m (n_store w) in (r, put_store s w).

Definition fresh_hash_entry : PgRedisSharedEntry :=
  {| se_value := SHash InvalidDsaPointer 0; se_expire_at := 0; se_has_expire := false; se_version := 0 |}.

(** The entry with a new table and count, one version on. *)
Definition hash_entry_with (table : dsa_pointer) (count version : Z) (se : PgRedisSharedEntry) : PgRedisSharedEntry :=
  {| se_value := SHash table count; se_expire_at := se_expire_at se; se_has_expire := se_has_expire se;
     se_version := version |}.

Definition fill_event_entry (se : PgRedisSharedEntry) : PgRedisEntry :=
  {| e_value := match se_type se with
                | PG_REDIS_TYPE_STRING => VString None
                | PG_REDIS_TYPE_INT => VInt 0
                | PG_REDIS_TYPE_HASH => VHash None
                | PG_REDIS_TYPE_LIST => VList None
                end;
     e_expire_at := se_expire_at se; e_has_expire := se_has_expire se; e_dirty := false;
     e_deleted := false; e_in_dirty_set := false; e_version := se_version se |}.

Section Atomic.
Context `{DsaAllocator} `{HashBytes} `{KeyspaceLimit}.

(** ** The mutations under the lock *)

(** [pg_redis_shared_hash_set] through [&se->value.hash.table]: the entry
    follows the table also when the call raises. *)
Definition hset_entry (key : bytes) (ks : Keyspace) (se : PgRedisSharedEntry) (table : dsa_pointer) (count : Z)
    (field value : bytes) : M SharedStore (PgRedisValueType + bool * PgRedisSharedEntry) := fun s =>
  match pg_redis_shared_hash_set field value (ss_dsa s, table) with
  | (Ret was_new, (area, table')) =>
      let se' := hash_entry_with table' (if was_new : bool then count + 1 else count) (u64 (se_version se + 1)) se in
      (Ret (inr (was_new, se')), {| ss_keyspace := Some (<[key := se']> ks); ss_dsa := area |})
  | (Raise e, (area, table')) =>
      (Raise e, {| ss_keyspace := Some (<[key := hash_entry_with table' count (se_version se) se]> ks);
                   ss_dsa := area |})
  end.

(** The type found when it is not a hash; else whether the field is new, and
    the entry. *)
Definition apply_hset (now : Z) (key field value : bytes)
    : M SharedStore (PgRedisValueType + bool * PgRedisSharedEntry) :=
  oks ← gets ss_keyspace;
  match oks with
  | None => ereport ERRCODE_INTERNAL_ERROR
  | Some ks =>
      match ks !! key with
      | None =>
          if negb (can_enter ks) then ereport ERRCODE_OUT_OF_MEMORY
          else hset_entry key ks fresh_hash_entry InvalidDsaPointer 0 field value
      | Some se =>
          if se_expired now se then
            _ ← release_in_store se;
            hset_entry key ks fresh_hash_entry InvalidDsaPointer 0 field value
          else match se_value se with
               | SHash table count => hset_entry key ks se table count field value
               | _ => mret (inl (se_type se))
               end
      end
  end.

Definition apply_hdel (now : Z) (key field : bytes) : M SharedStore PgRedisFastHashMutateOutcome :=
  oks ← gets ss_keyspace;
  match oks with
  | None => mret PG_REDIS_FAST_HASH_MUTATE_NOOP
  | Some ks =>
      match ks !! key with
      | None => mret PG_REDIS_FAST_HASH_MUTATE_NOOP
      | Some se =>
          if se_expired now se then
            _ ← release_in_store se;
            set_keyspace (delete key ks) ;; mret PG_REDIS_FAST_HASH_MUTATE_NOOP
          else match se_value se with
               | SHash table count => fun s =>
                   match pg_redis_shared_hash_del field (ss_dsa s, table) with
                   | (Ret true, (area, table')) =>
                       (Ret PG_REDIS_FAST_HASH_MUTATE_OK_DELETED,
                        {| ss_keyspace := Some (<[key := hash_entry_with table' (count - 1) (u64 (se_version se + 1)) se]> ks);
                           ss_dsa := area |})
                   | (Ret false, (area, table')) =>
                       (Ret PG_REDIS_FAST_HASH_MUTATE_NOOP,
                        {| ss_keyspace := Some (<[key := hash_entry_with table' count (se_version se) se]> ks);
                           ss_dsa := area |})
                   | (Raise e, (area, table')) =>
                       (Raise e, {| ss_keyspace := Some (<[key := hash_entry_with table' count (se_version se) se]> ks);
                                    ss_dsa := area |})
                   end
               | _ => mret (PG_REDIS_FAST_HASH_MUTATE_WRONGTYPE (se_type se))
               end
      end
  end.

(** ** Publishing under the lock *)

Context (cfg : Config) (action : PgRedisAsyncFullAction) (env : Node -> Node) (clock : nat -> Z) (now : Z).

Definition async_mode : bool :=
  bool_decide (pg_redis_effective_persistence_mode cfg = PG_REDIS_PERSIST_ASYNC_TABLE).

(** After the lock is released: the new value of [spin]. *)
Definition handle_ring_full_after_unlock (spin : nat) : M Node nat := fun w0 =>
  let w := env w0 in
  match action with
  | PG_REDIS_ASYNC_FULL_SYNC_FLUSH =>
      match pg_redis_persistence_sync_drain cfg (n_shared w) with
      | (Ret _, x) => (Ret 0%nat, put_shared x w)
      | (Raise e, x) => (Raise e, put_shared x w)
      end
  | PG_REDIS_ASYNC_FULL_BLOCK =>
      if (100 <=? S spin)%nat then (Raise ERRCODE_INSUFFICIENT_RESOURCES, w) else (Ret (S spin), w)
  end.

(** One try: encode into the event [ev] of the caller's frame and publish; the
    spill of an event that finds the ring full is freed.  The event is returned,
    since the next encoder writes over it. *)
Definition publish_once (ev : PgRedisDirtyEvent) (c : Change) (w : Node)
    : option (outcome (PgRedisRingPublishResult * PgRedisDirtyEvent) * Node) :=
  match encode_change ev c (x_dsa (n_shared w)) with
  | (Raise e, area) => Some (Raise e, put_shared (set_dsa area (n_shared w)) w)
  | (Ret ev', area) =>
      let x := set_dsa area (n_shared w) in
      match pg_redis_dirty_ring_publish now ev' (x_ring x) with
      | None => None
      | Some (PG_REDIS_RING_OK, h) => Some (Ret (PG_REDIS_RING_OK, ev'), put_shared (set_ring h x) w)
      | Some (PG_REDIS_RING_FULL, h) =>
          Some (Ret (PG_REDIS_RING_FULL, ev'),
                put_shared (set_dsa (free_event_spill ev' area) (set_ring h x)) w)
      end
  end.

(** The events of one HSET in order; true when all went out. *)
Fixpoint publish_all (ev : PgRedisDirtyEvent) (cs : list Change) (w : Node) : option (outcome bool * Node) :=
  match cs with
  | [] => Some (Ret true, w)
  | c :: cs' =>
      match publish_once ev c w with
      | None => None
      | Some (Raise e, w') => Some (Raise e, w')
      | Some (Ret (PG_REDIS_RING_FULL, _), w') => Some (Ret false, w')
      | Some (Ret (PG_REDIS_RING_OK, ev'), w') => publish_all ev' cs' w'
      end
  end.

Definition hset_changes (key field value : bytes) (se : PgRedisSharedEntry) : list Change :=
  [KeyUpsert (take (Z.to_nat PG_REDIS_MAX_KEY_SIZE) key) (fill_event_entry se) [];
   HashFieldUpsert key field value].

Context (ev0 : PgRedisDirtyEvent).

Definition hset_reply (was_new : bool) : PgRedisFastHashMutateOutcome :=
  if was_new then PG_REDIS_FAST_HASH_MUTATE_OK_NEW else PG_REDIS_FAST_HASH_MUTATE_OK_OVERWRITE.

(** Attempt [i] of the retry loop. *)
Fixpoint pg_redis_shared_hash_set_atomic (fuel i spin : nat) (key field value : bytes) (w : Node)
    : option (outcome PgRedisFastHashMutateOutcome * Node) :=
  match fuel with
  | O => None
  | S fuel' =>
      match on_store (apply_hset (clock i) key field value) w with
      | (Raise e, w1) => Some (Raise e, w1)
      | (Ret (inl ty), w1) => Some (Ret (PG_REDIS_FAST_HASH_MUTATE_WRONGTYPE ty), w1)
      | (Ret (inr (was_new, se)), w1) =>
          if async_mode then
            match publish_all ev0 (hset_changes key field value se) w1 with
            | None => None
            | Some (Raise e, w2) => Some (Raise e, w2)
            | Some (Ret true, w2) => Some (Ret (hset_reply was_new), note_async_publish 2 w2)
            | Some (Ret false, w2) =>
                match handle_ring_full_after_unlock spin w2 with
                | (Raise e, w3) => Some (Raise e, w3)
                | (Ret spin', w3) => pg_redis_shared_hash_set_atomic fuel' (S i) spin' key field value w3
                end
            end
          else Some (Ret (hset_reply was_new), w1)
      end
  end.

(** The same event is offered until the ring takes it. *)
Fixpoint publish_event_under_lock (fuel spin : nat) (ev : PgRedisDirtyEvent) (w : Node)
    : option (outcome unit * Node) :=
  match fuel with
  | O => None
  | S fuel' =>
      match pg_redis_dirty_ring_publish now ev (x_ring (n_shared w)) with
      | None => None
      | Some (PG_REDIS_RING_OK, h) => Some (Ret tt, put_shared (set_ring h (n_shared w)) w)
      | Some (PG_REDIS_RING_FULL, h) =>
          match handle_ring_full_after_unlock spin (put_shared (set_ring h (n_shared w)) w) with
          | (Raise e, w') => Some (Raise e, w')
          | (Ret spin', w') => publish_event_under_lock fuel' spin' ev w'
          end
      end
  end.

Definition pg_redis_shared_hash_del_atomic (fuel : nat) (key field : bytes) (w : Node)
    : option (outcome PgRedisFastHashMutateOutcome * Node) :=
  match on_store (apply_hdel (clock 0%nat) key field) w with
  | (Ret PG_REDIS_FAST_HASH_MUTATE_OK_DELETED, w1) =>
      if async_mode then
        match encode_change ev0 (HashFieldDelete key field) (x_dsa (n_shared w1)) with
        | (Raise e, area) => Some (Raise e, put_shared (set_dsa area (n_shared w1)) w1)
        | (Ret ev, area) =>
            match publish_event_under_lock fuel 0 ev (put_shared (set_dsa area (n_shared w1)) w1) with
            | None => None
            | Some (Raise e, w2) => Some (Raise e, w2)
            | Some (Ret _, w2) => Some (Ret PG_REDIS_FAST_HASH_MUTATE_OK_DELETED, note_async_publish 1 w2)
            end
        end
      else Some (Ret PG_REDIS_FAST_HASH_MUTATE_OK_DELETED, w1)
  | (Ret o, w1) => Some (Ret o, w1)
  | (Raise e, w1) => Some (Raise e, w1)
  end.
End Atomic.
