(* ===== verification/SharedAtomicSpec.v ===== *)
(** * HSET and HDEL on the shared keyspace: what they do to the store *)
From S2P Require Import Prelude Types HashValue StoreInterface SharedMem SharedHash SharedHashSpec SharedHashOps.
From S2P Require Import SharedHashRefine SharedStore SharedStoreSpec SharedStoreOps SharedAtomic.

(** The hash a command finds under a key, or the type in its way: an absent or
    expired key is an empty hash without expiry. *)
Definition hash_at (now : Z) (V : gmap bytes AEntry) (k : bytes) : PgRedisValueType + gmap bytes bytes * option Z :=
  match V !! k with
  | None => inr (∅, None)
  | Some a =>
      if a_expired now a then inr (∅, None)
      else match a_val a with
           | AHash m => inr (m, a_expire a)
           | _ => inl (a_type a)
           end
  end.

Definition hash_entry (m : gmap bytes bytes) (ex : option Z) : AEntry := {| a_val := AHash m; a_expire := ex |}.

Definition se_expire (se : PgRedisSharedEntry) : option Z :=
  if se_has_expire se then Some (se_expire_at se) else None.

Section Atomic.
Context `{DsaAllocator} `{HashBytes} `{KeyspaceLimit} `{!DsaLaws}.

Lemma hset_entry_spec (ks : Keyspace) (h : Heap) (f : bytes -> gset dsa_pointer) (V : gmap bytes AEntry)
    (k : bytes) (ks0 : option Keyspace) (h1 : Heap) (F : gset dsa_pointer) (se : PgRedisSharedEntry)
    (t : dsa_pointer) (m : gmap bytes bytes) (field value : bytes) :
  store_at ks h f V -> rest F h1 = rest (key_foot ks f k) h -> hash_repr h1 t m F ->
  blen field <= PG_REDIS_MAX_FIELD_SIZE ->
  match hset_entry k ks se t (Z.of_nat (size m)) field value {| ss_keyspace := ks0; ss_dsa := Some h1 |} with
  | (Ret (inr (was_new, se')), s') =>
      was_new = bool_decide (m !! field = None) /\
      se_type se' = PG_REDIS_TYPE_HASH /\ se_expire se' = se_expire se /\
      se_version se' = u64 (se_version se + 1) /\
      store_repr s' (<[k := hash_entry (<[field := value]> m) (se_expire se)]> V) (rest (all_foot ks f) h)
  | (Ret (inl _), _) => False
  | (Raise e, s') => mem_error e /\
      store_repr s' (<[k := hash_entry m (se_expire se)]> V) (rest (all_foot ks f) h)
  end.
Proof.
  intros Hs HR Hr Hf. unfold hset_entry. cbn [ss_dsa].
  destruct (shared_set_spec h1 t m F field value Hr Hf) as (h' & t' & F' & E' & R' & Hx).
  unfold Dsa in *. destruct (pg_redis_shared_hash_set field value (Some h1, t)) as [[was_new|e] x]; cbn [fst snd] in *; subst x.
  - destruct Hx as [-> Hr']. split_and!; [done..|].
    apply (store_put ks h f V k h' F'); [done|congruence|]. split; [|done]. cbn. split; [done|].
    case_bool_decide as Hm.
    + rewrite map_size_insert_None by done. lia.
    + rewrite map_size_insert_Some; [done|]. by apply not_eq_None_Some.
  - destruct Hx as [He Hr']. split; [destruct (_ <? _); subst; [by right|by left]|].
    apply (store_put ks h f V k h' F'); [done|congruence|]. by split.
Qed.

Lemma apply_hset_spec now s V R k field value :
  store_repr s V R -> blen field <= PG_REDIS_MAX_FIELD_SIZE ->
  match hash_at now V k with
  | inl ty => apply_hset now k field value s = (Ret (inl ty), s)
  | inr (m, ex) =>
      match apply_hset now k field value s with
      | (Ret (inr (was_new, se)), s') => was_new = bool_decide (m !! field = None) /\
          se_type se = PG_REDIS_TYPE_HASH /\ se_expire se = ex /\
          store_repr s' (<[k := hash_entry (<[field := value]> m) ex]> V) R
      | (Ret (inl _), _) => False
      | (Raise e, s') => mem_error e /\ ((s' = s /\ V !! k = None) \/ store_repr s' (<[k := hash_entry m ex]> V) R)
      end
  end.
Proof.
  intros Hrepr Hf. pose proof Hrepr as (ks & h & f & -> & Hs & ->).
  unfold apply_hset. rewrite bind_unfold. cbn [gets ss_keyspace].
  assert (Hgo : forall m ex h1 F se t, se_expire se = ex -> rest F h1 = rest (key_foot ks f k) h -> hash_repr h1 t m F ->
    match hset_entry k ks se t (Z.of_nat (size m)) field value {| ss_keyspace := Some ks; ss_dsa := Some h1 |} with
    | (Ret (inr (was_new, se)), s') => was_new = bool_decide (m !! field = None) /\
        se_type se = PG_REDIS_TYPE_HASH /\ se_expire se = ex /\
        store_repr s' (<[k := hash_entry (<[field := value]> m) ex]> V) (rest (all_foot ks f) h)
    | (Ret (inl _), _) => False
    | (Raise e, s') => mem_error e /\
        ((s' = {| ss_keyspace := Some ks; ss_dsa := Some h |} /\ V !! k = None) \/
         store_repr s' (<[k := hash_entry m ex]> V) (rest (all_foot ks f) h))
    end).
  { intros m ex h1 F se t <- HR Hr. pose proof (hset_entry_spec ks h f V k (Some ks) h1 F se t m field value Hs HR Hr Hf) as Hx.
    destruct (hset_entry _ _ _ _ _ _ _ _) as [[[?|[was_new se']]|e] s']; [done|naive_solver|naive_solver]. }
  unfold hash_at. destruct (ks !! k) as [se|] eqn:Hk.
  - destruct (sa_entry _ _ _ _ Hs k se Hk) as (a & Ha & Hr). rewrite Ha in Hgo |- *.
    rewrite (se_expired_spec now h se a _ Hr). pose proof Hr as [Hv He]. destruct (a_expired now a).
    + rewrite (bind_Ret _ _ _ _ _ (release_in_store_spec ks h se _ _ Hv)).
      pose proof (Hgo ∅ None (rest (f k) h) ∅ fresh_hash_entry InvalidDsaPointer eq_refl) as Hx.
      rewrite map_size_empty in Hx. apply Hx; [|by left]. unfold key_foot. by rewrite Hk, rest_empty.
    + unfold a_type, se_type. destruct (se_value se) as [p n|i|t c|meta] eqn:Ev, a as [[[b|]|j|m|q] ex]; cbn [value_repr a_val] in Hv; try done.
      destruct Hv as [Hh ->]. cbn in He. subst ex. apply (Hgo m _ h (f k) se); [done|unfold key_foot; by rewrite Hk|done].
  - rewrite (sa_dom _ _ _ _ Hs k Hk) in Hgo |- *. destruct (can_enter ks); cbn [negb].
    + pose proof (Hgo ∅ None h ∅ fresh_hash_entry InvalidDsaPointer eq_refl) as Hx.
      rewrite map_size_empty in Hx. apply Hx; [|by left]. unfold key_foot. by rewrite Hk.
    + split; [by left|]. by left.
Qed.

Lemma apply_hdel_spec now s V R k field :
  store_repr s V R ->
  exists s', apply_hdel now k field s =
    (Ret (match hash_at now V k with
          | inl ty => PG_REDIS_FAST_HASH_MUTATE_WRONGTYPE ty
          | inr (m, _) => if bool_decide (is_Some (m !! field)) then PG_REDIS_FAST_HASH_MUTATE_OK_DELETED
                          else PG_REDIS_FAST_HASH_MUTATE_NOOP
          end), s') /\
    store_repr s' (if shared_expired now V k then delete k V
                   else match hash_at now V k with
                        | inr (m, ex) => if bool_decide (is_Some (m !! field))
                                         then <[k := hash_entry (delete field m) ex]> V else V
                        | inl _ => V
                        end) R.
Proof.
  intros Hrepr. pose proof Hrepr as (ks & h & f & -> & Hs & ->).
  unfold apply_hdel, hash_at, shared_expired. rewrite bind_unfold. cbn [gets ss_keyspace].
  destruct (ks !! k) as [se|] eqn:Hk.
  2:{ rewrite (sa_dom _ _ _ _ Hs k Hk), lookup_empty. eexists. split; [done|]. done. }
  destruct (sa_entry _ _ _ _ Hs k se Hk) as (a & Ha & Hr). rewrite Ha, (se_expired_spec now h se a _ Hr).
  pose proof Hr as [Hv He]. destruct (a_expired now a).
  - destruct (shared_remove_spec _ V _ k Hrepr) as (s' & E & Hs'). exists s'. rewrite lookup_empty. split; [|done].
    unfold pg_redis_shared_store_remove in E. rewrite bind_unfold in E. cbn [gets ss_keyspace] in E. rewrite Hk in E.
    rewrite (bind_Ret _ _ _ _ _ (release_in_store_spec ks h se _ _ Hv)) in E.
    rewrite (bind_Ret _ _ _ _ _ (release_in_store_spec ks h se _ _ Hv)). by injection E as _ <-.
  - unfold a_type, se_type. destruct (se_value se) as [p n|i|t c|meta] eqn:Ev, a as [[[b|]|j|m|q] ex]; cbn [value_repr a_val] in Hv; try done;
      try (eexists; split; [reflexivity|done]).
    destruct Hv as [Hh ->]. cbn in He. cbn [a_val a_expire].
    destruct (shared_del_spec h t m (f k) field Hh) as (h' & t' & F' & E' & R' & Hx). cbn [ss_dsa].
    unfold Dsa in *. destruct (pg_redis_shared_hash_del field (Some h, t)) as [[r|e] x]; cbn [fst snd] in *; subst x; [|by destruct Hx].
    destruct Hx as [-> Hr'].
    assert (Hput : forall se' a', entry_repr h' se' a' F' ->
      store_repr {| ss_keyspace := Some (<[k := se']> ks); ss_dsa := Some h' |} (<[k := a']> V) (rest (all_foot ks f) h)).
    { intros se' a' Hr2. apply (store_put ks h f V k h' F'); [done| |done]. unfold key_foot. by rewrite Hk. }
    case_bool_decide as Hm; (eexists; split; [reflexivity|]).
    + apply Hput. split; [|done]. cbn. split; [done|]. destruct Hm as [v Hm]. rewrite map_size_delete_Some by eauto.
      assert (size m <> 0%nat); [|lia]. intros Hz. apply map_size_empty_iff in Hz as ->. by rewrite lookup_empty in Hm.
    + rewrite <- (insert_id V k {| a_val := AHash m; a_expire := ex |}) by done. apply Hput. split; [|done]. cbn.
      split; [|done]. rewrite <- (delete_id m field); [done|]. by apply eq_None_not_Some.
Qed.
End Atomic.
