(* ===== verification/SharedStoreRefine.v ===== *)
(** * The shared keyspace is a map of values

    Sequences of the operations the commands run on the shared keyspace
    (src/shared_store.c), when nothing is published to the ring, against a
    finite map from keys to values. *)
From S2P Require Import Prelude Types Utils ListValue HashValue StoreInterface SharedMem SharedHash.
From S2P Require Import SharedStore SharedStoreSpec SharedStoreOps Db Persistence DirtyEvent DirtyRing AsyncDrain.
From S2P Require Import AsyncPublish SharedAtomic SharedAtomicSpec.

Module SharedRun.

(** [PUT] is the read-modify-write of SET, INCR, the list commands and the
    loader: a scratch copy, a new value and expiry, the writeback.  [EXPIRE] is
    what EXPIRE does to the store: it changes a scratch copy, drops it, and
    writes a second, unchanged copy back.  [now] is the clock of the call. *)
Inductive op :=
| GET (now : Z) (k : bytes)
| PUT (now : Z) (k : bytes) (v : PgRedisValue) (has : bool) (at_ : Z)
| EXPIRE (now : Z) (k : bytes)
| DEL (k : bytes)
| HGET (now : Z) (k field : bytes)
| HSET (now : Z) (k field value : bytes)
| HDEL (now : Z) (k field : bytes)
| RESET.

Inductive reply :=
| RView (a : option AEntry)
| RDone
| RBool (b : bool)
| RField (o : PgRedisFastHashOutcome)
| RMut (o : PgRedisFastHashMutateOutcome)
| RInt (n : Z)
| RErr (e : errcode).

Section Run.
Context `{DsaAllocator} `{HashBytes} `{KeyspaceLimit}.
Context (cfg : Config) (action : PgRedisAsyncFullAction) (env : Node -> Node) (ev0 : PgRedisDirtyEvent).

Definition answer {A} (f : A -> reply) (x : outcome A * Node) : option (reply * Node) :=
  Some (match x.1 with Ret a => f a | Raise e => RErr e end, x.2).
Definition answer' {A} (f : A -> reply) (x : option (outcome A * Node)) : option (reply * Node) :=
  x ≫= answer f.

Definition put (now : Z) (k : bytes) (v : PgRedisValue) (has : bool) (at_ : Z) : M SharedStore unit :=
  x ← pg_redis_shared_store_upsert now k;
  pg_redis_shared_store_writeback k (set_expire has at_ (set_value v x.1)).

Definition expire (now : Z) (k : bytes) : M SharedStore bool :=
  x ← pg_redis_shared_store_lookup now k;
  match x.1 with
  | None => mret false
  | Some _ =>
      oe ← pg_redis_shared_store_lookup_raw k;
      match oe with
      | Some e => pg_redis_shared_store_writeback k e
      | None => mret tt
      end ;;
      mret true
  end.

Definition exec (o : op) (w : Node) : option (reply * Node) :=
  match o with
  | GET now k => answer (fun x => RView (entry_view <$> x.1)) (on_store (pg_redis_shared_store_lookup now k) w)
  | PUT now k v has at_ => answer (fun _ => RDone) (on_store (put now k v has at_) w)
  | EXPIRE now k => answer RBool (on_store (expire now k) w)
  | DEL k => answer RBool (on_store (pg_redis_shared_store_remove k) w)
  | HGET now k f => answer RField (on_store (pg_redis_shared_hash_lookup_field now k f true) w)
  | HSET now k f v => answer' RMut (pg_redis_shared_hash_set_atomic cfg action env (fun _ => now) now ev0 1 0 0 k f v w)
  | HDEL now k f => answer' RMut (pg_redis_shared_hash_del_atomic cfg action env (fun _ => now) now ev0 1 k f w)
  | RESET => answer RInt (on_store pg_redis_shared_store_reset_all w)
  end.

Fixpoint run (os : list op) (w : Node) : option (list reply * Node) :=
  match os with
  | [] => Some ([], w)
  | o :: os' =>
      '(r, w1) ← exec o w;
      '(rs, w2) ← run os' w1;
      Some (r :: rs, w2)
  end.
End Run.

(** ** The specification *)

Definition plain (v : PgRedisValue) : bool := match v with VHash _ => false | _ => true end.
Definition op_ok (o : op) : Prop :=
  match o with
  | PUT _ _ v _ _ => plain v = true
  | HSET _ _ f _ => blen f <= PG_REDIS_MAX_FIELD_SIZE
  | _ => True
  end.

Definition expiry (has : bool) (at_ : Z) : option Z := if has then Some at_ else None.

Definition field_reply (now : Z) (V : gmap bytes AEntry) (k field : bytes) : PgRedisFastHashOutcome :=
  match V !! k with
  | None => PG_REDIS_FAST_HASH_KEY_MISS
  | Some a =>
      if a_expired now a then PG_REDIS_FAST_HASH_KEY_EXPIRED
      else match a_val a with
           | AHash m => match m !! field with
                        | None => PG_REDIS_FAST_HASH_FIELD_MISS
                        | Some v => PG_REDIS_FAST_HASH_HIT v
                        end
           | _ => PG_REDIS_FAST_HASH_WRONGTYPE (a_type a)
           end
  end.

Definition value_type (v : PgRedisValue) : PgRedisValueType := a_type {| a_val := val_view v; a_expire := None |}.

(** A key that is past its expiry is dropped by the first GET, EXPIRE or HDEL
    that meets it. *)
Definition live (now : Z) (k : bytes) (V : gmap bytes AEntry) : gmap bytes AEntry :=
  if shared_expired now V k then delete k V else V.

Definition spec (o : op) (V : gmap bytes AEntry) : reply * gmap bytes AEntry :=
  match o with
  | GET now k => (RView (live now k V !! k), live now k V)
  | PUT now k v has at_ =>
      (RDone, <[k := {| a_val := stored (val_view v); a_expire := expiry has at_ |}]> V)
  | EXPIRE now k =>
      match live now k V !! k with
      | None => (RBool false, live now k V)
      | Some a => (RBool true, <[k := {| a_val := stored (a_val a); a_expire := a_expire a |}]> V)
      end
  | DEL k => (RBool (bool_decide (is_Some (V !! k))), delete k V)
  | HGET now k f => (RField (field_reply now V k f), V)
  | HSET now k f v =>
      match hash_at now V k with
      | inl ty => (RMut (PG_REDIS_FAST_HASH_MUTATE_WRONGTYPE ty), V)
      | inr (m, ex) => (RMut (hset_reply (bool_decide (m !! f = None))), <[k := hash_entry (<[f := v]> m) ex]> V)
      end
  | HDEL now k f =>
      match hash_at now V k with
      | inl ty => (RMut (PG_REDIS_FAST_HASH_MUTATE_WRONGTYPE ty), V)
      | inr (m, ex) =>
          if bool_decide (is_Some (m !! f))
          then (RMut PG_REDIS_FAST_HASH_MUTATE_OK_DELETED, <[k := hash_entry (delete f m) ex]> V)
          else (RMut PG_REDIS_FAST_HASH_MUTATE_NOOP, live now k V)
      end
  | RESET => (RInt (Z.of_nat (size V)), ∅)
  end.

(** What an operation that ran out of memory leaves: no new key; or the key with
    the payload lost; or the hash without the new field. *)
Inductive oom (V : gmap bytes AEntry) : op -> gmap bytes AEntry -> Prop :=
| oom_put_enter now k v has at_ : V !! k = None -> oom V (PUT now k v has at_) V
| oom_put now k v has at_ :
    oom V (PUT now k v has at_)
      (<[k := {| a_val := lost_value (value_type v); a_expire := expiry has at_ |}]> V)
| oom_expire now k a : live now k V !! k = Some a ->
    oom V (EXPIRE now k) (<[k := {| a_val := lost_value (a_type a); a_expire := a_expire a |}]> V)
| oom_hset_enter now k f v : V !! k = None -> oom V (HSET now k f v) V
| oom_hset now k f v m ex : hash_at now V k = inr (m, ex) -> oom V (HSET now k f v) (<[k := hash_entry m ex]> V).

(** EXPIRE of a hash that ran out of memory: nothing is promised after it. *)
Inductive stops (V : gmap bytes AEntry) : op -> Prop :=
| stops_expire now k m ex :
    live now k V !! k = Some (hash_entry m ex) -> stops V (EXPIRE now k).

Inductive spec_run : gmap bytes AEntry -> list op -> list reply -> option (gmap bytes AEntry) -> Prop :=
| spec_nil V : spec_run V [] [] (Some V)
| spec_next V o os rs V' : spec_run (spec o V).2 os rs V' -> spec_run V (o :: os) ((spec o V).1 :: rs) V'
| spec_oom V o os e rs V1 V' : mem_error e -> oom V o V1 -> spec_run V1 os rs V' ->
    spec_run V (o :: os) (RErr e :: rs) V'
| spec_stop V o os e rs : mem_error e -> stops V o -> spec_run V (o :: os) (RErr e :: rs) None.
End SharedRun.

Section Claims.
Context `{DsaAllocator} `{HashBytes} `{KeyspaceLimit} `{!DsaLaws}.
Context (cfg : Config) (action : PgRedisAsyncFullAction) (env : Node -> Node) (ev0 : PgRedisDirtyEvent).
Import SharedRun.

(** ** The operations on the store alone *)

Definition tell {A} (f : A -> reply) (x : outcome A * SharedStore) : reply * SharedStore :=
  (match x.1 with Ret a => f a | Raise e => RErr e end, x.2).

Definition store_exec (o : op) (s : SharedStore) : reply * SharedStore :=
  match o with
  | GET now k => tell (fun x => RView (entry_view <$> x.1)) (pg_redis_shared_store_lookup now k s)
  | PUT now k v has at_ => tell (fun _ => RDone) (put now k v has at_ s)
  | EXPIRE now k => tell RBool (expire now k s)
  | DEL k => tell RBool (pg_redis_shared_store_remove k s)
  | HGET now k f => tell RField (pg_redis_shared_hash_lookup_field now k f true s)
  | HSET now k f v =>
      tell (fun x => RMut (match x with
                           | inl ty => PG_REDIS_FAST_HASH_MUTATE_WRONGTYPE ty
                           | inr (was_new, _) => hset_reply was_new
                           end)) (apply_hset now k f v s)
  | HDEL now k f => tell RMut (apply_hdel now k f s)
  | RESET => tell RInt (pg_redis_shared_store_reset_all s)
  end.

Lemma exec_store o w :
  async_mode cfg = false ->
  exec cfg action env ev0 o w = Some ((store_exec o (n_store w)).1, put_store (store_exec o (n_store w)).2 w).
Proof.
  intros Ha. destruct o; cbn [exec store_exec]; unfold answer, tell, on_store;
    try (match goal with |- context [?m (n_store w)] => destruct (m (n_store w)) as [[?|?] ?]; done end).
  - unfold pg_redis_shared_hash_set_atomic, answer', on_store. rewrite Ha.
    by destruct (apply_hset _ _ _ _ _) as [[[?|[? ?]]|?] ?].
  - unfold pg_redis_shared_hash_del_atomic, answer', on_store. rewrite Ha.
    by destruct (apply_hdel _ _ _ _) as [[[]|?] ?].
Qed.

(** ** One operation *)

Lemma empty_store h : store_repr {| ss_keyspace := Some ∅; ss_dsa := Some h |} ∅ h.
Proof.
  exists ∅, h, (fun _ => ∅). split; [done|]. split; [split|].
  - done.
  - intros k se. by rewrite lookup_empty.
  - intros k k' [? Hk]. by rewrite lookup_empty in Hk.
  - unfold all_foot. rewrite map_to_list_empty. cbn. by rewrite rest_empty.
Qed.


Definition refined (V : gmap bytes AEntry) (R : Heap) (o : op) (x : reply * SharedStore) : Prop :=
  (x.1 = (spec o V).1 /\ store_repr x.2 (spec o V).2 R) \/
  exists e, x.1 = RErr e /\ mem_error e /\ (stops V o \/ exists V1, oom V o V1 /\ store_repr x.2 V1 R).

Lemma get_refined now k s V R : store_repr s V R -> refined V R (GET now k) (store_exec (GET now k) s).
Proof.
  intros Hr. left. cbn [store_exec spec fst snd]. unfold live.
  destruct (shared_lookup_spec now s V R k Hr) as (oe & s' & -> & Hx). cbn.
  destruct (shared_expired now V k).
  - destruct Hx as [-> Hr']. by rewrite lookup_delete_eq.
  - destruct Hx as [Hx ->]. split; [|done]. f_equal. destruct Hx as [e a He|]; [|done]. cbn. by rewrite (sf_view _ _ He).
Qed.

(** The fresh entry of an upsert is gone once something else is written. *)
Lemma put_refined now k v has at_ s V R :
  store_repr s V R -> plain v = true -> refined V R (PUT now k v has at_) (store_exec (PUT now k v has at_) s).
Proof.
  intros Hr Hv. cbn [store_exec]. unfold put. rewrite bind_unfold.
  destruct (shared_upsert_spec now s V R k Hr) as [[-> Hk]|(e & is_new & s1 & -> & _ & Hx)].
  { right. eexists. split; [done|]. split; [by left|]. right. exists V. split; [by constructor|done]. }
  assert (exists V1, store_repr s1 V1 R /\ delete k V1 = delete k V /\ V1 !! k <> None) as (V1 & Hr1 & Hd & Hin).
  { destruct (_ || _).
    - eexists. split; [apply Hx|]. rewrite delete_insert_eq, lookup_insert_eq. done.
    - exists V. destruct Hx as [(a & -> & _) Hx]. done. }
  clear Hx. assert (Hins : forall a, <[k := a]> V1 = <[k := a]> V).
  { intros a. by rewrite <- (insert_delete_eq V1), <- (insert_delete_eq V), Hd. }
  cbn [fst]. set (e' := set_expire has at_ (set_value v e)).
  assert (Hh : hash_over_hash V1 k e' = None) by (unfold hash_over_hash; destruct (V1 !! k) as [[[] ?]|]; by destruct v).
  assert (Hok : scratch_ok (e_value e')) by (by destruct v).
  pose proof (writeback_spec s1 V1 R k e' Hr1 Hok ltac:(by rewrite Hh)) as Hw.
  destruct (pg_redis_shared_store_writeback k e' s1) as [[u|err] s'].
  - left. split; [done|]. by rewrite Hins in Hw.
  - right. exists err. destruct Hw as [Herr [[_ Hn]|[Hn|Hw]]]; [done|done|]. split; [done|]. split; [done|]. right.
    eexists. split; [apply oom_put|]. rewrite Hins in Hw. unfold lost_entry in Hw.
    assert (e_type e' = value_type v) as <- by (by destruct v). done.
Qed.

(** A scratch copy written back as it is. *)
Lemma rewrite_spec s V R k e a :
  store_repr s V R -> V !! k = Some a -> scratch_for e a ->
  match pg_redis_shared_store_writeback k e s with
  | (Ret _, s') => store_repr s' (<[k := {| a_val := stored (a_val a); a_expire := a_expire a |}]> V) R
  | (Raise err, s') => mem_error err /\
      ((exists m, a = hash_entry m (a_expire a)) \/
       store_repr s' (<[k := {| a_val := lost_value (a_type a); a_expire := a_expire a |}]> V) R)
  end.
Proof.
  intros Hr Ha [Hview Hok Hsync _].
  assert (Hal : forall m oh, hash_over_hash V k e = Some m -> e_value e = VHash oh -> in_sync m oh).
  { intros m oh Hm Ho. apply Hsync; [done|]. unfold hash_over_hash in Hm. rewrite Ha in Hm.
    destruct a as [[] ?]; cbn in *; try done. rewrite Ho in Hm. by injection Hm as ->. }
  pose proof (writeback_spec s V R k e Hr Hok Hal) as Hw. unfold stored_entry, lost_entry in Hw.
  rewrite <- e_type_view, Hview in Hw.
  destruct (pg_redis_shared_store_writeback k e s) as [[u|err] s']; [done|]. destruct Hw as [Herr Hw].
  split; [done|]. destruct Hw as [[_ Hn]|[Hn|Hw]]; [congruence| |by right].
  left. unfold hash_over_hash in Hn. rewrite Ha in Hn. destruct a as [[?|?|m|?] ex]; try done. by exists m.
Qed.

Lemma expire_refined now k s V R :
  store_repr s V R -> refined V R (EXPIRE now k) (store_exec (EXPIRE now k) s).
Proof.
  intros Hr. cbn [store_exec]. unfold expire. rewrite bind_unfold.
  destruct (shared_lookup_spec now s V R k Hr) as (oe & s1 & -> & Hx). unfold refined. cbn [spec]. unfold live.
  destruct (shared_expired now V k) eqn:Hexp.
  { destruct Hx as [-> Hr']. left. cbn. by rewrite lookup_delete_eq. }
  destruct Hx as [Hx ->]. cbn [fst]. destruct (V !! k) as [a|] eqn:Ha; inversion Hx as [e0 ? _|]; subst oe; [|by left].
  destruct (lookup_raw_spec s V R k Hr) as (oe & E & Hoe). rewrite (bind_Ret _ _ _ _ _ E). rewrite Ha in Hoe.
  inversion Hoe as [e ? He|]; subst oe. rewrite bind_unfold. pose proof (rewrite_spec s V R k e a Hr Ha He) as Hw.
  destruct (pg_redis_shared_store_writeback k e s) as [[u|err] s']; [by left|].
  right. exists err. destruct Hw as [Herr Hw]. split; [done|]. split; [done|].
  assert (Hlive : live now k V !! k = Some a) by (unfold live; by rewrite Hexp).
  destruct Hw as [[m Hm]|Hw]; [left|right]; [|eexists; by split; [by apply oom_expire|]].
  rewrite Hm in Hlive. by eapply stops_expire.
Qed.

Lemma hset_refined now k f v s V R :
  store_repr s V R -> blen f <= PG_REDIS_MAX_FIELD_SIZE -> refined V R (HSET now k f v) (store_exec (HSET now k f v) s).
Proof.
  intros Hr Hf. pose proof (apply_hset_spec now s V R k f v Hr Hf) as Hx. unfold refined. cbn [store_exec spec].
  destruct (hash_at now V k) as [ty|[m ex]] eqn:Hh; [rewrite Hx; by left|].
  destruct (apply_hset now k f v s) as [[[?|[was_new se]]|e] s']; [done| |].
  - left. destruct Hx as (-> & _ & _ & Hs). done.
  - right. exists e. destruct Hx as [He Hx]. split; [done|]. split; [done|]. right. destruct Hx as [[-> Hn]|Hs].
    + exists V. split; [by constructor|done].
    + eexists. split; [by eapply oom_hset|done].
Qed.

Lemma hdel_refined now k f s V R : store_repr s V R -> refined V R (HDEL now k f) (store_exec (HDEL now k f) s).
Proof.
  intros Hr. destruct (apply_hdel_spec now s V R k f Hr) as (s' & E & Hs). left. cbn [store_exec spec]. rewrite E. cbn.
  unfold live. destruct (hash_at now V k) as [ty|[m ex]] eqn:Hh.
  - unfold shared_expired in Hs. unfold hash_at in Hh. destruct (V !! k) as [a|]; [|done].
    by destruct (a_expired now a).
  - case_bool_decide as Hm; [|by destruct (shared_expired now V k)]. split; [done|].
    unfold shared_expired in Hs. unfold hash_at in Hh. destruct (V !! k) as [a|].
    + destruct (a_expired now a); [|done]. injection Hh as <- _. rewrite lookup_empty in Hm. by destruct Hm.
    + done.
Qed.

Lemma step_refined o s V R : store_repr s V R -> op_ok o -> refined V R o (store_exec o s).
Proof.
  intros Hr Ho. destruct o as [now k|now k v has at_|now k|k|now k f|now k f v|now k f|].
  - by apply get_refined.
  - by apply put_refined.
  - by apply expire_refined.
  - left. destruct (shared_remove_spec s V R k Hr) as (s' & E & Hs). cbn [store_exec]. by rewrite E.
  - left. cbn [store_exec]. by rewrite (lookup_field_spec now s V R k f true Hr).
  - by apply hset_refined.
  - by apply hdel_refined.
  - left. destruct (reset_all_spec s V R Hr) as (n & E & ->). cbn [store_exec]. rewrite E. split; [done|]. cbn.
    apply empty_store.
Qed.

(** ** Sequences of operations *)

(** What the store operations do not touch. *)
Definition outside (w : Node) : Ring * Db * Z :=
  (x_ring (n_shared w), x_db (n_shared w), async_published_in_xact (n_producer w)).

Lemma put_store_eq s w : n_store (put_store s w) = s /\ outside (put_store s w) = outside w.
Proof. by destruct s. Qed.

Lemma run_total os w : async_mode cfg = false -> exists rs w', run cfg action env ev0 os w = Some (rs, w') /\ outside w' = outside w.
Proof.
  intros Ha. revert w. induction os as [|o os IH]; intros w; [by exists [], w|]. cbn [run]. rewrite exec_store by done. cbn.
  destruct (IH (put_store (store_exec o (n_store w)).2 w)) as (rs & w' & -> & Ho). cbn. do 2 eexists. split; [done|].
  by rewrite Ho, (proj2 (put_store_eq _ _)).
Qed.

Lemma run_refined os w V R :
  async_mode cfg = false -> Forall op_ok os -> store_repr (n_store w) V R ->
  exists rs w' oV, run cfg action env ev0 os w = Some (rs, w') /\ spec_run V os rs oV /\ outside w' = outside w /\
    forall V', oV = Some V' -> store_repr (n_store w') V' R.
Proof.
  intros Ha Hok. revert w V. induction Hok as [|o os Ho Hos IH]; intros w V Hr.
  { exists [], w, (Some V). split; [done|]. split; [constructor|]. split; [done|]. by intros ? [= <-]. }
  cbn [run]. rewrite exec_store by done. cbn. pose proof (step_refined o (n_store w) V R Hr Ho) as Hx.
  unfold refined in Hx. destruct (store_exec o (n_store w)) as [r s']. destruct (put_store_eq s' w) as [Es Eo]. cbn [fst snd] in *.
  rewrite <- Eo. destruct Hx as [[-> Hr']|(e & -> & He & [Hstop|(V1 & Hoom & Hr')])].
  - cbn [fst snd] in Hr'. rewrite <- Es in Hr'. destruct (IH _ _ Hr') as (rs & w' & oV & -> & Hs & Ho' & HV). cbn.
    do 3 eexists. split; [done|]. split; [by apply spec_next|]. done.
  - destruct (run_total os (put_store s' w) Ha) as (rs & w' & -> & Ho'). cbn.
    do 3 eexists. split; [done|]. split; [by apply spec_stop|]. done.
  - cbn [fst snd] in Hr'. rewrite <- Es in Hr'. destruct (IH _ _ Hr') as (rs & w' & oV & -> & Hs & Ho' & HV). cbn.
    do 3 eexists. split; [done|]. split; [by eapply spec_oom|]. done.
Qed.

(** C3: The shared keyspace is a map of values and leaks nothing.  From an empty
    keyspace, in any heap, with any allocator, hash function and table limit,
    every sequence of lookups, read-modify-writes, EXPIRE, removals,
    HGET, HSET, HDEL and resets (nothing being published) gives the replies of a
    finite map from keys to values, with lazy eviction; an empty string is
    stored as NULL and list values modulo 65536 bytes.  The other replies are
    memory errors: a new key does not appear, a rewritten value is lost, a hash
    keeps its fields.  Each key owns its chunks alone: chunks of others stay as
    they were, and a final reset restores the heap exactly.  Only after an
    EXPIRE of a hash ran out of memory is nothing promised. *)
Theorem shared_keyspace_refines_map (os : list op) (w : Node) (h : Heap) :
  async_mode cfg = false -> Forall op_ok os ->
  n_store w = {| ss_keyspace := Some ∅; ss_dsa := Some h |} ->
  exists rs w' oV, run cfg action env ev0 os w = Some (rs, w') /\ spec_run ∅ os rs oV /\ outside w' = outside w /\
    forall V', oV = Some V' -> store_repr (n_store w') V' h /\
      pg_redis_shared_store_reset_all (n_store w') =
        (Ret (Z.of_nat (size V')), {| ss_keyspace := Some ∅; ss_dsa := Some h |}).
Proof.
  intros Ha Hok Ew. destruct (run_refined os w ∅ h Ha Hok) as (rs & w' & oV & E & Hs & Ho & HV).
  { rewrite Ew. apply empty_store. }
  exists rs, w', oV. split; [done|]. split; [done|]. split; [done|]. intros V' EV. specialize (HV V' EV). split; [done|].
  by destruct (reset_all_spec _ _ _ HV) as (n & -> & ->).
Qed.
End Claims.

(** ** Witness *)

#[local] Instance any_size : KeyspaceLimit := fun _ => true.
#[local] Instance length_hash : HashBytes := fun b => blen b.

Definition quiet_config : Config :=
  {| pg_redis_persistence_mode := Some (bs "none"); pg_redis_storage_mode := Some (bs "shared");
     pg_redis_max_key_size := 1024; pg_redis_max_value_size := 65536; shmem_initialized := true |}.
Definition node_of (slots : nat) : Node :=
  {| n_keyspace := Some ∅;
     n_producer := {| p_shared := {| x_ring := pg_redis_dirty_ring_shmem_init slots; x_dsa := Some ∅; x_db := db_empty |};
                      async_published_in_xact := 0 |} |}.

Definition demo_store_ops : list SharedRun.op :=
  let k := bs "k" in let h := bs "h" in let f := bs "f" in
  [SharedRun.HSET 0 h f (bs "1"); SharedRun.HSET 0 h f (bs "2"); SharedRun.HGET 0 h f;
   SharedRun.PUT 0 k (VString (Some (bs "v"))) true 10; SharedRun.HSET 0 k f (bs "1"); SharedRun.HSET 20 k f (bs "1");
   SharedRun.EXPIRE 20 h; SharedRun.GET 25 h; SharedRun.HDEL 20 k f; SharedRun.PUT 0 k (VInt 7) true 30;
   SharedRun.GET 29 k; SharedRun.GET 30 k; SharedRun.RESET].

Lemma shared_keyspace_refines_map_witness :
  exists rs w' oV,
    @SharedRun.run (bump_allocator 100000) _ _ quiet_config PG_REDIS_ASYNC_FULL_BLOCK id zero_event demo_store_ops (node_of 4) = Some (rs, w') /\
    SharedRun.spec_run ∅ demo_store_ops rs oV /\ outside w' = outside (node_of 4) /\
    forall V', oV = Some V' -> store_repr (n_store w') V' ∅ /\
      pg_redis_shared_store_reset_all (n_store w') =
        (Ret (Z.of_nat (size V')), {| ss_keyspace := Some ∅; ss_dsa := Some ∅ |}).
Proof.
  apply (@shared_keyspace_refines_map (bump_allocator 100000) _ _ (bump_laws 100000)
    quiet_config PG_REDIS_ASYNC_FULL_BLOCK id zero_event demo_store_ops (node_of 4) ∅).
  - vm_compute. reflexivity.
  - repeat (constructor; [vm_compute; done|]). constructor.
  - reflexivity.
Defined.

(** The replies of that run. *)
Example demo_store_replies :
  fst <$> @SharedRun.run (bump_allocator 100000) _ _ quiet_config PG_REDIS_ASYNC_FULL_BLOCK id zero_event demo_store_ops (node_of 4) =
  Some [SharedRun.RMut PG_REDIS_FAST_HASH_MUTATE_OK_NEW; SharedRun.RMut PG_REDIS_FAST_HASH_MUTATE_OK_OVERWRITE;
        SharedRun.RField (PG_REDIS_FAST_HASH_HIT (bs "2")); SharedRun.RDone;
        SharedRun.RMut (PG_REDIS_FAST_HASH_MUTATE_WRONGTYPE PG_REDIS_TYPE_STRING);
        SharedRun.RMut PG_REDIS_FAST_HASH_MUTATE_OK_NEW; SharedRun.RBool true;
        SharedRun.RView (Some (hash_entry {[ bs "f" := bs "2" ]} None));
        SharedRun.RMut PG_REDIS_FAST_HASH_MUTATE_OK_DELETED; SharedRun.RDone;
        SharedRun.RView (Some {| a_val := AInt 7; a_expire := Some 30 |}); SharedRun.RView None; SharedRun.RInt 1].
Proof. vm_compute. reflexivity. Qed.

(** ** EXPIRE of a hash when memory runs out *)

(** An allocator with a budget of bytes. *)
Definition chunk_bytes (c : Chunk) : Z :=
  match c with
  | CBytes b => blen b
  | CTable t => table_alloc_size (t_bucket_count t)
  | CNode _ => 40
  end.
Definition budget_allocator (budget : Z) : DsaAllocator := fun h sz =>
  if budget <? map_fold (fun _ c n => chunk_bytes c + n) 0 h + sz then None
  else Some (1 + max_key h).

Definition field_no (n : nat) : bytes := replicate n Byte.x61.

(** The next set grows the table. *)
Definition full_table_ops : list SharedRun.op :=
  map (fun n => SharedRun.HSET 0 (bs "h") (field_no n) []) (seq 1 10) ++
  [SharedRun.HSET 0 (bs "h") (field_no 11) (replicate 700 Byte.x62)].

(** EXPIRE of a hash that runs out of memory breaks the key.  The scratch of a
    shared hash marks every field dirty, so the writeback sets them all again: the
    table grows and moves, a later set finds no memory, and the entry keeps the
    pointer to the table that was freed; the next HGET follows it. *)
Example expire_oom_dangles :
  fst <$> @SharedRun.run (budget_allocator 1980) _ _ quiet_config PG_REDIS_ASYNC_FULL_BLOCK id zero_event
    (full_table_ops ++ [SharedRun.EXPIRE 0 (bs "h"); SharedRun.HGET 0 (bs "h") (bs "a")]) (node_of 4) =
  Some (replicate 11 (SharedRun.RMut PG_REDIS_FAST_HASH_MUTATE_OK_NEW) ++
        [SharedRun.RErr ERRCODE_OUT_OF_MEMORY; SharedRun.RErr SEGMENTATION_FAULT]).
Proof. vm_compute. reflexivity. Qed.

(** ** Two sessions on one counter *)

#[local] Instance ample : DsaAllocator := bump_allocator 100000.

Definition bump_int (e : PgRedisEntry) : PgRedisEntry :=
  set_value (VInt (match e_value e with VInt i => i + 1 | _ => 1 end)) e.

(** A read-modify-write of the shared keyspace is not atomic.  The scratch
    copy and its writeback take the partition lock separately: of two sessions
    that increment one counter from copies taken before either wrote back, one
    increment is lost. *)
Example interleaved_increments_lose_one :
  let r := (e0 ← pg_redis_shared_store_upsert 0 (bs "n");
            pg_redis_shared_store_writeback (bs "n") (bump_int e0.1) ;;
            e1 ← pg_redis_shared_store_upsert 0 (bs "n");
            e2 ← pg_redis_shared_store_upsert 0 (bs "n");
            pg_redis_shared_store_writeback (bs "n") (bump_int e1.1) ;;
            pg_redis_shared_store_writeback (bs "n") (bump_int e2.1) ;;
            pg_redis_shared_store_lookup_raw (bs "n")) in
  exists s, r (n_store (node_of 4)) = (Ret (Some (set_version 1 (set_value (VInt 2) fresh_entry))), s).
Proof. eexists. vm_compute. reflexivity. Qed.
