(* ===== verification/SharedAtomicAsync.v ===== *)
(** * HSET and HDEL on the shared keyspace with asynchronous persistence

    The change and its events: what goes to the ring when it has room, and that
    the retry loops end when the ring stays full.  The chunks of spilled events
    are in the heap beside those of the keyspace; [R] is the heap without the
    chunks the keys own. *)
From S2P Require Import Prelude Types Utils KvStore HashValue StoreInterface Db Persistence SharedMem SharedHash.
From S2P Require Import SharedStore SharedStoreSpec SharedStoreOps DirtyEvent DirtyRing RingProtocol AsyncDrain.
From S2P Require Import AsyncPublish SharedAtomic SharedAtomicSpec SharedStoreRefine.

Section Encode.
Context `{DsaAllocator} `{!DsaLaws}.

(** Encoding takes at most one new chunk, the payload of the event. *)
Definition encoded (h : Heap) (x : outcome PgRedisDirtyEvent * Dsa) : Prop :=
  match x with
  | (Ret ev, area) => blen (ev_inline_bytes ev) = PG_REDIS_DIRTY_EVENT_INLINE_BYTES /\
      ((area = Some h /\ ev_dsa_overflow ev = false) \/
       exists p b, area = Some (<[p := CBytes b]> h) /\ h !! p = None /\ p <> InvalidDsaPointer /\
         ev_dsa_overflow ev = true /\ ev_dsa_payload ev = p)
  | (Raise e, area) => e = ERRCODE_OUT_OF_MEMORY /\ area = Some h
  end.

Lemma inline_write_encoded ev p1 p2 p3 h :
  blen (ev_inline_bytes ev) = PG_REDIS_DIRTY_EVENT_INLINE_BYTES ->
  encoded h (event_inline_write ev p1 p2 p3 (Some h)).
Proof.
  intros Hb. unfold event_inline_write. case_match eqn:Ht.
  - rewrite bind_unfold. destruct (palloc_cases (blen p1 + blen p2 + blen p3) h) as [->|(p & -> & Hp & Hf)]; [done|].
    rewrite (proj2 (Z.eqb_neq _ _)) by done. rewrite bind_unfold. cbn [modify]. generalize (default [] (shared_bytes
      (Some (<[p:=CBytes (replicate (Z.to_nat (blen p1 + blen p2 + blen p3)) Byte.x00)]> h)) p)). intros buf.
    unfold shared_write, dsa_store. cbn [fmap option_fmap option_map]. rewrite insert_insert_eq. cbn. split; [done|].
    right. by do 2 eexists.
  - cbn. split; [|by left]. apply Z.ltb_ge in Ht. unfold blen in *.
    rewrite write_parts_eq by lia. rewrite !length_app, length_drop. lia.
Qed.

Lemma encode_change_encoded ev c h :
  blen (ev_inline_bytes ev) = PG_REDIS_DIRTY_EVENT_INLINE_BYTES -> encoded h (encode_change ev c (Some h)).
Proof. intros Hb. destruct c; by apply inline_write_encoded. Qed.

Lemma shared_bytes_insert (R : Heap) p c q :
  R !! p = None -> is_Some (shared_bytes (Some R) q) -> shared_bytes (Some (<[p := c]> R)) q = shared_bytes (Some R) q.
Proof.
  intros Hp [b Hq]. rewrite Hq. apply shared_bytes_Some. apply shared_bytes_Some in Hq as [? Hq]. split; [done|].
  rewrite lookup_insert_ne; [done|congruence].
Qed.

(** A decoded event only reads its payload. *)
Lemma decode_op_base area area' ev :
  event_payload_base area' ev = event_payload_base area ev -> decode_op area' ev = decode_op area ev.
Proof.
  intros E. unfold decode_op, pg_redis_event_decode_key, pg_redis_event_decode_field, pg_redis_event_decode_value.
  by rewrite E.
Qed.

End Encode.

(** Someone else's new chunk leaves the keyspace as it is. *)
Lemma store_alloc `{DsaAllocator} `{HashBytes} `{KeyspaceLimit} `{!DsaLaws} ks h V R p c :
  store_repr {| ss_keyspace := ks; ss_dsa := Some h |} V R -> h !! p = None ->
  store_repr {| ss_keyspace := ks; ss_dsa := Some (<[p := c]> h) |} V (<[p := c]> R).
Proof.
  intros (ks' & h' & f & [= -> <-] & [Hd He Hj] & ->) Hp. exists ks', (<[p := c]> h), f. split; [done|].
  assert (Hout : p ∉ all_foot ks' f).
  { rewrite elem_of_all_foot. intros (k & [se Hk] & Hq). destruct (He k se Hk) as (a & _ & [Hv _]).
    destruct (value_repr_in _ _ _ _ _ Hv Hq). congruence. }
  split; [split; [done| |done]|].
  - intros k se Hk. destruct (He k se Hk) as (a & Ha & [Hv Hx]). exists a. split; [done|]. split; [|done].
    eapply value_repr_agree; [done|]. intros q Hq. apply lookup_insert_ne. intros ->. apply Hout, elem_of_all_foot. eauto.
  - apply map_eq. intros q. rewrite lookup_rest. destruct (decide (q = p)) as [->|].
    + by rewrite !lookup_insert_eq, decide_False.
    + by rewrite !lookup_insert_ne, lookup_rest.
Qed.

(** ** A ring with room *)

(** Every pending event decodes from what the keyspace does not own. *)
Definition decodes_in (R : Heap) (h : Ring) (ops : list RowOp) : Prop :=
  mapM (decode_op (Some R)) (pending_events h) = Some ops.

(** The ring is between operations and can take [n] more events. *)
Record ring_room (n : Z) (h : Ring) : Prop := {
  rr_idle : ring_idle h;
  rr_slots : ring_write_head h + n <= ring_read_head h + ring_capacity h;
  rr_head : ring_write_head h + n + 1 < 2 ^ 64
}.

Section Room.
Context `{DsaAllocator} `{HashBytes} `{KeyspaceLimit} `{!DsaLaws}.
Context (now : Z).

Definition queue_at (w : Node) (V : gmap bytes AEntry) (R : Heap) (ops : list RowOp) : Prop :=
  store_repr (n_store w) V R /\ decodes_in R (x_ring (n_shared w)) ops.

(** One event is appended, or memory runs out and nothing happens. *)
Lemma publish_once_room ev c w V R ops n :
  blen (ev_inline_bytes ev) = PG_REDIS_DIRTY_EVENT_INLINE_BYTES -> change_fits c ->
  queue_at w V R ops -> ring_room (n + 1) (x_ring (n_shared w)) -> 0 <= n ->
  exists r w', publish_once now ev c w = Some (r, w') /\ x_db (n_shared w') = x_db (n_shared w) /\
    async_published_in_xact (n_producer w') = async_published_in_xact (n_producer w) /\
    match r with
    | Raise e => e = ERRCODE_OUT_OF_MEMORY /\ queue_at w' V R ops
    | Ret (res, ev') => res = PG_REDIS_RING_OK /\ blen (ev_inline_bytes ev') = PG_REDIS_DIRTY_EVENT_INLINE_BYTES /\
        ring_room n (x_ring (n_shared w')) /\ exists R', queue_at w' V R' (ops ++ [change_op c])
    end.
Proof.
  intros Hb Hc [Hs Hd] [Hi Hslots Hhead] Hn. pose proof Hs as (ks & h & f & Ew & _ & ER).
  unfold publish_once. injection Ew as Eks Edsa. rewrite Edsa.
  pose proof (encode_change_encoded ev c h Hb) as He.
  destruct (encode_change ev c (Some h)) as [[ev'|e] area] eqn:Eenc; cbn [encoded] in He.
  2:{ destruct He as [-> ->]. do 2 eexists. split; [done|]. cbn. split; [done|]. split; [done|]. split; [done|].
      split; [|done]. unfold n_store in *. cbn. by rewrite Edsa in Hs. }
  destruct He as [Hb' Hcase]. cbn [set_dsa x_ring].
  assert (Hfull : pg_redis_dirty_ring_full (x_ring (n_shared w)) = false).
  { pose proof (ridle_quiet _ Hi) as []. rewrite full_iff by lia. apply Z.leb_gt. lia. }
  destruct (idle_publish_ok now ev' _ Hi Hfull) as (h' & Ep & Hp & Ec & Er & Ewh & Hq & Hfree). rewrite Ep.
  do 2 eexists. split; [done|]. cbn. split; [done|]. split; [done|]. split; [done|]. split; [done|].
  split; [split; [split; [done|done|lia]|lia|lia]|].
  pose proof (decode_encoded_op ev Hb c (Some h) ev' area Hc Eenc) as Hdec.
  unfold queue_at, n_store in *. cbn. rewrite Edsa in Hs. unfold decodes_in in *. rewrite Hp.
  destruct Hcase as [[-> Ho]|(p & b & -> & Hf & Hp0 & Ho & Epay)].
  - exists R. split; [done|]. rewrite mapM_Some in Hd |- *. apply Forall2_app; [done|]. constructor; [|done].
    rewrite <- Hdec. apply decode_op_base. unfold event_payload_base. by rewrite Ho.
  - exists (<[p := CBytes b]> R). split; [by apply store_alloc|]. rewrite mapM_Some in Hd |- *. apply Forall2_app; [|constructor; [|done]].
    + eapply Forall2_impl; [exact Hd|]. intros ev1 op. apply decode_op_kept. intros q Hq1. apply shared_bytes_insert; [|done].
      subst R. rewrite lookup_rest, Hf. by case_decide.
    + rewrite <- Hdec. apply decode_op_base. unfold event_payload_base. rewrite Ho, Epay.
      unfold shared_bytes, pg_redis_shared_addr. by rewrite !lookup_insert_eq.
Qed.

Lemma publish_all_room cs : forall ev w V R ops,
  blen (ev_inline_bytes ev) = PG_REDIS_DIRTY_EVENT_INLINE_BYTES -> Forall change_fits cs ->
  queue_at w V R ops -> ring_room (Z.of_nat (length cs)) (x_ring (n_shared w)) ->
  exists r w', publish_all now ev cs w = Some (r, w') /\ x_db (n_shared w') = x_db (n_shared w) /\
    async_published_in_xact (n_producer w') = async_published_in_xact (n_producer w) /\
    match r with
    | Raise e => e = ERRCODE_OUT_OF_MEMORY /\ exists R' ops', queue_at w' V R' ops'
    | Ret all => all = true /\ ring_room 0 (x_ring (n_shared w')) /\
        exists R', queue_at w' V R' (ops ++ (change_op <$> cs))
    end.
Proof.
  induction cs as [|c cs IH]; intros ev w V R ops Hb Hc Hq Hr.
  { do 2 eexists. split; [done|]. cbn. rewrite app_nil_r. eauto 8. }
  apply Forall_cons in Hc as [Hc Hcs]. cbn [publish_all].
  destruct (publish_once_room ev c w V R ops (Z.of_nat (length cs)) Hb Hc Hq) as (r & w1 & -> & Hdb & Hn & Hx);
    [cbn [length] in Hr; by rewrite Nat2Z.inj_succ in Hr|lia|].
  destruct r as [[res ev']|e]; [|destruct Hx as [-> Hx]; do 2 eexists; split; [done|]; eauto 8].
  destruct Hx as (-> & Hb' & Hr' & R' & Hq').
  destruct (IH ev' w1 V R' _ Hb' Hcs Hq' Hr') as (r & w' & -> & Hdb' & Hn' & Hx).
  do 2 eexists. split; [done|]. split; [congruence|]. split; [congruence|]. rewrite <- app_assoc in Hx. by destruct r.
Qed.

(** HSET on a ring with room for its two events. *)
Lemma hset_queues cfg action env clock ev0 fuel spin key field value w V R ops m ex :
  async_mode cfg = true -> blen (ev_inline_bytes ev0) = PG_REDIS_DIRTY_EVENT_INLINE_BYTES ->
  blen key <= PG_REDIS_MAX_KEY_SIZE -> blen field <= PG_REDIS_MAX_FIELD_SIZE -> blen value <= UINT16_MAX ->
  queue_at w V R ops -> ring_room 2 (x_ring (n_shared w)) ->
  hash_at (clock 0%nat) V key = inr (m, ex) ->
  exists r w', pg_redis_shared_hash_set_atomic cfg action env clock now ev0 (S fuel) 0 spin key field value w = Some (r, w') /\
    x_db (n_shared w') = x_db (n_shared w) /\
    match r with
    | Raise e => mem_error e
    | Ret o => o = hset_reply (bool_decide (m !! field = None)) /\
        async_published_in_xact (n_producer w') = async_published_in_xact (n_producer w) + 2 /\
        ring_room 0 (x_ring (n_shared w')) /\
        exists R' version,
          queue_at w' (<[key := hash_entry (<[field := value]> m) ex]> V) R'
            (ops ++ [OpStore key {| sr_type := bs "hash"; sr_value := None; sr_expire_at := ex; sr_version := version |};
                     OpFieldUpsert key field (Some value)])
    end.
Proof.
  intros Ha Hb Hk Hf Hv [Hs Hd] Hroom Hh. cbn [pg_redis_shared_hash_set_atomic].
  pose proof (apply_hset_spec (clock 0%nat) (n_store w) V R key field value Hs Hf) as Hx. rewrite Hh in Hx. unfold on_store.
  destruct (apply_hset (clock 0%nat) key field value (n_store w)) as [[[ty|[was_new se]]|e] s1]; [done| |].
  2:{ do 2 eexists. split; [done|]. split; [done|]. apply Hx. }
  destruct Hx as (-> & Hty & Hex & Hs1). rewrite Ha. set (w1 := put_store s1 w).
  assert (Ekey : take (Z.to_nat PG_REDIS_MAX_KEY_SIZE) key = key) by (apply take_ge; unfold blen in Hk; lia).
  unfold hset_changes. rewrite Ekey. change (UINT16_MAX) with 65535 in *. change PG_REDIS_MAX_KEY_SIZE with 1024 in *.
  pose proof (publish_all_room [KeyUpsert key (fill_event_entry se) []; HashFieldUpsert key field value] ev0 w1
    (<[key := hash_entry (<[field := value]> m) ex]> V) R ops Hb) as Hp.
  destruct Hp as (r & w2 & -> & Hdb & Hn & Hr).
  { change PG_REDIS_MAX_FIELD_SIZE with 1024 in Hf.
    repeat constructor; cbn [change_key change_field change_value]; change UINT16_MAX with 65535; try lia; by cbn. }
  { split; [|done]. unfold w1. by rewrite (proj1 (put_store_eq s1 w)). }
  { done. }
  destruct r as [all|e]; [|do 2 eexists; split; [done|]; split; [done|]; left; apply Hr].
  destruct Hr as (-> & Hroom' & R' & Hq). do 2 eexists. split; [done|]. split; [done|]. split; [done|].
  split; [cbn; by rewrite Hn|]. split; [exact Hroom'|]. exists R', (s64 (se_version se)). unfold queue_at, n_store in *. cbn in Hq |- *.
  assert (Htype : e_type (fill_event_entry se) = PG_REDIS_TYPE_HASH) by (unfold fill_event_entry, e_type; cbn; by rewrite Hty).
  rewrite Htype in Hq. cbn in Hq. unfold se_expire in Hex. rewrite Hex in Hq. exact Hq.
Qed.

Lemma async_writes cfg : async_mode cfg = true -> persistence_writes_enabled cfg = true.
Proof.
  unfold async_mode, pg_redis_effective_persistence_mode, persistence_writes_enabled.
  by destruct (pg_redis_resolve_persistence_mode cfg), (pg_redis_storage_is_shared cfg).
Qed.

(** What decodes outside the keyspace decodes in the whole of shared memory. *)
Lemma queue_decodes w V R ops :
  queue_at w V R ops -> mapM (decode_op (x_dsa (n_shared w))) (pending_events (x_ring (n_shared w))) = Some ops.
Proof.
  intros [(ks & h & f & E & _ & ->) Hd]. injection E as _ ->. unfold decodes_in in Hd. rewrite mapM_Some in Hd |- *.
  eapply Forall2_impl; [exact Hd|]. intros ev op. apply decode_op_kept. intros q.
  unfold shared_bytes, pg_redis_shared_addr. destruct (q =? InvalidDsaPointer); [done|]. rewrite lookup_rest.
  case_decide; [by intros []|done].
Qed.

Lemma replay_app ops ops' d : replay (ops ++ ops') d = obind (replay ops d) (replay ops').
Proof. revert d. induction ops as [|op ops IH]; intros d; [done|]. cbn. destruct (apply_op op d); [apply IH|done]. Qed.

(** The two rows of an HSET. *)
Lemma replay_hset key field value row d :
  replay [OpStore key row; OpFieldUpsert key field (Some value)] d =
    Ret {| store := <[key := row]> (store d); hash_fields := <[(key, field) := Some value]> (hash_fields d);
           list_items := list_items d |}.
Proof.
  cbn. unfold SQL_HASH_FIELD_UPSERT, distinct_on_last. cbn. rewrite bool_decide_true.
  - cbn. by rewrite !insert_empty, <- !insert_union_singleton_l.
  - constructor; [|constructor]. cbn. rewrite insert_empty, <- insert_union_singleton_l, lookup_insert_eq. by eexists.
Qed.

(** C17: HSET in shared asynchronous mode reaches the tables.  On a ring between
    operations with room for two events, and a key that is absent, expired or a
    hash, the call sets the field in the stored hash and appends to the queue
    exactly the parent row with its expiry and the field's row, in this order;
    what was pending still decodes.  The next drain then takes the whole queue
    (up to 1024 events that it does not reorder) and leaves the tables as the
    replay of what was pending, with these two rows on top, and the ring empty.
    The only error of the call is a memory error. *)
Theorem hset_reaches_tables cfg action env clock ev0 fuel spin key field value w V R ops m ex d :
  async_mode cfg = true -> blen (ev_inline_bytes ev0) = PG_REDIS_DIRTY_EVENT_INLINE_BYTES ->
  blen key <= PG_REDIS_MAX_KEY_SIZE -> blen field <= PG_REDIS_MAX_FIELD_SIZE -> blen value <= UINT16_MAX ->
  queue_at w V R ops -> ring_room 2 (x_ring (n_shared w)) ->
  hash_at (clock 0%nat) V key = inr (m, ex) ->
  db_fk (x_db (n_shared w)) -> replay ops (x_db (n_shared w)) = Ret d -> (length ops + 2 <= 1024)%nat ->
  (forall row, drain_ordered (ops ++ [OpStore key row; OpFieldUpsert key field (Some value)]) = true) ->
  exists r w', pg_redis_shared_hash_set_atomic cfg action env clock now ev0 (S fuel) 0 spin key field value w = Some (r, w') /\
    match r with
    | Raise e => mem_error e
    | Ret o => o = hset_reply (bool_decide (m !! field = None)) /\
        async_published_in_xact (n_producer w') = async_published_in_xact (n_producer w) + 2 /\
        exists R' version x,
          let row := {| sr_type := bs "hash"; sr_value := None; sr_expire_at := ex; sr_version := version |} in
          queue_at w' (<[key := hash_entry (<[field := value]> m) ex]> V) R'
            (ops ++ [OpStore key row; OpFieldUpsert key field (Some value)]) /\
          pg_redis_persistence_async_drain cfg 0 (n_shared w') = (Ret (Z.of_nat (length ops + 2)), x) /\
          pending_events (x_ring x) = [] /\
          x_db x = {| store := <[key := row]> (store d); hash_fields := <[(key, field) := Some value]> (hash_fields d);
                      list_items := list_items d |}
    end.
Proof.
  intros Ha Hb Hk Hf Hv Hq Hroom Hh Hfk Hrep Hlen Hord.
  destruct (hset_queues cfg action env clock ev0 fuel spin key field value w V R ops m ex Ha Hb Hk Hf Hv Hq Hroom Hh)
    as (r & w' & -> & Hdb & Hr). exists r, w'. split; [done|]. destruct r as [o|e]; [|done].
  destruct Hr as (-> & Hn & [Hidle _ _] & R' & version & Hq'). split; [done|]. split; [done|]. exists R', version.
  set (row := {| sr_type := _ |}) in *. pose proof (queue_decodes _ _ _ _ Hq') as Hdec.
  assert (Hl : length (pending_events (x_ring (n_shared w'))) = (length ops + 2)%nat).
  { apply mapM_Some, Forall2_length in Hdec. by rewrite Hdec, length_app. }
  assert (Hall : take (drain_size 0 (x_ring (n_shared w'))) (pending_events (x_ring (n_shared w'))) =
                 pending_events (x_ring (n_shared w'))).
  { apply take_ge. unfold drain_size. change (Z.to_nat (drain_batch_max 0)) with 1024%nat. lia. }
  destruct (idle_drain cfg (n_shared w') (ops ++ [OpStore key row; OpFieldUpsert key field (Some value)])
    {| store := <[key := row]> (store d); hash_fields := <[(key, field) := Some value]> (hash_fields d); list_items := list_items d |})
    as (x & E & _ & Hx & Hp & _); rewrite ?Hall; [by apply async_writes|done|lia|done| |].
  - apply drain_execute_replay; [by rewrite Hdb|apply Hord|]. by rewrite replay_app, Hdb, Hrep, <- replay_hset.
  - rewrite Hall, Hl in *. exists x. split; [done|]. split; [done|]. split; [|done]. rewrite Hp. apply drop_ge. lia.
Qed.
End Room.

(** ** A ring that stays full *)

(** The ring is between operations and its heads can take [n] more events before
    they wrap. *)
Definition ring_upto (n : Z) (h : Ring) : Prop := ring_idle h /\ ring_write_head h + n + 1 < 2 ^ 64.

Lemma publish_upto now ev n h :
  ring_upto (n + 1) h -> 0 <= n ->
  exists res h', pg_redis_dirty_ring_publish now ev h = Some (res, h') /\ ring_upto n h'.
Proof.
  intros [Hi Hh] Hn. destruct (pg_redis_dirty_ring_full h) eqn:Hf.
  - exists PG_REDIS_RING_FULL, h. split; [by apply idle_publish_full|]. split; [done|lia].
  - destruct (idle_publish_ok now ev h Hi Hf) as (h' & E & _ & Ec & Er & Ew & Hq & Hfree).
    exists PG_REDIS_RING_OK, h'. split; [done|]. split; [split; [done|done|lia]|lia].
Qed.

Lemma ring_upto_weaken n n' h : ring_upto n h -> n' <= n -> ring_upto n' h.
Proof. intros [? ?] ?. split; [done|lia]. Qed.

Section Block.
Context `{DsaAllocator} `{HashBytes} `{KeyspaceLimit}.
Context (cfg : Config) (env : Node -> Node) (clock : nat -> Z) (now : Z) (ev0 : PgRedisDirtyEvent).

Abbreviation ring_of w := (x_ring (n_shared w)).

Lemma publish_all_upto cs : forall ev w n,
  ring_upto (n + Z.of_nat (length cs)) (ring_of w) -> 0 <= n ->
  exists r w', publish_all now ev cs w = Some (r, w') /\ ring_upto n (ring_of w').
Proof.
  induction cs as [|c cs IH]; intros ev w n Hr Hn.
  { do 2 eexists. split; [done|]. cbn in Hr. by rewrite Z.add_0_r in Hr. }
  cbn [publish_all length] in *. unfold publish_once.
  destruct (encode_change ev c (x_dsa (n_shared w))) as [[ev'|e] area].
  2:{ do 2 eexists. split; [done|]. cbn. eapply ring_upto_weaken; [done|lia]. }
  cbn [set_dsa x_ring].
  destruct (publish_upto now ev' (n + Z.of_nat (length cs)) (ring_of w)) as (res & h' & -> & Hr'); [|lia|].
  { eapply ring_upto_weaken; [done|lia]. }
  destruct res; [by apply IH|]. do 2 eexists. split; [done|]. cbn. eapply ring_upto_weaken; [done|lia].
Qed.

(** Other processes leave the ring between operations and publish at most [K]
    events while a call waits. *)
Context (K : Z) (Henv : forall n w, 0 <= n -> ring_upto (n + K) (ring_of w) -> ring_upto n (ring_of (env w))).
Context (HK : 0 <= K).

Abbreviation BLOCK := PG_REDIS_ASYNC_FULL_BLOCK.

(** The wait before attempt [S spin]. *)
Lemma block_wait spin w n :
  ring_upto (n + K) (ring_of w) -> 0 <= n ->
  handle_ring_full_after_unlock cfg BLOCK env spin w =
    (if (100 <=? S spin)%nat then Raise ERRCODE_INSUFFICIENT_RESOURCES else Ret (S spin), env w) /\
  ring_upto n (ring_of (env w)).
Proof.
  intros Hr Hn. split; [|by apply Henv]. unfold handle_ring_full_after_unlock. by destruct (100 <=? S spin)%nat.
Qed.

Lemma hset_block_loop key field value : forall left i spin w,
  (spin + left = 100)%nat -> (0 < left)%nat -> ring_upto (Z.of_nat left * (K + 2)) (ring_of w) ->
  exists r w', pg_redis_shared_hash_set_atomic cfg BLOCK env clock now ev0 left i spin key field value w = Some (r, w') /\
    ring_upto 0 (ring_of w').
Proof.
  induction left as [|left IH]; intros i spin w Hs Hl Hr; [lia|]. cbn [pg_redis_shared_hash_set_atomic].
  assert (Hz : ring_upto 0 (ring_of w)) by (eapply ring_upto_weaken; [done|nia]).
  unfold on_store. destruct (apply_hset (clock i) key field value (n_store w)) as [[[ty|[was_new se]]|e] s1]; [eauto| |eauto].
  destruct (async_mode cfg); [|eauto].
  destruct (publish_all_upto (hset_changes key field value se) ev0 (put_store s1 w) (Z.of_nat left * (K + 2) + K))
    as (r & w2 & -> & Hr2); [unfold hset_changes; cbn [length]; eapply ring_upto_weaken; [exact Hr|nia]|nia|].
  assert (H2 : ring_upto 0 (ring_of w2)) by (eapply ring_upto_weaken; [done|nia]).
  destruct r as [[]|e]; [by do 2 eexists| |by do 2 eexists].
  destruct (block_wait spin w2 (Z.of_nat left * (K + 2)) Hr2 ltac:(nia)) as [-> Hr3].
  destruct (Nat.leb_spec 100 (S spin)) as [Hge|Hlt].
  - do 2 eexists. split; [done|]. eapply ring_upto_weaken; [exact Hr3|nia].
  - apply IH; [lia|lia|done].
Qed.

Lemma hdel_block_loop ev : forall left spin w,
  (spin + left = 100)%nat -> (0 < left)%nat -> ring_upto (Z.of_nat left * (K + 2)) (ring_of w) ->
  exists r w', publish_event_under_lock cfg BLOCK env now left spin ev w = Some (r, w') /\ ring_upto 0 (ring_of w').
Proof.
  induction left as [|left IH]; intros spin w Hs Hl Hr; [lia|]. cbn [publish_event_under_lock].
  destruct (publish_upto now ev (Z.of_nat left * (K + 2) + K) (ring_of w)) as (res & h' & -> & Hr');
    [eapply ring_upto_weaken; [done|nia]|nia|].
  destruct res; [do 2 eexists; split; [done|]; cbn; eapply ring_upto_weaken; [done|nia]|].
  destruct (block_wait spin (put_shared (set_ring h' (n_shared w)) w) (Z.of_nat left * (K + 2)) Hr' ltac:(nia)) as [-> Hr3].
  destruct (Nat.leb_spec 100 (S spin)) as [Hge|Hlt].
  - do 2 eexists. split; [done|]. eapply ring_upto_weaken; [exact Hr3|nia].
  - apply IH; [lia|lia|done].
Qed.

End Block.

(** ** Witnesses and runs *)

#[local] Instance any_size' : KeyspaceLimit := fun _ => true.
#[local] Instance length_hash' : HashBytes := fun b => blen b.
#[local] Instance bump' : DsaAllocator := bump_allocator 100000.
#[local] Instance bump_laws' : DsaLaws := bump_laws 100000.

Lemma ring_init_room n : 2 <= Z.of_nat n < 2 ^ 32 -> ring_room 2 (pg_redis_dirty_ring_shmem_init n).
Proof.
  intros Hn. assert (Hc : ring_capacity (pg_redis_dirty_ring_shmem_init n) = Z.of_nat n)
    by (unfold ring_capacity; cbn; by rewrite length_replicate).
  split; rewrite ?Hc; cbn; try lia. split; [split; rewrite ?Hc; cbn; try lia|intros pos _; apply slot_init|cbn; lia].
Qed.

Lemma hset_reaches_tables_witness :
  exists r w', pg_redis_shared_hash_set_atomic async_config PG_REDIS_ASYNC_FULL_BLOCK id (fun _ => 0) 0 zero_event 1 0 0
      (bs "h") (bs "f") (bs "v") (node_of 4) = Some (r, w') /\
    match r with
    | Raise e => mem_error e
    | Ret o => o = PG_REDIS_FAST_HASH_MUTATE_OK_NEW /\
        exists x, pg_redis_persistence_async_drain async_config 0 (n_shared w') = (Ret 2, x) /\
          hash_fields (x_db x) = {[ (bs "h", bs "f") := Some (bs "v") ]}
    end.
Proof.
  destruct (hset_reaches_tables 0 async_config PG_REDIS_ASYNC_FULL_BLOCK id (fun _ => 0) zero_event 0 0
    (bs "h") (bs "f") (bs "v") (node_of 4) ∅ ∅ [] ∅ None db_empty) as (r & w' & E & Hr).
  - vm_compute. reflexivity.
  - vm_compute. reflexivity.
  - vm_compute. discriminate.
  - vm_compute. discriminate.
  - vm_compute. discriminate.
  - split; [apply empty_store|vm_compute; reflexivity].
  - apply (ring_init_room 4). split; vm_compute; [discriminate|reflexivity].
  - reflexivity.
  - split; intros k y v Hy; discriminate Hy.
  - reflexivity.
  - cbn. lia.
  - intros row. reflexivity.
  - exists r, w'. split; [exact E|]. destruct r as [o|e]; [|exact Hr]. destruct Hr as (-> & _ & R' & version & x & _ & Ed & _ & Hx).
    split; [reflexivity|]. exists x. split; [exact Ed|]. rewrite Hx. reflexivity.
Defined.

(** A ring of one slot that is taken. *)
Definition full_node : Node :=
  {| n_keyspace := Some ∅; n_producer := {| p_shared := full_shared; async_published_in_xact := 0 |} |}.

Definition hset_full (action : PgRedisAsyncFullAction) (w : Node) : option (outcome PgRedisFastHashMutateOutcome * Node) :=
  pg_redis_shared_hash_set_atomic async_config action id (fun _ => 0) 0 zero_event 100 0 0 (bs "k") (bs "g") (bs "v") w.


Definition get_field (w : Node) : PgRedisFastHashOutcome :=
  match pg_redis_shared_hash_lookup_field 0 (bs "k") (bs "g") true (n_store w) with
  | (Ret o, _) => o
  | _ => PG_REDIS_FAST_HASH_KEY_MISS
  end.

(** An HSET that is refused is still applied.  Under 'block' with a ring that
    stays full, HSET on the shared keyspace raises insufficient_resources, and
    the field it set is there for every other session, with no event for it in
    the queue. *)
Example refused_hset_stays :
  match hset_full PG_REDIS_ASYNC_FULL_BLOCK full_node with
  | Some (Raise e, w) => e = ERRCODE_INSUFFICIENT_RESOURCES /\ get_field full_node = PG_REDIS_FAST_HASH_KEY_MISS /\
      get_field w = PG_REDIS_FAST_HASH_HIT (bs "v") /\
      pending_events (x_ring (n_shared w)) = pending_events (x_ring (n_shared full_node))
  | _ => False
  end.
Proof. vm_compute. repeat split. Qed.

(** An HSET that had to retry reports an overwrite.  A ring of two slots with
    one taken, 'sync_flush': the first attempt sets the new field and publishes
    the parent row only; the second attempt, after the drain, finds the field its
    own first attempt set, and HSET answers that the field was there. *)
Example retried_hset_reports_overwrite :
  let x := {| x_ring := match pg_redis_dirty_ring_publish 0 demo_event (pg_redis_dirty_ring_shmem_init 2) with
                        | Some (_, h) => h | None => pg_redis_dirty_ring_shmem_init 2 end;
              x_dsa := Some ∅; x_db := demo_tables |} in
  let w0 := {| n_keyspace := Some ∅; n_producer := {| p_shared := x; async_published_in_xact := 0 |} |} in
  match hset_full PG_REDIS_ASYNC_FULL_SYNC_FLUSH w0 with
  | Some (Ret o, w) => get_field w0 = PG_REDIS_FAST_HASH_KEY_MISS /\ o = PG_REDIS_FAST_HASH_MUTATE_OK_OVERWRITE
  | _ => False
  end.
Proof. vm_compute. repeat split. Qed.
