(* ===== verification/SharedMode.v ===== *)
(** * The commands on the shared keyspace (src/kv_store.c, shared branch)

    The entry points of kv_store.h in shared mode, as an instance of the
    interface the commands of Commands.v are written against.  A lookup hands
    out a private scratch copy; its pointer is an index into the copies of the
    session, which live until the statement ends.  The keyspace has been loaded
    and the area attached.  [clock] gives the successive readings of
    [GetCurrentTimestamp()]; [fuel] bounds the attempts of one publish, and a
    publish that needs more is cut short. *)
From S2P Require Import Prelude Types Utils ListValue HashValue StoreInterface KvStore Commands SharedMem SharedHash.
From S2P Require Import SharedStore DirtyEvent DirtyRing AsyncDrain AsyncPublish SharedAtomic.

Record SharedSession := {
  sn_node : Node;
  sn_scratch : list (bytes * PgRedisEntry);
  sn_readings : nat
}.

Definition on_node {A} (m : M Node A) : M SharedSession A := fun s =>
  let '(r, w) := m (sn_node s) in
  (r, {| sn_node := w; sn_scratch := sn_scratch s; sn_readings := sn_readings s |}).

Section SharedMode.
Context `{DsaAllocator} `{HashBytes} `{KeyspaceLimit}.
Context (cfg : Config) (action : PgRedisAsyncFullAction) (env : Shared -> Shared) (node_env : Node -> Node).
Context (ev0 : PgRedisDirtyEvent) (fuel : nat) (clock : nat -> Z).

Definition tick (n : nat) (s : SharedSession) : SharedSession :=
  {| sn_node := sn_node s; sn_scratch := sn_scratch s; sn_readings := (sn_readings s + n)%nat |}.

Definition shared_now : M SharedSession Z := fun s => (Ret (clock (sn_readings s)), tick 1 s).

(** The clock is read only for an entry that has an expiry. *)
Definition has_expire_at (key : bytes) (s : SharedSession) : bool :=
  match n_keyspace (sn_node s) with
  | Some ks => from_option se_has_expire false (ks !! key)
  | None => false
  end.
Definition now_for (key : bytes) : M SharedSession Z := fun s =>
  if has_expire_at key s then shared_now s else (Ret 0, s).

(** A palloc'd copy. *)
Definition new_scratch (key : bytes) (e : PgRedisEntry) : M SharedSession nat := fun s =>
  (Ret (length (sn_scratch s)),
   {| sn_node := sn_node s; sn_scratch := sn_scratch s ++ [(key, e)]; sn_readings := sn_readings s |}).

Definition shared_lookup_raw (key : bytes) : M SharedSession (option nat) :=
  oe ← on_node (on_store (pg_redis_shared_store_lookup_raw key));
  match oe with
  | None => mret None
  | Some e => r ← new_scratch key e; mret (Some r)
  end.

Definition shared_upsert (key : bytes) : M SharedSession (nat * bool) :=
  now ← now_for key;
  x ← on_node (on_store (pg_redis_shared_store_upsert now key));
  r ← new_scratch key x.1;
  mret (r, x.2).

Definition shared_read (r : nat) : M SharedSession (bytes * PgRedisEntry) := fun s =>
  match sn_scratch s !! r with
  | Some x => (Ret x, s)
  | None => (Raise SEGMENTATION_FAULT, s)
  end.

Definition shared_write_scratch (r : nat) (e : PgRedisEntry) : M SharedSession unit := fun s =>
  (Ret tt, {| sn_node := sn_node s; sn_scratch := alter (fun x => (x.1, e)) r (sn_scratch s);
              sn_readings := sn_readings s |}).

(** A publisher of AsyncPublish.v on the node. *)
Definition publishing {A} (m : P A) : M Node A := fun w =>
  match m (n_producer w) with
  | Some (r, p) => (r, {| n_keyspace := n_keyspace w; n_producer := p |})
  | None => (Raise NO_RESULT, w)
  end.

(** [pg_redis_mark_dirty] in shared mode: the writeback, then the events. *)
Definition shared_mark_dirty (r : nat) : M SharedSession unit :=
  x ← shared_read r;
  on_node (on_store (pg_redis_shared_store_writeback x.1 x.2)) ;;
  if async_mode cfg then
    now ← shared_now;
    e' ← on_node (publishing (mark_dirty_publish cfg action env now ev0 fuel x.1 x.2));
    shared_write_scratch r e'
  else mret tt.

(** A retry loop on the node; its attempts read the clock in turn. *)
Definition looping {A} (m : (nat -> Z) -> Z -> Node -> option (outcome A * Node)) : M SharedSession A := fun s =>
  let s' := tick (S fuel) s in
  match m (fun i => clock (sn_readings s + i)%nat) (clock (sn_readings s)) (sn_node s) with
  | Some (r, w) => (r, {| sn_node := w; sn_scratch := sn_scratch s'; sn_readings := sn_readings s' |})
  | None => (Raise NO_RESULT, s')
  end.

Definition shared_fast_hash : FastHashOps SharedSession := {|
  fast_lookup_field key field want :=
    now ← now_for key; on_node (on_store (pg_redis_shared_hash_lookup_field now key field want));
  fast_set_atomic key field value :=
    looping (fun clk now => pg_redis_shared_hash_set_atomic cfg action node_env clk now ev0 fuel 0 0 key field value);
  fast_del_atomic key field :=
    looping (fun clk now => pg_redis_shared_hash_del_atomic cfg action node_env clk now ev0 fuel key field)
|}.

#[export] Instance shared_ops : StoreOps SharedSession nat := {|
  op_now := shared_now;
  op_ensure_loaded := mret tt;
  op_lookup_raw := shared_lookup_raw;
  op_upsert := shared_upsert;
  op_remove key := on_node (on_store (pg_redis_shared_store_remove key));
  op_read r := x ← shared_read r; mret x.2;
  op_write := shared_write_scratch;
  op_mark_dirty := shared_mark_dirty;
  op_fast_hash := Some shared_fast_hash
|}.
End SharedMode.
