(* ===== verification/SharedCommands.v ===== *)
(** * Commands in shared mode: what SET, GET, EXPIRE and DEL do *)
From S2P Require Import Prelude Types Utils ListValue HashValue StoreInterface KvStore Commands Db Persistence SharedMem SharedHash.
From S2P Require Import SharedStore SharedStoreSpec SharedStoreOps DirtyEvent DirtyRing RingProtocol AsyncDrain AsyncPublish.
From S2P Require Import SharedAtomic SharedAtomicSpec SharedStoreRefine SharedMode.

Section Laws.
Context `{DsaAllocator} `{HashBytes} `{KeyspaceLimit} `{!DsaLaws}.
Context (cfg : Config) (action : PgRedisAsyncFullAction) (env : Shared -> Shared) (node_env : Node -> Node).
Context (ev0 : PgRedisDirtyEvent) (fuel : nat) (clock : nat -> Z).

#[local] Instance ops : StoreOps SharedSession nat := shared_ops cfg action env node_env ev0 fuel clock.

(** The keyspace a session sees, and the heap beside it. *)
Definition shows (s : SharedSession) (V : gmap bytes AEntry) (R : Heap) : Prop := store_repr (n_store (sn_node s)) V R.

Definition valid_key (k : bytes) : Prop := pg_redis_check_key_len cfg (blen k) = (mret tt : M SharedSession unit).

(** A store operation on the node of the session. *)
Lemma on_node_store {A} (m : M SharedStore A) s r st :
  m (n_store (sn_node s)) = (r, st) ->
  exists s', on_node (on_store m) s = (r, s') /\ n_store (sn_node s') = st /\
    sn_scratch s' = sn_scratch s /\ sn_readings s' = sn_readings s /\ outside (sn_node s') = outside (sn_node s).
Proof.
  intros E. unfold on_node, on_store. rewrite E. eexists. split; [done|]. cbn [sn_node sn_scratch sn_readings].
  destruct (put_store_eq st (sn_node s)) as [-> ->]. done.
Qed.

Lemma lookup_raw_law s V R k :
  shows s V R ->
  exists r s', op_lookup_raw k s = (Ret r, s') /\ shows s' V R /\ sn_readings s' = sn_readings s /\
    outside (sn_node s') = outside (sn_node s) /\
    match V !! k with
    | None => r = None
    | Some a => exists e, r = Some (length (sn_scratch s)) /\ scratch_for e a /\
        sn_scratch s' = sn_scratch s ++ [(k, e)]
    end.
Proof.
  intros Hs. cbn [op_lookup_raw ops shared_ops]. unfold shared_lookup_raw.
  destruct (lookup_raw_spec _ V R k Hs) as (oe & E & Hoe).
  destruct (on_node_store _ _ _ _ E) as (s1 & E1 & Hn & Hsc & Hrd & Ho). rewrite (bind_Ret _ _ _ _ _ E1).
  destruct Hoe as [e a He|].
  - rewrite bind_unfold. cbn [new_scratch]. eexists _, _. split; [done|]. unfold shows. cbn. rewrite Hn, Hsc. eauto 8.
  - eexists _, _. split; [done|]. unfold shows. by rewrite Hn.
Qed.

Lemma remove_law s V R k :
  shows s V R ->
  exists s', op_remove k s = (Ret (bool_decide (is_Some (V !! k))), s') /\ shows s' (delete k V) R /\
    sn_scratch s' = sn_scratch s /\ sn_readings s' = sn_readings s /\ outside (sn_node s') = outside (sn_node s).
Proof.
  intros Hs. destruct (shared_remove_spec _ V R k Hs) as (st & E & Hr).
  destruct (on_node_store _ _ _ _ E) as (s1 & E1 & Hn & Hx). exists s1. split; [exact E1|].
  unfold shows. by rewrite Hn.
Qed.

(** [pg_redis_store_lookup]: lazy eviction at the clock of the call. *)
Lemma lookup_law s V R k :
  shows s V R ->
  exists r s', pg_redis_store_lookup k s = (Ret r, s') /\ outside (sn_node s') = outside (sn_node s) /\
    if shared_expired (clock (sn_readings s)) V k then r = None /\ shows s' (delete k V) R
    else shows s' V R /\
      match V !! k with
      | None => r = None
      | Some a => exists e n, r = Some n /\ scratch_for e a /\ sn_scratch s' !! n = Some (k, e)
      end.
Proof.
  intros Hs. unfold pg_redis_store_lookup. destruct (lookup_raw_law s V R k Hs) as (r & s1 & E & Hs1 & Hrd & Ho & Hr).
  rewrite (bind_Ret _ _ _ _ _ E). unfold shared_expired. destruct (V !! k) as [a|] eqn:Ha.
  2:{ subst r. eexists _, _. split; [done|]. done. }
  destruct Hr as (e & -> & He & Hsc).
  assert (Hl : sn_scratch s1 !! length (sn_scratch s) = Some (k, e)) by (by rewrite Hsc, lookup_app_r, Nat.sub_diag).
  assert (Er : op_read (length (sn_scratch s)) s1 = (Ret e, s1)).
  { cbn [op_read ops shared_ops]. rewrite bind_unfold. unfold shared_read. by rewrite Hl. }
  rewrite (bind_Ret _ _ _ _ _ Er). unfold entry_is_expired.
  assert (Hx : a_expired (clock (sn_readings s)) a = e_has_expire e && (e_expire_at e <=? clock (sn_readings s)))
    by (by rewrite entry_view_expired, (sf_view _ _ He)).
  rewrite Hx.
  destruct (e_has_expire e); cbn [negb andb].
  - rewrite bind_assoc, bind_unfold. cbn [op_now ops shared_ops shared_now]. rewrite Hrd, bind_unfold.
    destruct (_ <=? _) eqn:Hle.
    + destruct (remove_law (tick 1 s1) V R k Hs1) as (s2 & E2 & Hs2 & _ & _ & Ho2). cbn [mret M_ret]. rewrite (bind_Ret _ _ _ _ _ E2).
      do 2 eexists. split; [done|]. rewrite Ho2. done.
    + do 2 eexists. split; [done|]. split; [done|]. split; [done|]. by exists e, (length (sn_scratch s)).
  - do 2 eexists. split; [done|]. split; [done|]. split; [done|]. by exists e, (length (sn_scratch s)).
Qed.

Lemma key_arg_law {A} (k : bytes) (f : bytes -> M SharedSession A) s :
  valid_key k -> (key_arg cfg k ≫= f) s = f k s.
Proof. intros Hk. unfold key_arg, pg_redis_text_to_cstring_stack. rewrite Hk. done. Qed.

Lemma read_law s r k e : sn_scratch s !! r = Some (k, e) -> op_read r s = (Ret e, s).
Proof. intros Hl. cbn [op_read ops shared_ops]. rewrite bind_unfold. unfold shared_read. by rewrite Hl. Qed.

(** In shared mode DEL is not persisted.  In every persistence mode, the
    asynchronous one included, DEL of a key answers whether it was there and
    removes exactly that key from the shared keyspace, and neither publishes an
    event nor touches the tables: the key's row stays. *)
Theorem shared_del_not_persisted (key : bytes) (s : SharedSession) (V : gmap bytes AEntry) (R : Heap) :
  shows s V R -> valid_key key ->
  exists s', pg_redis_del cfg key s = (Ret (bool_decide (is_Some (V !! key))), s') /\
    shows s' (delete key V) R /\ outside (sn_node s') = outside (sn_node s).
Proof.
  intros Hs Hk. unfold pg_redis_del. rewrite bind_unfold. cbn [op_ensure_loaded ops shared_ops mret M_ret].
  rewrite (key_arg_law key) by done. destruct (remove_law s V R key Hs) as (s' & E & Hs' & _ & _ & Ho). eauto.
Qed.

Hypothesis Hmode : async_mode cfg = false.

(** The writeback of a scratch, when nothing is published. *)
Lemma mark_dirty_law s r k e st res :
  sn_scratch s !! r = Some (k, e) ->
  pg_redis_shared_store_writeback k e (n_store (sn_node s)) = (res, st) ->
  exists s', op_mark_dirty r s = (res, s') /\ n_store (sn_node s') = st /\ sn_readings s' = sn_readings s.
Proof.
  intros Hl E. cbn [op_mark_dirty ops shared_ops]. unfold shared_mark_dirty. rewrite bind_unfold. unfold shared_read at 1.
  rewrite Hl. cbn [fst snd]. destruct (on_node_store _ _ _ _ E) as (s1 & E1 & Hn & _ & Hrd & _).
  rewrite bind_unfold, E1, Hmode. exists s1. by destruct res as [[]|].
Qed.


(** The upsert hands out a scratch; only the key itself may have become fresh. *)
Lemma upsert_law s V R k :
  shows s V R ->
  match op_upsert k s with
  | (Ret (r, _), s') => exists e V1, sn_scratch s' !! r = Some (k, e) /\ shows s' V1 R /\
      delete k V1 = delete k V /\ V1 !! k <> None
  | (Raise err, _) => err = ERRCODE_OUT_OF_MEMORY
  end.
Proof.
  intros Hs. cbn [op_upsert ops shared_ops]. unfold shared_upsert. rewrite bind_unfold.
  assert (exists now s0, now_for clock k s = (Ret now, s0) /\ sn_node s0 = sn_node s) as (now & s0 & -> & E0).
  { unfold now_for, shared_now. destruct (has_expire_at k s); by do 2 eexists. }
  assert (Hs0 : shows s0 V R) by (unfold shows; by rewrite E0). rewrite bind_unfold.
  destruct (shared_upsert_spec now _ V R k Hs0) as [[E _]|(e & is_new & st & E & _ & Hx)];
    destruct (on_node_store _ _ _ _ E) as (s1 & -> & Hn & _); [done|].
  rewrite bind_unfold. cbn [new_scratch fst snd mret M_ret].
  assert (exists V1, store_repr st V1 R /\ delete k V1 = delete k V /\ V1 !! k <> None) as (V1 & Hr1 & Hd & Hin).
  { destruct (_ || _).
    - eexists. split; [apply Hx|]. by rewrite delete_insert_eq, lookup_insert_eq.
    - exists V. destruct Hx as [(a & -> & _) Hx]. done. }
  exists e, V1. cbn [sn_scratch]. split; [by rewrite lookup_app_r, Nat.sub_diag|].
  unfold shows. cbn [sn_node]. by rewrite Hn.
Qed.

Definition valid_value (v : bytes) : Prop := pg_redis_check_value_len cfg (blen v) = (mret tt : M SharedSession unit).

(** What GET answers for a string. *)
Definition string_reply (v : bytes) : option bytes := match v with [] => None | _ => Some v end.

End Laws.

(** ** Witnesses *)

#[local] Instance w_size : KeyspaceLimit := fun _ => true.
#[local] Instance w_hash : HashBytes := fun b => blen b.
#[local] Instance w_dsa : DsaAllocator := bump_allocator 100000.
#[local] Instance w_laws : DsaLaws := bump_laws 100000.

Definition demo_session : SharedSession := {| sn_node := node_of 4; sn_scratch := []; sn_readings := 0 |}.

Definition w_ops (cfg : Config) : StoreOps SharedSession nat :=
  shared_ops cfg PG_REDIS_ASYNC_FULL_BLOCK id id zero_event 100 (fun n => Z.of_nat n).

Lemma demo_shows : shows demo_session ∅ ∅.
Proof. apply empty_store. Qed.



Lemma shared_del_not_persisted_witness :
  exists s', @pg_redis_del async_config _ _ (w_ops async_config) (bs "k") demo_session = (Ret false, s') /\
    shows s' (delete (bs "k") ∅) ∅ /\ outside (sn_node s') = outside (node_of 4).
Proof.
  exact (shared_del_not_persisted async_config PG_REDIS_ASYNC_FULL_BLOCK id id zero_event 100 (fun n => Z.of_nat n)
    (bs "k") demo_session ∅ ∅ demo_shows eq_refl).
Defined.

(** SET, EXPIRE and TTL in a row: the expiry is not there. *)
Example shared_expire_then_ttl :
  let _ := w_ops quiet_config in
  fst ((pg_redis_set quiet_config (bs "k") (bs "v") ;;
        ok ← pg_redis_expire quiet_config (bs "k") 100;
        ttl ← pg_redis_ttl quiet_config (bs "k");
        mret (ok, ttl)) demo_session) = Ret (true, -1).
Proof. vm_compute. reflexivity. Qed.

(** SET and DEL with asynchronous persistence: only the upsert is queued. *)
Example del_queues_nothing :
  let _ := w_ops async_config in
  let s := snd ((pg_redis_set async_config (bs "k") (bs "v") ;; pg_redis_del async_config (bs "k")) demo_session) in
  ev_type <$> pending_events (x_ring (n_shared (sn_node s))) = [PG_REDIS_EVENT_KEY_UPSERT].
Proof. vm_compute. reflexivity. Qed.
