(* ===== verification/ColdStart.v ===== *)
(** * Who loads the shared keyspace (src/persistence.c)

    In shared mode [pg_redis_persistence_load_if_needed] elects one backend to
    load the tables, by compare-and-swap on [loaded] (0 unloaded, 1 loading,
    2 loaded), with a watchdog that takes the role from a loader stuck for 30
    seconds.  Each backend is a machine with one transition per access to the
    shared header; any number of them interleave.  The load itself succeeds,
    fails, or kills the backend (a FATAL exit runs no handler). *)
From S2P Require Import Prelude Types DirtyRing.

Record LoadHeader := { loaded : Z; last_load_attempt : Z }.

Definition PG_REDIS_LOAD_WATCHDOG_MS : Z := 30000.

Inductive LoadState :=
| L_Read                       (* about to read loaded *)
| L_Cas                        (* saw 0; about to CAS 0 -> 1 *)
| L_Stamp                      (* elected; about to write last_load_attempt *)
| L_Load                       (* running the load *)
| L_Finish                     (* loaded; about to write 2 *)
| L_Reset                      (* failed; about to write 0 *)
| L_Watch                      (* saw 1; about to read last_load_attempt *)
| L_Steal                      (* timed out; about to CAS 1 -> 0 *)
| L_Wait                       (* about to wait 10 ms *)
| L_Return                     (* returned with persistence_loaded set *)
| L_Raise                      (* an error was raised *)
| L_Dead.

#[export] Instance LoadState_eq_dec : EqDecision LoadState.
Proof. solve_decision. Defined.

Definition set_loaded_flag (v : Z) (h : LoadHeader) : LoadHeader :=
  {| loaded := v; last_load_attempt := last_load_attempt h |}.

(** How the load, or the wait, of a backend ends. *)
Inductive Ending := E_Ok | E_Error | E_Killed.

(** One transition at clock [now]. *)
Definition load_step (now : Z) (ending : Ending) (pc : LoadState) (h : LoadHeader) : LoadState * LoadHeader :=
  match pc with
  | L_Read => ((if loaded h =? 2 then L_Return else if loaded h =? 0 then L_Cas else L_Watch), h)
  | L_Cas => if loaded h =? 0 then (L_Stamp, set_loaded_flag 1 h) else (L_Read, h)
  | L_Stamp => (L_Load, {| loaded := loaded h; last_load_attempt := now |})
  | L_Load => (match ending with E_Ok => L_Finish | E_Error => L_Reset | E_Killed => L_Dead end, h)
  | L_Finish => (L_Return, set_loaded_flag 2 h)
  | L_Reset => (L_Raise, set_loaded_flag 0 h)
  | L_Watch =>
      (if negb (last_load_attempt h =? 0) &&
          TimestampDifferenceExceeds (last_load_attempt h) now PG_REDIS_LOAD_WATCHDOG_MS
       then L_Steal else L_Wait, h)
  | L_Steal => if loaded h =? 1 then (L_Read, set_loaded_flag 0 h) else (L_Wait, h)
  | L_Wait => (match ending with E_Ok => L_Read | E_Error => L_Raise | E_Killed => L_Dead end, h)
  | L_Return | L_Raise | L_Dead => (pc, h)
  end.

(** ** Any number of backends *)

(** [loads] counts the loads that ran to their end. *)
Record LoadWorld := { lw_header : LoadHeader; lw_pcs : gmap nat LoadState; lw_loads : nat }.

Definition cold_world (backends : list nat) : LoadWorld :=
  {| lw_header := {| loaded := 0; last_load_attempt := 0 |};
     lw_pcs := list_to_map ((fun p => (p, L_Read)) <$> backends); lw_loads := 0 |}.

(** A live backend between its election and its last write. *)
Definition loading (pc : LoadState) : bool :=
  match pc with L_Stamp | L_Load | L_Finish | L_Reset => true | _ => false end.

Definition move (p : nat) (now : Z) (ending : Ending) (pc : LoadState) (w : LoadWorld) : LoadWorld :=
  let '(pc', h') := load_step now ending pc (lw_header w) in
  {| lw_header := h'; lw_pcs := <[p := pc']> (lw_pcs w);
     lw_loads := if bool_decide (pc = L_Load /\ pc' = L_Finish) then S (lw_loads w) else lw_loads w |}.

Definition any_loading (w : LoadWorld) : Prop := exists p pc, lw_pcs w !! p = Some pc /\ loading pc = true.

Inductive load_moves : LoadWorld -> LoadWorld -> Prop :=
| load_move p now ending pc w : 0 < now -> lw_pcs w !! p = Some pc -> load_moves w (move p now ending pc w).

(** The moves of backends whose watchdog only takes the role from a loader that
    is gone. *)
Inductive timely_moves : LoadWorld -> LoadWorld -> Prop :=
| timely_move p now ending pc w : 0 < now -> lw_pcs w !! p = Some pc ->
    (pc = L_Steal -> loaded (lw_header w) = 1 -> ~ any_loading w) ->
    timely_moves w (move p now ending pc w).

(** ** One loader *)

(** Finished loads, by the flag. *)
Definition loads_of (v : Z) : nat := if v =? 2 then 1%nat else 0%nat.

Record load_inv (w : LoadWorld) : Prop := {
  li_one : forall p q pc qc, lw_pcs w !! p = Some pc -> lw_pcs w !! q = Some qc ->
    loading pc = true -> loading qc = true -> p = q;
  li_flag : any_loading w -> loaded (lw_header w) = 1;
  li_range : loaded (lw_header w) = 0 \/ loaded (lw_header w) = 1 \/ loaded (lw_header w) = 2;
  li_return : forall p, lw_pcs w !! p = Some L_Return -> loaded (lw_header w) = 2;
  li_loads : lw_loads w = loads_of (loaded (lw_header w)) /\
               (forall p, lw_pcs w !! p <> Some L_Finish) \/
             lw_loads w = 1%nat /\ loaded (lw_header w) = 1 /\ exists p, lw_pcs w !! p = Some L_Finish
}.

Lemma cold_world_inv backends : load_inv (cold_world backends).
Proof.
  assert (Hr : forall p pc, lw_pcs (cold_world backends) !! p = Some pc -> pc = L_Read).
  { intros p pc Hp. cbn in Hp. apply elem_of_list_to_map_2, list_elem_of_fmap in Hp as (q & [= -> ->] & _). done. }
  split; cbn -[lw_pcs].
  - intros p q pc qc Hp%Hr _ Hl. by subst.
  - intros (p & pc & Hp%Hr & Hl). by subst.
  - by left.
  - intros p Hp%Hr. done.
  - left. split; [done|]. intros p Hp%Hr. done.
Qed.

(** A backend that is not loading, and does not start to, moves without
    touching the flag. *)
Lemma idle_move_inv w p pc pc' :
  load_inv w -> lw_pcs w !! p = Some pc -> loading pc = false -> loading pc' = false ->
  (pc' = L_Return -> loaded (lw_header w) = 2) ->
  load_inv {| lw_header := lw_header w; lw_pcs := <[p := pc']> (lw_pcs w); lw_loads := lw_loads w |}.
Proof.
  intros [H1 H2 H3 H4 H5] Hp Hl Hl' Hret.
  assert (Hold : forall q qc, <[p := pc']> (lw_pcs w) !! q = Some qc -> loading qc = true -> lw_pcs w !! q = Some qc).
  { intros q qc. rewrite lookup_insert. case_decide; [|done]. intros [= <-]. congruence. }
  split; cbn.
  - intros q r qc rc Hq Hr Hlq Hlr. eauto.
  - intros (q & qc & Hq & Hlq). apply H2. exists q, qc. eauto.
  - done.
  - intros q. rewrite lookup_insert. case_decide; [intros [= ->]; by apply Hret|apply H4].
  - assert (Hf : forall q, <[p := pc']> (lw_pcs w) !! q = Some L_Finish <-> lw_pcs w !! q = Some L_Finish).
    { intros q. rewrite lookup_insert. case_decide; [subst q|done]. rewrite Hp.
      split; intros [= ->]; done. }
    destruct H5 as [[? Hn]|(? & ? & q & Hq)]; [left|right]; split_and!; try done.
    + intros q Hq%Hf. by apply (Hn q).
    + exists q. by apply Hf.
Qed.

(** The only backend that may be loading moves; no one has returned yet. *)
Lemma solo_move_inv w p pc' h' n :
  load_inv w -> loaded (lw_header w) <> 2 ->
  (forall q qc, q <> p -> lw_pcs w !! q = Some qc -> loading qc = false) ->
  (loading pc' = true -> loaded h' = 1) -> loaded h' = 0 \/ loaded h' = 1 \/ loaded h' = 2 ->
  (pc' = L_Return -> loaded h' = 2) ->
  n = loads_of (loaded h') /\ pc' <> L_Finish \/ n = 1%nat /\ loaded h' = 1 /\ pc' = L_Finish ->
  load_inv {| lw_header := h'; lw_pcs := <[p := pc']> (lw_pcs w); lw_loads := n |}.
Proof.
  intros [H1 H2 H3 H4 H5] Hn Hsolo Hl Hr Hret Hloads.
  assert (Hp : forall q qc, <[p := pc']> (lw_pcs w) !! q = Some qc -> loading qc = true -> q = p /\ qc = pc').
  { intros q qc. rewrite lookup_insert. case_decide; [by intros [= <-]|]. intros Hq Hlq.
    rewrite (Hsolo q qc) in Hlq by done. done. }
  split; cbn.
  - intros q r qc rc Hq Hr' Hlq Hlr. destruct (Hp q qc Hq Hlq), (Hp r rc Hr' Hlr). congruence.
  - intros (q & qc & Hq & Hlq). destruct (Hp q qc Hq Hlq) as [-> ->]. by apply Hl.
  - done.
  - intros q. rewrite lookup_insert. case_decide; [intros [= ->]; by apply Hret|]. intros Hq%H4. congruence.
  - destruct Hloads as [[-> Hf]|(-> & Hf & ->)]; [left|right]; (split; [done|]).
    + intros q Hq. by destruct (Hp q _ Hq eq_refl).
    + split; [done|]. exists p. apply lookup_insert_eq.
Qed.

Lemma load_finish_none w p pc :
  load_inv w -> loaded (lw_header w) <> 2 -> lw_pcs w !! p = Some pc -> pc <> L_Finish ->
  loading pc = true \/ ~ any_loading w -> lw_loads w = 0%nat.
Proof.
  intros Hi Hn Hp Hf Hor. destruct (li_loads _ Hi) as [[-> _]|(_ & _ & q & Hq)]; [by unfold loads_of; rewrite (proj2 (Z.eqb_neq _ _))|].
  destruct Hor as [Hl|Hno]; [|by destruct Hno; exists q, L_Finish].
  assert (q = p) as -> by (by eapply (li_one _ Hi q p)). congruence.
Qed.

Lemma others_idle w p pc :
  load_inv w -> lw_pcs w !! p = Some pc -> loading pc = true \/ ~ any_loading w ->
  forall q qc, q <> p -> lw_pcs w !! q = Some qc -> loading qc = false.
Proof.
  intros Hi Hp Hor q qc Hqp Hq. destruct (loading qc) eqn:Hl; [|done]. exfalso.
  destruct Hor as [Hlp|Hno]; [by apply Hqp; eapply (li_one _ Hi q p)|]. apply Hno. by exists q, qc.
Qed.

Lemma timely_inv w w' : load_inv w -> timely_moves w w' -> load_inv w'.
Proof.
  intros Hi Hm. inversion Hm as [p now ending pc ? _ Hp Hsteal]; subst.
  assert (Hload : loading pc = true -> loaded (lw_header w) = 1) by (intros; apply (li_flag _ Hi); by exists p, pc).
  assert (Hno : loaded (lw_header w) <> 1 -> ~ any_loading w) by (intros Hne Ha; by apply Hne, (li_flag _ Hi)).
  destruct w as [h pcs n]; cbn [lw_header lw_pcs lw_loads] in *.
  assert (Hsolo : forall pc' h' n', loaded h <> 2 -> loading pc = true \/ ~ any_loading {| lw_header := h; lw_pcs := pcs; lw_loads := n |} ->
    (loading pc' = true -> loaded h' = 1) -> loaded h' = 0 \/ loaded h' = 1 \/ loaded h' = 2 ->
    (pc' = L_Return -> loaded h' = 2) ->
    n' = loads_of (loaded h') /\ pc' <> L_Finish \/ n' = 1%nat /\ loaded h' = 1 /\ pc' = L_Finish ->
    load_inv {| lw_header := h'; lw_pcs := <[p := pc']> pcs; lw_loads := n' |}).
  { intros pc' h' n' Hne Hor. apply (solo_move_inv _ p pc' h' n' Hi Hne). by eapply others_idle. }
  assert (Hzero : loaded h <> 2 -> pc <> L_Finish ->
    loading pc = true \/ ~ any_loading {| lw_header := h; lw_pcs := pcs; lw_loads := n |} -> n = 0%nat)
    by (intros ? ? ?; by eapply (load_finish_none _ p pc Hi)).
  assert (Hidle : forall pc', loading pc = false -> loading pc' = false -> (pc' = L_Return -> loaded h = 2) ->
    load_inv {| lw_header := h; lw_pcs := <[p := pc']> pcs; lw_loads := n |})
    by (intros; by eapply (idle_move_inv _ p pc _ Hi)).
  unfold move. destruct pc; cbn [load_step lw_header lw_pcs lw_loads loading] in *;
    rewrite ?bool_decide_false by (by intros [? ?]).
  - destruct (Z.eqb_spec (loaded h) 2); [by apply Hidle|]. destruct (_ =? 0); by apply Hidle.
  - destruct (Z.eqb_spec (loaded h) 0) as [E|]; [|by apply Hidle].
    rewrite (Hzero ltac:(lia) ltac:(done) (or_intror (Hno ltac:(lia)))). apply Hsolo; cbn; naive_solver lia.
  - specialize (Hload eq_refl). rewrite (Hzero ltac:(lia) ltac:(done) (or_introl eq_refl)), Hload in *.
    apply Hsolo; cbn; naive_solver lia.
  - specialize (Hload eq_refl). rewrite (Hzero ltac:(lia) ltac:(done) (or_introl eq_refl)) in *.
    destruct ending; cbn; apply Hsolo; cbn; rewrite ?Hload; naive_solver lia.
  - specialize (Hload eq_refl). assert (n = 1%nat) as ->.
    { destruct (li_loads _ Hi) as [[_ Hn]|[? _]]; [|done]. by destruct (Hn p). }
    apply Hsolo; cbn; naive_solver lia.
  - specialize (Hload eq_refl). rewrite (Hzero ltac:(lia) ltac:(done) (or_introl eq_refl)) in *.
    apply Hsolo; cbn; naive_solver lia.
  - destruct (_ && _); by apply Hidle.
  - destruct (Z.eqb_spec (loaded h) 1) as [E|]; [|by apply Hidle]. specialize (Hsteal eq_refl E).
    rewrite (Hzero ltac:(lia) ltac:(done) (or_intror Hsteal)) in *. apply Hsolo; cbn; naive_solver lia.
  - destruct ending; by apply Hidle.
  - by apply Hidle; [..|intros _; apply (li_return _ Hi p)].
  - by apply Hidle.
  - by apply Hidle.
Qed.

(** C19: At most one backend loads the shared keyspace, and nobody goes on without
    it.  Any number of backends start cold and interleave in any order, loads
    fail or kill their backend at any point, waits are cancelled; if the
    watchdog takes the role only from a loader that is gone, then two backends
    are never loading at once, at most one load runs to its end, and a backend
    that has returned did so after that load. *)
Theorem cold_start_one_loader backends w :
  rtc timely_moves (cold_world backends) w ->
  (forall p q pc qc, lw_pcs w !! p = Some pc -> lw_pcs w !! q = Some qc ->
     loading pc = true -> loading qc = true -> p = q) /\
  (lw_loads w <= 1)%nat /\
  (forall p, lw_pcs w !! p = Some L_Return -> lw_loads w = 1%nat /\ loaded (lw_header w) = 2).
Proof.
  intros Hr. assert (load_inv w) as [H1 H2 H3 H4 H5].
  { remember (cold_world backends) as w0 eqn:E. assert (Hi : load_inv w0) by (subst; apply cold_world_inv). clear E.
    induction Hr as [|w0 w1 w Hs _ IH]; [done|]. by eapply IH, timely_inv. }
  split; [done|]. unfold loads_of in H5. split.
  - destruct H5 as [[-> _]|[-> _]]; [by destruct (_ =? 2); lia|done].
  - intros p Hp. specialize (H4 p Hp). split; [|done]. rewrite H4 in H5. destruct H5 as [[-> _]|(_ & ? & _)]; [done|lia].
Qed.

(** ** A loader that died *)

(** One backend runs while the others pause; its load succeeds. *)
Fixpoint run_alone (fuel : nat) (now : Z) (pc : LoadState) (h : LoadHeader) : LoadState * LoadHeader :=
  match fuel with
  | O => (pc, h)
  | S fuel' => let '(pc', h') := load_step now E_Ok pc h in run_alone fuel' now pc' h'
  end.

(** Where a backend can be while no load was ever stamped. *)
Definition early (pc : LoadState) : bool :=
  match pc with L_Read | L_Cas | L_Stamp | L_Watch | L_Wait | L_Raise | L_Dead => true | _ => false end.

Record stamp_inv (w : LoadWorld) : Prop := {
  si_range : loaded (lw_header w) = 0 \/ loaded (lw_header w) = 1 \/ loaded (lw_header w) = 2;
  si_early : last_load_attempt (lw_header w) = 0 ->
    (forall p pc, lw_pcs w !! p = Some pc -> early pc = true) /\ loaded (lw_header w) <> 2 /\
    (loaded (lw_header w) = 1 -> exists p, lw_pcs w !! p = Some L_Stamp)
}.

Lemma cold_world_stamp backends : stamp_inv (cold_world backends).
Proof.
  split; cbn -[lw_pcs]; [by left|]. intros _. split; [|done]. intros p pc Hp.
  cbn in Hp. apply elem_of_list_to_map_2, list_elem_of_fmap in Hp as (q & [= -> ->] & _). done.
Qed.

Lemma load_step_range now ending pc h :
  loaded h = 0 \/ loaded h = 1 \/ loaded h = 2 ->
  let h' := (load_step now ending pc h).2 in loaded h' = 0 \/ loaded h' = 1 \/ loaded h' = 2.
Proof. intros Hr. destruct pc; cbn; try done; try case_match; cbn; naive_solver. Qed.

(** Before the first stamp. *)
Lemma early_step now ending pc h :
  early pc = true -> last_load_attempt h = 0 -> loaded h <> 2 -> 0 < now ->
  let '(pc', h') := load_step now ending pc h in
  last_load_attempt h' = 0 ->
  early pc' = true /\ loaded h' <> 2 /\
  (loaded h' = 1 -> pc' = L_Stamp \/ loaded h = 1 /\ pc <> L_Stamp).
Proof.
  intros He Ha Hl Hn. destruct pc; try done; cbn.
  - intros _. rewrite (proj2 (Z.eqb_neq _ _) Hl). destruct (loaded h =? 0); naive_solver.
  - destruct (Z.eqb_spec (loaded h) 0); cbn; [|naive_solver]. intros _. split; [done|]. split; [lia|]. auto.
  - lia.
  - rewrite Ha. cbn. naive_solver.
  - intros _. destruct ending; naive_solver.
  - naive_solver.
  - naive_solver.
Qed.

Lemma stamp_inv_step w w' : stamp_inv w -> load_moves w w' -> stamp_inv w'.
Proof.
  intros [Hr He] Hm. inversion Hm as [p now ending pc ? Hnow Hp]; subst. unfold move.
  pose proof (load_step_range now ending pc _ Hr) as Hr'.
  pose proof (early_step now ending pc (lw_header w)) as Hx.
  destruct (load_step now ending pc (lw_header w)) as [pc' h'] eqn:Es. cbn in Hr'. split; cbn; [done|]. intros Ha'.
  assert (Ha : last_load_attempt (lw_header w) = 0).
  { destruct pc; cbn in Es; repeat case_match; injection Es as <- <-; cbn in Ha'; (done || lia). }
  destruct (He Ha) as (Hpcs & H2 & H1).
  destruct (Hx (Hpcs p pc Hp) Ha H2 Hnow Ha') as (He' & H2' & H1'). split; [|split; [done|]].
  - intros q qc. rewrite lookup_insert. case_decide; [by intros [= <-]|]. apply Hpcs.
  - intros Hl. destruct (H1' Hl) as [->|[Hl1 Hne]]; [exists p; apply lookup_insert_eq|].
    destruct (H1 Hl1) as (q & Hq). exists q. rewrite lookup_insert_ne; [done|]. intros ->. congruence.
Qed.

(** C20: A dead loader does not block the others for good.  Whatever interleaving
    of any number of backends, deaths and failed loads led to a state in which no
    backend is between winning the role and noting the time, a backend that calls
    at least 30 seconds after the noted time and runs without interruption takes
    the role if it must, loads, and returns with the keyspace marked loaded. *)
Theorem cold_start_recovers backends w now :
  rtc load_moves (cold_world backends) w -> (forall p, lw_pcs w !! p <> Some L_Stamp) ->
  last_load_attempt (lw_header w) + 30000 * 1000 <= now ->
  exists h', run_alone 9 now L_Read (lw_header w) = (L_Return, h') /\ loaded h' = 2.
Proof.
  intros Hreach Hno Hnow. assert (stamp_inv w) as [Hr He].
  { remember (cold_world backends) as w0 eqn:E. assert (Hi : stamp_inv w0) by (subst; apply cold_world_stamp). clear E.
    induction Hreach as [|w0 w1 w Hs _ IH]; [done|]. by eapply IH, stamp_inv_step. }
  destruct w as [[l a] pcs n]; cbn in *. destruct Hr as [->|[->| ->]]; [by eexists| |by eexists].
  assert (a <> 0) as Ha. { intros ->. destruct (He eq_refl) as (_ & _ & H1). destruct (H1 eq_refl) as (p & Hp). by apply (Hno p). }
  cbn. rewrite (proj2 (Z.eqb_neq _ _) Ha). unfold TimestampDifferenceExceeds, PG_REDIS_LOAD_WATCHDOG_MS.
  rewrite (proj2 (Z.leb_le _ _)) by lia. cbn. by eexists.
Qed.

(** ** Schedules *)

(** A schedule names, move by move, the backend, the clock and how a load or a
    wait ends; [steals] says whether a watchdog may fire. *)
Fixpoint play (steals : bool) (l : list (nat * Z * Ending)) (w : LoadWorld) : option LoadWorld :=
  match l with
  | [] => Some w
  | (p, now, ending) :: l' =>
      match lw_pcs w !! p with
      | Some pc => if (0 <? now) && (steals || negb (bool_decide (pc = L_Steal)))
                   then play steals l' (move p now ending pc w) else None
      | None => None
      end
  end.

Lemma play_moves l : forall w w', play true l w = Some w' -> rtc load_moves w w'.
Proof.
  induction l as [|[[p now] ending] l IH]; intros w w' E; cbn in E; [injection E as ->; constructor|].
  destruct (lw_pcs w !! p) as [pc|] eqn:Hp; [|done]. destruct (Z.ltb_spec 0 now); [|done]. cbn in E.
  eapply rtc_l; [by constructor|]. by apply IH.
Qed.

Lemma play_timely l : forall w w', play false l w = Some w' -> rtc timely_moves w w'.
Proof.
  induction l as [|[[p now] ending] l IH]; intros w w' E; cbn in E; [injection E as ->; constructor|].
  destruct (lw_pcs w !! p) as [pc|] eqn:Hp; [|done]. destruct (Z.ltb_spec 0 now); [|done]. cbn in E.
  case_bool_decide as Hs; [done|]. cbn in E. eapply rtc_l; [by constructor|]. by apply IH.
Qed.

(** Two backends race: the second loses the CAS, waits, and finds the keyspace
    loaded. *)
Definition race_schedule : list (nat * Z * Ending) :=
  (fun p => (p, 1000, E_Ok)) <$> [1; 2; 1; 2; 1; 2; 1; 2; 1; 2; 2]%nat.
Definition race_end : LoadWorld := default (cold_world []) (play false race_schedule (cold_world [1; 2]%nat)).

Lemma cold_start_one_loader_witness :
  lw_pcs race_end !! 1%nat = Some L_Return /\ lw_pcs race_end !! 2%nat = Some L_Return /\
  lw_loads race_end = 1%nat /\ loaded (lw_header race_end) = 2.
Proof.
  destruct (cold_start_one_loader [1; 2]%nat race_end) as (_ & _ & Hret).
  - apply (play_timely race_schedule). vm_compute. reflexivity.
  - split; [reflexivity|]. split; [reflexivity|]. apply (Hret 1%nat). reflexivity.
Defined.

(** The loader is killed during its load. *)
Definition killed_schedule : list (nat * Z * Ending) :=
  [(1%nat, 1000, E_Ok); (1%nat, 1000, E_Ok); (1%nat, 1000, E_Ok); (1%nat, 1000, E_Killed)].
Definition killed_end : LoadWorld := default (cold_world []) (play true killed_schedule (cold_world [1; 2]%nat)).

Lemma cold_start_recovers_witness :
  lw_pcs killed_end !! 1%nat = Some L_Dead /\ loaded (lw_header killed_end) = 1 /\
  exists h', run_alone 9 40000000 L_Read (lw_header killed_end) = (L_Return, h') /\ loaded h' = 2.
Proof.
  split; [reflexivity|]. split; [reflexivity|]. apply (cold_start_recovers [1; 2]%nat killed_end 40000000).
  - apply (play_moves killed_schedule). vm_compute. reflexivity.
  - intros p Hp. assert (p = 1 \/ p = 2)%nat as [->| ->]; [|discriminate Hp|discriminate Hp].
    apply elem_of_dom_2 in Hp. change (dom (lw_pcs killed_end)) with (dom (lw_pcs killed_end) : gset nat) in Hp.
    assert (dom (lw_pcs killed_end) = ({[1; 2]}%nat : gset nat)) as E by (vm_compute; reflexivity). set_solver.
  - vm_compute. discriminate.
Defined.

(** Backend 1 fails to load at time 1.  A hundred seconds later backend 2 wins
    the role; before it has noted the time, backend 3 reads the old one. *)
Definition stale_schedule : list (nat * Z * Ending) :=
  let at_ (t : Z) (p : nat) := (p, t, E_Ok) in
  (at_ 1 <$> [1; 1; 1]%nat) ++ [(1%nat, 1, E_Error); at_ 1 1%nat] ++
  (at_ 100000000 <$> [2; 2; 3; 3; 3; 3; 3; 3; 2]%nat).

(** The watchdog can take the role from a loader that has just won it.  The
    role and its time are two writes: between them another backend reads the time
    of an earlier, failed attempt, concludes that the loader is stuck and
    becomes a loader too.  Both then load at once, although neither has run for
    30 seconds. *)
Example stale_stamp_two_loaders :
  exists w, rtc load_moves (cold_world [1; 2; 3]%nat) w /\
    lw_pcs w !! 2%nat = Some L_Load /\ lw_pcs w !! 3%nat = Some L_Load /\
    last_load_attempt (lw_header w) = 100000000.
Proof.
  assert (E : exists w, play true stale_schedule (cold_world [1; 2; 3]%nat) = Some w /\
    lw_pcs w !! 2%nat = Some L_Load /\ lw_pcs w !! 3%nat = Some L_Load /\ last_load_attempt (lw_header w) = 100000000).
  { eexists. split; [vm_compute; reflexivity|]. by vm_compute. }
  destruct E as (w & E & Hw). exists w. split; [by eapply play_moves|done].
Qed.
