(* ===== verification/SharedLoad.v ===== *)
(** * Loading the shared keyspace (src/persistence.c, shared branch)

    The cold-start load of Persistence.v on the shared keyspace: every row takes
    a scratch copy of its key, changes it and writes it back.  The rows of a hash
    are marked clean before the writeback, which sets only dirty fields: of each
    hash the load keeps one field.  The rest of the tables it restores, up to
    what shared memory does not keep. *)
From S2P Require Import Prelude Types Binval Utils ListValue HashValue StoreInterface KvStore Commands Db Persistence Flush Session Load.
From S2P Require Import SharedMem SharedHash SharedListSpec SharedStore SharedStoreSpec SharedStoreOps DirtyEvent DirtyRing.
From S2P Require Import AsyncDrain AsyncPublish SharedAtomic SharedStoreRefine SharedMode SharedCommands ColdStart.

Section SharedLoad.
Context `{DsaAllocator} `{HashBytes} `{KeyspaceLimit}.
Context (clock : nat -> Z) (xact_now : Z).

(** The end of a row: the scratch is written back. *)
Definition shared_store_row (r : nat) (e : PgRedisEntry) : M SharedSession unit :=
  shared_write_scratch r e ;;
  x ← shared_read r;
  on_node (on_store (pg_redis_shared_store_writeback x.1 x.2)).

Definition shared_load : LoadOps SharedSession nat := {|
  ld_upsert := shared_upsert clock;
  ld_read r := x ← shared_read r; mret x.2;
  ld_store := shared_store_row;
  ld_remove key := on_node (on_store (pg_redis_shared_store_remove key));
  ld_now _ := xact_now;
  ld_db s := x_db (n_shared (sn_node s))
|}.

(** The elected loader: the time of the attempt, the load, and [loaded] on both
    ways out. *)
Definition load_elected (now : Z) : M (SharedSession * LoadHeader) unit := fun s =>
  match pg_redis_persistence_do_load shared_load s.1 with
  | (Ret _, s') => (Ret tt, (s', {| loaded := 2; last_load_attempt := now |}))
  | (Raise e, s') => (Raise e, (s', {| loaded := 0; last_load_attempt := now |}))
  end.
End SharedLoad.

(** ** What the load keeps of a row *)

Definition row_shown (row : StoreRow) (v : AVal) : AEntry := {| a_val := v; a_expire := sr_expire_at row |}.

(** A further row of a hash changes nothing; a further row of a list adds its
    item, to its length modulo 65536. *)
Definition hash_row_adds (ov : option AVal) (q : bytes * option bytes) : AVal :=
  match ov with Some v => v | None => AHash {[q.1 := default [] q.2]} end.
Definition list_row_adds (ov : option AVal) (q : Z * option bytes) : AVal :=
  AList (match ov with Some (AList l) => l | _ => [] end ++ [trunc16 (default [] q.2)]).

Definition loaded_row (d : Db) (k : bytes) (row : StoreRow) : option AEntry :=
  row_shown row <$>
  match type_of_row row with
  | Some PG_REDIS_TYPE_STRING | Some PG_REDIS_TYPE_INT => (fun v => stored (val_view v)) <$> scalar_of row
  | Some PG_REDIS_TYPE_HASH =>
      (fun q => AHash {[q.1 := default [] q.2]}) <$> head (children (hash_fields d) k)
  | Some PG_REDIS_TYPE_LIST =>
      match merge_sort ord_le (children (list_items d) k) with
      | [] => None
      | qs => Some (AList ((fun q => trunc16 (default [] q.2)) <$> qs))
      end
  | None => None
  end.

Definition loaded_table (d : Db) (now : Z) (k : bytes) : option AEntry :=
  row ← store d !! k;
  if row_live now row then loaded_row d k row else None.

(** ** Rows *)

Section Rows.
Context `{DsaAllocator} `{HashBytes} `{KeyspaceLimit} `{!DsaLaws}.
Context (clock : nat -> Z) (xact_now : Z) (R : Heap).

(** The session shows [V] and has touched nothing else; or memory ran out. *)
Definition loads (s : SharedSession) (V : gmap bytes AEntry) (x : outcome unit * SharedSession) : Prop :=
  match x with
  | (Ret _, s') => shows s' V R /\ outside (sn_node s') = outside (sn_node s) /\
      (sn_readings s <= sn_readings s')%nat
  | (Raise e, _) => mem_error e
  end.

(** A row meets a key that is new or was loaded from the same parent. *)
Lemma load_upsert_law s V k row ov :
  shows s V R -> V !! k = row_shown row <$> ov -> clock_ahead clock (sn_readings s) row ->
  let a := default fresh_aentry (row_shown row <$> ov) in
  match shared_upsert clock k s with
  | (Ret (r, is_new), s1) => is_new = bool_decide (ov = None) /\
      (exists e, sn_scratch s1 !! r = Some (k, e) /\ scratch_for e a) /\
      loads s (<[k := a]> V) (Ret tt, s1)
  | (Raise err, _) => err = ERRCODE_OUT_OF_MEMORY
  end.
Proof.
  intros Hs Hv Hc a. unfold shared_upsert. rewrite bind_unfold.
  assert (exists now s0, now_for clock k s = (Ret now, s0) /\ sn_node s0 = sn_node s /\
    (sn_readings s <= sn_readings s0)%nat /\ shared_expired now V k = false) as (now & s0 & -> & E0 & Hle & Hx).
  { unfold now_for, shared_now, has_expire_at, shared_expired. rewrite Hv.
    destruct Hs as (ks & h & f & E & Hat & _). apply (f_equal ss_keyspace) in E. unfold n_store in E. cbn in E. rewrite E.
    destruct ov as [v|]; cbn [fmap option_fmap option_map]; [|destruct (from_option se_has_expire _ _); do 2 eexists; (split; [done|]); (split; [done|]); cbn; (split; [lia|done])].
    destruct (ks !! k) as [se|] eqn:Hk; [|by rewrite (sa_dom _ _ _ _ Hat k Hk) in Hv].
    destruct (sa_entry _ _ _ _ Hat k se Hk) as (a' & Ha' & _ & He). rewrite Hv in Ha'. injection Ha' as <-. cbn in He. cbn [from_option].
    destruct (se_has_expire se); do 2 eexists; (split; [done|]); (split; [done|]); cbn; (split; [lia|]);
      unfold a_expired; cbn; rewrite He; [|done]. apply Z.leb_gt. by apply Hc. }
  assert (Hs0 : shows s0 V R) by (unfold shows; by rewrite E0). rewrite bind_unfold.
  destruct (shared_upsert_spec now _ V R k Hs0) as [[E _]|(e & is_new & st & E & Hf)];
    destruct (on_node_store _ _ _ _ E) as (s1 & -> & Hn & _ & Hrd & Ho); [done|].
  rewrite Hx, orb_false_r, Hv in Hf. rewrite bind_unfold. cbn [new_scratch fst snd mret M_ret].
  destruct Hf as [-> Hf]. split; [by destruct ov|].
  unfold loads, shows. cbn [sn_scratch sn_node sn_readings]. rewrite Hn, Ho, E0, Hrd.
  assert (scratch_for e a /\ store_repr st (<[k := a]> V) R) as [He Hst].
  { destruct ov as [v|]; cbn in Hf; [|done]. destruct Hf as [(a' & [= <-] & He) Hst]. split; [done|].
    subst a. cbn. by rewrite insert_id. }
  split; [|done]. exists e. split; [by rewrite lookup_app_r, Nat.sub_diag|done].
Qed.

Lemma store_row_eq s r k e0 e :
  sn_scratch s !! r = Some (k, e0) ->
  exists s', shared_store_row r e s = ((pg_redis_shared_store_writeback k e (n_store (sn_node s))).1, s') /\
    n_store (sn_node s') = (pg_redis_shared_store_writeback k e (n_store (sn_node s))).2 /\
    outside (sn_node s') = outside (sn_node s) /\ sn_readings s' = sn_readings s.
Proof.
  intros Hl. unfold shared_store_row. rewrite bind_unfold. cbn [shared_write_scratch].
  set (s0 := {| sn_node := _ |}). assert (Hl0 : sn_scratch s0 !! r = Some (k, e)) by (cbn; by rewrite list_lookup_alter_eq, Hl).
  rewrite (bind_Ret (shared_read r) _ s0 (k, e) s0) by (unfold shared_read; by rewrite Hl0). cbn [fst snd].
  destruct (pg_redis_shared_store_writeback k e (n_store (sn_node s))) as [res st] eqn:E.
  destruct (on_node_store _ s0 _ _ E) as (s1 & E1 & Hn & _ & Hrd & Ho). exists s1. rewrite E1. by rewrite Hn, Ho.
Qed.

(** The end of a row that rebuilds the value. *)
Lemma store_row_law s V r k e0 e :
  shows s V R -> sn_scratch s !! r = Some (k, e0) -> scratch_ok (e_value e) -> hash_over_hash V k e = None ->
  loads s (<[k := stored_entry e]> V) (shared_store_row r e s).
Proof.
  intros Hs Hl Hok Hh. destruct (store_row_eq s r k e0 e Hl) as (s' & -> & Hn & Ho & Hrd).
  pose proof (writeback_spec _ V R k e Hs Hok ltac:(by rewrite Hh)) as Hw.
  destruct (pg_redis_shared_store_writeback _ _ _) as [[u|err] st]; cbn [fst snd] in *; [|by destruct Hw].
  unfold loads, shows. rewrite Hn, Hrd. done.
Qed.

(** Writing back a hash without dirty fields changes its expiry only. *)
Lemma writeback_clean st V k e sh m ex :
  store_repr st V R -> V !! k = Some {| a_val := AHash m; a_expire := ex |} ->
  e_value e = VHash (Some sh) -> dirty_fields sh = [] -> h_tombstones sh = [] ->
  exists st', pg_redis_shared_store_writeback k e st = (Ret tt, st') /\
    store_repr st' (<[k := {| a_val := AHash m; a_expire := a_expire (entry_view e) |}]> V) R.
Proof.
  intros (ks & h & f & -> & Hs & ->) Hk Hev Hd Ht. unfold pg_redis_shared_store_writeback. rewrite bind_unfold. cbn [gets ss_keyspace].
  destruct (ks !! k) as [se|] eqn:Ek; [|by rewrite (sa_dom _ _ _ _ Hs k Ek) in Hk].
  destruct (sa_entry _ _ _ _ Hs k se Ek) as (a & Ha & [Hv He]). rewrite Hk in Ha. injection Ha as <-. cbn [a_val] in Hv.
  destruct (se_value se) as [| |table count|]; try done. rewrite Hev. cbn [ss_dsa surgical_apply_hash]. rewrite Hd, Ht.
  cbn [set_fields del_fields]. eexists. split; [done|]. apply (store_put ks h f V k h (f k)); [done| |].
  - unfold key_foot. by rewrite Ek.
  - split; [done|]. done.
Qed.

Lemma store_row_clean s V r k e0 e sh m ex :
  shows s V R -> sn_scratch s !! r = Some (k, e0) -> V !! k = Some {| a_val := AHash m; a_expire := ex |} ->
  e_value e = VHash (Some sh) -> dirty_fields sh = [] -> h_tombstones sh = [] ->
  loads s (<[k := {| a_val := AHash m; a_expire := a_expire (entry_view e) |}]> V) (shared_store_row r e s).
Proof.
  intros Hs Hl Hk Hev Hd Ht. destruct (store_row_eq s r k e0 e Hl) as (s' & -> & Hn & Ho & Hrd).
  destruct (writeback_clean _ V k e sh m ex Hs Hk Hev Hd Ht) as (st & E & Hst). rewrite E in *. cbn [fst snd] in *.
  unfold loads, shows. by rewrite Hn, Hrd.
Qed.

(** The entry at the end of a row. *)
Definition row_end (row : StoreRow) (v : PgRedisValue) (e : PgRedisEntry) : PgRedisEntry :=
  set_dirty false (match sr_expire_at row with Some x => set_expire true x (set_value v e) | None => set_value v e end).

Lemma row_end_view row v e ov :
  a_expire (entry_view e) = a_expire (default fresh_aentry (row_shown row <$> ov)) ->
  a_expire (entry_view (row_end row v e)) = sr_expire_at row.
Proof.
  intros He. unfold row_end. unfold entry_view in *. cbn in He. destruct (sr_expire_at row) eqn:Er; [done|].
  cbn. rewrite He. by destruct ov.
Qed.

(** A law of the whole row from the laws of its upsert and of its end. *)
Lemma row_law s V k row ov a' (body : nat -> bool -> PgRedisEntry -> M SharedSession unit) :
  shows s V R -> V !! k = row_shown row <$> ov -> clock_ahead clock (sn_readings s) row ->
  (forall s1 r e, shows s1 (<[k := default fresh_aentry (row_shown row <$> ov)]> V) R -> sn_scratch s1 !! r = Some (k, e) ->
     scratch_for e (default fresh_aentry (row_shown row <$> ov)) ->
     loads s1 (<[k := a']> (<[k := default fresh_aentry (row_shown row <$> ov)]> V)) (body r (bool_decide (ov = None)) e s1)) ->
  loads s (<[k := a']> V)
    (('(r, is_new) ← ld_upsert (shared_load clock xact_now) k;
      e ← ld_read (shared_load clock xact_now) r; body r is_new e) s).
Proof.
  intros Hs Hv Hc Hbody. cbn [shared_load ld_upsert ld_read]. rewrite bind_unfold.
  pose proof (load_upsert_law s V k row ov Hs Hv Hc) as Hu. cbn zeta in Hu.
  destruct (shared_upsert clock k s) as [[[r is_new]|err] s1]; [|by left].
  destruct Hu as (-> & (e & Hl & He) & Hs1 & Ho1 & Hle1). cbn [fst snd].
  rewrite (bind_Ret _ _ s1 e s1) by (rewrite bind_unfold; unfold shared_read; by rewrite Hl).
  specialize (Hbody s1 r e Hs1 Hl He). rewrite insert_insert_eq in Hbody.
  destruct (body r _ e s1) as [[[]|err] s2]; [|done]. destruct Hbody as (Hs2 & Ho2 & Hle2).
  split; [done|]. split; [congruence|lia].
Qed.

Lemma fresh_not_hash V k e : hash_over_hash (<[k := fresh_aentry]> V) k e = None.
Proof. unfold hash_over_hash. by rewrite lookup_insert_eq. Qed.

Lemma list_not_hash V k e l : e_value e = VList l -> hash_over_hash V k e = None.
Proof. unfold hash_over_hash. intros ->. by destruct (V !! k) as [[[] ?]|]. Qed.

Lemma load_string_law s V k row v :
  shows s V R -> V !! k = None -> clock_ahead clock (sn_readings s) row ->
  blen k <= PG_REDIS_MAX_KEY_SIZE -> scalar_of row = Some v ->
  loads s (<[k := row_shown row (stored (val_view v))]> V) (load_string_row (shared_load clock xact_now) (k, row) s).
Proof.
  intros Hs Hn Hc Hk Hv. unfold load_string_row. destruct (Z.ltb_spec PG_REDIS_MAX_KEY_SIZE (blen k)); [lia|].
  apply (row_law s V k row None); [done|done|done|]. cbn [default fmap option_fmap option_map bool_decide].
  intros s1 r e Hs1 Hl He. cbn [ld_store shared_load].
  assert (Hend : forall w, stored_entry (set_dirty false (row_expire row (set_value w e))) = row_shown row (stored (val_view w))).
  { intros w. unfold stored_entry, row_expire, row_shown. by destruct (sr_expire_at row). }
  assert (Hval : forall w, e_value (set_dirty false (row_expire row (set_value w e))) = w)
    by (intros w; unfold row_expire; by destruct (sr_expire_at row)).
  destruct (scalar_of_inv row v Hv) as (raw & Hraw & [[Ht (x & Hd & ->)]|[Ht (x & Hd & ->)]]); rewrite Hraw.
  - rewrite decide_True, Hd by done. cbn zeta. rewrite <- (Hend (VString (Some x))). apply (store_row_law s1 _ r k e); rewrite ?Hval; try done. apply fresh_not_hash.
  - rewrite decide_False by (by rewrite Ht). rewrite decide_True, Hd by done. cbn zeta. rewrite <- (Hend (VInt x)).
    apply (store_row_law s1 _ r k e); rewrite ?Hval; try done. apply fresh_not_hash.
Qed.

(** The value a row may meet: something of its type, not empty, as it is stored. *)
Definition hash_met (v : AVal) : Prop := exists m, v = AHash m /\ m <> ∅.
Definition list_met (v : AVal) : Prop := exists q, v = AList (trunc16 <$> q) /\ q <> [].

Lemma clean_not_dirty sh : (forall f fl, h_fields sh !! f = Some fl -> f_dirty fl = false) -> dirty_fields sh = [].
Proof.
  intros Hd. destruct (dirty_fields sh) as [|[g x] l] eqn:E; [done|].
  assert (Hin : (g, x) ∈ dirty_fields sh) by (rewrite E; set_solver).
  apply dirty_fields_elem in Hin as (fl & Hin & Hfl & _). by rewrite (Hd g fl Hin) in Hfl.
Qed.

Lemma load_hash_law s V k row ov q :
  shows s V R -> V !! k = row_shown row <$> ov -> from_option hash_met True ov -> clock_ahead clock (sn_readings s) row ->
  blen k <= PG_REDIS_MAX_KEY_SIZE -> blen q.1 <= PG_REDIS_MAX_FIELD_SIZE ->
  loads s (<[k := row_shown row (hash_row_adds ov q)]> V) (load_hash_row (shared_load clock xact_now) ((k, row), q) s).
Proof.
  intros Hs Hv Hmet Hc Hk Hf. destruct q as [f w]. cbn [fst] in Hf. unfold load_hash_row.
  destruct (Z.ltb_spec PG_REDIS_MAX_KEY_SIZE (blen k)); [lia|]. destruct (Z.ltb_spec PG_REDIS_MAX_FIELD_SIZE (blen f)); [lia|].
  apply (row_law s V k row ov); [done|done|done|]. intros s1 r e Hs1 Hl He. cbn [ld_store shared_load].
  pose proof (f_equal a_expire (sf_view _ _ He)) as Hex.
  assert (Hset : forall h, hash_wf h -> exists b h', pg_redis_hash_set h f (default [] w) = Ret (b, h')).
  { intros h Hw. destruct (hash_set_spec h f (default [] w) Hw Hf) as (h' & Eh & _). rewrite Eh. eauto. }
  destruct ov as [v|]; cbn [fmap option_fmap option_map default from_option bool_decide] in *.
  - destruct Hmet as (m & -> & Hm). pose proof (f_equal a_val (sf_view _ _ He)) as Hval. cbn in Hval.
    destruct (e_value e) as [?|?|[h|]|?] eqn:Ee; try done; [|cbn in Hval; congruence].
    pose proof (sf_ok _ _ He) as Hw. rewrite Ee in Hw.
    pose proof (hash_load_item_ok h f (default [] w) Hw (sf_tombs _ _ He h Ee) Hf) as (_ & [Ht Hd] & _).
    unfold hash_load_item in Ht, Hd. destruct (Hset h Hw) as (b & h' & Eh). rewrite Eh in Ht, Hd |- *.
    match goal with |- context [shared_store_row r ?x] => set (e' := x) end.
    assert (Hx : a_expire (entry_view e') = sr_expire_at row) by exact (row_end_view row _ e (Some (AHash m)) Hex).
    cbn [hash_row_adds]. change (row_shown row (AHash m)) with {| a_val := AHash m; a_expire := sr_expire_at row |} at 1.
    rewrite <- Hx. eapply (store_row_clean s1); [done|done|apply lookup_insert_eq|subst e'; by destruct (sr_expire_at row)| |done].
    by apply clean_not_dirty.
  - destruct (Hset pg_redis_hash_create_in hash_create_wf) as (b & h' & Eh). rewrite Eh.
    pose proof (hash_load_item_ok pg_redis_hash_create_in f (default [] w) hash_create_wf eq_refl Hf) as (Hw & _ & Hview).
    unfold hash_load_item in Hw, Hview. rewrite Eh in Hw, Hview.
    match goal with |- context [shared_store_row r ?x] => set (e' := x) end.
    assert (Hst : stored_entry e' = row_shown row (AHash {[f := default [] w]})).
    { unfold stored_entry, row_shown. f_equal.
      - change {[f := default [] w]} with (<[f := default [] w]> (hash_view pg_redis_hash_create_in)). rewrite <- Hview.
        subst e'. by destruct (sr_expire_at row).
      - subst e'. cbn in Hex. by destruct (sr_expire_at row). }
    cbn [hash_row_adds fst snd]. rewrite <- Hst. apply (store_row_law s1 _ r k e); [done|done| |apply fresh_not_hash].
    subst e'. by destruct (sr_expire_at row).
Qed.

Lemma trunc16_twice v : trunc16 (trunc16 v) = trunc16 v.
Proof.
  unfold trunc16 at 1. rewrite blen_trunc16. pose proof (wrap_u_range 16 (blen v) ltac:(lia)).
  rewrite (wrap_u_small 16 (u16 (blen v))) by done. unfold trunc16. by rewrite take_take, Nat.min_id.
Qed.

Lemma load_list_law s V k row ov q :
  shows s V R -> V !! k = row_shown row <$> ov -> from_option list_met True ov -> clock_ahead clock (sn_readings s) row ->
  blen k <= PG_REDIS_MAX_KEY_SIZE ->
  loads s (<[k := row_shown row (list_row_adds ov q)]> V) (load_list_row (shared_load clock xact_now) ((k, row), q) s).
Proof.
  intros Hs Hv Hmet Hc Hk. destruct q as [o w]. unfold load_list_row.
  destruct (Z.ltb_spec PG_REDIS_MAX_KEY_SIZE (blen k)); [lia|].
  apply (row_law s V k row ov); [done|done|done|]. intros s1 r e Hs1 Hl He. cbn [ld_store shared_load].
  pose proof (f_equal a_expire (sf_view _ _ He)) as Hex.
  assert (Hgo : forall l e1, a_expire (entry_view e1) = a_expire (entry_view e) ->
    Deque.items l = match ov with Some (AList q) => q | _ => [] end -> from_option list_met True ov ->
    loads s1 (<[k := row_shown row (list_row_adds ov (o, w))]> (<[k := default fresh_aentry (row_shown row <$> ov)]> V))
      (shared_store_row r (row_end row (VList (Some (list_load_item l o (default [] w)))) e1) s1)).
  { intros l e1 He1 Hit Hm. set (e' := row_end _ _ e1).
    assert (Hst : stored_entry e' = row_shown row (list_row_adds ov (o, w))).
    { unfold stored_entry, row_shown. f_equal; [|eapply row_end_view; by rewrite He1].
      assert (Ev : a_val (entry_view e') = AList (Deque.items (list_load_item l o (default [] w))))
        by (subst e'; unfold row_end; by destruct (sr_expire_at row)).
      rewrite Ev. unfold stored, list_row_adds, Deque.items in *. rewrite list_load_item_nodes, !fmap_app, Hit.
      do 2 f_equal. destruct ov as [[]|]; try done. destruct Hm as (q0 & [= ->] & _).
      rewrite <- list_fmap_compose. apply list_fmap_ext. intros. apply trunc16_twice. }
    rewrite <- Hst. apply (store_row_law s1 _ r k e); [done|done| |];
      subst e'; unfold row_end; [by destruct (sr_expire_at row)|]. eapply list_not_hash. by destruct (sr_expire_at row). }
  destruct ov as [v|]; cbn [fmap option_fmap option_map default from_option bool_decide] in *.
  - destruct Hmet as (q & -> & Hq). pose proof (f_equal a_val (sf_view _ _ He)) as Hval. cbn in Hval.
    destruct (e_value e) as [?|?|?|[l|]] eqn:Ee; try done.
    + apply (Hgo l e); [done| |by exists q]. by injection Hval.
    + exfalso. injection Hval as Hval. symmetry in Hval. by apply fmap_nil_inv in Hval.
  - apply (Hgo pg_redis_list_create_in (pg_redis_entry_release_value e false)); done.
Qed.
End Rows.

(** ** Loops

    What a loop over rows does to the keyspace, as a fold. *)

Section Folds.
Context {P : Type} (step : gmap bytes AEntry -> P -> gmap bytes AEntry) (pre : gmap bytes AEntry -> P -> Prop).

Fixpoint steps_ok (ps : list P) (V : gmap bytes AEntry) : Prop :=
  match ps with [] => True | p :: ps' => pre V p /\ steps_ok ps' (step V p) end.

Lemma steps_ok_app ps qs V : steps_ok (ps ++ qs) V <-> steps_ok ps V /\ steps_ok qs (foldl step V ps).
Proof. revert V. induction ps as [|p ps IH]; intros V; cbn; [tauto|]. rewrite IH. tauto. Qed.

Lemma for_each_loads `{DsaAllocator} `{HashBytes} (clock : nat -> Z) (R : Heap) (body : P -> M SharedSession unit)
    (row_of : P -> StoreRow) ps :
  (forall s V p, shows s V R -> pre V p -> clock_ahead clock (sn_readings s) (row_of p) -> loads R s (step V p) (body p s)) ->
  forall s V, shows s V R -> steps_ok ps V -> Forall (fun p => clock_ahead clock (sn_readings s) (row_of p)) ps ->
  loads R s (foldl step V ps) (for_each ps body s).
Proof.
  intros Hbody. induction ps as [|p ps IH]; intros s V Hs Hok Hc; cbn [for_each foldl]; [by split_and!|].
  destruct Hok as [Hp Hok]. apply Forall_cons in Hc as [Hcp Hc]. rewrite bind_unfold.
  specialize (Hbody s V p Hs Hp Hcp). destruct (body p s) as [[[]|err] s1]; [|done]. destruct Hbody as (Hs1 & Ho1 & Hle1).
  assert (Hc1 : Forall (fun p => clock_ahead clock (sn_readings s1) (row_of p)) ps)
    by (eapply Forall_impl; [exact Hc|]; intros q; by apply clock_ahead_mono).
  specialize (IH s1 _ Hs1 Hok Hc1). destruct (for_each ps body s1) as [[[]|err] s2]; [|done].
  destruct IH as (Hs2 & Ho2 & Hle2). split; [done|]. split; [congruence|lia].
Qed.
End Folds.

(** One value per parent row, if any. *)
Definition put_row (f : bytes -> StoreRow -> option AEntry) (V : gmap bytes AEntry) (p : bytes * StoreRow) : gmap bytes AEntry :=
  match f p.1 p.2 with Some a => <[p.1 := a]> V | None => V end.

Lemma put_row_ne f V p k : k <> p.1 -> put_row f V p !! k = V !! k.
Proof. intros Hne. unfold put_row. destruct (f p.1 p.2); [|done]. by apply lookup_insert_ne. Qed.

Lemma foldl_put_row f ps : NoDup ps.*1 -> forall V k,
  foldl (put_row f) V ps !! k =
    match (list_to_map ps : gmap bytes StoreRow) !! k with
    | Some row => match f k row with Some a => Some a | None => V !! k end
    | None => V !! k
    end.
Proof.
  induction ps as [|[k0 row] ps IH]; intros Hnd V k; [done|]. rewrite fmap_cons, NoDup_cons in Hnd. destruct Hnd as [Hni Hnd].
  cbn [foldl]. rewrite IH by done. rewrite list_to_map_cons, lookup_insert. cbn [fst snd] in *.
  destruct (decide (k0 = k)) as [<-|Hne]; [|rewrite put_row_ne by (cbn; congruence); done].
  rewrite not_elem_of_list_to_map_1 by done. unfold put_row. cbn. destruct (f k0 row); [apply lookup_insert_eq|done].
Qed.

(** Several child rows per parent. *)
Section Children.
Context {K : Type} (adds : option AVal -> K * option bytes -> AVal) (met : AVal -> Prop) (item_ok : K -> Prop).
Context (ch : bytes -> list (K * option bytes)).
Hypothesis Hmet : forall ov q, from_option met True ov -> met (adds ov q).

Definition child_step (V : gmap bytes AEntry) (p : (bytes * StoreRow) * (K * option bytes)) : gmap bytes AEntry :=
  <[p.1.1 := row_shown p.1.2 (adds (a_val <$> V !! p.1.1) p.2)]> V.
Definition child_pre (V : gmap bytes AEntry) (p : (bytes * StoreRow) * (K * option bytes)) : Prop :=
  (exists ov, V !! p.1.1 = row_shown p.1.2 <$> ov /\ from_option met True ov) /\
  blen p.1.1 <= PG_REDIS_MAX_KEY_SIZE /\ item_ok p.2.1.
Definition fold_rows (ov : option AVal) (qs : list (K * option bytes)) : option AVal :=
  foldl (fun ov q => Some (adds ov q)) ov qs.

Lemma fold_rows_Some v qs : fold_rows (Some v) qs <> None.
Proof. revert v. induction qs as [|q qs IH]; intros v; [done|]. apply (IH (adds (Some v) q)). Qed.

Lemma child_group k row qs : forall V ov,
  V !! k = row_shown row <$> ov -> from_option met True ov -> blen k <= PG_REDIS_MAX_KEY_SIZE \/ qs = [] ->
  Forall (fun q => item_ok q.1) qs ->
  steps_ok child_step child_pre ((fun q => ((k, row), q)) <$> qs) V /\
  foldl child_step V ((fun q => ((k, row), q)) <$> qs) =
    match fold_rows ov qs with Some v => <[k := row_shown row v]> V | None => V end.
Proof.
  induction qs as [|q qs IH]; intros V ov Hv Hm Hk Hok.
  { split; [done|]. cbn. destruct ov; [by rewrite insert_id|done]. }
  apply Forall_cons in Hok as [Hq Hok]. rewrite fmap_cons. cbn [steps_ok foldl].
  assert (Hstep : child_step V ((k, row), q) = <[k := row_shown row (adds ov q)]> V)
    by (unfold child_step; cbn; rewrite Hv; by destruct ov).
  destruct (IH (<[k := row_shown row (adds ov q)]> V) (Some (adds ov q))) as [H1 H2];
    [by rewrite lookup_insert_eq|by apply Hmet|left; by destruct Hk|done|]. rewrite Hstep. split.
  - split; [|done]. split; [by exists ov|]. split; [by destruct Hk|done].
  - rewrite H2. cbn [fold_rows foldl]. change (foldl _ (Some (adds ov q)) qs) with (fold_rows (Some (adds ov q)) qs).
    destruct (fold_rows (Some (adds ov q)) qs) eqn:E; [by rewrite insert_insert_eq|].
    by apply fold_rows_Some in E.
Qed.

Lemma child_groups ps : NoDup ps.*1 -> forall V,
  Forall (fun p => V !! p.1 = None /\ (blen p.1 <= PG_REDIS_MAX_KEY_SIZE \/ ch p.1 = []) /\
                   Forall (fun q => item_ok q.1) (ch p.1)) ps ->
  let rows := flat_map (fun p => (fun q => (p, q)) <$> ch p.1) ps in
  steps_ok child_step child_pre rows V /\
  foldl child_step V rows = foldl (put_row (fun k row => row_shown row <$> fold_rows None (ch k))) V ps.
Proof.
  induction ps as [|[k row] ps IH]; intros Hnd V Hall; [done|]. rewrite fmap_cons, NoDup_cons in Hnd. destruct Hnd as [Hni Hnd].
  apply Forall_cons in Hall as [(Hn & Hk & Hok) Hall]. cbn [flat_map fst snd] in *.
  destruct (child_group k row (ch k) V None) as [H1 H2]; [done|done|done|done|].
  set (V1 := foldl child_step V _) in *.
  assert (HV1 : V1 = put_row (fun k row => row_shown row <$> fold_rows None (ch k)) V (k, row))
    by (unfold put_row; cbn; rewrite H2; by destruct (fold_rows None (ch k))).
  destruct (IH Hnd V1) as [H3 H4].
  { apply Forall_forall. intros p Hp. rewrite Forall_forall in Hall. destruct (Hall p Hp) as (Hpn & ?). split; [|done].
    rewrite HV1, put_row_ne; [done|]. cbn. intros E. apply Hni. rewrite <- E. by apply list_elem_of_fmap_2. }
  cbn zeta in *. rewrite steps_ok_app, foldl_app. cbn [foldl]. fold V1. rewrite <- HV1. done.
Qed.
End Children.

Lemma fold_hash_rows qs :
  fold_rows hash_row_adds None qs = (fun q => AHash {[q.1 := default [] q.2]}) <$> head qs.
Proof.
  destruct qs as [|q qs]; [done|]. cbn. generalize (AHash {[q.1 := default [] q.2]}). induction qs as [|q' qs IH]; intros v; [done|].
  apply IH.
Qed.

Lemma fold_list_rows qs :
  fold_rows list_row_adds None qs =
    match qs with [] => None | _ => Some (AList ((fun q => trunc16 (default [] q.2)) <$> qs)) end.
Proof.
  assert (Hgo : forall l, fold_rows list_row_adds (Some (AList l)) qs =
    Some (AList (l ++ ((fun q => trunc16 (default [] q.2)) <$> qs)))).
  { induction qs as [|q qs IH]; intros l; [cbn; by rewrite app_nil_r|].
    change (fold_rows list_row_adds (Some (AList l)) (q :: qs))
      with (fold_rows list_row_adds (Some (AList (l ++ [trunc16 (default [] q.2)]))) qs).
    by rewrite IH, fmap_cons, <- app_assoc. }
  destruct qs as [|q qs]; [done|]. exact (Hgo []).
Qed.

(** ** The whole load *)

Section Whole.
Context `{DsaAllocator} `{HashBytes} `{KeyspaceLimit} `{!DsaLaws}.
Context (clock : nat -> Z) (now : Z) (R : Heap) (n : nat) (d : Db).
Hypothesis Hok : tables_ok clock n now d.

Lemma parent_row ty p :
  p ∈ select_parents (pg_redis_type_name ty) now d ->
  store d !! p.1 = Some p.2 /\ type_of_row p.2 = Some ty /\ (row_ok clock n d p.1 p.2 \/ empty_parent d p.1 p.2).
Proof.
  intros [[Ht Hl] Hin]%list_elem_of_filter. destruct p as [k row]. apply elem_of_map_to_list in Hin. cbn in *.
  split; [done|]. split; [by apply type_of_row_iff|by apply Hok].
Qed.

Lemma parent_lookup ty k :
  (list_to_map (select_parents (pg_redis_type_name ty) now d) : gmap bytes StoreRow) !! k =
    row ← store d !! k; if decide (type_of_row row = Some ty /\ row_live now row = true) then Some row else None.
Proof.
  unfold select_parents. rewrite select_lookup. destruct (store d !! k) as [row|]; [|done]. cbn [mbind option_bind fst snd].
  apply decide_ext. by rewrite type_of_row_iff.
Qed.

Definition scalar_value (k : bytes) (row : StoreRow) : option AEntry :=
  (fun v => row_shown row (stored (val_view v))) <$> scalar_of row.

Lemma scalars_ok ps V :
  NoDup ps.*1 -> Forall (fun p => blen p.1 <= PG_REDIS_MAX_KEY_SIZE /\ is_Some (scalar_of p.2) /\ V !! p.1 = None) ps ->
  steps_ok (put_row scalar_value) (fun V p => blen p.1 <= PG_REDIS_MAX_KEY_SIZE /\ is_Some (scalar_of p.2) /\ V !! p.1 = None) ps V.
Proof.
  revert V. induction ps as [|p ps IH]; intros V Hnd Hall; [done|]. rewrite fmap_cons, NoDup_cons in Hnd.
  destruct Hnd as [Hni Hnd]. apply Forall_cons in Hall as [Hp Hall]. split; [done|]. apply IH; [done|].
  apply Forall_forall. intros q Hq. rewrite Forall_forall in Hall. rewrite put_row_ne; [by apply Hall|].
  intros E. apply Hni. rewrite <- E. by apply list_elem_of_fmap_2.
Qed.

Lemma load_scalars_law s :
  shows s ∅ R -> (n <= sn_readings s)%nat -> x_db (n_shared (sn_node s)) = d ->
  loads R s (foldl (put_row scalar_value) ∅ (select_scalars now d)) (load_strings_and_ints (shared_load clock now) s).
Proof.
  intros Hs Hn Hd. unfold load_strings_and_ints. rewrite (bind_Ret (gets _) _ _ _ _ eq_refl). cbn [shared_load ld_now ld_db].
  rewrite Hd.
  assert (Hrow : forall p, p ∈ select_scalars now d -> blen p.1 <= PG_REDIS_MAX_KEY_SIZE /\ is_Some (scalar_of p.2) /\
    clock_ahead clock n p.2).
  { intros [k row] [[Hty Hl] Hin]%list_elem_of_filter. apply elem_of_map_to_list in Hin. cbn in *.
    destruct (Hok k row Hin Hl) as [(_ & H3 & H4 & H5)|[[He _]|[He _]]]; [|rewrite He in Hty; by destruct Hty..].
    split; [done|]. split; [|done].
    assert (Ht : type_of_row row = Some PG_REDIS_TYPE_STRING \/ type_of_row row = Some PG_REDIS_TYPE_INT)
      by (by rewrite !type_of_row_iff).
    by destruct Ht as [Ht|Ht]; rewrite Ht in H5. }
  eapply (for_each_loads (put_row scalar_value) _ clock R _ snd); [|done|apply scalars_ok; [apply select_NoDup|]|].
  - intros s1 V [k row] Hs1 (Hk & [v Hv] & HV) Hc. unfold put_row, scalar_value. cbn [fst snd] in *. rewrite Hv.
    by apply load_string_law.
  - apply Forall_forall. intros p Hp. destruct (Hrow p Hp) as (? & ? & _). by rewrite lookup_empty.
  - apply Forall_forall. intros p Hp. destruct (Hrow p Hp) as (_ & _ & Hc). by eapply clock_ahead_mono.
Qed.

(** The loop of either collection. *)
Lemma load_children_law {K : Type} (adds : option AVal -> K * option bytes -> AVal) (met : AVal -> Prop) (item_ok : K -> Prop)
    (ch : bytes -> list (K * option bytes)) ty (body : (bytes * StoreRow) * (K * option bytes) -> M SharedSession unit) s V :
  (forall ov q, from_option met True ov -> met (adds ov q)) ->
  (forall s V k row ov q, shows s V R -> V !! k = row_shown row <$> ov -> from_option met True ov ->
     clock_ahead clock (sn_readings s) row -> blen k <= PG_REDIS_MAX_KEY_SIZE -> item_ok q.1 ->
     loads R s (<[k := row_shown row (adds ov q)]> V) (body ((k, row), q) s)) ->
  (forall k row, store d !! k = Some row -> type_of_row row = Some ty -> V !! k = None /\
     (row_ok clock n d k row -> Forall (fun q => item_ok q.1) (ch k)) /\ (empty_parent d k row -> ch k = [])) ->
  shows s V R -> (n <= sn_readings s)%nat ->
  let ps := select_parents (pg_redis_type_name ty) now d in
  loads R s (foldl (put_row (fun k row => row_shown row <$> fold_rows adds None (ch k))) V ps)
    (for_each (flat_map (fun p => (fun q => (p, q)) <$> ch p.1) ps) body s).
Proof.
  intros Hmet Hbody Hch Hs Hn ps.
  destruct (child_groups adds met item_ok ch Hmet ps (select_NoDup _ d) V) as [Hsteps Hfold].
  { apply Forall_forall. intros p Hp. destruct (parent_row ty p Hp) as (Hr & Ht & Hrow).
    destruct (Hch _ _ Hr Ht) as (HV & Hi & He). split; [done|].
    destruct Hrow as [Hrow|Hem]; [split; [left; apply Hrow|by apply Hi]|]. rewrite (He Hem). split; [by right|constructor]. }
  rewrite <- Hfold. eapply (for_each_loads _ (child_pre met item_ok) clock R body (fun p => p.1.2)); [|done|done|].
  - intros s1 V1 [[k row] q] Hs1 ((ov & Hov & Hm) & Hk & Hq) Hc. cbn [fst snd] in *. unfold child_step. cbn [fst snd].
    rewrite Hov. replace (a_val <$> (row_shown row <$> ov)) with ov by (by destruct ov). by apply Hbody.
  - apply Forall_forall. intros [p q] Hin. apply list_elem_of_In, in_flat_map in Hin as (p' & Hp' & Hin).
    apply list_elem_of_In in Hp', Hin. apply list_elem_of_fmap in Hin as (q' & [= -> ->] & Hq).
    destruct (parent_row ty p' Hp') as (Hr & Ht & Hrow). destruct (Hch _ _ Hr Ht) as (_ & _ & He).
    destruct Hrow as [Hrow|Hem]; [|rewrite (He Hem) in Hq; set_solver]. eapply clock_ahead_mono; [done|apply Hrow].
Qed.

Lemma hash_adds_met ov q : from_option hash_met True ov -> hash_met (hash_row_adds ov q).
Proof. destruct ov; [done|]. intros _. eexists. split; [done|]. apply map_non_empty_singleton. Qed.

Lemma list_adds_met ov q : from_option list_met True ov -> list_met (list_row_adds ov q).
Proof.
  intros Hm. unfold list_row_adds. destruct ov as [v|].
  - destruct Hm as (l & -> & _). exists (l ++ [default [] q.2]). rewrite fmap_app. split; [done|]. by destruct l.
  - by exists [default [] q.2].
Qed.

Lemma load_hashes_law s V :
  shows s V R -> (n <= sn_readings s)%nat -> x_db (n_shared (sn_node s)) = d ->
  (forall k row, store d !! k = Some row -> type_of_row row = Some PG_REDIS_TYPE_HASH -> V !! k = None) ->
  loads R s (foldl (put_row (fun k row => row_shown row <$> fold_rows hash_row_adds None (children (hash_fields d) k))) V
               (select_parents (bs "hash") now d)) (load_hashes (shared_load clock now) s).
Proof.
  intros Hs Hn Hd HV. unfold load_hashes. rewrite (bind_Ret (gets _) _ _ _ _ eq_refl). cbn [shared_load ld_now ld_db]. rewrite Hd.
  apply (load_children_law hash_row_adds hash_met (fun f => blen f <= PG_REDIS_MAX_FIELD_SIZE) (children (hash_fields d))
    PG_REDIS_TYPE_HASH); try done; [apply hash_adds_met|intros; by apply load_hash_law|].
  intros k row Hr Ht. split; [by eapply HV|]. split; [|by apply empty_no_hash_children].
  intros (_ & _ & _ & Hrow). rewrite Ht in Hrow. apply Forall_forall. intros [f v] Hin%elem_of_children. by eapply Hrow.
Qed.

Lemma load_lists_law s V :
  shows s V R -> (n <= sn_readings s)%nat -> x_db (n_shared (sn_node s)) = d ->
  (forall k row, store d !! k = Some row -> type_of_row row = Some PG_REDIS_TYPE_LIST -> V !! k = None) ->
  loads R s (foldl (put_row (fun k row => row_shown row <$> fold_rows list_row_adds None
                                            (merge_sort ord_le (children (list_items d) k)))) V
               (select_parents (bs "list") now d)) (load_lists (shared_load clock now) s).
Proof.
  intros Hs Hn Hd HV. unfold load_lists. rewrite (bind_Ret (gets _) _ _ _ _ eq_refl). cbn [shared_load ld_now ld_db]. rewrite Hd.
  apply (load_children_law list_row_adds list_met (fun _ => True) (fun k => merge_sort ord_le (children (list_items d) k))
    PG_REDIS_TYPE_LIST); try done; [apply list_adds_met|intros; by apply load_list_law|].
  intros k row Hr Ht. split; [by eapply HV|]. split; [by intros; apply Forall_true|].
  intros He. by rewrite (empty_no_list_children _ _ _ Ht He).
Qed.

(** What the three loops leave, key by key. *)
Lemma loops_table k :
  foldl (put_row (fun k row => row_shown row <$> fold_rows list_row_adds None (merge_sort ord_le (children (list_items d) k))))
    (foldl (put_row (fun k row => row_shown row <$> fold_rows hash_row_adds None (children (hash_fields d) k)))
       (foldl (put_row scalar_value) ∅ (select_scalars now d)) (select_parents (bs "hash") now d))
    (select_parents (bs "list") now d) !! k = loaded_table d now k.
Proof.
  rewrite foldl_put_row by apply select_NoDup. rewrite (parent_lookup PG_REDIS_TYPE_LIST k : list_to_map (select_parents (bs "list") now d) !! k = _).
  rewrite foldl_put_row by apply select_NoDup. rewrite (parent_lookup PG_REDIS_TYPE_HASH k : list_to_map (select_parents (bs "hash") now d) !! k = _).
  rewrite foldl_put_row by apply select_NoDup. unfold select_scalars. rewrite select_lookup, lookup_empty.
  unfold loaded_table. destruct (store d !! k) as [row|] eqn:Er; [|done]. cbn [mbind option_bind fst snd].
  destruct (row_live now row) eqn:Hl; [|by rewrite !decide_False by naive_solver].
  unfold loaded_row, scalar_value. rewrite fold_hash_rows, fold_list_rows.
  assert (Hst : (sr_type row = bs "string" \/ sr_type row = bs "int") <->
    type_of_row row = Some PG_REDIS_TYPE_STRING \/ type_of_row row = Some PG_REDIS_TYPE_INT) by (by rewrite !type_of_row_iff).
  destruct (type_of_row row) as [[]|] eqn:Ht;
    repeat first [rewrite decide_False by naive_solver | rewrite decide_True by naive_solver]; try done.
  - by destruct (scalar_of row).
  - by destruct (scalar_of row).
  - by destruct (children (hash_fields d) k).
  - by destruct (merge_sort ord_le (children (list_items d) k)).
Qed.
End Whole.

(** C10: The cold-start load of the shared keyspace restores strings, ints and
    lists, and one field of each hash.  On an empty keyspace, with any allocator
    and hash function, and tables as the program writes them, the load either
    ends with a memory error or leaves exactly: every unexpired string (an empty
    one as NULL) and int, every list with its items in the order of their
    ordinals (each to its length modulo 65536), and of every hash the first
    field of the scan alone; all with the expiry of their row.  Ring and tables
    stay as they were. *)
Theorem shared_load_exact `{DsaAllocator} `{HashBytes} `{KeyspaceLimit} `{!DsaLaws}
    (clock : nat -> Z) (now : Z) (s : SharedSession) (R : Heap) :
  let d := x_db (n_shared (sn_node s)) in
  shows s ∅ R -> tables_ok clock (sn_readings s) now d ->
  match pg_redis_persistence_do_load (shared_load clock now) s with
  | (Ret _, s') => exists V, shows s' V R /\ (forall k, V !! k = loaded_table d now k) /\
      outside (sn_node s') = outside (sn_node s)
  | (Raise e, _) => mem_error e
  end.
Proof.
  intros d Hs Hok. unfold pg_redis_persistence_do_load. rewrite bind_unfold.
  assert (Hd : forall s', outside (sn_node s') = outside (sn_node s) -> x_db (n_shared (sn_node s')) = d)
    by (intros s' Ho; by injection Ho).
  pose proof (load_scalars_law clock now R (sn_readings s) d Hok s Hs (le_n _) eq_refl) as H1'.
  destruct (load_strings_and_ints (shared_load clock now) s) as [[[]|e] s1]; [|exact H1']. destruct H1' as (Hs1 & Ho1 & Hle1).
  set (V1 := foldl _ ∅ _) in Hs1.
  assert (HV1 : forall k row, store d !! k = Some row -> ~ (sr_type row = bs "string" \/ sr_type row = bs "int") -> V1 !! k = None).
  { intros k row Hr Ht. unfold V1. rewrite foldl_put_row by apply select_NoDup. unfold select_scalars.
    rewrite select_lookup, Hr. cbn. by rewrite decide_False by tauto. }
  rewrite bind_unfold. pose proof (load_hashes_law clock now R (sn_readings s) d Hok s1 V1 Hs1 Hle1 (Hd s1 Ho1)) as H2'.
  specialize (H2' ltac:(intros k row Hr Ht%type_of_row_iff; eapply HV1; [done|]; rewrite Ht; naive_solver)).
  destruct (load_hashes (shared_load clock now) s1) as [[[]|e] s2]; [|exact H2']. destruct H2' as (Hs2 & Ho2 & Hle2).
  rewrite Ho1 in Ho2. set (V2 := foldl _ V1 _) in Hs2.
  assert (HV2 : forall k row, store d !! k = Some row -> type_of_row row = Some PG_REDIS_TYPE_LIST -> V2 !! k = None).
  { intros k row Hr Ht. unfold V2. rewrite foldl_put_row by apply select_NoDup.
    rewrite (parent_lookup now d PG_REDIS_TYPE_HASH k : list_to_map (select_parents (bs "hash") now d) !! k = _), Hr.
    cbn [mbind option_bind]. rewrite decide_False by naive_solver. eapply HV1; [done|].
    apply type_of_row_iff in Ht. rewrite Ht. naive_solver. }
  pose proof (load_lists_law clock now R (sn_readings s) d Hok s2 V2 Hs2 ltac:(lia) (Hd s2 Ho2) HV2) as H3'.
  destruct (load_lists (shared_load clock now) s2) as [[[]|e] s3]; [|exact H3'].
  destruct H3' as (Hs3 & Ho3 & _). eexists. split; [exact Hs3|]. split; [by apply loops_table|congruence].
Qed.

(** ** Witnesses and histories *)

#[local] Existing Instance w_size.
#[local] Existing Instance w_hash.
#[local] Existing Instance w_dsa.
#[local] Existing Instance w_laws.

(** A server over the tables [d], its ring and keyspace empty. *)
Definition restarted (d : Db) : SharedSession :=
  {| sn_node := put_shared {| x_ring := x_ring (n_shared (node_of 4)); x_dsa := Some ∅; x_db := d |} (node_of 4);
     sn_scratch := []; sn_readings := 0 |}.

Lemma restarted_shows d : shows (restarted d) ∅ ∅.
Proof. apply empty_store. Qed.

Lemma shared_load_exact_witness :
  match pg_redis_persistence_do_load (shared_load demo_clock 5) (restarted demo_db) with
  | (Ret _, s') => exists V, shows s' V ∅ /\ V !! bs "n" = Some {| a_val := AInt 42; a_expire := None |}
  | (Raise e, _) => mem_error e
  end.
Proof.
  pose proof (shared_load_exact demo_clock 5 (restarted demo_db) ∅ (restarted_shows _) demo_tables_ok) as Hx.
  destruct (pg_redis_persistence_do_load (shared_load demo_clock 5) (restarted demo_db)) as [[u|e] s']; [|exact Hx].
  destruct Hx as (V & Hs & HV & _). exists V. split; [exact Hs|]. rewrite HV. vm_compute. reflexivity.
Defined.

Definition roomy_session : SharedSession := {| sn_node := node_of 16; sn_scratch := []; sn_readings := 0 |}.

(** One drain by the worker. *)
Definition drain_now : M SharedSession Z := on_node (fun w =>
  let '(r, x) := pg_redis_persistence_async_drain async_config 0 (n_shared w) in (r, put_shared x w)).

(** The server works with [before] and drains; it restarts over the tables,
    loads, and [after] asks. *)
Definition across_restart {A B} (before : M SharedSession A) (after : M SharedSession B) : outcome B :=
  let s := ((before ;; drain_now) roomy_session).2 in
  ((pg_redis_persistence_do_load (shared_load demo_clock 5) ;; after) (restarted (x_db (n_shared (sn_node s))))).1.

#[local] Existing Instance shared_ops.
#[local] Instance a_ops : StoreOps SharedSession nat := w_ops async_config.


(** LPUSH a, LPUSH b, LPOP leaves the list [a]; in shared asynchronous mode the
    tables are left with [b], also when the pushes are drained before the pop:
    the writeback numbers the nodes from 0, so the pop of the head deletes the
    row of the item that stays. *)
Example restart_keeps_popped_item :
  let fill := pg_redis_lpush async_config (bs "l") (bs "a") ;; pg_redis_lpush async_config (bs "l") (bs "b") ;;
              drain_now ;; pg_redis_lpop async_config (bs "l") in
  let ask := n ← pg_redis_llen async_config (bs "l"); x ← pg_redis_lpop async_config (bs "l"); mret (n, x) in
  ((fill ;; ask) roomy_session).1 = Ret (1, Some (bs "a")) /\ across_restart fill ask = Ret (1, Some (bs "b")).
Proof. vm_compute. done. Qed.

(** ** A load that fails and is tried again *)

(** Memory for [n] chunks. *)
Definition tight_allocator (n : nat) : DsaAllocator := fun h sz =>
  if (n <=? size h)%nat then None else bump_allocator 100000 h sz.

Definition two_items : Db :=
  {| store := {[ bs "l" := demo_row "list" ]}; hash_fields := ∅;
     list_items := {[ (bs "l", 0) := Some (bs "a"); (bs "l", 1) := Some (bs "b") ]} |}.
Definition one_field : Db :=
  {| store := {[ bs "h" := demo_row "hash" ]}; hash_fields := {[ (bs "h", bs "f") := Some (bs "v") ]}; list_items := ∅ |}.


(** A second load, which the watchdog allows while the first is running, adds the
    items of every list again. *)
Example second_load_doubles_lists :
  let load := pg_redis_persistence_do_load (shared_load demo_clock 5) in
  ((load ;; pg_redis_llen async_config (bs "l")) (restarted two_items)).1 = Ret 2 /\
  ((load ;; load ;; pg_redis_llen async_config (bs "l")) (restarted two_items)).1 = Ret 4.
Proof. vm_compute. done. Qed.
