(* ===== verification/DatumVec.v ===== *)
(** * Growable vectors of datums (src/persistence.c)

    [run_flush] and the drain collect the parameters of their statements in
    [DatumVec]s: two arrays, of values and of null flags, that double when they
    are full.  Here the arrays are kept at their allocated length with the bytes
    of a fresh allocation left unspecified, an access past the end is a
    [SEGMENTATION_FAULT], and the theorem shows what Persistence.v and
    AsyncDrain.v take for granted: pushing appends. *)
From S2P Require Import Prelude Types SharedMem.

Section DatumVec.
Context {Datum : Type}.
(** What [palloc] leaves in a fresh cell, and the largest request it grants
    ([MaxAllocSize], one gigabyte less one byte). *)
Context (junk_val : Datum) (junk_null : bool) (MaxAllocSize : Z).

Definition sizeof_Datum : Z := 8.
Definition sizeof_bool : Z := 1.

Record DatumVec := { vals : list Datum; nulls : list bool; vn : Z; cap : Z }.

(** [palloc] and [repalloc] of an array: a request that is too large raises. *)
Definition alloc_array {A} (size : Z) (junk : A) (count : Z) : outcome (list A) :=
  if MaxAllocSize <? u64 (count * size) then Raise ERRCODE_INTERNAL_ERROR
  else Ret (replicate (Z.to_nat count) junk).
Definition realloc_array {A} (size : Z) (junk : A) (count : Z) (old : list A) : outcome (list A) :=
  if MaxAllocSize <? u64 (count * size) then Raise ERRCODE_INTERNAL_ERROR
  else Ret (take (Z.to_nat count) old ++ replicate (Z.to_nat count - length old) junk).

Definition vec_init : outcome DatumVec :=
  match alloc_array sizeof_Datum junk_val 16, alloc_array sizeof_bool junk_null 16 with
  | Ret vs, Ret ns => Ret {| vals := vs; nulls := ns; vn := 0; cap := 16 |}
  | Raise e, _ | _, Raise e => Raise e
  end.

(** The new capacity is stored before either array is reallocated; [cap] is an
    [int]. *)
Definition vec_grow : M DatumVec unit := fun v =>
  let c := s32 (cap v * 2) in
  match realloc_array sizeof_Datum junk_val c (vals v) with
  | Raise e => (Raise e, {| vals := vals v; nulls := nulls v; vn := vn v; cap := c |})
  | Ret vs =>
      match realloc_array sizeof_bool junk_null c (nulls v) with
      | Raise e => (Raise e, {| vals := vs; nulls := nulls v; vn := vn v; cap := c |})
      | Ret ns => (Ret tt, {| vals := vs; nulls := ns; vn := vn v; cap := c |})
      end
  end.

(** [a[i] = x] within the allocation. *)
Definition array_write {A} (a : list A) (i : Z) (x : A) : outcome (list A) :=
  if (0 <=? i) && (i <? Z.of_nat (length a)) then Ret (<[Z.to_nat i := x]> a) else Raise SEGMENTATION_FAULT.

Definition vec_push (d : Datum) (isnull : bool) : M DatumVec unit :=
  v ← gets id;
  (if vn v =? cap v then vec_grow else mret tt) ;;
  v ← gets id;
  match array_write (vals v) (vn v) d, array_write (nulls v) (vn v) isnull with
  | Ret vs, Ret ns => modify (fun _ => {| vals := vs; nulls := ns; vn := s32 (vn v + 1); cap := cap v |})
  | Raise e, _ | _, Raise e => ereport e
  end.

(** [construct_md_array] reads the first [n] cells of both arrays; a null cell
    has no value.  [None] is a null element. *)
Definition vec_to_array (v : DatumVec) : outcome (list (option Datum)) :=
  let n := Z.to_nat (vn v) in
  if (n <=? length (vals v))%nat && (n <=? length (nulls v))%nat
  then Ret (zip_with (fun (b : bool) d => if b then None else Some d) (take n (nulls v)) (take n (vals v)))
  else Raise SEGMENTATION_FAULT.

(** ** Pushing appends *)

Definition element (p : Datum * bool) : option Datum := if p.2 then None else Some p.1.

(** Both arrays have [cap] cells, the first [n] of which were pushed. *)
Record vec_ok (v : DatumVec) (ps : list (Datum * bool)) : Prop := {
  vo_vals : exists t, vals v = ps.*1 ++ t /\ Z.of_nat (length (vals v)) = cap v;
  vo_nulls : exists t, nulls v = ps.*2 ++ t /\ Z.of_nat (length (nulls v)) = cap v;
  vo_n : vn v = Z.of_nat (length ps);
  vo_cap : 16 <= cap v;
  vo_max : cap v * sizeof_Datum <= MaxAllocSize
}.

Hypothesis Hmax : 16 * sizeof_Datum <= MaxAllocSize < 2 ^ 30.

Lemma vec_init_ok : exists v, vec_init = Ret v /\ vec_ok v [].
Proof.
  unfold vec_init, alloc_array, sizeof_Datum, sizeof_bool in *.
  change (u64 (16 * 8)) with 128. change (u64 (16 * 1)) with 16.
  rewrite !(proj2 (Z.ltb_ge _ _)) by lia.
  eexists. split; [done|]. split; cbn [vals nulls vn cap]; try done; [by eexists..|apply Hmax].
Qed.

Lemma realloc_grows {A} (size : Z) (junk : A) c a (l t : list A) :
  0 < size <= sizeof_Datum -> c <= 2 ^ 32 -> a = l ++ t -> Z.of_nat (length a) <= c -> c * size <= MaxAllocSize ->
  exists t', realloc_array size junk c a = Ret (l ++ t') /\ Z.of_nat (length (l ++ t')) = c.
Proof.
  intros Hs Hc -> Hl Hm. unfold realloc_array, sizeof_Datum in *. rewrite wrap_u_small, (proj2 (Z.ltb_ge _ _)) by nia.
  rewrite take_ge, <- app_assoc by lia. eexists. split; [done|].
  rewrite length_app in Hl. rewrite !length_app, length_replicate. lia.
Qed.

Lemma vec_grow_ok v ps :
  vec_ok v ps ->
  match vec_grow v with
  | (Ret _, v') => vec_ok v' ps /\ cap v' = 2 * cap v
  | (Raise e, _) => e = ERRCODE_INTERNAL_ERROR /\ MaxAllocSize < 16 * cap v
  end.
Proof.
  intros [(tv & Ev & Hv) (tn & En & Hn) Hln Hc Hm]. unfold vec_grow, sizeof_Datum in *.
  assert (s32 (cap v * 2) = 2 * cap v) as -> by (unfold wrap_s; rewrite Z.mod_small; lia).
  destruct (Z.le_gt_cases (2 * cap v * 8) MaxAllocSize) as [Hle|Hgt].
  - destruct (realloc_grows 8 junk_val (2 * cap v) _ _ _ ltac:(done) ltac:(lia) Ev ltac:(lia) Hle) as (tv' & -> & Lv).
    destruct (realloc_grows sizeof_bool junk_null (2 * cap v) _ _ _ ltac:(done) ltac:(lia) En ltac:(lia) ltac:(unfold sizeof_bool; lia))
      as (tn' & -> & Ln).
    split; [|done]. split; cbn; [by eexists..|done|lia|unfold sizeof_Datum; lia].
  - unfold realloc_array. rewrite wrap_u_small, (proj2 (Z.ltb_lt _ _)) by lia. split; [done|lia].
Qed.

Lemma array_write_next {A} (l t : list A) (a : list A) c x :
  a = l ++ t -> Z.of_nat (length a) = c -> Z.of_nat (length l) < c ->
  exists t', array_write a (Z.of_nat (length l)) x = Ret ((l ++ [x]) ++ t') /\ Z.of_nat (length ((l ++ [x]) ++ t')) = c.
Proof.
  intros -> Hl Hlt. unfold array_write. rewrite (proj2 (Z.leb_le _ _)), (proj2 (Z.ltb_lt _ _)) by lia. cbn [andb].
  rewrite length_app in Hl. destruct t as [|y t]; [cbn in Hl; lia|]. exists t. rewrite Nat2Z.id, insert_app_r_alt, Nat.sub_diag by lia.
  cbn [list_insert insert]. rewrite <- app_assoc. split; [done|]. rewrite length_app in *. cbn in *. lia.
Qed.

Lemma vec_push_ok v ps d b :
  vec_ok v ps ->
  match vec_push d b v with
  | (Ret _, v') => vec_ok v' (ps ++ [(d, b)])
  | (Raise e, _) => e = ERRCODE_INTERNAL_ERROR /\ MaxAllocSize < 16 * Z.of_nat (length ps)
  end.
Proof.
  intros Hv. unfold vec_push. rewrite bind_unfold. cbn [gets id]. rewrite bind_unfold.
  assert (Hgrow : match (if vn v =? cap v then vec_grow else mret tt) v with
    | (Ret _, v') => vec_ok v' ps /\ vn v' < cap v'
    | (Raise e, _) => e = ERRCODE_INTERNAL_ERROR /\ MaxAllocSize < 16 * Z.of_nat (length ps) end).
  { pose proof Hv as [(tv & Ev & Hlv) _ Hn Hc _]. destruct (Z.eqb_spec (vn v) (cap v)) as [E|E].
    - pose proof (vec_grow_ok v ps Hv) as Hg. destruct (vec_grow v) as [[u|e] v']; [|by rewrite <- Hn, E].
      destruct Hg as [Hg Hc']. split; [done|]. pose proof (vo_n _ _ Hg). lia.
    - split; [done|]. rewrite Ev, length_app, length_fmap in Hlv. lia. }
  destruct ((if vn v =? cap v then vec_grow else mret tt) v) as [[u|e] v1]; [|done]. destruct Hgrow as [[(tv & Ev & Hlv) (tn & En & Hln) Hn Hc Hm] Hlt].
  rewrite bind_unfold. cbn [gets id].
  replace (vn v1) with (Z.of_nat (length ps.*1)) in * by (by rewrite length_fmap).
  destruct (array_write_next _ _ _ _ d Ev Hlv Hlt) as (tv' & -> & Lv).
  rewrite length_fmap, <- (length_fmap snd ps) in Hlt |- *.
  destruct (array_write_next _ _ _ _ b En Hln Hlt) as (tn' & -> & Ln).
  split; cbn; rewrite ?fmap_app; [by eexists..| |done|done].
  rewrite length_app, length_fmap in *. cbn. unfold sizeof_Datum in *. unfold wrap_s. rewrite Z.mod_small; lia.
Qed.

Definition push_all (ps : list (Datum * bool)) : M DatumVec unit := for_each ps (fun p => vec_push p.1 p.2).

Lemma push_all_ok qs : forall v ps,
  vec_ok v ps ->
  match push_all qs v with
  | (Ret _, v') => vec_ok v' (ps ++ qs)
  | (Raise e, _) => e = ERRCODE_INTERNAL_ERROR /\ MaxAllocSize < 16 * Z.of_nat (length (ps ++ qs))
  end.
Proof.
  induction qs as [|[d b] qs IH]; intros v ps Hv; [cbn; by rewrite app_nil_r|].
  cbn [push_all for_each fst snd]. rewrite bind_unfold. pose proof (vec_push_ok v ps d b Hv) as Hp.
  destruct (vec_push d b v) as [[u|e] v1].
  - specialize (IH v1 _ Hp). rewrite <- app_assoc in IH. exact IH.
  - destruct Hp as [-> Hp]. split; [done|]. rewrite length_app. lia.
Qed.

Lemma vec_to_array_ok v ps : vec_ok v ps -> vec_to_array v = Ret (element <$> ps).
Proof.
  intros [(tv & Ev & Hlv) (tn & En & Hln) Hn Hc Hm]. unfold vec_to_array. rewrite Hn, Nat2Z.id.
  assert (length ps <= length (vals v))%nat by (rewrite Ev, length_app, length_fmap; lia).
  assert (length ps <= length (nulls v))%nat by (rewrite En, length_app, length_fmap; lia).
  rewrite !(proj2 (Nat.leb_le _ _)) by done. cbn [andb]. rewrite Ev, En.
  rewrite (take_app_length' ps.*2), (take_app_length' ps.*1) by (by rewrite length_fmap).
  f_equal. clear. induction ps as [|[d []] ps IH]; cbn; [done|by rewrite IH..].
Qed.
End DatumVec.

(** C31: A parameter array is what was pushed, in order.  For any sequence of
    pushes on a new vector, the array built from it holds the pushed elements in
    their order with their null flags; no write leaves the arrays, both arrays
    keep [cap] cells and the doubling of [cap] does not overflow.  A push fails
    only as [repalloc] does, and not before the vector holds a sixteenth of the
    largest allocation, 67 million elements. *)
Theorem vec_builds_array {Datum : Type} (junk_val : Datum) (junk_null : bool) (MaxAllocSize : Z)
    (ps : list (Datum * bool)) :
  16 * sizeof_Datum <= MaxAllocSize < 2 ^ 30 ->
  exists v0, vec_init junk_val junk_null MaxAllocSize = Ret v0 /\
    match push_all junk_val junk_null MaxAllocSize ps v0 with
    | (Ret _, v) => vec_to_array v = Ret (element <$> ps) /\ vn v <= cap v < 2 ^ 27 /\
        Z.of_nat (length (vals v)) = cap v /\ Z.of_nat (length (nulls v)) = cap v
    | (Raise e, _) => e = ERRCODE_INTERNAL_ERROR /\ MaxAllocSize < 16 * Z.of_nat (length ps)
    end.
Proof.
  intros Hmax. destruct (vec_init_ok junk_val junk_null MaxAllocSize Hmax) as (v0 & -> & Hv0). exists v0. split; [done|].
  pose proof (push_all_ok junk_val junk_null MaxAllocSize Hmax ps v0 [] Hv0) as Hp. cbn [app] in Hp.
  destruct (push_all _ _ _ ps v0) as [[u|e] v]; [|done]. split; [by eapply vec_to_array_ok|].
  destruct Hp as [(tv & Ev & Hlv) (tn & En & Hln) Hn Hc Hm]. unfold sizeof_Datum in *.
  split; [|done]. rewrite Ev, length_app, length_fmap in Hlv. lia.
Qed.

(** Twenty elements: the vector grows once. *)
Lemma vec_builds_array_witness :
  exists v0, vec_init 0 false (2 ^ 30 - 1) = Ret v0 /\
    match push_all 0 false (2 ^ 30 - 1) ((fun x => (x, Z.even x)) <$> seqZ 0 20) v0 with
    | (Ret _, v) => vec_to_array v = Ret ((fun x => if Z.even x then None else Some x) <$> seqZ 0 20) /\ cap v = 32
    | (Raise e, _) => False
    end.
Proof.
  destruct (vec_builds_array 0 false (2 ^ 30 - 1) ((fun x => (x, Z.even x)) <$> seqZ 0 20)) as (v0 & E & Hp).
  - unfold sizeof_Datum. lia.
  - exists v0. split; [exact E|]. revert Hp. injection E as <-. vm_compute. intros [Hx _]. split; [exact Hx|reflexivity].
Defined.
