(* ===== verification/Shmem.v ===== *)
(** * Shared memory: sizes, partition locks, snapshots, FLUSHALL (src/shmem.c)

    The sizing of the shared table, the choice of a key's partition lock and the
    acquisition of all of them, the flag of the snapshot in progress, and the
    shared branch of FLUSHALL (src/pg_redis.c), which takes every partition lock,
    resets the keyspace, and then clears the ring and the tables. *)
From S2P Require Import Prelude Types Utils StoreInterface Db Persistence SharedMem SharedHash SharedStore SharedStoreSpec.
From S2P Require Import SharedStoreOps DirtyEvent DirtyRing RingProtocol AsyncDrain AsyncPublish SharedAtomic SharedStoreRefine ColdStart.

(** ** Sizes *)

Definition PG_REDIS_BYTES_PER_ENTRY : Z := 2048.

(** In [Size], 64 bits unsigned. *)
Definition estimate_max_entries (shared_max_memory_mb : Z) : Z :=
  let est := u64 (u64 (u64 shared_max_memory_mb * 1024) * 1024) / PG_REDIS_BYTES_PER_ENTRY in
  if est <? 1024 then 1024 else est.

(** ** Partition locks *)

Section Locks.
Context `{HashBytes} (lock_partitions : Z).

(** The index of the lock, when there are locks; [hash_bytes] is a [uint32]. *)
Definition pg_redis_partition_lock (key : bytes) : option Z :=
  if lock_partitions <=? 0 then None else Some ((hash_bytes key mod 2 ^ 32) mod lock_partitions).

(** In the order of acquisition and of release. *)
Definition acquire_all_partition_locks : list Z := seqZ 0 lock_partitions.
Definition release_all_partition_locks : list Z := reverse (seqZ 0 lock_partitions).
End Locks.

(** ** The snapshot flag *)

(** [None] when shared memory is not initialised. *)
Definition pg_redis_shmem_try_begin_snapshot (snapshot_in_progress : option bool) : bool * option bool :=
  match snapshot_in_progress with
  | None => (true, None)
  | Some true => (false, Some true)
  | Some false => (true, Some true)
  end.
Definition pg_redis_shmem_end_snapshot (snapshot_in_progress : option bool) : option bool :=
  (fun _ => false) <$> snapshot_in_progress.

(** ** FLUSHALL *)

Section Flush.
Context (cfg : Config).

(** [SQL_TRUNCATE_STORE] runs only when persistence writes. *)
Definition truncated (d : Db) : Db :=
  if persistence_writes_enabled cfg
  then match SQL_TRUNCATE_STORE d with Ret d' => d' | Raise _ => d end else d.

(** The shared branch of [pg_redis_flushall]; the keyspace then counts as
    loaded. *)
Definition shared_flushall (s : Node * LoadHeader) : outcome bool * (Node * LoadHeader) :=
  match on_store pg_redis_shared_store_reset_all s.1 with
  | (Raise e, w1) => (Raise e, (w1, s.2))
  | (Ret _, w1) =>
      let x := n_shared w1 in
      let '(_, (h, area)) := pg_redis_dirty_ring_drop_all_pending (x_ring x, x_dsa x) in
      (Ret true, (put_shared {| x_ring := h; x_dsa := area; x_db := truncated (x_db x) |} w1, set_loaded_flag 2 s.2))
  end.
End Flush.

(** ** Properties *)

Lemma seqZ_sorted n : 0 <= n -> forall m, StronglySorted Z.lt (seqZ m n).
Proof.
  intros Hn. pattern n. apply natlike_ind; [constructor| |done]. intros k Hk IH m.
  rewrite seqZ_cons by lia. rewrite Z.pred_succ. constructor; [apply IH|].
  apply Forall_forall. intros x Hx%elem_of_seqZ. lia.
Qed.

(** The flag is a lock: between a start that is granted and its end no other is. *)
Lemma snapshot_flag_excludes f :
  (pg_redis_shmem_try_begin_snapshot (Some f)).2 = Some true /\
  (pg_redis_shmem_try_begin_snapshot (Some f)).1 = negb f /\
  (pg_redis_shmem_try_begin_snapshot (pg_redis_shmem_end_snapshot (Some f))).1 = true.
Proof. by destruct f. Qed.

(** The shared table is sized as configured.  Over the whole range of
    pg_redis.shared_max_memory, 1 to 32768 MB, the estimate is exact, 512 entries
    per MB with a floor of 1024, and nothing wraps. *)
Theorem estimate_exact mb :
  1 <= mb <= 32768 -> estimate_max_entries mb = Z.max 1024 (512 * mb).
Proof.
  intros Hmb. unfold estimate_max_entries, PG_REDIS_BYTES_PER_ENTRY. rewrite (wrap_u_small 64 mb), (wrap_u_small 64 (mb * 1024)), wrap_u_small by lia.
  replace (mb * 1024 * 1024) with (512 * mb * 2048) by lia. rewrite Z.div_mul by lia.
  destruct (Z.ltb_spec (512 * mb) 1024); lia.
Qed.

Lemma lock_in_range `{HashBytes} (lock_partitions : Z) (key : bytes) :
  1 <= lock_partitions ->
  exists i, pg_redis_partition_lock lock_partitions key = Some i /\ 0 <= i < lock_partitions.
Proof.
  intros Hp. unfold pg_redis_partition_lock. rewrite (proj2 (Z.leb_gt _ _)) by lia. eexists. split; [done|].
  apply Z.mod_pos_bound. lia.
Qed.

(** Whoever holds all the partition locks excludes every command.  With any
    number of partitions and any hash function, the lock of every key is one of
    those FLUSHALL acquires; it acquires each once, in increasing order, and
    releases exactly these in the opposite order. *)
Theorem partition_locks_cover `{HashBytes} (lock_partitions : Z) (key : bytes) :
  1 <= lock_partitions ->
  (exists i, pg_redis_partition_lock lock_partitions key = Some i /\ i ∈ acquire_all_partition_locks lock_partitions) /\
  StronglySorted Z.lt (acquire_all_partition_locks lock_partitions) /\
  release_all_partition_locks lock_partitions = reverse (acquire_all_partition_locks lock_partitions).
Proof.
  intros Hp. split; [|split; [|done]].
  - destruct (lock_in_range lock_partitions key Hp) as (i & Hi & Hr). exists i. split; [done|].
    unfold acquire_all_partition_locks. rewrite elem_of_seqZ. lia.
  - unfold acquire_all_partition_locks. apply seqZ_sorted. lia.
Qed.

(** The heap only loses payloads of dropped events. *)
Lemma drop_loop_heap n : forall r w h (area : Heap),
  exists area', (drop_loop n r w (h, Some area)).2.2 = Some area' /\ area' ⊆ area.
Proof.
  induction n as [|n IH]; intros r w h area; [by exists area|]. cbn [drop_loop].
  destruct (r <? w); [|by exists area]. cbn [fst].
  assert (Hgo : exists area', (let '(evs, x') := drop_loop n (u64 (r + 1)) w
      (set_slot r empty_slot h, free_event_spill (sl_event (slot h r)) (Some area)) in
      (sl_event (slot h r) :: evs, x')).2.2 = Some area' /\ area' ⊆ area).
  { unfold free_event_spill. destruct (_ && _).
    - rewrite pfree_hfree. destruct (IH (u64 (r + 1)) w (set_slot r empty_slot h) (hfree (ev_dsa_payload (sl_event (slot h r))) area))
        as (area' & E & Hs). destruct (drop_loop n _ w _) as [evs x']. exists area'. split; [done|]. etrans; [done|].
      apply map_subseteq_spec. intros q c. rewrite lookup_hfree. by case_decide.
    - destruct (IH (u64 (r + 1)) w (set_slot r empty_slot h) area) as (area' & E & Hs).
      destruct (drop_loop n _ w _) as [evs x']. by exists area'. }
  destruct (sl_state (slot h r)); try done; by exists area.
Qed.

(** Dropping the queue of a ring between operations. *)
Lemma drop_all_quiet h (area : Heap) :
  ring_quiet h ->
  exists evs h' area', pg_redis_dirty_ring_drop_all_pending (h, Some area) = (evs, (h', Some area')) /\
    pending_events h' = [] /\ area' ⊆ area.
Proof.
  intros Hq. pose proof Hq as []. unfold pg_redis_dirty_ring_drop_all_pending. cbn [fst].
  rewrite (proj2 (Z.leb_gt _ _)) by done. set (n := Z.to_nat (ring_write_head h - ring_read_head h)).
  destruct (drop_loop_heap n (ring_read_head h) (ring_write_head h) h area) as (area' & Ea & Hs).
  destruct (drop_loop_eq n (ring_read_head h) (ring_write_head h) (h, Some area)) as [area0 E]; cbn [fst]; try lia.
  { apply rq_ready. }
  unfold Dsa in *. rewrite E in Ea |- *. cbn [fst snd] in Ea. subst area0. cbn [fst].
  do 3 eexists. split; [done|]. split; [|done]. unfold pending_events.
  destruct (range_events n (ring_read_head h) h) as [|ev evs] eqn:Er.
  - apply (f_equal length) in Er. rewrite range_events_length in Er. cbn in Er.
    destruct (update_range_heads n (ring_read_head h) empty_slot h) as (-> & -> & _).
    replace (ring_write_head h - ring_read_head h) with 0 by lia. done.
  - apply (f_equal length) in Er. rewrite range_events_length in Er. cbn [set_read_head ring_read_head ring_write_head].
    destruct (update_range_heads n (ring_read_head h) empty_slot h) as (-> & _ & _). rewrite <- Er, wrap_u_small by lia.
    replace (ring_write_head h - (ring_read_head h + Z.of_nat n)) with 0 by lia. done.
Qed.


(** ** Witnesses *)

Lemma estimate_exact_witness : estimate_max_entries 2048 = 1048576.
Proof. rewrite estimate_exact; [reflexivity|lia]. Defined.

Lemma partition_locks_cover_witness :
  exists i, @pg_redis_partition_lock (fun b => blen b) 16 (bs "k") = Some i /\ i ∈ acquire_all_partition_locks 16.
Proof. apply (@partition_locks_cover (fun b => blen b) 16 (bs "k")). lia. Defined.

Lemma node_of_quiet : ring_quiet (x_ring (n_shared (node_of 4))).
Proof. split; try (by vm_compute). intros pos Hp. change (0 <= pos < 0) in Hp. lia. Qed.

