(* ===== verification/Jobs.v ===== *)
(** * Scheduled jobs (src/jobs.c)

    The tables [pgredis.jobs] and [pgredis.job_stats], the dispatch of a job and
    the run of the due ones.  [now] is [now()], the start of the transaction, the
    same for all jobs of one run.  Adding an interval to a time is PostgreSQL's:
    a parameter.  The handlers are operations of other components; they run in
    a subtransaction, whose rollback takes the tables back and leaves private
    memory as it is: [rollback before after].  [tod] gives the two
    [gettimeofday] readings around a job, as seconds and microseconds. *)
From S2P Require Import Prelude Types.

Class IntervalArith (Interval : Type) := add_interval : Z -> Interval -> Z.

Record Job (Interval : Type) := {
  job_type : bytes;
  schedule_interval : Interval;
  job_enabled : bool;
  last_run : option Z;
  next_run : option Z;
  job_last_error : option bytes
}.
Arguments job_type {Interval}.
Arguments schedule_interval {Interval}.
Arguments job_enabled {Interval}.
Arguments last_run {Interval}.
Arguments next_run {Interval}.
Arguments job_last_error {Interval}.

Record JobStats := {
  total_runs : Z;
  successful_runs : Z;
  failed_runs : Z;
  last_duration_ms : option Z;
  last_success : option Z;
  last_failure : option Z;
  stats_last_error : option bytes
}.

Record JobTables (Interval : Type) := { jobs : gmap Z (Job Interval); job_stats : gmap Z JobStats }.
Arguments jobs {Interval}.
Arguments job_stats {Interval}.

(** What a job can do, on a state [X], and the text of an error. *)
Record Handlers (X : Type) := {
  h_ttl_sweep : M X unit;
  h_save_snapshot : M X unit;
  h_flush_dirty_batch : Z -> M X unit;
  h_message : errcode -> bytes;
  h_rollback : X -> X -> X
}.
Arguments h_ttl_sweep {X}.
Arguments h_save_snapshot {X}.
Arguments h_flush_dirty_batch {X}.
Arguments h_message {X}.
Arguments h_rollback {X}.

Section Jobs.
Context `{IntervalArith Interval} {X : Type} (hs : Handlers X).

(** Success, or the text for [last_error]. *)
Definition dispatch_job (type : option bytes) : M X (bool * option bytes) :=
  match type with
  | None => mret (false, Some (bs "missing job_type"))
  | Some t =>
      if decide (t = bs "ttl_cleanup") then h_ttl_sweep hs ;; mret (true, None)
      else if decide (t = bs "snapshot_save") then h_save_snapshot hs ;; mret (true, None)
      else if decide (t = bs "flush_dirty_keys") then h_flush_dirty_batch hs 1000 ;; mret (true, None)
      else if decide (t = bs "aof_rewrite") then mret (false, Some (bs "aof_rewrite is not implemented in v0.1"))
      else mret (false, Some (bs "unknown job_type " ++ [Byte.x22] ++ t ++ [Byte.x22]))
  end.

Definition update_job (now : Z) (error : option bytes) (success : bool) (j : Job Interval) : Job Interval :=
  {| job_type := job_type j; schedule_interval := schedule_interval j; job_enabled := job_enabled j;
     last_run := Some now; next_run := Some (add_interval now (schedule_interval j));
     job_last_error := if success then None else error |}.

Definition first_stats (now : Z) (error : option bytes) (duration_ms : Z) (success : bool) : JobStats :=
  {| total_runs := 1; successful_runs := if success then 1 else 0; failed_runs := if success then 0 else 1;
     last_duration_ms := Some duration_ms;
     last_success := if success then Some now else None; last_failure := if success then None else Some now;
     stats_last_error := if success then None else error |}.

Definition next_stats (now : Z) (error : option bytes) (duration_ms : Z) (success : bool) (s : JobStats) : JobStats :=
  {| total_runs := total_runs s + 1;
     successful_runs := successful_runs s + (if success then 1 else 0);
     failed_runs := failed_runs s + (if success then 0 else 1);
     last_duration_ms := Some duration_ms;
     last_success := if success then Some now else last_success s;
     last_failure := if success then last_failure s else Some now;
     stats_last_error := if success then stats_last_error s else error |}.

(** The UPDATE of jobs and the upsert of job_stats. *)
Definition update_job_row (now id : Z) (error : option bytes) (duration_ms : Z) (success : bool)
    (t : JobTables Interval) : JobTables Interval :=
  {| jobs := alter (update_job now error success) id (jobs t);
     job_stats := <[id := match job_stats t !! id with
                          | None => first_stats now error duration_ms success
                          | Some s => next_stats now error duration_ms success s
                          end]> (job_stats t) |}.

Definition elapsed_ms (t_begin t_end : Z * Z) : Z :=
  Z.max 0 ((t_end.1 - t_begin.1) * 1000 + Z.quot (t_end.2 - t_begin.2) 1000).

(** The handler in its subtransaction: success, error text, and the state. *)
Definition run_handler (type : option bytes) (x : X) : bool * option bytes * X :=
  match dispatch_job type x with
  | (Ret (true, _), x') => (true, None, x')
  | (Ret (false, err), x') => (false, err, h_rollback hs x x')
  | (Raise e, x') => (false, Some (h_message hs e), h_rollback hs x x')
  end.

Definition pg_redis_jobs_run_one (now : Z) (tod : (Z * Z) * (Z * Z)) (id : Z) (s : JobTables Interval * X)
    : bool * (JobTables Interval * X) :=
  match jobs s.1 !! id with
  | Some j =>
      if job_enabled j then
        let '(success, err, x') := run_handler (Some (job_type j)) s.2 in
        (success, (update_job_row now id (if success then None else Some (default (bs "unknown error") err))
                     (elapsed_ms tod.1 tod.2) success s.1, x'))
      else (false, s)
  | None => (false, s)
  end.

(** [enabled AND next_run IS NOT NULL AND next_run <= now()] *)
Definition job_due (now : Z) (j : Job Interval) : bool :=
  job_enabled j && match next_run j with Some t => t <=? now | None => false end.

Definition next_run_le (p q : Z * Job Interval) : Prop := default 0 (next_run p.2) <= default 0 (next_run q.2).
#[export] Instance next_run_le_dec p q : Decision (next_run_le p q).
Proof. unfold next_run_le. apply _. Defined.
#[export] Instance next_run_le_total : Total next_run_le.
Proof. intros p q. unfold next_run_le. lia. Qed.

(** [ORDER BY next_run ASC] *)
Definition due_jobs (now : Z) (t : JobTables Interval) : list Z :=
  (merge_sort next_run_le (filter (fun p => job_due now p.2 = true) (map_to_list (jobs t)))).*1.

Fixpoint run_ids (now : Z) (tod : Z -> (Z * Z) * (Z * Z)) (ids : list Z) (s : JobTables Interval * X)
    : Z * (JobTables Interval * X) :=
  match ids with
  | [] => (0, s)
  | id :: ids' =>
      if id =? 0 then run_ids now tod ids' s
      else
        let '(ok, s1) := pg_redis_jobs_run_one now (tod id) id s in
        let '(n, s2) := run_ids now tod ids' s1 in
        ((if ok : bool then 1 else 0) + n, s2)
  end.

Definition pg_redis_jobs_run_due (now : Z) (tod : Z -> (Z * Z) * (Z * Z)) (s : JobTables Interval * X)
    : Z * (JobTables Interval * X) := run_ids now tod (due_jobs now s.1) s.

(** ** What a run does to the tables *)

(** The three counters of a job. *)
Definition counters (t : JobTables Interval) (id : Z) : Z * Z * Z :=
  match job_stats t !! id with
  | Some s => (total_runs s, successful_runs s, failed_runs s)
  | None => (0, 0, 0)
  end.

Definition untouched (t t' : JobTables Interval) (id : Z) : Prop :=
  jobs t' !! id = jobs t !! id /\ job_stats t' !! id = job_stats t !! id.

(** The job ran once, with result [ok]. *)
Definition ran (now : Z) (t t' : JobTables Interval) (id : Z) : Prop :=
  exists j ok err, jobs t !! id = Some j /\ jobs t' !! id = Some (update_job now err ok j) /\
    let '(a, b, c) := counters t id in
    counters t' id = (a + 1, b + (if ok : bool then 1 else 0), c + (if ok then 0 else 1)).

Lemma update_row_spec now id err ms ok t j :
  jobs t !! id = Some j ->
  let t' := update_job_row now id err ms ok t in
  ran now t t' id /\ forall id', id' <> id -> untouched t t' id'.
Proof.
  intros Hj t'. split.
  - exists j, ok, err. split; [done|]. cbn. rewrite lookup_alter_eq, Hj. split; [done|]. unfold counters. cbn.
    rewrite lookup_insert_eq. destruct (job_stats t !! id); done.
  - intros id' Hne. unfold untouched. cbn. by rewrite lookup_alter_ne, lookup_insert_ne.
Qed.

Lemma run_one_spec now tod id s j :
  jobs s.1 !! id = Some j -> job_enabled j = true ->
  let '(ok, s') := pg_redis_jobs_run_one now tod id s in
  ran now s.1 s'.1 id /\ forall id', id' <> id -> untouched s.1 s'.1 id'.
Proof.
  intros Hj He. unfold pg_redis_jobs_run_one. rewrite Hj, He.
  destruct (run_handler (Some (job_type j)) s.2) as [[ok err] x']. cbn [fst]. by apply (update_row_spec _ _ _ _ _ _ j).
Qed.

Lemma run_ids_spec now tod ids : forall s,
  NoDup ids -> 0 ∉ ids -> (forall id, id ∈ ids -> exists j, jobs s.1 !! id = Some j /\ job_enabled j = true) ->
  let '(n, s') := run_ids now tod ids s in
  0 <= n <= Z.of_nat (length ids) /\
  forall id, if decide (id ∈ ids) then ran now s.1 s'.1 id else untouched s.1 s'.1 id.
Proof.
  induction ids as [|id ids IH]; intros s Hn H0 Hj; cbn [run_ids].
  { split; [done|]. intros id. by rewrite decide_False by set_solver. }
  apply NoDup_cons in Hn as [Hid Hn]. rewrite (proj2 (Z.eqb_neq _ _)) by set_solver.
  destruct (Hj id) as (j & Hjid & Hen); [set_solver|].
  pose proof (run_one_spec now (tod id) id s j Hjid Hen) as H1.
  destruct (pg_redis_jobs_run_one now (tod id) id s) as [ok s1]. destruct H1 as [Hran Hothers].
  specialize (IH s1 Hn ltac:(set_solver)). destruct (run_ids now tod ids s1) as [n s2].
  destruct IH as [Hb Hall].
  { intros id' Hin. destruct (Hj id') as (j' & Hj' & He'); [set_solver|]. exists j'. split; [|done].
    rewrite (proj1 (Hothers id' ltac:(set_solver))). done. }
  split; [cbn [length]; destruct ok; lia|]. intros id'. specialize (Hall id').
  destruct (decide (id' = id)) as [->|Hne].
  - rewrite decide_True by set_solver. rewrite decide_False in Hall by done. destruct Hall as [E1 E2].
    destruct Hran as (j0 & ok0 & err0 & Hj0 & Hj1 & Hc). exists j0, ok0, err0. split; [done|]. rewrite E1.
    split; [done|]. unfold counters in *. by rewrite E2.
  - destruct (Hothers id' Hne) as [E1 E2]. case_decide as Hin.
    + rewrite decide_True by set_solver. destruct Hall as (j0 & ok0 & err0 & Hj0 & Hj1 & Hc).
      exists j0, ok0, err0. rewrite E1 in Hj0. split; [done|]. split; [done|]. unfold counters in *. by rewrite E2 in Hc.
    + rewrite decide_False by set_solver. destruct Hall as [E3 E4]. split; congruence.
Qed.

Lemma elem_of_due now t id : id ∈ due_jobs now t <-> exists j, jobs t !! id = Some j /\ job_due now j = true.
Proof.
  unfold due_jobs. rewrite list_elem_of_fmap. setoid_rewrite merge_sort_Permutation.
  setoid_rewrite list_elem_of_filter. split.
  - intros ([i j] & -> & Hd & Hin%elem_of_map_to_list). eauto.
  - intros (j & Hj & Hd). exists (id, j). split; [done|]. split; [done|]. by apply elem_of_map_to_list.
Qed.

Lemma due_NoDup now t : NoDup (due_jobs now t).
Proof.
  unfold due_jobs. rewrite merge_sort_Permutation.
  apply (NoDup_fmap_fst (B := Job Interval)).
  - intros i j j' [_ H1%elem_of_map_to_list]%list_elem_of_filter [_ H2%elem_of_map_to_list]%list_elem_of_filter. congruence.
  - apply NoDup_filter, NoDup_map_to_list.
Qed.

(** C30: Every due job runs exactly once, and is then not due.  Whatever the
    handlers do, a run of the due jobs leaves every job that is not due as it
    was, and counts each due one once, as a success or as a failure with the
    error kept; its next run is an interval after now, so a second run at the same
    time finds nothing to do.  (Job ids are not 0, and adding a job's interval
    moves time forward.) *)
Theorem due_jobs_run_once now tod (t : JobTables Interval) (x : X) :
  jobs t !! 0 = None -> (forall id j, jobs t !! id = Some j -> now < add_interval now (schedule_interval j)) ->
  let '(n, (t', x')) := pg_redis_jobs_run_due now tod (t, x) in
  0 <= n <= Z.of_nat (length (due_jobs now t)) /\ due_jobs now t' = [] /\
  forall id, match jobs t !! id with
             | Some j => if job_due now j then ran now t t' id else untouched t t' id
             | None => untouched t t' id
             end.
Proof.
  intros H0 Hint. unfold pg_redis_jobs_run_due. cbn [fst].
  pose proof (run_ids_spec now tod (due_jobs now t) (t, x) (due_NoDup now t)) as Hr. cbn [fst] in Hr.
  destruct (run_ids now tod (due_jobs now t) (t, x)) as [n [t' x']]. cbn [fst] in Hr.
  destruct Hr as [Hn Hall].
  { rewrite elem_of_due. intros (j & Hj & _). congruence. }
  { intros id (j & Hj & Hd)%elem_of_due. exists j. split; [done|]. by apply andb_true_iff in Hd as [? _]. }
  assert (Hper : forall id, match jobs t !! id with
             | Some j => if job_due now j then ran now t t' id else untouched t t' id
             | None => untouched t t' id
             end).
  { intros id. specialize (Hall id). destruct (jobs t !! id) as [j|] eqn:Hj.
    - destruct (job_due now j) eqn:Hd; case_decide as Hin; try done.
      + destruct Hin. apply elem_of_due. eauto.
      + apply elem_of_due in Hin as (j' & Hj' & Hd'). congruence.
    - case_decide as Hin; [|done]. apply elem_of_due in Hin as (j' & Hj' & _). congruence. }
  split; [done|]. split; [|done]. apply elem_of_nil_inv. intros id (j' & Hj' & Hd')%elem_of_due.
  specialize (Hper id). destruct (jobs t !! id) as [j|] eqn:Hj; [destruct (job_due now j) eqn:Hd|].
  - destruct Hper as (j0 & ok & err & Hj0 & Hj1 & _). rewrite Hj in Hj0. injection Hj0 as <-. rewrite Hj1 in Hj'. injection Hj' as <-.
    apply andb_true_iff in Hd' as [_ Hd']. cbn in Hd'. apply Z.leb_le in Hd'. specialize (Hint id _ Hj). lia.
  - destruct Hper as [E _]. congruence.
  - destruct Hper as [E _]. congruence.
Qed.
End Jobs.

(** ** Witness *)

#[local] Instance microseconds : IntervalArith Z := Z.add.

Definition demo_handlers : Handlers unit :=
  {| h_ttl_sweep := mret tt; h_save_snapshot := ereport ERRCODE_INTERNAL_ERROR; h_flush_dirty_batch _ := mret tt;
     h_message _ := bs "snapshot insert failed"; h_rollback before _ := before |}.
Definition demo_job (type : bytes) (enabled : bool) (next : Z) : Job Z :=
  {| job_type := type; schedule_interval := 60; job_enabled := enabled; last_run := None; next_run := Some next;
     job_last_error := None |}.
(** A job that works, one whose handler raises, an unknown one, one that is
    disabled and one that is not due yet. *)
Definition demo_jobs : JobTables Z :=
  {| jobs := list_to_map [(1, demo_job (bs "ttl_cleanup") true 50); (2, demo_job (bs "snapshot_save") true 10);
                          (3, demo_job (bs "vacuum") true 100); (4, demo_job (bs "ttl_cleanup") false 50);
                          (5, demo_job (bs "ttl_cleanup") true 101)];
     job_stats := ∅ |}.

Lemma due_jobs_run_once_witness :
  let '(n, (t', _)) := pg_redis_jobs_run_due demo_handlers 100 (fun _ => ((0, 0), (0, 2500))) (demo_jobs, tt) in
  due_jobs 100 t' = [] /\ ran 100 demo_jobs t' 2 /\ untouched demo_jobs t' 5.
Proof.
  pose proof (due_jobs_run_once demo_handlers 100 (fun _ => ((0, 0), (0, 2500))) demo_jobs tt eq_refl) as Hx.
  destruct (pg_redis_jobs_run_due demo_handlers 100 (fun _ => ((0, 0), (0, 2500))) (demo_jobs, tt)) as [n [t' x']].
  destruct Hx as (_ & Hd & Hall).
  - intros id j Hj. apply elem_of_list_to_map_2 in Hj.
    repeat (apply elem_of_cons in Hj as [Hj|Hj]; [injection Hj as -> ->; reflexivity|]). by apply elem_of_nil in Hj.
  - split; [exact Hd|]. split; [exact (Hall 2)|exact (Hall 5)].
Defined.

(** The order of the run, the counters and what is recorded of an error. *)
Example demo_jobs_run :
  due_jobs 100 demo_jobs = [2; 1; 3] /\
  let '(n, (t', _)) := pg_redis_jobs_run_due demo_handlers 100 (fun _ => ((0, 0), (0, 2500))) (demo_jobs, tt) in
  n = 1 /\ counters t' 1 = (1, 1, 0) /\ counters t' 2 = (1, 0, 1) /\ counters t' 3 = (1, 0, 1) /\
  (jobs t' !! 2 ≫= job_last_error) = Some (bs "snapshot insert failed") /\
  (job_stats t' !! 2 ≫= last_duration_ms) = Some 2.
Proof. vm_compute. repeat split. Qed.
