(* ===== verification/Bgworker.v ===== *)
(** * The background worker (src/bgworker.c)

    One turn of the main loop: the due jobs, a drain of the ring when it is due,
    and now and then a pass over stuck slots; and the last drain on SIGTERM.
    The jobs run on the shared state the worker drains.  A turn takes its clock
    readings as arguments. *)
From S2P Require Import Prelude Types Utils Db Persistence SharedMem DirtyEvent DirtyRing RingProtocol AsyncDrain.
From S2P Require Import AsyncPublish Jobs.

Record WorkerConf := {
  pg_redis_dirty_ring_size : Z;
  pg_redis_flush_interval_s : Z;
  pg_redis_ring_reclaim_tick_interval : Z;
  pg_redis_ring_slot_stuck_timeout_ms : Z
}.

Record Worker (Interval : Type) := {
  wk_shared : Shared;
  wk_jobs : JobTables Interval;
  wk_last_drain : Z;
  wk_reclaim_tick : Z
}.
Arguments wk_shared {Interval}.
Arguments wk_jobs {Interval}.
Arguments wk_last_drain {Interval}.
Arguments wk_reclaim_tick {Interval}.

(** The readings of one turn: [now()] of the jobs and the times around each, the
    check, the end of the drain, the reclaim pass. *)
Record Readings := {
  rd_jobs : Z;
  rd_tod : Z -> (Z * Z) * (Z * Z);
  rd_check : Z;
  rd_drained : Z;
  rd_reclaim : Z
}.

(** Watermark of a quarter of the ring, or the flush interval. *)
Definition drain_due (conf : WorkerConf) (pending last now : Z) : bool :=
  if Z.quot (pg_redis_dirty_ring_size conf) 4 <=? s64 pending then true
  else (0 <? pending) && TimestampDifferenceExceeds last now (pg_redis_flush_interval_s conf * 1000).

Section Worker.
Context `{IntervalArith Interval} (cfg : Config) (conf : WorkerConf) (hs : Handlers Shared).

(** The drain in its own transaction; an error is reported and the loop goes on. *)
Definition worker_drain (x : Shared) : outcome Z * Shared := pg_redis_persistence_async_drain cfg 0 x.

Definition reclaim_pass (now tick : Z) (x : Shared) : Shared :=
  if (0 <? pg_redis_ring_reclaim_tick_interval conf) && (tick mod pg_redis_ring_reclaim_tick_interval conf =? 0)
  then set_ring (pg_redis_dirty_ring_reclaim_stuck now (pg_redis_ring_slot_stuck_timeout_ms conf) (x_ring x)).2 x
  else x.

(** One turn, with what its drain returned. *)
Definition worker_turn (rd : Readings) (w : Worker Interval) : outcome Z * Worker Interval :=
  let '(_, (jt, x1)) := pg_redis_jobs_run_due hs (rd_jobs rd) (rd_tod rd) (wk_jobs w, wk_shared w) in
  let due := drain_due conf (pg_redis_dirty_ring_pending (x_ring x1)) (wk_last_drain w) (rd_check rd) in
  let '(r, x2) := if due then worker_drain x1 else (Ret 0, x1) in
  let tick := if 0 <? pg_redis_ring_reclaim_tick_interval conf then u64 (wk_reclaim_tick w + 1) else wk_reclaim_tick w in
  (r, {| wk_shared := reclaim_pass (rd_reclaim rd) tick x2; wk_jobs := jt;
         wk_last_drain := if due then rd_drained rd else wk_last_drain w; wk_reclaim_tick := tick |}).

Fixpoint worker_turns (rds : list Readings) (w : Worker Interval) : list (outcome Z) * Worker Interval :=
  match rds with
  | [] => ([], w)
  | rd :: rds' =>
      let '(r, w1) := worker_turn rd w in
      let '(rs, w2) := worker_turns rds' w1 in
      (r :: rs, w2)
  end.

(** SIGTERM: one more drain if anything is pending. *)
Definition final_drain (x : Shared) : outcome Z * Shared :=
  if 0 <? pg_redis_dirty_ring_pending (x_ring x) then worker_drain x else (Ret 0, x).

(** ** Drains of a ring between operations *)

Lemma drain_ret_idle x n x' :
  persistence_writes_enabled cfg = true -> ring_idle (x_ring x) -> worker_drain x = (Ret n, x') ->
  ring_idle (x_ring x') /\ pending_events (x_ring x') = drop 1024 (pending_events (x_ring x)).
Proof.
  intros Hw Hi E. pose proof (ridle_quiet _ Hi) as Hq. pose proof Hq as [].
  unfold worker_drain, pg_redis_persistence_async_drain in E. rewrite Hw in E. cbn [negb] in E.
  rewrite (quiet_collect _ Hq) in E. set (evs := take (drain_size 0 (x_ring x)) (pending_events (x_ring x))) in *.
  assert (Hn : length evs = drain_size 0 (x_ring x)) by (unfold evs; rewrite length_take; unfold drain_size; lia).
  assert (Hdrop : drop (length evs) (pending_events (x_ring x)) = drop 1024 (pending_events (x_ring x))).
  { rewrite Hn. unfold drain_size. change (Z.to_nat (drain_batch_max 0)) with 1024%nat.
    destruct (decide (1024 <= length (pending_events (x_ring x)))%nat); [by rewrite Nat.min_l by lia|].
    rewrite Nat.min_r, !drop_ge by lia. done. }
  rewrite <- Hn in E. destruct (Nat.eqb_spec (length evs) 0) as [H0|H0].
  - rewrite H0 in E. injection E as _ <-. cbn [x_ring]. change (update_range 0 _ _ ?r) with r. split; [done|].
    rewrite <- Hdrop, H0. done.
  - destruct (mapM _ _) as [ops|]; [|done]. destruct (drain_execute _ _) as [d|]; [|done].
    assert (Hle : Z.of_nat (length evs) <= ring_write_head (x_ring x) - ring_read_head (x_ring x)).
    { pose proof (pending_length (x_ring x) ltac:(lia)). rewrite Hn. unfold drain_size. lia. }
    destruct (quiet_release _ Hq (length evs) (x_dsa x) ltac:(lia) Hle) as [_ Hp].
    destruct (idle_release _ (length evs) (x_dsa x) Hi ltac:(lia) Hle) as (Hi' & _).
    destruct (pg_redis_dirty_ring_release_batch _ _ _) as [h' area]. injection E as _ <-. cbn [x_ring fst] in *.
    split; [done|]. by rewrite Hp, Hdrop.
Qed.

Lemma pending_count h : ring_quiet h -> pg_redis_dirty_ring_pending h = Z.of_nat (length (pending_events h)).
Proof.
  intros []. pose proof (pending_length h ltac:(lia)). unfold pg_redis_dirty_ring_pending.
  destruct (Z.ltb_spec (ring_read_head h) (ring_write_head h)); lia.
Qed.

(** The reclaim pass finds no stuck slot there. *)
Lemma reclaim_idle now ms h : ring_idle h -> (pg_redis_dirty_ring_reclaim_stuck now ms h).2 = h.
Proof.
  intros [[] Hf _]. unfold pg_redis_dirty_ring_reclaim_stuck. rewrite (proj2 (Z.leb_gt _ _)) by done.
  assert (sl_state (slot h (ring_write_head h)) <> SLOT_WRITING) as Hne.
  { destruct (decide (ring_write_head h < ring_read_head h + ring_capacity h)); [by rewrite Hf by lia|].
    replace (ring_write_head h) with (ring_read_head h + ring_capacity h) by lia.
    rewrite slot_wrap, rq_ready by lia. done. }
  by rewrite bool_decide_false.
Qed.

(** Jobs that leave the ring alone. *)
Record jobs_quiet : Prop := {
  jq_ttl : forall x, x_ring (h_ttl_sweep hs x).2 = x_ring x;
  jq_snapshot : forall x, x_ring (h_save_snapshot hs x).2 = x_ring x;
  jq_flush : forall n x, x_ring (h_flush_dirty_batch hs n x).2 = x_ring x;
  jq_rollback : forall before after, x_ring (h_rollback hs before after) = x_ring after
}.

Lemma handler_ring type x : jobs_quiet -> x_ring (run_handler hs type x).2 = x_ring x.
Proof.
  intros [Ht Hs Hf Hr].
  assert (Hd : x_ring (dispatch_job hs type x).2 = x_ring x).
  { unfold dispatch_job. destruct type as [t|]; [|done]. repeat case_decide; rewrite ?bind_unfold; try done.
    - specialize (Ht x). by destruct (h_ttl_sweep hs x) as [[]].
    - specialize (Hs x). by destruct (h_save_snapshot hs x) as [[]].
    - specialize (Hf 1000 x). by destruct (h_flush_dirty_batch hs 1000 x) as [[]]. }
  unfold run_handler. destruct (dispatch_job hs type x) as [[[[] err]|e] x']; cbn [snd] in *; by rewrite ?Hr.
Qed.

Lemma run_ids_ring now tod ids : jobs_quiet -> forall s, x_ring (run_ids hs now tod ids s).2.2 = x_ring s.2.
Proof.
  intros Hq. induction ids as [|id ids IH]; intros s; [done|]. cbn [run_ids]. destruct (id =? 0); [apply IH|].
  assert (H1 : x_ring (pg_redis_jobs_run_one hs now (tod id) id s).2.2 = x_ring s.2).
  { unfold pg_redis_jobs_run_one. destruct (jobs s.1 !! id) as [j|]; [|done]. destruct (job_enabled j); [|done].
    pose proof (handler_ring (Some (job_type j)) s.2 Hq) as Hh.
    by destruct (run_handler hs (Some (job_type j)) s.2) as [[ok err] x']. }
  destruct (pg_redis_jobs_run_one hs now (tod id) id s) as [ok s1]. specialize (IH s1).
  destruct (run_ids hs now tod ids s1) as [n s2]. cbn [snd] in *. by rewrite IH.
Qed.

Lemma reclaim_pass_idle now tick x : ring_idle (x_ring x) -> x_ring (reclaim_pass now tick x) = x_ring x.
Proof. intros Hi. unfold reclaim_pass. destruct (_ && _); [|done]. cbn. by rewrite reclaim_idle. Qed.

(** A turn whose check comes a flush interval after the last drain. *)
Definition in_time (w : Worker Interval) (rd : Readings) : Prop :=
  wk_last_drain w + pg_redis_flush_interval_s conf * 1000000 <= rd_check rd.

Lemma turn_drains rd w n w' :
  persistence_writes_enabled cfg = true -> jobs_quiet -> ring_idle (x_ring (wk_shared w)) -> in_time w rd ->
  worker_turn rd w = (Ret n, w') ->
  ring_idle (x_ring (wk_shared w')) /\
  pending_events (x_ring (wk_shared w')) = drop 1024 (pending_events (x_ring (wk_shared w))) /\
  (wk_last_drain w' = rd_drained rd \/ wk_last_drain w' = wk_last_drain w /\ pending_events (x_ring (wk_shared w)) = []).
Proof.
  intros Hw Hq Hi Ht. unfold worker_turn, pg_redis_jobs_run_due. unfold in_time in Ht.
  pose proof (run_ids_ring (rd_jobs rd) (rd_tod rd) (due_jobs (rd_jobs rd) (wk_jobs w)) Hq (wk_jobs w, wk_shared w)) as Hr.
  cbn [fst snd] in *. destruct (run_ids hs _ _ _ _) as [m [jt x1]]. cbn [snd] in Hr.
  assert (Hi1 : ring_idle (x_ring x1)) by (by rewrite Hr).
  destruct (drain_due conf (pg_redis_dirty_ring_pending (x_ring x1)) (wk_last_drain w) (rd_check rd)) eqn:Hdue.
  - destruct (worker_drain x1) as [[n'|e] x2] eqn:Ed; intros [= -> <-]. cbn [wk_shared wk_last_drain].
    destruct (drain_ret_idle x1 n x2 Hw Hi1 Ed) as [Hi2 Hp]. rewrite reclaim_pass_idle by done. rewrite <- Hr. eauto.
  - intros [= <- <-]. cbn [wk_shared wk_last_drain]. rewrite reclaim_pass_idle, Hr by done.
    assert (Hnil : pending_events (x_ring (wk_shared w)) = []); [|rewrite Hnil; eauto].
    rewrite Hr, pending_count in Hdue by apply Hi. unfold drain_due, TimestampDifferenceExceeds in Hdue.
    destruct (_ <=? s64 _); [done|]. apply andb_false_iff in Hdue as [Hz|Hz].
    + apply Z.ltb_ge in Hz. apply nil_length_inv. lia.
    + apply Z.leb_gt in Hz. lia.
Qed.

(** Each turn is a flush interval after the last drain. *)
Fixpoint spaced (rds : list Readings) (w : Worker Interval) : Prop :=
  match rds with
  | [] => True
  | rd :: rds' => in_time w rd /\ spaced rds' (worker_turn rd w).2
  end.

(** C21: The worker empties the queue.  While no new event arrives, every turn
    that comes a flush interval after the last drain, and whose drain does not
    raise, moves the oldest 1024 pending events (or all, if fewer) out of the
    ring: after [k] such turns [1024 * k] fewer are pending, none once [k] is
    large enough, whatever the ring size, the reclaim interval and the jobs, as
    long as these leave the ring alone. *)
Theorem worker_empties_queue rds w :
  persistence_writes_enabled cfg = true -> jobs_quiet -> ring_idle (x_ring (wk_shared w)) -> spaced rds w ->
  Forall (fun r => exists n, r = Ret n) (worker_turns rds w).1 ->
  let w' := (worker_turns rds w).2 in
  ring_idle (x_ring (wk_shared w')) /\
  pending_events (x_ring (wk_shared w')) = drop (1024 * length rds) (pending_events (x_ring (wk_shared w))).
Proof.
  intros Hw Hq. revert w. induction rds as [|rd rds IH]; intros w Hi Hsp Hret; cbn [worker_turns] in *; [done|].
  destruct Hsp as [Ht Hsp]. destruct (worker_turn rd w) as [r w1] eqn:E1. cbn [snd] in Hsp.
  specialize (IH w1). destruct (worker_turns rds w1) as [rs w2]. cbn [fst snd] in *.
  apply Forall_cons in Hret as [[n ->] Hret].
  destruct (turn_drains rd w n w1 Hw Hq Hi Ht E1) as (Hi1 & Hp1 & _). destruct (IH Hi1 Hsp Hret) as [Hi2 Hp2].
  split; [done|]. rewrite Hp2, Hp1, drop_drop. f_equal. cbn [length]. lia.
Qed.

(** Shutdown drains one batch.  On SIGTERM the worker drains once: if that
    succeeds, the oldest 1024 pending events have left the ring and every later
    one, although its session was told it succeeded, is still there when the
    process exits. *)
Theorem shutdown_drains_one_batch x n x' :
  persistence_writes_enabled cfg = true -> ring_idle (x_ring x) -> final_drain x = (Ret n, x') ->
  pending_events (x_ring x') = drop 1024 (pending_events (x_ring x)).
Proof.
  intros Hw Hi E. unfold final_drain in E. destruct (Z.ltb_spec 0 (pg_redis_dirty_ring_pending (x_ring x))) as [Hp|Hp].
  - by apply (drain_ret_idle x n x' Hw Hi E).
  - injection E as _ <-. rewrite pending_count in Hp by apply Hi.
    assert (pending_events (x_ring x) = []) as -> by (apply nil_length_inv; lia). done.
Qed.
End Worker.

(** ** Witnesses *)

#[local] Instance worker_interval : IntervalArith Z := Z.add.
Definition idle_handlers : Handlers Shared :=
  {| h_ttl_sweep := mret tt; h_save_snapshot := mret tt; h_flush_dirty_batch _ := mret tt;
     h_message _ := []; h_rollback _ after := after |}.
Definition demo_conf : WorkerConf :=
  {| pg_redis_dirty_ring_size := 1024; pg_redis_flush_interval_s := 5; pg_redis_ring_reclaim_tick_interval := 10;
     pg_redis_ring_slot_stuck_timeout_ms := 30000 |}.
Definition demo_worker : Worker Z :=
  {| wk_shared := full_shared; wk_jobs := {| jobs := ∅; job_stats := ∅ |}; wk_last_drain := 0; wk_reclaim_tick := 0 |}.
Definition demo_readings : Readings :=
  {| rd_jobs := 5000000; rd_tod _ := ((0, 0), (0, 0)); rd_check := 5000000; rd_drained := 5000100; rd_reclaim := 5000100 |}.
Definition drain_ok (r : outcome Z) : bool := match r with Ret _ => true | Raise _ => false end.

Lemma worker_empties_queue_witness :
  pending_events (x_ring (wk_shared demo_worker)) = [demo_event] /\
  pending_events (x_ring (wk_shared (worker_turns async_config demo_conf idle_handlers [demo_readings] demo_worker).2)) = [].
Proof.
  split; [vm_compute; reflexivity|].
  destruct (worker_empties_queue async_config demo_conf idle_handlers [demo_readings] demo_worker) as [_ E].
  - vm_compute. reflexivity.
  - split; reflexivity.
  - apply full_shared_idle.
  - split; [vm_compute; discriminate|exact I].
  - assert (Hok : forallb drain_ok (worker_turns async_config demo_conf idle_handlers [demo_readings] demo_worker).1 = true)
      by (vm_compute; reflexivity).
    apply Forall_forall. intros r Hr.
    rewrite List.forallb_forall in Hok. specialize (Hok r (proj1 (list_elem_of_In _ _) Hr)).
    destruct r as [n|e]; [by exists n|discriminate Hok].
  - rewrite E. vm_compute. reflexivity.
Defined.

Lemma shutdown_drains_one_batch_witness :
  exists n x', final_drain async_config full_shared = (Ret n, x') /\ pending_events (x_ring x') = [].
Proof.
  assert (Hok : drain_ok (final_drain async_config full_shared).1 = true) by (vm_compute; reflexivity).
  destruct (final_drain async_config full_shared) as [[n|e] x'] eqn:E; [|discriminate Hok]. exists n, x'. split; [reflexivity|].
  rewrite (shutdown_drains_one_batch async_config full_shared n x' eq_refl full_shared_idle E). vm_compute. reflexivity.
Defined.
