(* ===== verification/Guc.v ===== *)
(** * Configuration parameters and module start (src/pg_redis.c, src/bgworker.c, src/shmem.c)

    [_PG_init] defines the parameters of the extension with their boot values,
    ranges, check hooks and contexts, chains the shared-memory hooks, registers
    the worker and the transaction callback.  What PostgreSQL does with a
    definition is its documented behaviour: a parameter is changed only to a
    value its definition admits, and one of context [PGC_POSTMASTER] not after
    the start. *)
From stdpp Require Import relations functions.
From S2P Require Import Prelude Types Utils SharedHash AsyncPublish Shmem Bgworker.

(** ** Definitions *)

Inductive GucContext := PGC_POSTMASTER | PGC_SIGHUP | PGC_USERSET.
#[export] Instance guc_context_eq_dec : EqDecision GucContext.
Proof. solve_decision. Defined.

(** The C variables behind the parameters. *)
Inductive Var :=
| V_persistence_mode | V_storage_mode | V_flush_interval_s | V_flush_batch_size | V_ttl_cleanup_interval_s
| V_max_key_size | V_max_value_size | V_enable_bgworker | V_shared_max_memory_mb | V_dirty_ring_size
| V_lock_partitions | V_async_full_action | V_ring_reclaim_tick_interval | V_ring_slot_stuck_timeout_ms
| V_bgworker_database.
#[export] Instance var_eq_dec : EqDecision Var.
Proof. solve_decision. Defined.

(** An enum parameter is stored as its option. *)
Inductive GucValue :=
| GInt (z : Z)
| GBool (b : bool)
| GString (s : option bytes)
| GAction (a : PgRedisAsyncFullAction).

Inductive GucKind :=
| KInt (boot min max : Z)
| KBool (boot : bool)
| KString (boot : bytes) (check : option bytes -> bool)
| KEnum (boot : PgRedisAsyncFullAction) (options : list (bytes * PgRedisAsyncFullAction)).

Record GucDef := { g_name : bytes; g_var : Var; g_kind : GucKind; g_context : GucContext }.

(** The globals as they are initialised in the source. *)
Definition static_vars (v : Var) : GucValue :=
  match v with
  | V_persistence_mode | V_storage_mode | V_bgworker_database => GString None
  | V_flush_interval_s => GInt 5
  | V_flush_batch_size => GInt 1000
  | V_ttl_cleanup_interval_s => GInt 30
  | V_max_key_size => GInt 1024
  | V_max_value_size => GInt 1048576
  | V_enable_bgworker => GBool false
  | V_shared_max_memory_mb => GInt 256
  | V_dirty_ring_size => GInt 65536
  | V_lock_partitions => GInt 16
  | V_async_full_action => GAction PG_REDIS_ASYNC_FULL_BLOCK
  | V_ring_reclaim_tick_interval => GInt 1024
  | V_ring_slot_stuck_timeout_ms => GInt 5000
  end.

Definition async_full_action_options : list (bytes * PgRedisAsyncFullAction) :=
  [(bs "block", PG_REDIS_ASYNC_FULL_BLOCK); (bs "sync_flush", PG_REDIS_ASYNC_FULL_SYNC_FLUSH)].

Definition check_persistence_mode (newval : option bytes) : bool :=
  match newval with
  | None => true
  | Some m => bool_decide (m ∈ [bs "none"; bs "sync_table"; bs "async_table"; bs "snapshot"; bs "aof"])
  end.
Definition check_storage_mode (newval : option bytes) : bool :=
  match newval with None => true | Some m => bool_decide (m ∈ [bs "session"; bs "shared"]) end.

(** Whether the assignment is answered with the WARNING. *)
Definition assign_persistence_mode (newval storage_mode : option bytes) : bool :=
  bool_decide (newval = Some (bs "async_table")) &&
  match storage_mode with None => false | Some m => negb (bool_decide (m = bs "shared")) end.

Definition INT_MAX : Z := 2147483647.

Definition guc (name : string) (v : Var) (k : GucKind) (c : GucContext) : GucDef :=
  {| g_name := bs name; g_var := v; g_kind := k; g_context := c |}.

Definition general_definitions : list GucDef :=
  [guc "pg_redis.persistence_mode" V_persistence_mode (KString (bs "sync_table") check_persistence_mode) PGC_USERSET;
   guc "pg_redis.storage_mode" V_storage_mode (KString (bs "session") check_storage_mode) PGC_SIGHUP;
   guc "pg_redis.flush_interval" V_flush_interval_s (KInt 5 1 3600) PGC_SIGHUP;
   guc "pg_redis.flush_batch_size" V_flush_batch_size (KInt 1000 1 1000000) PGC_SIGHUP;
   guc "pg_redis.ttl_cleanup_interval" V_ttl_cleanup_interval_s (KInt 30 1 86400) PGC_SIGHUP;
   guc "pg_redis.max_key_size" V_max_key_size (KInt 1024 1 PG_REDIS_MAX_KEY_SIZE) PGC_USERSET;
   guc "pg_redis.max_value_size" V_max_value_size (KInt 1048576 1 INT_MAX) PGC_USERSET;
   guc "pg_redis.enable_background_worker" V_enable_bgworker (KBool false) PGC_SIGHUP].

(** Defined only while the libraries are preloaded. *)
Definition postmaster_definitions : list GucDef :=
  [guc "pg_redis.shared_max_memory" V_shared_max_memory_mb (KInt 256 1 32768) PGC_POSTMASTER;
   guc "pg_redis.dirty_ring_size" V_dirty_ring_size (KInt 65536 1024 1048576) PGC_POSTMASTER;
   guc "pg_redis.lock_partitions" V_lock_partitions (KInt 16 1 128) PGC_POSTMASTER;
   guc "pg_redis.bgworker_database" V_bgworker_database (KString (bs "postgres") (fun _ => true)) PGC_POSTMASTER].

Definition ring_definitions : list GucDef :=
  [guc "pg_redis.async_full_action" V_async_full_action (KEnum PG_REDIS_ASYNC_FULL_BLOCK async_full_action_options) PGC_SIGHUP;
   guc "pg_redis.ring_reclaim_tick_interval" V_ring_reclaim_tick_interval (KInt 1024 1 INT_MAX) PGC_SIGHUP;
   guc "pg_redis.ring_slot_stuck_timeout" V_ring_slot_stuck_timeout_ms (KInt 5000 100 INT_MAX) PGC_SIGHUP].

(** In the order of [_PG_init]. *)
Definition guc_definitions (preload : bool) : list GucDef :=
  general_definitions ++ (if preload then postmaster_definitions else []) ++ ring_definitions.

(** ** What PostgreSQL does with them *)

Definition boot_value (k : GucKind) : GucValue :=
  match k with
  | KInt b _ _ => GInt b
  | KBool b => GBool b
  | KString b _ => GString (Some b)
  | KEnum b _ => GAction b
  end.

Definition admits (k : GucKind) (v : GucValue) : bool :=
  match k, v with
  | KInt _ lo hi, GInt z => (lo <=? z) && (z <=? hi)
  | KBool _, GBool _ => true
  | KString _ check, GString s => check s
  | KEnum _ options, GAction a => bool_decide (a ∈ options.*2)
  | _, _ => false
  end.

(** A definition takes the value of the configuration file if it admits it. *)
Definition define (conf : bytes -> option GucValue) (vars : Var -> GucValue) (d : GucDef) : Var -> GucValue :=
  <[g_var d := match conf (g_name d) with
               | Some v => if admits (g_kind d) v then v else boot_value (g_kind d)
               | None => boot_value (g_kind d)
               end]> vars.

(** ** Module start *)

(** What the hooks and callbacks of the process call, in order. *)
Inductive Callee := Foreign (n : nat) | Pg_redis_shmem_request | Pg_redis_shmem_startup | Pg_redis_xact_cb.
#[export] Instance callee_eq_dec : EqDecision Callee.
Proof. solve_decision. Defined.

Record BackgroundWorker := {
  bgw_shmem_access : bool; bgw_database_connection : bool; bgw_restarts : bool;
  bgw_library_name : bytes; bgw_function_name : bytes; bgw_name : bytes; bgw_type : bytes
}.

Definition pg_redis_bgworker_register (preload enable_bgworker : bool) : option BackgroundWorker :=
  if negb preload then None
  else if negb enable_bgworker then None
  else Some {| bgw_shmem_access := true; bgw_database_connection := true; bgw_restarts := false;
               bgw_library_name := bs "pg_redis"; bgw_function_name := bs "pg_redis_bgworker_main";
               bgw_name := bs "pg_redis bgworker"; bgw_type := bs "pg_redis" |}.

(** A hook pointer: null, or a function given by the calls it makes. *)
Definition run_hook (hook : option (list Callee)) : list Callee := default [] hook.

(** [pg_redis_shmem_request_hook] over the hook it found. *)
Definition pg_redis_shmem_request_hook (prev : option (list Callee)) : list Callee :=
  run_hook prev ++ [Pg_redis_shmem_request].
Definition declare_shmem_request_hook (hook : option (list Callee)) : option (list Callee) :=
  Some (pg_redis_shmem_request_hook hook).
(** [pg_redis_shmem_startup] begins with the hook it found. *)
Definition pg_redis_shmem_install_hooks (hook : option (list Callee)) : option (list Callee) :=
  Some (run_hook hook ++ [Pg_redis_shmem_startup]).

Record Process := {
  pr_gucs : list GucDef;
  pr_vars : Var -> GucValue;
  pr_request_hook : option (list Callee);
  pr_startup_hook : option (list Callee);
  pr_workers : list BackgroundWorker;
  pr_xact_callbacks : list Callee
}.

Definition bool_var (v : GucValue) : bool := match v with GBool b => b | _ => false end.
Definition int_var (v : GucValue) : Z := match v with GInt z => z | _ => 0 end.
Definition string_var (v : GucValue) : option bytes := match v with GString s => s | _ => None end.

Definition _PG_init (preload : bool) (conf : bytes -> option GucValue) (p : Process) : Process :=
  let vars := foldl (define conf) (pr_vars p) (guc_definitions preload) in
  {| pr_gucs := pr_gucs p ++ guc_definitions preload;
     pr_vars := vars;
     pr_request_hook := if preload then declare_shmem_request_hook (pr_request_hook p) else pr_request_hook p;
     pr_startup_hook := if preload then pg_redis_shmem_install_hooks (pr_startup_hook p) else pr_startup_hook p;
     pr_workers := pr_workers p ++
       (if preload then option_list (pg_redis_bgworker_register preload (bool_var (vars V_enable_bgworker))) else []);
     pr_xact_callbacks := pr_xact_callbacks p ++ [Pg_redis_xact_cb] |}.

(** A process before the module is loaded: other modules may have hooks. *)
Definition bare (request startup : option (list Callee)) : Process :=
  {| pr_gucs := []; pr_vars := static_vars; pr_request_hook := request; pr_startup_hook := startup;
     pr_workers := []; pr_xact_callbacks := [] |}.

Definition set_var (v : Var) (x : GucValue) (p : Process) : Process :=
  {| pr_gucs := pr_gucs p; pr_vars := <[v := x]> (pr_vars p); pr_request_hook := pr_request_hook p;
     pr_startup_hook := pr_startup_hook p; pr_workers := pr_workers p; pr_xact_callbacks := pr_xact_callbacks p |}.

(** SET and reloads while the server runs. *)
Inductive guc_step : Process -> Process -> Prop :=
| guc_change p d x :
    d ∈ pr_gucs p -> g_context d <> PGC_POSTMASTER -> admits (g_kind d) x = true ->
    guc_step p (set_var (g_var d) x p).

(** The parameters as the other files take them. *)
Definition config_of (shmem : bool) (vars : Var -> GucValue) : Config :=
  {| pg_redis_persistence_mode := string_var (vars V_persistence_mode);
     pg_redis_storage_mode := string_var (vars V_storage_mode);
     pg_redis_max_key_size := int_var (vars V_max_key_size);
     pg_redis_max_value_size := int_var (vars V_max_value_size);
     shmem_initialized := shmem |}.

Definition worker_conf_of (vars : Var -> GucValue) : WorkerConf :=
  {| pg_redis_dirty_ring_size := int_var (vars V_dirty_ring_size);
     pg_redis_flush_interval_s := int_var (vars V_flush_interval_s);
     pg_redis_ring_reclaim_tick_interval := int_var (vars V_ring_reclaim_tick_interval);
     pg_redis_ring_slot_stuck_timeout_ms := int_var (vars V_ring_slot_stuck_timeout_ms) |}.

(** ** The invariant *)

(** Every variable holds a value its definition admits; where a parameter was
    not defined, the value the variable was initialised with. *)
Definition well_typed (vars : Var -> GucValue) : Prop :=
  Forall (fun d => admits (g_kind d) (vars (g_var d)) = true) (guc_definitions true).

Lemma static_well_typed : well_typed static_vars.
Proof. unfold well_typed. repeat (apply Forall_cons_2; [reflexivity|]). apply Forall_nil_2. Qed.

Lemma boots_admitted : Forall (fun d => admits (g_kind d) (boot_value (g_kind d)) = true) (guc_definitions true).
Proof. repeat (apply Forall_cons_2; [vm_compute; reflexivity|]). apply Forall_nil_2. Qed.

(** Each variable and each name belongs to one parameter. *)
Lemma definitions_unique : NoDup (g_var <$> guc_definitions true) /\ NoDup (g_name <$> guc_definitions true).
Proof. split; apply (bool_decide_unpack _); vm_compute; exact I. Qed.

Lemma definitions_incl preload d : d ∈ guc_definitions preload -> d ∈ guc_definitions true.
Proof.
  destruct preload; [done|]. unfold guc_definitions. rewrite !elem_of_app. intros [?|[Hn|?]]; [by left| |by right; right].
  by apply elem_of_nil in Hn.
Qed.

Lemma definition_of_var d d' :
  d ∈ guc_definitions true -> d' ∈ guc_definitions true -> g_var d = g_var d' -> d = d'.
Proof.
  intros [i Hi]%list_elem_of_lookup [j Hj]%list_elem_of_lookup E.
  assert (i = j) as <-; [|congruence].
  apply (NoDup_lookup (g_var <$> guc_definitions true) i j (g_var d)); [apply definitions_unique|..].
  - by rewrite list_lookup_fmap, Hi.
  - by rewrite list_lookup_fmap, Hj, E.
Qed.

Lemma set_well_typed d x vars :
  well_typed vars -> d ∈ guc_definitions true -> admits (g_kind d) x = true -> well_typed (<[g_var d := x]> vars).
Proof.
  unfold well_typed. rewrite !Forall_forall. intros Hw Hd Hx d' Hd'.
  destruct (decide (g_var d = g_var d')) as [E|Hne].
  - rewrite <- (definition_of_var d d') by done. by rewrite fn_lookup_insert.
  - rewrite fn_lookup_insert_ne by done. by apply Hw.
Qed.

Lemma define_well_typed conf vars d : well_typed vars -> d ∈ guc_definitions true -> well_typed (define conf vars d).
Proof.
  intros Hw Hd. apply set_well_typed; [done..|]. pose proof (proj1 (Forall_forall _ _) boots_admitted d Hd) as Hb.
  destruct (conf (g_name d)) as [v|]; [|done]. by destruct (admits (g_kind d) v) eqn:E.
Qed.

(** A server whose module started over the hooks it found, and its changes. *)
Definition running (preload : bool) (conf : bytes -> option GucValue) (p : Process) : Prop :=
  exists request startup, rtc guc_step (_PG_init preload conf (bare request startup)) p.

Lemma step_gucs p p' : guc_step p p' -> pr_gucs p' = pr_gucs p.
Proof. by intros []. Qed.

Lemma running_inv preload conf p :
  running preload conf p -> pr_gucs p = guc_definitions preload /\ well_typed (pr_vars p).
Proof.
  intros (request & startup & Hr). set (p0 := _PG_init preload conf (bare request startup)) in Hr.
  assert (Hp0 : pr_gucs p0 = guc_definitions preload /\ well_typed (pr_vars p0)).
  { split; [done|]. cbn [pr_vars p0 _PG_init bare].
    assert (Hin : forall d, d ∈ guc_definitions preload -> d ∈ guc_definitions true) by apply definitions_incl.
    generalize static_well_typed. generalize static_vars. induction (guc_definitions preload) as [|d ds IH]; intros vars Hw; [done|].
    cbn [foldl]. apply IH; [set_solver|]. apply define_well_typed; [done|]. apply Hin. set_solver. }
  clearbody p0. induction Hr as [p|p1 p2 p3 Hs Hr IH]; [done|]. apply IH. destruct Hp0 as [Hg Hw].
  rewrite (step_gucs _ _ Hs). split; [done|]. destruct Hs as [p d x Hd Hc Hx]. cbn. apply set_well_typed; [done| |done].
  apply (definitions_incl preload). by rewrite <- Hg.
Qed.

(** The range of an integer parameter. *)
Definition range_of (v : Var) : option (Z * Z) :=
  match list_find (fun d => g_var d = v) (guc_definitions true) with
  | Some (_, d) => match g_kind d with KInt _ lo hi => Some (lo, hi) | _ => None end
  | None => None
  end.

Lemma int_in_range vars v lo hi :
  well_typed vars -> range_of v = Some (lo, hi) -> lo <= int_var (vars v) <= hi.
Proof.
  intros Hw Hr. unfold range_of in Hr. destruct (list_find _ _) as [[i d]|] eqn:Ef; [|done].
  apply list_find_Some in Ef as (Hd & <- & _). apply list_elem_of_lookup_2, (proj1 (Forall_forall _ _) Hw) in Hd.
  destruct (g_kind d); simplify_eq. cbn in Hd. destruct (vars (g_var d)); try done.
  apply andb_true_iff in Hd as [?%Z.leb_le ?%Z.leb_le]. done.
Qed.

(** ** Theorems *)

Definition mode_text (m : PgRedisPersistenceMode) : bytes :=
  match m with
  | PG_REDIS_PERSIST_NONE => bs "none"
  | PG_REDIS_PERSIST_SYNC_TABLE => bs "sync_table"
  | PG_REDIS_PERSIST_ASYNC_TABLE => bs "async_table"
  | PG_REDIS_PERSIST_SNAPSHOT => bs "snapshot"
  | PG_REDIS_PERSIST_AOF => bs "aof"
  end.
Definition storage_text (m : PgRedisStorageMode) : bytes :=
  match m with PG_REDIS_STORAGE_SESSION => bs "session" | PG_REDIS_STORAGE_SHARED => bs "shared" end.

(** An admitted mode is resolved to the mode it names. *)
Lemma modes_resolved shmem vars :
  well_typed vars ->
  (pg_redis_persistence_mode (config_of shmem vars) = None \/
   pg_redis_persistence_mode (config_of shmem vars) = Some (mode_text (pg_redis_resolve_persistence_mode (config_of shmem vars)))) /\
  (pg_redis_storage_mode (config_of shmem vars) = None \/
   pg_redis_storage_mode (config_of shmem vars) = Some (storage_text (pg_redis_resolve_storage_mode (config_of shmem vars)))).
Proof.
  intros Hw. unfold pg_redis_resolve_persistence_mode, pg_redis_resolve_storage_mode. cbn [config_of pg_redis_persistence_mode pg_redis_storage_mode].
  split.
  - assert (Hd : guc "pg_redis.persistence_mode" V_persistence_mode (KString (bs "sync_table") check_persistence_mode) PGC_USERSET
      ∈ guc_definitions true) by (apply list_elem_of_here).
    apply (proj1 (Forall_forall _ _) Hw) in Hd. cbn in Hd. destruct (vars V_persistence_mode) as [| |[m|]|]; try done; [|by left].
    right. cbn in *. apply bool_decide_eq_true in Hd. rewrite !elem_of_cons, elem_of_nil in Hd.
    by repeat destruct Hd as [->|Hd].
  - assert (Hd : guc "pg_redis.storage_mode" V_storage_mode (KString (bs "session") check_storage_mode) PGC_SIGHUP
      ∈ guc_definitions true) by (apply list_elem_of_further, list_elem_of_here).
    apply (proj1 (Forall_forall _ _) Hw) in Hd. cbn in Hd. destruct (vars V_storage_mode) as [| |[m|]|]; try done; [|by left].
    right. cbn in *. apply bool_decide_eq_true in Hd. rewrite !elem_of_cons, elem_of_nil in Hd.
    by repeat destruct Hd as [->|Hd].
Qed.

(** C23: The parameters stay in their ranges, and these are the ranges the rest of
    the program relies on.  Whether or not the module is preloaded, whatever the
    configuration file says and whatever SET and reloads do afterwards, every
    variable holds a value its definition admits.  So a mode text is resolved to
    the mode it names; the shared table is sized exactly and every key has one of
    at most 128 partition locks; the key limit of the commands is the configured
    one; the drain watermark is at least 256 events; the interval the worker waits
    is the configured one, and it does reclaim stuck slots. *)
Theorem settings_well_typed `{HashBytes} (preload shmem : bool) (conf : bytes -> option GucValue) (p : Process) :
  running preload conf p ->
  let vars := pr_vars p in
  let cfg := config_of shmem vars in
  let wc := worker_conf_of vars in
  well_typed vars /\
  (pg_redis_persistence_mode cfg = None \/
   pg_redis_persistence_mode cfg = Some (mode_text (pg_redis_resolve_persistence_mode cfg))) /\
  (pg_redis_storage_mode cfg = None \/
   pg_redis_storage_mode cfg = Some (storage_text (pg_redis_resolve_storage_mode cfg))) /\
  estimate_max_entries (int_var (vars V_shared_max_memory_mb)) = Z.max 1024 (512 * int_var (vars V_shared_max_memory_mb)) /\
  (forall key, exists i, pg_redis_partition_lock (int_var (vars V_lock_partitions)) key = Some i /\ 0 <= i < 128) /\
  (forall len, 0 < len -> pg_redis_check_key_len cfg len =
     if pg_redis_max_key_size cfg <? len then ereport ERRCODE_PROGRAM_LIMIT_EXCEEDED else (mret tt : M unit unit)) /\
  256 <= Z.quot (pg_redis_dirty_ring_size wc) 4 /\
  0 < pg_redis_flush_interval_s wc /\ 0 < pg_redis_ring_reclaim_tick_interval wc.
Proof.
  intros [_ Hw]%running_inv vars cfg wc.
  split; [done|]. split; [by apply modes_resolved|]. split; [by apply modes_resolved|].
  pose proof (int_in_range vars V_lock_partitions 1 128 Hw eq_refl) as Hl.
  pose proof (int_in_range vars V_max_key_size 1 PG_REDIS_MAX_KEY_SIZE Hw eq_refl) as Hk.
  pose proof (int_in_range vars V_dirty_ring_size 1024 1048576 Hw eq_refl) as Hs.
  pose proof (int_in_range vars V_flush_interval_s 1 3600 Hw eq_refl) as Hf.
  pose proof (int_in_range vars V_ring_reclaim_tick_interval 1 INT_MAX Hw eq_refl) as Ht.
  split; [by apply estimate_exact, (int_in_range vars V_shared_max_memory_mb 1 32768 Hw)|].
  split.
  { intros key. destruct (lock_in_range (int_var (vars V_lock_partitions)) key) as (i & Hi & Hin); [lia|].
    exists i. split; [done|lia]. }
  split.
  { intros len Hlen. unfold pg_redis_check_key_len. cbn [cfg config_of pg_redis_max_key_size].
    destruct (Z.leb_spec (int_var (vars V_max_key_size)) 0), (Z.ltb_spec PG_REDIS_MAX_KEY_SIZE (int_var (vars V_max_key_size))),
      (Z.eqb_spec len 0); try lia. done. }
  cbn [wc worker_conf_of pg_redis_dirty_ring_size pg_redis_flush_interval_s pg_redis_ring_reclaim_tick_interval].
  split; [|lia]. apply Z.quot_le_lower_bound; lia.
Qed.

(** The parameters that size shared memory do not change while the server runs. *)
Definition sizing (v : Var) : bool :=
  bool_decide (v ∈ [V_shared_max_memory_mb; V_dirty_ring_size; V_lock_partitions; V_bgworker_database]).

(** The layout of shared memory is fixed at the start.  No SET and no reload
    changes the size of the shared table, the capacity of the ring, the number of
    partition locks or the database of the worker, so all backends agree on the
    lock of a key and the slot of a position; and none registers or removes a
    worker, although pg_redis.enable_background_worker may be changed by a
    reload. *)
Theorem layout_fixed_at_start (preload : bool) (conf : bytes -> option GucValue) (p p' : Process) :
  running preload conf p -> rtc guc_step p p' ->
  (forall v, sizing v = true -> pr_vars p' v = pr_vars p v) /\
  (forall `{HashBytes} key, pg_redis_partition_lock (int_var (pr_vars p' V_lock_partitions)) key =
                            pg_redis_partition_lock (int_var (pr_vars p V_lock_partitions)) key) /\
  pr_workers p' = pr_workers p.
Proof.
  intros [Hg _]%running_inv Hr.
  assert (Hv : (forall v, sizing v = true -> pr_vars p' v = pr_vars p v) /\ pr_workers p' = pr_workers p).
  { induction Hr as [p|p1 p2 p3 Hs Hr IH]; [done|]. destruct IH as [IH Hw]; [by rewrite (step_gucs _ _ Hs)|].
    destruct Hs as [p d x Hd Hc Hx]. split; [|done]. intros v Hv. rewrite IH by done. cbn.
    apply fn_lookup_insert_ne. intros <-. rewrite Hg in Hd. apply definitions_incl in Hd.
    unfold guc_definitions, general_definitions, postmaster_definitions, ring_definitions in Hd. cbn in Hd. rewrite !elem_of_cons, elem_of_nil in Hd.
    by repeat destruct Hd as [->|Hd]. }
  destruct Hv as [Hv Hw]. split; [done|]. split; [|done]. intros Hh key. by rewrite (Hv V_lock_partitions).
Qed.


(** The warning of an assignment is given exactly when the mode it sets falls
    back, with shared memory in place and a storage mode that is set. *)
Lemma assign_warns_iff cfg m :
  pg_redis_storage_mode cfg = Some m -> shmem_initialized cfg = true ->
  assign_persistence_mode (pg_redis_persistence_mode cfg) (pg_redis_storage_mode cfg) = true <->
  pg_redis_resolve_persistence_mode cfg = PG_REDIS_PERSIST_ASYNC_TABLE /\
  pg_redis_effective_persistence_mode cfg = PG_REDIS_PERSIST_SYNC_TABLE.
Proof.
  intros Hm Hs. unfold assign_persistence_mode, pg_redis_effective_persistence_mode, pg_redis_storage_is_shared,
    pg_redis_resolve_storage_mode, pg_redis_resolve_persistence_mode. rewrite Hm, Hs.
  destruct (pg_redis_persistence_mode cfg) as [t|]; [|cbn; split; [done|by intros []]].
  destruct (decide (m = bs "shared")) as [->|Hne].
  - cbn [bool_decide andb negb]. rewrite andb_false_r. split; [done|].
    repeat case_decide; subst; cbn; by intros [].
  - rewrite (bool_decide_eq_false_2 _ Hne). cbn [negb andb]. rewrite andb_true_r, bool_decide_eq_true.
    split; [by intros [= ->]|]. repeat case_decide; subst; cbn; by intros [].
Qed.

(** ** Witnesses *)

Definition demo_conf_file (name : bytes) : option GucValue :=
  if bool_decide (name = bs "pg_redis.lock_partitions") then Some (GInt 4096)
  else if bool_decide (name = bs "pg_redis.dirty_ring_size") then Some (GInt 2048)
  else if bool_decide (name = bs "pg_redis.enable_background_worker") then Some (GBool true) else None.
Definition demo_server : Process := _PG_init true demo_conf_file (bare None (Some [Foreign 0])).

Lemma demo_running : running true demo_conf_file demo_server.
Proof. by exists None, (Some [Foreign 0]). Qed.

Lemma settings_well_typed_witness :
  exists i, @pg_redis_partition_lock (fun b => blen b) 16 (bs "k") = Some i /\ 0 <= i < 128.
Proof.
  destruct (@settings_well_typed (fun b => blen b) true true demo_conf_file demo_server demo_running)
    as (_ & _ & _ & _ & Hl & _). exact (Hl (bs "k")).
Defined.

Lemma layout_fixed_at_start_witness :
  let p := set_var V_enable_bgworker (GBool false) demo_server in
  pr_vars p V_dirty_ring_size = GInt 2048 /\ length (pr_workers p) = 1%nat.
Proof.
  destruct (layout_fixed_at_start true demo_conf_file demo_server (set_var V_enable_bgworker (GBool false) demo_server)) as (Hv & _ & Hw).
  - apply demo_running.
  - apply rtc_once, (guc_change demo_server (guc "pg_redis.enable_background_worker" V_enable_bgworker (KBool false) PGC_SIGHUP)).
    + cbn. do 7 apply list_elem_of_further. apply list_elem_of_here.
    + discriminate.
    + reflexivity.
  - split; [rewrite Hv by reflexivity; vm_compute; reflexivity|]. rewrite Hw. reflexivity.
Defined.
