(* ===== verification/Attach.v ===== *)
(** * Starting and attaching shared memory (src/shmem.c)

    The startup hook, which every process runs over the same shared segment: the
    first one initialises it, the others find it.  Then the DSA segment of the
    payloads, which the first backend in need creates and the others attach to,
    under [startup_lock]: a machine with one transition per step of
    [pg_redis_shmem_attach_dsa], for any number of backends, each of whose
    PostgreSQL calls may raise and each of which may be killed. *)
From S2P Require Import Prelude Types SharedMem DirtyEvent DirtyRing RingProtocol AsyncDrain ColdStart Shmem.

(** ** The request *)

(** [sizeof] of the structs, the estimate of dynahash and the checked arithmetic
    are PostgreSQL's and the compiler's. *)
Section Request.
Context (sizeof_header sizeof_event sizeof_entry : Z) (hash_estimate_size : Z -> Z -> Z).
Context (add_size mul_size : Z -> Z -> outcome Z).

Definition MAXALIGN (n : Z) : Z := (n + 7) / 8 * 8.

Definition pg_redis_dirty_ring_size_bytes (slot_count : Z) : outcome Z := mul_size sizeof_event slot_count.

(** The bytes, and the locks of the two tranches. *)
Definition pg_redis_shmem_request (dirty_ring_size lock_partitions shared_max_memory_mb : Z) : outcome (Z * list (bytes * Z)) :=
  obind (add_size 0 (MAXALIGN sizeof_header)) (fun size =>
  obind (pg_redis_dirty_ring_size_bytes dirty_ring_size) (fun ring =>
  obind (add_size size (MAXALIGN ring)) (fun size =>
  obind (add_size size (hash_estimate_size (estimate_max_entries shared_max_memory_mb) sizeof_entry)) (fun size =>
  Ret (size, [(bs "pg_redis", 3); (bs "pg_redis_partitions", lock_partitions)]))))).

(** Documented: the sum or the product, when it fits. *)
Definition checked (f : Z -> Z -> Z) (g : Z -> Z -> outcome Z) : Prop :=
  forall a b, 0 <= a -> 0 <= b -> f a b < 2 ^ 64 -> g a b = Ret (f a b).

(** With any ring the parameter admits the request does not overflow, and it
    covers what the startup hook allocates. *)
Lemma request_covers slots partitions mb :
  checked Z.add add_size -> checked Z.mul mul_size ->
  0 <= sizeof_header < 2 ^ 20 -> 0 <= sizeof_event < 2 ^ 20 -> 0 <= slots <= 1048576 ->
  let table := hash_estimate_size (estimate_max_entries mb) sizeof_entry in
  0 <= table < 2 ^ 60 ->
  exists size, pg_redis_shmem_request slots partitions mb =
      Ret (size, [(bs "pg_redis", 3); (bs "pg_redis_partitions", partitions)]) /\
    sizeof_header + sizeof_event * slots + table <= size.
Proof.
  intros Ha Hm Hh He Hs table Ht. unfold pg_redis_shmem_request, pg_redis_dirty_ring_size_bytes.
  assert (Hal : forall n, 0 <= n -> n <= MAXALIGN n <= n + 7).
  { intros n Hn. unfold MAXALIGN. pose proof (Z.div_mod (n + 7) 8 ltac:(lia)). pose proof (Z.mod_pos_bound (n + 7) 8 ltac:(lia)). lia. }
  pose proof (Hal sizeof_header ltac:(lia)). assert (0 <= sizeof_event * slots < 2 ^ 40) by nia. pose proof (Hal (sizeof_event * slots) ltac:(lia)).
  rewrite (Ha 0) by lia. cbn [obind]. rewrite Hm by lia. cbn [obind]. rewrite Ha by lia. cbn [obind].
  fold table. rewrite Ha by lia. cbn [obind]. eexists. split; [done|]. lia.
Qed.
End Request.

(** ** The startup hook *)

(** A [dsa_handle]; [DSM_HANDLE_INVALID] is [None]. *)
Abbreviation dsa_handle := Z (only parsing).
Abbreviation Latch := Z (only parsing).

(** The header, less its locks; the heads of the ring are in [Ring]. *)
Record PgRedisSharedHeader := {
  snapshot_in_progress : bool;
  snapshot_id_inflight : Z;
  load_header : LoadHeader;
  dsa : option dsa_handle;
  lock_tranche_id : Z;
  bgw_latch : option Latch
}.

(** What [ShmemInitStruct] and [ShmemInitHash] find under our names. *)
Record Segment := {
  sg_header : option PgRedisSharedHeader;
  sg_ring : option Ring;
  sg_keyspace : option Z                      (* the size it was created with *)
}.
Definition no_segment : Segment := {| sg_header := None; sg_ring := None; sg_keyspace := None |}.

(** The statics of a process: whether each pointer is set, and the capacity. *)
Record Statics := {
  PgRedisShared : bool;
  ring_attached : option Z;                   (* [ring_slots] and [ring_capacity] *)
  PgRedisPartitionLocks : bool;
  PgRedisSharedKeyspace : bool
}.

Section Startup.
Context (dirty_ring_size : nat) (shared_max_memory_mb partition_tranche : Z).

Definition pg_redis_shmem_startup (g : Segment) : Segment * Statics :=
  let fresh := {| snapshot_in_progress := false; snapshot_id_inflight := 0;
                  load_header := {| loaded := 0; last_load_attempt := 0 |};
                  dsa := None; lock_tranche_id := partition_tranche; bgw_latch := None |} in
  ({| sg_header := Some (default fresh (sg_header g));
      sg_ring := Some (default (pg_redis_dirty_ring_shmem_init dirty_ring_size) (sg_ring g));
      sg_keyspace := Some (default (estimate_max_entries shared_max_memory_mb) (sg_keyspace g)) |},
   {| PgRedisShared := true; ring_attached := Some (Z.of_nat dirty_ring_size);
      PgRedisPartitionLocks := true; PgRedisSharedKeyspace := true |}).
End Startup.

(** [pg_redis_shmem_set_bgw_latch], and the latch that [pg_redis_shmem_wake_bgw]
    sets, if any. *)
Definition pg_redis_shmem_set_bgw_latch (latch : option Latch) (h : option PgRedisSharedHeader) : option PgRedisSharedHeader :=
  (fun h => {| snapshot_in_progress := snapshot_in_progress h; snapshot_id_inflight := snapshot_id_inflight h;
               load_header := load_header h; dsa := dsa h; lock_tranche_id := lock_tranche_id h; bgw_latch := latch |}) <$> h.
Definition pg_redis_shmem_wake_bgw (h : option PgRedisSharedHeader) : option Latch :=
  h ← h; bgw_latch h.

(** ** Attaching to the DSA segment *)

(** Where a call stands.  The calls between the lock and its release: *)
Inductive AttachState :=
| A_Idle                          (* not in a call *)
| A_Want                          (* about to acquire startup_lock *)
| A_Look                          (* about to read PgRedisShared->dsa *)
| A_Create                        (* dsa_create *)
| A_Pin (h : dsa_handle)          (* dsa_pin *)
| A_PinMapping (h : dsa_handle)   (* dsa_pin_mapping of the creator *)
| A_Publish (h : dsa_handle)      (* write the handle and cached_dsa *)
| A_Attach (h : dsa_handle)       (* dsa_attach *)
| A_Keep                          (* dsa_pin_mapping of the others *)
| A_Release                       (* release the lock, return *)
| A_Catch                         (* release the lock, raise again *)
| A_Done
| A_Raised
| A_Killed.

#[export] Instance attach_state_eq_dec : EqDecision AttachState.
Proof. solve_decision. Defined.

(** Shared: the lock, the published handle, and the segments that outlive the
    backends that map them.  Per backend: its call and its [cached_dsa]. *)
Record AttachWorld := {
  aw_lock : option nat;
  aw_dsa : option dsa_handle;
  aw_pinned : gset dsa_handle;
  aw_pcs : gmap nat AttachState;
  aw_cached : gmap nat dsa_handle
}.

Definition set_pc (p : nat) (pc : AttachState) (w : AttachWorld) : AttachWorld :=
  {| aw_lock := aw_lock w; aw_dsa := aw_dsa w; aw_pinned := aw_pinned w;
     aw_pcs := <[p := pc]> (aw_pcs w); aw_cached := aw_cached w |}.
Definition set_lock (l : option nat) (w : AttachWorld) : AttachWorld :=
  {| aw_lock := l; aw_dsa := aw_dsa w; aw_pinned := aw_pinned w; aw_pcs := aw_pcs w; aw_cached := aw_cached w |}.
Definition pin (h : dsa_handle) (w : AttachWorld) : AttachWorld :=
  {| aw_lock := aw_lock w; aw_dsa := aw_dsa w; aw_pinned := {[h]} ∪ aw_pinned w;
     aw_pcs := aw_pcs w; aw_cached := aw_cached w |}.
Definition cache (p : nat) (h : dsa_handle) (w : AttachWorld) : AttachWorld :=
  {| aw_lock := aw_lock w; aw_dsa := aw_dsa w; aw_pinned := aw_pinned w;
     aw_pcs := aw_pcs w; aw_cached := <[p := h]> (aw_cached w) |}.
Definition publish_handle (h : dsa_handle) (w : AttachWorld) : AttachWorld :=
  {| aw_lock := aw_lock w; aw_dsa := Some h; aw_pinned := aw_pinned w; aw_pcs := aw_pcs w; aw_cached := aw_cached w |}.

(** What the PostgreSQL call of a step does: it succeeds ([dsa_create] with a
    handle) or raises. *)
Inductive Answer := Granted (h : dsa_handle) | Refused.

Definition attach_goto (p : nat) (ans : Answer) (f : dsa_handle -> AttachWorld) (w : AttachWorld) : AttachWorld :=
  match ans with Granted h => f h | Refused => set_pc p A_Catch w end.

(** One step of backend [p]; [None] while it waits for the lock. *)
Definition attach_step (p : nat) (ans : Answer) (w : AttachWorld) : option AttachWorld :=
  pc ← aw_pcs w !! p;
  match pc with
  | A_Idle => Some (set_pc p (if aw_cached w !! p then A_Done else A_Want) w)
  | A_Want => match aw_lock w with None => Some (set_pc p A_Look (set_lock (Some p) w)) | Some _ => None end
  | A_Look => Some (set_pc p (match aw_dsa w with None => A_Create | Some h => A_Attach h end) w)
  | A_Create => Some (attach_goto p ans (fun h => set_pc p (A_Pin h) w) w)
  | A_Pin h => Some (attach_goto p ans (fun _ => set_pc p (A_PinMapping h) (pin h w)) w)
  | A_PinMapping h => Some (attach_goto p ans (fun _ => set_pc p (A_Publish h) w) w)
  | A_Publish h => Some (set_pc p A_Release (cache p h (publish_handle h w)))
  | A_Attach h => Some (attach_goto p ans (fun _ => set_pc p A_Keep (cache p h w)) w)
  | A_Keep => Some (attach_goto p ans (fun _ => set_pc p A_Release w) w)
  | A_Release => Some (set_pc p A_Done (set_lock None w))
  | A_Catch => Some (set_pc p A_Raised (set_lock None w))
  | A_Done | A_Raised => Some (set_pc p A_Idle w)            (* the next command *)
  | A_Killed => None
  end.

(** The exit of a backend: PostgreSQL releases its locks and its mapping. *)
Definition attach_exit (p : nat) (w : AttachWorld) : AttachWorld :=
  {| aw_lock := if decide (aw_lock w = Some p) then None else aw_lock w; aw_dsa := aw_dsa w;
     aw_pinned := aw_pinned w; aw_pcs := <[p := A_Killed]> (aw_pcs w); aw_cached := delete p (aw_cached w) |}.

Inductive attach_moves : AttachWorld -> AttachWorld -> Prop :=
| attach_stay w : attach_moves w w
| attach_move w1 w2 w3 p ans :
    attach_moves w1 w2 -> attach_step p ans w2 = Some w3 -> attach_moves w1 w3
| attach_kill w1 w2 p :
    attach_moves w1 w2 -> is_Some (aw_pcs w2 !! p) -> attach_moves w1 (attach_exit p w2).

Definition attach_start (backends : list nat) : AttachWorld :=
  {| aw_lock := None; aw_dsa := None; aw_pinned := ∅;
     aw_pcs := list_to_map ((fun p => (p, A_Idle)) <$> backends); aw_cached := ∅ |}.

(** ** The invariant *)

Definition critical (pc : AttachState) : bool :=
  match pc with
  | A_Look | A_Create | A_Pin _ | A_PinMapping _ | A_Publish _ | A_Attach _ | A_Keep | A_Release | A_Catch => true
  | A_Idle | A_Want | A_Done | A_Raised | A_Killed => false
  end.

(** What a backend relies on at each point. *)
Definition pc_ok (w : AttachWorld) (p : nat) (pc : AttachState) : Prop :=
  match pc with
  | A_Create | A_Pin _ => aw_dsa w = None
  | A_PinMapping h | A_Publish h => aw_dsa w = None /\ h ∈ aw_pinned w
  | A_Attach h => aw_dsa w = Some h
  | A_Keep | A_Release | A_Done => is_Some (aw_cached w !! p)
  | _ => True
  end.

Record attach_inv (w : AttachWorld) : Prop := {
  ai_lock : forall p, aw_lock w = Some p <-> exists pc, aw_pcs w !! p = Some pc /\ critical pc = true;
  ai_cached : forall p h, aw_cached w !! p = Some h -> aw_dsa w = Some h;
  ai_pinned : forall h, aw_dsa w = Some h -> h ∈ aw_pinned w;
  ai_pc : forall p pc, aw_pcs w !! p = Some pc -> pc_ok w p pc
}.

Lemma start_inv backends : attach_inv (attach_start backends).
Proof.
  assert (Hpc : forall p pc, aw_pcs (attach_start backends) !! p = Some pc -> pc = A_Idle).
  { intros p pc Hp. apply elem_of_list_to_map_2 in Hp. apply list_elem_of_fmap in Hp as (q & [= -> ->] & _). done. }
  split; try done.
  - intros p. split; [done|]. intros (pc & Hp & Hc). by rewrite (Hpc p pc Hp) in Hc.
  - intros p pc Hp. by rewrite (Hpc p pc Hp).
Qed.

(** One backend at most is between the lock and its release. *)
Lemma critical_unique w p q pc pc' :
  attach_inv w -> aw_pcs w !! p = Some pc -> critical pc = true -> aw_pcs w !! q = Some pc' -> critical pc' = true -> p = q.
Proof.
  intros [Hl _ _ _] Hp Hc Hq Hc'. assert (aw_lock w = Some p) by (apply Hl; eauto). assert (aw_lock w = Some q) by (apply Hl; eauto).
  congruence.
Qed.

Lemma attach_pc_ok_mono w w' q pc :
  pc_ok w q pc -> (aw_dsa w' = aw_dsa w \/ critical pc = false) -> aw_pinned w ⊆ aw_pinned w' ->
  (is_Some (aw_cached w !! q) -> is_Some (aw_cached w' !! q)) -> pc_ok w' q pc.
Proof. destruct pc; cbn; intros Hk [E|E] Hp Hc; try done; rewrite ?E; auto; destruct Hk; split; auto; set_solver. Qed.

(** A step moves one backend from [pc0] to [pc']. *)
Lemma inv_update w w' p pc0 pc' :
  attach_inv w -> aw_pcs w !! p = Some pc0 -> aw_pcs w' = <[p := pc']> (aw_pcs w) ->
  aw_lock w' = (if critical pc' then Some p else if critical pc0 then None else aw_lock w) ->
  (critical pc' = true -> critical pc0 = true \/ aw_lock w = None) ->
  (aw_dsa w' = aw_dsa w \/ critical pc0 = true) -> aw_pinned w ⊆ aw_pinned w' ->
  (forall q, q <> p -> aw_cached w' !! q = aw_cached w !! q) ->
  (forall q h, aw_cached w' !! q = Some h -> aw_dsa w' = Some h) ->
  (forall h, aw_dsa w' = Some h -> h ∈ aw_pinned w') ->
  pc_ok w' p pc' ->
  attach_inv w'.
Proof.
  intros Hi Hp Ep El Hc Hd Hpin Hq Hca Hpi Hok. pose proof Hi as [Hl _ _ Hpc]. split; [|done|done|].
  - intros q. rewrite El, Ep. destruct (decide (q = p)) as [->|Hne].
    + rewrite lookup_insert_eq. destruct (critical pc') eqn:Ec'; [split; [by exists pc'|done]|].
      split; [|intros (? & [= <-] & ?); congruence]. intros Hlk. exfalso. destruct (critical pc0) eqn:Ec0; [done|].
      apply Hl in Hlk as (pc & Hpc' & Hcr). congruence.
    + rewrite lookup_insert_ne by done. rewrite <- (Hl q). destruct (critical pc') eqn:Ec'.
      * split; [by intros [= ->]|]. intros Hlk. destruct (Hc eq_refl) as [Hc0|Hn]; [|congruence].
        apply Hl in Hlk as (pc & Hpc' & Hcr). by rewrite (critical_unique w p q pc0 pc) in Hne.
      * destruct (critical pc0) eqn:Ec0; [|done]. split; [done|]. intros Hlk. apply Hl in Hlk as (pc & Hpc' & Hcr).
        by rewrite (critical_unique w p q pc0 pc) in Hne.
  - intros q pc. rewrite Ep. destruct (decide (q = p)) as [->|Hne]; [rewrite lookup_insert_eq; by intros [= <-]|].
    rewrite lookup_insert_ne by done. intros Hpc'. apply (attach_pc_ok_mono w); [by apply Hpc| |done|by rewrite Hq].
    destruct Hd as [Hd|Hc0]; [by left|]. right. destruct (critical pc) eqn:Ec; [|done].
    by rewrite (critical_unique w p q pc0 pc) in Hne.
Qed.

Lemma lock_of_critical w p pc : attach_inv w -> aw_pcs w !! p = Some pc -> critical pc = true -> aw_lock w = Some p.
Proof. intros [Hl _ _ _] Hp Hc. apply Hl. eauto. Qed.

Lemma step_inv p ans w w' : attach_inv w -> attach_step p ans w = Some w' -> attach_inv w'.
Proof.
  intros Hi. unfold attach_step. destruct (aw_pcs w !! p) as [pc|] eqn:Hp; [|done]. cbn [mbind option_bind].
  pose proof Hi as [Hl Hca Hpi Hpc]. specialize (Hpc p pc Hp).
  assert (Hlk : critical pc = true -> aw_lock w = Some p) by (intros; by eapply lock_of_critical).
  destruct pc; cbn in Hpc, Hlk; try destruct ans; cbn [attach_goto];
    repeat match goal with |- context [match ?x with None => _ | Some _ => _ end = Some _] => destruct x eqn:? end;
    intros [= <-]; eapply (inv_update w _ p); [exact Hi|exact Hp|reflexivity|..]; cbn in *; auto; try done.
  all: try (by intros; left); try (by right); try (eexists; apply lookup_insert_eq); try apply union_subseteq_r.
  all: try (intros q Hq; by rewrite lookup_insert_ne).
  all: try (intros q h'; rewrite lookup_insert_Some; intros [[-> ->]|[_ Hq%Hca]]; [done|]; destruct_and?; congruence).
  all: try (destruct (aw_cached w !! p) eqn:Ec; cbn; try rewrite Ec; done).
  all: try (intros h' Hh'; apply elem_of_union_r, Hpi, Hh'); try (split; [done|apply elem_of_union_l, elem_of_singleton; done]).
  all: try (by intros h' [= ->]; destruct Hpc); try (by destruct Hpc); destruct (aw_dsa w) eqn:Ed; cbn; auto.
Qed.

Lemma exit_inv p w : attach_inv w -> is_Some (aw_pcs w !! p) -> attach_inv (attach_exit p w).
Proof.
  intros Hi [pc Hp]. pose proof Hi as [Hl Hca Hpi Hpc].
  apply (inv_update w _ p pc A_Killed); [done|done|done|..]; cbn; try done; try (by left).
  - destruct (critical pc) eqn:Ec; [by rewrite decide_True by (by eapply lock_of_critical)|].
    rewrite decide_False; [done|]. intros (pc' & Hp' & Hc')%Hl. congruence.
  - intros q Hq. by rewrite lookup_delete_ne.
  - intros q h. rewrite lookup_delete_Some. intros [_ Hq]. by eapply Hca.
Qed.

Lemma moves_inv w w' : attach_moves w w' -> attach_inv w -> attach_inv w'.
Proof.
  induction 1 as [|w1 w2 w3 p ans _ IH Hs|w1 w2 p _ IH Hs]; intros Hi;
    [done|by eapply step_inv; [apply IH|]|by apply exit_inv; [apply IH|]].
Qed.

(** A published handle stays. *)
Lemma step_dsa p ans w w' h : attach_inv w -> attach_step p ans w = Some w' -> aw_dsa w = Some h -> aw_dsa w' = Some h.
Proof.
  intros Hi. unfold attach_step. destruct (aw_pcs w !! p) as [pc|] eqn:Hp; [|done]. cbn [mbind option_bind].
  pose proof (ai_pc _ Hi p pc Hp) as Hpc. intros Hs Hd. destruct pc; cbn in Hpc; try (destruct Hpc; congruence);
    destruct ans; cbn [attach_goto] in Hs; repeat case_match; by simplify_eq.
Qed.

(** C18: All backends share one segment.  Whatever the interleaving of any number
    of backends, whichever PostgreSQL calls raise and whichever backends are
    killed, at most one backend is inside [startup_lock]; every backend that has
    a segment has the published one, which is pinned, so that it outlives them; a
    call that returned has it; and the published handle never changes. *)
Theorem attach_agrees (backends : list nat) (w w' : AttachWorld) :
  attach_moves (attach_start backends) w -> attach_moves w w' ->
  (forall p q pc pc', aw_pcs w !! p = Some pc -> critical pc = true ->
     aw_pcs w !! q = Some pc' -> critical pc' = true -> p = q) /\
  (forall p h, aw_cached w !! p = Some h -> aw_dsa w = Some h /\ h ∈ aw_pinned w) /\
  (forall p, aw_pcs w !! p = Some A_Done -> is_Some (aw_cached w !! p)) /\
  (forall h, aw_dsa w = Some h -> aw_dsa w' = Some h).
Proof.
  intros Hw Hw'. assert (Hi : attach_inv w) by (eapply moves_inv; [done|apply start_inv]).
  split; [intros; by eapply critical_unique|]. split; [|split].
  - intros p h Hc. apply (ai_cached _ Hi) in Hc. split; [done|]. by apply (ai_pinned _ Hi).
  - intros p Hp. exact (ai_pc _ Hi p A_Done Hp).
  - intros h. induction Hw' as [|w1 w2 w3 p ans Hm IH Hs|w1 w2 p Hm IH Hs]; [done| |].
    + intros Hd. eapply step_dsa; [|done|auto]. eapply moves_inv; [exact Hm|done].
    + intros Hd. cbn. auto.
Qed.

(** ** Progress *)

(** [p] alone, with the answers of its PostgreSQL calls. *)
Fixpoint attach_run (p : nat) (anss : list Answer) (w : AttachWorld) : option AttachWorld :=
  match anss with
  | [] => Some w
  | ans :: anss' => w' ← attach_step p ans w; attach_run p anss' w'
  end.

(** The steps to the release. *)
Definition steps_left (pc : AttachState) : nat :=
  match pc with
  | A_Look => 6 | A_Create => 5 | A_Pin _ => 4 | A_PinMapping _ => 3 | A_Publish _ => 2
  | A_Attach _ => 3 | A_Keep => 2 | A_Release | A_Catch => 1
  | _ => 0
  end.

Lemma critical_step p ans w pc :
  aw_pcs w !! p = Some pc -> critical pc = true ->
  exists w', attach_step p ans w = Some w' /\
    (aw_lock w' = None \/ exists pc', aw_pcs w' !! p = Some pc' /\ critical pc' = true /\ (steps_left pc' < steps_left pc)%nat).
Proof.
  intros Hp Hc. unfold attach_step. rewrite Hp. cbn [mbind option_bind].
  destruct pc; try done; destruct ans; cbn [attach_goto]; eexists; (split; [done|]); try (by left); right;
    (eexists; split; [apply lookup_insert_eq|]); destruct (aw_dsa w); cbn; (split; [done|lia]).
Qed.

Lemma holder_releases p k : forall w pc anss,
  aw_pcs w !! p = Some pc -> critical pc = true -> (steps_left pc <= k)%nat -> (k <= length anss)%nat ->
  exists n w', (n <= k)%nat /\ attach_run p (take n anss) w = Some w' /\ aw_lock w' = None.
Proof.
  induction k as [|k IH]; intros w pc anss Hp Hc Hk Hlen; [destruct pc; cbn in *; (done || lia)|].
  destruct anss as [|ans anss]; [cbn in Hlen; lia|]. destruct (critical_step p ans w pc Hp Hc) as (w1 & E1 & [Hl|(pc1 & Hp1 & Hc1 & Hlt)]).
  - exists 1%nat, w1. split; [lia|]. cbn. rewrite E1. done.
  - destruct (IH w1 pc1 anss Hp1 Hc1 ltac:(lia) ltac:(cbn in Hlen; lia)) as (n & w' & Hn & E & Hl).
    exists (S n), w'. split; [lia|]. cbn. rewrite E1. done.
Qed.

Lemma granted_step p h w pc :
  aw_pcs w !! p = Some pc -> critical pc = true -> pc <> A_Catch ->
  exists w', attach_step p (Granted h) w = Some w' /\
    ((aw_lock w' = None /\ aw_pcs w' !! p = Some A_Done) \/
     exists pc', aw_pcs w' !! p = Some pc' /\ critical pc' = true /\ pc' <> A_Catch /\ (steps_left pc' < steps_left pc)%nat).
Proof.
  intros Hp Hc Hn. unfold attach_step. rewrite Hp. cbn [mbind option_bind].
  destruct pc; try done; cbn [attach_goto]; eexists; (split; [done|]);
    try (left; split; [done|apply lookup_insert_eq]); right;
    (eexists; split; [apply lookup_insert_eq|]); destruct (aw_dsa w); cbn; (split; [done|]; split; [done|lia]).
Qed.

Lemma granted_runs p h k : forall w pc,
  attach_inv w -> aw_pcs w !! p = Some pc -> critical pc = true -> pc <> A_Catch -> (steps_left pc <= k)%nat ->
  exists n w', (n <= k)%nat /\ attach_run p (replicate n (Granted h)) w = Some w' /\ attach_inv w' /\
    aw_lock w' = None /\ aw_pcs w' !! p = Some A_Done.
Proof.
  induction k as [|k IH]; intros w pc Hi Hp Hc Hn Hk; [destruct pc; cbn in *; (done || lia)|].
  destruct (granted_step p h w pc Hp Hc Hn) as (w1 & E1 & Hw1). pose proof (step_inv _ _ _ _ Hi E1) as Hi1.
  destruct Hw1 as [[Hl Hd]|(pc1 & Hp1 & Hc1 & Hn1 & Hlt)].
  - exists 1%nat, w1. split; [lia|]. cbn. by rewrite E1.
  - destruct (IH w1 pc1 Hi1 Hp1 Hc1 Hn1 ltac:(lia)) as (n & w' & Hle & E & H').
    exists (S n), w'. split; [lia|]. cbn. by rewrite E1.
Qed.

(** A call that finds no segment takes the free lock. *)
Lemma enters p h w :
  aw_lock w = None -> aw_pcs w !! p = Some A_Idle -> aw_cached w !! p = None ->
  exists w', attach_run p [Granted h; Granted h] w = Some w' /\ aw_pcs w' !! p = Some A_Look.
Proof.
  intros Hl Hp Hc.
  assert (E1 : attach_step p (Granted h) w = Some (set_pc p A_Want w))
    by (unfold attach_step; rewrite Hp; cbn [mbind option_bind]; by rewrite Hc).
  assert (E2 : attach_step p (Granted h) (set_pc p A_Want w) = Some (set_pc p A_Look (set_lock (Some p) (set_pc p A_Want w))))
    by (unfold attach_step; cbn [set_pc aw_pcs]; rewrite lookup_insert_eq; cbn [mbind option_bind set_pc aw_lock]; by rewrite Hl).
  cbn [attach_run]. rewrite E1. cbn [mbind option_bind]. rewrite E2. eexists. split; [done|]. apply lookup_insert_eq.
Qed.

Lemma attach_run_app p l1 l2 w : attach_run p (l1 ++ l2) w = w' ← attach_run p l1 w; attach_run p l2 w'.
Proof. revert w. induction l1 as [|a l1 IH]; intros w; [done|]. cbn. destruct (attach_step p a w); [apply IH|done]. Qed.

Lemma run_inv p l w w' : attach_inv w -> attach_run p l w = Some w' -> attach_inv w'.
Proof.
  revert w. induction l as [|a l IH]; intros w Hi E; [by injection E as <-|]. cbn in E.
  destruct (attach_step p a w) as [w1|] eqn:E1; [|done]. eapply IH; [by eapply step_inv|done].
Qed.

(** C32: Nobody is kept waiting for the segment.  In any reachable state the holder
    of [startup_lock] releases it within six steps of its own, whatever its
    PostgreSQL calls answer; and while the lock is free, a backend whose calls
    succeed has the segment within eight steps. *)
Theorem attach_progress (backends : list nat) (w : AttachWorld) (p : nat) :
  attach_moves (attach_start backends) w ->
  (aw_lock w = Some p -> forall anss, length anss = 6%nat ->
     exists n w', (n <= 6)%nat /\ attach_run p (take n anss) w = Some w' /\ aw_lock w' = None) /\
  (aw_lock w = None -> aw_pcs w !! p = Some A_Idle -> forall h, 
     exists n w', (n <= 8)%nat /\ attach_run p (replicate n (Granted h)) w = Some w' /\
       aw_pcs w' !! p = Some A_Done /\ aw_lock w' = None /\ is_Some (aw_cached w' !! p)).
Proof.
  intros Hw. assert (Hi : attach_inv w) by (eapply moves_inv; [done|apply start_inv]).
  split.
  - intros (pc & Hp & Hc)%(ai_lock _ Hi) anss Hlen.
    eapply (holder_releases p 6 w pc); [done|done|destruct pc; cbn; lia|lia].
  - intros Hl Hp h. destruct (aw_cached w !! p) as [x|] eqn:Ec.
    + exists 1%nat. eexists. split; [lia|]. cbn. unfold attach_step. rewrite Hp. cbn [mbind option_bind]. rewrite Ec.
      split; [done|]. cbn. rewrite lookup_insert_eq, Ec. eauto.
    + destruct (enters p h w Hl Hp Ec) as (w1 & E1 & Hp1). pose proof (run_inv _ _ _ _ Hi E1) as Hi1.
      destruct (granted_runs p h 6 w1 A_Look Hi1 Hp1 eq_refl ltac:(done) (le_n _)) as (n & w' & Hn & E & Hi' & Hl' & Hd).
      exists (2 + n)%nat, w'. split; [lia|]. rewrite replicate_add, attach_run_app. cbn [replicate]. rewrite E1. cbn [mbind option_bind].
      split; [done|]. split; [done|]. split; [done|]. exact (ai_pc _ Hi' p A_Done Hd).
Qed.

(** ** The startup hook is idempotent *)

(** The startup hook initialises shared memory once.  The first process gets a
    fresh header, empty slots and heads at zero; a process that starts later, when
    the others have changed anything, changes nothing and is attached to the same
    ring, whose capacity it takes for the length of the slot array. *)
Lemma startup_initialises_once (slots : nat) (mb tranche : Z) (g : Segment) :
  let '(g1, st1) := pg_redis_shmem_startup slots mb tranche no_segment in
  sg_ring g1 = Some (pg_redis_dirty_ring_shmem_init slots) /\ pending_events (pg_redis_dirty_ring_shmem_init slots) = [] /\
  (exists h, sg_header g1 = Some h /\ loaded (load_header h) = 0 /\ dsa h = None /\ pg_redis_shmem_wake_bgw (Some h) = None) /\
  (forall r, is_Some (sg_header g) -> sg_ring g = Some r -> is_Some (sg_keyspace g) -> length (ring_slots r) = slots ->
     pg_redis_shmem_startup slots mb tranche g = (g, st1) /\ ring_attached st1 = Some (ring_capacity r)).
Proof.
  cbn. split; [done|]. split; [done|]. split; [by eexists|].
  intros r [h Hh] Hr [n Hn] <-. destruct g as [gh gr gk]. cbn in *. subst. done.
Qed.

(** ** Witnesses *)

Definition attach_race : list (nat * Answer) :=
  [(1, Granted 7); (2, Granted 7); (1, Granted 7); (1, Granted 7); (1, Granted 7); (1, Refused); (1, Refused);
   (2, Granted 8); (2, Granted 8); (2, Granted 8); (2, Granted 8); (2, Granted 8); (2, Granted 8); (2, Granted 8);
   (1, Granted 9); (1, Granted 9); (1, Granted 9); (1, Granted 9); (1, Granted 9); (1, Granted 9); (1, Granted 9)]%nat.
Fixpoint attach_play (l : list (nat * Answer)) (w : AttachWorld) : option AttachWorld :=
  match l with [] => Some w | (p, ans) :: l' => w' ← attach_step p ans w; attach_play l' w' end.
Definition attach_end : AttachWorld := default (attach_start []) (attach_play attach_race (attach_start [1; 2]%nat)).

Lemma attach_play_moves l : forall w0 w w', attach_moves w0 w -> attach_play l w = Some w' -> attach_moves w0 w'.
Proof.
  induction l as [|[p ans] l IH]; intros w0 w w' Hm E; [by injection E as <-|]. cbn in E.
  destruct (attach_step p ans w) as [w1|] eqn:E1; [|done]. eapply IH; [by eapply attach_move|done].
Qed.

Lemma attach_end_moves : attach_moves (attach_start [1; 2]%nat) attach_end.
Proof. apply (attach_play_moves attach_race _ (attach_start [1; 2]%nat)); [apply attach_stay|]. vm_compute. reflexivity. Qed.

(** The first backend fails to pin, the second creates the segment, the first
    attaches to it. *)
Lemma attach_agrees_witness :
  aw_dsa attach_end = Some 8 /\ forall p h, aw_cached attach_end !! p = Some h -> h = 8.
Proof.
  destruct (attach_agrees [1; 2]%nat attach_end attach_end attach_end_moves (attach_stay _)) as (_ & Hc & _).
  split; [vm_compute; reflexivity|]. intros p h Hp. destruct (Hc p h Hp) as [Hd _]. vm_compute in Hd. congruence.
Defined.

Lemma attach_progress_witness :
  exists n w', (n <= 8)%nat /\ attach_run 1 (replicate n (Granted 3)) (attach_start [1]%nat) = Some w' /\
    is_Some (aw_cached w' !! 1%nat).
Proof.
  destruct (attach_progress [1]%nat (attach_start [1]%nat) 1 (attach_stay _)) as [_ Hp].
  destruct (Hp eq_refl eq_refl 3) as (n & w' & Hn & E & _ & _ & Hc). exists n, w'. split; [exact Hn|]. split; [exact E|exact Hc].
Defined.
