(* ===== verification/LockOrder.v ===== *)
(** * The lightweight locks (src/shared_store.c, src/dirty_ring.c, src/shmem.c, src/persistence.c)

    Which locks each operation takes, in which order, and where it calls SPI or
    sleeps.  The comments of the source state two rules: no SPI call while a lock
    of pg_redis is held, and no cycle in the order of acquisition.  Here the
    operations are the sequences of their lock actions, a backend is any sequence
    of operations, and any number of backends interleave, each of which may raise
    or exit at any point, upon which PostgreSQL releases what it holds. *)
From stdpp Require Import relations.
From S2P Require Import Prelude Types SharedHash Shmem.

(** ** Locks and actions *)

Inductive Lock := L_snapshot | L_startup | L_partition (i : Z) | L_ring_consumer.
Inductive LockMode := LW_SHARED | LW_EXCLUSIVE.

#[export] Instance lock_eq_dec : EqDecision Lock.
Proof. solve_decision. Defined.
#[export] Instance lock_mode_eq_dec : EqDecision LockMode.
Proof. solve_decision. Defined.

Inductive Act :=
| Acq (l : Lock) (m : LockMode)
| Rel (l : Lock)
| Spi                         (* a call of SPI *)
| Sleep.                      (* pg_usleep *)

Abbreviation Held := (list (Lock * LockMode)).

(** [pg_redis_assert_no_pg_redis_lwlock_held], which [pg_redis_spi_connect] and
    the drain begin with. *)
Definition pg_redis_assert_no_pg_redis_lwlock_held (held : Held) : bool := bool_decide (held = []).

(** ** The actions of each operation *)

(** How an attempt to publish on a full ring goes on: a drain that found [n]
    events, or a pause. *)
Inductive Full := Full_Drain (n : nat) | Full_Sleep.

Section Ops.
Context `{HashBytes} (lock_partitions : Z).

Definition under (l : Lock) (m : LockMode) : list Act := [Acq l m; Rel l].

(** An operation on the entry of one key; without locks it returns at once. *)
Definition on_key (key : bytes) (f : Lock -> list Act) : list Act :=
  match pg_redis_partition_lock lock_partitions key with None => [] | Some i => f (L_partition i) end.

(** [collect]; and when there is a batch, the statements and [release_batch] or
    [abort_batch]. *)
Definition async_drain_acts (n : nat) : list Act :=
  under L_ring_consumer LW_EXCLUSIVE ++
  match n with O => [] | S _ => [Spi] ++ under L_ring_consumer LW_EXCLUSIVE end.

Definition full_acts (f : Full) : list Act :=
  match f with Full_Drain n => async_drain_acts n | Full_Sleep => [Sleep] end.

(** [pg_redis_dirty_ring_publish_blocking], which is called without a lock. *)
Definition publish_blocking_acts (fulls : list Full) : list Act := flat_map full_acts fulls.

(** One round under the lock for every attempt. *)
Definition hash_set_atomic_acts (key : bytes) (fulls : list Full) : list Act :=
  on_key key (fun l => flat_map (fun f => under l LW_EXCLUSIVE ++ full_acts f) fulls ++ under l LW_EXCLUSIVE).
(** The lock is given up around each wait. *)
Definition hash_del_atomic_acts (key : bytes) (fulls : list Full) : list Act :=
  on_key key (fun l => [Acq l LW_EXCLUSIVE] ++
    flat_map (fun f => [Rel l] ++ full_acts f ++ [Acq l LW_EXCLUSIVE]) fulls ++ [Rel l]).

(** All partition locks in increasing order and back; the ring and the tables
    after that. *)
Definition flushall_acts (writes : bool) : list Act :=
  ((fun i => Acq (L_partition i) LW_EXCLUSIVE) <$> acquire_all_partition_locks lock_partitions) ++
  ((fun i => Rel (L_partition i)) <$> release_all_partition_locks lock_partitions) ++
  under L_ring_consumer LW_EXCLUSIVE ++
  (if writes then [Spi] else []).

(** The rows are read first; each takes the lock of its key to be upserted and
    again to be written back. *)
Definition load_acts (rows : list bytes) : list Act :=
  [Spi] ++ flat_map (fun key => on_key key (fun l => under l LW_EXCLUSIVE ++ under l LW_EXCLUSIVE)) rows.

Inductive LockOp :=
| O_lookup (key : bytes)                          (* lookup_raw, hash_lookup_field *)
| O_change (key : bytes)                          (* upsert, remove, writeback *)
| O_publish (fulls : list Full)
| O_hset (key : bytes) (fulls : list Full)
| O_hdel (key : bytes) (fulls : list Full)
| O_drain (n : nat)
| O_reclaim
| O_flushall (writes : bool)
| O_attach
| O_load (strings hashes lists : list bytes)      (* the keys of the rows *)
| O_snapshot_flag                                 (* try_begin, end *)
| O_statement.                                    (* run_flush, save_snapshot, jobs *)

Definition op_acts (o : LockOp) : list Act :=
  match o with
  | O_lookup key => on_key key (fun l => under l LW_SHARED)
  | O_change key => on_key key (fun l => under l LW_EXCLUSIVE)
  | O_publish fulls => publish_blocking_acts fulls
  | O_hset key fulls => hash_set_atomic_acts key fulls
  | O_hdel key fulls => hash_del_atomic_acts key fulls
  | O_drain n => async_drain_acts n
  | O_reclaim => under L_ring_consumer LW_EXCLUSIVE
  | O_flushall writes => flushall_acts writes
  | O_attach => under L_startup LW_EXCLUSIVE
  | O_load strings hashes lists => load_acts strings ++ load_acts hashes ++ load_acts lists
  | O_snapshot_flag => under L_snapshot LW_EXCLUSIVE
  | O_statement => [Spi]
  end.

(** A backend that performs a sequence of operations. *)
Definition backend_acts (os : list LockOp) : list Act := flat_map op_acts os.
End Ops.

(** ** The machine *)

Record Thread := { th_held : Held; th_todo : list Act }.

Definition compatible (m m' : LockMode) : bool :=
  match m, m' with LW_SHARED, LW_SHARED => true | _, _ => false end.

(** Another backend holds the lock in a mode that excludes [m]. *)
Definition blocks (l : Lock) (m : LockMode) (th : Thread) : bool :=
  existsb (fun x => bool_decide (x.1 = l) && negb (compatible m x.2)) (th_held th).

Abbreviation Threads := (gmap nat Thread).

Definition grantable (p : nat) (l : Lock) (m : LockMode) (ts : Threads) : Prop :=
  forall q th, q <> p -> ts !! q = Some th -> blocks l m th = false.

Definition drop_lock (l : Lock) (held : Held) : Held := filter (fun x => x.1 <> l) held.

Inductive lock_step : Threads -> Threads -> Prop :=
| step_acq ts p held todo l m :
    ts !! p = Some {| th_held := held; th_todo := Acq l m :: todo |} -> grantable p l m ts ->
    lock_step ts (<[p := {| th_held := (l, m) :: held; th_todo := todo |}]> ts)
| step_rel ts p held todo l :
    ts !! p = Some {| th_held := held; th_todo := Rel l :: todo |} ->
    lock_step ts (<[p := {| th_held := drop_lock l held; th_todo := todo |}]> ts)
| step_other ts p held todo a :
    ts !! p = Some {| th_held := held; th_todo := a :: todo |} -> a = Spi \/ a = Sleep ->
    lock_step ts (<[p := {| th_held := held; th_todo := todo |}]> ts).

(** An error, or the exit of the backend: [LWLockReleaseAll]. *)
Inductive lock_abort : Threads -> Threads -> Prop :=
| step_abort ts p th :
    ts !! p = Some th -> lock_abort ts (<[p := {| th_held := []; th_todo := [] |}]> ts).

Inductive lock_run : Threads -> Threads -> Prop :=
| lrun_refl ts : lock_run ts ts
| lrun_step ts1 ts2 ts3 : lock_run ts1 ts2 -> lock_step ts2 ts3 \/ lock_abort ts2 ts3 -> lock_run ts1 ts3.

(** ** The order *)

Definition rank (l : Lock) : Z :=
  match l with
  | L_snapshot => -3
  | L_startup => -2
  | L_ring_consumer => -1
  | L_partition i => i
  end.

(** Locks are taken in increasing rank and only those held are released; nothing
    is held at an SPI call, at a pause or at the end. *)
Fixpoint ordered (held : Held) (todo : list Act) : Prop :=
  match todo with
  | [] => held = []
  | Acq l m :: todo' => Forall (fun x => rank x.1 < rank l) held /\ ordered ((l, m) :: held) todo'
  | Rel l :: todo' => l ∈ held.*1 /\ ordered (drop_lock l held) todo'
  | Spi :: todo' | Sleep :: todo' => pg_redis_assert_no_pg_redis_lwlock_held held = true /\ ordered held todo'
  end.

Lemma ordered_app held a b : ordered held a -> ordered [] b -> ordered held (a ++ b).
Proof.
  revert held. induction a as [|x a IH]; intros held Ha Hb; [cbn in Ha; by subst|].
  destruct x; cbn in *; destruct Ha as [H1 H2]; split; auto.
Qed.

Lemma ordered_flat_map {A} (f : A -> list Act) (l : list A) :
  (forall x, ordered [] (f x)) -> ordered [] (flat_map f l).
Proof. intros Hf. induction l as [|x l IH]; [done|]. cbn. by apply ordered_app. Qed.

Definition parts (js : list Z) : Held := (fun i => (L_partition i, LW_EXCLUSIVE)) <$> js.

Lemma acquire_ordered js : forall held rest,
  StronglySorted Z.lt js -> (forall i x, i ∈ js -> x ∈ held -> rank x.1 < i) ->
  ordered (parts (reverse js) ++ held) rest ->
  ordered held (((fun i => Acq (L_partition i) LW_EXCLUSIVE) <$> js) ++ rest).
Proof.
  induction js as [|i js IH]; intros held rest Hs Hh Hr; [done|]. apply StronglySorted_inv in Hs as [Hs Hi].
  cbn. split; [apply Forall_forall; intros x Hx; apply Hh; [left|done]|]. apply IH; [done| |].
  - intros j x Hj [->|Hx]%elem_of_cons; [|apply Hh; [by right|done]]. cbn. rewrite Forall_forall in Hi. by apply Hi.
  - rewrite reverse_cons in Hr. unfold parts in *. rewrite fmap_app, <- app_assoc in Hr. exact Hr.
Qed.

Lemma drop_absent i js : i ∉ js -> drop_lock (L_partition i) (parts js) = parts js.
Proof.
  unfold drop_lock, parts. induction js as [|j js IH]; [done|]. intros [Hne Hni]%not_elem_of_cons.
  rewrite fmap_cons, filter_cons_True by (cbn; congruence). by rewrite IH.
Qed.

Lemma release_ordered js rest :
  NoDup js -> ordered [] rest -> ordered (parts js) (((fun i => Rel (L_partition i)) <$> js) ++ rest).
Proof.
  intros Hnd Hr. induction js as [|i js IH]; [done|]. apply NoDup_cons in Hnd as [Hni Hnd].
  rewrite fmap_cons. cbn [app ordered]. split; [left|].
  assert (drop_lock (L_partition i) (parts (i :: js)) = parts js) as ->; [|by apply IH].
  unfold drop_lock, parts. rewrite fmap_cons, filter_cons_False by (cbn; tauto). by apply drop_absent.
Qed.

Lemma drop_only l m : drop_lock l [(l, m)] = [].
Proof. unfold drop_lock. by rewrite filter_cons_False by (cbn; tauto). Qed.

Lemma under_ordered l m rest : ordered [] rest -> ordered [] (under l m ++ rest).
Proof.
  intros Hr. cbn [under app ordered]. split; [constructor|]. split; [left|]. by rewrite drop_only.
Qed.
Lemma under_ordered_nil l m : ordered [] (under l m).
Proof. rewrite <- (app_nil_r (under l m)). by apply under_ordered. Qed.

Create HintDb lock_order.
#[local] Hint Resolve under_ordered under_ordered_nil ordered_app ordered_flat_map : lock_order.

Section Ordered.
Context `{HashBytes} (lock_partitions : Z).

Lemma on_key_ordered key f : (forall l, ordered [] (f l)) -> ordered [] (on_key lock_partitions key f).
Proof. intros Hf. unfold on_key. by destruct (pg_redis_partition_lock lock_partitions key). Qed.

Lemma full_ordered f : ordered [] (full_acts f).
Proof.
  destruct f as [[|n]|]; [apply under_ordered_nil| |by split]. apply under_ordered. split; [done|apply under_ordered_nil].
Qed.

(** The loop of HDEL holds the lock between its waits. *)
Lemma del_loop_ordered l fulls :
  ordered [(l, LW_EXCLUSIVE)] (flat_map (fun f => [Rel l] ++ full_acts f ++ [Acq l LW_EXCLUSIVE]) fulls ++ [Rel l]).
Proof.
  induction fulls as [|f fulls IH]; [cbn [flat_map app ordered]; split; [left|apply drop_only]|]. cbn [flat_map app ordered]. split; [left|].
  rewrite drop_only, <- !app_assoc. apply ordered_app; [apply full_ordered|]. cbn. split; [constructor|exact IH].
Qed.

Lemma flushall_ordered writes : ordered [] (flushall_acts lock_partitions writes).
Proof.
  unfold flushall_acts, acquire_all_partition_locks, release_all_partition_locks.
  destruct (Z.le_gt_cases 0 lock_partitions) as [Hp|Hp].
  - apply acquire_ordered; [by apply seqZ_sorted|set_solver|]. rewrite app_nil_r. apply release_ordered.
    + rewrite reverse_Permutation. apply NoDup_seqZ.
    + apply under_ordered. by destruct writes.
  - assert (seqZ 0 lock_partitions = []) as -> by (unfold seqZ; by rewrite Z2Nat.nonpos by lia).
    apply under_ordered. by destruct writes.
Qed.

Lemma load_ordered rows : ordered [] (load_acts lock_partitions rows).
Proof. split; [done|]. apply ordered_flat_map. intros key. apply on_key_ordered. eauto with lock_order. Qed.

Lemma op_ordered o : ordered [] (op_acts lock_partitions o).
Proof.
  destruct o; cbn [op_acts]; eauto using flushall_ordered with lock_order.
  - apply on_key_ordered. eauto with lock_order.
  - apply on_key_ordered. eauto with lock_order.
  - apply ordered_flat_map, full_ordered.
  - apply on_key_ordered. eauto using full_ordered with lock_order.
  - apply on_key_ordered. intros l. split; [constructor|apply del_loop_ordered].
  - exact (full_ordered (Full_Drain n)).
  - eauto using load_ordered with lock_order.
  - by split.
Qed.

Lemma backend_ordered os : ordered [] (backend_acts lock_partitions os).
Proof. apply ordered_flat_map, op_ordered. Qed.
End Ordered.

(** ** The invariant *)

Record threads_ok (ts : Threads) : Prop := {
  to_ordered : forall p th, ts !! p = Some th -> ordered (th_held th) (th_todo th);
  to_exclusive : forall p q th th' l m m', p <> q -> ts !! p = Some th -> ts !! q = Some th' ->
    (l, m) ∈ th_held th -> (l, m') ∈ th_held th' -> m = LW_SHARED /\ m' = LW_SHARED
}.

Lemma blocks_spec l m th :
  blocks l m th = true <-> exists m', (l, m') ∈ th_held th /\ compatible m m' = false.
Proof.
  unfold blocks. rewrite existsb_exists. split.
  - intros ([l' m'] & Hin%list_elem_of_In & [<-%bool_decide_eq_true Hc%negb_true_iff]%andb_true_iff). by exists m'.
  - intros (m' & Hin & Hc). exists (l, m'). split; [by apply list_elem_of_In|]. cbn. by rewrite bool_decide_eq_true_2, Hc.
Qed.

(** A thread whose locks are a part of those it held. *)
Lemma replace_ok ts p th th' :
  threads_ok ts -> ts !! p = Some th -> (forall x, x ∈ th_held th' -> x ∈ th_held th) ->
  ordered (th_held th') (th_todo th') -> threads_ok (<[p := th']> ts).
Proof.
  intros [Ho He] Hp Hsub Hord. split.
  - intros q u. destruct (decide (p = q)) as [<-|Hne]; [rewrite lookup_insert_eq; by intros [= <-]|].
    rewrite lookup_insert_ne by done. apply Ho.
  - intros q r u v l m m' Hqr. destruct (decide (p = q)) as [<-|Hpq], (decide (p = r)) as [<-|Hpr]; try done;
      rewrite ?lookup_insert_eq, ?lookup_insert_ne by done; intros Hu Hv Hl Hl'; simplify_eq; eauto.
Qed.

Lemma acquire_ok ts p held todo l m :
  threads_ok ts -> ts !! p = Some {| th_held := held; th_todo := Acq l m :: todo |} -> grantable p l m ts ->
  threads_ok (<[p := {| th_held := (l, m) :: held; th_todo := todo |}]> ts).
Proof.
  intros [Ho He] Hp Hg.
  assert (Hnew : forall q th m', p <> q -> ts !! q = Some th -> (l, m') ∈ th_held th -> m = LW_SHARED /\ m' = LW_SHARED).
  { intros q th m' Hq Hth Hin. specialize (Hg q th (not_eq_sym Hq) Hth).
    destruct (compatible m m') eqn:Ec; [destruct m, m'; done|]. exfalso.
    assert (blocks l m th = true) by (apply blocks_spec; eauto). congruence. }
  split.
  - intros q u. destruct (decide (p = q)) as [<-|Hne]; [|rewrite lookup_insert_ne by done; apply Ho].
    rewrite lookup_insert_eq. intros [= <-]. apply (Ho p _ Hp).
  - intros q r u v l' m1 m2 Hqr. destruct (decide (p = q)) as [<-|Hpq], (decide (p = r)) as [<-|Hpr]; try done;
      rewrite ?lookup_insert_eq, ?lookup_insert_ne by done; intros Hu Hv Hl Hl'; simplify_eq; cbn in *; [| |eauto].
    + apply elem_of_cons in Hl as [[= -> ->]|Hl]; [by eapply Hnew|by eapply (He p r)].
    + apply elem_of_cons in Hl' as [[= -> ->]|Hl']; [|by eapply (He q p)]. apply and_comm. by eapply Hnew.
Qed.

Lemma step_ok ts ts' : threads_ok ts -> lock_step ts ts' \/ lock_abort ts ts' -> threads_ok ts'.
Proof.
  intros Hok Hs. revert Hok.
  destruct Hs as [[u p held todo l m Hp Hg|u p held todo l Hp|u p held todo a Hp Ha]|[u p th Hp]];
    intros Hok; pose proof Hok as [Ho _].
  - by apply acquire_ok.
  - eapply replace_ok; [done|done| |apply (Ho p _ Hp)]. cbn. unfold drop_lock. intros x Hx. by apply list_elem_of_filter in Hx as [_ Hx].
  - eapply replace_ok; [done|done|done|]. specialize (Ho p _ Hp). by destruct Ha as [-> | ->]; apply Ho.
  - eapply replace_ok; [done|done| |done]. intros x Hx. by apply elem_of_nil in Hx.
Qed.

Lemma run_ok ts ts' : lock_run ts ts' -> threads_ok ts -> threads_ok ts'.
Proof. induction 1 as [|ts1 ts2 ts3 _ IH Hs]; intros Hok; [done|]. by eapply step_ok; [apply IH|]. Qed.

(** ** Progress *)

Definition finished (ts : Threads) : Prop := forall p th, ts !! p = Some th -> th_todo th = [].
Definition wants (ts : Threads) (p : nat) (l : Lock) : Prop :=
  exists held m todo, ts !! p = Some {| th_held := held; th_todo := Acq l m :: todo |}.

(** A thread with something to do takes a step, or waits for a lock whose holder
    has something to do at a higher rank. *)
Lemma step_or_wait ts p th :
  threads_ok ts -> ts !! p = Some th -> th_todo th <> [] ->
  (exists ts', lock_step ts ts') \/
  (exists l q th', wants ts p l /\ ts !! q = Some th' /\ th_todo th' <> [] /\ l ∈ (th_held th').*1).
Proof.
  intros Hok Hp Hn. destruct th as [held [|a todo]]; [done|]. destruct a as [l m|l| |].
  - destruct (decide (map_Forall (fun q th => q = p \/ blocks l m th = false) ts)) as [Hg|Hg].
    { left. eexists. eapply step_acq; [done|]. intros q th' Hq Hth'. by destruct (Hg q th' Hth'). }
    right. apply map_not_Forall in Hg as (q & th' & Hth' & Hb); [|solve_decision].
    apply Decidable.not_or in Hb as [_ Hb%not_false_is_true].
    apply blocks_spec in Hb as (m' & Hin & _). exists l, q, th'. split; [by do 3 eexists|]. split; [done|].
    split; [|by apply (list_elem_of_fmap_2 fst _ (l, m'))].
    intros E. pose proof (to_ordered _ Hok q th' Hth') as Ho. rewrite E in Ho. cbn in Ho. rewrite Ho in Hin. by apply elem_of_nil in Hin.
  - left. eexists. by eapply step_rel.
  - left. eexists. eapply step_other; eauto.
  - left. eexists. eapply step_other; eauto.
Qed.

Lemma wanted_above ts p th l l' :
  threads_ok ts -> ts !! p = Some th -> wants ts p l -> l' ∈ (th_held th).*1 -> rank l' < rank l.
Proof.
  intros Hok Hp (held & m & todo & Hp') Hin. rewrite Hp in Hp'. injection Hp' as ->.
  destruct (to_ordered _ Hok p _ Hp) as [Hf _]. cbn in *. apply list_elem_of_fmap in Hin as (x & -> & Hx).
  rewrite Forall_forall in Hf. by apply Hf.
Qed.

(** The wanted ranks are bounded. *)
Lemma wanted_bound (ts : Threads) : exists B, forall p l, wants ts p l -> rank l <= B.
Proof.
  induction ts as [|p th ts Hp IH] using map_ind; [exists 0; intros p l (held & m & todo & E); by rewrite lookup_empty in E|].
  destruct IH as [B HB]. exists (match th_todo th with Acq l _ :: _ => Z.max B (rank l) | _ => B end).
  intros q l (held & m & todo & E). destruct (decide (p = q)) as [<-|Hne].
  - rewrite lookup_insert_eq in E. injection E as ->. cbn. lia.
  - rewrite lookup_insert_ne in E by done. assert (rank l <= B) by (apply (HB q); by do 3 eexists).
    destruct (th_todo th) as [|[] ?]; lia.
Qed.

Lemma no_deadlock ts p th :
  threads_ok ts -> ts !! p = Some th -> th_todo th <> [] -> exists ts', lock_step ts ts'.
Proof.
  intros Hok. destruct (wanted_bound ts) as [B HB].
  assert (Hgo : forall n p th l', ts !! p = Some th -> th_todo th <> [] ->
    (forall l, wants ts p l -> l' < rank l) -> B - l' <= Z.of_nat n -> exists ts', lock_step ts ts').
  { induction n as [|n IH]; intros q u l' Hq Hn Hl Hb;
      destruct (step_or_wait ts q u Hok Hq Hn) as [?|(l & r & v & Hw & Hr & Hv & Hin)]; try done.
    - specialize (HB q l Hw). specialize (Hl l Hw). lia.
    - apply (IH r v (rank l) Hr Hv); [|specialize (Hl l Hw); lia]. intros l2 Hw2. by eapply wanted_above. }
  intros Hp Hn. destruct (step_or_wait ts p th Hok Hp Hn) as [?|(l & r & v & Hw & Hr & Hv & Hin)]; [done|].
  apply (Hgo (Z.to_nat (B - rank l)) r v (rank l) Hr Hv); [|specialize (HB p l Hw); lia]. intros l2 Hw2. by eapply wanted_above.
Qed.

(** What is left to do, over all threads. *)
Definition add_todo (_ : nat) (th : Thread) (n : nat) : nat := (length (th_todo th) + n)%nat.
Definition total (ts : Threads) : nat := map_fold add_todo 0%nat ts.

Lemma total_insert ts p th : ts !! p = None -> total (<[p := th]> ts) = (length (th_todo th) + total ts)%nat.
Proof. intros Hp. unfold total. rewrite (map_fold_insert_L add_todo) by (try done; unfold add_todo; lia). done. Qed.

Lemma total_replace ts p th th' :
  ts !! p = Some th -> (length (th_todo th') < length (th_todo th))%nat -> (total (<[p := th']> ts) < total ts)%nat.
Proof.
  intros Hp Hlt. rewrite <- (insert_delete_eq ts p th'), total_insert by apply lookup_delete_eq.
  rewrite <- (insert_id ts p th) at 2 by done. rewrite <- (insert_delete_eq ts p th), total_insert by apply lookup_delete_eq. lia.
Qed.

Lemma step_total ts ts' : lock_step ts ts' -> (total ts' < total ts)%nat.
Proof. intros []; eapply total_replace; try done; cbn; lia. Qed.

Lemma runs_to_end n : forall ts, (total ts <= n)%nat -> threads_ok ts ->
  exists ts', rtc lock_step ts ts' /\ finished ts'.
Proof.
  assert (Hdec : forall ts : Threads, finished ts \/ exists p th, ts !! p = Some th /\ th_todo th <> []).
  { intros ts. destruct (decide (map_Forall (fun _ th => length (th_todo th) = 0%nat) ts)) as [Hf|Hf].
    - left. intros p th Hp. by apply nil_length_inv, (Hf p th).
    - right. apply map_not_Forall in Hf as (p & th & Hp & Hn); [|solve_decision]. exists p, th. split; [done|]. intros E. by rewrite E in Hn. }
  induction n as [|n IH]; intros ts Hn Hok; (destruct (Hdec ts) as [Hf|(p & th & Hp & Ht)]; [by exists ts|]);
    destruct (no_deadlock ts p th Hok Hp Ht) as [ts1 Hs]; pose proof (step_total _ _ Hs); [lia|].
  destruct (IH ts1) as (ts' & Hr & Hf); [lia|eapply step_ok; eauto|]. exists ts'. split; [by eapply rtc_l|done].
Qed.

(** ** The theorem *)

(** Backends with the operations each will perform. *)
Definition lock_start `{HashBytes} (lock_partitions : Z) (backends : gmap nat (list LockOp)) : Threads :=
  (fun os => {| th_held := []; th_todo := backend_acts lock_partitions os |}) <$> backends.

Lemma start_ok `{HashBytes} lock_partitions backends : threads_ok (lock_start lock_partitions backends).
Proof.
  unfold lock_start. split.
  - intros p th Hp. rewrite lookup_fmap_Some in Hp. destruct Hp as (os & <- & _). apply backend_ordered.
  - intros p q th th' l m m' _ Hp. rewrite lookup_fmap_Some in Hp. destruct Hp as (os & <- & _). intros _ Hin. by apply elem_of_nil in Hin.
Qed.

(** C9: The locks neither deadlock nor cover an SPI call.  For any number of
    backends, each performing any sequence of operations on any keys, any number
    of partitions and any hash function, in every state an interleaving with
    errors and exits can reach: no two backends hold a lock in conflicting modes;
    a backend at an SPI call or a pause holds no lock; while one has something
    left to do, some backend can take a step; and the backends can all run to
    their end, without an error of any of them. *)
Theorem locks_never_deadlock `{HashBytes} (lock_partitions : Z) (backends : gmap nat (list LockOp)) (ts : Threads) :
  lock_run (lock_start lock_partitions backends) ts ->
  (forall p q th th' l m m', p <> q -> ts !! p = Some th -> ts !! q = Some th' ->
     (l, m) ∈ th_held th -> (l, m') ∈ th_held th' -> m = LW_SHARED /\ m' = LW_SHARED) /\
  (forall p held a todo, ts !! p = Some {| th_held := held; th_todo := a :: todo |} -> a = Spi \/ a = Sleep ->
     pg_redis_assert_no_pg_redis_lwlock_held held = true) /\
  (forall p th, ts !! p = Some th -> th_todo th <> [] -> exists ts', lock_step ts ts') /\
  (exists ts', rtc lock_step ts ts' /\ finished ts').
Proof.
  intros Hr. assert (Hok : threads_ok ts) by (eapply run_ok; [done|apply start_ok]).
  split; [apply (to_exclusive _ Hok)|]. split; [|split].
  - intros p held a todo Hp Ha. pose proof (to_ordered _ Hok p _ Hp) as Ho. by destruct Ha as [-> | ->]; apply Ho.
  - intros p th. by apply no_deadlock.
  - by apply (runs_to_end (total ts)).
Qed.

(** ** Witness *)

Definition demo_backends : gmap nat (list LockOp) :=
  {[ 1%nat := [O_attach; O_hset (bs "h") [Full_Drain 3; Full_Drain 0]; O_lookup (bs "h")];
     2%nat := [O_attach; O_load [bs "a"; bs "b"] [] [bs "l"]; O_flushall true];
     3%nat := [O_hdel (bs "h") [Full_Sleep]; O_drain 2; O_reclaim] ]}.

Lemma locks_never_deadlock_witness :
  exists ts', rtc lock_step (@lock_start (fun b => blen b) 4 demo_backends) ts' /\ finished ts'.
Proof.
  destruct (@locks_never_deadlock (fun b => blen b) 4 demo_backends (@lock_start (fun b => blen b) 4 demo_backends))
    as (_ & _ & _ & Hend); [apply lrun_refl|exact Hend].
Defined.
