(* ===== verification/WorkerLoop.v ===== *)
(** * Signals and the latch of the worker (src/bgworker.c)

    The main function of the worker as a machine: connect, attach, publish the
    latch, the loop with its tests of the signal flags and its wait on the latch,
    the final drain.  Signal handlers and producers act between any two steps.
    What a turn does to ring and tables is in Bgworker.v; here the question is
    when the worker sleeps. *)
From S2P Require Import Prelude Types Attach.

Inductive LoopState :=
| W_Connect               (* BackgroundWorkerInitializeConnection *)
| W_Attach                (* pg_redis_shmem_attach_dsa *)
| W_PublishLatch          (* pg_redis_shmem_set_bgw_latch(MyLatch) *)
| W_Test                  (* while (!got_sigterm) *)
| W_Reset                 (* ResetLatch(MyLatch) *)
| W_Hup                   (* if (got_sighup) *)
| W_Jobs                  (* pg_redis_jobs_run_due *)
| W_Drain                 (* the test of the ring and the drain *)
| W_Reclaim               (* the reclaim pass *)
| W_Wait                  (* WaitLatch *)
| W_Final                 (* the final drain *)
| W_Unpublish             (* pg_redis_shmem_set_bgw_latch(NULL) *)
| W_Exit (code : Z).      (* proc_exit *)

#[export] Instance loop_state_eq_dec : EqDecision LoopState.
Proof. solve_decision. Defined.

(** [lp_unseen]: a producer has woken the worker, and the worker has not looked at
    the ring since.  [lp_reloads] counts the configuration files read,
    [lp_drained] whether the final drain was done. *)
Record Loop := {
  lp_pc : LoopState;
  MyLatch : bool;
  got_sigterm : bool;
  got_sighup : bool;
  lp_published : bool;
  lp_unseen : bool;
  lp_reloads : nat;
  lp_drained : bool
}.

Definition loop_start : Loop :=
  {| lp_pc := W_Connect; MyLatch := false; got_sigterm := false; got_sighup := false;
     lp_published := false; lp_unseen := false; lp_reloads := 0; lp_drained := false |}.

(** The database to connect to. *)
Definition bgworker_dbname (bgworker_database : option bytes) : bytes :=
  match bgworker_database with Some (c :: s) => c :: s | _ => bs "postgres" end.

Definition goto (pc : LoopState) (s : Loop) : Loop :=
  {| lp_pc := pc; MyLatch := MyLatch s; got_sigterm := got_sigterm s; got_sighup := got_sighup s;
     lp_published := lp_published s; lp_unseen := lp_unseen s; lp_reloads := lp_reloads s; lp_drained := lp_drained s |}.
Definition set_latch (b : bool) (s : Loop) : Loop :=
  {| lp_pc := lp_pc s; MyLatch := b; got_sigterm := got_sigterm s; got_sighup := got_sighup s;
     lp_published := lp_published s; lp_unseen := lp_unseen s; lp_reloads := lp_reloads s; lp_drained := lp_drained s |}.
Definition set_published (b : bool) (s : Loop) : Loop :=
  {| lp_pc := lp_pc s; MyLatch := MyLatch s; got_sigterm := got_sigterm s; got_sighup := got_sighup s;
     lp_published := b; lp_unseen := lp_unseen s; lp_reloads := lp_reloads s; lp_drained := lp_drained s |}.
Definition set_unseen (b : bool) (s : Loop) : Loop :=
  {| lp_pc := lp_pc s; MyLatch := MyLatch s; got_sigterm := got_sigterm s; got_sighup := got_sighup s;
     lp_published := lp_published s; lp_unseen := b; lp_reloads := lp_reloads s; lp_drained := lp_drained s |}.
Definition reload (s : Loop) : Loop :=
  {| lp_pc := lp_pc s; MyLatch := MyLatch s; got_sigterm := got_sigterm s; got_sighup := false;
     lp_published := lp_published s; lp_unseen := lp_unseen s; lp_reloads := S (lp_reloads s); lp_drained := lp_drained s |}.
Definition set_drained (s : Loop) : Loop :=
  {| lp_pc := lp_pc s; MyLatch := MyLatch s; got_sigterm := got_sigterm s; got_sighup := got_sighup s;
     lp_published := lp_published s; lp_unseen := false; lp_reloads := lp_reloads s; lp_drained := true |}.

(** What ends the wait of a step that waits, and whether the connection, the
    segment or the postmaster is there. *)
Record Outside := { o_timeout : bool; o_available : bool }.

(** One step of the worker; [None] while it sleeps. *)
Definition loop_step (o : Outside) (s : Loop) : option Loop :=
  match lp_pc s with
  | W_Connect => Some (goto (if o_available o then W_Attach else W_Exit 1) s)      (* FATAL *)
  | W_Attach => Some (goto (if o_available o then W_PublishLatch else W_Exit 1) s)
  | W_PublishLatch => Some (goto W_Test (set_published true s))
  | W_Test => Some (goto (if got_sigterm s then W_Final else W_Reset) s)
  | W_Reset => Some (goto W_Hup (set_latch false s))
  | W_Hup => Some (goto W_Jobs (if got_sighup s then reload s else s))
  | W_Jobs => Some (goto W_Drain s)
  | W_Drain => Some (goto W_Reclaim (set_unseen false s))
  | W_Reclaim => Some (goto W_Wait s)
  | W_Wait =>
      if negb (o_available o) then Some (goto (W_Exit 1) s)                        (* WL_POSTMASTER_DEATH *)
      else if MyLatch s || o_timeout o then Some (goto W_Test s) else None
  | W_Final => Some (goto W_Unpublish (set_drained s))
  | W_Unpublish => Some (goto (W_Exit 0) (set_published false s))
  | W_Exit _ => None
  end.

(** [pg_redis_bgworker_sigterm], [pg_redis_bgworker_sighup], and
    [pg_redis_shmem_wake_bgw] of a producer. *)
Inductive Signal := Sigterm | Sighup | Wake.
Definition signal (x : Signal) (s : Loop) : Loop :=
  match x with
  | Sigterm => {| lp_pc := lp_pc s; MyLatch := true; got_sigterm := true; got_sighup := got_sighup s;
                  lp_published := lp_published s; lp_unseen := lp_unseen s; lp_reloads := lp_reloads s; lp_drained := lp_drained s |}
  | Sighup => {| lp_pc := lp_pc s; MyLatch := true; got_sigterm := got_sigterm s; got_sighup := true;
                 lp_published := lp_published s; lp_unseen := lp_unseen s; lp_reloads := lp_reloads s; lp_drained := lp_drained s |}
  | Wake => if lp_published s then set_latch true (set_unseen true s) else s
  end.

Inductive loop_runs : Loop -> Loop -> Prop :=
| loop_refl s : loop_runs s s
| loop_own s1 s2 s3 o : loop_runs s1 s2 -> loop_step o s2 = Some s3 -> loop_runs s1 s3
| loop_signal s1 s2 x : loop_runs s1 s2 -> loop_runs s1 (signal x s2).

(** ** Sleeping *)

(** The points at which the flag has been looked at since the latch was reset. *)
Definition past_hup (pc : LoopState) : bool :=
  match pc with W_Jobs | W_Drain | W_Reclaim | W_Wait => true | _ => false end.
Definition past_look (pc : LoopState) : bool :=
  match pc with W_Reclaim | W_Wait => true | _ => false end.
Definition in_loop (pc : LoopState) : bool :=
  match pc with W_Test | W_Reset | W_Hup | W_Jobs | W_Drain | W_Reclaim | W_Wait => true | _ => false end.

Record loop_inv (s : Loop) : Prop := {
  li_hup : past_hup (lp_pc s) = true -> got_sighup s = true -> MyLatch s = true;
  li_wake : past_look (lp_pc s) = true -> lp_unseen s = true -> MyLatch s = true;
  li_published : in_loop (lp_pc s) = true -> lp_published s = true;
  li_final : lp_pc s = W_Exit 0 \/ lp_pc s = W_Unpublish -> lp_drained s = true;
  li_exit : lp_pc s = W_Exit 0 -> lp_published s = false /\ got_sigterm s = true;
  li_term : lp_pc s = W_Final \/ lp_pc s = W_Unpublish -> got_sigterm s = true
}.

Lemma own_inv o s s' : loop_inv s -> loop_step o s = Some s' -> loop_inv s'.
Proof.
  intros [H1 H2 H3 H4 H5 H6] E. unfold loop_step in E.
  destruct s as [pc la st sh pu un re dr]. cbn in *.
  destruct pc; cbn in E; repeat case_match; simplify_eq; split; cbn in *; intuition congruence.
Qed.

Lemma signal_inv x s : loop_inv s -> loop_inv (signal x s).
Proof.
  intros [H1 H2 H3 H4 H5 H6]. destruct x; cbn; [split; cbn; naive_solver..|].
  destruct (lp_published s) eqn:Ep; [|split; naive_solver].
  split; cbn; naive_solver.
Qed.

Lemma loop_runs_inv s s' : loop_runs s s' -> loop_inv s -> loop_inv s'.
Proof.
  induction 1 as [|s1 s2 s3 o _ IH E|s1 s2 x _ IH]; intros Hi; [done|by eapply own_inv; [apply IH|]|by apply signal_inv, IH].
Qed.

Lemma start_loop_inv : loop_inv loop_start.
Proof. split; cbn; naive_solver. Qed.

(** ** Theorems *)

(** The postmaster lives; the wait is ended by the latch alone. *)
Definition no_timeout : Outside := {| o_timeout := false; o_available := true |}.
Definition timeout : Outside := {| o_timeout := true; o_available := true |}.

(** C22: The worker does not sleep through a wake-up or a reload.  In every state
    signals and steps can lead to: while the worker is in its loop its latch is
    published, so producers reach it; if a producer has woken it since it last
    looked at the ring, or a SIGHUP is pending, the wait returns at once; and it
    exits with status 0 only after a SIGTERM and the final drain, with its latch
    withdrawn. *)
Theorem wakeups_not_lost (s : Loop) :
  loop_runs loop_start s ->
  (in_loop (lp_pc s) = true -> lp_published s = true) /\
  (lp_pc s = W_Wait -> lp_unseen s = true \/ got_sighup s = true -> loop_step no_timeout s = Some (goto W_Test s)) /\
  (lp_pc s = W_Exit 0 -> got_sigterm s = true /\ lp_drained s = true /\ lp_published s = false).
Proof.
  intros Hr. destruct (loop_runs_inv _ _ Hr start_loop_inv) as [H1 H2 H3 H4 H5 H6].
  split; [done|]. split; [|intros E; destruct (H5 E); auto].
  intros Ep Hx. unfold loop_step. rewrite Ep in *. cbn in *. by destruct Hx as [Hx|Hx]; rewrite ?H1, ?H2 by done.
Qed.

Fixpoint own_steps (n : nat) (o : Outside) (s : Loop) : option Loop :=
  match n with O => Some s | S n' => s' ← loop_step o s; own_steps n' o s' end.

Lemma own_steps_runs n o s0 s s' : own_steps n o s = Some s' -> loop_runs s0 s -> loop_runs s0 s'.
Proof.
  revert s. induction n as [|n IH]; intros s E Hr; [by injection E as <-|]. cbn in E.
  destruct (loop_step o s) as [s1|] eqn:E1; [|done]. eapply IH; [done|]. by eapply loop_own.
Qed.

(** Own steps to the exit once SIGTERM has come. *)
Definition exit_distance (pc : LoopState) : nat :=
  match pc with
  | W_Connect => 6 | W_Attach => 5 | W_PublishLatch => 4
  | W_Test => 3 | W_Reset => 9 | W_Hup => 8 | W_Jobs => 7 | W_Drain => 6 | W_Reclaim => 5 | W_Wait => 4
  | W_Final => 2 | W_Unpublish => 1 | W_Exit _ => 0
  end.

Lemma towards_exit s :
  got_sigterm s = true -> (forall c, lp_pc s <> W_Exit c) ->
  exists s', loop_step timeout s = Some s' /\ got_sigterm s' = true /\ exit_distance (lp_pc s) = S (exit_distance (lp_pc s')) /\
    (forall c, lp_pc s' = W_Exit c -> c = 0).
Proof.
  intros Ht Hn. unfold loop_step. destruct s as [pc la st sh pu un re dr]. cbn in *. subst st.
  destruct pc; cbn; try (by destruct (Hn code)); rewrite ?orb_true_r; eexists; (split; [reflexivity|]);
    try destruct sh; cbn; split_and!; try done; by intros c [= <-].
Qed.

Lemma exits_after n : forall s, got_sigterm s = true -> (forall c, lp_pc s = W_Exit c -> c = 0) -> exit_distance (lp_pc s) = n ->
  exists s', own_steps n timeout s = Some s' /\ lp_pc s' = W_Exit 0.
Proof.
  induction n as [|n IH]; intros s Ht H0 Hd.
  - exists s. split; [done|]. destruct (lp_pc s); try done. by rewrite (H0 code).
  - destruct (towards_exit s Ht) as (s1 & E & Ht1 & Hd1 & H1); [intros c Ec; by rewrite Ec in Hd|].
    destruct (IH s1 Ht1 H1) as (s' & E' & Hs'); [congruence|]. exists s'. cbn. by rewrite E.
Qed.

(** C33: SIGTERM stops the worker within one more turn.  From any reachable state
    with SIGTERM received that is not an exit already, the worker does the final
    drain and exits with status 0 within nine steps, one of which is a wait that
    may have to time out.  It may have to: a SIGTERM that comes between the test of
    the flag and the reset of the latch is not noticed by the wait, which then
    sleeps the whole flush interval. *)
Theorem sigterm_stops :
  (forall s, loop_runs loop_start s -> got_sigterm s = true -> (forall c, lp_pc s <> W_Exit c) ->
     exists n s', (n <= 9)%nat /\ own_steps n timeout s = Some s' /\ lp_pc s' = W_Exit 0 /\ lp_drained s' = true) /\
  (exists s, loop_runs loop_start s /\ got_sigterm s = true /\ lp_pc s = W_Wait /\ loop_step no_timeout s = None).
Proof.
  split.
  - intros s Hr Ht Hn. destruct (exits_after _ s Ht ltac:(naive_solver) eq_refl) as (s' & E & Hs').
    exists (exit_distance (lp_pc s)), s'. split; [destruct (lp_pc s); cbn; lia|]. split; [done|]. split; [done|].
    assert (Hr' : loop_runs loop_start s') by (by eapply own_steps_runs).
    apply (li_final _ (loop_runs_inv _ _ Hr' start_loop_inv)). by left.
  - destruct (own_steps 4 no_timeout loop_start) as [s1|] eqn:E1; [|done].
    destruct (own_steps 5 no_timeout (signal Sigterm s1)) as [s2|] eqn:E2; [|by injection E1 as <-].
    exists s2. split; [|by injection E1 as <-; injection E2 as <-].
    eapply own_steps_runs; [done|]. apply loop_signal. eapply own_steps_runs; [done|apply loop_refl].
Qed.

(** A wake-up after the worker has looked at the ring. *)
Definition at_reclaim : Loop :=
  {| lp_pc := W_Reclaim; MyLatch := false; got_sigterm := false; got_sighup := false; lp_published := true;
     lp_unseen := false; lp_reloads := 0; lp_drained := false |}.
Definition woken : Loop := goto W_Wait (signal Wake at_reclaim).

Lemma woken_runs : loop_runs loop_start woken.
Proof.
  apply (loop_own _ (signal Wake at_reclaim) _ no_timeout); [|reflexivity]. apply loop_signal.
  exact (own_steps_runs 8 no_timeout loop_start loop_start at_reclaim eq_refl (loop_refl _)).
Qed.

Lemma wakeups_not_lost_witness : loop_step no_timeout woken = Some (goto W_Test woken).
Proof. apply (wakeups_not_lost woken woken_runs); [reflexivity|]. left. reflexivity. Defined.
