(* ===== verification/Snapshot.v ===== *)
(** * JSON snapshots (src/persistence.c pg_redis_persistence_save_snapshot)

    The text of a snapshot and the row it is stored in.  [escape_json] and
    [timestamptz_out] are PostgreSQL's: parameters.  [SAVE] and the job
    snapshot_save run this on the keyspace of their own process. *)
From S2P Require Import Prelude Types Utils ListValue HashValue StoreInterface KvStore Db Persistence Maintenance Jobs.

Class JsonText := { escape_json : bytes -> bytes; timestamptz_out : Z -> bytes }.

(** [pgredis.snapshots]: key_count and payload. *)
Abbreviation Snapshots := (list (Z * bytes)).

Section Snapshot.
Context `{JsonText} (clock : nat -> Z).

Definition quoted (s : bytes) : bytes := [Byte.x22] ++ s ++ [Byte.x22].

(** [if (!first) append ','; append item; first = false], over the items. *)
Fixpoint append_items (first : bool) (items : list bytes) (out : bytes) : bytes :=
  match items with
  | [] => out
  | x :: items' => append_items false items' ((if first then out else out ++ bs ",") ++ x)
  end.

Definition serialize_entry_value_json (v : PgRedisValue) (out : bytes) : bytes :=
  match v with
  | VString s =>
      out ++ bs "{" ++ quoted (bs "value") ++ bs ":" ++
      match s with None => quoted [] | Some t => escape_json t end ++ bs "}"
  | VInt i => out ++ bs "{" ++ quoted (bs "value") ++ bs ":" ++ pg_redis_format_int64 i ++ bs "}"
  | VHash h =>
      append_items true
        ((fun p => escape_json p.1 ++ bs ":" ++ escape_json (f_value p.2)) <$> from_option (fun h => map_to_list (h_fields h)) [] h)
        (out ++ bs "{" ++ quoted (bs "fields") ++ bs ":{") ++ bs "}}"
  | VList l =>
      append_items true ((fun n => escape_json (n_value n)) <$> from_option l_nodes [] l)
        (out ++ bs "{" ++ quoted (bs "items") ++ bs ":[") ++ bs "]}"
  end.

(** One element of the array, without its comma. *)
Definition snapshot_entry (k : bytes) (e : PgRedisEntry) (out : bytes) : bytes :=
  let out := out ++ bs "{" ++ quoted (bs "key") ++ bs ":" ++ escape_json k ++
             bs "," ++ quoted (bs "type") ++ bs ":" ++ escape_json (pg_redis_type_name (e_type e)) ++
             bs "," ++ quoted (bs "value") ++ bs ":" in
  let out := serialize_entry_value_json (e_value e) out in
  let out := if e_has_expire e
             then out ++ bs "," ++ quoted (bs "expire_at") ++ bs ":" ++ escape_json (timestamptz_out (e_expire_at e))
             else out in
  out ++ bs "}".

Fixpoint snapshot_scan (es : list (bytes * PgRedisEntry)) (first : bool) (count : Z) (out : bytes) : M Backend (Z * bytes) :=
  match es with
  | [] => mret (count, out)
  | (k, e) :: es' =>
      x ← session_is_expired clock e;
      if x : bool then snapshot_scan es' first count out
      else snapshot_scan es' false (count + 1) (snapshot_entry k e (if first then out else out ++ bs ","))
  end.

Definition pg_redis_persistence_save_snapshot : M (Backend * Snapshots) unit := fun s =>
  let es := map_to_list (htab (kv s.1)) in
  match snapshot_scan es true 0 (bs "[") s.1 with
  | (Ret (count, out), b) => (Ret tt, (b, s.2 ++ [(count, out ++ bs "]")]))
  | (Raise e, b) => (Raise e, (b, s.2))
  end.

(** ** What is in a snapshot *)

(** Items with a separator between them. *)
Fixpoint separated (items : list bytes) : bytes :=
  match items with
  | [] => []
  | [x] => x
  | x :: items' => x ++ bs "," ++ separated items'
  end.

Lemma append_rest items : forall out, append_items false items out = out ++ flat_map (fun x => bs "," ++ x) items.
Proof.
  induction items as [|x items IH]; intros out; cbn [append_items flat_map]; [by rewrite app_nil_r|].
  by rewrite IH, <- !app_assoc.
Qed.

Lemma separated_cons x items : separated (x :: items) = x ++ flat_map (fun x => bs "," ++ x) items.
Proof.
  revert x. induction items as [|y items IH]; intros x; [by rewrite app_nil_r|].
  change (separated (x :: y :: items)) with (x ++ bs "," ++ separated (y :: items)). rewrite IH. cbn [flat_map].
  by rewrite <- !app_assoc.
Qed.

Lemma append_separated items out : append_items true items out = out ++ separated items.
Proof.
  destruct items as [|x items]; cbn [append_items]; [by rewrite app_nil_r|].
  by rewrite append_rest, separated_cons, <- app_assoc.
Qed.

(** The text of an entry does not depend on what is in the buffer. *)
Lemma serialize_out v out : serialize_entry_value_json v out = out ++ serialize_entry_value_json v [].
Proof.
  destruct v as [s|i|h|l]; cbn [serialize_entry_value_json]; rewrite ?append_separated, ?app_nil_l, <- ?app_assoc; done.
Qed.
Lemma snapshot_entry_out k e out : snapshot_entry k e out = out ++ snapshot_entry k e [].
Proof.
  unfold snapshot_entry. cbn [app]. rewrite serialize_out, (serialize_out _ (bs "{" ++ _)).
  destruct (e_has_expire e); by rewrite <- !app_assoc.
Qed.

(** An entry is left out when a reading of the clock, from [n] on, finds it
    expired, and kept when one finds it alive. *)
Definition seen_live (n : nat) (e : PgRedisEntry) : Prop :=
  exists i, (n <= i)%nat /\ pg_redis_entry_is_expired (clock i) e = false.
Definition seen_expired (n : nat) (e : PgRedisEntry) : Prop :=
  exists i, (n <= i)%nat /\ pg_redis_entry_is_expired (clock i) e = true.

Record kept (n : nat) (es live : list (bytes * PgRedisEntry)) : Prop := {
  kp_in : live `sublist_of` es;
  kp_live : forall p, p ∈ live -> seen_live n p.2;
  kp_out : forall p, p ∈ es -> p ∈ live \/ seen_expired n p.2
}.

Lemma kept_later n m es live : (n <= m)%nat -> kept m es live -> kept n es live.
Proof.
  intros Hle [H1 H2 H3]. split; [done| |].
  - intros p Hp. destruct (H2 p Hp) as (i & ? & ?). exists i. split; [lia|done].
  - intros p Hp. destruct (H3 p Hp) as [?|(i & ? & ?)]; [by left|right]. exists i. split; [lia|done].
Qed.

(** Only the count of readings changes. *)
Definition same_store (b b' : Backend) : Prop := kv b' = kv b /\ db b' = db b.

Lemma is_expired_reading e b :
  exists x b', session_is_expired clock e b = (Ret x, b') /\ same_store b b' /\ (readings b <= readings b')%nat /\
    x = pg_redis_entry_is_expired (clock (readings b)) e.
Proof.
  unfold session_is_expired, pg_redis_entry_is_expired. destruct (e_has_expire e); cbn [negb].
  - do 2 eexists. split; [done|]. split; [done|]. cbn. split; [lia|done].
  - do 2 eexists. split; [done|]. split; [done|]. split; [lia|done].
Qed.

Lemma snapshot_scan_spec es : forall first count out b,
  exists live b', snapshot_scan es first count out b =
      (Ret (count + Z.of_nat (length live),
            append_items first ((fun p => snapshot_entry p.1 p.2 []) <$> live) out), b') /\
    same_store b b' /\ kept (readings b) es live.
Proof.
  induction es as [|[k e] es IH]; intros first count out b; cbn [snapshot_scan].
  { exists [], b. cbn. rewrite Z.add_0_r. split; [done|]. split; [done|]. split; [done|set_solver|set_solver]. }
  destruct (is_expired_reading e b) as (x & b1 & E & Hs & Hr & Hx). rewrite (bind_Ret _ _ _ _ _ E). destruct x.
  - destruct (IH first count out b1) as (live & b' & -> & Hs' & Hk). exists live, b'. split; [done|].
    split; [by destruct Hs, Hs'; split; congruence|]. apply (kept_later _ _ _ _ Hr) in Hk as [H1 H2 H3].
    split; [by constructor|done|]. intros p [->|Hp]%elem_of_cons; [right; exists (readings b); cbn; by rewrite <- Hx|eauto].
  - destruct (IH false (count + 1) (snapshot_entry k e (if first then out else out ++ bs ",")) b1) as (live & b' & -> & Hs' & Hk).
    exists ((k, e) :: live), b'. cbn [length fmap list_fmap append_items fst snd].
    rewrite (snapshot_entry_out k e (if first then out else out ++ bs ",")). split; [do 3 f_equal; lia|].
    split; [by destruct Hs, Hs'; split; congruence|]. apply (kept_later _ _ _ _ Hr) in Hk as [H1 H2 H3].
    split; [by constructor| |].
    + intros p [->|Hp]%elem_of_cons; [exists (readings b); cbn; by rewrite <- Hx|by apply H2].
    + intros p [->|Hp]%elem_of_cons; [left; set_solver|]. destruct (H3 p Hp); [left; set_solver|by right].
Qed.

(** A snapshot holds the live keys, each once, and their number.  On any
    keyspace, saving a snapshot adds one row: its payload is a JSON array with
    one element per key that the scan found alive, in scan order, and its
    key_count is their number; a key is missing only if a reading of the clock
    found it expired.  Keyspace and tables stay as they were. *)
Theorem snapshot_exact (b : Backend) (rows : Snapshots) :
  exists live b', pg_redis_persistence_save_snapshot (b, rows) =
      (Ret tt, (b', rows ++ [(Z.of_nat (length live),
                              bs "[" ++ separated ((fun p => snapshot_entry p.1 p.2 []) <$> live) ++ bs "]")])) /\
    same_store b b' /\ NoDup live.*1 /\ kept (readings b) (map_to_list (htab (kv b))) live.
Proof.
  unfold pg_redis_persistence_save_snapshot. cbn [fst snd].
  destruct (snapshot_scan_spec (map_to_list (htab (kv b))) true 0 (bs "[") b) as (live & b' & -> & Hs & Hk).
  exists live, b'. rewrite append_separated, <- app_assoc. split; [done|]. split; [done|]. split; [|done].
  eapply sublist_NoDup; [apply (NoDup_fst_map_to_list (htab (kv b)))|by apply fmap_sublist, (kp_in _ _ _ Hk)].
Qed.
End Snapshot.

(** ** The jobs of a process *)

(** The three handlers on the keyspace of the process that runs the job. *)
Definition process_handlers `{JsonText} (cfg : Config) (clock : nat -> Z) (message : errcode -> bytes)
    : Handlers (Backend * Snapshots) :=
  let on_backend {A} (m : M Backend A) : M (Backend * Snapshots) unit := fun s =>
    let '(r, b) := m s.1 in
    (match r with Ret _ => Ret tt | Raise e => Raise e end, (b, s.2)) in
  {| h_ttl_sweep := on_backend (pg_redis_ttl_sweep clock);
     h_save_snapshot := pg_redis_persistence_save_snapshot clock;
     h_flush_dirty_batch n := on_backend (pg_redis_persistence_flush_dirty_batch cfg n);
     h_message := message;
     h_rollback before after := (set_db (db before.1) after.1, before.2) |}.

(** A scheduled snapshot of the background worker is empty.  The worker never
    loads the tables into its own keyspace, so whatever the tables hold, a run of
    the job snapshot_save there stores a snapshot with no key and succeeds. *)
Theorem worker_snapshot_is_empty `{JsonText} (cfg : Config) (clock : nat -> Z) (message : errcode -> bytes)
    (b : Backend) (rows : Snapshots) :
  kv b = kv_empty ->
  run_handler (process_handlers cfg clock message) (Some (bs "snapshot_save")) (b, rows) =
    (true, None, (b, rows ++ [(0, bs "[]")])).
Proof.
  intros Hb. unfold run_handler, dispatch_job. rewrite decide_False, decide_True by done.
  cbn [process_handlers h_save_snapshot]. rewrite bind_unfold. unfold pg_redis_persistence_save_snapshot. cbn [fst snd].
  rewrite Hb. cbn [kv_empty htab]. rewrite map_to_list_empty. done.
Qed.

(** A worker beside tables that hold a key. *)
Definition demo_process : Backend :=
  {| kv := kv_empty; persistence_loaded := false;
     db := {| store := {[ bs "k" := {| sr_type := bs "string"; sr_value := Some (bs "v"); sr_expire_at := None; sr_version := 1 |} ]};
              hash_fields := ∅; list_items := ∅ |};
     db_committed := db_empty; xact_now := 0; readings := 0 |}.

Lemma worker_snapshot_is_empty_witness :
  run_handler (@process_handlers {| escape_json := id; timestamptz_out _ := [] |} default_config (fun _ => 0) (fun _ => []))
    (Some (bs "snapshot_save")) (demo_process, []) = (true, None, (demo_process, [(0, bs "[]")])).
Proof.
  exact (@worker_snapshot_is_empty {| escape_json := id; timestamptz_out _ := [] |} default_config (fun _ => 0)
    (fun _ => []) demo_process [] eq_refl).
Defined.
