(* ===== verification/Admin.v ===== *)
(** * Administration: MEMORY_USAGE, INFO, STATS, SAVE, BGSAVE, RUN_JOB, diagnostics (src/pg_redis.c)

    The functions that report on the keyspace of a process, store a snapshot or
    schedule one, run a job by hand, and show the ring and the load state. *)
From S2P Require Import Prelude Types Utils StoreInterface KvStore Db Persistence Maintenance DirtyEvent DirtyRing ColdStart Jobs Snapshot.

(** The backend with the tables of snapshots and jobs; [jobs_job_id_seq] is the
    next id. *)
Record Server (Interval : Type) := {
  sv_backend : Backend;
  sv_snapshots : Snapshots;
  sv_jobs : JobTables Interval;
  sv_job_seq : Z
}.
Arguments sv_backend {Interval}.
Arguments sv_snapshots {Interval}.
Arguments sv_jobs {Interval}.
Arguments sv_job_seq {Interval}.

Section Admin.
Context `{JsonText} `{IntervalArith Interval} (one_hour : Interval).
Context (cfg : Config) (enable_bgworker : bool) (clock : nat -> Z) (message : errcode -> bytes).

Definition on_process {A} (m : M (Backend * Snapshots) A) : M (Server Interval) A := fun s =>
  let '(r, (b, snaps)) := m (sv_backend s, sv_snapshots s) in
  (r, {| sv_backend := b; sv_snapshots := snaps; sv_jobs := sv_jobs s; sv_job_seq := sv_job_seq s |}).
Definition on_session {A} (m : M Backend A) : M (Server Interval) A :=
  on_process (fun s => let '(r, b) := m s.1 in (r, (b, s.2))).

(** In session storage: the store and the callback are set up, the tables are
    loaded at the first use. *)
Definition ensure_loaded : M (Server Interval) unit :=
  on_session (pg_redis_persistence_load_if_needed cfg clock).

Definition pg_redis_memory_usage : M (Server Interval) Z :=
  ensure_loaded ;; gets (fun s => pg_redis_store_memory_usage (kv (sv_backend s))).

Definition line (name : string) (v : bytes) : bytes := bs name ++ bs ":" ++ v ++ [Byte.x0a].

Definition info_text (st : PgRedisStoreStats) : bytes :=
  bs "# pg_redis" ++ [Byte.x0a] ++
  line "version" (bs "1.0") ++
  line "storage_mode" (default (bs "session") (pg_redis_storage_mode cfg)) ++
  line "persistence_mode" (default (bs "sync_table") (pg_redis_persistence_mode cfg)) ++
  line "background_worker_enabled" (bs (if enable_bgworker then "yes" else "no")) ++
  line "key_count" (pg_redis_format_int64 (key_count st)) ++
  line "memory_usage" (pg_redis_format_int64 (memory_usage st)).

Definition pg_redis_info : M (Server Interval) bytes :=
  ensure_loaded ;; gets (fun s => info_text (pg_redis_store_collect_stats (kv (sv_backend s)))).

(** The columns of the record. *)
Definition pg_redis_stats : M (Server Interval) (list Z) :=
  ensure_loaded ;;
  gets (fun s =>
    let st := pg_redis_store_collect_stats (kv (sv_backend s)) in
    [key_count st; string_count st; int_count st; hash_count st; list_count st; expiring_count st; memory_usage st]).

Definition pg_redis_save : M (Server Interval) bool :=
  ensure_loaded ;; on_process (pg_redis_persistence_save_snapshot clock) ;; mret true.

(** The INSERT: a snapshot_save job every hour, due at [now()]. *)
Definition bgsave_job (now : Z) : Job Interval :=
  {| job_type := bs "snapshot_save"; schedule_interval := one_hour; job_enabled := true;
     last_run := None; next_run := Some now; job_last_error := None |}.

Definition pg_redis_bgsave : M (Server Interval) bool :=
  ensure_loaded ;;
  modify (fun s =>
    {| sv_backend := sv_backend s; sv_snapshots := sv_snapshots s;
       sv_jobs := {| jobs := <[sv_job_seq s := bgsave_job (xact_now (sv_backend s))]> (jobs (sv_jobs s));
                     job_stats := job_stats (sv_jobs s) |};
       sv_job_seq := sv_job_seq s + 1 |}) ;;
  mret true.

Definition pg_redis_bgrewriteaof : M (Server Interval) bool := mret false.

Definition pg_redis_run_job (tod : (Z * Z) * (Z * Z)) (job_id : Z) : M (Server Interval) bool :=
  ensure_loaded ;;
  ((fun s =>
    let '(ok, (t, (b, snaps))) :=
      pg_redis_jobs_run_one (process_handlers cfg clock message) (xact_now (sv_backend s)) tod job_id
        (sv_jobs s, (sv_backend s, sv_snapshots s)) in
    (Ret ok, {| sv_backend := b; sv_snapshots := snaps; sv_jobs := t; sv_job_seq := sv_job_seq s |})) : M (Server Interval) bool).
End Admin.

(** Heads, pending events and stuck slots; zeroes without shared memory. *)
Definition pg_redis_ring_inspect (ring : option Ring) : Z * Z * Z * Z :=
  from_option pg_redis_dirty_ring_inspect (0, 0, 0, 0) ring.
(** NULL without shared memory. *)
Definition pg_redis_load_state (header : option LoadHeader) : option Z := loaded <$> header.

(** ** Reports *)

Section Laws.
Context `{JsonText} `{IntervalArith Interval} (one_hour : Interval).
Context (cfg : Config) (enable_bgworker : bool) (clock : nat -> Z).

Lemma ensure_loaded_again (s : Server Interval) :
  persistence_loaded (sv_backend s) = true -> ensure_loaded cfg clock s = (Ret tt, s).
Proof.
  intros Hl. unfold ensure_loaded, on_session, on_process, pg_redis_persistence_load_if_needed.
  rewrite bind_unfold. cbn [gets fst]. rewrite Hl. cbn. by destruct s.
Qed.

(** MEMORY_USAGE, STATS and INFO report the same numbers. *)
Lemma reports_agree (s : Server Interval) :
  persistence_loaded (sv_backend s) = true ->
  exists m cols, pg_redis_memory_usage cfg clock s = (Ret m, s) /\ pg_redis_stats cfg clock s = (Ret cols, s) /\
    last cols = Some m /\ head cols = Some (pg_redis_store_count (kv (sv_backend s))) /\
    pg_redis_info cfg enable_bgworker clock s =
      (Ret (info_text cfg enable_bgworker (pg_redis_store_collect_stats (kv (sv_backend s)))), s).
Proof.
  intros Hl. pose proof (stats_consistent (kv (sv_backend s))) as (_ & Hc & _ & Hm).
  unfold pg_redis_memory_usage, pg_redis_stats, pg_redis_info.
  rewrite !(bind_Ret _ _ _ _ _ (ensure_loaded_again s Hl)). do 2 eexists. split; [done|]. split; [done|].
  cbn [last head]. rewrite Hm, Hc. done.
Qed.

(** ** BGSAVE *)

(** [k] calls. *)
Definition bgsaves (k : nat) : M (Server Interval) unit :=
  for_each (replicate k tt) (fun _ => pg_redis_bgsave one_hour cfg clock ;; mret tt).

Lemma bgsaves_eq k : forall s : Server Interval,
  persistence_loaded (sv_backend s) = true ->
  exists s', bgsaves k s = (Ret tt, s') /\ sv_backend s' = sv_backend s /\ sv_job_seq s' = sv_job_seq s + Z.of_nat k /\
    job_stats (sv_jobs s') = job_stats (sv_jobs s) /\
    forall id, jobs (sv_jobs s') !! id =
      if decide (sv_job_seq s <= id < sv_job_seq s + Z.of_nat k) then Some (bgsave_job one_hour (xact_now (sv_backend s)))
      else jobs (sv_jobs s) !! id.
Proof.
  induction k as [|k IH]; intros s Hl.
  { exists s. repeat (split; [done || lia|]). intros id. by rewrite decide_False by lia. }
  unfold bgsaves. cbn [replicate for_each]. rewrite bind_unfold.
  unfold pg_redis_bgsave at 1. rewrite bind_unfold, (bind_Ret _ _ _ _ _ (ensure_loaded_again s Hl)).
  cbn [modify]. rewrite bind_unfold. cbn [modify mret M_ret].
  match goal with |- context [for_each _ _ ?x] => set (s1 := x) end.
  destruct (IH s1 Hl) as (s' & E & Hb & Hseq & Hst & Hj). exists s'. split; [exact E|]. split; [done|].
  split; [rewrite Hseq; cbn; lia|]. split; [done|]. intros id. rewrite Hj. cbn.
  destruct (decide (id = sv_job_seq s)) as [->|Hne].
  - rewrite lookup_insert_eq, (decide_True (P := sv_job_seq s <= _ < _)) by lia. by case_decide.
  - rewrite lookup_insert_ne by done. repeat case_decide; done || lia.
Qed.
End Laws.

(** Every BGSAVE leaves an hourly job behind.  After [k] calls there are [k]
    new snapshot_save jobs, all due at once; and when the due jobs are run, at any
    later time and whatever comes of it, each of the [k] is still enabled and due
    again an hour after that run. *)
Theorem bgsave_repeats `{JsonText} `{IntervalArith Interval} {X : Type} (one_hour : Interval) (cfg : Config) (clock : nat -> Z)
    (hs : Handlers X) (k : nat) (s : Server Interval) (t : Z) (tod : Z -> (Z * Z) * (Z * Z)) (x : X) :
  persistence_loaded (sv_backend s) = true -> 0 < sv_job_seq s -> jobs (sv_jobs s) !! 0 = None ->
  xact_now (sv_backend s) <= t ->
  exists s', bgsaves one_hour cfg clock k s = (Ret tt, s') /\
    let '(_, (jt, _)) := pg_redis_jobs_run_due hs t tod (sv_jobs s', x) in
    forall i, sv_job_seq s <= i < sv_job_seq s + Z.of_nat k ->
      i ∈ due_jobs (xact_now (sv_backend s)) (sv_jobs s') /\
      forall t', add_interval t one_hour <= t' -> i ∈ due_jobs t' jt.
Proof.
  intros Hl Hseq Hzero Ht. destruct (bgsaves_eq one_hour cfg clock k s Hl) as (s' & -> & Hb & _ & _ & Hj).
  exists s'. split; [done|]. unfold pg_redis_jobs_run_due. cbn [fst].
  pose proof (run_ids_spec hs t tod (due_jobs t (sv_jobs s')) (sv_jobs s', x) (due_NoDup t _)) as Hr. cbn [fst] in Hr.
  destruct (run_ids hs t tod (due_jobs t (sv_jobs s')) (sv_jobs s', x)) as [n [jt x']]. cbn [fst] in Hr.
  destruct Hr as [_ Hall].
  { rewrite elem_of_due. intros (j & Hj0 & _). rewrite Hj, decide_False in Hj0 by lia. congruence. }
  { intros id (j & Hjid & Hd)%elem_of_due. exists j. split; [done|]. by apply andb_true_iff in Hd as [? _]. }
  intros i Hi. pose proof (Hj i) as Hji. rewrite decide_True in Hji by done.
  assert (Hdue : forall u, xact_now (sv_backend s) <= u -> i ∈ due_jobs u (sv_jobs s')).
  { intros u Hu. apply elem_of_due. eexists. split; [done|]. unfold job_due. cbn. by apply Z.leb_le. }
  split; [by apply Hdue|]. intros t' Ht'. specialize (Hall i). rewrite decide_True in Hall by (by apply Hdue).
  destruct Hall as (j & ok & err & Hj0 & Hj1 & _). rewrite Hji in Hj0. injection Hj0 as <-.
  apply elem_of_due. eexists. split; [done|]. unfold job_due. cbn. by apply Z.leb_le.
Qed.

(** ** Witness *)

#[local] Instance plus_microseconds : IntervalArith Z := Z.add.
#[local] Instance plain_json : JsonText := {| escape_json := id; timestamptz_out _ := [] |}.

Definition demo_admin : Server Z :=
  {| sv_backend := set_loaded true demo_process; sv_snapshots := [];
     sv_jobs := {| jobs := ∅; job_stats := ∅ |}; sv_job_seq := 1 |}.

Lemma bgsave_repeats_witness :
  exists s', bgsaves 3600 default_config (fun _ => 0) 3 demo_admin = (Ret tt, s') /\
    let '(_, (jt, _)) := pg_redis_jobs_run_due demo_handlers 10 (fun _ => ((0, 0), (0, 0))) (sv_jobs s', tt) in
    3 ∈ due_jobs 3610 jt.
Proof.
  destruct (bgsave_repeats 3600 default_config (fun _ => 0) demo_handlers 3 demo_admin 10 (fun _ => ((0, 0), (0, 0))) tt)
    as (s' & E & Hx); [reflexivity|reflexivity|reflexivity|vm_compute; discriminate|].
  exists s'. split; [exact E|]. destruct (pg_redis_jobs_run_due _ _ _ _) as [n [jt x']].
  apply (Hx 3); [cbn; lia|]. vm_compute. discriminate.
Defined.

(** RUN_JOB of a scheduled snapshot stores one. *)
Example run_bgsave_job :
  let '(r, s) := (pg_redis_bgsave 3600 default_config (fun _ => 0) ;;
                  pg_redis_run_job default_config (fun _ => 0) (fun _ => []) ((0, 0), (0, 0)) 1) demo_admin in
  r = Ret true /\ sv_snapshots s = [(0, bs "[]")] /\ counters (sv_jobs s) 1 = (1, 1, 0).
Proof. vm_compute. done. Qed.
