(* ===== verification/Divergences.v ===== *)
(** * Where session mode departs from what its comments and documentation say

    Each example runs the model of the commands, of commit and of rollback on a
    concrete history.  They delimit the hypotheses of the theorems: a
    collection re-created under a key whose rows are still there
    ([fresh_slate]), a rolled-back transaction, an empty collection.  The last
    one shows that mode [aof] writes nothing. *)
From S2P Require Import Prelude Types Binval Utils ListValue HashValue StoreInterface KvStore Commands.
From S2P Require Import CommandSpec Db Persistence Session.

Abbreviation script := (session_script default_config demo_clock).
Abbreviation commit := (commit_xact default_config).

(** Run for the final state. *)
Definition after {A} (m : M Backend A) (s : Backend) : Backend := (m s).2.
(** A new backend over the same tables. *)
Definition reconnect (s : Backend) : Backend :=
  {| kv := kv_empty; persistence_loaded := false; db := db_committed s; db_committed := db_committed s;
     xact_now := xact_now s; readings := readings s |}.

Definition one_item_list : Backend := after (script [RPUSH (bs "l") (bs "a")] ;; commit) demo_warm.
Definition recreate_list : M Backend unit :=
  script [DEL (bs "l"); RPUSH (bs "l") (bs "b")] ;; commit.

(** Run_flush drops the tombstone of a key that is dirty again, so the old
    item rows stay and the plain INSERT of ordinal 0 meets one of them: the
    transaction DEL, RPUSH cannot commit. *)
Example recreated_list_cannot_commit :
  (recreate_list one_item_list).1 = Raise ERRCODE_UNIQUE_VIOLATION.
Proof. vm_compute. reflexivity. Qed.


(** The transaction DEL, HSET on a hash commits, and the deleted field
    comes back after a reconnect. *)
Example recreated_hash_resurrects_field :
  let s1 := after (script [HSET (bs "h") (bs "old") (bs "1")] ;; commit) demo_warm in
  let s2 := after (script [DEL (bs "h"); HSET (bs "h") (bs "new") (bs "2")] ;; commit) s1 in
  (script [HGET (bs "h") (bs "old")] s2).1 = Ret [RText None] /\
  (script [HGET (bs "h") (bs "old")] (reconnect s2)).1 = Ret [RText (Some (bs "1"))].
Proof. vm_compute. repeat split. Qed.

(** "Force a re-load next time so the in-memory view re-syncs with the
    (rolled-back) durable state": the reload adds to the memory it finds, so a
    key set by the aborted transaction survives in the session. *)
Example rollback_keeps_aborted_write :
  let s := after (script [SET (bs "k") (bs "v")] ;; abort_xact) demo_warm in
  (script [GET (bs "k")] s).1 = Ret [RText (Some (bs "v"))] /\ store (db s) !! bs "k" = None.
Proof. vm_compute. repeat split. Qed.

(** After the rollback of a transaction that pushed to a list, the reload
    pushes the durable items behind those the session still holds: a list of
    one durable item has three for the session and one for a new backend. *)
Example rollback_doubles_list_items :
  let s := after (script [RPUSH (bs "l") (bs "b")] ;; abort_xact) one_item_list in
  (script [LLEN (bs "l")] s).1 = Ret [RInt 3] /\
  (script [LLEN (bs "l")] (reconnect s)).1 = Ret [RInt 1].
Proof. vm_compute. repeat split. Qed.

(** A row whose bytes do not decode is announced as skipped; the removal that
    skips it records a tombstone, and the next commit deletes the row. *)
Example undecodable_row_is_deleted :
  let bad := {| sr_type := bs "int"; sr_value := Some (bs "?"); sr_expire_at := None; sr_version := 1 |} in
  let tables := {| store := {[ bs "c" := bad ]}; hash_fields := ∅; list_items := ∅ |} in
  let s := {| kv := kv_empty; persistence_loaded := false; db := tables; db_committed := tables;
              xact_now := 0; readings := 0 |} in
  store (db_committed (after (script [GET (bs "other")] ;; commit) s)) !! bs "c" = None.
Proof. vm_compute. reflexivity. Qed.

(** A list drained by pops is still a key for its backend, and no key at all
    for the next one. *)
Example drained_list_vanishes :
  let s := after (script [RPUSH (bs "l") (bs "a"); LPOP (bs "l")] ;; commit) demo_warm in
  (script [EXISTS (bs "l")] s).1 = Ret [RBool true] /\
  (script [EXISTS (bs "l")] (reconnect s)).1 = Ret [RBool false].
Proof. vm_compute. repeat split. Qed.

(** The README has the mode 'aof' fall back to 'sync_table'; a transaction under
    it commits and leaves the tables empty. *)
Example aof_mode_writes_nothing :
  let cfg := {| pg_redis_persistence_mode := Some (bs "aof"); pg_redis_storage_mode := Some (bs "session");
                pg_redis_max_key_size := 1024; pg_redis_max_value_size := 1048576; shmem_initialized := false |} in
  let '(r, s) := (session_script cfg demo_clock [SET (bs "k") (bs "v")] ;; commit_xact cfg) demo_warm in
  r = Ret tt /\ store (db_committed s) = ∅.
Proof. vm_compute. done. Qed.
